(* ===== verification/_CoqProject ===== *)
-Q . S2P
Prelude.v
Clock.v
Value.v
F32.v
TopK.v
Crdt.v
Merge.v
OpQueue.v
RelIndex.v
Paths.v
Records.v
Keys.v
Engine.v
Segment.v
Cells.v
Recovery.v
Vacuum.v
Input.v
Inner.v
Read.v
View.v
Query.v
IndexScan.v
Traversal.v
InnerWf.v
Tx.v
Db.v
IndexQuery.v
Blob.v
SessionAuth.v
Protocol.v
Change.v
Vector.v
Scan.v
Router.v
AppRoute.v
Serve.v
Watch.v
Relay.v
Text.v
TextRank.v
TextSearch.v
TextStore.v
Caches.v
Hub.v
Overlay.v
Session.v
SessionWf.v
FanIn.v
Auth.v
Persist.v
