(* ===== verification/Prelude.v ===== *)
(** * PrimaDB: a verification of the database, its storage and its synchronization

PrimaDB is a local-first graph database.  A replica keeps a graph of nodes in
memory; a node has fields, and a field holds a scalar, bytes, a blob reference, a
link to another node or a set of members.  Every change is an operation stamped
with a hybrid-clock revision; operations are applied to the graph by
last-writer-wins rules, queued for peers and for storage, and rolled back when a
transaction fails.  Nodes are loaded from storage when they are first needed and
written back by commits of a journaled file store.  Peers exchange operations,
requests and watches as routed messages, over a relay, an in-memory hub or an
overlay of underlays; a session authenticates its peers, sends what is queued and
answers what is asked.  This library models these parts of [src/src] and proves
what makes them correct.

** The parts and where they are modelled

The graph and its operations:

- [Prelude]: total orders, machine widths, string helpers, [PrimadbError] of
  [error.rs], [BTreeMap] iteration order, sorting.
- [Clock]: [clock.rs].  [HybridClock] is a record; each method is a function from
  the clock to its result and the new clock, the wall clock being an argument.
- [Value]: the data of [value.rs], [operation.rs], [record.rs], [binary.rs] and
  [blob.rs], and [serde_json::Value] as the default features have it.
- [F32]: single-precision numbers as bit patterns, with the IEEE 754 operations of
  the standard library; the logarithm is the platform's.  [TopK]: Rust's
  [BinaryHeap] as the bounded heap of the best results, which keeps the first of a
  sort.
- [Crdt]: the graph update of [Inner::apply_operation_internal].
- [Merge]: [merge_node_state], [merge_field_state], [merge_set_state] and what a
  snapshot import does with them.
- [OpQueue]: [CompactedOperations], [OperationQueueUndo].
- [RelIndex]: [RelationshipIndex] and its maintenance.

Names, records and storage:

- [Paths]: path strings, [consistency.rs], scope policies and the checks made
  before writes and transactions.
- [Records]: keyed records, their overlay and paged scans; the class
  [RecordStore] states what a storage engine promises a scan.
- [Keys]: key encodings of [engine.rs].
- [Engine]: storage transactions, the scalar index of a node and its keys, the
  metadata of a store ([engine.rs]).
- [Segment]: the segment file store of [engine.rs] over a disk whose next changes
  may fail: journal, commit records, checkpoints, commit, recovery.  [Cells] gives
  a commit its meaning as assignments to files and index entries, [Recovery] proves
  commits and recovery correct against it, and [Vacuum] is the rewriting of a store.
- [IndexScan]: the scans of the scalar index of a segment store, the order and the
  window of what they return, and that commits leave a store that can be scanned.
- [Blob]: [blob.rs].  The class [BlobStore] is the trait, [BlobStoreLaws] what the
  database relies on; the memory and the file store are instances of both.
- [Persist]: the write-back of the database to the segment store, opening and
  vacuuming ([persist_if_needed], [attach_incremental_store], [vacuum_storage]).

The database:

- [Input]: [parse_input] and the marker objects; the class [Codec] stands for
  base64 and the serialized blob reference.
- [Inner]: the state behind the lock as the record [Inner], a state-and-error
  monad [M] whose errors keep the writes made before them, journaling, lazy
  loading, path resolution and every unsigned write.  The class [Env] is what
  lies outside: the wall clock, the key hash, the storage engine, how a stored
  scalar is shown.  [EnvLaws] is what is relied on of the engine.
- [Read]: materialization, existence and revision of a path.  [View]: what a state
  shows once nodes are loaded; reads as functions of it.
- [Query]: [query.rs] and [query_at]; [Scan]: [map_at] and the lexical scan;
  [Traversal]: [traversal.rs] and [traverse_at].  [IndexQuery]:
  [query_with_storage_indexes], against any engine whose scans return a window of its
  index by rank.
- [InnerWf]: the invariant [inner_wf] of the state, the journal's meaning, and
  that every operation keeps both; the hint database [safe] collects the facts.
- [Tx]: the journal's begin and restore, [run_local_transaction], transaction
  steps, record batches.
- [Db]: the database as its callers see it, the reachable states, root
  snapshots, attaching a store, and concrete runs.
- [Change]: change events, their merging and which watch a change concerns.
  [Watch]: subscriptions, their bounded queues and the notification round.

Search:

- [Vector]: the records of [vector.rs], its three metrics, exact search, the
  records' scan and the vector calls of [db.rs].
- [Text]: the tokenizer, the stored documents and their validation, the projection
  of a field's text ([text_search.rs]).  [TextRank]: the inverted index of a
  collection and the statistics it keeps, against the documents they come from.
  [TextSearch]: searching a collection, the candidate search of a fan-in, the BM25
  scores.  [TextStore]: text records, the cache files, and the text calls of
  [db.rs].
- [Caches]: the caches of collections behind the lock and their rebuilding outside
  it.  The class [CollectionKind] is what the vector and the text caches have in
  common (the two copies of the code), with an instance for each; rebuilds run as
  workers of a step relation interleaved with writes.

Synchronization:

- [Protocol]: [sync.rs], the frames, requests, responses and watch events, how a
  result is cut into chunks and put together again.
- [SessionAuth]: [session_auth.rs], challenges, answers and trust.  [Auth]:
  [auth.rs], users, grants, certificates, signed frames and values, sealed
  snapshots.  Keys, signatures and ciphers are parameters with their laws.
- [Router]: [router.rs], wrapping and acceptance of routes with their caches.
  [Relay]: the relay's routing of envelopes; [Hub]: the in-memory hub of
  [transport.rs].
- [AppRoute]: [app_route.rs], application messages and their bus.  [Overlay]:
  [overlay.rs], the choice of an underlay, pumping, application streams.
- [Serve]: [hooks.rs] and the serving of a peer's request.
- [Session]: the synchronization session of [native_sync.rs] as a monad [Task] over
  the record [SyncState] whose field [db] is the database: the queue of operations,
  acknowledgements, every handler of a route, watches.  [SessionWf]: its
  invariants, over the step relation [session_step].
- [FanIn]: the choice of peers and the merging of their records.

A definition carries the name of the function it translates.  [BTreeMap]s with
string keys are [gmap string], iterated in key order by [btree_list]; [Vec]s are
lists; an [Option] is [option], a [Result] is [result]; [u64] and [usize] values
that saturate or wrap are integers with that written out.  A panic of the source
that the invariants exclude (an index out of range in a queue, a missing journal)
is noted at the definition.

** What is proved

- Replication: operations on registers and set membership converge in any order
  and with any duplication (C1, C2); applying one is exactly the per-slot rule
  (C10); merging snapshots is exchanging operations (C23); compacting the queue
  loses nothing (C24).  Where a whole-set write or a field deletion meets set
  operations these statements fail, with the runs that show it
  ([mixed_writes_diverge], [set_write_lost_by_merge],
  [compaction_reorders_set_write]).
- Transactions and invariants: a failed transaction or batch restores the state
  exactly (C3, C9); every reachable state is well formed (C4), its index being the
  graph's; the revisions a clock issues are new ([issued_revision_newest]).
- Storage: after any crash, recovery gives what the commits on record wrote (C5),
  and a commit is on record or leaves no trace (C29); a reopened database is the
  one that was persisted (C30) and memory never contradicts the disk (C31); a blob
  is kept as long as it is not deleted (C32), and stored whole or not at all
  ([put_atomic]).
- Reading: reads end on cyclic graphs (C25) and do not affect each other
  ([reads_do_not_interfere]); a query's lookups agree with full materialization
  (C11) and, where it answers, with the storage index (C12); a traversal lists what
  is reachable and its [complete] flag is right in memory (C13); a map reads the
  children there are (C26); a root snapshot holds exactly what the root reaches
  (C28); page-by-page reads are complete (C39), also over storage
  ([storage_scan_exact]).
- Watching: a subscriber that reads its queue ends with the current value (C14);
  a change tells exactly the subscribers whose answer it changed
  ([subscribers_told]).
- Search: a cache that is ready was built from the records the database holds now,
  whatever writes and rebuilds were interleaved (C15); a text search through the
  index returns what ranking every document would (C16), also for the candidates
  of a fan-in (C17), and served through the cache it ranks the stored records
  (C18); a vector read back is the vector written (C33).
- Sessions: operations a session takes are applied at a peer, in flight or queued
  again, never lost between (C6); an identity held for a peer was answered to a
  challenge of this session (C7); a peer that is not authenticated changes nothing
  (C8); an answer is accepted exactly under the documented conditions (C36); serving
  a read changes nothing but what is loaded (C27).
- Signatures: which signed frames (C19) and signed values (C20) are accepted, and
  that a delegated write verifies (C21).
- Messages: chunking and streams deliver what was sent (C34, C22); the merge of
  several peers' records holds the best entry of each key and reports each
  disagreement (C35); the hub and the bus deliver to those addressed (C38,
  [bus_delivers]); the caches of a router stay within their limits (C37);
  coordinated scopes are written by their authority only (C40).

Each component also has lemmas that show where the code departs from its
documentation or from these statements, with concrete runs.

** Bounds

Recursion that is not structural takes a fuel argument, and each bound is proved
to be enough: a hexadecimal number has at most sixteen digits; a read descends at
most once into each node there is in memory or storage ([read_fuel], C25); the
closure of a root pops each queued entry once and expands each node once
([closure_fuel], C28); a traversal expands each node once (C13); a scan over
storage reads at most one page more than there are records
([storage_scan_ends], and [collect_locked_ends] for the bound used inside a
batch); the body of a stream has as many chunks as were received ([join_chunks]).
A rebuild of a cache is retried while writes interfere: alone, one round is enough,
and beside writers the rounds are steps of the relation.  The counts of a text
index are turned into single precision exactly while they are below 2^24, which the
search theorems assume of a document's terms.
Queries and path resolution recurse on the path, writes on the value written, the
handling of a route on its items, a notification round on the subscribers.

** What is not modelled

Code that calls third-party stacks or does only input and output: sockets, the
mesh, the MoQ transports and the relay server ([native_mesh.rs], [native_moq.rs],
[native_relay_server.rs]), the browser runtime ([wasm.rs]), the scripting engine,
the language bindings, the JSON and binary encoders, the primitives of
[crypto.rs].  The approximate nearest-neighbour index of [vector.rs] (the feature
vector-edgevec, a third-party graph), the Gun adapter ([compat.rs]) and the
whole-snapshot backends ([storage.rs], [persistence.rs]).  Within [db.rs]:
signed writes, provisional transactions, statistics and setters; of the fan-in, its
watches.  Concurrency: every operation of the
database runs under one mutex, which makes it a function from state to state; a
session is the sequence of its tasks' steps, and the rebuilding of search caches,
which leaves the lock, is interleaved with writes in [Caches]. *)
From stdpp Require Import base gmap sets list strings sorting.
From Stdlib Require Import ZArith Lia.
From Stdlib Require Ascii.
Export (notations) Stdlib.Strings.Ascii.

Declare Scope primadb_scope.
Delimit Scope primadb_scope with primadb.

(** * Total orders

Rust's [Ord] as a class: a three-way comparison with the laws the standard
library documents for it.  [leb]/[ltb]/[omax] are the derived operators the
sources use ([<=], [<], [std::cmp::max]). *)

Class TotalOrd (A : Type) := {
  cmp : A → A → comparison;
  cmp_eq : ∀ x y, cmp x y = Eq ↔ x = y;
  cmp_opp : ∀ x y, cmp y x = CompOpp (cmp x y);
  cmp_lt_trans : ∀ x y z, cmp x y = Lt → cmp y z = Lt → cmp x z = Lt
}.

Section order.
Context `{TotalOrd A}.
Implicit Types x y z : A.

Definition olt x y : Prop := cmp x y = Lt.
Definition ole x y : Prop := cmp x y ≠ Gt.
Definition ltb x y : bool := match cmp x y with Lt => true | _ => false end.
Definition leb x y : bool := match cmp x y with Gt => false | _ => true end.
Definition omax x y : A := if ltb y x then x else y.

Lemma cmp_refl x : cmp x x = Eq.
Proof. by apply cmp_eq. Qed.

Lemma olt_irrefl x : ¬ olt x x.
Proof. unfold olt. by rewrite cmp_refl. Qed.

Lemma olt_gt x y : olt x y ↔ cmp y x = Gt.
Proof. unfold olt. rewrite (cmp_opp x y). destruct (cmp x y); done. Qed.

Lemma ole_iff x y : ole x y ↔ olt x y ∨ x = y.
Proof.
  unfold ole, olt. rewrite <-cmp_eq. destruct (cmp x y); naive_solver.
Qed.

Lemma olt_trans x y z : olt x y → olt y z → olt x z.
Proof. apply cmp_lt_trans. Qed.

Lemma ole_lt_trans x y z : ole x y → olt y z → olt x z.
Proof. rewrite ole_iff. intros [?| ->]; eauto using olt_trans. Qed.

Lemma olt_le_trans x y z : olt x y → ole y z → olt x z.
Proof. rewrite ole_iff. intros ? [?| <-]; eauto using olt_trans. Qed.

Lemma ole_trans x y z : ole x y → ole y z → ole x z.
Proof. rewrite !ole_iff. intros [?| ->] [?| <-]; eauto using olt_trans. Qed.

Lemma ole_refl x : ole x x.
Proof. rewrite ole_iff. by right. Qed.

Lemma not_olt x y : ¬ olt x y ↔ ole y x.
Proof. rewrite olt_gt. done. Qed.

Lemma not_ole x y : ¬ ole x y ↔ olt y x.
Proof. unfold ole. rewrite olt_gt. destruct (cmp x y); naive_solver. Qed.

Lemma ole_antisymm x y : ole x y → ole y x → x = y.
Proof.
  rewrite !ole_iff. intros [?|?] [?|?]; try done.
  destruct (olt_irrefl x). eauto using olt_trans.
Qed.

Lemma olt_le x y : olt x y → ole x y.
Proof. rewrite ole_iff. by left. Qed.

Lemma leb_ole x y : leb x y = true ↔ ole x y.
Proof. unfold leb, ole. destruct (cmp x y); naive_solver. Qed.

Lemma ltb_olt x y : ltb x y = true ↔ olt x y.
Proof. unfold ltb, olt. destruct (cmp x y); naive_solver. Qed.

Lemma leb_false x y : leb x y = false ↔ olt y x.
Proof. rewrite <-not_true_iff_false, leb_ole. apply not_ole. Qed.

Lemma ltb_false x y : ltb x y = false ↔ ole y x.
Proof. rewrite <-not_true_iff_false, ltb_olt. apply not_olt. Qed.

Lemma olt_or_ole x y : olt x y ∨ ole y x.
Proof. destruct (ltb x y) eqn:E; [left; by apply ltb_olt|right; by apply ltb_false]. Qed.
End order.

(** The reasoning step that closes order goals: translate the boolean tests to
[olt]/[ole], then saturate transitivity until the context is contradictory. *)
Ltac ord_norm :=
  repeat match goal with
  | H : leb ?x ?y = true |- _ => apply leb_ole in H
  | H : leb ?x ?y = false |- _ => apply leb_false in H
  | H : ltb ?x ?y = true |- _ => apply ltb_olt in H
  | H : ltb ?x ?y = false |- _ => apply ltb_false in H
  | H : ¬ olt ?x ?y |- _ => apply not_olt in H
  | H : ¬ ole ?x ?y |- _ => apply not_ole in H
  | H : is_true (leb ?x ?y) |- _ => apply leb_ole in H
  | H : is_true (ltb ?x ?y) |- _ => apply ltb_olt in H
  end.

Ltac ord_have P tac :=
  lazymatch goal with
  | H : P |- _ => fail
  | _ => assert P by tac
  end.

Ltac ord_saturate :=
  repeat match goal with
  | H : olt ?x ?x |- _ => exfalso; exact (olt_irrefl x H)
  | H1 : olt ?x ?y, H2 : olt ?y ?z |- _ =>
      ord_have (olt x z) ltac:(exact (olt_trans x y z H1 H2))
  | H1 : ole ?x ?y, H2 : olt ?y ?z |- _ =>
      ord_have (olt x z) ltac:(exact (ole_lt_trans x y z H1 H2))
  | H1 : olt ?x ?y, H2 : ole ?y ?z |- _ =>
      ord_have (olt x z) ltac:(exact (olt_le_trans x y z H1 H2))
  | H1 : ole ?x ?y, H2 : ole ?y ?z |- _ =>
      lazymatch x with
      | z => fail
      | _ => ord_have (ole x z) ltac:(exact (ole_trans x y z H1 H2))
      end
  end.

(** [ord] proves goals of the form [olt], [ole], [=], boolean comparisons, or
[False] from order hypotheses in the context. *)
Ltac ord_core :=
  intros; ord_norm; subst;
  lazymatch goal with
  | |- leb ?x ?y = true => apply leb_ole; ord_core
  | |- leb ?x ?y = false => apply leb_false; ord_core
  | |- ltb ?x ?y = true => apply ltb_olt; ord_core
  | |- ltb ?x ?y = false => apply ltb_false; ord_core
  | |- olt ?x ?y =>
      let H := fresh in
      destruct (olt_or_ole x y) as [H|H]; [exact H|exfalso; ord_saturate]
  | |- ole ?x ?y =>
      let H := fresh in
      destruct (olt_or_ole y x) as [H|H]; [exfalso; ord_saturate|exact H]
  | |- ¬ _ => let H := fresh in intros H; ord_core
  | |- ?x ≠ ?y => let H := fresh in intros H; ord_core
  | |- False => ord_saturate
  | |- ?x = ?y => apply ole_antisymm; ord_core
  | |- _ => exfalso; ord_saturate
  end.

Ltac ord := solve [ord_core].

(** Lexicographic composition: [a.cmp(b).then_with(|| ...)]. *)
Definition then_with (c1 c2 : comparison) : comparison :=
  match c1 with Eq => c2 | _ => c1 end.

Lemma then_with_opp c1 c2 : CompOpp (then_with c1 c2) = then_with (CompOpp c1) (CompOpp c2).
Proof. by destruct c1. Qed.

Lemma then_with_lt_trans `{TotalOrd A} (x y z : A) c1 c2 c3 :
  (c1 = Lt → c2 = Lt → c3 = Lt) →
  then_with (cmp x y) c1 = Lt → then_with (cmp y z) c2 = Lt →
  then_with (cmp x z) c3 = Lt.
Proof.
  intros Hc.
  destruct (cmp x y) eqn:E1; destruct (cmp y z) eqn:E2; simpl; try done; intros.
  - apply cmp_eq in E1 as ->. apply cmp_eq in E2 as ->. rewrite cmp_refl. simpl. auto.
  - apply cmp_eq in E1 as ->. by rewrite E2.
  - apply cmp_eq in E2 as ->. by rewrite E1.
  - by rewrite (cmp_lt_trans _ _ _ E1 E2).
Qed.

#[global] Program Instance Z_ord : TotalOrd Z := {| cmp := Z.compare |}.
Next Obligation. apply Z.compare_eq_iff. Qed.
Next Obligation. intros. apply Z.compare_antisym. Qed.
Next Obligation. intros x y z. rewrite !Z.compare_lt_iff. lia. Qed.

(** Rust compares [String]s bytewise; [String.compare] is that order. *)
Lemma string_compare_refl s : String.compare s s = Eq.
Proof.
  induction s as [|a s IH]; simpl; [done|].
  unfold Ascii.compare. by rewrite N.compare_refl.
Qed.

Lemma string_compare_lt_trans x y z :
  String.compare x y = Lt → String.compare y z = Lt → String.compare x z = Lt.
Proof.
  revert y z. induction x as [|a x IH]; intros [|b y] [|c z]; simpl; try done.
  unfold Ascii.compare.
  destruct (N.compare_spec (Ascii.N_of_ascii a) (Ascii.N_of_ascii b)) as [E1|E1|E1]; try done;
  destruct (N.compare_spec (Ascii.N_of_ascii b) (Ascii.N_of_ascii c)) as [E2|E2|E2]; try done;
  intros H1 H2.
  - rewrite E1, E2, N.compare_refl. eauto.
  - rewrite (proj2 (N.compare_lt_iff _ _)); [done|lia].
  - rewrite (proj2 (N.compare_lt_iff _ _)); [done|lia].
  - rewrite (proj2 (N.compare_lt_iff _ _)); [done|lia].
Qed.

#[global] Program Instance string_ord : TotalOrd string := {| cmp := String.compare |}.
Next Obligation.
  intros x y. split; [apply String.compare_eq_iff|intros ->; apply string_compare_refl].
Qed.
Next Obligation. intros x y. apply String.compare_antisym. Qed.
Next Obligation. exact string_compare_lt_trans. Qed.

(** Lists compare element by element, a prefix first. *)
Fixpoint list_cmp `{TotalOrd A} (l k : list A) : comparison :=
  match l, k with
  | [], [] => Eq
  | [], _ => Lt
  | _, [] => Gt
  | x :: l, y :: k => then_with (cmp x y) (list_cmp l k)
  end.

#[global] Program Instance list_ord `{TotalOrd A} : TotalOrd (list A) := {| cmp := list_cmp |}.
Next Obligation.
  intros A HA l. induction l as [|x l IH]; intros [|y k]; try done. simpl.
  destruct (cmp x y) eqn:E; simpl; split; intros He; try done.
  - apply cmp_eq in E as ->. f_equal. by apply IH.
  - injection He as -> ->. by apply IH.
  - injection He as -> ->. by rewrite cmp_refl in E.
  - injection He as -> ->. by rewrite cmp_refl in E.
Qed.
Next Obligation.
  intros A HA l. induction l as [|x l IH]; intros [|y k]; try done. simpl.
  by rewrite then_with_opp, <-cmp_opp, <-IH.
Qed.
Next Obligation.
  intros A HA l. induction l as [|x l IH]; intros [|y k] [|z m]; try done. simpl.
  apply then_with_lt_trans, IH.
Qed.

(** * Machine integers

Unsigned integers are [Z] kept inside their width; the only arithmetic the
modelled code performs on them is the saturating kind. *)

Definition u8_max : Z := 2 ^ 8 - 1.
Definition u16_max : Z := 2 ^ 16 - 1.
Definition u32_max : Z := 2 ^ 32 - 1.
Definition u64_max : Z := 2 ^ 64 - 1.

(** [x.saturating_add(y)] at the width whose maximum is [m]. *)
Definition sat_add (m x y : Z) : Z := Z.min m (x + y).
(** [x.saturating_sub(y)]. *)
Definition sat_sub (x y : Z) : Z := Z.max 0 (x - y).

Definition in_width (m x : Z) : Prop := (0 ≤ x ≤ m)%Z.

Lemma sat_add_width m x y :
  in_width m x → (0 ≤ y)%Z → in_width m (sat_add m x y).
Proof. unfold in_width, sat_add. lia. Qed.

Lemma sat_add_lt m x : in_width m x → (x < m)%Z → (x < sat_add m x 1)%Z.
Proof. unfold in_width, sat_add. lia. Qed.

(** * Strings

A Rust [String] is its UTF-8 byte sequence. *)

(** [s.starts_with(p)] and [s.strip_prefix(p)]. *)
Fixpoint strip_prefix (p s : string) : option string :=
  match p, s with
  | EmptyString, _ => Some s
  | String a p', String b s' => if decide (a = b) then strip_prefix p' s' else None
  | String _ _, EmptyString => None
  end.

Definition starts_with (s p : string) : bool :=
  match strip_prefix p s with Some _ => true | None => false end.

(** [parts.join(sep)]. *)
Fixpoint join (sep : string) (parts : list string) : string :=
  match parts with
  | [] => ""
  | [x] => x
  | x :: rest => x +:+ sep +:+ join sep rest
  end.

(** [s.split(sep)] on one byte: the pieces between separators, at least one. *)
Fixpoint split_on (sep : Ascii.ascii) (s : string) : list string :=
  match s with
  | EmptyString => [""]
  | String b rest =>
      let pieces := split_on sep rest in
      if decide (b = sep) then "" :: pieces
      else match pieces with
           | [] => [String b ""]
           | piece :: more => String b piece :: more
           end
  end.

(** [s.contains(p)]. *)
Fixpoint contains_str (s p : string) : bool :=
  starts_with s p || match s with EmptyString => false | String _ rest => contains_str rest p end.

(** Lower-case hexadecimal, the [{:x}] format of an unsigned integer. *)
Definition hex_digit (d : Z) : Ascii.ascii :=
  Ascii.ascii_of_N (Z.to_N (if (d <? 10)%Z then 48 + d else 87 + d)).

Fixpoint hex_digits (fuel : nat) (n : Z) (acc : string) : string :=
  match fuel with
  | O => acc
  | S f =>
      let acc := String (hex_digit (n mod 16)) acc in
      if (n <? 16)%Z then acc else hex_digits f (n / 16) acc
  end.

(** Sixteen digits are enough for a [u64]. *)
Definition hex (n : Z) : string := hex_digits 16 n "".

Lemma str_app_nil_l s : "" +:+ s = s.
Proof. done. Qed.

Lemma str_app_cons a s t : String a s +:+ t = String a (s +:+ t).
Proof. done. Qed.

Lemma str_app_nil_r s : s +:+ "" = s.
Proof. induction s as [|a s IH]; [done|]. by rewrite str_app_cons, IH. Qed.

Lemma str_app_assoc s t u : (s +:+ t) +:+ u = s +:+ (t +:+ u).
Proof. induction s as [|a s IH]; [done|]. rewrite !str_app_cons. by f_equal. Qed.

Lemma str_app_inj_l s t u : s +:+ t = s +:+ u → t = u.
Proof. induction s as [|a s IH]; [done|]. rewrite !str_app_cons. intros [= ?]; auto. Qed.

Lemma str_length_app s t : String.length (s +:+ t) = String.length s + String.length t.
Proof. induction s as [|a s IH]; [done|]. rewrite str_app_cons. simpl. by rewrite IH. Qed.

Lemma strip_prefix_Some p s r : strip_prefix p s = Some r ↔ s = p +:+ r.
Proof.
  revert s. induction p as [|a p IH]; intros s; simpl.
  - rewrite str_app_nil_l. naive_solver.
  - rewrite str_app_cons. destruct s as [|b s]; [naive_solver|].
    case_decide; subst; [rewrite IH|]; naive_solver.
Qed.

Lemma starts_with_spec s p : starts_with s p = true ↔ ∃ r, s = p +:+ r.
Proof.
  unfold starts_with. destruct (strip_prefix p s) as [r|] eqn:E.
  - apply strip_prefix_Some in E. naive_solver.
  - split; [done|]. intros [r Hr]. apply strip_prefix_Some in Hr. congruence.
Qed.

(** [s.strip_suffix(p)]. *)
Fixpoint strip_suffix (p s : string) : option string :=
  if decide (s = p) then Some ""
  else match s with
       | EmptyString => None
       | String b rest => String b <$> strip_suffix p rest
       end.

Definition ends_with (s p : string) : bool :=
  match strip_suffix p s with Some _ => true | None => false end.

Lemma strip_suffix_app s p : strip_suffix p (s +:+ p) = Some s.
Proof.
  induction s as [|b s IH].
  - rewrite str_app_nil_l. destruct p; cbn [strip_suffix]; by rewrite decide_True.
  - rewrite str_app_cons. cbn [strip_suffix]. rewrite decide_False, IH; [done|].
    intros E. apply (f_equal String.length) in E. simpl in E. rewrite str_length_app in E. lia.
Qed.

(** Splitting at a separator. *)
Fixpoint free_of (c : Ascii.ascii) (s : string) : bool :=
  match s with EmptyString => true | String b rest => bool_decide (b ≠ c) && free_of c rest end.

Lemma free_of_app c s t : free_of c (s +:+ t) = free_of c s && free_of c t.
Proof. induction s as [|b s IH]; [done|]. rewrite str_app_cons. simpl. by rewrite IH, andb_assoc. Qed.

Lemma split_on_cons sep s : ∃ p ps, split_on sep s = p :: ps.
Proof.
  induction s as [|b s (p & ps & IH)]; simpl; [eauto|]. rewrite IH. case_decide; eauto.
Qed.

Lemma split_on_free sep s : free_of sep s = true → split_on sep s = [s].
Proof.
  induction s as [|b s IH]; [done|]. simpl. rewrite andb_true_iff, bool_decide_eq_true.
  intros [Hb Hs]. by rewrite IH, decide_False.
Qed.

Lemma split_on_app sep s t : split_on sep (s +:+ String sep t) = split_on sep s ++ split_on sep t.
Proof.
  induction s as [|b s IH]; [rewrite str_app_nil_l; simpl; by rewrite decide_True|].
  rewrite str_app_cons. simpl. rewrite IH. case_decide; [done|].
  destruct (split_on_cons sep s) as (p & ps & ->). done.
Qed.

(** * Errors

[PrimadbError]: the constructors the modelled operations raise. *)
Inductive PrimadbError :=
  | ExpectedObject (path : string)
  | ExpectedFieldPath (path : string)
  | ArrayOfObjectsUnsupported (path : string)
  | InvalidSetMember (path : string)
  | InvalidMemberReference (path : string)
  | TraversalIntoScalar (node field : string)
  | TraversalIntoSet (node field : string)
  | BrowserWindowUnavailable
  | BrowserStorageUnavailable
  | InvalidBinaryMarker (path : string)
  | InvalidBlobMarker (path : string)
  | BlobStoreUnavailable
  | BlobNotFound (blob_id : string)
  | TooManyRemoteWatches (limit : Z)
  | TransactionConflict (message : string)
  | StrictScopeUnavailable (scope : string)
  | StrictScopeConflict (message : string)
  | Serde (message : string)
  | Io (message : string)
  | Crypto (message : string)
  | Message (message : string).

#[global] Instance PrimadbError_eq_dec : EqDecision PrimadbError.
Proof. solve_decision. Defined.

(** [Result<T>]. *)
Inductive result (A : Type) :=
  | Ok (a : A)
  | Err (e : PrimadbError).
Arguments Ok {A} _.
Arguments Err {A} _.

#[global] Instance result_ret : MRet result := @Ok.
#[global] Instance result_bind : MBind result :=
  λ A B f r, match r with Ok a => f a | Err e => Err e end.
#[global] Instance result_fmap : FMap result :=
  λ A B f r, match r with Ok a => Ok (f a) | Err e => Err e end.

Definition is_ok {A} (r : result A) : bool :=
  match r with Ok _ => true | Err _ => false end.

(** * Ordered maps

A [BTreeMap<String, V>] is a [gmap string V]; where the code iterates over it,
[btree_list] gives its entries in key order. *)

Definition key_le {V} (p q : string * V) : Prop := String.le p.1 q.1.

#[global] Instance key_le_dec {V} : RelDecision (@key_le V).
Proof. intros p q. unfold key_le. apply _. Defined.

Definition btree_list {V} (m : gmap string V) : list (string * V) :=
  merge_sort key_le (map_to_list m).

Definition btree_keys {V} (m : gmap string V) : list string := (btree_list m).*1.

Definition btree_elems (s : gset string) : list string :=
  merge_sort String.le (elements s).

Lemma btree_list_perm {V} (m : gmap string V) : btree_list m ≡ₚ map_to_list m.
Proof. apply merge_sort_Permutation. Qed.

Lemma elem_of_btree_list {V} (m : gmap string V) k v :
  (k, v) ∈ btree_list m ↔ m !! k = Some v.
Proof. rewrite btree_list_perm. apply elem_of_map_to_list. Qed.

Lemma elem_of_btree_keys {V} (m : gmap string V) k :
  k ∈ btree_keys m ↔ is_Some (m !! k).
Proof.
  unfold btree_keys. rewrite list_elem_of_fmap. split.
  - intros ([k' v] & -> & Hin). apply elem_of_btree_list in Hin. eauto.
  - intros [v Hv]. exists (k, v). split; [done|]. by apply elem_of_btree_list.
Qed.

Lemma btree_keys_NoDup {V} (m : gmap string V) : NoDup (btree_keys m).
Proof.
  unfold btree_keys. rewrite btree_list_perm. apply NoDup_fst_map_to_list.
Qed.

Lemma btree_list_to_map {V} (m : gmap string V) : list_to_map (btree_list m) = m.
Proof.
  rewrite (list_to_map_proper _ (map_to_list m)); [apply list_to_map_to_list| |apply btree_list_perm].
  apply btree_keys_NoDup.
Qed.

Lemma elem_of_btree_elems s k : k ∈ btree_elems s ↔ k ∈ s.
Proof. unfold btree_elems. rewrite merge_sort_Permutation. apply elem_of_elements. Qed.

Lemma btree_list_sorted {V} (m : gmap string V) : Sorted key_le (btree_list m).
Proof. apply Sorted_merge_sort. intros p q. unfold key_le. apply (total String.le). Qed.

Lemma btree_keys_sorted {V} (m : gmap string V) : StronglySorted String.le (btree_keys m).
Proof.
  apply Sorted_StronglySorted; [intros x y z; apply transitivity|].
  unfold btree_keys. pose proof (btree_list_sorted m) as Hs. induction Hs as [|p l _ IH Hh]; [constructor|].
  rewrite fmap_cons. constructor; [done|]. destruct Hh; constructor. done.
Qed.

(** * Folding order-insensitive steps

A fold whose steps commute and are idempotent on a class of states depends only
on the set of elements folded.  Both convergence results use it. *)
Section fold_set.
Context {A S : Type} `{EqDecision A} (step : S → A → S) (P : S → Prop) (Q : A → Prop).
Hypothesis P_step : ∀ s a, P s → Q a → P (step s a).
Hypothesis step_comm : ∀ s a b, P s → Q a → Q b → step (step s a) b = step (step s b) a.
Hypothesis step_idem : ∀ s a, P s → Q a → step (step s a) a = step s a.

Lemma foldl_inv l s : P s → Forall Q l → P (foldl step s l).
Proof. revert s. induction l; intros s ? Hl; [done|]. inv Hl. simpl. eauto. Qed.

Lemma foldl_step_last a l s :
  P s → Q a → Forall Q l → foldl step (step s a) l = step (foldl step s l) a.
Proof.
  revert s. induction l as [|b l IH]; intros s Hs Ha Hl; [done|]. inv Hl. simpl.
  rewrite step_comm by done. rewrite IH by eauto. done.
Qed.

Lemma foldl_absorb a l s :
  P s → Forall Q l → a ∈ l → step (foldl step s l) a = foldl step s l.
Proof.
  revert s. induction l as [|b l IH]; intros s Hs Hl Hin; [by apply not_elem_of_nil in Hin|].
  inv Hl. simpl. apply elem_of_cons in Hin as [->|Hin]; [|eauto].
  rewrite <-foldl_step_last by eauto. by rewrite step_idem.
Qed.

Lemma foldl_extend l1 l2 s :
  P s → Forall Q l1 → Forall Q l2 → (∀ a, a ∈ l2 → a ∈ l1) →
  foldl step (foldl step s l1) l2 = foldl step s l1.
Proof.
  intros Hs H1 H2. revert H2. induction l2 as [|b l2 IH]; intros H2 Hsub; [done|].
  inv H2. simpl. rewrite foldl_absorb; [|done..|apply Hsub; left].
  apply IH; [done|]. intros. apply Hsub. by right.
Qed.

Lemma foldl_app_comm l1 l2 s :
  P s → Forall Q l1 → Forall Q l2 →
  foldl step (foldl step s l1) l2 = foldl step (foldl step s l2) l1.
Proof.
  revert s. induction l1 as [|a l1 IH]; intros s Hs H1 H2; [done|]. inv H1. simpl.
  rewrite IH by eauto. by rewrite foldl_step_last.
Qed.

Lemma foldl_same_set l1 l2 s :
  P s → Forall Q l1 → Forall Q l2 → (∀ a, a ∈ l1 ↔ a ∈ l2) →
  foldl step s l1 = foldl step s l2.
Proof.
  intros Hs H1 H2 Heq.
  rewrite <-(foldl_extend l1 l2 s) by naive_solver.
  rewrite foldl_app_comm by done.
  apply foldl_extend; naive_solver.
Qed.
End fold_set.

(** * Sorting

Sorting a mapped list is mapping the sorted list, when the map preserves the
comparison. *)
Section sort_fmap.
Context {A B : Type} (f : A → B) (R : relation A) (S : relation B) `{!RelDecision R, !RelDecision S}.
Hypothesis f_R : ∀ x y, S (f x) (f y) ↔ R x y.

Lemma list_merge_fmap l1 l2 : list_merge S (f <$> l1) (f <$> l2) = f <$> list_merge R l1 l2.
Proof using f_R.
  revert l2. induction l1 as [|x l1 IH1]; intros l2; [by rewrite fmap_nil, !list_merge_nil_l|].
  induction l2 as [|y l2 IH2]; [by rewrite fmap_nil, !list_merge_nil_r|].
  rewrite !fmap_cons, !list_merge_cons. pose proof (f_R x y).
  destruct (decide (S (f x) (f y))), (decide (R x y)); try tauto; rewrite fmap_cons; f_equal;
    [by rewrite <-IH1|by rewrite <-IH2].
Qed.

Lemma merge_sort_fmap l : merge_sort S (f <$> l) = f <$> merge_sort R l.
Proof using f_R.
  set (g := fmap (M := option) (fmap (M := list) f)).
  assert (∀ st m, merge_list_to_stack S (g <$> st) (f <$> m) = g <$> merge_list_to_stack R st m) as Hst.
  { induction st as [|[l'|] st IH]; intros m; [done| |done]. rewrite fmap_cons.
    cbn [merge_list_to_stack g fmap option_fmap option_map]. by rewrite fmap_cons, list_merge_fmap, IH. }
  assert (∀ st, merge_stack S (g <$> st) = f <$> merge_stack R st) as Hms.
  { induction st as [|[l'|] st IH]; [done| |done]. rewrite fmap_cons.
    cbn [merge_stack g fmap option_fmap option_map]. by rewrite IH, list_merge_fmap. }
  unfold merge_sort. change (@nil (option (list B))) with (g <$> @nil (option (list A))).
  generalize (@nil (option (list A))). induction l as [|x l IH]; intros st; [apply Hms|].
  rewrite fmap_cons. cbn [merge_sort_aux]. rewrite <-IH, <-Hst. done.
Qed.
End sort_fmap.
