(* ===== verification/Clock.v ===== *)
(** Logical time: revisions, version markers and the hybrid logical clock of
[src/src/clock.rs].  The wall clock ([now_millis]) is an input of the
operations that read it. *)
From stdpp Require Import base gmap sets list strings.
From Stdlib Require Import ZArith Lia.
From S2P Require Import Prelude.

Record Revision := mkRevision {
  millis : Z;
  counter : Z;
  rev_actor : string
}.

Record VersionMarker := mkMarker {
  revision : Revision;
  marker_op_id : string
}.

#[global] Instance Revision_eq_dec : EqDecision Revision.
Proof. solve_decision. Defined.
#[global] Instance VersionMarker_eq_dec : EqDecision VersionMarker.
Proof. solve_decision. Defined.

(** [impl Ord for Revision]. *)
Definition revision_cmp (x y : Revision) : comparison :=
  then_with (cmp (millis x) (millis y))
    (then_with (cmp (counter x) (counter y)) (cmp (rev_actor x) (rev_actor y))).

#[global] Program Instance Revision_ord : TotalOrd Revision := {| cmp := revision_cmp |}.
Next Obligation.
  intros [m1 c1 a1] [m2 c2 a2]. unfold revision_cmp; simpl. split.
  - destruct (m1 ?= m2)%Z eqn:E1; simpl; try done.
    destruct (c1 ?= c2)%Z eqn:E2; simpl; try done.
    intros ->%String.compare_eq_iff.
    apply Z.compare_eq_iff in E1 as ->. by apply Z.compare_eq_iff in E2 as ->.
  - intros [= -> -> ->]. by rewrite !Z.compare_refl, string_compare_refl.
Qed.
Next Obligation.
  intros x y. unfold revision_cmp. rewrite !then_with_opp.
  by rewrite (cmp_opp (millis x)), (cmp_opp (counter x)), (cmp_opp (rev_actor x)).
Qed.
Next Obligation.
  intros x y z. unfold revision_cmp.
  apply then_with_lt_trans, then_with_lt_trans. apply cmp_lt_trans.
Qed.

(** [impl Ord for VersionMarker]. *)
Definition marker_cmp (x y : VersionMarker) : comparison :=
  then_with (cmp (revision x) (revision y)) (cmp (marker_op_id x) (marker_op_id y)).

#[global] Program Instance VersionMarker_ord : TotalOrd VersionMarker := {| cmp := marker_cmp |}.
Next Obligation.
  intros [r1 o1] [r2 o2]. unfold marker_cmp. cbn [revision marker_op_id]. split.
  - destruct (cmp r1 r2) eqn:E; simpl; try done.
    apply cmp_eq in E as ->. by intros ->%String.compare_eq_iff.
  - intros [= -> ->]. rewrite !cmp_refl. done.
Qed.
Next Obligation.
  intros x y. unfold marker_cmp. rewrite then_with_opp.
  by rewrite (cmp_opp (revision x)), (cmp_opp (marker_op_id x)).
Qed.
Next Obligation.
  intros x y z. unfold marker_cmp. apply then_with_lt_trans. apply cmp_lt_trans.
Qed.

Record HybridClock := mkClock {
  actor : string;
  last_millis : Z;
  clock_counter : Z;
  sequence : Z
}.

#[global] Instance HybridClock_eq_dec : EqDecision HybridClock.
Proof. solve_decision. Defined.

(** [HybridClock::with_actor], [now] being the wall clock it reads. *)
Definition with_actor (a : string) (now : Z) : HybridClock := mkClock a now 0 0.

(** [HybridClock::next_revision]. *)
Definition next_revision (now : Z) (c : HybridClock) : Revision * HybridClock :=
  let c' :=
    if (last_millis c <? now)%Z
    then mkClock (actor c) now 0 (sequence c)
    else mkClock (actor c) (last_millis c)
           (sat_add u32_max (clock_counter c) 1) (sequence c) in
  (mkRevision (last_millis c') (clock_counter c') (actor c'), c').

(** [HybridClock::observe]. *)
Definition observe (r : Revision) (c : HybridClock) : HybridClock :=
  if (last_millis c <? millis r)%Z
  then mkClock (actor c) (millis r) (counter r) (sequence c)
  else if ((millis r =? last_millis c) && (clock_counter c <? counter r))%Z
  then mkClock (actor c) (last_millis c) (counter r) (sequence c)
  else c.

(** The bytes [sanitize_component] keeps. *)
Definition is_component_byte (b : Ascii.ascii) : bool :=
  let n := Z.of_N (Ascii.N_of_ascii b) in
  ((48 <=? n) && (n <=? 57) || (65 <=? n) && (n <=? 90) || (97 <=? n) && (n <=? 122)
   || (n =? 45) || (n =? 95) || (n =? 46))%Z.

(** A UTF-8 continuation byte: part of the character its lead byte started. *)
Definition is_continuation (b : Ascii.ascii) : bool :=
  let n := Z.of_N (Ascii.N_of_ascii b) in ((128 <=? n) && (n <? 192))%Z.

(** The map over [input.chars()]: a kept character stays, any other character,
however many bytes it has, becomes one dash. *)
Fixpoint sanitize_chars (s : string) : string :=
  match s with
  | EmptyString => EmptyString
  | String b s' =>
      if is_component_byte b then String b (sanitize_chars s')
      else if is_continuation b then sanitize_chars s'
      else String "-"%char (sanitize_chars s')
  end.

Definition sanitize_component (input : string) : string :=
  match sanitize_chars input with
  | EmptyString => "node"
  | s => s
  end.

(** [HybridClock::next_op_id]. *)
Definition next_op_id (namespace : string) (c : HybridClock) : string * HybridClock :=
  let c' := mkClock (actor c) (last_millis c) (clock_counter c)
              (sat_add u64_max (sequence c) 1) in
  (sanitize_component (actor c') +:+ "/" +:+ sanitize_component namespace +:+ "/"
     +:+ hex (last_millis c') +:+ "-" +:+ hex (clock_counter c') +:+ "-"
     +:+ hex (sequence c'), c').

(** [HybridClock::next_node_id]. *)
Definition next_node_id (hint : string) (c : HybridClock) : string * HybridClock :=
  let c' := mkClock (actor c) (last_millis c) (clock_counter c)
              (sat_add u64_max (sequence c) 1) in
  (sanitize_component (actor c') +:+ "/" +:+ sanitize_component hint +:+ "/"
     +:+ hex (sequence c'), c').

(** [HybridClock::default_actor]. *)
Definition default_actor (now : Z) : string := "replica-" +:+ hex now.

(** [HybridClock::rebased_with_actor]. *)
Definition rebased_with_actor (a : string) (c : HybridClock) : HybridClock :=
  mkClock a (last_millis c) (clock_counter c) (sequence c).

(** * Width invariant *)

Definition clock_wf (c : HybridClock) : Prop :=
  in_width u64_max (last_millis c) ∧ in_width u32_max (clock_counter c) ∧
  in_width u64_max (sequence c).

Definition revision_wf (r : Revision) : Prop :=
  in_width u64_max (millis r) ∧ in_width u32_max (counter r).

(** The clock position dominates a revision: any revision issued from here on
is at least [(millis, counter)]. *)
Definition dominates (c : HybridClock) (r : Revision) : Prop :=
  (millis r < last_millis c ∨
   (millis r = last_millis c ∧ counter r ≤ clock_counter c))%Z.

(** The one state in which [next_revision] cannot advance: the wall clock has
not moved past the clock and the counter is at its maximum. *)
Definition saturated (now : Z) (c : HybridClock) : Prop :=
  (now ≤ last_millis c ∧ clock_counter c = u32_max)%Z.

#[global] Instance saturated_dec now c : Decision (saturated now c).
Proof. unfold saturated. apply _. Defined.

Create HintDb clock.

Ltac clock_cases :=
  intros; unfold next_revision, observe, dominates, saturated, sat_add, clock_wf,
    revision_wf, in_width, u32_max, u64_max in *; simpl in *;
  repeat match goal with
  | |- context [(?a <? ?b)%Z] => destruct (Z.ltb_spec a b); simpl in *
  | |- context [(?a =? ?b)%Z] => destruct (Z.eqb_spec a b); simpl in *
  end.

Lemma next_revision_wf now c :
  clock_wf c → in_width u64_max now →
  clock_wf (next_revision now c).2 ∧ revision_wf (next_revision now c).1.
Proof. clock_cases; lia. Qed.

Lemma observe_wf r c : clock_wf c → revision_wf r → clock_wf (observe r c).
Proof. clock_cases; lia. Qed.

Lemma next_op_id_wf ns c : clock_wf c → clock_wf (next_op_id ns c).2.
Proof. unfold clock_wf, in_width. simpl. unfold sat_add, u64_max. lia. Qed.

#[export] Hint Resolve next_revision_wf observe_wf next_op_id_wf : clock.

Lemma revision_lt_iff r1 r2 :
  olt r1 r2 ↔
  (millis r1 < millis r2)%Z ∨
  millis r1 = millis r2 ∧ (counter r1 < counter r2)%Z ∨
  millis r1 = millis r2 ∧ counter r1 = counter r2 ∧ olt (rev_actor r1) (rev_actor r2).
Proof.
  unfold olt, cmp; simpl. unfold revision_cmp; simpl.
  destruct (Z.compare_spec (millis r1) (millis r2)); simpl;
  destruct (Z.compare_spec (counter r1) (counter r2)); simpl;
  unfold olt, cmp; simpl; intuition (try lia; try congruence).
Qed.

Lemma observe_dominates r c : dominates (observe r c) r.
Proof. clock_cases; lia. Qed.

Lemma observe_keeps r r' c : dominates c r → dominates (observe r' c) r.
Proof. clock_cases; lia. Qed.

Lemma dominated_before_next now c r :
  dominates c r → ¬ saturated now c → clock_wf c →
  olt r (next_revision now c).1.
Proof.
  intros Hd Hs Hwf. apply revision_lt_iff. revert Hd Hs Hwf. clock_cases; lia.
Qed.

Lemma next_revision_dominates now c : dominates (next_revision now c).2 (next_revision now c).1.
Proof. clock_cases; lia. Qed.

Lemma next_revision_keeps now c r :
  clock_wf c → dominates c r → dominates (next_revision now c).2 r.
Proof. clock_cases; lia. Qed.

#[export] Hint Resolve observe_dominates observe_keeps next_revision_dominates
  next_revision_keeps : clock.

(** * Hexadecimal identifiers are injective *)

Definition hex_value (b : Ascii.ascii) : Z :=
  let n := Z.of_N (Ascii.N_of_ascii b) in (if n <? 58 then n - 48 else n - 87)%Z.

Fixpoint parse_hex (acc : Z) (s : string) : Z :=
  match s with
  | EmptyString => acc
  | String b s' => parse_hex (acc * 16 + hex_value b) s'
  end.

Lemma hex_digit_code d :
  (0 ≤ d < 16)%Z →
  Z.of_N (Ascii.N_of_ascii (hex_digit d)) = (if d <? 10 then 48 + d else 87 + d)%Z.
Proof.
  intros Hd. unfold hex_digit. rewrite Ascii.N_ascii_embedding.
  - destruct (Z.ltb_spec d 10); lia.
  - destruct (Z.ltb_spec d 10); lia.
Qed.

Lemma hex_value_digit d : (0 ≤ d < 16)%Z → hex_value (hex_digit d) = d.
Proof.
  intros Hd. unfold hex_value. rewrite hex_digit_code by done.
  destruct (Z.ltb_spec d 10).
  - destruct (Z.ltb_spec (48 + d) 58); lia.
  - destruct (Z.ltb_spec (87 + d) 58); lia.
Qed.

Lemma parse_hex_digits fuel n acc p :
  (0 ≤ n < 16 ^ Z.of_nat fuel)%Z →
  ∃ k, (0 ≤ k)%Z ∧ parse_hex p (hex_digits fuel n acc) = parse_hex (p * k + n) acc.
Proof.
  revert n acc p. induction fuel as [|f IH]; intros n acc p Hn.
  { exists 1%Z. simpl in *. split; [lia|]. f_equal. lia. }
  assert (0 ≤ n / 16 < 16 ^ Z.of_nat f)%Z as Hdiv.
  { rewrite Nat2Z.inj_succ, Z.pow_succ_r in Hn by lia.
    split; [apply Z.div_pos; lia|apply Z.div_lt_upper_bound; lia]. }
  pose proof (Z.mod_pos_bound n 16 ltac:(lia)) as Hmod.
  pose proof (Z.div_mod n 16 ltac:(lia)) as Hdm.
  cbn [hex_digits]. destruct (Z.ltb_spec n 16).
  - exists 16%Z. split; [lia|]. cbn [parse_hex]. rewrite hex_value_digit by lia.
    f_equal. rewrite Z.mod_small by lia. lia.
  - destruct (IH (n / 16)%Z (String (hex_digit (n mod 16)) acc) p Hdiv) as (k & Hk & ->).
    exists (k * 16)%Z. split; [lia|]. cbn [parse_hex]. rewrite hex_value_digit by lia.
    f_equal. lia.
Qed.

Lemma parse_hex_hex n : in_width u64_max n → parse_hex 0 (hex n) = n.
Proof.
  intros Hn. unfold hex. destruct (parse_hex_digits 16 n "" 0) as (k & _ & ->).
  - unfold in_width, u64_max in Hn. lia.
  - simpl. lia.
Qed.

Lemma hex_inj n m : in_width u64_max n → in_width u64_max m → hex n = hex m → n = m.
Proof. intros Hn Hm E. rewrite <-(parse_hex_hex n Hn), E. by apply parse_hex_hex. Qed.

(** [after_last sep s] is what follows the last occurrence of [sep]. *)
Fixpoint has_byte (sep : Ascii.ascii) (s : string) : bool :=
  match s with
  | EmptyString => false
  | String b s' => if decide (b = sep) then true else has_byte sep s'
  end.

Fixpoint after_last (sep : Ascii.ascii) (s : string) : string :=
  match s with
  | EmptyString => EmptyString
  | String b s' =>
      if has_byte sep s' then after_last sep s'
      else if decide (b = sep) then s' else s
  end.

Lemma after_last_app sep s t :
  has_byte sep t = false → after_last sep ((s +:+ String sep "") +:+ t) = t.
Proof.
  intros Ht. rewrite str_app_assoc, str_app_cons, str_app_nil_l. induction s as [|b s IH].
  - rewrite str_app_nil_l. simpl. rewrite Ht. by rewrite decide_True.
  - rewrite str_app_cons. simpl.
    assert (has_byte sep (s +:+ String sep t) = true) as ->; [|done].
    clear. induction s as [|b s IH]; [rewrite str_app_nil_l|rewrite str_app_cons]; simpl.
    + by rewrite decide_True.
    + by case_decide.
Qed.

Lemma hex_digits_no_byte sep fuel n acc :
  (∀ d, (0 ≤ d < 16)%Z → hex_digit d ≠ sep) →
  has_byte sep acc = false → has_byte sep (hex_digits fuel n acc) = false.
Proof.
  intros Hd. revert n acc. induction fuel as [|f IH]; intros n acc Ha; [done|]. simpl.
  assert (has_byte sep (String (hex_digit (n mod 16)) acc) = false) as Hc.
  { simpl. rewrite decide_False; [done|]. apply Hd, Z.mod_pos_bound. lia. }
  destruct (n <? 16)%Z; eauto.
Qed.

Lemma hex_digit_not_dash d : (0 ≤ d < 16)%Z → hex_digit d ≠ "-"%char.
Proof.
  intros Hd E. apply (f_equal (λ b, Z.of_N (Ascii.N_of_ascii b))) in E.
  rewrite hex_digit_code in E by done. simpl in E. destruct (Z.ltb_spec d 10); lia.
Qed.

Lemma hex_digit_not_slash d : (0 ≤ d < 16)%Z → hex_digit d ≠ "/"%char.
Proof.
  intros Hd E. apply (f_equal (λ b, Z.of_N (Ascii.N_of_ascii b))) in E.
  rewrite hex_digit_code in E by done. simpl in E. destruct (Z.ltb_spec d 10); lia.
Qed.

Lemma op_id_tail ns c :
  after_last "-"%char (next_op_id ns c).1 = hex (sequence (next_op_id ns c).2).
Proof.
  unfold next_op_id; simpl. rewrite <-!str_app_assoc.
  apply (after_last_app _ _ (hex _)). apply hex_digits_no_byte; [apply hex_digit_not_dash|done].
Qed.

Lemma node_id_tail h c :
  after_last "/"%char (next_node_id h c).1 = hex (sequence (next_node_id h c).2).
Proof.
  unfold next_node_id; simpl. rewrite <-!str_app_assoc.
  apply (after_last_app _ _ (hex _)). apply hex_digits_no_byte; [apply hex_digit_not_slash|done].
Qed.

(** * Runs of the clock

A replica interleaves issuing revisions, observing remote ones and allocating
identifiers.  [clock_run] executes such a sequence; [revisions_of] and
[op_ids_of] collect what it saw and what it handed out. *)

Inductive clock_event :=
  | EvRevision (now : Z)
  | EvObserve (r : Revision)
  | EvOpId (namespace : string)
  | EvNodeId (hint : string).

Definition clock_step (c : HybridClock) (e : clock_event) : HybridClock :=
  match e with
  | EvRevision now => (next_revision now c).2
  | EvObserve r => observe r c
  | EvOpId ns => (next_op_id ns c).2
  | EvNodeId h => (next_node_id h c).2
  end.

Definition clock_run (c : HybridClock) (es : list clock_event) : HybridClock :=
  foldl clock_step c es.

Fixpoint revisions_of (c : HybridClock) (es : list clock_event) : list Revision :=
  match es with
  | [] => []
  | e :: es =>
      match e with
      | EvRevision now => [(next_revision now c).1]
      | EvObserve r => [r]
      | _ => []
      end ++ revisions_of (clock_step c e) es
  end.

Fixpoint op_ids_of (c : HybridClock) (es : list clock_event) : list string :=
  match es with
  | [] => []
  | e :: es =>
      match e with EvOpId ns => [(next_op_id ns c).1] | _ => [] end
      ++ op_ids_of (clock_step c e) es
  end.

Definition event_wf (e : clock_event) : Prop :=
  match e with
  | EvRevision now => in_width u64_max now
  | EvObserve r => revision_wf r
  | _ => True
  end.

#[global] Instance event_wf_dec e : Decision (event_wf e).
Proof. destruct e; unfold event_wf, revision_wf, in_width; apply _. Defined.

Lemma clock_step_wf c e : clock_wf c → event_wf e → clock_wf (clock_step c e).
Proof.
  destruct e; simpl; intros.
  - by apply next_revision_wf.
  - by apply observe_wf.
  - by apply (next_op_id_wf namespace).
  - by apply (next_op_id_wf hint).
Qed.

Lemma clock_step_keeps c e r : clock_wf c → dominates c r → dominates (clock_step c e) r.
Proof.
  destruct e; simpl; intros;
    [by apply next_revision_keeps|by apply observe_keeps|done|done].
Qed.

#[export] Hint Resolve clock_step_wf clock_step_keeps : clock.

Lemma clock_run_wf c es : clock_wf c → Forall event_wf es → clock_wf (clock_run c es).
Proof. revert c. induction es; intros c ? Hes; [done|]. inv Hes. simpl. eauto with clock. Qed.

Lemma clock_run_keeps c es r :
  clock_wf c → Forall event_wf es → dominates c r → dominates (clock_run c es) r.
Proof. revert c. induction es; intros c ? Hes ?; [done|]. inv Hes. simpl. eauto with clock. Qed.

Lemma clock_run_dominates c es r :
  clock_wf c → Forall event_wf es → r ∈ revisions_of c es → dominates (clock_run c es) r.
Proof.
  revert c. induction es as [|e es IH]; intros c Hc Hes; [by intros ?%not_elem_of_nil|].
  inv Hes. simpl. intros [Hr|Hr]%elem_of_app; [|eauto with clock].
  apply clock_run_keeps; eauto with clock.
  destruct e; try by apply not_elem_of_nil in Hr.
  - apply list_elem_of_singleton in Hr as ->. apply next_revision_dominates.
  - apply list_elem_of_singleton in Hr as ->. apply observe_dominates.
Qed.

(** A revision a replica issues is strictly newer, in the total order the
merge rules compare by, than every revision it has issued or observed before,
whatever the wall clock does (it may stand still or run backwards), unless the
[u32] counter is exhausted at the same millisecond. *)
Lemma issued_revision_newest c es now r :
  clock_wf c → Forall event_wf es →
  r ∈ revisions_of c es →
  ¬ saturated now (clock_run c es) →
  olt r (next_revision now (clock_run c es)).1.
Proof.
  intros Hc Hes Hr Hs. apply dominated_before_next; eauto using clock_run_dominates, clock_run_wf.
Qed.

Definition sample_clock : HybridClock := mkClock "a" 100 0 0.
Definition sample_events : list clock_event :=
  [EvRevision 90; EvObserve (mkRevision 250 7 "b"); EvOpId "set"; EvRevision 240].

Lemma issued_revision_newest_witness :
  olt (mkRevision 250 7 "b") (next_revision 200 (clock_run sample_clock sample_events)).1.
Proof.
  apply (issued_revision_newest sample_clock sample_events 200).
  - by vm_compute.
  - by apply (bool_decide_unpack _).
  - by apply (bool_decide_unpack _).
  - by apply (bool_decide_unpack _).
Defined.

(** The exact boundary of the clock.  Issuing a revision moves strictly past
the clock's position if and only if the wall clock has advanced or the counter
still has room; at the boundary the saturating counter makes it hand out a
revision that is not newer than its position. *)
Lemma next_revision_strict_iff c now :
  clock_wf c →
  olt (mkRevision (last_millis c) (clock_counter c) (actor c)) (next_revision now c).1
  ↔ ¬ saturated now c.
Proof.
  intros Hc. split.
  - intros Hlt [Hnow Hsat]. apply revision_lt_iff in Hlt. revert Hlt.
    unfold next_revision. simpl. destruct (Z.ltb_spec (last_millis c) now); [lia|]. simpl.
    rewrite Hsat. unfold sat_add, u32_max.
    intros [?|[[_ ?]|(_ & _ & Ho)]]; [lia|lia|by apply olt_irrefl in Ho].
  - intros Hs. apply dominated_before_next; [|done..]. right. simpl. lia.
Qed.

Lemma next_revision_strict_iff_witness :
  clock_wf (mkClock "a" 100 u32_max 3) ∧
  ¬ olt (mkRevision 100 u32_max "a") (next_revision 100 (mkClock "a" 100 u32_max 3)).1.
Proof.
  split; [by vm_compute|].
  intros H. apply (next_revision_strict_iff (mkClock "a" 100 u32_max 3) 100) in H.
  - apply H. by vm_compute.
  - by vm_compute.
Defined.

Lemma sequence_step_mono c e : (sequence c ≤ u64_max)%Z → (sequence c ≤ sequence (clock_step c e))%Z.
Proof.
  destruct e; simpl.
  - unfold next_revision. simpl. case_match; simpl; lia.
  - unfold observe. repeat case_match; simpl; lia.
  - unfold sat_add, u64_max. lia.
  - unfold sat_add, u64_max. lia.
Qed.

Lemma sequence_step_le c e : (sequence (clock_step c e) ≤ sequence c + 1)%Z.
Proof.
  destruct e; simpl.
  - unfold next_revision. simpl. case_match; simpl; lia.
  - unfold observe. repeat case_match; simpl; lia.
  - unfold sat_add. lia.
  - unfold sat_add. lia.
Qed.

Lemma op_ids_of_tail c es s :
  clock_wf c → Forall event_wf es → s ∈ op_ids_of c es →
  (sequence c + Z.of_nat (length es) ≤ u64_max)%Z →
  ∃ q, after_last "-"%char s = hex q ∧ (sequence c < q ≤ u64_max)%Z.
Proof.
  revert c. induction es as [|e es IH]; intros c Hc Hes; [by intros ?%not_elem_of_nil|].
  inv Hes. simpl. intros [Hs|Hs]%elem_of_app Hlen.
  - destruct e; try by apply not_elem_of_nil in Hs. apply list_elem_of_singleton in Hs as ->.
    exists (sequence (next_op_id namespace c).2). split; [apply op_id_tail|].
    simpl. unfold sat_add. lia.
  - pose proof (sequence_step_le c e). pose proof (sequence_step_mono c e).
    destruct (IH (clock_step c e)) as (q & ? & ?); [by eauto with clock|done..|lia|].
    exists q. split; [done|lia].
Qed.

(** The operation identifiers a replica allocates along any run of its clock
are pairwise distinct, as long as the 64-bit sequence does not saturate. *)
Lemma op_ids_distinct c es :
  clock_wf c → Forall event_wf es →
  (sequence c + Z.of_nat (length es) ≤ u64_max)%Z →
  NoDup (op_ids_of c es).
Proof.
  revert c. induction es as [|e es IH]; intros c Hc Hes Hlen; [constructor|].
  inv Hes. simpl in *. pose proof (sequence_step_le c e).
  assert (NoDup (op_ids_of (clock_step c e) es)) as Hnd.
  { apply IH; [by eauto with clock|done|lia]. }
  destruct e; try done. simpl. constructor; [|done].
  intros Hin. apply op_ids_of_tail in Hin as (q & Hq & Hlt);
    [|by apply (clock_step_wf c (EvOpId namespace))|done|simpl in *; lia].
  pose proof (op_id_tail namespace c) as Ht. simpl in Hq, Hlt, Ht. rewrite Ht in Hq.
  destruct Hc as (_ & _ & Hseq).
  apply hex_inj in Hq; [lia|by apply sat_add_width|unfold in_width in *; unfold sat_add in Hlt; lia].
Qed.

Lemma op_ids_distinct_witness :
  NoDup (op_ids_of sample_clock [EvOpId "set"; EvRevision 300; EvOpId "set"; EvNodeId "n"; EvOpId "delete"]).
Proof.
  apply op_ids_distinct.
  - by vm_compute.
  - by apply (bool_decide_unpack _).
  - by vm_compute.
Defined.
