(* ===== verification/Value.v ===== *)
(** The data model: JSON values, field and node states, operations and records
([src/src/value.rs], [operation.rs], [binary.rs], [blob.rs], [record.rs]). *)
From stdpp Require Import base gmap sets list strings.
From Stdlib Require Import ZArith Lia.
From Stdlib Require SpecFloat.
From S2P Require Import Prelude Clock.

Abbreviation spec_float := SpecFloat.spec_float.

(** * JSON

[serde_json::Value] with the default features of the crate: an object is a map
ordered by key, here the list of its entries in key order.  A number is one of
the three representations of [serde_json::Number]; a double is kept as an IEEE
754 [spec_float]. *)
Inductive number :=
  | PosInt (n : Z)
  | NegInt (n : Z)
  | Float (f : spec_float).

Inductive json :=
  | JNull
  | JBool (b : bool)
  | JNumber (n : number)
  | JString (s : string)
  | JArray (items : list json)
  | JObject (entries : list (string * json)).

#[global] Instance spec_float_eq_dec : EqDecision spec_float.
Proof. solve_decision. Defined.
#[global] Instance number_eq_dec : EqDecision number.
Proof. solve_decision. Defined.

#[global] Instance json_eq_dec : EqDecision json.
Proof.
  unfold EqDecision. fix go 1. intros x y.
  destruct x as [|b|n|s|l|o], y as [|b'|n'|s'|l'|o'];
    try (right; congruence); try (left; reflexivity).
  - destruct (decide (b = b')); [left; congruence|right; congruence].
  - destruct (decide (n = n')); [left; congruence|right; congruence].
  - destruct (decide (s = s')); [left; congruence|right; congruence].
  - assert (Decision (l = l')) as [Hl|Hl]; [|left; congruence|right; congruence].
    revert l'. induction l as [|a l IH]; intros [|a' l'];
      [left; done|right; done|right; done|].
    destruct (go a a') as [Ha|Ha]; [|right; congruence].
    destruct (IH l') as [Hl|Hl]; [left|right]; congruence.
  - assert (Decision (o = o')) as [Ho|Ho]; [|left; congruence|right; congruence].
    revert o'. induction o as [|[k v] o IH]; intros [|[k' v'] o'];
      [left; done|right; done|right; done|].
    destruct (decide (k = k')) as [Hk|Hk]; [|right; congruence].
    destruct (go v v') as [Hv|Hv]; [|right; congruence].
    destruct (IH o') as [Ho|Ho]; [left|right]; congruence.
Defined.

(** [Map::get] and [Map::insert] on the ordered entry list. *)
Fixpoint obj_get (key : string) (entries : list (string * json)) : option json :=
  match entries with
  | [] => None
  | (k, v) :: rest => if decide (k = key) then Some v else obj_get key rest
  end.

Fixpoint obj_insert (key : string) (v : json) (entries : list (string * json))
    : list (string * json) :=
  match entries with
  | [] => [(key, v)]
  | (k, w) :: rest =>
      match String.compare key k with
      | Lt => (key, v) :: entries
      | Eq => (key, v) :: rest
      | Gt => (k, w) :: obj_insert key v rest
      end
  end.

Definition is_object (v : json) : bool :=
  match v with JObject _ => true | _ => false end.

(** [Number::as_f64]: integers are rounded to the nearest double. *)
Definition as_f64 (n : number) : spec_float :=
  match n with
  | PosInt z | NegInt z => SpecFloat.binary_normalize 53 1024 z 0 false
  | Float f => f
  end.

(** [PartialEq for Value]: structural, with IEEE equality on doubles. *)
Definition number_eqb (x y : number) : bool :=
  match x, y with
  | PosInt a, PosInt b | NegInt a, NegInt b => (a =? b)%Z
  | Float a, Float b => SpecFloat.SFeqb a b
  | _, _ => false
  end.

Fixpoint json_eqb (x y : json) {struct x} : bool :=
  match x, y with
  | JNull, JNull => true
  | JBool a, JBool b => Bool.eqb a b
  | JNumber a, JNumber b => number_eqb a b
  | JString a, JString b => bool_decide (a = b)
  | JArray l, JArray l' =>
      (fix go (l l' : list json) : bool :=
         match l, l' with
         | [], [] => true
         | a :: l, b :: l' => json_eqb a b && go l l'
         | _, _ => false
         end) l l'
  | JObject o, JObject o' =>
      (fix go (o o' : list (string * json)) : bool :=
         match o, o' with
         | [], [] => true
         | (k, a) :: o, (k', b) :: o' => bool_decide (k = k') && json_eqb a b && go o o'
         | _, _ => false
         end) o o'
  | _, _ => false
  end.

(** The number of nodes of a value, a measure for recursion on it. *)
Fixpoint json_size (v : json) : nat :=
  match v with
  | JArray l => S (foldr (λ x n, json_size x + n) 0 l)
  | JObject o => S (foldr (λ kv n, json_size kv.2 + n) 0 o)
  | _ => 1
  end.

Lemma json_size_field k x o : (k, x) ∈ o → json_size x < json_size (JObject o).
Proof.
  intros Hin. simpl. apply Nat.lt_succ_r.
  induction o as [|y o IH]; [by apply not_elem_of_nil in Hin|]. simpl.
  apply elem_of_cons in Hin as [<-|Hin]; [simpl; lia|]. specialize (IH Hin). lia.
Qed.

Lemma json_size_item x l : x ∈ l → json_size x < json_size (JArray l).
Proof.
  intros Hin. simpl. apply Nat.lt_succ_r.
  induction l as [|y l IH]; [by apply not_elem_of_nil in Hin|]. simpl.
  apply elem_of_cons in Hin as [<-|Hin]; [lia|]. specialize (IH Hin). lia.
Qed.

(** * Values stored in fields *)

(** [BinaryBytes]: the byte vector. *)
Record BinaryBytes := mkBytes { bytes_of : list Z }.

(** [BlobRef]. *)
Record BlobRef := mkBlobRef {
  blob_id : string;
  blob_bytes : Z;
  media_type : option string
}.

#[global] Instance BinaryBytes_eq_dec : EqDecision BinaryBytes.
Proof. solve_decision. Defined.
#[global] Instance BlobRef_eq_dec : EqDecision BlobRef.
Proof. solve_decision. Defined.

Abbreviation NodeId := string (only parsing).

Record SetState := mkSet {
  baseline : VersionMarker;
  members : gmap string VersionMarker;
  removed : gmap string VersionMarker
}.

Inductive FieldValue :=
  | FScalar (v : json)
  | FBytes (b : BinaryBytes)
  | FBlob (r : BlobRef)
  | FLink (target : NodeId)
  | FSet (s : SetState).

Record FieldState := mkField {
  value : FieldValue;
  version : VersionMarker
}.

Record NodeState := mkNode {
  id : NodeId;
  fields : gmap string FieldState;
  tombstones : gmap string VersionMarker
}.

#[global] Instance SetState_eq_dec : EqDecision SetState.
Proof. solve_decision. Defined.
#[global] Instance FieldValue_eq_dec : EqDecision FieldValue.
Proof. solve_decision. Defined.
#[global] Instance FieldState_eq_dec : EqDecision FieldState.
Proof. solve_decision. Defined.
#[global] Instance NodeState_eq_dec : EqDecision NodeState.
Proof. solve_decision. Defined.

(** [NodeState::new]. *)
Definition node_new (n : NodeId) : NodeState := mkNode n ∅ ∅.

(** * Operations *)

Inductive OperationValue :=
  | OScalar (v : json)
  | OBytes (b : BinaryBytes)
  | OBlob (r : BlobRef)
  | OLink (target : NodeId)
  | OSet (members : list NodeId).

Inductive OperationAction :=
  | SetField (node : NodeId) (field : string) (value : OperationValue)
  | AddSetMember (node : NodeId) (field : string) (member : NodeId)
  | RemoveSetMember (node : NodeId) (field : string) (member : NodeId)
  | DeleteField (node : NodeId) (field : string).

Record Operation := mkOp {
  op_id : string;
  author : string;
  op_revision : Revision;
  action : OperationAction
}.

#[global] Instance OperationValue_eq_dec : EqDecision OperationValue.
Proof. solve_decision. Defined.
#[global] Instance OperationAction_eq_dec : EqDecision OperationAction.
Proof. solve_decision. Defined.
#[global] Instance Operation_eq_dec : EqDecision Operation.
Proof. solve_decision. Defined.

(** The version marker every accepted operation is recorded with. *)
Definition op_marker (op : Operation) : VersionMarker := mkMarker (op_revision op) (op_id op).

(** [operation_source_node], and the field the operation updates. *)
Definition operation_source_node (op : Operation) : NodeId :=
  match action op with
  | SetField n _ _ | AddSetMember n _ _ | RemoveSetMember n _ _ | DeleteField n _ => n
  end.

Definition operation_field (op : Operation) : string :=
  match action op with
  | SetField _ f _ | AddSetMember _ f _ | RemoveSetMember _ f _ | DeleteField _ f => f
  end.

(** * Records *)

Inductive RecordValue :=
  | RJson (v : json)
  | RBytes (b : BinaryBytes)
  | RBlob (r : BlobRef).

Record RecordEntry := mkRecordEntry {
  entry_key : string;
  entry_value : RecordValue
}.

#[global] Instance RecordValue_eq_dec : EqDecision RecordValue.
Proof. solve_decision. Defined.
#[global] Instance RecordEntry_eq_dec : EqDecision RecordEntry.
Proof. solve_decision. Defined.

(** [PartialEq for RecordValue]. *)
Definition record_value_eqb (x y : RecordValue) : bool :=
  match x, y with
  | RJson a, RJson b => json_eqb a b
  | RBytes a, RBytes b => bool_decide (a = b)
  | RBlob a, RBlob b => bool_decide (a = b)
  | _, _ => false
  end.

(** * Laws of the object map *)

Lemma obj_get_insert key v entries : obj_get key (obj_insert key v entries) = Some v.
Proof.
  induction entries as [|[k w] rest IH]; simpl; [by rewrite decide_True|].
  destruct (String.compare key k) eqn:E; simpl.
  - by rewrite decide_True.
  - by rewrite decide_True.
  - rewrite decide_False; [done|]. intros ->. by rewrite string_compare_refl in E.
Qed.

Lemma obj_get_insert_ne key key' v entries :
  key ≠ key' → obj_get key' (obj_insert key v entries) = obj_get key' entries.
Proof.
  intros Hne. induction entries as [|[k w] rest IH]; simpl; [by rewrite decide_False|].
  destruct (String.compare key k) eqn:E; simpl.
  - apply String.compare_eq_iff in E as ->. by rewrite !(decide_False (P := k = key')).
  - by rewrite (decide_False (P := key = key')).
  - by rewrite IH.
Qed.
