(* ===== verification/F32.v ===== *)
(** Single-precision numbers: what [text_search.rs] and [vector.rs] compute scores and
distances with.  An [f32] is its bit pattern; arithmetic goes through the IEEE 754
operations of the standard library's [SpecFloat] at 24 bits of precision. *)
From stdpp Require Import base list.
From Stdlib Require Import ZArith Lia.
From Stdlib Require SpecFloat.
From S2P Require Import Prelude Value.

Abbreviation f32 := Z (only parsing).

(** What Rust leaves to the platform: the pattern of the NaN an invalid operation gives,
and the natural logarithm of its mathematics library. *)
Class Platform := {
  default_nan : f32;
  f32_ln : f32 → f32
}.

Definition f32_bits : Z := 2 ^ 32.
Definition is_f32 (x : f32) : Prop := (0 ≤ x < 2 ^ 32)%Z.

(** * Bit patterns and numbers *)

Definition f32_decode (x : f32) : spec_float :=
  let s := (2 ^ 31 <=? x)%Z in
  let e := ((x / 2 ^ 23) mod 2 ^ 8)%Z in
  let m := (x mod 2 ^ 23)%Z in
  if (e =? 255)%Z then if (m =? 0)%Z then SpecFloat.S754_infinity s else SpecFloat.S754_nan
  else if (e =? 0)%Z then
    match m with Zpos p => SpecFloat.S754_finite s p (-149) | _ => SpecFloat.S754_zero s end
  else match (m + 2 ^ 23)%Z with Zpos p => SpecFloat.S754_finite s p (e - 150) | _ => SpecFloat.S754_nan end.

Definition sign_bit (s : bool) : Z := if s then 2 ^ 31 else 0.

Section arithmetic.
Context `{Platform}.

Definition f32_encode (f : spec_float) : f32 :=
  match f with
  | SpecFloat.S754_zero s => sign_bit s
  | SpecFloat.S754_infinity s => sign_bit s + 255 * 2 ^ 23
  | SpecFloat.S754_nan => default_nan
  | SpecFloat.S754_finite s m e =>
      if (Zpos m <? 2 ^ 23)%Z then sign_bit s + Zpos m
      else sign_bit s + (e + 150) * 2 ^ 23 + (Zpos m - 2 ^ 23)
  end.

Definition f32_op (f : spec_float → spec_float → spec_float) (x y : f32) : f32 :=
  f32_encode (f (f32_decode x) (f32_decode y)).

Definition f32_add : f32 → f32 → f32 := f32_op (SpecFloat.SFadd 24 128).
Definition f32_sub : f32 → f32 → f32 := f32_op (SpecFloat.SFsub 24 128).
Definition f32_mul : f32 → f32 → f32 := f32_op (SpecFloat.SFmul 24 128).
Definition f32_div : f32 → f32 → f32 := f32_op (SpecFloat.SFdiv 24 128).
Definition f32_sqrt (x : f32) : f32 := f32_encode (SpecFloat.SFsqrt 24 128 (f32_decode x)).

(** [-x] flips the sign bit, also of a NaN. *)
Definition f32_neg (x : f32) : f32 := if (2 ^ 31 <=? x)%Z then (x - 2 ^ 31)%Z else (x + 2 ^ 31)%Z.

(** [n as f32]. *)
Definition f32_of_usize (n : nat) : f32 := f32_encode (SpecFloat.binary_normalize 24 128 (Z.of_nat n) 0 false).

Definition f32_le (x y : f32) : bool := SpecFloat.SFleb (f32_decode x) (f32_decode y).
Definition f32_lt (x y : f32) : bool := SpecFloat.SFltb (f32_decode x) (f32_decode y).
Definition f32_eq (x y : f32) : bool := SpecFloat.SFeqb (f32_decode x) (f32_decode y).

(** [f32::max]: the other one when one is not a number. *)
Definition f32_max (x y : f32) : f32 :=
  match f32_decode x, f32_decode y with
  | SpecFloat.S754_nan, _ => y
  | _, SpecFloat.S754_nan => x
  | _, _ => if f32_lt x y then y else x
  end.

Definition f32_zero : f32 := 0.
Definition f32_neg_zero : f32 := 2147483648.
Definition f32_half : f32 := 1056964608.
Definition f32_one : f32 := 1065353216.

(** [Iterator::sum], which starts from negative zero. *)
Definition f32_sum (l : list f32) : f32 := foldl f32_add f32_neg_zero l.
End arithmetic.

Definition is_finite (x : f32) : bool := negb ((x / 2 ^ 23) mod 2 ^ 8 =? 255)%Z.

(** [total_cmp] orders the patterns: the negative ones from the greatest magnitude to the
least, then the others. *)
Definition total_key (x : f32) : Z := if (x <? 2 ^ 31)%Z then x else (2 ^ 31 - 1 - x)%Z.
Definition total_cmp (x y : f32) : comparison := Z.compare (total_key x) (total_key y).

Lemma total_cmp_eq x y : is_f32 x → is_f32 y → total_cmp x y = Eq ↔ x = y.
Proof.
  unfold is_f32, total_cmp, total_key. rewrite Z.compare_eq_iff.
  destruct (Z.ltb_spec x (2 ^ 31)), (Z.ltb_spec y (2 ^ 31)); lia.
Qed.

(** * Little-endian bytes *)

Definition to_le_bytes (x : f32) : list Z :=
  [x mod 256; (x / 2 ^ 8) mod 256; (x / 2 ^ 16) mod 256; (x / 2 ^ 24) mod 256]%Z.

Definition from_le_bytes (b0 b1 b2 b3 : Z) : f32 := (b0 + 2 ^ 8 * b1 + 2 ^ 16 * b2 + 2 ^ 24 * b3)%Z.

Lemma le_bytes_roundtrip x : is_f32 x →
  ∃ b0 b1 b2 b3, to_le_bytes x = [b0; b1; b2; b3] ∧ from_le_bytes b0 b1 b2 b3 = x.
Proof.
  unfold is_f32, to_le_bytes, from_le_bytes. intros Hx. do 4 eexists. split; [done|].
  pose proof (Z.div_mod x 256 ltac:(done)). pose proof (Z.div_mod (x / 2 ^ 8) 256 ltac:(done)).
  pose proof (Z.div_mod (x / 2 ^ 16) 256 ltac:(done)).
  assert (x / 2 ^ 16 = x / 2 ^ 8 / 256)%Z by (by rewrite Z.div_div).
  assert (x / 2 ^ 24 = x / 2 ^ 16 / 256)%Z by (by rewrite Z.div_div).
  assert ((x / 2 ^ 24) mod 256 = x / 2 ^ 24)%Z as E by (apply Z.mod_small; split; [apply Z.div_pos; lia|apply Z.div_lt_upper_bound; lia]).
  change 256%Z with (2 ^ 8)%Z in *. lia.
Qed.

Lemma to_le_bytes_range x : Forall (λ b, (0 ≤ b < 256)%Z) (to_le_bytes x).
Proof. unfold to_le_bytes. repeat constructor; apply Z.mod_pos_bound; done. Qed.

(** * Lengths as floats

A positive number below 2^24 is a single without rounding, so a document with terms is
never taken for an empty one. *)

Lemma digits_bounds p :
  (2 ^ (Zpos (SpecFloat.digits2_pos p) - 1) ≤ Zpos p < 2 ^ Zpos (SpecFloat.digits2_pos p))%Z.
Proof.
  induction p as [p IH|p IH|]; cbn [SpecFloat.digits2_pos]; [..|done];
    rewrite Pos2Z.inj_succ, Z.pow_succ_r by lia;
    replace (Z.succ (Zpos (SpecFloat.digits2_pos p)) - 1)%Z with (Z.succ (Zpos (SpecFloat.digits2_pos p) - 1)) by lia;
    rewrite Z.pow_succ_r by lia; lia.
Qed.

Lemma digits_shifted p d : SpecFloat.digits2_pos (Pos.iter xO p d) = (SpecFloat.digits2_pos p + d)%positive.
Proof.
  induction d as [|d IH] using Pos.peano_ind; [simpl; lia|]. rewrite Pos.iter_succ. cbn [SpecFloat.digits2_pos]. rewrite IH. lia.
Qed.

(** A mantissa of 24 digits is kept as it is. *)
Lemma round_exact m e :
  SpecFloat.digits2_pos m = 24%positive → (-149 ≤ e ≤ 104)%Z →
  SpecFloat.binary_round_aux 24 128 false (Zpos m) e SpecFloat.loc_Exact = SpecFloat.S754_finite false m e.
Proof.
  intros Hm He. unfold SpecFloat.binary_round_aux.
  assert (SpecFloat.shr_fexp 24 128 (Zpos m) e SpecFloat.loc_Exact = (SpecFloat.shr_record_of_loc (Zpos m) SpecFloat.loc_Exact, e)) as E.
  { unfold SpecFloat.shr_fexp. cbn [SpecFloat.Zdigits2]. rewrite Hm.
    replace (SpecFloat.fexp 24 128 (24 + e) - e)%Z with 0%Z; [done|]. unfold SpecFloat.fexp, SpecFloat.emin. lia. }
  rewrite E. cbn [SpecFloat.shr_record_of_loc SpecFloat.shr_m SpecFloat.loc_of_shr_record SpecFloat.round_nearest_even].
  rewrite E. cbn [SpecFloat.shr_record_of_loc SpecFloat.shr_m]. rewrite (proj2 (Z.leb_le _ _)) by lia. done.
Qed.

Lemma usize_exact n : (0 < Z.of_nat n < 2 ^ 24)%Z →
  ∃ m e, SpecFloat.binary_normalize 24 128 (Z.of_nat n) 0 false = SpecFloat.S754_finite false m e ∧
    SpecFloat.digits2_pos m = 24%positive ∧ (-23 ≤ e ≤ 0)%Z.
Proof.
  intros Hn. destruct (Z.of_nat n) as [|p|p] eqn:En; [lia| |lia]. cbn [SpecFloat.binary_normalize]. unfold SpecFloat.binary_round.
  set (d := SpecFloat.digits2_pos p). pose proof (digits_bounds p) as Hp. fold d in Hp.
  assert (Zpos d ≤ 24)%Z as Hd.
  { destruct (Z.le_gt_cases (Zpos d) 24) as [|Hgt]; [done|]. assert (2 ^ 24 ≤ 2 ^ (Zpos d - 1))%Z by (apply Z.pow_le_mono_r; lia). lia. }
  rewrite Z.add_0_r. assert (SpecFloat.fexp 24 128 (Zpos d) = Zpos d - 24)%Z as -> by (unfold SpecFloat.fexp, SpecFloat.emin; lia).
  unfold SpecFloat.shl_align. rewrite Z.sub_0_r. destruct (Zpos d - 24)%Z as [|e|e] eqn:Ee; [|lia|].
  - exists p, 0%Z. rewrite round_exact by (fold d; lia). split_and!; [done|fold d; lia|lia|lia].
  - exists (Pos.iter xO p e), (Zneg e). assert (SpecFloat.digits2_pos (Pos.iter xO p e) = 24%positive) by (rewrite digits_shifted; fold d; lia).
    rewrite round_exact by (done || lia). split_and!; [done|done|lia|lia].
Qed.

Lemma usize_positive `{Platform} n : (0 < Z.of_nat n < 2 ^ 24)%Z → f32_le (f32_of_usize n) f32_zero = false.
Proof.
  intros Hn. destruct (usize_exact n Hn) as (m & e & E & Hm & He). unfold f32_le, f32_of_usize. rewrite E. cbn [f32_encode sign_bit].
  pose proof (digits_bounds m) as Hb. rewrite Hm in Hb. change (2 ^ (24 - 1))%Z with (2 ^ 23)%Z in Hb.
  rewrite (proj2 (Z.ltb_ge _ _)) by lia. rewrite Z.add_0_l.
  set (x := ((e + 150) * 2 ^ 23 + (Zpos m - 2 ^ 23))%Z).
  assert (x / 2 ^ 23 = e + 150)%Z as Ex by (unfold x; rewrite Z.div_add_l, Z.div_small; lia).
  assert (x mod 2 ^ 23 = Zpos m - 2 ^ 23)%Z as Er.
  { unfold x. rewrite Z.add_comm, Z_mod_plus_full. apply Z.mod_small. lia. }
  unfold f32_decode. rewrite Ex, Er, (Z.mod_small (e + 150)) by lia.
  rewrite (proj2 (Z.leb_gt _ _)) by (unfold x; lia). rewrite !(proj2 (Z.eqb_neq _ _)) by lia.
  replace (Zpos m - 2 ^ 23 + 2 ^ 23)%Z with (Zpos m) by lia. done.
Qed.
