(* ===== verification/TopK.v ===== *)
(** Selection of the best candidates with a bounded heap, as the searches of
[src/src/text_search.rs] and [src/src/vector.rs] do it, and its equivalence with
sorting all of them and keeping the first. *)
From stdpp Require Import base sets list sorting.
From Stdlib Require Import ZArith Lia.
From S2P Require Import Prelude.

(** Pairs compare by their first component, then by the second. *)
#[global] Program Instance prod_ord `{TotalOrd A, TotalOrd B} : TotalOrd (A * B) :=
  {| cmp := λ p q, then_with (cmp p.1 q.1) (cmp p.2 q.2) |}.
Next Obligation.
  intros A HA B HB [a b] [a' b']. simpl. destruct (cmp a a') eqn:E; simpl; split; intros Hx; try done.
  - apply cmp_eq in E, Hx. by subst.
  - injection Hx as -> ->. apply cmp_refl.
  - injection Hx as -> ->. by rewrite cmp_refl in E.
  - injection Hx as -> ->. by rewrite cmp_refl in E.
Qed.
Next Obligation. intros A HA B HB [a b] [a' b']. simpl. by rewrite then_with_opp, <-!cmp_opp. Qed.
Next Obligation. intros A HA B HB [a b] [a' b'] [a'' b'']. simpl. apply then_with_lt_trans, cmp_lt_trans. Qed.

Section topk.
Context {A K : Type} `{TotalOrd K} (key : A → K).

(** [Ord::cmp] of the candidates compares their keys. *)
Definition key_lt (x y : A) : bool := ltb (key x) (key y).
Definition by_key_le (x y : A) : Prop := ole (key x) (key y).

#[global] Instance by_key_le_dec : RelDecision by_key_le.
Proof. intros x y. unfold by_key_le, ole. solve_decision. Defined.

#[global] Instance by_key_le_trans : Transitive by_key_le.
Proof. intros x y z. apply ole_trans. Qed.

#[global] Instance by_key_le_total : Total by_key_le.
Proof. intros x y. unfold by_key_le. destruct (olt_or_ole (key x) (key y)) as [?|?]; [left; by apply olt_le|by right]. Qed.

(** * A binary heap

[BinaryHeap] as the collection of its elements: [peek] shows a greatest one, [pop]
takes it out, and nothing depends on the order of the others. *)
Fixpoint heap_pop (h : list A) : option (A * list A) :=
  match h with
  | [] => None
  | x :: h =>
      match heap_pop h with
      | None => Some (x, [])
      | Some (y, rest) => if key_lt x y then Some (y, x :: rest) else Some (x, h)
      end
  end.

Definition heap_peek (h : list A) : option A := fst <$> heap_pop h.

(** One candidate: pushed while there is room, else in exchange for a worse one.  The
source's [expect] on [peek] cannot fail where there is no room, since the bound is
at least one. *)
Definition offer (bound : nat) (h : list A) (c : A) : list A :=
  if length h <? bound then c :: h
  else
    match heap_pop h with
    | Some (worst, rest) => if key_lt c worst then c :: rest else h
    | None => h
    end.

Definition select_top (bound : nat) (l : list A) : list A := foldl (offer bound) [] l.

(** * Equivalence with sorting *)

Lemma heap_pop_spec h :
  match heap_pop h with
  | None => h = []
  | Some (w, rest) => h ≡ₚ w :: rest ∧ ∀ x, x ∈ h → by_key_le x w
  end.
Proof.
  induction h as [|x h IH]; [done|]. simpl. destruct (heap_pop h) as [[w rest]|]; [|subst h].
  - destruct IH as [Hp Hw]. unfold key_lt. destruct (ltb (key x) (key w)) eqn:E.
    + split; [rewrite Hp; constructor|]. intros y [->|Hy]%elem_of_cons; [|auto]. unfold by_key_le. ord.
    + split; [done|]. intros y [->|Hy]%elem_of_cons; [apply ole_refl|]. specialize (Hw y Hy). unfold by_key_le in *. ord.
  - split; [done|]. intros y ->%list_elem_of_singleton. apply ole_refl.
Qed.

(** What the heap holds of the candidates seen: the best ones, and all of them as long as
they fit. *)
Definition holds_best (bound : nat) (seen h : list A) : Prop :=
  ∃ rest, seen ≡ₚ h ++ rest ∧ (∀ x y, x ∈ h → y ∈ rest → by_key_le x y) ∧
    length h ≤ bound ∧ (rest ≠ [] → length h = bound).

Lemma offer_best bound seen h c : 0 < bound → holds_best bound seen h → holds_best bound (c :: seen) (offer bound h c).
Proof.
  intros Hb (rest & Hp & Hle & Hlen & Hfull). unfold offer. destruct (Nat.ltb_spec (length h) bound) as [Hroom|Hroom].
  - assert (rest = []) as -> by (destruct rest; [done|]; specialize (Hfull ltac:(done)); lia).
    exists []. rewrite app_nil_r in *. split_and!; [by constructor|by intros ? ? ? ?%not_elem_of_nil|simpl; lia|done].
  - pose proof (heap_pop_spec h) as Hpop. destruct (heap_pop h) as [[w h']|]; [|subst h; simpl in Hroom; lia].
    destruct Hpop as [Hh Hw]. assert (length h = S (length h')) as Hl by (by rewrite Hh). unfold key_lt.
    assert (by_key_le w w) as Hww by apply ole_refl.
    destruct (ltb (key c) (key w)) eqn:E; ord_norm.
    + exists (w :: rest). split_and!.
      * rewrite Hp, Hh. simpl. apply Permutation_skip. rewrite <-Permutation_middle. done.
      * intros x y Hx Hy. assert (by_key_le x w) as Hxw.
        { apply elem_of_cons in Hx as [->|Hx]; [by apply olt_le|]. apply Hw. rewrite Hh. by right. }
        apply elem_of_cons in Hy as [->|Hy]; [done|]. apply (ole_trans _ (key w)); [done|]. apply Hle; [rewrite Hh; left|done].
      * simpl. lia.
      * intros _. simpl. lia.
    + exists (c :: rest). split_and!.
      * rewrite Hp. apply Permutation_middle.
      * intros x y Hx Hy. apply elem_of_cons in Hy as [->|Hy]; [|by apply Hle].
        apply (ole_trans _ (key w)); [by apply Hw|done].
      * lia.
      * intros _. lia.
Qed.

Lemma select_best bound l : 0 < bound → holds_best bound l (select_top bound l).
Proof.
  intros Hb. unfold select_top.
  assert (∀ l seen h, holds_best bound seen h → holds_best bound (reverse l ++ seen) (foldl (offer bound) h l)) as Hl.
  { clear l. induction l as [|c l IH]; intros seen h Hh; [done|]. rewrite reverse_cons, <-app_assoc. simpl.
    by apply IH, offer_best. }
  destruct (Hl l [] []) as (rest & Hp & Hr).
  - exists []. split_and!; [done|by intros ? ? ?%not_elem_of_nil|simpl; lia|done].
  - exists rest. split; [|exact Hr]. by rewrite <-Hp, app_nil_r, reverse_Permutation.
Qed.

(** Sorted lists of the same candidates with distinct keys are equal. *)
Lemma sorted_by_key_unique l k :
  NoDup (key <$> l) → StronglySorted by_key_le l → StronglySorted by_key_le k → l ≡ₚ k → l = k.
Proof.
  intros Hnd Hl Hk Hp. eapply StronglySorted_unique_strong; [|done|done|done].
  intros x y Hx Hy Hxy Hyx. assert (key x = key y) as E by (by apply ole_antisymm).
  apply list_elem_of_lookup in Hx as [i Hi].
  rewrite <-Hp in Hy. apply list_elem_of_lookup in Hy as [j Hj].
  assert (i = j) as ->; [|congruence].
  eapply NoDup_lookup; [exact Hnd| |]; rewrite list_lookup_fmap; [rewrite Hi|rewrite Hj]; simpl; by rewrite ?E.
Qed.

(** The best, in any order, sorted: the first of all of them sorted. *)
Lemma holds_best_sorted bound l h h' :
  NoDup (key <$> l) → h' ≡ₚ h → holds_best bound l h → merge_sort by_key_le h' = take bound (merge_sort by_key_le l).
Proof.
  intros Hnd Hh' (rest & Hp & Hle & Hlen & Hfull).
  assert (merge_sort by_key_le l = merge_sort by_key_le h' ++ merge_sort by_key_le rest) as E.
  { apply sorted_by_key_unique.
    - by rewrite merge_sort_Permutation.
    - apply StronglySorted_merge_sort; apply _.
    - apply StronglySorted_app_2; [|apply StronglySorted_merge_sort; apply _..].
      intros x y Hx Hy. rewrite merge_sort_Permutation in Hx, Hy. apply Hle; [by rewrite <-Hh'|done].
    - by rewrite !merge_sort_Permutation, Hh'. }
  rewrite E. assert (length (merge_sort by_key_le h') = length h) as El by (by rewrite merge_sort_Permutation, Hh').
  destruct rest as [|r rest].
  - rewrite app_nil_r. rewrite take_ge; [done|]. lia.
  - rewrite take_app_le by (rewrite El, Hfull; done). rewrite take_ge; [done|]. rewrite El, Hfull; done.
Qed.

(** Keeping the best with a bounded heap and sorting them gives what sorting everything
and cutting gives. *)
Lemma select_top_sorted bound l :
  0 < bound → NoDup (key <$> l) →
  merge_sort by_key_le (select_top bound l) = take bound (merge_sort by_key_le l).
Proof. intros Hb Hnd. by eapply holds_best_sorted, select_best. Qed.

Lemma select_top_elem bound l x : x ∈ select_top bound l → x ∈ l.
Proof.
  unfold select_top. assert (∀ l h, x ∈ foldl (offer bound) h l → x ∈ h ∨ x ∈ l) as Hl.
  { clear l. induction l as [|c l IH]; intros h Hx; [by left|]. apply IH in Hx as [Hx|Hx]; [|right; by right].
    unfold offer in Hx. destruct (_ <? _); [set_solver|]. pose proof (heap_pop_spec h) as Hpop.
    destruct (heap_pop h) as [[w h']|]; [|by left]. destruct Hpop as [Hh _]. destruct (key_lt c w); [|by left].
    apply elem_of_cons in Hx as [->|Hx]; [right; left|]. left. rewrite Hh. by right. }
  intros Hx. apply Hl in Hx as [Hx|Hx]; [by apply not_elem_of_nil in Hx|done].
Qed.
End topk.

(** The heap of the images is the image of the heap. *)
Section images.
Context {A B K : Type} `{TotalOrd K} (key : B → K) (g : A → B).

Lemma heap_pop_fmap (h : list A) :
  heap_pop key (g <$> h) = option_map (λ p : A * list A, (g p.1, g <$> p.2)) (heap_pop (key ∘ g) h).
Proof.
  induction h as [|x h IH]; [done|]. rewrite fmap_cons. cbn [heap_pop]. rewrite IH. destruct (heap_pop (key ∘ g) h) as [[y rest]|]; [|done].
  cbn [option_map fst snd]. unfold key_lt. cbn [compose]. by destruct (ltb _ _).
Qed.

Lemma select_top_fmap bound (l : list A) : select_top key bound (g <$> l) = g <$> select_top (key ∘ g) bound l.
Proof.
  unfold select_top.
  assert (∀ h : list A, foldl (offer key bound) (g <$> h) (g <$> l) = g <$> foldl (offer (key ∘ g) bound) h l) as Hl; [|apply (Hl [])].
  induction l as [|x l IH]; intros h; [done|]. rewrite fmap_cons. cbn [foldl]. rewrite <-IH. f_equal. unfold offer. rewrite length_fmap.
  destruct (_ <? _); [done|]. rewrite heap_pop_fmap. destruct (heap_pop (key ∘ g) h) as [[w rest]|]; [|done].
  cbn [option_map fst snd]. unfold key_lt. cbn [compose]. by destruct (ltb _ _).
Qed.
End images.

(** * Sorting looks at the elements only *)

Section sort_ext.
Context {A} (R S : relation A) `{!RelDecision R, !RelDecision S} (U : list A).
Context (agree : ∀ x y, x ∈ U → y ∈ U → R x y ↔ S x y).

Lemma list_merge_ext l1 l2 : l1 ⊆ U → l2 ⊆ U → list_merge R l1 l2 = list_merge S l1 l2.
Proof using agree.
  revert l2. induction l1 as [|x l1 IH1]; intros l2 H1 H2; [by rewrite !list_merge_nil_l|].
  induction l2 as [|y l2 IH2]; [by rewrite !list_merge_nil_r|]. rewrite !list_merge_cons.
  assert (R x y ↔ S x y) as E by (apply agree; set_solver).
  destruct (decide (R x y)), (decide (S x y)); try tauto; f_equal; [apply IH1|apply IH2]; set_solver.
Qed.

Definition within (st : list (option (list A))) : Prop := ∀ l, Some l ∈ st → l ⊆ U.

Lemma list_merge_within l1 l2 : l1 ⊆ U → l2 ⊆ U → list_merge R l1 l2 ⊆ U.
Proof. intros H1 H2 x. rewrite merge_Permutation. set_solver. Qed.

Lemma merge_list_to_stack_ext st l : within st → l ⊆ U →
  merge_list_to_stack R st l = merge_list_to_stack S st l ∧ within (merge_list_to_stack R st l).
Proof using agree.
  unfold within. revert l. induction st as [|[k|] st IH]; intros l Hst Hl; cbn [merge_list_to_stack].
  - split; [done|]. intros k. rewrite list_elem_of_singleton. by intros [= ->].
  - assert (k ⊆ U) as Hk by (apply Hst; set_solver). rewrite <-(list_merge_ext k l) by done.
    destruct (IH (list_merge R k l)) as [-> IH2]; [set_solver|by apply list_merge_within|]. split; [done|]. set_solver.
  - split; [done|]. set_solver.
Qed.

Lemma merge_stack_ext st : within st → merge_stack R st = merge_stack S st ∧ merge_stack R st ⊆ U.
Proof using agree.
  unfold within. induction st as [|[k|] st IH]; intros Hst; cbn [merge_stack]; [set_solver| |apply IH; set_solver].
  assert (k ⊆ U) as Hk by (apply Hst; set_solver). destruct IH as [<- IH]; [set_solver|].
  split; [by apply list_merge_ext|by apply list_merge_within].
Qed.

Lemma merge_sort_ext l : l ⊆ U → merge_sort R l = merge_sort S l.
Proof using agree.
  unfold merge_sort. assert (within []) as Hn by (intros ? ?%not_elem_of_nil; done). revert Hn. generalize (@nil (option (list A))) as st.
  induction l as [|x l IH]; intros st Hst Hl; cbn [merge_sort_aux]; [by apply merge_stack_ext|].
  destruct (merge_list_to_stack_ext st [x] Hst) as [<- Hw]; [set_solver|]. apply IH; [done|set_solver].
Qed.
End sort_ext.
