(* ===== verification/Crdt.v ===== *)
(** Applying operations to the graph: the acceptance rules of
[Inner::apply_operation_internal] (the [match &op.action] of [src/src/db.rs]),
the register and set-membership fragments on which replicas converge, and the
mixed histories on which they do not. *)
From stdpp Require Import base gmap sets list strings.
From Stdlib Require Import ZArith Lia.
From S2P Require Import Prelude Clock Value.

(** [zero_marker]. *)
Definition zero_marker : VersionMarker := mkMarker (mkRevision 0 0 "") "".

(** [.map(|current| marker <= *current).unwrap_or(false)]. *)
Definition blocks (marker : VersionMarker) (current : option VersionMarker) : bool :=
  match current with Some c => leb marker c | None => false end.

(** [nodes.entry(node).or_insert_with(|| NodeState::new(node))]. *)
Definition node_entry (n : NodeId) (nodes : gmap string NodeState) : NodeState :=
  default (node_new n) (nodes !! n).

(** The stored form of an operation value, [OperationAction::SetField]. *)
Definition field_value_of (marker : VersionMarker) (v : OperationValue) : FieldValue :=
  match v with
  | OScalar v => FScalar v
  | OBytes b => FBytes b
  | OBlob r => FBlob r
  | OLink t => FLink t
  | OSet ms => FSet (mkSet marker (list_to_map ((λ m, (m, marker)) <$> ms)) ∅)
  end.

Definition apply_set_field (marker : VersionMarker) (field : string) (v : OperationValue)
    (state : NodeState) : NodeState * bool :=
  let tombstone_blocks := blocks marker (tombstones state !! field) in
  let field_blocks := blocks marker (version <$> fields state !! field) in
  if tombstone_blocks || field_blocks then (state, false)
  else (mkNode (id state)
          (<[field := mkField (field_value_of marker v) marker]> (fields state))
          (delete field (tombstones state)), true).

(** [if marker > current.version { current.version = marker; }]. *)
Definition raise_version (marker current : VersionMarker) : VersionMarker :=
  if ltb current marker then marker else current.

Definition apply_add_set_member (marker : VersionMarker) (field : string) (member : NodeId)
    (state : NodeState) : NodeState * bool :=
  let put fs := mkNode (id state) (<[field := fs]> (fields state)) (tombstones state) in
  if blocks marker (tombstones state !! field) then (state, false)
  else
    match fields state !! field with
    | Some current =>
        match value current with
        | FSet set =>
            if leb marker (baseline set) then (state, false)
            else if blocks marker (members set !! member) || blocks marker (removed set !! member)
            then (state, false)
            else (put (mkField
                         (FSet (mkSet (baseline set) (<[member := marker]> (members set))
                                  (delete member (removed set))))
                         (raise_version marker (version current))), true)
        | _ =>
            if leb marker (version current) then (state, false)
            else (put (mkField (FSet (mkSet marker {[member := marker]} ∅)) marker), true)
        end
    | None => (put (mkField (FSet (mkSet zero_marker {[member := marker]} ∅)) marker), true)
    end.

Definition apply_remove_set_member (marker : VersionMarker) (field : string) (member : NodeId)
    (state : NodeState) : NodeState * bool :=
  let put fs := mkNode (id state) (<[field := fs]> (fields state)) (tombstones state) in
  if blocks marker (tombstones state !! field) then (state, false)
  else
    match fields state !! field with
    | Some current =>
        match value current with
        | FSet set =>
            if leb marker (baseline set) then (state, false)
            else if blocks marker (members set !! member) || blocks marker (removed set !! member)
            then (state, false)
            else (put (mkField
                         (FSet (mkSet (baseline set) (delete member (members set))
                                  (<[member := marker]> (removed set))))
                         (raise_version marker (version current))), true)
        | _ =>
            if leb marker (version current) then (state, false)
            else (put (mkField (FSet (mkSet zero_marker ∅ {[member := marker]})) marker), true)
        end
    | None => (put (mkField (FSet (mkSet zero_marker ∅ {[member := marker]})) marker), true)
    end.

Definition apply_delete_field (marker : VersionMarker) (field : string)
    (state : NodeState) : NodeState * bool :=
  let field_blocks := blocks marker (version <$> fields state !! field) in
  let tombstone_blocks := blocks marker (tombstones state !! field) in
  if field_blocks || tombstone_blocks then (state, false)
  else (mkNode (id state) (delete field (fields state))
          (<[field := marker]> (tombstones state)), true).

Definition apply_to_node (op : Operation) (state : NodeState) : NodeState * bool :=
  match action op with
  | SetField _ f v => apply_set_field (op_marker op) f v state
  | AddSetMember _ f m => apply_add_set_member (op_marker op) f m state
  | RemoveSetMember _ f m => apply_remove_set_member (op_marker op) f m state
  | DeleteField _ f => apply_delete_field (op_marker op) f state
  end.

(** The graph update of [apply_operation_internal] and whether it was accepted. *)
Definition apply_action (op : Operation) (nodes : gmap string NodeState)
    : gmap string NodeState * bool :=
  let n := operation_source_node op in
  let r := apply_to_node op (node_entry n nodes) in
  (<[n := r.1]> nodes, r.2).

Definition apply_all (nodes : gmap string NodeState) (ops : list Operation)
    : gmap string NodeState :=
  foldl (λ g op, (apply_action op g).1) nodes ops.

(** * Slots

An operation reads and writes one slot: what a node holds under one field name.
[slot_step] is the acceptance rule on slots; [apply_action] implements it. *)
Abbreviation slot := (option FieldState * option VersionMarker)%type.

Definition node_slot (state : NodeState) (f : string) : slot :=
  (fields state !! f, tombstones state !! f).

Definition slot_of (nodes : gmap string NodeState) (n : NodeId) (f : string) : slot :=
  match nodes !! n with Some st => node_slot st f | None => (None, None) end.

Definition slot_blocked (marker : VersionMarker) (s : slot) : bool :=
  blocks marker (version <$> s.1) || blocks marker s.2.

Definition add_member (marker : VersionMarker) (member : NodeId) (set : SetState) : SetState :=
  mkSet (baseline set) (<[member := marker]> (members set)) (delete member (removed set)).

Definition drop_member (marker : VersionMarker) (member : NodeId) (set : SetState) : SetState :=
  mkSet (baseline set) (delete member (members set)) (<[member := marker]> (removed set)).

Definition member_blocked (marker : VersionMarker) (member : NodeId) (set : SetState) : bool :=
  leb marker (baseline set) || blocks marker (members set !! member)
  || blocks marker (removed set !! member).

Definition member_step (marker : VersionMarker) (member : NodeId)
    (upd : VersionMarker → NodeId → SetState → SetState)
    (on_scalar on_empty : SetState) (s : slot) : slot * bool :=
  if blocks marker s.2 then (s, false)
  else
    match s.1 with
    | Some (mkField (FSet set) v) =>
        if member_blocked marker member set then (s, false)
        else ((Some (mkField (FSet (upd marker member set)) (raise_version marker v)), s.2), true)
    | Some current =>
        if leb marker (version current) then (s, false)
        else ((Some (mkField (FSet on_scalar) marker), s.2), true)
    | None => ((Some (mkField (FSet on_empty) marker), s.2), true)
    end.

Definition slot_step (op : Operation) (s : slot) : slot * bool :=
  let marker := op_marker op in
  match action op with
  | SetField _ _ v =>
      if slot_blocked marker s then (s, false)
      else ((Some (mkField (field_value_of marker v) marker), None), true)
  | DeleteField _ _ =>
      if slot_blocked marker s then (s, false) else ((None, Some marker), true)
  | AddSetMember _ _ m =>
      member_step marker m add_member (mkSet marker {[m := marker]} ∅)
        (mkSet zero_marker {[m := marker]} ∅) s
  | RemoveSetMember _ _ m =>
      member_step marker m drop_member (mkSet zero_marker ∅ {[m := marker]})
        (mkSet zero_marker ∅ {[m := marker]}) s
  end.

Ltac unfold_apply :=
  unfold apply_to_node, apply_set_field, apply_add_set_member, apply_remove_set_member,
    apply_delete_field, slot_step, member_step, slot_blocked, member_blocked, node_slot,
    add_member, drop_member in *.

Ltac use_tests :=
  repeat match goal with
  | H : _ = true |- _ => rewrite H in *
  | H : _ = false |- _ => rewrite H in *
  end; simpl in *.

Lemma apply_to_node_id op st : id (apply_to_node op st).1 = id st.
Proof. unfold_apply. repeat case_match; simpl in *; simplify_eq; done. Qed.

Lemma apply_to_node_frame op st f :
  f ≠ operation_field op → node_slot (apply_to_node op st).1 f = node_slot st f.
Proof.
  unfold operation_field. intros Hf. unfold_apply.
  destruct (action op); simpl in *; repeat case_match; simpl;
    by rewrite ?lookup_insert_ne, ?lookup_delete_ne by done.
Qed.

Lemma apply_to_node_slot op st :
  slot_step op (node_slot st (operation_field op)) =
  (node_slot (apply_to_node op st).1 (operation_field op), (apply_to_node op st).2).
Proof.
  unfold operation_field. unfold_apply.
  destruct (action op); simpl.
  - rewrite orb_comm. case_match; simpl; [done|].
    by rewrite lookup_insert_eq, lookup_delete_eq.
  - destruct (blocks _ (tombstones st !! field)); simpl; [done|].
    destruct (fields st !! field) as [[[] v]|] eqn:E; simpl;
      rewrite ?orb_assoc; repeat case_match; simpl in *;
      rewrite ?lookup_insert_eq, ?E; simplify_eq; try done; use_tests; done.
  - destruct (blocks _ (tombstones st !! field)); simpl; [done|].
    destruct (fields st !! field) as [[[] v]|] eqn:E; simpl;
      rewrite ?orb_assoc; repeat case_match; simpl in *;
      rewrite ?lookup_insert_eq, ?E; simplify_eq; try done; use_tests; done.
  - case_match; simpl; [done|]. by rewrite lookup_insert_eq, lookup_delete_eq.
Qed.

(** * The graph as a family of slots *)

Definition slot_next (op : Operation) (s : slot) : slot := (slot_step op s).1.

Definition same_slot (op : Operation) (n : NodeId) (f : string) : Prop :=
  operation_source_node op = n ∧ operation_field op = f.

Lemma slot_of_entry nodes n f : node_slot (node_entry n nodes) f = slot_of nodes n f.
Proof. unfold node_entry, slot_of. by destruct (nodes !! n). Qed.

Lemma apply_action_slot op nodes :
  slot_step op (slot_of nodes (operation_source_node op) (operation_field op)) =
  (slot_of (apply_action op nodes).1 (operation_source_node op) (operation_field op),
   (apply_action op nodes).2).
Proof.
  rewrite <-slot_of_entry, apply_to_node_slot. unfold apply_action, slot_of. simpl.
  by rewrite lookup_insert_eq.
Qed.

Lemma slot_of_apply op nodes n f :
  slot_of (apply_action op nodes).1 n f =
  if decide (same_slot op n f) then slot_next op (slot_of nodes n f) else slot_of nodes n f.
Proof.
  unfold slot_next. case_decide as Hs.
  - destruct Hs as [<- <-]. by rewrite apply_action_slot.
  - unfold apply_action, slot_of at 1. simpl.
    destruct (decide (operation_source_node op = n)) as [<-|Hn].
    + rewrite lookup_insert_eq, apply_to_node_frame; [apply slot_of_entry|].
      intros ->. by apply Hs.
    + by rewrite lookup_insert_ne.
Qed.

Lemma apply_action_id op nodes n :
  id <$> (apply_action op nodes).1 !! n =
  if decide (operation_source_node op = n)
  then Some (default n (id <$> nodes !! n)) else id <$> nodes !! n.
Proof.
  unfold apply_action. simpl. rewrite lookup_insert. case_decide as Hn; [subst|done].
  simpl. rewrite apply_to_node_id. unfold node_entry. by destruct (nodes !! _).
Qed.

Lemma nodes_ext (g1 g2 : gmap string NodeState) :
  (∀ n, id <$> g1 !! n = id <$> g2 !! n) →
  (∀ n f, slot_of g1 n f = slot_of g2 n f) → g1 = g2.
Proof.
  intros Hid Hslot. apply map_eq. intros n. specialize (Hid n).
  assert (∀ f, slot_of g1 n f = slot_of g2 n f) as Hs by done. unfold slot_of in Hs.
  destruct (g1 !! n) as [[i1 f1 t1]|], (g2 !! n) as [[i2 f2 t2]|]; simplify_eq/=; [|done].
  f_equal. f_equal; apply map_eq; intros f; specialize (Hs f); unfold node_slot in Hs; by simplify_eq/=.
Qed.

(** Two operations commute on the graph as soon as they commute on the slot
they share, if they share one. *)
Lemma apply_action_comm op1 op2 nodes :
  (∀ n f, same_slot op1 n f → same_slot op2 n f →
     slot_next op2 (slot_next op1 (slot_of nodes n f)) =
     slot_next op1 (slot_next op2 (slot_of nodes n f))) →
  (apply_action op2 (apply_action op1 nodes).1).1 =
  (apply_action op1 (apply_action op2 nodes).1).1.
Proof.
  intros Hc. apply nodes_ext.
  - intros n. rewrite !apply_action_id. repeat case_decide; simplify_eq/=; done.
  - intros n f. rewrite !slot_of_apply. repeat case_decide; auto.
Qed.

Lemma apply_action_idem op nodes :
  (∀ n f, same_slot op n f →
     slot_next op (slot_next op (slot_of nodes n f)) = slot_next op (slot_of nodes n f)) →
  (apply_action op (apply_action op nodes).1).1 = (apply_action op nodes).1.
Proof.
  intros Hc. apply nodes_ext.
  - intros n. rewrite !apply_action_id. repeat case_decide; simplify_eq/=; done.
  - intros n f. rewrite !slot_of_apply. repeat case_decide; auto.
Qed.

(** * Registers: [SetField] and [DeleteField] *)

Definition is_register_op (op : Operation) : bool :=
  match action op with SetField _ _ _ | DeleteField _ _ => true | _ => false end.

(** What an accepted register operation leaves in its slot. *)
Definition register_result (op : Operation) : slot :=
  match action op with
  | SetField _ _ v => (Some (mkField (field_value_of (op_marker op) v) (op_marker op)), None)
  | _ => (None, Some (op_marker op))
  end.

Lemma register_step op s :
  is_register_op op = true →
  slot_step op s =
  if slot_blocked (op_marker op) s then (s, false) else (register_result op, true).
Proof. unfold is_register_op, slot_step, register_result. by destruct (action op). Qed.

Lemma register_result_blocks op m :
  is_register_op op = true → slot_blocked m (register_result op) = leb m (op_marker op).
Proof.
  unfold is_register_op, register_result, slot_blocked. destruct (action op); try done; intros _; simpl.
  by rewrite orb_false_r.
Qed.

Lemma slot_blocked_mono m1 m2 s : ole m1 m2 → slot_blocked m2 s = true → slot_blocked m1 s = true.
Proof.
  unfold slot_blocked, blocks. intros Hle.
  destruct s as [[f|] [t|]]; simpl; rewrite ?orb_true_iff; intros; destruct_or?; try done;
    solve [ord|left; ord|right; ord].
Qed.

Lemma register_comm op1 op2 s :
  is_register_op op1 = true → is_register_op op2 = true → op_marker op1 ≠ op_marker op2 →
  slot_next op2 (slot_next op1 s) = slot_next op1 (slot_next op2 s).
Proof.
  intros H1 H2 Hne. unfold slot_next. rewrite !register_step by done.
  assert (∀ a b, olt (op_marker a) (op_marker b) →
     slot_blocked (op_marker b) s = true → slot_blocked (op_marker a) s = true) as Hm.
  { intros a b ?. apply slot_blocked_mono. ord. }
  assert (olt (op_marker op1) (op_marker op2) ∨ olt (op_marker op2) (op_marker op1)) as Hlt.
  { destruct (olt_or_ole (op_marker op1) (op_marker op2)) as [?|Hle]; [by left|].
    apply ole_iff in Hle as [?|?]; [by right|congruence]. }
  destruct (slot_blocked (op_marker op1) s) eqn:B1, (slot_blocked (op_marker op2) s) eqn:B2;
    simpl; rewrite ?B1, ?B2, ?register_result_blocks by done; simpl; try done.
  - destruct Hlt as [Hlt|Hlt]; [|by rewrite (Hm _ _ Hlt B1) in B2].
    assert (leb (op_marker op1) (op_marker op2) = true) as -> by ord. done.
  - destruct Hlt as [Hlt|Hlt]; [by rewrite (Hm _ _ Hlt B2) in B1|].
    assert (leb (op_marker op2) (op_marker op1) = true) as -> by ord. done.
  - destruct Hlt as [Hlt|Hlt].
    + assert (leb (op_marker op2) (op_marker op1) = false) as -> by ord.
      assert (leb (op_marker op1) (op_marker op2) = true) as -> by ord. done.
    + assert (leb (op_marker op2) (op_marker op1) = true) as -> by ord.
      assert (leb (op_marker op1) (op_marker op2) = false) as -> by ord. done.
Qed.

Lemma register_idem op s :
  is_register_op op = true → slot_next op (slot_next op s) = slot_next op s.
Proof.
  intros H. unfold slot_next. rewrite !register_step by done.
  destruct (slot_blocked (op_marker op) s) eqn:B; simpl; [by rewrite B|].
  rewrite register_result_blocks by done.
  assert (leb (op_marker op) (op_marker op) = true) as -> by (apply leb_ole, ole_refl). done.
Qed.

(** Distinct operations carry distinct markers. *)
Definition markers_unique (ops : list Operation) : Prop :=
  ∀ a b, a ∈ ops → b ∈ ops → op_marker a = op_marker b → a = b.

(** * Set membership: [AddSetMember] and [RemoveSetMember] *)

Definition is_member_op (op : Operation) : bool :=
  match action op with AddSetMember _ _ _ | RemoveSetMember _ _ _ => true | _ => false end.

Definition op_member (op : Operation) : NodeId :=
  match action op with AddSetMember _ _ m | RemoveSetMember _ _ m => m | _ => "" end.

Definition set_upd (op : Operation) (set : SetState) : SetState :=
  match action op with
  | AddSetMember _ _ m => add_member (op_marker op) m set
  | RemoveSetMember _ _ m => drop_member (op_marker op) m set
  | _ => set
  end.

(** A set state whose version bounds every marker it holds. *)
Definition set_bounded (set : SetState) (v : VersionMarker) : Prop :=
  ole (baseline set) v ∧
  (∀ m k, members set !! m = Some k → ole k v) ∧
  (∀ m k, removed set !! m = Some k → ole k v).

(** The slot is unset or holds a bounded set. *)
Definition set_slot (s : slot) : Prop :=
  match s.1 with
  | None => True
  | Some (mkField (FSet set) v) => set_bounded set v
  | Some _ => False
  end.

(** [member_blocked] for the member an operation names. *)
Definition op_blocked (op : Operation) (set : SetState) : bool :=
  member_blocked (op_marker op) (op_member op) set.

Definition empty_set : SetState := mkSet zero_marker ∅ ∅.

Lemma member_step_unset op t :
  is_member_op op = true →
  slot_step op (None, t) =
  if blocks (op_marker op) t then ((None, t), false)
  else ((Some (mkField (FSet (set_upd op empty_set)) (op_marker op)), t), true).
Proof.
  unfold is_member_op, slot_step, member_step, set_upd, empty_set, add_member, drop_member.
  destruct (action op); try done; intros _; simpl; case_match; try done;
    rewrite ?delete_empty; done.
Qed.

Lemma member_step_set op set v t :
  is_member_op op = true →
  slot_step op (Some (mkField (FSet set) v), t) =
  if blocks (op_marker op) t || op_blocked op set then ((Some (mkField (FSet set) v), t), false)
  else ((Some (mkField (FSet (set_upd op set)) (raise_version (op_marker op) v)), t), true).
Proof.
  unfold is_member_op, slot_step, member_step, set_upd, op_blocked, op_member.
  destruct (action op); try done; intros _; simpl; repeat case_match; use_tests; done.
Qed.

Lemma set_upd_comm op1 op2 set :
  op_member op1 ≠ op_member op2 → set_upd op2 (set_upd op1 set) = set_upd op1 (set_upd op2 set).
Proof.
  unfold op_member, set_upd. intros Hne.
  destruct (action op1), (action op2); try done; unfold add_member, drop_member; simpl in *;
    f_equal; first [by rewrite insert_insert_ne|by rewrite delete_delete
                   |by rewrite delete_insert_ne|by rewrite <-delete_insert_ne|done].
Qed.

Lemma set_upd_same op1 op2 set :
  is_member_op op1 = true → is_member_op op2 = true →
  op_member op1 = op_member op2 → set_upd op2 (set_upd op1 set) = set_upd op2 set.
Proof.
  unfold is_member_op, op_member, set_upd. intros H1 H2 He.
  destruct (action op1), (action op2); try done; unfold add_member, drop_member; simpl in *; subst;
    f_equal; by rewrite ?insert_insert_eq, ?delete_delete_eq, ?insert_delete_eq, ?delete_insert_eq.
Qed.

Lemma op_blocked_same op1 op2 set :
  is_member_op op2 = true → op_member op1 = op_member op2 →
  op_blocked op1 (set_upd op2 set) =
  leb (op_marker op1) (baseline set) || leb (op_marker op1) (op_marker op2).
Proof.
  unfold is_member_op, op_blocked, member_blocked, set_upd. intros H2 He. rewrite He. unfold op_member.
  destruct (action op2); try done; unfold add_member, drop_member; simpl;
    rewrite lookup_insert_eq, lookup_delete_eq; simpl; by rewrite ?orb_false_r.
Qed.

Lemma op_blocked_ne op1 op2 set :
  op_member op1 ≠ op_member op2 → op_blocked op1 (set_upd op2 set) = op_blocked op1 set.
Proof.
  unfold op_blocked, member_blocked, set_upd. intros Hne. unfold op_member in Hne at 2.
  destruct (action op2); try done; unfold add_member, drop_member; simpl;
    by rewrite lookup_insert_ne, lookup_delete_ne by done.
Qed.

Lemma baseline_set_upd op set : baseline (set_upd op set) = baseline set.
Proof. unfold set_upd. by destruct (action op). Qed.

Lemma raise_version_max m v : ole m (raise_version m v) ∧ ole v (raise_version m v).
Proof. unfold raise_version. destruct (ltb v m) eqn:E; split; ord_norm; try apply ole_refl; ord. Qed.

Lemma raise_version_comm m1 m2 v :
  raise_version m2 (raise_version m1 v) = raise_version m1 (raise_version m2 v).
Proof.
  unfold raise_version.
  destruct (ltb v m1) eqn:E1, (ltb v m2) eqn:E2;
    rewrite ?E1, ?E2; try done;
    repeat match goal with |- context [if ltb ?a ?b then _ else _] => destruct (ltb a b) eqn:? end;
    try done; ord.
Qed.

Lemma raise_version_absorb m1 m2 v : ole m1 m2 → raise_version m1 (raise_version m2 v) = raise_version m2 v.
Proof.
  unfold raise_version. intros.
  repeat match goal with |- context [if ltb ?a ?b then _ else _] => destruct (ltb a b) eqn:? end;
    try done; ord.
Qed.

Lemma set_upd_bounded op set v :
  set_bounded set v → set_bounded (set_upd op set) (raise_version (op_marker op) v).
Proof.
  destruct (raise_version_max (op_marker op) v) as [Hm Hv].
  intros (Hb & Hmem & Hrem). split_and!.
  - rewrite baseline_set_upd. ord.
  - intros m k. unfold set_upd. destruct (action op); simpl.
    + intros ?%Hmem. ord.
    + rewrite lookup_insert. case_decide; [intros [= <-]; done|intros ?%Hmem; ord].
    + intros [_ Hk%Hmem]%lookup_delete_Some. ord.
    + intros ?%Hmem. ord.
  - intros m k. unfold set_upd. destruct (action op); simpl.
    + intros ?%Hrem. ord.
    + intros [_ Hk%Hrem]%lookup_delete_Some. ord.
    + rewrite lookup_insert. case_decide; [intros [= <-]; done|intros ?%Hrem; ord].
    + intros ?%Hrem. ord.
Qed.

(** An unset slot behaves like the empty set at version zero. *)
Lemma member_step_unset_next op t :
  is_member_op op = true → olt zero_marker (op_marker op) → blocks (op_marker op) t = false →
  slot_next op (None, t) = slot_next op (Some (mkField (FSet empty_set) zero_marker), t).
Proof.
  intros Hop Hz Ht. unfold slot_next. rewrite member_step_unset, member_step_set, Ht by done.
  assert (op_blocked op empty_set = false) as ->.
  { unfold op_blocked, member_blocked; simpl. rewrite !lookup_empty. simpl.
    rewrite !orb_false_r. ord. }
  simpl. unfold raise_version. assert (ltb zero_marker (op_marker op) = true) as -> by ord. done.
Qed.

Lemma empty_set_bounded : set_bounded empty_set zero_marker.
Proof. split_and!; simpl; [apply ole_refl|done..]. Qed.

Lemma member_blocked_noop op s :
  is_member_op op = true → blocks (op_marker op) s.2 = true → slot_next op s = s.
Proof.
  unfold is_member_op, slot_next, slot_step, member_step. intros Hop Hb.
  destruct (action op); try done; by rewrite Hb.
Qed.

Lemma member_step_tombstone op s : is_member_op op = true → (slot_next op s).2 = s.2.
Proof.
  unfold is_member_op, slot_next, slot_step, member_step. intros Hop.
  destruct (action op); try done; repeat case_match; done.
Qed.

Lemma member_step_keeps op s :
  is_member_op op = true → olt zero_marker (op_marker op) → set_slot s → set_slot (slot_next op s).
Proof.
  intros Hop Hz Hs. destruct (blocks (op_marker op) s.2) eqn:Hb.
  { by rewrite member_blocked_noop. }
  assert (∀ set v t, set_bounded set v →
            set_slot (slot_next op (Some (mkField (FSet set) v), t))) as Hset.
  { intros set v t Hsv. unfold slot_next. rewrite member_step_set by done.
    case_match; [done|]. by apply set_upd_bounded. }
  destruct s as [[[[] v]|] t]; try done; [by apply Hset|].
  rewrite member_step_unset_next by done. apply Hset, empty_set_bounded.
Qed.

Lemma op_blocked_bounded op set v :
  set_bounded set v → op_blocked op set = true → ole (op_marker op) v.
Proof.
  intros (Hb & Hm & Hr). unfold op_blocked, member_blocked, blocks.
  rewrite !orb_true_iff. intros [[?|?]|?]; [ord|..].
  - destruct (members set !! _) eqn:E; [apply Hm in E; ord|done].
  - destruct (removed set !! _) eqn:E; [apply Hr in E; ord|done].
Qed.

Lemma op_blocked_mono op1 op2 set :
  op_member op1 = op_member op2 → ole (op_marker op1) (op_marker op2) →
  op_blocked op2 set = true → op_blocked op1 set = true.
Proof.
  unfold op_blocked, member_blocked, blocks. intros -> Hle.
  destruct (members set !! _), (removed set !! _); rewrite !orb_true_iff; intros; destruct_or?; try done;
    solve [left; left; ord|left; right; ord|right; ord].
Qed.

(** Two operations on the same member: the one with the larger marker wins. *)
Lemma member_comm_same op1 op2 set v t :
  is_member_op op1 = true → is_member_op op2 = true →
  op_member op1 = op_member op2 → olt (op_marker op1) (op_marker op2) →
  blocks (op_marker op1) t = false → blocks (op_marker op2) t = false →
  slot_next op2 (slot_next op1 (Some (mkField (FSet set) v), t)) =
  slot_next op1 (slot_next op2 (Some (mkField (FSet set) v), t)).
Proof.
  intros H1 H2 He Hlt Ht1 Ht2. unfold slot_next.
  rewrite !member_step_set by done. rewrite Ht1, Ht2. simpl.
  assert (op_blocked op2 set = true → op_blocked op1 set = true) as Hmono.
  { apply op_blocked_mono; [done|ord]. }
  destruct (op_blocked op1 set) eqn:B1, (op_blocked op2 set) eqn:B2; simpl;
    rewrite !member_step_set by done; rewrite ?Ht1, ?Ht2, ?B1, ?B2; simpl;
    [done| |by specialize (Hmono eq_refl)|].
  - rewrite op_blocked_same by done.
    assert (leb (op_marker op1) (op_marker op2) = true) as -> by ord. by rewrite orb_true_r.
  - rewrite !op_blocked_same by done.
    assert (leb (op_marker op1) (op_marker op2) = true) as -> by ord. rewrite orb_true_r. simpl.
    unfold op_blocked, member_blocked in B2. rewrite !orb_false_iff in B2. destruct B2 as [[-> _] _].
    assert (leb (op_marker op2) (op_marker op1) = false) as -> by ord. simpl.
    rewrite set_upd_same by done. by rewrite raise_version_comm, raise_version_absorb by ord.
Qed.

Lemma member_comm_set op1 op2 set v t :
  is_member_op op1 = true → is_member_op op2 = true → op_marker op1 ≠ op_marker op2 →
  blocks (op_marker op1) t = false → blocks (op_marker op2) t = false →
  slot_next op2 (slot_next op1 (Some (mkField (FSet set) v), t)) =
  slot_next op1 (slot_next op2 (Some (mkField (FSet set) v), t)).
Proof.
  intros H1 H2 Hne Ht1 Ht2. destruct (decide (op_member op1 = op_member op2)) as [He|He].
  - destruct (olt_or_ole (op_marker op1) (op_marker op2)) as [Hlt|Hle].
    + by apply member_comm_same.
    + apply ole_iff in Hle as [Hlt|Hle]; [|congruence]. symmetry. by apply member_comm_same.
  - unfold slot_next. rewrite !member_step_set by done. rewrite Ht1, Ht2. simpl.
    destruct (op_blocked op1 set) eqn:B1, (op_blocked op2 set) eqn:B2; simpl;
      rewrite !member_step_set by done; rewrite ?Ht1, ?Ht2; simpl;
      rewrite ?op_blocked_ne by congruence; rewrite ?B1, ?B2; try done.
    by rewrite set_upd_comm, raise_version_comm.
Qed.

Lemma member_comm op1 op2 s :
  is_member_op op1 = true → is_member_op op2 = true → op_marker op1 ≠ op_marker op2 →
  olt zero_marker (op_marker op1) → olt zero_marker (op_marker op2) → set_slot s →
  slot_next op2 (slot_next op1 s) = slot_next op1 (slot_next op2 s).
Proof.
  intros H1 H2 Hne Hz1 Hz2 Hs.
  destruct (blocks (op_marker op1) s.2) eqn:B1.
  { rewrite (member_blocked_noop op1 s), (member_blocked_noop op1 (slot_next op2 s));
      rewrite ?member_step_tombstone; done. }
  destruct (blocks (op_marker op2) s.2) eqn:B2.
  { rewrite (member_blocked_noop op2 s), (member_blocked_noop op2 (slot_next op1 s));
      rewrite ?member_step_tombstone; done. }
  destruct s as [[[[] v]|] t]; try done; simpl in *.
  - by apply member_comm_set.
  - rewrite !(member_step_unset_next _ t) by done. by apply member_comm_set.
Qed.

Lemma member_idem op s :
  is_member_op op = true → olt zero_marker (op_marker op) → set_slot s →
  slot_next op (slot_next op s) = slot_next op s.
Proof.
  intros Hop Hz Hs. destruct (blocks (op_marker op) s.2) eqn:B.
  { rewrite (member_blocked_noop op s) by done. by apply member_blocked_noop. }
  assert (∀ set v t, blocks (op_marker op) t = false →
     slot_next op (slot_next op (Some (mkField (FSet set) v), t)) =
     slot_next op (Some (mkField (FSet set) v), t)) as Hset.
  { intros set v t Ht. unfold slot_next. rewrite member_step_set by done. rewrite Ht. simpl.
    destruct (op_blocked op set) eqn:Bo; simpl; rewrite member_step_set, ?Ht by done; simpl.
    - by rewrite Bo.
    - rewrite op_blocked_same by done.
      assert (leb (op_marker op) (op_marker op) = true) as -> by (apply leb_ole, ole_refl).
      by rewrite orb_true_r. }
  destruct s as [[[[] v]|] t]; try done; simpl in *; [by apply Hset|].
  rewrite !member_step_unset_next by done. by apply Hset.
Qed.

Lemma slot_step_rejected op s : (slot_step op s).2 = false → slot_next op s = s.
Proof.
  unfold slot_next, slot_step, member_step.
  destruct (action op); simpl; repeat case_match; simpl; congruence.
Qed.

Lemma blocked_self op set t :
  is_member_op op = true → op_blocked op set = true →
  ∀ v, (slot_step op (Some (mkField (FSet set) v), t)).2 = false.
Proof. intros Hop Hb v. rewrite member_step_set, Hb, orb_true_r by done. done. Qed.

Lemma marker_refl op : leb (op_marker op) (op_marker op) = true.
Proof. apply leb_ole, ole_refl. Qed.

Lemma op_blocked_upd op set : is_member_op op = true → op_blocked op (set_upd op set) = true.
Proof. intros Hop. rewrite op_blocked_same, marker_refl by done. apply orb_true_r. Qed.

Lemma accepted_then_blocked op s : (slot_step op s).2 = true → (slot_step op (slot_next op s)).2 = false.
Proof.
  destruct (is_member_op op) eqn:Hop.
  - destruct s as [[[fv v]|] t]; unfold slot_next.
    + destruct fv as [| | | |set].
      5: { rewrite member_step_set by done. case_match; [done|]. intros _. simpl.
           apply blocked_self; [done|by apply op_blocked_upd]. }
      all: unfold slot_step, member_step; simpl; unfold is_member_op in Hop;
        destruct (action op) eqn:Ea; try done;
        (destruct (blocks (op_marker op) t) eqn:Eb; [done|]);
        (destruct (leb (op_marker op) v) eqn:El; [done|]); intros _; simpl; rewrite Eb;
        unfold member_blocked; simpl;
        rewrite ?lookup_singleton_eq; simpl; by rewrite marker_refl, ?orb_true_r.
    + rewrite member_step_unset by done. case_match; [done|]. intros _. simpl.
      apply blocked_self; [done|by apply op_blocked_upd].
  - assert (is_register_op op = true) as Hreg.
    { unfold is_member_op, is_register_op in *. by destruct (action op). }
    unfold slot_next. rewrite register_step by done. case_match; [done|]. intros _. simpl.
    by rewrite register_step, register_result_blocks, marker_refl by done.
Qed.

(** * Theorems *)

(** C10: [apply_action] implements the slot rule and nothing else: the
operation's slot takes the value [slot_step] gives it, acceptance is the one
[slot_step] reports, and every other slot of every node keeps its contents. *)
Theorem apply_action_refines op nodes :
  (slot_of (apply_action op nodes).1 (operation_source_node op) (operation_field op),
   (apply_action op nodes).2) =
  slot_step op (slot_of nodes (operation_source_node op) (operation_field op)) ∧
  ∀ n f, ¬ same_slot op n f → slot_of (apply_action op nodes).1 n f = slot_of nodes n f.
Proof.
  split; [by rewrite apply_action_slot|].
  intros n f Hn. rewrite slot_of_apply. by rewrite decide_False.
Qed.

(** C1: strong eventual consistency of registers.  Replicas that start from the
same graph and receive the same set of field writes and deletions end in the
same graph, whatever the order and however often each operation is delivered,
provided distinct operations carry distinct markers. *)
Theorem register_convergence nodes l1 l2 :
  Forall (λ op, is_register_op op = true) l1 →
  (∀ op, op ∈ l1 ↔ op ∈ l2) → markers_unique l1 →
  apply_all nodes l1 = apply_all nodes l2.
Proof.
  intros Hreg Heq Huniq. unfold apply_all.
  apply (foldl_same_set _ (λ _, True) (λ op, op ∈ l1)); try done.
  - intros g a b _ Ha Hb. rewrite Forall_forall in Hreg.
    destruct (decide (a = b)) as [->|Hab]; [done|].
    apply apply_action_comm. intros n f _ _. apply register_comm; eauto.
  - intros g a _ Ha. rewrite Forall_forall in Hreg.
    apply apply_action_idem. intros n f _. apply register_idem; eauto.
  - by apply Forall_forall.
  - apply Forall_forall. naive_solver.
Qed.

(** C2: strong eventual consistency of set membership.  On fields that hold
nothing or a set, replicas that receive the same set of [set()]/[remove()]
operations agree, in any delivery order and with any duplication. *)
Theorem membership_convergence nodes l1 l2 :
  Forall (λ op, is_member_op op = true ∧ olt zero_marker (op_marker op) ∧
            set_slot (slot_of nodes (operation_source_node op) (operation_field op))) l1 →
  (∀ op, op ∈ l1 ↔ op ∈ l2) → markers_unique l1 →
  apply_all nodes l1 = apply_all nodes l2.
Proof.
  intros Hmem Heq Huniq. rewrite Forall_forall in Hmem. unfold apply_all.
  apply (foldl_same_set _
    (λ g, ∀ op, op ∈ l1 → set_slot (slot_of g (operation_source_node op) (operation_field op)))
    (λ op, op ∈ l1)); try done.
  - intros g a Hg Ha op Hop. rewrite slot_of_apply. case_decide as Hs; [|by apply Hg].
    destruct (Hmem a Ha) as (? & ? & _). apply member_step_keeps; [done..|by apply Hg].
  - intros g a b Hg Ha Hb. destruct (decide (a = b)) as [->|Hab]; [done|].
    destruct (Hmem a Ha) as (? & ? & _), (Hmem b Hb) as (? & ? & _).
    apply apply_action_comm. intros n f [<- <-] _. apply member_comm; eauto.
  - intros g a Hg Ha. destruct (Hmem a Ha) as (? & ? & _).
    apply apply_action_idem. intros n f [<- <-]. apply member_idem; eauto.
  - intros op Hop. by apply Hmem.
  - by apply Forall_forall.
  - apply Forall_forall. naive_solver.
Qed.

(** A replayed operation is rejected: applying an operation right after
itself reports no change, for every action and every graph. *)
Lemma replay_rejected op nodes :
  (apply_action op (apply_action op nodes).1).2 = false.
Proof.
  pose proof (apply_action_slot op nodes) as H1.
  pose proof (apply_action_slot op (apply_action op nodes).1) as H2.
  set (s := slot_of nodes _ _) in *. set (s' := slot_of (apply_action op nodes).1 _ _) in *.
  assert ((slot_step op s').2 = false) as Hr; [|by rewrite H2 in Hr].
  assert (s' = slot_next op s) as -> by (unfold slot_next; by rewrite H1).
  destruct (slot_step op s).2 eqn:E; [by apply accepted_then_blocked|].
  by rewrite slot_step_rejected.
Qed.

(** * Concrete histories *)

Lemma markers_unique_NoDup l : NoDup (op_marker <$> l) → markers_unique l.
Proof.
  intros Hnd a b [i Ha]%list_elem_of_lookup [j Hb]%list_elem_of_lookup E.
  assert (i = j) as ->; [|congruence].
  eapply (NoDup_lookup _ i j (op_marker a)); [done|..]; rewrite list_lookup_fmap.
  - by rewrite Ha.
  - by rewrite Hb, E.
Qed.

Definition demo_op (t : Z) (a : OperationAction) : Operation :=
  mkOp ("r/op/" +:+ hex t) "r" (mkRevision t 0 "r") a.

Definition demo_registers : list Operation :=
  [demo_op 1 (SetField "n" "f" (OScalar (JString "x")));
   demo_op 3 (SetField "n" "f" (OLink "n/f"));
   demo_op 2 (DeleteField "n" "f");
   demo_op 4 (SetField "n" "g" (OScalar JNull))].

Lemma register_convergence_witness :
  apply_all ∅ demo_registers = apply_all ∅ (reverse demo_registers ++ demo_registers).
Proof.
  apply (register_convergence ∅ demo_registers).
  - repeat constructor.
  - intros op. rewrite elem_of_app, elem_of_reverse. naive_solver.
  - apply markers_unique_NoDup. by apply (bool_decide_unpack _).
Defined.

Definition demo_members : list Operation :=
  [demo_op 1 (AddSetMember "room" "members" "alice");
   demo_op 5 (RemoveSetMember "room" "members" "alice");
   demo_op 3 (AddSetMember "room" "members" "bob");
   demo_op 4 (AddSetMember "room" "members" "alice")].

Lemma membership_convergence_witness :
  apply_all ∅ demo_members = apply_all ∅ (reverse demo_members).
Proof.
  apply (membership_convergence ∅ demo_members).
  - repeat constructor.
  - intros op. by rewrite elem_of_reverse.
  - apply markers_unique_NoDup. by apply (bool_decide_unpack _).
Defined.

(** The member keys a reader sees under a field. *)
Definition members_at (nodes : gmap string NodeState) (n : NodeId) (f : string) : list NodeId :=
  match (slot_of nodes n f).1 with
  | Some (mkField (FSet set) _) => btree_keys (members set)
  | _ => []
  end.

(** Convergence does not extend to a field on which set operations race with
a write or a deletion of the whole field.  [put({"$set": [a]})] at time 2 and
[set(b)] at time 3 leave [a, b] in one delivery order and only [b] in the other:
the insertion raised the field version past the write it never saw.  A deletion
at time 2 hides the insertion at time 1 only if it arrives before the one at
time 3, because a rejected deletion leaves no tombstone behind.  All markers are
distinct. *)
Lemma mixed_writes_diverge :
  (let w := demo_op 2 (SetField "room" "members" (OSet ["a"])) in
   let i := demo_op 3 (AddSetMember "room" "members" "b") in
   markers_unique [w; i] ∧
   members_at (apply_all ∅ [w; i]) "room" "members" = ["a"; "b"] ∧
   members_at (apply_all ∅ [i; w]) "room" "members" = ["b"]) ∧
  (let old := demo_op 1 (AddSetMember "room" "members" "a") in
   let del := demo_op 2 (DeleteField "room" "members") in
   let new := demo_op 3 (AddSetMember "room" "members" "b") in
   markers_unique [old; del; new] ∧
   members_at (apply_all ∅ [del; new; old]) "room" "members" = ["b"] ∧
   members_at (apply_all ∅ [new; del; old]) "room" "members" = ["a"; "b"]).
Proof.
  simpl. split_and!; [|by vm_compute|by vm_compute| |by vm_compute|by vm_compute];
    apply markers_unique_NoDup; by apply (bool_decide_unpack _).
Qed.
