(* ===== verification/Merge.v ===== *)
(** State-based merging: [merge_set_state], [merge_field_state] and
[merge_node_state] of [src/src/db.rs], with [observe_node_state].  The lattice
laws of set states, and where they stop. *)
From stdpp Require Import base gmap sets list strings.
From Stdlib Require Import ZArith Lia.
From S2P Require Import Prelude Clock Value Crdt.

(** [max_marker]. *)
Definition max_marker (left right : option VersionMarker) : option VersionMarker :=
  match left, right with
  | Some l, Some r => Some (omax l r)
  | Some l, None => Some l
  | None, Some r => Some r
  | None, None => None
  end.

(** [candidate_ids]: every member either state mentions. *)
Definition candidate_ids (current incoming : SetState) : gset string :=
  dom (members current) ∪ dom (removed current) ∪
  dom (members incoming) ∪ dom (removed incoming).

(** [add > drop] on the optional markers, [None] being the smallest. *)
Definition opt_gt (x y : option VersionMarker) : bool :=
  match x, y with
  | Some a, Some b => ltb b a
  | Some _, None => true
  | None, _ => false
  end.

Definition above_baseline (b : VersionMarker) (x : option VersionMarker) : bool :=
  match x with Some m => ltb b m | None => false end.

(** One iteration of the [for member in candidate_ids] loop. *)
Definition merge_candidate (current incoming : SetState) (b : VersionMarker)
    (acc : gmap string VersionMarker * gmap string VersionMarker) (member : string)
    : gmap string VersionMarker * gmap string VersionMarker :=
  let add := max_marker (members current !! member) (members incoming !! member) in
  let drop := max_marker (removed current !! member) (removed incoming !! member) in
  let put m x := match x with Some v => <[member := v]> m | None => m end in
  match above_baseline b add, above_baseline b drop with
  | true, true =>
      if opt_gt add drop then (put acc.1 add, acc.2) else (acc.1, put acc.2 drop)
  | true, false => (put acc.1 add, acc.2)
  | false, true => (acc.1, put acc.2 drop)
  | false, false => acc
  end.

Definition merge_set_state (current incoming : SetState) : SetState :=
  let b := omax (baseline current) (baseline incoming) in
  let r := foldl (merge_candidate current incoming b) (∅, ∅)
             (btree_elems (candidate_ids current incoming)) in
  mkSet b r.1 r.2.

Definition merge_field_state (existing incoming : FieldState) : FieldState :=
  match value existing, value incoming with
  | FSet current_set, FSet incoming_set =>
      mkField (FSet (merge_set_state current_set incoming_set))
        (if ltb (version existing) (version incoming) then version incoming else version existing)
  | _, incoming_value =>
      if ltb (version existing) (version incoming)
      then mkField incoming_value (version incoming) else existing
  end.

(** The two loops of [merge_node_state]. *)
Definition merge_tombstone (current : NodeState) (p : string * VersionMarker) : NodeState :=
  let '(field, tombstone) := p in
  if blocks tombstone (tombstones current !! field)
     || blocks tombstone (version <$> fields current !! field)
  then current
  else mkNode (id current) (delete field (fields current))
         (<[field := tombstone]> (tombstones current)).

Definition merge_field (current : NodeState) (p : string * FieldState) : NodeState :=
  let '(field, incoming_field) := p in
  if blocks (version incoming_field) (tombstones current !! field) then current
  else
    let merged :=
      match fields current !! field with
      | Some existing => merge_field_state existing incoming_field
      | None => incoming_field
      end in
    mkNode (id current) (<[field := merged]> (fields current))
      (delete field (tombstones current)).

Definition merge_into (current incoming : NodeState) : NodeState :=
  foldl merge_field
    (foldl merge_tombstone current (btree_list (tombstones incoming)))
    (btree_list (fields incoming)).

(** [merge_node_state]. *)
Definition merge_node_state (nodes : gmap string NodeState) (incoming : NodeState)
    : gmap string NodeState :=
  <[id incoming := merge_into (node_entry (id incoming) nodes) incoming]> nodes.

(** [observe_node_state]: the clock observes every marker of the node. *)
Definition observe_marker (c : HybridClock) (m : VersionMarker) : HybridClock :=
  observe (revision m) c.

Definition observe_field (c : HybridClock) (f : FieldState) : HybridClock :=
  let c := observe_marker c (version f) in
  match value f with
  | FSet set =>
      let c := observe_marker c (baseline set) in
      let c := foldl observe_marker c (btree_list (members set)).*2 in
      foldl observe_marker c (btree_list (removed set)).*2
  | _ => c
  end.

Definition observe_node_state (c : HybridClock) (node : NodeState) : HybridClock :=
  foldl observe_field
    (foldl observe_marker c (btree_list (tombstones node)).*2)
    (btree_list (fields node)).*2.

(** [node_state_is_empty]. *)
Definition node_state_is_empty (node : NodeState) : bool :=
  bool_decide (fields node = ∅) && bool_decide (tombstones node = ∅).

(** * Set states as a lattice

A member's status is the winning marker with its polarity; at equal markers a
removal wins. *)

Abbreviation tagged := (VersionMarker * bool)%type.

Definition tagged_cmp (x y : tagged) : comparison :=
  then_with (cmp x.1 y.1) (Bool.compare x.2 y.2).

#[global] Program Instance tagged_ord : TotalOrd tagged := {| cmp := tagged_cmp |}.
Next Obligation.
  intros [m1 b1] [m2 b2]. unfold tagged_cmp. cbn [fst snd]. split.
  - destruct (cmp m1 m2) eqn:E; simpl; try done.
    apply cmp_eq in E as ->. by destruct b1, b2.
  - intros [= -> ->]. rewrite cmp_refl. by destruct b2.
Qed.
Next Obligation.
  intros [m1 b1] [m2 b2]. unfold tagged_cmp. cbn [fst snd].
  rewrite then_with_opp, (cmp_opp m1 m2). by destruct b1, b2.
Qed.
Next Obligation.
  intros [m1 b1] [m2 b2] [m3 b3]. unfold tagged_cmp. cbn [fst snd].
  apply then_with_lt_trans. by destruct b1, b2, b3.
Qed.

Section opt_max.
Context `{TotalOrd A}.
Implicit Types x y z : option A.

Definition opt_max x y : option A :=
  match x, y with
  | Some a, Some b => Some (omax a b)
  | Some a, None => Some a
  | None, y => y
  end.

Lemma omax_comm (a b : A) : omax a b = omax b a.
Proof. unfold omax. destruct (ltb b a) eqn:?, (ltb a b) eqn:?; try done; ord. Qed.

Lemma omax_assoc (a b c : A) : omax a (omax b c) = omax (omax a b) c.
Proof.
  unfold omax. destruct (ltb b a) eqn:E1, (ltb c b) eqn:E2; rewrite ?E1, ?E2; try done.
  - assert (ltb c a = true) as -> by ord. done.
  - destruct (ltb c a) eqn:E3; [ord|done].
Qed.

Lemma omax_cases (a b : A) : omax a b = a ∨ omax a b = b.
Proof. unfold omax. destruct (ltb b a); auto. Qed.

Lemma omax_idem (a : A) : omax a a = a.
Proof. unfold omax. by case_match. Qed.

Lemma opt_max_comm x y : opt_max x y = opt_max y x.
Proof. destruct x, y; simpl; try done. by rewrite omax_comm. Qed.

Lemma opt_max_assoc x y z : opt_max x (opt_max y z) = opt_max (opt_max x y) z.
Proof. destruct x, y, z; simpl; try done. by rewrite omax_assoc. Qed.

Lemma opt_max_idem x : opt_max x x = x.
Proof. destruct x; simpl; [by rewrite omax_idem|done]. Qed.
End opt_max.

Definition status (set : SetState) (k : string) : option tagged :=
  opt_max ((λ m, (m, false)) <$> members set !! k) ((λ m, (m, true)) <$> removed set !! k).

Definition keep_above (b : VersionMarker) (x : option tagged) : option tagged :=
  match x with Some (m, _) => if ltb b m then x else None | None => None end.

(** No member is both present and removed. *)
Definition exclusive (set : SetState) : Prop :=
  ∀ k, members set !! k = None ∨ removed set !! k = None.

(** The pair of entries the loop leaves for one member. *)
Definition candidate_result (current incoming : SetState) (b : VersionMarker) (k : string)
    : option VersionMarker * option VersionMarker :=
  let add := max_marker (members current !! k) (members incoming !! k) in
  let drop := max_marker (removed current !! k) (removed incoming !! k) in
  match above_baseline b add, above_baseline b drop with
  | true, true => if opt_gt add drop then (add, None) else (None, drop)
  | true, false => (add, None)
  | false, true => (None, drop)
  | false, false => (None, None)
  end.

Lemma merge_candidate_lookup current incoming b acc k k' :
  let r := candidate_result current incoming b k in
  let acc' := merge_candidate current incoming b acc k in
  acc'.1 !! k' = (if decide (k = k') then from_option Some (acc.1 !! k') r.1 else acc.1 !! k') ∧
  acc'.2 !! k' = (if decide (k = k') then from_option Some (acc.2 !! k') r.2 else acc.2 !! k').
Proof.
  simpl. unfold merge_candidate, candidate_result.
  destruct (max_marker (members current !! k) _) as [a|], (max_marker (removed current !! k) _) as [d|];
    simpl; repeat case_match; simpl; rewrite ?lookup_insert; repeat case_decide; subst; done.
Qed.

Lemma merge_loop_lookup current incoming b l acc k :
  let r := candidate_result current incoming b k in
  let acc' := foldl (merge_candidate current incoming b) acc l in
  acc'.1 !! k = (if decide (k ∈ l) then from_option Some (acc.1 !! k) r.1 else acc.1 !! k) ∧
  acc'.2 !! k = (if decide (k ∈ l) then from_option Some (acc.2 !! k) r.2 else acc.2 !! k).
Proof.
  simpl. revert acc. induction l as [|x l IH]; intros acc; [done|].
  simpl. destruct (IH (merge_candidate current incoming b acc x)) as [-> ->].
  destruct (merge_candidate_lookup current incoming b acc x k) as [-> ->].
  destruct (decide (x = k)) as [->|Hne].
  - rewrite !(decide_True (P := k ∈ k :: l)) by left.
    destruct (candidate_result current incoming b k) as [[?|] [?|]]; simpl; by case_decide.
  - destruct (decide (k ∈ l)) as [Hl|Hl].
    + rewrite !(decide_True (P := k ∈ x :: l)) by (by right). done.
    + rewrite !(decide_False (P := k ∈ x :: l)); [done|..];
        intros [->|?]%elem_of_cons; done.
Qed.

Lemma merge_set_lookup s1 s2 k :
  (members (merge_set_state s1 s2) !! k, removed (merge_set_state s1 s2) !! k) =
  candidate_result s1 s2 (omax (baseline s1) (baseline s2)) k.
Proof.
  unfold merge_set_state. simpl.
  destruct (merge_loop_lookup s1 s2 (omax (baseline s1) (baseline s2))
    (btree_elems (candidate_ids s1 s2)) (∅, ∅) k) as [-> ->].
  simpl. rewrite !lookup_empty. case_decide as Hk; rewrite elem_of_btree_elems in Hk.
  - destruct (candidate_result _ _ _ _) as [[?|] [?|]]; done.
  - unfold candidate_ids in Hk. rewrite !not_elem_of_union, !not_elem_of_dom in Hk.
    unfold candidate_result. by destruct Hk as [[[-> ->] ->] ->].
Qed.

Lemma merge_set_exclusive s1 s2 : exclusive (merge_set_state s1 s2).
Proof.
  intros k. pose proof (merge_set_lookup s1 s2 k) as H. unfold candidate_result in H.
  repeat case_match; simplify_eq; auto.
Qed.

Lemma opt_gt_tagged a d :
  ltb (A:=tagged) (d, true) (a, false) = ltb d a.
Proof.
  unfold ltb. cbn [cmp tagged_ord]. unfold tagged_cmp. cbn [fst snd].
  by destruct (cmp d a).
Qed.

Lemma max_marker_tag x y t :
  (λ m, (m, t)) <$> max_marker x y = opt_max ((λ m, (m, t)) <$> x) ((λ m, (m, t)) <$> y) :> option tagged.
Proof.
  destruct x as [a|], y as [b|]; simpl; try done. f_equal. unfold omax.
  assert (ltb (A:=tagged) (b, t) (a, t) = ltb b a) as ->; [|by case_match].
  unfold ltb. cbn [cmp tagged_ord]. unfold tagged_cmp. cbn [fst snd].
  destruct (cmp b a) eqn:E; try done. by destruct t.
Qed.

Lemma status_of_result b add drop :
  let r := match above_baseline b add, above_baseline b drop with
           | true, true => if opt_gt add drop then (add, None) else (None, drop)
           | true, false => (add, None)
           | false, true => (None, drop)
           | false, false => (None, None)
           end in
  opt_max ((λ m, (m, false)) <$> r.1) ((λ m, (m, true)) <$> r.2) =
  keep_above b (opt_max ((λ m, (m, false)) <$> add) ((λ m, (m, true)) <$> drop)).
Proof.
  destruct add as [a|], drop as [d|]; simpl; try (by repeat case_match).
  unfold omax. rewrite opt_gt_tagged.
  destruct (ltb b a) eqn:Ea, (ltb b d) eqn:Ed, (ltb d a) eqn:E; simpl; rewrite ?Ea, ?Ed; try done; exfalso; ord.
Qed.

Lemma status_merge s1 s2 k :
  status (merge_set_state s1 s2) k =
  keep_above (omax (baseline s1) (baseline s2)) (opt_max (status s1 k) (status s2 k)).
Proof.
  pose proof (merge_set_lookup s1 s2 k) as H. unfold status at 1.
  pose proof (f_equal fst H) as H1. pose proof (f_equal snd H) as H2. cbn [fst snd] in H1, H2.
  rewrite H1, H2. unfold candidate_result. rewrite status_of_result, !max_marker_tag.
  f_equal. unfold status.
  rewrite <-!opt_max_assoc. f_equal. rewrite !opt_max_assoc. f_equal. apply opt_max_comm.
Qed.

Lemma set_state_ext s1 s2 :
  exclusive s1 → exclusive s2 → baseline s1 = baseline s2 →
  (∀ k, status s1 k = status s2 k) → s1 = s2.
Proof.
  intros E1 E2 Hb Hs.
  assert (∀ k, members s1 !! k = members s2 !! k ∧ removed s1 !! k = removed s2 !! k) as Hk.
  { intros k. specialize (E1 k). specialize (E2 k). specialize (Hs k). unfold status in Hs.
    destruct E1 as [E1|E1], E2 as [E2|E2]; rewrite E1, E2 in *; simpl in Hs;
      destruct (removed s1 !! k), (removed s2 !! k), (members s1 !! k), (members s2 !! k);
      simplify_eq/=; done. }
  destruct s1, s2; simpl in *. f_equal; [done|apply map_eq; apply Hk|apply map_eq; apply Hk].
Qed.

Lemma keep_above_max b b' x y :
  keep_above (omax b b') (opt_max (keep_above b x) y) = keep_above (omax b b') (opt_max x y).
Proof.
  destruct x as [[m t]|]; simpl; [|done]. destruct (ltb b m) eqn:E; [done|].
  assert (ltb (omax b b') m = false) as Hm by (unfold omax; case_match; ord).
  destruct y as [[m' t']|]; simpl; rewrite ?Hm; [|done].
  assert (omax (m, t) (m', t') = if ltb (m', t') (m, t) then (m, t) else (m', t')) as -> by done.
  destruct (ltb (m', t') (m, t)) eqn:Et; [|done]. rewrite Hm.
  assert (ole m' m).
  { apply ltb_olt in Et. unfold olt in Et. cbn [cmp tagged_ord] in Et. unfold tagged_cmp in Et.
    cbn [fst snd] in Et. unfold ole. destruct (cmp m' m); done. }
  assert (ltb (omax b b') m' = false) as ->; [|done]. ord.
Qed.

Lemma merge_set_comm s1 s2 : merge_set_state s1 s2 = merge_set_state s2 s1.
Proof.
  apply set_state_ext; [apply merge_set_exclusive..|apply omax_comm|].
  intros k. by rewrite !status_merge, omax_comm, opt_max_comm.
Qed.

Lemma merge_set_assoc s1 s2 s3 :
  merge_set_state (merge_set_state s1 s2) s3 = merge_set_state s1 (merge_set_state s2 s3).
Proof.
  apply set_state_ext; [apply merge_set_exclusive..|symmetry; apply omax_assoc|].
  intros k. rewrite !status_merge.
  change (baseline (merge_set_state s1 s2)) with (omax (baseline s1) (baseline s2)).
  change (baseline (merge_set_state s2 s3)) with (omax (baseline s2) (baseline s3)).
  rewrite keep_above_max. rewrite (opt_max_comm (status s1 k) (keep_above _ _)).
  rewrite (omax_comm (baseline s1) (omax _ _)), keep_above_max.
  rewrite (opt_max_comm (opt_max _ _) (status s1 k)), opt_max_assoc.
  by rewrite (omax_comm (omax (baseline s2) _)), omax_assoc.
Qed.

(** Every marker the state holds is newer than its baseline. *)
Definition above_all (set : SetState) : Prop :=
  (∀ k m, members set !! k = Some m → olt (baseline set) m) ∧
  (∀ k m, removed set !! k = Some m → olt (baseline set) m).

Lemma status_exclusive set k m t :
  exclusive set → status set k = Some (m, t) ↔
  (if t then removed set else members set) !! k = Some m.
Proof.
  intros E. unfold status. destruct (E k) as [Hk|Hk]; rewrite Hk; simpl.
  - destruct (removed set !! k) eqn:?, t; simpl; naive_solver.
  - destruct (members set !! k) eqn:?, t; simpl; naive_solver.
Qed.

Lemma merge_set_idem_iff set :
  merge_set_state set set = set ↔ exclusive set ∧ above_all set.
Proof.
  split.
  - intros Hm. assert (exclusive set) as E by (rewrite <-Hm; apply merge_set_exclusive).
    assert (∀ k m t, status set k = Some (m, t) → olt (baseline set) m) as Ha.
    { intros k m t Hs. assert (status (merge_set_state set set) k = Some (m, t)) as Hs'
        by (by rewrite Hm).
      rewrite status_merge, opt_max_idem, omax_idem, Hs in Hs'. simpl in Hs'.
      destruct (ltb (baseline set) m) eqn:?; [ord|done]. }
    split; [done|]. split; intros k m Hk.
    + apply (Ha k m false). by apply (status_exclusive set k m false).
    + apply (Ha k m true). by apply (status_exclusive set k m true).
  - intros [E [Ha Hr]]. apply set_state_ext; [apply merge_set_exclusive|done|apply omax_idem|].
    intros k. rewrite status_merge, opt_max_idem, omax_idem.
    destruct (status set k) as [[m t]|] eqn:Hs; [|done]. simpl.
    apply status_exclusive in Hs; [|done].
    assert (ltb (baseline set) m = true) as ->; [|done].
    apply ltb_olt. destruct t; eauto.
Qed.

(** * Merging slot by slot *)

Definition merge_slot (current incoming : slot) : slot :=
  let s1 :=
    match incoming.2 with
    | Some t => if slot_blocked t current then current else (None, Some t)
    | None => current
    end in
  match incoming.1 with
  | Some f =>
      if blocks (version f) s1.2 then s1
      else (Some (match s1.1 with Some e => merge_field_state e f | None => f end), None)
  | None => s1
  end.

Lemma merge_tombstone_slot current k t f :
  node_slot (merge_tombstone current (k, t)) f =
  if decide (k = f)
  then if slot_blocked t (node_slot current f) then node_slot current f else (None, Some t)
  else node_slot current f.
Proof.
  unfold merge_tombstone, slot_blocked, node_slot. simpl. rewrite orb_comm.
  case_decide; subst; case_match; simpl;
    rewrite ?lookup_delete_eq, ?lookup_insert_eq, ?lookup_delete_ne, ?lookup_insert_ne by done; done.
Qed.

Lemma merge_field_slot current k t f :
  node_slot (merge_field current (k, t)) f =
  if decide (k = f)
  then if blocks (version t) (node_slot current f).2 then node_slot current f
       else (Some (match (node_slot current f).1 with
                | Some e => merge_field_state e t | None => t end), None)
  else node_slot current f.
Proof.
  unfold merge_field, node_slot. simpl.
  destruct (decide (k = f)) as [->|]; destruct (blocks _ _); simpl;
    rewrite ?lookup_delete_eq, ?lookup_insert_eq, ?lookup_delete_ne, ?lookup_insert_ne by done; done.
Qed.

Lemma merge_tombstones_slot l current f :
  NoDup l.*1 →
  node_slot (foldl merge_tombstone current l) f =
  match list_to_map (M := gmap string _) l !! f with
  | Some t => if slot_blocked t (node_slot current f) then node_slot current f else (None, Some t)
  | None => node_slot current f
  end.
Proof.
  revert current. induction l as [|[k t] l IH]; intros current Hnd; [done|].
  apply NoDup_cons in Hnd as [Hk Hnd]. cbn [foldl]. rewrite IH by done.
  rewrite merge_tombstone_slot.
  change (list_to_map ((k, t) :: l)) with (<[k := t]> (list_to_map l : gmap string VersionMarker)).
  case_decide as Hkf; subst.
  - rewrite lookup_insert_eq, not_elem_of_list_to_map_1 by done. done.
  - by rewrite lookup_insert_ne.
Qed.

Lemma merge_fields_slot l current f :
  NoDup l.*1 →
  node_slot (foldl merge_field current l) f =
  match list_to_map (M := gmap string _) l !! f with
  | Some fs =>
      if blocks (version fs) (node_slot current f).2 then node_slot current f
      else (Some (match (node_slot current f).1 with
                  | Some e => merge_field_state e fs | None => fs end), None)
  | None => node_slot current f
  end.
Proof.
  revert current. induction l as [|[k t] l IH]; intros current Hnd; [done|].
  apply NoDup_cons in Hnd as [Hk Hnd]. cbn [foldl]. rewrite IH by done.
  rewrite merge_field_slot.
  change (list_to_map ((k, t) :: l)) with (<[k := t]> (list_to_map l : gmap string FieldState)).
  case_decide as Hkf; subst.
  - rewrite lookup_insert_eq, not_elem_of_list_to_map_1 by done. done.
  - by rewrite lookup_insert_ne.
Qed.

Lemma merge_into_slot current incoming f :
  node_slot (merge_into current incoming) f = merge_slot (node_slot current f) (node_slot incoming f).
Proof.
  unfold merge_into. rewrite merge_fields_slot by apply btree_keys_NoDup.
  rewrite merge_tombstones_slot by apply btree_keys_NoDup.
  rewrite !btree_list_to_map. unfold merge_slot. simpl.
  by destruct (tombstones incoming !! f), (fields incoming !! f).
Qed.

Lemma merge_into_id current incoming : id (merge_into current incoming) = id current.
Proof.
  unfold merge_into.
  assert (∀ l c, id (foldl merge_field c l) = id c) as ->.
  { induction l as [|[k t] l IH]; intros c; [done|]. simpl. rewrite IH. unfold merge_field.
    by case_match. }
  induction (btree_list (tombstones incoming)) as [|[k t] l IH] in current |- *; [done|].
  simpl. rewrite IH. unfold merge_tombstone. by case_match.
Qed.

Lemma slot_of_merge nodes incoming n f :
  slot_of (merge_node_state nodes incoming) n f =
  if decide (id incoming = n) then merge_slot (slot_of nodes n f) (node_slot incoming f)
  else slot_of nodes n f.
Proof.
  unfold merge_node_state, slot_of at 1. rewrite lookup_insert. case_decide; subst; [|done].
  by rewrite merge_into_slot, slot_of_entry.
Qed.

(** * Registers: merging states is applying operations *)

(** The slot holds a plain value, a tombstone, or nothing. *)
Definition register_slot (s : slot) : Prop :=
  match s with
  | (Some (mkField (FSet _) _), _) => False
  | (Some _, Some _) => False
  | _ => True
  end.

Definition slot_version (s : slot) : option VersionMarker :=
  match s with
  | (Some f, _) => Some (version f)
  | (None, t) => t
  end.

Lemma register_slot_blocked m s :
  register_slot s → slot_blocked m s = blocks m (slot_version s).
Proof.
  destruct s as [[[[] v]|] [t|]]; unfold slot_blocked; simpl; try done; intros _; by rewrite orb_false_r.
Qed.

Lemma merge_register s s' :
  register_slot s → register_slot s' →
  merge_slot s s' = if opt_gt (slot_version s') (slot_version s) then s' else s.
Proof.
  destruct s as [[[fv v]|] [t|]], s' as [[[fv' v']|] [t'|]];
    unfold merge_slot, slot_blocked, blocks, merge_field_state; simpl; try done;
    try (destruct fv; try done); try (destruct fv'; try done); intros _ _; simpl;
    rewrite ?orb_false_r; try done;
    repeat match goal with
    | |- context [if leb ?a ?b then _ else _] => destruct (leb a b) eqn:?; simpl
    | |- context [if ltb ?a ?b then _ else _] => destruct (ltb a b) eqn:?; simpl
    end; try done; exfalso; ord.
Qed.

Lemma merge_register_keeps s s' :
  register_slot s → register_slot s' → register_slot (merge_slot s s').
Proof. intros. rewrite merge_register by done. by case_match. Qed.

(** The operation leaves a register: a scalar, link, bytes or blob write, or a
deletion. *)
Definition is_plain_op (op : Operation) : bool :=
  match action op with
  | SetField _ _ (OSet _) => false
  | SetField _ _ _ | DeleteField _ _ => true
  | _ => false
  end.

Lemma plain_is_register op : is_plain_op op = true → is_register_op op = true.
Proof. unfold is_plain_op, is_register_op. by destruct (action op) as [? ? []| | |]. Qed.

Lemma plain_result op :
  is_plain_op op = true →
  register_slot (register_result op) ∧ slot_version (register_result op) = Some (op_marker op).
Proof. unfold is_plain_op, register_result. by destruct (action op) as [? ? []| | |]. Qed.

Lemma plain_keeps op s : is_plain_op op = true → register_slot s → register_slot (slot_next op s).
Proof.
  intros Hop Hs. unfold slot_next. rewrite register_step by by apply plain_is_register.
  case_match; [done|]. by apply plain_result.
Qed.

(** Merging commutes with applying: delivering an operation to the peer before
taking its snapshot is delivering it here after merging the snapshot. *)
Lemma merge_apply_register op s s' :
  is_plain_op op = true → register_slot s → register_slot s' →
  merge_slot s (slot_next op s') = slot_next op (merge_slot s s').
Proof.
  intros Hop Hs Hs'. destruct (plain_result op Hop) as [Hr Hv].
  assert (register_slot (slot_next op s')) by by apply plain_keeps.
  pose proof (merge_register_keeps s s' Hs Hs') as Hm.
  rewrite merge_register by done. unfold slot_next. rewrite !register_step by by apply plain_is_register.
  rewrite !register_slot_blocked by done. rewrite merge_register by done.
  destruct (slot_version s) as [v|] eqn:E, (slot_version s') as [v'|] eqn:E'; unfold blocks; simpl.
  - destruct (leb (op_marker op) v') eqn:?; simpl; rewrite ?E', ?Hv; simpl.
    + destruct (ltb v v') eqn:?; rewrite ?E, ?E'; simpl;
        [by assert (leb (op_marker op) v' = true) as -> by ord
        |by assert (leb (op_marker op) v = true) as -> by ord].
    + destruct (ltb v (op_marker op)) eqn:?, (ltb v v') eqn:?; rewrite ?E, ?E'; simpl.
      * by assert (leb (op_marker op) v' = false) as -> by ord.
      * by assert (leb (op_marker op) v = false) as -> by ord.
      * exfalso; ord.
      * by assert (leb (op_marker op) v = true) as -> by ord.
  - rewrite Hv. simpl. rewrite E. destruct (ltb v (op_marker op)) eqn:?; simpl;
      [by assert (leb (op_marker op) v = false) as -> by ord
      |by assert (leb (op_marker op) v = true) as -> by ord].
  - rewrite E'. destruct (leb (op_marker op) v') eqn:?; simpl; rewrite ?E', ?Hv; done.
  - rewrite Hv, E. done.
Qed.

(** * Whole graphs *)

(** The loop of [merge_snapshot_into_inner] over [snapshot.nodes.into_values()]. *)
Definition merge_nodes (nodes incoming : gmap string NodeState) : gmap string NodeState :=
  foldl merge_node_state nodes (btree_list incoming).*2.

(** Nodes are stored under their own identifier. *)
Definition graph_wf (g : gmap string NodeState) : Prop :=
  ∀ n st, g !! n = Some st → id st = n.

Lemma merge_slot_empty_r s : merge_slot s (None, None) = s.
Proof. done. Qed.

Lemma merge_list_slot l g n f :
  NoDup l.*1 → (∀ k st, (k, st) ∈ l → id st = k) →
  slot_of (foldl merge_node_state g l.*2) n f =
  match list_to_map (M := gmap string _) l !! n with
  | Some st => merge_slot (slot_of g n f) (node_slot st f)
  | None => slot_of g n f
  end.
Proof.
  revert g. induction l as [|[k st] l IH]; intros g Hnd Hid; [done|].
  apply NoDup_cons in Hnd as [Hk Hnd]. cbn [fmap list_fmap foldl snd].
  rewrite IH; [|done|intros ???; apply Hid; by right].
  rewrite slot_of_merge. rewrite (Hid k st) by left.
  change (list_to_map ((k, st) :: l)) with (<[k := st]> (list_to_map l : gmap string NodeState)).
  case_decide; subst.
  - rewrite lookup_insert_eq, not_elem_of_list_to_map_1 by done. done.
  - by rewrite lookup_insert_ne.
Qed.

Lemma slot_of_merge_nodes g g' n f :
  graph_wf g' →
  slot_of (merge_nodes g g') n f = merge_slot (slot_of g n f) (slot_of g' n f).
Proof.
  intros Hwf. unfold merge_nodes. rewrite merge_list_slot.
  - rewrite btree_list_to_map. unfold slot_of at 4. by destruct (g' !! n).
  - apply btree_keys_NoDup.
  - intros k st Hk%elem_of_btree_list. by apply Hwf.
Qed.

Lemma merge_list_id l g n :
  NoDup l.*1 → (∀ k st, (k, st) ∈ l → id st = k) →
  id <$> foldl merge_node_state g l.*2 !! n =
  match id <$> g !! n with
  | Some i => Some i
  | None => id <$> list_to_map (M := gmap string _) l !! n
  end.
Proof.
  revert g. induction l as [|[k st] l IH]; intros g Hnd Hid.
  { cbn [fmap list_fmap foldl list_to_map foldr]. rewrite lookup_empty. by destruct (g !! n). }
  apply NoDup_cons in Hnd as [Hk Hnd]. cbn [fmap list_fmap foldl snd].
  rewrite IH; [|done|intros ???; apply Hid; by right].
  change (list_to_map ((k, st) :: l)) with (<[k := st]> (list_to_map l : gmap string NodeState)).
  unfold merge_node_state. assert (id st = k) as Hst by (apply Hid; left).
  rewrite Hst, !lookup_insert. case_decide; subst; [|done].
  simpl. rewrite merge_into_id. unfold node_entry. by destruct (g !! id st).
Qed.

Lemma id_of_merge_nodes g g' n :
  graph_wf g' →
  id <$> merge_nodes g g' !! n =
  match id <$> g !! n with Some i => Some i | None => id <$> g' !! n end.
Proof.
  intros Hwf. unfold merge_nodes. rewrite merge_list_id.
  - by rewrite btree_list_to_map.
  - apply btree_keys_NoDup.
  - intros k st Hk%elem_of_btree_list. by apply Hwf.
Qed.

Lemma apply_all_snoc g l op : apply_all g (l ++ [op]) = (apply_action op (apply_all g l)).1.
Proof. unfold apply_all. by rewrite foldl_app. Qed.

Lemma apply_all_id g l n :
  id <$> apply_all g l !! n =
  match id <$> g !! n with
  | Some i => Some i
  | None => if decide (n ∈ operation_source_node <$> l) then Some n else None
  end.
Proof.
  induction l as [|op l IH] using rev_ind.
  { cbn [apply_all foldl fmap list_fmap]. destruct (g !! n); cbn [fmap option_fmap option_map]; [done|].
    case_decide as H; [by apply not_elem_of_nil in H|done]. }
  rewrite apply_all_snoc, apply_action_id, IH, fmap_app. simpl.
  destruct (id <$> g !! n); simpl; [by case_decide|].
  repeat case_decide; try done; subst; exfalso; set_solver.
Qed.

Lemma apply_all_wf g l : graph_wf g → graph_wf (apply_all g l).
Proof.
  intros Hwf n st Hn. pose proof (apply_all_id g l n) as Hid. rewrite Hn in Hid. simpl in Hid.
  destruct (g !! n) as [st'|] eqn:E; simpl in Hid.
  - apply Hwf in E. congruence.
  - by case_decide; simplify_eq.
Qed.

Lemma empty_graph_wf : graph_wf ∅.
Proof. intros n st. by rewrite lookup_empty. Qed.

(** Merging the state a peer reached by operations [l] is applying [l], once it
is so slot by slot. *)
Lemma merge_nodes_apply g l (P : slot → Prop) :
  (∀ n f, P (slot_of g n f)) →
  (∀ l' op n f, op ∈ l → same_slot op n f → l' ⊆ l → P (slot_of g n f) →
     merge_slot (slot_of g n f) (slot_next op (slot_of (apply_all ∅ l') n f)) =
     slot_next op (merge_slot (slot_of g n f) (slot_of (apply_all ∅ l') n f))) →
  merge_nodes g (apply_all ∅ l) = apply_all g l.
Proof.
  intros HP Hstep. apply nodes_ext.
  - intros n. rewrite id_of_merge_nodes by apply apply_all_wf, empty_graph_wf.
    rewrite !apply_all_id, lookup_empty. simpl. by destruct (g !! n).
  - intros n f. rewrite slot_of_merge_nodes by apply apply_all_wf, empty_graph_wf.
    assert (∀ l', l' ⊆ l → merge_slot (slot_of g n f) (slot_of (apply_all ∅ l') n f) =
                           slot_of (apply_all g l') n f) as Hl; [|by apply Hl].
    intros l'. induction l' as [|op l' IH] using rev_ind; intros Hsub; [done|].
    rewrite !apply_all_snoc, !slot_of_apply. case_decide as Hs; [|apply IH; set_solver].
    rewrite Hstep; [|set_solver|done|set_solver|done]. rewrite IH by set_solver. done.
Qed.

(** * Set membership: merging states is applying operations *)

Definition op_tag (op : Operation) : bool :=
  match action op with RemoveSetMember _ _ _ => true | _ => false end.

Lemma status_upd op set k :
  is_member_op op = true →
  status (set_upd op set) k =
  if decide (op_member op = k) then Some (op_marker op, op_tag op) else status set k.
Proof.
  unfold is_member_op, status, set_upd, op_member, op_tag. destruct (action op); try done; intros _; simpl.
  - destruct (decide (member = k)) as [->|];
      rewrite ?lookup_insert_eq, ?lookup_delete_eq, ?lookup_insert_ne, ?lookup_delete_ne by done; done.
  - destruct (decide (member = k)) as [->|];
      rewrite ?lookup_insert_eq, ?lookup_delete_eq, ?lookup_insert_ne, ?lookup_delete_ne by done; done.
Qed.

Lemma exclusive_upd op set : exclusive set → exclusive (set_upd op set).
Proof.
  intros E k. specialize (E k). unfold set_upd. destruct (action op); simpl; try done.
  - rewrite lookup_insert, lookup_delete. case_decide; [by right|done].
  - rewrite lookup_insert, lookup_delete. case_decide; [by left|done].
Qed.

Definition tag_marker (x : option tagged) : option VersionMarker := fst <$> x.

Lemma op_blocked_status op set :
  exclusive set →
  op_blocked op set =
  leb (op_marker op) (baseline set) || blocks (op_marker op) (tag_marker (status set (op_member op))).
Proof.
  intros E. unfold op_blocked, member_blocked, status.
  destruct (E (op_member op)) as [Hk|Hk]; rewrite Hk; simpl.
  - rewrite orb_false_r. by destruct (removed set !! _).
  - rewrite orb_false_r. by destruct (members set !! _).
Qed.

(** A set no merge can change by itself, under no tombstone. *)
Definition clean_set (set : SetState) (v : VersionMarker) : Prop :=
  exclusive set ∧ above_all set ∧ set_bounded set v ∧ ole zero_marker (baseline set).

Definition clean_slot (s : slot) : Prop :=
  s.2 = None ∧
  match s.1 with
  | None => True
  | Some (mkField (FSet set) v) => clean_set set v
  | Some _ => False
  end.

Lemma status_bounded set v k m t : set_bounded set v → exclusive set → status set k = Some (m, t) → ole m v.
Proof.
  intros (_ & Hm & Hr) E Hs. apply status_exclusive in Hs; [|done]. destruct t; eauto.
Qed.

Lemma status_above set k m t : above_all set → exclusive set → status set k = Some (m, t) → olt (baseline set) m.
Proof.
  intros [Hm Hr] E Hs. apply status_exclusive in Hs; [|done]. destruct t; eauto.
Qed.

Lemma clean_upd op set v :
  is_member_op op = true → clean_set set v → op_blocked op set = false →
  clean_set (set_upd op set) (raise_version (op_marker op) v).
Proof.
  intros Hop (E & Ha & Hb & Hz) Hnb.
  assert (exclusive (set_upd op set)) as E' by by apply exclusive_upd.
  assert (∀ k m t, status (set_upd op set) k = Some (m, t) → olt (baseline set) m) as Hs.
  { intros k m t. rewrite status_upd by done. case_decide; [|by apply status_above].
    intros [= <- <-]. rewrite op_blocked_status, orb_false_iff in Hnb by done. destruct Hnb. ord. }
  split_and!; [done| |by apply set_upd_bounded|by rewrite baseline_set_upd].
  split; intros k m Hk; rewrite baseline_set_upd.
  - apply (Hs k m false). by apply (status_exclusive _ k m false).
  - apply (Hs k m true). by apply (status_exclusive _ k m true).
Qed.

Lemma empty_set_clean : clean_set empty_set zero_marker.
Proof.
  split_and!; [by left|split; simpl; intros ??; by rewrite lookup_empty|apply empty_set_bounded|apply ole_refl].
Qed.

Lemma member_keeps_clean op s :
  is_member_op op = true → olt zero_marker (op_marker op) → clean_slot s → clean_slot (slot_next op s).
Proof.
  intros Hop Hz [Ht Hs]. destruct s as [f t]; simpl in *; subst t.
  assert (∀ set v, clean_set set v → clean_slot (slot_next op (Some (mkField (FSet set) v), None))) as Hset.
  { intros set v Hc. unfold slot_next. rewrite member_step_set by done. simpl.
    destruct (op_blocked op set) eqn:?; [done|]. split; [done|]. by apply clean_upd. }
  destruct f as [[[] v]|]; try done; [by apply Hset|].
  rewrite member_step_unset_next by done. apply Hset, empty_set_clean.
Qed.

Definition max_version (v v' : VersionMarker) : VersionMarker := if ltb v v' then v' else v.

Lemma merge_slot_sets A v B v' :
  merge_slot (Some (mkField (FSet A) v), None) (Some (mkField (FSet B) v'), None) =
  (Some (mkField (FSet (merge_set_state A B)) (max_version v v')), None).
Proof. done. Qed.

Lemma max_version_raise v m v' :
  max_version v (raise_version m v') = raise_version m (max_version v v').
Proof.
  unfold max_version, raise_version.
  destruct (ltb v' m) eqn:E1, (ltb v v') eqn:E2; rewrite ?E1, ?E2; try done;
    destruct (ltb v m) eqn:E3; try done; ord.
Qed.

Lemma tagged_max_l (x y : tagged) : olt y.1 x.1 → omax x y = x.
Proof.
  intros H. unfold omax. assert (ltb y x = true) as ->; [|done].
  apply ltb_olt. unfold olt in *. cbn [cmp tagged_ord]. unfold tagged_cmp. by rewrite H.
Qed.

Lemma tagged_max_r (x y : tagged) : olt x.1 y.1 → omax x y = y.
Proof. intros H. rewrite omax_comm. by apply tagged_max_l. Qed.

Lemma tagged_max_marker (x y : tagged) : ole x.1 (omax x y).1 ∧ ole y.1 (omax x y).1.
Proof.
  unfold omax. destruct (ltb y x) eqn:E.
  - apply ltb_olt in E. unfold olt in E. cbn [cmp tagged_ord] in E. unfold tagged_cmp in E.
    split; [apply ole_refl|]. unfold ole. destruct (cmp y.1 x.1); done.
  - apply ltb_false, ole_iff in E as [E| ->]; [|split; apply ole_refl].
    unfold olt in E. cbn [cmp tagged_ord] in E. unfold tagged_cmp in E.
    split; [|apply ole_refl]. unfold ole. destruct (cmp x.1 y.1); done.
Qed.

(** At the operation's own member: the peer that applied the operation
contributes its marker; everything it overrode was older. *)
Lemma merge_status_upd (b m : VersionMarker) (t : bool) (x y : option tagged) :
  blocks m (tag_marker y) = false →
  (∀ t', x = Some (m, t') → t' = t) →
  let z := keep_above b (opt_max x y) in
  keep_above b (opt_max x (Some (m, t))) =
  if leb m b || blocks m (tag_marker z) then z else Some (m, t).
Proof.
  intros Hy Htie. simpl. unfold blocks in *.
  assert (∀ q u, y = Some (q, u) → olt q m) as Hq.
  { intros q u ->. simpl in Hy. ord. }
  destruct x as [[a ta]|].
  - destruct (olt_or_ole m a) as [Hma|Hma].
    + assert (opt_max (Some (a, ta)) (Some (m, t)) = Some (a, ta)) as ->.
      { simpl. by rewrite tagged_max_l. }
      assert (opt_max (Some (a, ta)) y = Some (a, ta)) as ->.
      { destruct y as [[q u]|]; simpl; [|done]. specialize (Hq q u eq_refl).
        rewrite tagged_max_l; [done|]. simpl. ord. }
      simpl. destruct (ltb b a) eqn:?; simpl.
      * assert (leb m a = true) as -> by ord. by rewrite orb_true_r.
      * assert (leb m b = true) as -> by ord. done.
    + apply ole_iff in Hma as [Ham| ->].
      * assert (opt_max (Some (a, ta)) (Some (m, t)) = Some (m, t)) as ->.
        { simpl. by rewrite tagged_max_r. }
        assert (∃ w, opt_max (Some (a, ta)) y = Some w ∧ olt w.1 m) as (w & -> & Hw).
        { destruct y as [[q u]|]; simpl; [|by exists (a, ta)].
          specialize (Hq q u eq_refl). exists (omax (a, ta) (q, u)). split; [done|].
          unfold omax. by destruct (ltb (q, u) (a, ta)). }
        destruct w as [w tw]; simpl in *.
        destruct (ltb b m) eqn:?.
        -- assert (leb m b = false) as -> by ord. simpl.
           destruct (ltb b w) eqn:?; simpl; [by assert (leb m w = false) as -> by ord|done].
        -- assert (leb m b = true) as -> by ord. simpl.
           by assert (ltb b w = false) as -> by ord.
      * rewrite (Htie ta eq_refl), opt_max_idem.
        assert (opt_max (Some (m, t)) y = Some (m, t)) as ->.
        { destruct y as [[q u]|]; [|done]. specialize (Hq q u eq_refl). simpl. by rewrite tagged_max_l. }
        simpl. destruct (ltb b m) eqn:?; simpl;
          [|by assert (leb m b = true) as -> by ord].
        assert (leb m m = true) as -> by (apply leb_ole, ole_refl). by rewrite orb_true_r.
  - simpl. destruct y as [[q u]|]; simpl in *.
    + specialize (Hq q u eq_refl). destruct (ltb b m) eqn:?, (ltb b q) eqn:?; simpl;
        try (assert (leb m q = false) as -> by ord); rewrite ?orb_false_r;
        first [assert (leb m b = false) as -> by ord; done
              |assert (leb m b = true) as -> by ord; done|exfalso; ord].
    + rewrite orb_false_r. destruct (ltb b m) eqn:?;
        [by assert (leb m b = false) as -> by ord|by assert (leb m b = true) as -> by ord].
Qed.

Lemma max_version_max v v' : ole v (max_version v v') ∧ ole v' (max_version v v').
Proof. unfold max_version. destruct (ltb v v') eqn:E; split; ord_norm; try apply ole_refl; ord. Qed.

Lemma raise_version_le m v : ole m v → raise_version m v = v.
Proof. unfold raise_version. intros. destruct (ltb v m) eqn:?; [exfalso; ord|done]. Qed.

#[global] Arguments merge_set_state : simpl never.

Lemma merge_blocked_status op A B :
  let b := omax (baseline A) (baseline B) in
  op_blocked op (merge_set_state A B) =
  leb (op_marker op) b ||
  blocks (op_marker op)
    (tag_marker (keep_above b (opt_max (status A (op_member op)) (status B (op_member op))))).
Proof. simpl. rewrite op_blocked_status, status_merge by apply merge_set_exclusive. done. Qed.

Lemma merge_blocked op A B :
  exclusive B → op_blocked op B = true → op_blocked op (merge_set_state A B) = true.
Proof.
  intros EB HB. rewrite merge_blocked_status. set (b := omax (baseline A) (baseline B)).
  rewrite op_blocked_status in HB by done. apply orb_true_iff in HB as [HB|HB].
  - assert (ole (baseline B) b) by (unfold b, omax; case_match; [ord|apply ole_refl]).
    by assert (leb (op_marker op) b = true) as -> by ord.
  - destruct (status B (op_member op)) as [q|] eqn:Eq; [|done]. simpl in HB.
    assert (∃ w, opt_max (status A (op_member op)) (Some q) = Some w ∧ ole q.1 w.1) as (w & -> & Hle).
    { destruct (status A (op_member op)) as [x|]; simpl; [|eexists; split; [done|apply ole_refl]].
      eexists; split; [done|]. apply tagged_max_marker. }
    destruct w as [w tw]. simpl in *. destruct (ltb b w) eqn:?; simpl.
    + assert (leb (op_marker op) w = true) as -> by ord. by rewrite orb_true_r.
    + by assert (leb (op_marker op) b = true) as -> by ord.
Qed.

Lemma merge_blocked_version op A v B :
  exclusive A → set_bounded A v → exclusive B → op_blocked op B = false →
  op_blocked op (merge_set_state A B) = true → ole (op_marker op) v.
Proof.
  intros EA BA EB HB. rewrite merge_blocked_status.
  rewrite op_blocked_status, orb_false_iff in HB by done. destruct HB as [HB1 HB2].
  intros [Hbl|Hbl]%orb_true_iff.
  { destruct BA as (Hba & _). unfold omax in Hbl. case_match; ord. }
  assert (∃ x, status A (op_member op) = Some x ∧ ole (op_marker op) x.1) as ([x tx] & Hx & Hle).
  { unfold blocks, tag_marker in *.
    destruct (status A (op_member op)) as [[x tx]|], (status B (op_member op)) as [[y ty]|];
      simpl in *; try done.
    - exists (x, tx). split; [done|]. simpl.
      destruct (omax_cases (x, tx) (y, ty)) as [E|E]; rewrite E in Hbl; simpl in Hbl;
        destruct (ltb _ _) in Hbl; simpl in Hbl; try done; ord.
    - exists (x, tx). split; [done|]. simpl. destruct (ltb _ _) in Hbl; simpl in Hbl; [ord|done].
    - destruct (ltb _ _) in Hbl; simpl in Hbl; [exfalso; ord|done]. }
  pose proof (status_bounded _ _ _ _ _ BA EA Hx). simpl in *. ord.
Qed.

Lemma merge_upd_set op A B :
  is_member_op op = true → exclusive B → op_blocked op B = false →
  (∀ t, status A (op_member op) = Some (op_marker op, t) → t = op_tag op) →
  merge_set_state A (set_upd op B) =
  if op_blocked op (merge_set_state A B) then merge_set_state A B
  else set_upd op (merge_set_state A B).
Proof.
  intros Hop EB HB Htie. rewrite op_blocked_status, orb_false_iff in HB by done.
  destruct HB as [HB1 HB2].
  pose proof (merge_status_upd (omax (baseline A) (baseline B)) (op_marker op) (op_tag op) _ _ HB2 Htie)
    as Hst. cbv zeta in Hst. rewrite <-(merge_blocked_status op A B), <-status_merge in Hst.
  apply set_state_ext.
  - apply merge_set_exclusive.
  - case_match; [apply merge_set_exclusive|apply exclusive_upd, merge_set_exclusive].
  - change (baseline (merge_set_state A (set_upd op B)))
      with (omax (baseline A) (baseline (set_upd op B))).
    rewrite baseline_set_upd. destruct (op_blocked op _); [done|by rewrite baseline_set_upd].
  - intros k. rewrite status_merge, baseline_set_upd, status_upd by done.
    destruct (decide (op_member op = k)) as [<-|Hk].
    + rewrite Hst. case_match; [done|]. by rewrite status_upd, decide_True by done.
    + rewrite <-status_merge. case_match; [done|]. by rewrite status_upd, decide_False by done.
Qed.

(** Merging with a peer's set and applying an operation commute. *)
Lemma merge_apply_set op A v B v' :
  is_member_op op = true → clean_set A v → clean_set B v' →
  (∀ t, status A (op_member op) = Some (op_marker op, t) → t = op_tag op) →
  merge_slot (Some (mkField (FSet A) v), None) (slot_next op (Some (mkField (FSet B) v'), None)) =
  slot_next op (merge_slot (Some (mkField (FSet A) v), None) (Some (mkField (FSet B) v'), None)).
Proof.
  intros Hop (EA & AA & BA & _) (EB & _) Htie.
  rewrite merge_slot_sets. unfold slot_next. rewrite !member_step_set by done. cbn [blocks orb].
  destruct (op_blocked op B) eqn:HB; cbn [fst].
  { by rewrite merge_blocked by done. }
  rewrite merge_slot_sets, merge_upd_set, max_version_raise by done.
  destruct (op_blocked op (merge_set_state A B)) eqn:HM; cbn [fst]; [|done].
  apply (merge_blocked_version op A v) in HM; [|done..].
  rewrite raise_version_le; [done|]. destruct (max_version_max v v'). ord.
Qed.

Lemma merge_empty_set A v : clean_set A v → merge_set_state A empty_set = A.
Proof.
  intros (EA & AA & BA & Hz).
  assert (omax (baseline A) zero_marker = baseline A) as Hmax.
  { unfold omax. destruct (ltb zero_marker (baseline A)) eqn:?; [done|ord]. }
  apply set_state_ext; [apply merge_set_exclusive|done|..].
  - by apply Hmax.
  - intros k. rewrite status_merge. change (baseline empty_set) with zero_marker. rewrite Hmax.
    assert (status empty_set k = None) as -> by (unfold status; simpl; by rewrite !lookup_empty).
    destruct (status A k) as [[m t]|] eqn:Hs; [|done].
    apply status_above in Hs; [|done..]. simpl. by assert (ltb (baseline A) m = true) as -> by ord.
Qed.

Lemma clean_version A v : clean_set A v → ole zero_marker v.
Proof. intros (_ & _ & (Hb & _) & Hz). ord. Qed.

(** The same on slots, unset ones included. *)
Lemma merge_apply_member op s s' :
  is_member_op op = true → olt zero_marker (op_marker op) → clean_slot s → clean_slot s' →
  (∀ A v t, s.1 = Some (mkField (FSet A) v) →
     status A (op_member op) = Some (op_marker op, t) → t = op_tag op) →
  merge_slot s (slot_next op s') = slot_next op (merge_slot s s').
Proof.
  intros Hop Hz Hs Hs' Htie. destruct s as [f t], Hs as [Ht Hs]; simpl in *; subst t.
  destruct f as [[[] v]|]; try done.
  - assert (∀ B v', clean_set B v' → merge_slot (Some (mkField (FSet s) v), None)
        (slot_next op (Some (mkField (FSet B) v'), None)) =
      slot_next op (merge_slot (Some (mkField (FSet s) v), None) (Some (mkField (FSet B) v'), None)))
      as Hset by (intros; apply merge_apply_set; eauto).
    destruct s' as [f' t'], Hs' as [Ht' Hs']; simpl in *; subst t'.
    destruct f' as [[[] v']|]; try done; [by apply Hset|].
    rewrite member_step_unset_next by done. rewrite Hset by apply empty_set_clean.
    rewrite merge_slot_sets, (merge_empty_set s v) by done.
    assert (max_version v zero_marker = v) as ->; [|done].
    unfold max_version. apply clean_version in Hs. destruct (ltb v zero_marker) eqn:?; [exfalso; ord|done].
  - assert (∀ x, clean_slot x → merge_slot (None, None) x = x) as Hid.
    { intros [[x|] y] [Hy Hx]; simpl in *; by subst y. }
    rewrite !Hid by (done || by apply member_keeps_clean). done.
Qed.

(** * What a run from the empty graph leaves *)

Lemma slot_of_empty n f : slot_of ∅ n f = (None, None).
Proof. unfold slot_of. by rewrite lookup_empty. Qed.

Lemma apply_all_slot_inv (P : slot → Prop) l n f :
  P (None, None) →
  (∀ op s, op ∈ l → P s → P (slot_next op s)) → P (slot_of (apply_all ∅ l) n f).
Proof.
  intros H0 Hstep. assert (∀ l', l' ⊆ l → P (slot_of (apply_all ∅ l') n f)) as Hl; [|by apply Hl].
  induction l' as [|op l' IH] using rev_ind; intros Hsub; [by rewrite slot_of_empty|].
  rewrite apply_all_snoc, slot_of_apply. case_decide; [apply Hstep; [set_solver|]|]; apply IH; set_solver.
Qed.

Definition member_ops (l : list Operation) : Prop :=
  Forall (λ op, is_member_op op = true ∧ olt zero_marker (op_marker op)) l.

Lemma member_run_clean l n f : member_ops l → clean_slot (slot_of (apply_all ∅ l) n f).
Proof.
  intros Hl. unfold member_ops in Hl. rewrite Forall_forall in Hl.
  apply apply_all_slot_inv; [done|]. intros op s Hop Hs.
  destruct (Hl op Hop). by apply member_keeps_clean.
Qed.

(** Every status was written by one of the operations. *)
Lemma member_provenance l n f :
  member_ops l →
  ∀ A v k m t, (slot_of (apply_all ∅ l) n f).1 = Some (mkField (FSet A) v) →
  status A k = Some (m, t) → ∃ op, op ∈ l ∧ op_marker op = m ∧ op_tag op = t.
Proof.
  intros Hl. unfold member_ops in Hl. rewrite Forall_forall in Hl.
  apply (apply_all_slot_inv (λ s, clean_slot s ∧ ∀ A v k m t, s.1 = Some (mkField (FSet A) v) →
    status A k = Some (m, t) → ∃ op, op ∈ l ∧ op_marker op = m ∧ op_tag op = t)); [done|].
  intros op s Hop [Hc Hs]. destruct (Hl op Hop) as [Hm Hz].
  split; [by apply member_keeps_clean|]. intros A v k m t.
  assert (∀ set w, (∀ k m t, status set k = Some (m, t) → ∃ op, op ∈ l ∧ op_marker op = m ∧ op_tag op = t) →
    (slot_next op (Some (mkField (FSet set) w), None)).1 = Some (mkField (FSet A) v) →
    status A k = Some (m, t) → ∃ op, op ∈ l ∧ op_marker op = m ∧ op_tag op = t) as Hset.
  { intros set w Hp. unfold slot_next. rewrite member_step_set by done.
    case_match; simpl; intros [= <- <-]; [by apply Hp|].
    rewrite status_upd by done. case_decide; [|by apply Hp]. intros [= <- <-]. eauto. }
  destruct s as [[[[] w]|] tb], Hc as [Ht Hc]; simpl in *; subst tb; try done.
  - apply Hset. intros; by eapply Hs.
  - rewrite member_step_unset_next by done. apply Hset. intros k' m' t'.
    unfold status. simpl. by rewrite !lookup_empty.
Qed.

(** * Theorems *)

(** The state merge of set states is commutative and associative, so the
result of merging several snapshots of a set does not depend on the order or
the grouping in which they arrive. *)
Lemma merge_set_lattice s1 s2 s3 :
  merge_set_state s1 s2 = merge_set_state s2 s1 ∧
  merge_set_state (merge_set_state s1 s2) s3 = merge_set_state s1 (merge_set_state s2 s3).
Proof. split; [apply merge_set_comm|apply merge_set_assoc]. Qed.

(** Merging a set state with itself leaves it unchanged exactly when no
member is both present and removed and every marker is newer than the baseline:
the merge keeps only markers strictly above the baseline. *)
Lemma merge_set_idempotent_iff set :
  merge_set_state set set = set ↔
  (∀ k, members set !! k = None ∨ removed set !! k = None) ∧
  (∀ k m, members set !! k = Some m → olt (baseline set) m) ∧
  (∀ k m, removed set !! k = Some m → olt (baseline set) m).
Proof. apply merge_set_idem_iff. Qed.

(** A whole-set write does not survive a merge.  [put({"$set": [...]})]
stores its members at the baseline marker itself, and merging the field state
with any copy of itself removes all of them, while the version and the baseline
stay: a peer that imports the same snapshot twice reads an empty set. *)
Lemma set_write_lost_by_merge marker ms :
  merge_field_state
    (mkField (field_value_of marker (OSet ms)) marker)
    (mkField (field_value_of marker (OSet ms)) marker) =
  mkField (FSet (mkSet marker ∅ ∅)) marker.
Proof.
  unfold merge_field_state. simpl. f_equal; [|by case_match]. f_equal.
  set (S := mkSet marker (list_to_map ((λ m, (m, marker)) <$> ms)) ∅).
  assert (∀ k x, members S !! k = Some x → x = marker) as Hm.
  { intros k x Hk. apply elem_of_list_to_map_2 in Hk.
    apply list_elem_of_fmap in Hk as (y & [= -> ->] & _). done. }
  apply set_state_ext; [apply merge_set_exclusive|by left|by apply omax_idem|].
  intros k. rewrite status_merge, opt_max_idem, omax_idem. unfold status at 2. simpl.
  rewrite lookup_empty. unfold status. simpl. rewrite lookup_empty. simpl.
  destruct (list_to_map _ !! k) as [x|] eqn:Hk; simpl; [|done].
  rewrite (Hm k x Hk). by assert (ltb marker marker = false) as -> by (apply ltb_false, ole_refl).
Qed.



(** The same for set membership.  Two replicas that built their sets from
[set()]/[remove()] operations, all markers distinct, merge to the state that
holds both replicas' operations. *)
Lemma merge_snapshot_membership l1 l2 :
  member_ops (l1 ++ l2) → markers_unique (l1 ++ l2) →
  merge_nodes (apply_all ∅ l1) (apply_all ∅ l2) = apply_all ∅ (l1 ++ l2).
Proof.
  intros Hl Hu. pose proof Hl as Hl'. unfold member_ops in Hl'. rewrite Forall_forall in Hl'.
  apply Forall_app in Hl as [Hl1 Hl2].
  transitivity (apply_all (apply_all ∅ l1) l2); [|unfold apply_all; by rewrite foldl_app].
  apply (merge_nodes_apply _ _ clean_slot); [intros; by apply member_run_clean|].
  intros l' op n f Hop _ Hsub Hs. destruct (Hl' op) as [Hm Hz]; [set_solver|].
  apply merge_apply_member; [done..| |].
  - apply member_run_clean. apply Forall_forall. intros x Hx. apply Hl'. set_solver.
  - intros A v t HA Hst.
    destruct (member_provenance l1 n f Hl1 A v _ _ _ HA Hst) as (op' & Hop' & Hmk & Htag).
    rewrite <-Htag. f_equal. apply Hu; [set_solver|set_solver|done].
Qed.

Lemma merge_snapshot_membership_witness :
  merge_nodes (apply_all ∅ (take 2 demo_members)) (apply_all ∅ (drop 2 demo_members)) =
  apply_all ∅ (take 2 demo_members ++ drop 2 demo_members).
Proof.
  apply merge_snapshot_membership.
  - repeat constructor.
  - apply markers_unique_NoDup. by apply (bool_decide_unpack _).
Defined.
