(* ===== verification/OpQueue.v ===== *)
(** The compacted operation queues ([CompactedOperations] and
[OperationQueueUndo] of [src/src/db.rs]): at most one queued operation per state
slot, with an index from slots to positions, and the undo log that restores a
queue when a transaction fails. *)
From stdpp Require Import base gmap sets list strings.
From Stdlib Require Import ZArith Lia.
From S2P Require Import Prelude Clock Value Crdt Merge.

(** [OperationCompactionKey]: the state slot an operation updates. *)
Inductive OperationCompactionKey :=
  | KField (node field : string)
  | KSetMember (node field member : string).

#[global] Instance CompactionKey_eq_dec : EqDecision OperationCompactionKey.
Proof. solve_decision. Defined.

#[global] Instance CompactionKey_countable : Countable OperationCompactionKey.
Proof.
  apply (inj_countable'
    (λ k, match k with KField n f => (n, f, None) | KSetMember n f m => (n, f, Some m) end)
    (λ t, match t with (n, f, None) => KField n f | (n, f, Some m) => KSetMember n f m end)).
  by intros [].
Defined.

Definition from_operation (op : Operation) : OperationCompactionKey :=
  match action op with
  | SetField n f _ | DeleteField n f => KField n f
  | AddSetMember n f m | RemoveSetMember n f m => KSetMember n f m
  end.

Record CompactedOperations := mkQueue {
  operations : list Operation;
  indices : gmap OperationCompactionKey nat
}.

Definition queue_default : CompactedOperations := mkQueue [] ∅.

(** [CompactedOperations::push].  [self.operations[index]] panics when the index
is out of range; [queue_wf] below excludes it. *)
Definition push (q : CompactedOperations) (op : Operation) : CompactedOperations :=
  let key := from_operation op in
  match indices q !! key with
  | Some index =>
      match operations q !! index with
      | Some existing =>
          if leb (op_revision existing) (op_revision op)
          then mkQueue (<[index := op]> (operations q)) (indices q) else q
      | None => q
      end
  | None =>
      mkQueue (operations q ++ [op]) (<[key := length (operations q)]> (indices q))
  end.

Definition from_operations (ops : list Operation) : CompactedOperations :=
  foldl push queue_default ops.

Definition queue_len (q : CompactedOperations) : nat := length (operations q).

(** [rebuild_indices]. *)
Fixpoint index_from (i : nat) (ops : list Operation) (m : gmap OperationCompactionKey nat)
    : gmap OperationCompactionKey nat :=
  match ops with
  | [] => m
  | op :: rest => index_from (S i) rest (<[from_operation op := i]> m)
  end.

Definition rebuild_indices (q : CompactedOperations) : CompactedOperations :=
  mkQueue (operations q) (index_from 0 (operations q) ∅).

(** [drain_prefix]. *)
Definition drain_prefix (q : CompactedOperations) (count : nat) : CompactedOperations :=
  mkQueue (drop count (operations q))
    (omap (λ index, if decide (index < count) then None else Some (index - count)) (indices q)).

(** [OperationQueueUndo]. *)
Record OperationQueueUndo := mkUndo {
  initial_len : nat;
  replaced : gmap nat Operation
}.

Definition undo_new (len : nat) : OperationQueueUndo := mkUndo len ∅.

(** The recording half of [journal_operation_queue]. *)
Definition undo_record (q : CompactedOperations) (undo : OperationQueueUndo) (op : Operation)
    : OperationQueueUndo :=
  match indices q !! from_operation op with
  | Some index =>
      match replaced undo !! index with
      | Some _ => undo
      | None =>
          match operations q !! index with
          | Some old => mkUndo (initial_len undo) (<[index := old]> (replaced undo))
          | None => undo
          end
      end
  | None => undo
  end.

(** [OperationQueueUndo::restore]: truncate, put the replaced operations back,
rebuild the index.  [<[i := op]>] leaves an out-of-range index alone, which is
the [if index < queue.operations.len()] of the loop. *)
Definition undo_restore (undo : OperationQueueUndo) (q : CompactedOperations)
    : CompactedOperations :=
  rebuild_indices
    (mkQueue
       (foldr (λ p ops, <[p.1 := p.2]> ops) (take (initial_len undo) (operations q))
          (map_to_list (replaced undo)))
       (indices q)).

(** * Invariant *)

(** The index holds exactly the position of each queued operation's key. *)
Definition queue_wf (q : CompactedOperations) : Prop :=
  ∀ k i, indices q !! k = Some i ↔ ∃ op, operations q !! i = Some op ∧ from_operation op = k.

Lemma queue_default_wf : queue_wf queue_default.
Proof. intros k i. simpl. rewrite lookup_empty. split; [done|]. intros (op & H & _). done. Qed.

Lemma queue_key_unique q i j a b :
  queue_wf q → operations q !! i = Some a → operations q !! j = Some b →
  from_operation a = from_operation b → i = j.
Proof.
  intros Hwf Ha Hb Hk.
  assert (indices q !! from_operation a = Some i) by (apply Hwf; eauto).
  assert (indices q !! from_operation a = Some j) by (apply Hwf; eauto). congruence.
Qed.

(** The queue without its index: the reference definition of [push]. *)
Fixpoint push_spec (ops : list Operation) (op : Operation) : list Operation :=
  match ops with
  | [] => [op]
  | e :: rest =>
      if decide (from_operation e = from_operation op)
      then (if leb (op_revision e) (op_revision op) then op else e) :: rest
      else e :: push_spec rest op
  end.

Lemma push_spec_absent ops op :
  (∀ i e, ops !! i = Some e → from_operation e ≠ from_operation op) → push_spec ops op = ops ++ [op].
Proof.
  induction ops as [|e rest IH]; intros Hn; [done|]. simpl.
  rewrite decide_False by (by apply (Hn 0)). f_equal. apply IH. intros i. apply (Hn (S i)).
Qed.

Lemma push_spec_present ops op i e :
  ops !! i = Some e → from_operation e = from_operation op →
  (∀ j b, ops !! j = Some b → from_operation b = from_operation op → j = i) →
  push_spec ops op = <[i := if leb (op_revision e) (op_revision op) then op else e]> ops.
Proof.
  revert i. induction ops as [|a rest IH]; intros i He Hk Hu; [done|]. simpl.
  destruct i as [|i]; simpl in He.
  - simplify_eq. by rewrite decide_True.
  - rewrite decide_False; [|intros Ha; by specialize (Hu 0 a eq_refl Ha)]. simpl. f_equal.
    apply IH; [done..|]. intros j b Hb Hkb. specialize (Hu (S j) b Hb Hkb). lia.
Qed.

Lemma push_operations q op :
  queue_wf q → operations (push q op) = push_spec (operations q) op.
Proof.
  intros Hwf. unfold push. destruct (indices q !! from_operation op) as [i|] eqn:E.
  - apply Hwf in E as (e & He & Hk). rewrite He.
    rewrite (push_spec_present _ _ i e); [|done|done|].
    + case_match; simpl; [done|]. by rewrite list_insert_id.
    + intros j b Hb Hkb. eapply queue_key_unique; eauto. congruence.
  - simpl. rewrite push_spec_absent; [done|]. intros i e He Hk.
    assert (indices q !! from_operation op = Some i) by (apply Hwf; eauto). congruence.
Qed.

Lemma push_wf q op : queue_wf q → queue_wf (push q op).
Proof.
  intros Hwf. unfold push. destruct (indices q !! from_operation op) as [i|] eqn:E.
  - pose proof E as E'. apply Hwf in E' as (e & He & Hk). rewrite He. case_match; [|done].
    intros k j. simpl. rewrite (Hwf k j). destruct (decide (i = j)) as [->|Hij].
    + rewrite list_lookup_insert_eq by (by eapply lookup_lt_Some). split.
      * intros (b & Hb & Hkb). eexists; split; [done|]. congruence.
      * intros (b & [= <-] & Hkb). exists e. split; [done|congruence].
    + by rewrite list_lookup_insert_ne.
  - intros k j. simpl. destruct (decide (from_operation op = k)) as [<-|Hk].
    + rewrite lookup_insert_eq. split.
      * intros [= <-]. exists op. split; [|done]. apply lookup_snoc_Some. by right.
      * intros (b & Hb & Hkb). apply lookup_snoc_Some in Hb as [[Hlt Hb]|[-> _]]; [|done].
        assert (indices q !! from_operation op = Some j) by (apply Hwf; eauto). congruence.
    + rewrite lookup_insert_ne by done. rewrite (Hwf k j). split; intros (b & Hb & Hkb); exists b; split; try done.
      * apply lookup_snoc_Some. left. split; [by eapply lookup_lt_Some|done].
      * apply lookup_snoc_Some in Hb as [[_ Hb]|[-> ->]]; [done|congruence].
Qed.

Lemma from_operations_wf ops : queue_wf (from_operations ops).
Proof.
  unfold from_operations. assert (∀ q, queue_wf q → queue_wf (foldl push q ops)) as H.
  { induction ops as [|op ops IH]; intros q Hq; [done|]. simpl. apply IH, push_wf, Hq. }
  apply H, queue_default_wf.
Qed.

(** The index is determined by the operations. *)
Lemma queue_ext q q' : queue_wf q → queue_wf q' → operations q = operations q' → q = q'.
Proof.
  intros Hq Hq' E. destruct q as [ops idx], q' as [ops' idx']; simpl in *; subst ops'. f_equal.
  apply map_eq. intros k. apply option_eq. intros i.
  rewrite (Hq k i : idx !! k = Some i ↔ _). symmetry. apply (Hq' k i).
Qed.

Lemma index_from_lookup i ops m k p :
  (∀ a b x y, ops !! a = Some x → ops !! b = Some y → from_operation x = from_operation y → a = b) →
  index_from i ops m !! k = Some p ↔
  (∃ j op, ops !! j = Some op ∧ from_operation op = k ∧ p = i + j) ∨
  ((∀ j op, ops !! j = Some op → from_operation op ≠ k) ∧ m !! k = Some p).
Proof.
  revert i m. induction ops as [|o ops IH]; intros i m Hu; simpl.
  { split; [intros ?; right; done|]. intros [(j & op & ? & _)|[_ ?]]; done. }
  rewrite IH by (intros a b x y Ha Hb Hk; specialize (Hu (S a) (S b) x y Ha Hb Hk); lia).
  rewrite lookup_insert_Some. split.
  - intros [(j & op & Hj & Hk & ->)|[Hn [[<- <-]|[Hne Hm]]]].
    + left. exists (S j), op. split_and!; [done|done|lia].
    + left. exists 0, o. split_and!; [done|done|lia].
    + right. split; [|done]. intros [|j] op; simpl; [congruence|]. apply Hn.
  - intros [([|j] & op & Hj & Hk & ->)|[Hn Hm]].
    + simplify_eq/=. right. split.
      * intros j op' Hj Hk. by specialize (Hu (S j) 0 op' op Hj eq_refl Hk).
      * left. split; [done|lia].
    + left. exists j, op. split_and!; [done|done|lia].
    + right. split; [intros j op Hj; apply (Hn (S j) op Hj)|].
      right. split; [apply (Hn 0 o eq_refl)|done].
Qed.

Lemma rebuild_wf q :
  (∀ a b x y, operations q !! a = Some x → operations q !! b = Some y →
     from_operation x = from_operation y → a = b) → queue_wf (rebuild_indices q).
Proof.
  intros Hu k i. simpl. rewrite index_from_lookup by done. simpl. split.
  - intros [(j & op & Hj & Hk & ->)|[_ Hm]]; [eauto|by rewrite lookup_empty in Hm].
  - intros (op & Hi & Hk). left. eauto.
Qed.

Lemma rebuild_id q : queue_wf q → rebuild_indices q = q.
Proof.
  intros Hwf. apply queue_ext; [|done|done]. apply rebuild_wf. intros. by eapply queue_key_unique.
Qed.

Lemma drain_prefix_wf q count : queue_wf q → queue_wf (drain_prefix q count).
Proof.
  intros Hwf k i. simpl. rewrite lookup_omap, bind_Some. setoid_rewrite lookup_drop. split.
  - intros (j & Hj & Hd). case_decide; simplify_eq. apply Hwf in Hj as (op & Hop & Hk).
    exists op. split; [|done]. rewrite <-Hop. f_equal. lia.
  - intros (op & Hop & Hk). exists (count + i). split; [apply Hwf; eauto|].
    rewrite decide_False by lia. f_equal. lia.
Qed.

(** * Undo *)

Definition journaled_push (s : CompactedOperations * OperationQueueUndo) (op : Operation)
    : CompactedOperations * OperationQueueUndo :=
  (push s.1 op, undo_record s.1 s.2 op).

(** What the undo log knows about the queue it started from. *)
Definition undo_inv (q0 : CompactedOperations) (s : CompactedOperations * OperationQueueUndo) : Prop :=
  queue_wf s.1 ∧ initial_len s.2 = length (operations q0) ∧
  length (operations q0) ≤ length (operations s.1) ∧
  ∀ i, i < length (operations q0) →
    match replaced s.2 !! i with
    | Some o => operations q0 !! i = Some o
    | None => operations s.1 !! i = operations q0 !! i
    end.

Lemma undo_inv_new q : queue_wf q → undo_inv q (q, undo_new (length (operations q))).
Proof. intros Hq. split_and!; simpl; [done..|]. intros i Hi. by rewrite lookup_empty. Qed.

Lemma undo_inv_push q0 s op : undo_inv q0 s → undo_inv q0 (journaled_push s op).
Proof.
  destruct s as [q u]. intros (Hwf & Hlen & Hle & Hi). unfold journaled_push; simpl in *.
  split; [by apply push_wf|]. unfold push, undo_record.
  destruct (indices q !! from_operation op) as [k|] eqn:Ek; simpl.
  - pose proof Ek as Ek'. apply Hwf in Ek' as (old & Hold & _). rewrite Hold.
    split_and!.
    + by destruct (replaced u !! k).
    + case_match; simpl; [by rewrite length_insert|done].
    + intros i Hlt. specialize (Hi i Hlt). destruct (replaced u !! k) as [r|] eqn:Er; simpl.
      * destruct (decide (i = k)) as [->|]; [by rewrite Er in *|].
        case_match; [done|]. case_match; simpl; [|done]. by rewrite list_lookup_insert_ne.
      * destruct (decide (i = k)) as [->|]; [rewrite lookup_insert_eq; rewrite Er in Hi; congruence|].
        rewrite lookup_insert_ne by done. case_match; [done|].
        case_match; simpl; [|done]. by rewrite list_lookup_insert_ne.
  - rewrite length_app. split_and!; [done|lia|]. intros i Hlt. specialize (Hi i Hlt).
    case_match; [done|]. by rewrite lookup_app_l by lia.
Qed.

Lemma undo_inv_pushes q0 s ops : undo_inv q0 s → undo_inv q0 (foldl journaled_push s ops).
Proof. revert s. induction ops as [|op ops IH]; intros s Hs; [done|]. simpl. by apply IH, undo_inv_push. Qed.

Lemma fold_insert_lookup (kv : list (nat * Operation)) (l : list Operation) :
  NoDup kv.*1 →
  length (foldr (λ p ops, <[p.1 := p.2]> ops) l kv) = length l ∧
  ∀ i, foldr (λ p ops, <[p.1 := p.2]> ops) l kv !! i =
    if decide (i < length l)
    then match list_to_map (M := gmap nat _) kv !! i with Some o => Some o | None => l !! i end
    else None.
Proof.
  induction kv as [|[j o] kv IH]; intros Hnd.
  - split; [done|]. intros i. cbn [foldr list_to_map]. rewrite lookup_empty.
    case_decide; [done|]. apply lookup_ge_None. lia.
  - apply NoDup_cons in Hnd as [Hj Hnd]. destruct (IH Hnd) as [Hlen Hr].
    cbn [foldr fst snd]. split; [by rewrite length_insert|]. intros i.
    change (list_to_map ((j, o) :: kv)) with (<[j := o]> (list_to_map kv : gmap nat Operation)).
    destruct (decide (j = i)) as [->|Hne].
    + rewrite lookup_insert_eq. case_decide.
      * by rewrite list_lookup_insert_eq by lia.
      * apply lookup_ge_None. rewrite length_insert. lia.
    + rewrite list_lookup_insert_ne, lookup_insert_ne by done. apply Hr.
Qed.

Lemma undo_restores q0 s : queue_wf q0 → undo_inv q0 s → undo_restore s.2 s.1 = q0.
Proof.
  intros Hq0 (Hwf & Hlen & Hle & Hi).
  rewrite <-(rebuild_id q0) by done. unfold undo_restore, rebuild_indices. simpl.
  assert (foldr (λ p ops, <[p.1 := p.2]> ops) (take (initial_len s.2) (operations s.1))
            (map_to_list (replaced s.2)) = operations q0) as ->; [|done].
  apply list_eq. intros i.
  destruct (fold_insert_lookup (map_to_list (replaced s.2)) (take (initial_len s.2) (operations s.1)))
    as [_ ->]; [apply NoDup_fst_map_to_list|].
  rewrite list_to_map_to_list, length_take, Hlen. case_decide as Hd.
  - specialize (Hi i ltac:(lia)). case_match; [done|]. rewrite lookup_take_lt by lia. done.
  - symmetry. apply lookup_ge_None. lia.
Qed.

(** * Compaction and replay

Where operations converge, an operation may be dropped once a newer one for the
same key is queued. *)

Definition revisions_unique (ops : list Operation) : Prop :=
  ∀ a b, a ∈ ops → b ∈ ops → op_revision a = op_revision b → a = b.

Lemma revisions_markers ops : revisions_unique ops → markers_unique ops.
Proof. intros H a b Ha Hb E. apply H; [done..|]. unfold op_marker in E. congruence. Qed.

Lemma revision_lt_marker a b : olt (op_revision a) (op_revision b) → olt (op_marker a) (op_marker b).
Proof. unfold olt. cbn [cmp VersionMarker_ord]. unfold marker_cmp, op_marker. cbn [revision]. by intros ->. Qed.

Section compaction.
Context (ok : Operation → Prop) (inv : gmap string NodeState → Prop).
Hypothesis inv_step : ∀ g op, inv g → ok op → inv (apply_action op g).1.
Hypothesis commutes : ∀ g a b,
  inv g → ok a → ok b → op_marker a ≠ op_marker b →
  (apply_action b (apply_action a g).1).1 = (apply_action a (apply_action b g).1).1.
Hypothesis replays : ∀ g a,
  inv g → ok a → (apply_action a (apply_action a g).1).1 = (apply_action a g).1.
Hypothesis absorbs : ∀ g a b,
  inv g → ok a → ok b → from_operation a = from_operation b → olt (op_marker a) (op_marker b) →
  (apply_action b (apply_action a g).1).1 = (apply_action b g).1.

Lemma inv_run g l : inv g → Forall ok l → inv (apply_all g l).
Proof. intros Hg Hl. revert g Hg. induction Hl as [|op l Hop _ IH]; intros g Hg; [done|]. apply IH, inv_step; done. Qed.

Lemma converges g l1 l2 :
  inv g → Forall ok l1 → (∀ op, op ∈ l1 ↔ op ∈ l2) → markers_unique l1 →
  apply_all g l1 = apply_all g l2.
Proof.
  intros Hg Hok Heq Huniq. rewrite Forall_forall in Hok. unfold apply_all.
  apply (foldl_same_set _ inv (λ op, op ∈ l1)); try done.
  - intros h a Hh Ha. by apply inv_step; [|apply Hok].
  - intros h a b Hh Ha Hb. destruct (decide (a = b)) as [->|Hab]; [done|].
    apply commutes; eauto.
  - intros h a Hh Ha. by apply replays; [|apply Hok].
  - by apply Forall_forall.
  - apply Forall_forall. naive_solver.
Qed.

(** Two adjacent operations on one key: the older is redundant. *)
Lemma drop_older g pre a b post :
  inv g → Forall ok (pre ++ a :: b :: post) →
  from_operation a = from_operation b → olt (op_marker a) (op_marker b) →
  apply_all g (pre ++ a :: b :: post) = apply_all g (pre ++ b :: post).
Proof.
  intros Hg Hok Hk Hlt. apply Forall_app in Hok as [Hpre Hok]. inv Hok. inv H2.
  unfold apply_all. rewrite !foldl_app. simpl. f_equal. apply absorbs; try done. by apply inv_run.
Qed.

Lemma push_spec_split ops op :
  push_spec ops op = ops ++ [op] ∨
  ∃ pre e post, ops = pre ++ e :: post ∧ from_operation e = from_operation op ∧
    push_spec ops op = pre ++ (if leb (op_revision e) (op_revision op) then op else e) :: post.
Proof.
  induction ops as [|e ops IH]; [by left|]. simpl. case_decide as Hk.
  - right. exists [], e, ops. done.
  - destruct IH as [->|(pre & e' & post & -> & Hk' & ->)]; [by left|].
    right. exists (e :: pre), e', post. done.
Qed.

Lemma push_spec_replay g ops op :
  inv g → Forall ok (ops ++ [op]) → revisions_unique (ops ++ [op]) →
  apply_all g (push_spec ops op) = apply_all g (ops ++ [op]).
Proof.
  intros Hg Hok Hu. destruct (push_spec_split ops op) as [->|(pre & e & post & -> & Hk & ->)]; [done|].
  assert (∀ l, l ≡ₚ (pre ++ e :: post) ++ [op] →
    apply_all g ((pre ++ e :: post) ++ [op]) = apply_all g l ∧ Forall ok l) as Hperm.
  { intros l Hl. split; [|by rewrite Hl]. apply converges; [done..| |by apply revisions_markers].
    intros x. by rewrite Hl. }
  destruct (leb (op_revision e) (op_revision op)) eqn:Hle.
  - destruct (decide (e = op)) as [->|Hne].
    { apply converges; [done|by eapply Forall_app in Hok as [? _]|set_solver|].
      apply revisions_markers. intros a b Ha Hb. apply Hu; set_solver. }
    destruct (Hperm (pre ++ e :: op :: post)) as [-> Hok'].
    { rewrite <-app_assoc. apply Permutation_app_head. simpl.
      apply Permutation_skip. apply Permutation_cons_append. }
    symmetry. apply drop_older; [done..|]. apply revision_lt_marker.
    apply leb_ole, ole_iff in Hle as [?|E]; [done|]. exfalso. apply Hne, Hu; [set_solver..|done].
  - destruct (Hperm (pre ++ op :: e :: post)) as [-> Hok'].
    { rewrite <-app_assoc. apply Permutation_app_head. simpl.
      rewrite <-(Permutation_cons_append post op). apply perm_swap. }
    symmetry. apply drop_older; [done..|]. apply revision_lt_marker. ord.
Qed.

Lemma compaction_replay g ops :
  inv g → Forall ok ops → revisions_unique ops →
  apply_all g (operations (from_operations ops)) = apply_all g ops ∧
  operations (from_operations ops) ⊆ ops.
Proof.
  intros Hg. induction ops as [|op ops IH] using rev_ind; intros Hok Hu; [done|].
  pose proof Hok as Hok'. apply Forall_app in Hok' as [Hops Hop].
  destruct IH as [IH Hsub]; [done|intros a b Ha Hb; apply Hu; set_solver|].
  unfold from_operations in *. rewrite foldl_app. simpl.
  rewrite push_operations by apply (from_operations_wf ops). fold (from_operations ops) in *.
  assert (push_spec (operations (from_operations ops)) op ⊆ ops ++ [op]) as Hsub'.
  { destruct (push_spec_split (operations (from_operations ops)) op)
      as [->|(pre & e & post & E & _ & ->)]; [set_solver|].
    rewrite E in Hsub. case_match; set_solver. }
  split; [|done]. rewrite push_spec_replay; [|done|..].
  - unfold apply_all in *. rewrite !foldl_app. by rewrite IH.
  - apply Forall_forall. intros x Hx. rewrite Forall_forall in Hok. apply Hok. set_solver.
  - intros a b Ha Hb. apply Hu; set_solver.
Qed.
End compaction.

(** The older of two operations on one slot leaves no trace under the newer. *)
Definition absorbed (a b : Operation) (s : slot) : Prop :=
  slot_next b (slot_next a s) = slot_next b s.

Lemma apply_action_absorb a b nodes :
  same_slot a (operation_source_node b) (operation_field b) →
  absorbed a b (slot_of nodes (operation_source_node b) (operation_field b)) →
  (apply_action b (apply_action a nodes).1).1 = (apply_action b nodes).1.
Proof.
  intros [Hn Hf] Hab. apply nodes_ext.
  - intros n. rewrite !apply_action_id. rewrite Hn. repeat case_decide; simplify_eq/=; done.
  - intros n f. rewrite !slot_of_apply. unfold same_slot. rewrite Hn, Hf.
    case_decide as Hs; [|done]. by destruct Hs as [<- <-].
Qed.

Lemma same_key_slot a b :
  from_operation a = from_operation b →
  same_slot a (operation_source_node b) (operation_field b) ∧ op_member a = op_member b.
Proof.
  unfold from_operation, same_slot, operation_source_node, operation_field, op_member.
  destruct (action a), (action b); intros [=]; by subst.
Qed.

Lemma register_absorb a b s :
  is_register_op a = true → is_register_op b = true → olt (op_marker a) (op_marker b) →
  absorbed a b s.
Proof.
  intros Ha Hb Hlt. unfold absorbed. rewrite register_comm by (try done; intros E; rewrite E in Hlt; ord).
  unfold slot_next. rewrite !register_step by done.
  destruct (slot_blocked (op_marker b) s) eqn:B; simpl.
  - by rewrite (slot_blocked_mono (op_marker a) (op_marker b)) by (done || ord).
  - rewrite register_result_blocks by done.
    by assert (leb (op_marker a) (op_marker b) = true) as -> by ord.
Qed.

Lemma blocks_mono m1 m2 c : ole m1 m2 → blocks m2 c = true → blocks m1 c = true.
Proof. destruct c; simpl; [|done]. intros. ord. Qed.

Lemma member_absorb_set a b set v t :
  is_member_op a = true → is_member_op b = true → op_member a = op_member b →
  olt (op_marker a) (op_marker b) → blocks (op_marker b) t = false →
  slot_next a (slot_next b (Some (mkField (FSet set) v), t)) =
  slot_next b (Some (mkField (FSet set) v), t).
Proof.
  intros Ha Hb He Hlt Ht. unfold slot_next. rewrite (member_step_set b), Ht by done. simpl.
  destruct (op_blocked b set) eqn:B; simpl; rewrite member_step_set by done.
  - rewrite (op_blocked_mono a b) by (done || ord). by rewrite orb_true_r.
  - rewrite op_blocked_same by done.
    assert (leb (op_marker a) (op_marker b) = true) as -> by ord. by rewrite !orb_true_r.
Qed.

Lemma member_absorb a b s :
  is_member_op a = true → is_member_op b = true → op_member a = op_member b →
  olt zero_marker (op_marker a) → olt (op_marker a) (op_marker b) → set_slot s →
  absorbed a b s.
Proof.
  intros Ha Hb He Hz Hlt Hs. unfold absorbed. assert (olt zero_marker (op_marker b)) by ord.
  destruct (blocks (op_marker b) s.2) eqn:B.
  { rewrite (member_blocked_noop a s); [done..|]. eapply blocks_mono; [|done]. ord. }
  rewrite member_comm by (try done; intros E; rewrite E in Hlt; ord).
  destruct s as [[[[] v]|] t]; try done; simpl in *; [by apply member_absorb_set|].
  rewrite (member_step_unset_next b) by done. by apply member_absorb_set.
Qed.

(** * Theorems *)

Lemma from_operations_snoc ops op : from_operations (ops ++ [op]) = push (from_operations ops) op.
Proof. unfold from_operations. by rewrite foldl_app. Qed.

Lemma queue_keys_NoDup q : queue_wf q → NoDup (from_operation <$> operations q).
Proof.
  intros Hwf. apply NoDup_alt. intros i j k Hi Hj. rewrite list_lookup_fmap in Hi, Hj.
  destruct (operations q !! i) as [a|] eqn:Ea, (operations q !! j) as [b|] eqn:Eb; simplify_eq/=.
  by eapply queue_key_unique.
Qed.

Lemma elem_push_spec ops op x :
  x ∈ push_spec ops op → x = op ∨ (x ∈ ops ∧
    (from_operation x = from_operation op → NoDup (from_operation <$> ops) →
     ole (op_revision op) (op_revision x))).
Proof.
  induction ops as [|e ops IH]; simpl; [rewrite list_elem_of_singleton; by left|].
  case_decide as Hk.
  - intros [->|Hx]%elem_of_cons.
    + destruct (leb (op_revision e) (op_revision op)) eqn:Hle; [by left|]. right.
      split; [by left|]. intros. ord.
    + right. split; [by right|]. intros Hkx Hnd. apply NoDup_cons in Hnd as [Hnd _]. exfalso. apply Hnd.
      rewrite Hk, <-Hkx. by apply list_elem_of_fmap_2.
  - intros [->|Hx]%elem_of_cons; [right; split; [by left|done]|].
    destruct (IH Hx) as [?|[? H]]; [by left|]. right. split; [by right|].
    intros Hkx Hnd. apply NoDup_cons in Hnd as [_ Hnd]. by apply H.
Qed.

Lemma push_spec_keys ops op k :
  k ∈ from_operation <$> push_spec ops op ↔ k ∈ from_operation <$> ops ++ [op].
Proof.
  induction ops as [|e ops IH]; [done|]. simpl. case_decide as Hk; simpl.
  - rewrite fmap_app, !elem_of_cons, elem_of_app. case_match; rewrite ?Hk; set_solver.
  - rewrite !elem_of_cons, IH. done.
Qed.

(** Pushing keeps, for the pushed key, an operation at least as new as both. *)
Lemma push_spec_newest ops op x :
  NoDup (from_operation <$> ops) → x ∈ push_spec ops op →
  (from_operation x = from_operation op → ole (op_revision op) (op_revision x)) ∧
  ∀ y, y ∈ ops → from_operation y = from_operation x → ole (op_revision y) (op_revision x).
Proof.
  induction ops as [|e ops IH]; simpl; intros Hnd Hx.
  { apply list_elem_of_singleton in Hx as ->. split; [intros; apply ole_refl|]. intros y Hy. by apply not_elem_of_nil in Hy. }
  apply NoDup_cons in Hnd as [He Hnd].
  assert (∀ z, z ∈ ops → from_operation z = from_operation e → False) as Hfresh.
  { intros z Hz Hk. apply He. rewrite <-Hk. by apply list_elem_of_fmap_2. }
  assert (∀ y z, y ∈ ops → z ∈ ops → from_operation y = from_operation z → y = z) as Hinj.
  { intros y z [i Hy]%list_elem_of_lookup [j Hz]%list_elem_of_lookup E.
    assert (i = j); [|congruence]. eapply (NoDup_lookup _ i j (from_operation y)); [done|..];
      rewrite list_lookup_fmap, ?Hy, ?Hz; simpl; congruence. }
  case_decide as Hk.
  - apply elem_of_cons in Hx as [->|Hx].
    + destruct (leb (op_revision e) (op_revision op)) eqn:Hle.
      * split; [intros; apply ole_refl|]. intros y [->|Hy]%elem_of_cons Hky; [ord|].
        exfalso. eapply Hfresh; [done|congruence].
      * split; [intros; ord|]. intros y [->|Hy]%elem_of_cons Hky; [apply ole_refl|].
        exfalso. by eapply Hfresh.
    + split; [intros Hkx; exfalso; eapply Hfresh; [done|congruence]|].
      intros y [->|Hy]%elem_of_cons Hky; [exfalso; by eapply Hfresh|].
      rewrite (Hinj y x) by done. apply ole_refl.
  - apply elem_of_cons in Hx as [->|Hx].
    + split; [done|]. intros y [->|Hy]%elem_of_cons Hky; [apply ole_refl|].
      exfalso. by eapply Hfresh.
    + destruct (IH Hnd Hx) as [H1 H2]. split; [done|]. intros y [->|Hy]%elem_of_cons Hky; [|by apply H2].
      apply elem_push_spec in Hx as [->|[Hx _]]; [done|]. exfalso. by eapply Hfresh.
Qed.

(** What a queue holds.  However operations are queued, the index is exact,
every key that was queued is present once, and the operation held for a key is
one of the queued ones with no newer revision queued for that key. *)
Lemma compaction_spec ops :
  let q := from_operations ops in
  queue_wf q ∧ NoDup (from_operation <$> operations q) ∧
  (∀ k, k ∈ from_operation <$> operations q ↔ k ∈ from_operation <$> ops) ∧
  ∀ op, op ∈ operations q → op ∈ ops ∧
    ∀ op', op' ∈ ops → from_operation op' = from_operation op → ole (op_revision op') (op_revision op).
Proof.
  simpl. pose proof (from_operations_wf ops) as Hwf.
  split; [done|]. split; [by apply queue_keys_NoDup|]. clear Hwf.
  induction ops as [|o ops [IHk IHm]] using rev_ind.
  { split; [done|]. intros op Hop. by apply not_elem_of_nil in Hop. }
  pose proof (from_operations_wf ops) as Hwf.
  rewrite from_operations_snoc, push_operations by done. split.
  - intros k. rewrite push_spec_keys, !fmap_app, !elem_of_app, IHk. done.
  - intros op Hop. pose proof (push_spec_newest _ _ _ (queue_keys_NoDup _ Hwf) Hop) as [Hnew Hold].
    split.
    { apply elem_push_spec in Hop as [->|[Hop _]]; [set_solver|]. apply IHm in Hop as [? _]. set_solver. }
    intros op' [Hop'|Ho]%elem_of_app Hk; [|by apply list_elem_of_singleton in Ho as ->; apply Hnew].
    assert (from_operation op' ∈ from_operation <$> operations (from_operations ops)) as Hin.
    { apply IHk. by apply list_elem_of_fmap_2. }
    apply list_elem_of_fmap in Hin as (e & He & Hine).
    destruct (IHm e Hine) as [_ Hmax]. specialize (Hmax op' Hop' He).
    specialize (Hold e Hine ltac:(congruence)). ord.
Qed.

Lemma from_operations_distinct ops :
  NoDup (from_operation <$> ops) → operations (from_operations ops) = ops.
Proof.
  induction ops as [|o ops IH] using rev_ind; intros Hnd; [done|].
  rewrite fmap_app in Hnd. apply NoDup_app in Hnd as (Hnd & Hd & _).
  rewrite from_operations_snoc, push_operations, IH by (done || apply from_operations_wf).
  apply push_spec_absent. intros i e He Hk. apply (Hd (from_operation e)).
  - apply list_elem_of_fmap_2. by eapply list_elem_of_lookup_2.
  - rewrite Hk. by left.
Qed.

(** The incremental index maintenance of a flush agrees with rebuilding:
draining a prefix leaves exactly the queue built from the remaining operations. *)
Lemma drain_prefix_exact q count :
  queue_wf q → drain_prefix q count = from_operations (drop count (operations q)).
Proof.
  intros Hwf. apply queue_ext; [by apply drain_prefix_wf|apply from_operations_wf|]. simpl.
  symmetry. apply from_operations_distinct. rewrite fmap_drop.
  eapply sublist_NoDup; [by apply queue_keys_NoDup|apply sublist_drop].
Qed.

(** Rollback of a queue.  After any sequence of journaled pushes (compacting
older entries or appending), restoring the undo log gives back the queue the
transaction started from, index included. *)
Lemma queue_rollback q ops :
  queue_wf q →
  let s := foldl journaled_push (q, undo_new (queue_len q)) ops in
  queue_wf s.1 ∧ undo_restore s.2 s.1 = q.
Proof.
  intros Hwf. pose proof (undo_inv_pushes q _ ops (undo_inv_new q Hwf)) as Hi. simpl.
  split; [apply Hi|by apply undo_restores].
Qed.

(** C24: compaction loses nothing for registers: replaying the compacted queue on
any graph gives the graph the full history gives. *)
Theorem compaction_lossless_registers nodes ops :
  Forall (λ op, is_register_op op = true) ops → revisions_unique ops →
  apply_all nodes (operations (from_operations ops)) = apply_all nodes ops.
Proof.
  intros Hreg Hu.
  apply (compaction_replay (λ op, is_register_op op = true) (λ _, True)); try done.
  - intros g a b _ Ha Hb Hne. apply apply_action_comm. intros. by apply register_comm.
  - intros g a _ Ha. apply apply_action_idem. intros. by apply register_idem.
  - intros g a b _ Ha Hb [Hs _]%same_key_slot Hlt. apply apply_action_absorb; [done|].
    by apply register_absorb.
Qed.

(** Compaction loses nothing for set membership, on fields that hold nothing
or a set. *)
Lemma compaction_lossless_membership nodes ops :
  Forall (λ op, is_member_op op = true ∧ olt zero_marker (op_marker op) ∧
            set_slot (slot_of nodes (operation_source_node op) (operation_field op))) ops →
  revisions_unique ops →
  apply_all nodes (operations (from_operations ops)) = apply_all nodes ops.
Proof.
  intros Hmem Hu. rewrite Forall_forall in Hmem.
  apply (compaction_replay
    (λ op, is_member_op op = true ∧ olt zero_marker (op_marker op) ∧ op ∈ ops)
    (λ g, ∀ op, op ∈ ops → set_slot (slot_of g (operation_source_node op) (operation_field op))));
    [| | | | |by apply Forall_forall; naive_solver|done].
  - intros g a Hg (? & ? & _) op Hop. rewrite slot_of_apply. case_decide; [|by apply Hg].
    apply member_step_keeps; [done..|by apply Hg].
  - intros g a b Hg (? & ? & ?) (? & ? & ?) Hne. apply apply_action_comm.
    intros n f [<- <-] _. by apply member_comm; [..|apply Hg].
  - intros g a Hg (? & ? & ?). apply apply_action_idem. intros n f [<- <-]. by apply member_idem; [..|apply Hg].
  - intros g a b Hg (? & ? & ?) (? & ? & ?) [Hs Hm]%same_key_slot Hlt.
    apply apply_action_absorb; [done|]. by apply member_absorb; [..|apply Hg].
  - intros op Hop. by apply Hmem.
Qed.

(** * Concrete queues *)

Lemma revisions_unique_NoDup l : NoDup (op_revision <$> l) → revisions_unique l.
Proof.
  intros Hnd a b [i Ha]%list_elem_of_lookup [j Hb]%list_elem_of_lookup E.
  assert (i = j) as ->; [|congruence].
  eapply (NoDup_lookup _ i j (op_revision a)); [done|..]; rewrite list_lookup_fmap.
  - by rewrite Ha.
  - by rewrite Hb, E.
Qed.

Lemma drain_prefix_exact_witness :
  drain_prefix (from_operations demo_members) 1 =
  from_operations [demo_op 3 (AddSetMember "room" "members" "bob")].
Proof. apply (drain_prefix_exact (from_operations demo_members) 1). apply from_operations_wf. Defined.

Lemma queue_rollback_witness :
  let q := from_operations demo_members in
  let s := foldl journaled_push (q, undo_new (queue_len q))
             (demo_op 9 (RemoveSetMember "room" "members" "bob") :: demo_registers) in
  s.1 ≠ q ∧ undo_restore s.2 s.1 = q.
Proof.
  intros q s. split.
  - assert (length (operations s.1) ≠ length (operations q)) by (by vm_compute). congruence.
  - apply (queue_rollback q). apply from_operations_wf.
Defined.

Lemma compaction_lossless_registers_witness :
  apply_all ∅ [demo_op 3 (SetField "n" "f" (OLink "n/f")); demo_op 4 (SetField "n" "g" (OScalar JNull))]
  = apply_all ∅ demo_registers.
Proof.
  apply (compaction_lossless_registers ∅ demo_registers).
  - repeat constructor.
  - apply revisions_unique_NoDup. by apply (bool_decide_unpack _).
Defined.

Lemma compaction_lossless_membership_witness :
  apply_all ∅ (operations (from_operations demo_members)) = apply_all ∅ demo_members.
Proof.
  apply (compaction_lossless_membership ∅ demo_members).
  - repeat constructor.
  - apply revisions_unique_NoDup. by apply (bool_decide_unpack _).
Defined.

(** Compaction is not lossless once a whole-set write and insertions share a
field.  [set(a)], [put({"$set": [b]})], [set(a)] leave [a, b]; the compacted queue
keeps the second insertion at the position of the first, ahead of the write,
and replays to [a] alone. *)
Lemma compaction_reorders_set_write :
  let ops := [demo_op 1 (AddSetMember "room" "members" "a");
              demo_op 2 (SetField "room" "members" (OSet ["b"]));
              demo_op 3 (AddSetMember "room" "members" "a")] in
  revisions_unique ops ∧
  members_at (apply_all ∅ ops) "room" "members" = ["a"; "b"] ∧
  members_at (apply_all ∅ (operations (from_operations ops))) "room" "members" = ["a"].
Proof.
  simpl. split_and!; [|by vm_compute|by vm_compute].
  apply revisions_unique_NoDup. by apply (bool_decide_unpack _).
Qed.
