(* ===== verification/RelIndex.v ===== *)
(** The relationship index ([RelationshipIndex] of [src/src/db.rs]): the links
and set memberships of the graph, indexed by source and by target, and its
incremental maintenance. *)
From stdpp Require Import base gmap sets list strings sorting.
From Stdlib Require Import ZArith Lia.
From S2P Require Import Prelude Clock Value Crdt Merge.

Inductive TraversalEdgeKind := Link | SetMember.

Record TraversalEdge := mkEdge {
  edge_source : NodeId;
  edge_field : string;
  edge_target : NodeId;
  edge_kind : TraversalEdgeKind
}.

#[global] Instance TraversalEdgeKind_eq_dec : EqDecision TraversalEdgeKind.
Proof. solve_decision. Defined.
#[global] Instance TraversalEdge_eq_dec : EqDecision TraversalEdge.
Proof. solve_decision. Defined.

Definition is_link (k : TraversalEdgeKind) : bool :=
  match k with Link => true | SetMember => false end.

#[global] Instance TraversalEdge_countable : Countable TraversalEdge.
Proof.
  apply (inj_countable'
    (λ e, (edge_source e, edge_field e, edge_target e, is_link (edge_kind e)))
    (λ t, let '(s, f, g, b) := t in mkEdge s f g (if (b : bool) then Link else SetMember))).
  by intros [? ? ? []].
Defined.

(** [derive(Ord)] on the edge: source, field, target, kind ([Link] first). *)
Definition kind_cmp (x y : TraversalEdgeKind) : comparison :=
  match x, y with Link, SetMember => Lt | SetMember, Link => Gt | _, _ => Eq end.

Definition edge_cmp (x y : TraversalEdge) : comparison :=
  then_with (cmp (edge_source x) (edge_source y))
    (then_with (cmp (edge_field x) (edge_field y))
       (then_with (cmp (edge_target x) (edge_target y)) (kind_cmp (edge_kind x) (edge_kind y)))).

#[global] Program Instance Kind_ord : TotalOrd TraversalEdgeKind := {| cmp := kind_cmp |}.
Next Obligation. by intros [] []. Qed.
Next Obligation. by intros [] []. Qed.
Next Obligation. by intros [] [] []. Qed.

#[global] Program Instance TraversalEdge_ord : TotalOrd TraversalEdge := {| cmp := edge_cmp |}.
Next Obligation.
  intros [s1 f1 t1 k1] [s2 f2 t2 k2]. unfold edge_cmp. cbn [edge_source edge_field edge_target edge_kind]. split.
  - destruct (cmp s1 s2) eqn:E1, (cmp f1 f2) eqn:E2, (cmp t1 t2) eqn:E3; simpl; try done.
    intros E4. apply cmp_eq in E1 as ->, E2 as ->, E3 as ->. by destruct k1, k2.
  - intros [= -> -> -> ->]. rewrite !cmp_refl. by destruct k2.
Qed.
Next Obligation.
  intros x y. unfold edge_cmp. rewrite !then_with_opp.
  rewrite (cmp_opp (edge_source x)), (cmp_opp (edge_field x)), (cmp_opp (edge_target x)).
  do 3 f_equal. by destruct (edge_kind x), (edge_kind y).
Qed.
Next Obligation.
  intros x y z. unfold edge_cmp. do 3 apply then_with_lt_trans.
  by destruct (edge_kind x), (edge_kind y), (edge_kind z).
Qed.

(** A [BTreeSet<TraversalEdge>] in iteration order. *)
Definition edge_le (x y : TraversalEdge) : Prop := leb x y = true.

#[global] Instance edge_le_dec : RelDecision edge_le.
Proof. intros x y. unfold edge_le. apply _. Defined.

Definition edge_elems (s : gset TraversalEdge) : list TraversalEdge :=
  merge_sort edge_le (elements s).

Lemma elem_of_edge_elems s e : e ∈ edge_elems s ↔ e ∈ s.
Proof. unfold edge_elems. rewrite merge_sort_Permutation. apply elem_of_elements. Qed.

Record RelationshipIndex := mkIndex {
  outbound : gmap string (gset TraversalEdge);
  inbound : gmap string (gset TraversalEdge)
}.

Definition index_default : RelationshipIndex := mkIndex ∅ ∅.

(** [entry(key).or_default().insert(edge)]. *)
Definition entry_insert (key : string) (e : TraversalEdge)
    (m : gmap string (gset TraversalEdge)) : gmap string (gset TraversalEdge) :=
  <[key := {[e]} ∪ default ∅ (m !! key)]> m.

(** [RelationshipIndex::insert]. *)
Definition index_insert (idx : RelationshipIndex) (e : TraversalEdge) : RelationshipIndex :=
  mkIndex (entry_insert (edge_source e) e (outbound idx))
          (entry_insert (edge_target e) e (inbound idx)).

(** The body of the loop of [remove_source]. *)
Definition remove_inbound (m : gmap string (gset TraversalEdge)) (e : TraversalEdge)
    : gmap string (gset TraversalEdge) :=
  match m !! edge_target e with
  | Some edges =>
      let edges' := edges ∖ {[e]} in
      if bool_decide (edges' = ∅) then delete (edge_target e) m
      else <[edge_target e := edges']> m
  | None => m
  end.

(** [RelationshipIndex::remove_source]. *)
Definition remove_source (source : NodeId) (idx : RelationshipIndex) : RelationshipIndex :=
  match outbound idx !! source with
  | None => idx
  | Some edges =>
      mkIndex (delete source (outbound idx))
              (foldl remove_inbound (inbound idx) (edge_elems edges))
  end.

(** The edges [reindex_node_relationships] inserts for one field. *)
Definition field_edges (node : NodeId) (p : string * FieldState) : list TraversalEdge :=
  match value p.2 with
  | FLink target => [mkEdge node p.1 target Link]
  | FSet set => (λ target, mkEdge node p.1 target SetMember) <$> btree_keys (members set)
  | FScalar _ | FBytes _ | FBlob _ => []
  end.

Definition node_edges (node : NodeId) (state : NodeState) : list TraversalEdge :=
  mbind (field_edges node) (btree_list (fields state)).

(** The index update of [reindex_node_relationships]. *)
Definition reindex (nodes : gmap string NodeState) (idx : RelationshipIndex) (node : NodeId)
    : RelationshipIndex :=
  let idx := remove_source node idx in
  match nodes !! node with
  | None => idx
  | Some state => foldl index_insert idx (node_edges node state)
  end.

(** [rebuild_relationship_index]. *)
Definition rebuild_index (nodes : gmap string NodeState) : RelationshipIndex :=
  foldl (reindex nodes) index_default (btree_keys nodes).

(** * Invariant *)

Definition out_has (idx : RelationshipIndex) (e : TraversalEdge) : Prop :=
  e ∈ default ∅ (outbound idx !! edge_source e).

Definition in_has (idx : RelationshipIndex) (e : TraversalEdge) : Prop :=
  e ∈ default ∅ (inbound idx !! edge_target e).

(** Buckets are filed under the right key and never empty. *)
Definition buckets_wf (key : TraversalEdge → string) (m : gmap string (gset TraversalEdge)) : Prop :=
  ∀ k E, m !! k = Some E → E ≠ ∅ ∧ ∀ e, e ∈ E → key e = k.

(** The inbound index is the transpose of the outbound one. *)
Definition index_wf (idx : RelationshipIndex) : Prop :=
  buckets_wf edge_source (outbound idx) ∧ buckets_wf edge_target (inbound idx) ∧
  ∀ e, out_has idx e ↔ in_has idx e.

(** The relationships the graph holds. *)
Definition graph_edge (nodes : gmap string NodeState) (e : TraversalEdge) : Prop :=
  ∃ state, nodes !! edge_source e = Some state ∧ e ∈ node_edges (edge_source e) state.

(** The index is exactly the relationships of the graph. *)
Definition index_of (nodes : gmap string NodeState) (idx : RelationshipIndex) : Prop :=
  index_wf idx ∧ ∀ e, out_has idx e ↔ graph_edge nodes e.

Lemma index_default_wf : index_wf index_default.
Proof. split_and!; [done..|]. intros e. unfold out_has, in_has. simpl. by rewrite !lookup_empty. Qed.

Lemma node_edges_source node state e : e ∈ node_edges node state → edge_source e = node.
Proof.
  unfold node_edges. rewrite list_elem_of_bind. intros ([f fs] & He & _). unfold field_edges in He. simpl in He.
  destruct (value fs); try by apply not_elem_of_nil in He.
  - by apply list_elem_of_singleton in He as ->.
  - by apply list_elem_of_fmap in He as (t & -> & _).
Qed.

Lemma entry_insert_wf key m e : buckets_wf key m → buckets_wf key (entry_insert (key e) e m).
Proof.
  intros Hm k E. unfold entry_insert. rewrite lookup_insert_Some.
  intros [[<- <-]|[_ HE]]; [|by apply Hm]. split; [set_solver|].
  intros e'. rewrite elem_of_union, elem_of_singleton. intros [->|He']; [done|].
  destruct (m !! key e) as [E|] eqn:HE; simpl in He'; [by apply (Hm _ E)|set_solver].
Qed.

Lemma elem_of_entry_insert key m e e' :
  e' ∈ default ∅ (entry_insert (key e) e m !! key e') ↔ e' = e ∨ e' ∈ default ∅ (m !! key e').
Proof.
  unfold entry_insert. destruct (decide (key e = key e')) as [Hk|Hk].
  - rewrite Hk, lookup_insert_eq. simpl. set_solver.
  - rewrite lookup_insert_ne by done. naive_solver.
Qed.

Lemma index_insert_has idx e e' : out_has (index_insert idx e) e' ↔ e' = e ∨ out_has idx e'.
Proof. apply (elem_of_entry_insert edge_source). Qed.

Lemma index_insert_wf idx e : index_wf idx → index_wf (index_insert idx e).
Proof.
  intros (Ho & Hi & Hio). split_and!; [by apply entry_insert_wf..|].
  intros e'. rewrite index_insert_has. unfold in_has. simpl.
  rewrite (elem_of_entry_insert edge_target), (Hio e'). done.
Qed.

Lemma index_inserts idx l :
  index_wf idx → index_wf (foldl index_insert idx l) ∧
  ∀ e, out_has (foldl index_insert idx l) e ↔ e ∈ l ∨ out_has idx e.
Proof.
  revert idx. induction l as [|a l IH]; intros idx Hidx; simpl.
  { split; [done|]. intros e. set_solver. }
  destruct (IH (index_insert idx a)) as [Hwf He]; [by apply index_insert_wf|]. split; [done|].
  intros e. rewrite He, index_insert_has, elem_of_cons. naive_solver.
Qed.

Lemma remove_inbound_step m e :
  buckets_wf edge_target m → buckets_wf edge_target (remove_inbound m e) ∧
  ∀ e', e' ∈ default ∅ (remove_inbound m e !! edge_target e') ↔
    e' ≠ e ∧ e' ∈ default ∅ (m !! edge_target e').
Proof.
  intros Hm. unfold remove_inbound. destruct (m !! edge_target e) as [E|] eqn:HE.
  - case_bool_decide as Hempty; split.
    + intros k E' HE'. apply lookup_delete_Some in HE' as [_ HE']. by apply Hm.
    + intros e'. destruct (decide (edge_target e' = edge_target e)) as [Hk|Hk].
      * rewrite Hk, lookup_delete_eq, HE. simpl. set_solver.
      * rewrite lookup_delete_ne by done. split; [|naive_solver]. intros; split; [congruence|done].
    + intros k E' HE'. apply lookup_insert_Some in HE' as [[<- <-]|[_ HE']]; [|by apply Hm].
      split; [done|]. intros e' He'. apply (Hm _ E HE). set_solver.
    + intros e'. destruct (decide (edge_target e' = edge_target e)) as [Hk|Hk].
      * rewrite Hk, lookup_insert_eq, HE. simpl. set_solver.
      * rewrite lookup_insert_ne by done. split; [|naive_solver]. intros; split; [congruence|done].
  - split; [done|]. intros e'. split; [|naive_solver]. intros He'. split; [|done].
    intros ->. rewrite HE in He'. set_solver.
Qed.

Lemma remove_inbound_all m l :
  buckets_wf edge_target m → buckets_wf edge_target (foldl remove_inbound m l) ∧
  ∀ e, e ∈ default ∅ (foldl remove_inbound m l !! edge_target e) ↔
    e ∉ l ∧ e ∈ default ∅ (m !! edge_target e).
Proof.
  revert m. induction l as [|a l IH]; intros m Hm; simpl.
  { split; [done|]. intros e. set_solver. }
  destruct (remove_inbound_step m a Hm) as [Hm' Ha]. destruct (IH _ Hm') as [Hwf He].
  split; [done|]. intros e. rewrite He, Ha, elem_of_cons. naive_solver.
Qed.

Lemma remove_source_has source idx e :
  index_wf idx → out_has (remove_source source idx) e ↔ edge_source e ≠ source ∧ out_has idx e.
Proof.
  intros (Ho & Hi & Hio). unfold remove_source, out_has.
  destruct (outbound idx !! source) as [E|] eqn:HE; simpl.
  - destruct (decide (edge_source e = source)) as [->|Hne].
    + rewrite lookup_delete_eq. set_solver.
    + rewrite lookup_delete_ne by done. naive_solver.
  - destruct (decide (edge_source e = source)) as [Hk|Hne]; [|naive_solver].
    rewrite Hk, HE. set_solver.
Qed.

Lemma remove_source_wf source idx : index_wf idx → index_wf (remove_source source idx).
Proof.
  intros Hwf. pose proof Hwf as (Ho & Hi & Hio).
  pose proof (λ e, remove_source_has source idx e Hwf) as Hhas.
  unfold remove_source in *. destruct (outbound idx !! source) as [E|] eqn:HE; [|done].
  destruct (remove_inbound_all (inbound idx) (edge_elems E) Hi) as [Hi' Hin].
  split_and!; [|done|].
  - intros k E' HE'. simpl in HE'. apply lookup_delete_Some in HE' as [_ HE']. by apply Ho.
  - intros e. rewrite Hhas. unfold in_has. cbn [inbound]. rewrite Hin, elem_of_edge_elems, (Hio e).
    split; intros [H1 H2]; (split; [|done]).
    + intros He. by apply H1, (Ho _ E HE).
    + intros Hk. apply H1. apply Hio in H2. unfold out_has in H2. by rewrite Hk, HE in H2.
Qed.

Lemma reindex_wf nodes idx n : index_wf idx → index_wf (reindex nodes idx n).
Proof.
  intros Hwf. unfold reindex. apply (remove_source_wf n) in Hwf.
  destruct (nodes !! n); [|done]. by apply index_inserts.
Qed.

(** Reindexing a node replaces its edges and touches no others. *)
Lemma reindex_has nodes idx n e :
  index_wf idx →
  out_has (reindex nodes idx n) e ↔
  if decide (edge_source e = n) then graph_edge nodes e else out_has idx e.
Proof.
  intros Hwf. unfold reindex, graph_edge.
  destruct (nodes !! n) as [st|] eqn:Hn.
  - rewrite (proj2 (index_inserts _ _ (remove_source_wf n idx Hwf))), remove_source_has by done.
    case_decide as Hk.
    + subst. rewrite Hn. split; [|intros (? & [= <-] & ?); by left].
      intros [?|[? _]]; [by eauto|done].
    + split; [|naive_solver]. intros [He|[_ ?]]; [|done]. by apply node_edges_source in He.
  - rewrite remove_source_has by done. case_decide as Hk; [|naive_solver].
    subst. rewrite Hn. naive_solver.
Qed.

(** The index is determined by the edges it holds. *)
Lemma buckets_ext key m m' :
  buckets_wf key m → buckets_wf key m' →
  (∀ e, e ∈ default ∅ (m !! key e) ↔ e ∈ default ∅ (m' !! key e)) → m = m'.
Proof.
  assert (∀ m m', buckets_wf key m → buckets_wf key m' →
    (∀ e, e ∈ default ∅ (m !! key e) ↔ e ∈ default ∅ (m' !! key e)) →
    ∀ k E, m !! k = Some E → m' !! k = Some E) as Hone.
  { clear m m'. intros m m' Hm Hm' Heq k E HE. destruct (Hm _ _ HE) as [Hne Hkey].
    destruct (set_choose_L E Hne) as [e0 He0]. pose proof (Hkey e0 He0) as Hk0.
    pose proof (proj1 (Heq e0)) as Hin. rewrite Hk0, HE in Hin. specialize (Hin He0).
    destruct (m' !! k) as [E'|] eqn:HE'; simpl in Hin; [|set_solver].
    f_equal. apply set_eq. intros e. split; intros He.
    - pose proof (proj2 (Hm' _ _ HE') e He) as Hk.
      pose proof (proj2 (Heq e)) as H. rewrite Hk, HE, HE' in H. by apply H.
    - pose proof (Hkey e He) as Hk.
      pose proof (proj1 (Heq e)) as H. rewrite Hk, HE, HE' in H. by apply H. }
  intros Hm Hm' Heq. apply map_eq. intros k. apply option_eq. intros E. split.
  - by apply Hone.
  - apply Hone; [done..|]. intros e. symmetry. apply Heq.
Qed.

Lemma index_ext idx idx' :
  index_wf idx → index_wf idx' → (∀ e, out_has idx e ↔ out_has idx' e) → idx = idx'.
Proof.
  intros (Ho & Hi & Hio) (Ho' & Hi' & Hio') Heq. destruct idx as [o i], idx' as [o' i']. f_equal.
  - by apply (buckets_ext edge_source).
  - apply (buckets_ext edge_target); [done..|]. intros e. specialize (Heq e).
    rewrite (Hio e), (Hio' e) in Heq. done.
Qed.

Lemma index_of_unique nodes idx idx' : index_of nodes idx → index_of nodes idx' → idx = idx'.
Proof. intros [H1 E1] [H2 E2]. apply index_ext; [done..|]. intros e. by rewrite E1, E2. Qed.

Lemma reindex_all_has nodes idx l e :
  index_wf idx → index_wf (foldl (reindex nodes) idx l) ∧
  (out_has (foldl (reindex nodes) idx l) e ↔
   if decide (edge_source e ∈ l) then graph_edge nodes e else out_has idx e).
Proof.
  revert idx. induction l as [|n l IH]; intros idx Hwf; cbn [foldl]; [split; [done|]|].
  { case_decide as H; [by apply not_elem_of_nil in H|done]. }
  destruct (IH (reindex nodes idx n)) as [Hwf' IHe]; [by apply reindex_wf|]. split; [done|].
  rewrite IHe. destruct (decide (edge_source e ∈ l)) as [Hl|Hl].
  - rewrite decide_True by (by right). done.
  - rewrite reindex_has by done.
    destruct (decide (edge_source e = n)) as [Hn|Hn]; [rewrite decide_True by (subst; left); done|].
    rewrite decide_False; [done|]. intros [?|?]%elem_of_cons; done.
Qed.

Lemma rebuild_index_of nodes : index_of nodes (rebuild_index nodes).
Proof.
  unfold rebuild_index. split.
  - apply (reindex_all_has _ _ _ (mkEdge "" "" "" Link) index_default_wf).
  - intros e. rewrite (proj2 (reindex_all_has _ _ _ _ index_default_wf)).
    case_decide as H; [done|]. split.
    + unfold out_has. simpl. rewrite lookup_empty. set_solver.
    + intros (st & Hst & _). exfalso. apply H. apply elem_of_btree_keys. eauto.
Qed.

Lemma reindex_index_of nodes nodes' idx n :
  index_of nodes idx → (∀ k, k ≠ n → nodes' !! k = nodes !! k) →
  index_of nodes' (reindex nodes' idx n).
Proof.
  intros [Hwf He] Hsame. split; [by apply reindex_wf|]. intros e. rewrite reindex_has by done.
  case_decide as Hk; [done|]. rewrite He. unfold graph_edge. by rewrite Hsame.
Qed.

(** * Theorems *)

(** The index always is the graph's relationships.  A full rebuild indexes
exactly the links and set memberships of the nodes; after a node changed,
reindexing that node alone gives the same index as rebuilding from scratch. *)
Lemma reindex_incremental nodes nodes' n :
  (∀ k, k ≠ n → nodes' !! k = nodes !! k) →
  index_of nodes (rebuild_index nodes) ∧
  reindex nodes' (rebuild_index nodes) n = rebuild_index nodes'.
Proof.
  intros Hsame. split; [apply rebuild_index_of|].
  eapply index_of_unique; [|apply rebuild_index_of].
  apply (reindex_index_of nodes); [apply rebuild_index_of|done].
Qed.

Definition demo_graph : gmap string NodeState :=
  apply_all ∅ [demo_op 1 (SetField "a" "best" (OLink "b"));
               demo_op 2 (AddSetMember "a" "friends" "b");
               demo_op 3 (SetField "b" "best" (OLink "a"))].

Definition demo_graph' : gmap string NodeState :=
  (apply_action (demo_op 4 (RemoveSetMember "a" "friends" "b")) demo_graph).1.

Lemma reindex_incremental_witness :
  reindex demo_graph' (rebuild_index demo_graph) "a" = rebuild_index demo_graph' ∧
  edge_elems <$> inbound (rebuild_index demo_graph') !! "b" = Some [mkEdge "a" "best" "b" Link].
Proof.
  split; [|by vm_compute].
  apply (reindex_incremental demo_graph demo_graph' "a").
  intros k Hk. unfold demo_graph', apply_action. by apply lookup_insert_ne.
Defined.
