(* ===== verification/Paths.v ===== *)
(** Paths and scopes: path keys and their overlap test, scope policies and the
write rules they impose ([src/src/consistency.rs], [RemotePath] of
[src/src/sync.rs], and the path helpers of [src/src/db.rs]). *)
From stdpp Require Import base gmap sets list strings sorting.
From Stdlib Require Import ZArith Lia.
From S2P Require Import Prelude Clock Value Crdt.

(** * Paths *)

Definition display_path (anchor : string) (segments : list string) : string :=
  match segments with
  | [] => anchor
  | _ => anchor +:+ "." +:+ join "." segments
  end.

Definition watch_path_key (anchor : string) (segments : list string) : string :=
  match segments with
  | [] => anchor
  | _ => anchor +:+ "/" +:+ join "/" segments
  end.

(** [left.strip_prefix(right).is_some_and(|suffix| suffix.starts_with('/'))]. *)
Definition strictly_below (left right : string) : bool :=
  match strip_prefix right left with
  | Some suffix => starts_with suffix "/"
  | None => false
  end.

Definition path_overlaps (left right : string) : bool :=
  bool_decide (left = right) || strictly_below left right || strictly_below right left.

Definition derived_child_id (parent field : string) : string := parent +:+ "/" +:+ field.

Definition node_matches_root (node_id root : string) : bool :=
  bool_decide (node_id = root) || starts_with node_id (root +:+ "/").

(** [operation_touched_path]. *)
Definition operation_touched_path (op : Operation) : string :=
  operation_source_node op +:+ "/" +:+ operation_field op.

Record RemotePath := mkPath {
  anchor : string;
  segments : list string
}.

(** [RemotePath::path]. *)
Definition path (p : RemotePath) : string :=
  match segments p with
  | [] => anchor p
  | _ => anchor p +:+ "/" +:+ join "/" (segments p)
  end.

(** * Scope policies *)

Inductive ScopeConsistency := Eventual | LocalTransactional | Coordinated.

Inductive ScopeAuthority :=
  | Peer (peer_id : string)
  | FullNode (peer_id : string)
  | Quorum (peers : list string) (threshold : Z).

Inductive ScopeIsolation := Serializable.
Inductive ScopeReadMode := Cached | Authority | QuorumRead.
Inductive ScopeOfflineWrites := Reject | QueueProvisional.

Record ScopePolicy := mkPolicy {
  consistency : ScopeConsistency;
  authority : option ScopeAuthority;
  isolation : ScopeIsolation;
  read_mode : ScopeReadMode;
  offline_writes : ScopeOfflineWrites
}.

#[global] Instance ScopeConsistency_eq_dec : EqDecision ScopeConsistency.
Proof. solve_decision. Defined.
#[global] Instance ScopeAuthority_eq_dec : EqDecision ScopeAuthority.
Proof. solve_decision. Defined.
#[global] Instance ScopeIsolation_eq_dec : EqDecision ScopeIsolation.
Proof. solve_decision. Defined.
#[global] Instance ScopeReadMode_eq_dec : EqDecision ScopeReadMode.
Proof. solve_decision. Defined.
#[global] Instance ScopeOfflineWrites_eq_dec : EqDecision ScopeOfflineWrites.
Proof. solve_decision. Defined.
#[global] Instance ScopePolicy_eq_dec : EqDecision ScopePolicy.
Proof. solve_decision. Defined.

(** [impl Default for ScopePolicy]. *)
Definition policy_default : ScopePolicy :=
  mkPolicy Eventual None Serializable Cached Reject.

(** The three spellings of an actor a peer id may use. *)
Definition peer_is_actor (peer_id actor : string) : bool :=
  bool_decide (peer_id = actor) || bool_decide (peer_id = "native:" +:+ actor)
  || bool_decide (peer_id = "full-node:" +:+ actor).

Definition scope_policy_matches_authority_actor (policy : ScopePolicy) (actor : string) : bool :=
  match authority policy with
  | None => false
  | Some (Peer peer_id) | Some (FullNode peer_id) => peer_is_actor peer_id actor
  | Some (Quorum peers threshold) =>
      (threshold <=? 1)%Z && existsb (λ peer_id, peer_is_actor peer_id actor) peers
  end.

(** [Iterator::max_by_key]: the last of the maximal elements. *)
Definition max_by_key {A} (key : A → nat) (l : list A) : option A :=
  foldl (λ best x,
    match best with
    | None => Some x
    | Some y => if decide (key y ≤ key x) then Some x else Some y
    end) None l.

(** [Inner::policy_for_path]. *)
Definition policy_for_path (policies : gmap string ScopePolicy) (p : string)
    : option (string * ScopePolicy) :=
  if decide (policies = ∅) then None
  else max_by_key (λ sp, String.length sp.1)
         (filter (λ sp, node_matches_root p sp.1 = true) (btree_list policies)).

(** [Inner::ensure_canonical_write_allowed]; the actor is the clock's. *)
Definition ensure_canonical_write_allowed (policies : gmap string ScopePolicy) (actor : string)
    (anchor : string) (segments : list string) : result unit :=
  match policy_for_path policies (watch_path_key anchor segments) with
  | None => Ok tt
  | Some (scope, policy) =>
      if bool_decide (consistency policy = Coordinated)
         && negb (scope_policy_matches_authority_actor policy actor)
      then Err (StrictScopeUnavailable scope) else Ok tt
  end.

(** [Inner::remote_operation_allowed]. *)
Definition remote_operation_allowed (policies : gmap string ScopePolicy) (op : Operation) : bool :=
  match policy_for_path policies (operation_touched_path op) with
  | None => true
  | Some (_, policy) =>
      if bool_decide (consistency policy = Coordinated)
      then scope_policy_matches_authority_actor policy (author op) else true
  end.

(** * Transaction steps *)

Inductive TransactionStep :=
  | SPut (p : RemotePath) (v : json)
  | SUnset (p : RemotePath)
  | SSet (p : RemotePath) (v : json)
  | SRemove (p : RemotePath) (v : json)
  | SAssertExists (p : RemotePath)
  | SAssertAbsent (p : RemotePath)
  | SAssertValue (p : RemotePath) (v : json)
  | SAssertRevision (p : RemotePath) (revision : option VersionMarker)
  | SIncrement (p : RemotePath) (by_ : SpecFloat.spec_float).

Definition transaction_step_path (step : TransactionStep) : RemotePath :=
  match step with
  | SPut p _ | SUnset p | SSet p _ | SRemove p _ | SAssertExists p | SAssertAbsent p
  | SAssertValue p _ | SAssertRevision p _ | SIncrement p _ => p
  end.

Definition scoped_anchor_segments (scope : option string) (a : string) (segs : list string)
    : string * list string :=
  match scope with
  | None => (a, segs)
  | Some scope =>
      if bool_decide (a = "") then (scope, segs)
      else if node_matches_root a scope then (a, segs)
      else (scope, a :: segs)
  end.

Definition scope_remote_path (scope : string) (p : RemotePath) : RemotePath :=
  let '(a, segs) := scoped_anchor_segments (Some scope) (anchor p) (segments p) in
  mkPath a segs.

Definition scope_transaction_step (scope : string) (step : TransactionStep) : TransactionStep :=
  match step with
  | SPut p v => SPut (scope_remote_path scope p) v
  | SUnset p => SUnset (scope_remote_path scope p)
  | SSet p v => SSet (scope_remote_path scope p) v
  | SRemove p v => SRemove (scope_remote_path scope p) v
  | SAssertExists p => SAssertExists (scope_remote_path scope p)
  | SAssertAbsent p => SAssertAbsent (scope_remote_path scope p)
  | SAssertValue p v => SAssertValue (scope_remote_path scope p) v
  | SAssertRevision p r => SAssertRevision (scope_remote_path scope p) r
  | SIncrement p b => SIncrement (scope_remote_path scope p) b
  end.

Definition outside_scope (display required : string) : PrimadbError :=
  StrictScopeConflict ("path `" +:+ display +:+ "` is outside scope `" +:+ required +:+ "`").

Definition mixed_scopes : PrimadbError :=
  StrictScopeConflict "transaction mixes scoped and unscoped paths".

Definition two_scopes (current scope : string) : PrimadbError :=
  StrictScopeConflict
    ("transaction touches both `" +:+ current +:+ "` and `" +:+ scope +:+ "`").

(** The loop variables of [validate_transaction_scopes]. *)
Record ScopeCheck := mkScopeCheck {
  matched_strict_scope : option string;
  saw_unscoped_path : bool
}.

(** One iteration of its loop. *)
Definition validate_path (policies : gmap string ScopePolicy) (required_scope : option string)
    (st : ScopeCheck) (p : RemotePath) : result ScopeCheck :=
  let inside :=
    match required_scope with
    | Some required => node_matches_root (path p) required
    | None => true
    end in
  if negb inside then Err (outside_scope (path p) (default "" required_scope))
  else
    let free := match required_scope with None => true | Some _ => false end in
    match policy_for_path policies (path p) with
    | None =>
        if bool_decide (is_Some (matched_strict_scope st)) && free then Err mixed_scopes
        else Ok (mkScopeCheck (matched_strict_scope st) (saw_unscoped_path st || free))
    | Some (scope, policy) =>
        if bool_decide (consistency policy = Eventual) then Ok st
        else if saw_unscoped_path st && free then Err mixed_scopes
        else
          match matched_strict_scope st with
          | Some current =>
              if bool_decide (current = scope) then Ok st else Err (two_scopes current scope)
          | None => Ok (mkScopeCheck (Some scope) (saw_unscoped_path st))
          end
    end.

Fixpoint validate_paths (policies : gmap string ScopePolicy) (required_scope : option string)
    (st : ScopeCheck) (ps : list RemotePath) : result ScopeCheck :=
  match ps with
  | [] => Ok st
  | p :: ps =>
      match validate_path policies required_scope st p with
      | Ok st => validate_paths policies required_scope st ps
      | Err e => Err e
      end
  end.

(** [Primadb::validate_transaction_scopes]. *)
Definition validate_transaction_scopes (policies : gmap string ScopePolicy)
    (required_scope : option string) (steps : list TransactionStep) : result unit :=
  match validate_paths policies required_scope (mkScopeCheck required_scope false)
          (transaction_step_path <$> steps) with
  | Ok _ => Ok tt
  | Err e => Err e
  end.

(** * Lemmas *)

Lemma node_matches_root_spec n r :
  node_matches_root n r = true ↔ n = r ∨ ∃ t, n = r +:+ "/" +:+ t.
Proof.
  unfold node_matches_root. rewrite orb_true_iff, bool_decide_eq_true, starts_with_spec.
  setoid_rewrite str_app_assoc. done.
Qed.

Lemma strictly_below_spec l r : strictly_below l r = true ↔ ∃ t, l = r +:+ "/" +:+ t.
Proof.
  unfold strictly_below. destruct (strip_prefix r l) as [u|] eqn:E.
  - apply strip_prefix_Some in E. rewrite starts_with_spec. split.
    + intros [t ->]. eauto.
    + intros [t Ht]. exists t. rewrite E in Ht. by apply str_app_inj_l in Ht.
  - split; [done|]. intros [t Ht]. apply strip_prefix_Some in Ht. congruence.
Qed.

Lemma node_matches_refl n : node_matches_root n n = true.
Proof. apply node_matches_root_spec. by left. Qed.

Lemma str_prefix_total s t u v :
  s +:+ t = u +:+ v → String.length s ≤ String.length u → ∃ w, u = s +:+ w ∧ t = w +:+ v.
Proof.
  revert u. induction s as [|a s IH]; intros u E Hlen; [by exists u|].
  destruct u as [|b u]; [simpl in Hlen; lia|]. rewrite !str_app_cons in E. injection E as -> E.
  destruct (IH u E) as (w & -> & Ht); [simpl in Hlen; lia|]. by exists w.
Qed.

(** Of two scopes of one path, the longer lies inside the shorter. *)
Lemma matching_scopes_nested p s s' :
  node_matches_root p s = true → node_matches_root p s' = true →
  String.length s' ≤ String.length s → node_matches_root s s' = true.
Proof.
  rewrite !node_matches_root_spec. intros Hs Hs' Hlen.
  assert (∃ t, p = s +:+ t ∧ (t = "" ∨ ∃ r, t = "/" +:+ r)) as (t & Hp & _).
  { destruct Hs as [->|[r ->]]; [exists ""; rewrite str_app_nil_r; eauto|eauto]. }
  destruct Hs' as [->|[r' Hp']].
  - left. rewrite Hp, str_length_app in Hlen. destruct t; [by rewrite str_app_nil_r in Hp|].
    simpl in Hlen. lia.
  - rewrite Hp in Hp'. symmetry in Hp'. destruct (str_prefix_total _ _ _ _ Hp' Hlen) as (w & -> & Hw).
    destruct w as [|c w]; [left; apply str_app_nil_r|]. right. exists w.
    rewrite str_app_cons in Hw. injection Hw as <- _. done.
Qed.

Lemma max_by_key_from {A} (key : A → nat) l best :
  match foldl (λ best x, match best with
      | None => Some x
      | Some y => if decide (key y ≤ key x) then Some x else Some y end) best l with
  | None => best = None ∧ l = []
  | Some x => (best = Some x ∨ x ∈ l) ∧ (∀ y, best = Some y → key y ≤ key x) ∧
              ∀ y, y ∈ l → key y ≤ key x
  end.
Proof.
  revert best. induction l as [|a l IH]; intros best; cbn [foldl].
  - destruct best; [|done]. split_and!; [by left|by intros ? [= ->]|].
    intros y Hy. by apply not_elem_of_nil in Hy.
  - set (b := match best with None => Some a | Some y => if decide (key y ≤ key a) then Some a else Some y end).
    specialize (IH b). destruct (foldl _ b l) as [x|].
    + destruct IH as (Hin & Hb & Hl). subst b. destruct best as [y|]; [case_decide|];
        (split_and!; [destruct Hin as [[= ->]|?]; [auto; by right; left|right; by right]|..]).
      all: try (intros z [= <-]). all: try (intros z [->|Hz]%elem_of_cons).
      all: try by apply Hl. all: specialize (Hb _ eq_refl); lia.
    + destruct IH as [Hb _]. subst b. destruct best; [by case_decide|done].
Qed.

Lemma path_below a segs : path (mkPath a segs) = a ∨ ∃ t, path (mkPath a segs) = a +:+ "/" +:+ t.
Proof. unfold path. destruct segs as [|x segs]; [by left|right]. by eexists. Qed.

Lemma path_matches a segs scope :
  node_matches_root a scope = true → node_matches_root (path (mkPath a segs)) scope = true.
Proof.
  rewrite !node_matches_root_spec. destruct (path_below a segs) as [->|[t ->]]; [done|].
  intros [->|[u ->]]; right; [by exists t|]. exists (u +:+ "/" +:+ t). by rewrite !str_app_assoc.
Qed.

(** The scope a path must be coordinated under, if its policy is strict. *)
Definition strict_scope (policies : gmap string ScopePolicy) (p : RemotePath) : option string :=
  match policy_for_path policies (path p) with
  | Some (scope, policy) => if bool_decide (consistency policy = Eventual) then None else Some scope
  | None => None
  end.

Definition unscoped (policies : gmap string ScopePolicy) (p : RemotePath) : Prop :=
  policy_for_path policies (path p) = None.

Lemma validate_path_required policies r st p :
  matched_strict_scope st = Some r →
  match validate_path policies (Some r) st p with
  | Ok st' => matched_strict_scope st' = Some r ∧ node_matches_root (path p) r = true ∧
              (∀ s, strict_scope policies p = Some s → s = r)
  | Err _ => node_matches_root (path p) r = false ∨
             ∃ s, strict_scope policies p = Some s ∧ s ≠ r
  end.
Proof.
  intros Hm. unfold validate_path, strict_scope. rewrite Hm. simpl.
  destruct (node_matches_root (path p) r) eqn:Hr; simpl; [|by left].
  rewrite !andb_false_r.
  destruct (policy_for_path policies (path p)) as [[s pol]|]; simpl; [|done].
  case_bool_decide; [done|]. case_bool_decide; [subst; split_and!; [done..|naive_solver]|eauto].
Qed.

Lemma validate_required policies r ps st :
  matched_strict_scope st = Some r →
  is_ok (validate_paths policies (Some r) st ps) = true ↔
  Forall (λ p, node_matches_root (path p) r = true ∧
               ∀ s, strict_scope policies p = Some s → s = r) ps.
Proof.
  revert st. induction ps as [|p ps IH]; intros st Hm; simpl; [split; [constructor|done]|].
  pose proof (validate_path_required policies r st p Hm) as Hp.
  destruct (validate_path policies (Some r) st p) as [st'|e]; simpl.
  - destruct Hp as (Hm' & Hin & Hs). rewrite IH, Forall_cons by done. naive_solver.
  - rewrite Forall_cons. split; [done|]. destruct Hp as [Hn|(s & Hs & Hne)]; [naive_solver congruence|].
    intros [[_ H] _]. by apply H in Hs.
Qed.

(** A single strict scope serves all paths, or none does and paths are free. *)
Definition one_scope (policies : gmap string ScopePolicy) (m : option string) (u : bool)
    (ps : list RemotePath) : Prop :=
  ∃ target : option string,
    (∀ s, m = Some s → target = Some s) ∧
    (∀ p s, p ∈ ps → strict_scope policies p = Some s → target = Some s) ∧
    (is_Some target → u = false ∧ ∀ p, p ∈ ps → ¬ unscoped policies p).

(** A path that imposes nothing new leaves the requirement unchanged. *)
Lemma one_scope_skip policies m u p ps :
  ¬ unscoped policies p → (∀ s, strict_scope policies p = Some s → m = Some s) →
  one_scope policies m u (p :: ps) ↔ one_scope policies m u ps.
Proof.
  intros Hu Hs. unfold one_scope. apply exist_proper. intros t.
  split; intros (H1 & H2 & H3); split_and!; [done|set_solver|set_solver|done| |].
  - intros q x [->|Hq]%elem_of_cons Hx; [by apply H1, Hs|eauto].
  - intros Ht. destruct (H3 Ht) as [? H4]. split; [done|]. intros q [->|Hq]%elem_of_cons; [done|by apply H4].
Qed.

Lemma one_scope_cons policies st p ps :
  match validate_path policies None st p with
  | Ok st' => one_scope policies (matched_strict_scope st) (saw_unscoped_path st) (p :: ps) ↔
              one_scope policies (matched_strict_scope st') (saw_unscoped_path st') ps
  | Err _ => ¬ one_scope policies (matched_strict_scope st) (saw_unscoped_path st) (p :: ps)
  end.
Proof.
  unfold validate_path. destruct st as [m u]. simpl.
  assert (strict_scope policies p = match policy_for_path policies (path p) with
    | Some (s, pol) => if bool_decide (consistency pol = Eventual) then None else Some s
    | None => None end) as Hs by done.
  assert (unscoped policies p ↔ policy_for_path policies (path p) = None) as Hu by done.
  destruct (policy_for_path policies (path p)) as [[s pol]|] eqn:E.
  - revert Hs. case_bool_decide; intros Hs; [|destruct u; simpl; [|destruct m as [c|]; [case_bool_decide|]]].
    + apply one_scope_skip; [naive_solver|by rewrite Hs].
    + intros (t & _ & H2 & H3). destruct H3; [|done]. rewrite (H2 p s); [eauto|left|done].
    + apply one_scope_skip; [naive_solver|]. rewrite Hs. intros x [= <-]. simpl. congruence.
    + intros (t & H1 & H2 & _). specialize (H1 c eq_refl). specialize (H2 p s ltac:(left) Hs). congruence.
    + simpl. split; intros (t & H1 & H2 & H3); exists t.
      * split_and!; [|set_solver|set_solver]. intros x [= <-]. apply (H2 p); [left|done].
      * split_and!; [done| |].
        -- intros q x [->|Hq]%elem_of_cons; [rewrite Hs; naive_solver|eauto].
        -- intros Ht. split; [done|]. intros q [->|Hq]%elem_of_cons; [naive_solver|by apply H3].
  - destruct m as [c|]; simpl.
    + intros (t & H1 & _ & H3). destruct H3 as [_ H3]; [rewrite (H1 c); eauto|].
      apply (H3 p); [left|naive_solver].
    + rewrite orb_true_r. split; intros (t & H1 & H2 & H3); exists None.
      * split_and!; [done| |by intros []].
        intros q x Hq Hqs. specialize (H2 q x ltac:(by right) Hqs). subst.
        destruct H3 as [_ H3]; [eauto|]. destruct (H3 p ltac:(left)). naive_solver.
      * assert (t = None) as ->.
        { destruct t; [|done]. by destruct H3 as [? _]; [eauto|]. }
        split_and!; [done| |by intros []]. intros q x [->|Hq]%elem_of_cons; [congruence|eauto].
Qed.

Definition check_wf (st : ScopeCheck) : Prop :=
  is_Some (matched_strict_scope st) → saw_unscoped_path st = false.

Lemma validate_path_wf policies st st' p :
  check_wf st → validate_path policies None st p = Ok st' → check_wf st'.
Proof.
  unfold check_wf, validate_path. destruct st as [m u]. simpl. intros Hwf.
  destruct (policy_for_path policies (path p)) as [[s pol]|].
  - case_bool_decide; [by intros [= <-]|]. destruct u; simpl; [done|].
    destruct m; [case_bool_decide; by intros [= <-]|]. by intros [= <-].
  - destruct m; simpl; [done|]. intros [= <-]. by intros [].
Qed.

Lemma validate_free policies ps st :
  check_wf st →
  is_ok (validate_paths policies None st ps) = true ↔
  one_scope policies (matched_strict_scope st) (saw_unscoped_path st) ps.
Proof.
  revert st. induction ps as [|p ps IH]; intros st Hwf; cbn [validate_paths].
  - split; [|done]. intros _. exists (matched_strict_scope st). split_and!; [done| |].
    + intros p s Hp. by apply not_elem_of_nil in Hp.
    + intros Hm. split; [by apply Hwf|]. intros p Hp. by apply not_elem_of_nil in Hp.
  - pose proof (one_scope_cons policies st p ps) as Hp.
    destruct (validate_path policies None st p) as [st'|e] eqn:E; [|naive_solver].
    rewrite IH, Hp by (by eapply validate_path_wf). done.
Qed.

(** * Theorems *)

(** Two paths overlap exactly when one of them is the other or lies below it
on a segment boundary; overlap is what wakes a watcher, and it is the symmetric
closure of the root test the scope rules use. *)
Lemma path_overlaps_spec left right :
  path_overlaps left right = true ↔
  node_matches_root left right = true ∨ node_matches_root right left = true.
Proof.
  unfold path_overlaps.
  rewrite !orb_true_iff, bool_decide_eq_true, !strictly_below_spec, !node_matches_root_spec.
  naive_solver.
Qed.

(** The most specific scope governs.  The policy found for a path is one
whose scope contains the path, every other scope that contains the path
contains that scope too, and none is found only when no scope contains it. *)
Lemma policy_most_specific policies p :
  match policy_for_path policies p with
  | None => ∀ s pol, policies !! s = Some pol → node_matches_root p s = false
  | Some (s, pol) =>
      policies !! s = Some pol ∧ node_matches_root p s = true ∧
      ∀ s' pol', policies !! s' = Some pol' → node_matches_root p s' = true →
        node_matches_root s s' = true
  end.
Proof.
  unfold policy_for_path. case_decide as Hempty.
  { intros s pol. by rewrite Hempty, lookup_empty. }
  unfold max_by_key. set (l := filter _ (btree_list policies)).
  pose proof (max_by_key_from (λ sp : string * ScopePolicy, String.length sp.1) l None) as H.
  destruct (foldl _ None l) as [[s pol]|].
  - destruct H as ([H|Hin] & _ & Hmax); [done|].
    apply list_elem_of_filter in Hin as [Hm Hin]. apply elem_of_btree_list in Hin.
    split_and!; [done..|]. intros s' pol' Hs' Hm'. eapply matching_scopes_nested; [done..|].
    apply (Hmax (s', pol')). apply list_elem_of_filter. split; [done|]. by apply elem_of_btree_list.
  - destruct H as [_ Hl]. intros s pol Hs. apply not_true_iff_false. intros Hm.
    assert ((s, pol) ∈ l) as Hin; [|rewrite Hl in Hin; by apply not_elem_of_nil in Hin].
    apply list_elem_of_filter. split; [done|]. by apply elem_of_btree_list.
Qed.

(** Scoping confines.  Every path of a scoped transaction step lies inside
the scope, whatever path the caller gave, and scoping twice changes nothing. *)
Lemma scoped_step_confined scope step :
  let p := transaction_step_path (scope_transaction_step scope step) in
  node_matches_root (path p) scope = true ∧
  scope_transaction_step scope (scope_transaction_step scope step) = scope_transaction_step scope step.
Proof.
  assert (∀ q, node_matches_root (path (scope_remote_path scope q)) scope = true ∧
    scope_remote_path scope (scope_remote_path scope q) = scope_remote_path scope q) as H.
  { intros [a segs]. unfold scope_remote_path, scoped_anchor_segments. simpl.
    case_bool_decide as Ha; [|destruct (node_matches_root a scope) eqn:Hm];
      (split; [apply path_matches; by rewrite ?node_matches_refl|]); simpl.
    - case_bool_decide; [done|]. by rewrite node_matches_refl.
    - rewrite bool_decide_eq_false_2 by done. by rewrite Hm.
    - case_bool_decide; [done|]. by rewrite node_matches_refl. }
  destruct step; simpl; split; try apply H; f_equal; apply H.
Qed.

(** What [validate_transaction_scopes] accepts.  Under a required scope,
every path lies in it and no path is governed by another strict scope; without
one, all strictly governed paths share a single scope and no ungoverned path is
mixed with them.  Everything else is rejected, in whatever order the steps come. *)
Lemma validate_transaction_scopes_spec policies required steps :
  let ps := transaction_step_path <$> steps in
  validate_transaction_scopes policies required steps = Ok tt ↔
  match required with
  | Some r => ∀ p, p ∈ ps → node_matches_root (path p) r = true ∧
                ∀ s, strict_scope policies p = Some s → s = r
  | None => ∃ target : option string,
      (∀ p s, p ∈ ps → strict_scope policies p = Some s → target = Some s) ∧
      (is_Some target → ∀ p, p ∈ ps → ¬ unscoped policies p)
  end.
Proof.
  intros ps. unfold validate_transaction_scopes. fold ps.
  assert (∀ r : result ScopeCheck,
    match r with Ok _ => Ok tt | Err e => Err e end = Ok tt ↔ is_ok r = true) as ->.
  { by intros []. }
  destruct required as [r|].
  - rewrite validate_required by done. apply Forall_forall.
  - rewrite validate_free by (by intros []). unfold one_scope. simpl. apply exist_proper. naive_solver.
Qed.

