(* ===== verification/Records.v ===== *)
(** Records: keyed values stored in graph nodes ([src/src/record.rs], the record
helpers of [src/src/engine.rs]), the in-memory overlay that hides unflushed
changes over storage, and range scans with cursors ([src/src/db.rs]). *)
From stdpp Require Import base gmap sets list strings sorting.
From Stdlib Require Import ZArith Lia.
From S2P Require Import Prelude Clock Value Crdt.

(** * Scans *)

Record RecordScan := mkScan {
  prefix : option string;
  start_at : option string;
  start_after : option string;
  end_at : option string;
  end_before : option string;
  reverse_ : bool;
  limit : option nat;
  cursor : option string
}.

#[global] Instance RecordScan_eq_dec : EqDecision RecordScan.
Proof. solve_decision. Defined.

Definition scan_default : RecordScan := mkScan None None None None None false None None.

(** [RecordScan::matches_key]: each test of the source, in its order. *)
Definition matches_key (scan : RecordScan) (key : string) : bool :=
  if (match prefix scan with Some p => negb (starts_with key p) | None => false end) then false
  else if (match cursor scan with
           | Some c => if reverse_ scan then leb c key else leb key c
           | None => false end) then false
  else if (match start_at scan with Some s => ltb key s | None => false end) then false
  else if (match start_after scan with Some s => leb key s | None => false end) then false
  else if (match end_at scan with Some e => ltb e key | None => false end) then false
  else if (match end_before scan with Some e => leb e key | None => false end) then false
  else true.

Definition with_cursor (scan : RecordScan) (c : option string) : RecordScan :=
  mkScan (prefix scan) (start_at scan) (start_after scan) (end_at scan) (end_before scan)
    (reverse_ scan) (limit scan) c.

Definition with_limit (scan : RecordScan) (l : option nat) : RecordScan :=
  mkScan (prefix scan) (start_at scan) (start_after scan) (end_at scan) (end_before scan)
    (reverse_ scan) l (cursor scan).

(** * Records in nodes *)

Definition record_prefix : string := "__primadb_records/".

Definition is_record_node_id (node_id : string) : bool := starts_with node_id record_prefix.

(** [record_node_id]; [blake3_hex] is the hash, from outside the repository. *)
Definition record_node_id (blake3_hex : string → string) (key : string) : string :=
  record_prefix +:+ blake3_hex key.

Definition record_key_from_node_state (state : NodeState) : option string :=
  match fields state !! "key" with
  | Some (mkField (FScalar (JString key)) _) => Some key
  | _ => None
  end.

Definition record_entry_from_node_state (state : NodeState) : option RecordEntry :=
  match record_key_from_node_state state with
  | None => None
  | Some key =>
      match fields state !! "value" with
      | None => None
      | Some f =>
          match value f with
          | FScalar v => Some (mkRecordEntry key (RJson v))
          | FBytes b => Some (mkRecordEntry key (RBytes b))
          | FBlob r => Some (mkRecordEntry key (RBlob r))
          | FLink _ | FSet _ => None
          end
      end
  end.

(** * The overlay *)

(** [record_overlay] and [record_overlay_node_keys]. *)
Record Overlay := mkOverlay {
  overlay_entries : gmap string (option RecordEntry);
  overlay_node_keys : gmap string string
}.

Definition overlay_empty : Overlay := mkOverlay ∅ ∅.

(** [Inner::refresh_record_overlay]. *)
Definition refresh_record_overlay (nodes : gmap string NodeState) (o : Overlay) (node_id : string)
    : Overlay :=
  if is_record_node_id node_id then
    let o :=
      match overlay_node_keys o !! node_id with
      | Some previous_key =>
          mkOverlay (delete previous_key (overlay_entries o)) (delete node_id (overlay_node_keys o))
      | None => o
      end in
    match nodes !! node_id with
    | None => o
    | Some state =>
        match record_key_from_node_state state with
        | None => o
        | Some key =>
            mkOverlay (<[key := record_entry_from_node_state state]> (overlay_entries o))
                      (<[node_id := key]> (overlay_node_keys o))
        end
    end
  else o.

(** [Inner::rebuild_record_overlay]. *)
Definition rebuild_record_overlay (nodes : gmap string NodeState) : Overlay :=
  foldl (refresh_record_overlay nodes) overlay_empty
    (filter (λ n, is_record_node_id n = true) (btree_keys nodes)).

(** [Inner::clear_flushed_record_overlay]: the nodes of the flushed transaction. *)
Definition clear_flushed (nodes : gmap string NodeState) (o : Overlay) (p : string * NodeState)
    : Overlay :=
  if negb (is_record_node_id p.1) || negb (bool_decide (nodes !! p.1 = Some p.2)) then o
  else
    match overlay_node_keys o !! p.1 with
    | None => o
    | Some key =>
        mkOverlay (delete key (overlay_entries o)) (delete p.1 (overlay_node_keys o))
    end.

Definition clear_flushed_record_overlay (nodes : gmap string NodeState) (o : Overlay)
    (flushed : gmap string NodeState) : Overlay :=
  foldl (clear_flushed nodes) o (btree_list flushed).

(** * Scanning *)

(** The map [entries] of [collect_record_entries_for_scan_page] after its two loops. *)
Definition page_insert (scan : RecordScan) (m : gmap string RecordEntry) (e : RecordEntry)
    : gmap string RecordEntry :=
  if matches_key scan (entry_key e) then <[entry_key e := e]> m else m.

Definition page_overlay (scan : RecordScan) (m : gmap string RecordEntry)
    (p : string * option RecordEntry) : gmap string RecordEntry :=
  if matches_key scan p.1 then
    match p.2 with
    | Some e => <[entry_key e := e]> m
    | None => delete p.1 m
    end
  else m.

Definition page_map (overlay : gmap string (option RecordEntry)) (scan : RecordScan)
    (storage_entries : option (list RecordEntry)) : gmap string RecordEntry :=
  foldl (page_overlay scan)
    (foldl (page_insert scan) ∅ (default [] storage_entries)) (btree_list overlay).

(** [collect_record_entries_for_scan_page]. *)
Definition collect_record_entries_for_scan_page (overlay : gmap string (option RecordEntry))
    (scan : RecordScan) (storage_entries : option (list RecordEntry)) : list RecordEntry :=
  (btree_list (page_map overlay scan storage_entries)).*2.

(** What a scan asks of an [IncrementalStore]. *)
Abbreviation record_source := (RecordScan → result (option (list RecordEntry))).

(** The [loop] of [collect_record_entries_for_scan].  Each iteration that goes on
has fetched a full page past the cursor, so the number of stored records bounds
the iterations; [fuel] stands for it. *)
Fixpoint collect_pages (fuel : nat) (overlay : gmap string (option RecordEntry)) (scan : RecordScan)
    (source : record_source) (lim page_limit : nat) (page_scan : RecordScan)
    (storage_entries : list RecordEntry) : option (result (list RecordEntry)) :=
  match fuel with
  | O => None
  | S fuel =>
      match source page_scan with
      | Err e => Some (Err e)
      | Ok page =>
          let page_is_short := match page with Some l => length l <? page_limit | None => true end in
          let last_key := match page with Some l => entry_key <$> last l | None => None end in
          let storage_entries := storage_entries ++ default [] page in
          let merged := collect_record_entries_for_scan_page overlay scan (Some storage_entries) in
          match last_key with
          | None => Some (Ok merged)
          | Some key =>
              if (lim <? length merged) || page_is_short then Some (Ok merged)
              else collect_pages fuel overlay scan source lim page_limit
                     (with_cursor page_scan (Some key)) storage_entries
          end
      end
  end.

(** [limit.saturating_add(1).max(1)]; [usize] has 64 bits. *)
Definition page_limit_of (lim : nat) : nat :=
  max (Z.to_nat (sat_add u64_max (Z.of_nat lim) 1)) 1.

(** [collect_record_entries_for_scan]. *)
Definition collect_record_entries_for_scan (fuel : nat) (overlay : gmap string (option RecordEntry))
    (scan : RecordScan) (engine : option record_source) : option (result (list RecordEntry)) :=
  match engine with
  | None => Some (Ok (collect_record_entries_for_scan_page overlay scan None))
  | Some source =>
      match limit scan with
      | None =>
          match source scan with
          | Err e => Some (Err e)
          | Ok page => Some (Ok (collect_record_entries_for_scan_page overlay scan page))
          end
      | Some lim =>
          collect_pages fuel overlay scan source lim (page_limit_of lim)
            (with_limit scan (Some (page_limit_of lim))) []
      end
  end.

Record RecordScanResult := mkScanResult {
  scan_entries : list RecordEntry;
  next_cursor : option string
}.

(** [sort_by(|left, right| left.key.cmp(&right.key))], which is stable. *)
Definition entry_le (x y : RecordEntry) : Prop := String.le (entry_key x) (entry_key y).

#[global] Instance entry_le_dec : RelDecision entry_le.
Proof. intros x y. unfold entry_le. apply _. Defined.

(** [record_scan_result]. *)
Definition record_scan_result (entries : list RecordEntry) (scan : RecordScan) : RecordScanResult :=
  let entries := merge_sort entry_le entries in
  let entries := if reverse_ scan then reverse entries else entries in
  match limit scan with
  | Some lim =>
      if lim <? length entries then
        let kept := take lim entries in
        let overflow := drop lim entries in
        mkScanResult kept
          (match last kept with
           | Some e => Some (entry_key e)
           | None => entry_key <$> head overflow
           end)
      else mkScanResult entries None
  | None => mkScanResult entries None
  end.

(** * Order of a page *)

Lemma string_le_ole a b : String.le a b ↔ ole a b.
Proof. unfold String.le, ole, String.leb. simpl. destruct (String.compare a b); naive_solver. Qed.

(** The direction of a scan, as a strict order on keys. *)
Definition dir_lt (rev : bool) (a b : string) : Prop := if rev then olt b a else olt a b.

Definition in_order (rev : bool) (l : list RecordEntry) : Prop :=
  StronglySorted (λ x y, dir_lt rev (entry_key x) (entry_key y)) l.

(** The ordered entries of [record_scan_result], before truncation. *)
Definition arranged (rev : bool) (entries : list RecordEntry) : list RecordEntry :=
  let entries := merge_sort entry_le entries in if rev then reverse entries else entries.

#[global] Instance entry_le_trans : Transitive entry_le.
Proof. intros x y z. unfold entry_le. apply (transitivity (R := String.le)). Qed.

#[global] Instance entry_le_total : Total entry_le.
Proof. intros x y. unfold entry_le. apply (total String.le). Qed.

Lemma arranged_perm rev es : arranged rev es ≡ₚ es.
Proof. unfold arranged. destruct rev; rewrite ?reverse_Permutation; apply merge_sort_Permutation. Qed.

Lemma strongly_strict {A} (R R' : relation A) (key : A → string) l :
  (∀ x y, R x y → key x ≠ key y → R' x y) →
  NoDup (key <$> l) → StronglySorted R l → StronglySorted R' l.
Proof.
  intros HR Hnd Hl. induction Hl as [|x l Hl IH Hx]; [constructor|].
  rewrite fmap_cons in Hnd. apply NoDup_cons in Hnd as [Hn Hnd].
  constructor; [auto|]. rewrite Forall_forall in *. intros y Hy. apply HR; [auto|].
  intros E. apply Hn. rewrite E. by apply list_elem_of_fmap_2.
Qed.

Lemma arranged_in_order rev es : NoDup (entry_key <$> es) → in_order rev (arranged rev es).
Proof.
  intros Hnd. assert (NoDup (entry_key <$> arranged rev es)) as Hnd' by (by rewrite arranged_perm).
  unfold in_order. unfold arranged in *. destruct rev; simpl.
  - eapply (strongly_strict (flip entry_le) _ entry_key); [|done|].
    + unfold flip, entry_le. intros x y Hle%string_le_ole Hne. apply ole_iff in Hle as [?|?]; [done|congruence].
    + apply Sorted_StronglySorted; [intros x y z; unfold flip; intros; by etrans|].
      apply Sorted_reverse, Sorted_merge_sort. apply _.
  - eapply (strongly_strict entry_le _ entry_key); [|done|].
    + unfold entry_le. intros x y Hle%string_le_ole Hne. apply ole_iff in Hle as [?|?]; [done|congruence].
    + apply StronglySorted_merge_sort; apply _.
Qed.

Lemma dir_lt_irrefl rev a : ¬ dir_lt rev a a.
Proof. unfold dir_lt. destruct rev; intros ?; ord. Qed.

Lemma dir_lt_asym rev a b : dir_lt rev a b → dir_lt rev b a → False.
Proof. unfold dir_lt. destruct rev; intros; ord. Qed.

(** Two pages in the same order with the same entries are equal. *)
Lemma in_order_unique rev l1 l2 :
  in_order rev l1 → in_order rev l2 → (∀ e, e ∈ l1 ↔ e ∈ l2) → l1 = l2.
Proof.
  intros H1 H2 Heq.
  assert (∀ l, in_order rev l → NoDup l) as Hnd.
  { intros l Hl. induction Hl as [|x l Hl IH Hx]; [constructor|]. constructor; [|done].
    intros Hin. rewrite Forall_forall in Hx. by apply (dir_lt_irrefl rev (entry_key x)), (Hx x). }
  eapply StronglySorted_unique_strong; [|done|done|by apply NoDup_Permutation; auto].
  intros x y _ _ Hxy Hyx. exfalso. exact (dir_lt_asym _ _ _ Hxy Hyx).
Qed.

(** In an ordered page, what lies beyond an entry is what follows it. *)
Lemma in_order_beyond rev l i x :
  in_order rev l → l !! i = Some x →
  ∀ e, e ∈ drop (S i) l ↔ e ∈ l ∧ dir_lt rev (entry_key x) (entry_key e).
Proof.
  intros Hl. revert i. induction Hl as [|y l Hl IH Hy]; intros i Hi e; [done|].
  rewrite Forall_forall in Hy. destruct i as [|i]; simpl in Hi.
  - simplify_eq. simpl. rewrite drop_0, elem_of_cons. split; [intros; split; [by right|by apply Hy]|].
    intros [[->|?] Hlt]; [by apply dir_lt_irrefl in Hlt|done].
  - simpl. rewrite (IH i Hi), elem_of_cons. split; [naive_solver|].
    intros [[->|?] Hlt]; [|done]. exfalso. eapply dir_lt_asym; [done|].
    apply Hy. by eapply list_elem_of_lookup_2.
Qed.

Lemma in_order_drop rev l n : in_order rev l → in_order rev (drop n l).
Proof. unfold in_order. intros Hl. rewrite <-(take_drop n l) in Hl. by eapply StronglySorted_app_1_r. Qed.

(** * Keys and cursors *)

Definition beyond (scan : RecordScan) (c key : string) : bool :=
  if reverse_ scan then ltb key c else ltb c key.

Lemma beyond_dir scan c key : beyond scan c key = true ↔ dir_lt (reverse_ scan) c key.
Proof. unfold beyond, dir_lt. destruct (reverse_ scan); apply ltb_olt. Qed.

Lemma leb_negb (a b : string) : leb a b = negb (ltb b a).
Proof. destruct (leb a b) eqn:E, (ltb b a) eqn:E'; try done; exfalso; ord. Qed.

(** The cursor test is independent of the others. *)
Lemma matches_split scan key :
  matches_key scan key =
  match cursor scan with Some c => beyond scan c key | None => true end
  && matches_key (with_cursor scan None) key.
Proof.
  unfold matches_key, beyond, with_cursor. cbn [prefix cursor start_at start_after end_at end_before reverse_].
  destruct (match prefix scan with Some _ => _ | None => _ end); [by rewrite andb_false_r|].
  destruct (cursor scan) as [c|]; [|done].
  rewrite !(leb_negb c key), !(leb_negb key c).
  destruct (reverse_ scan); [destruct (ltb key c)|destruct (ltb c key)]; done.
Qed.

Lemma beyond_trans scan a b c : beyond scan a b = true → beyond scan b c = true → beyond scan a c = true.
Proof. rewrite !beyond_dir. unfold dir_lt. destruct (reverse_ scan); intros; ord. Qed.

(** Moving the cursor to a matching key keeps exactly the matching keys beyond it. *)
Lemma matches_with_cursor scan c key :
  matches_key scan c = true →
  matches_key (with_cursor scan (Some c)) key = matches_key scan key && beyond scan c key.
Proof.
  rewrite (matches_split scan c), (matches_split scan key), (matches_split (with_cursor scan (Some c)) key).
  change (with_cursor (with_cursor scan (Some c)) None) with (with_cursor scan None).
  rewrite andb_true_iff. intros [Hc _]. cbn [cursor with_cursor].
  change (beyond (with_cursor scan (Some c)) c key) with (beyond scan c key).
  destruct (beyond scan c key) eqn:Hb; [|by rewrite !andb_false_r]. rewrite andb_true_r.
  destruct (cursor scan) as [old|]; [|done].
  by rewrite (beyond_trans scan old c key Hc Hb).
Qed.

(** * The merged view of a page *)

(** An overlay entry is filed under its own key. *)
Definition overlay_keyed (overlay : gmap string (option RecordEntry)) : Prop :=
  ∀ k e, overlay !! k = Some (Some e) → entry_key e = k.

Lemma page_overlay_lookup scan l m k :
  NoDup l.*1 → (∀ k e, (k, Some e) ∈ l → entry_key e = k) →
  foldl (page_overlay scan) m l !! k =
  match list_to_map (M := gmap string _) l !! k with
  | Some oe => if matches_key scan k then oe else m !! k
  | None => m !! k
  end.
Proof.
  revert m. induction l as [|[k' oe] l IH]; intros m Hnd Hkey; [done|].
  apply NoDup_cons in Hnd as [Hn Hnd]. cbn [foldl].
  rewrite IH; [|done|intros; apply Hkey; by right].
  change (list_to_map ((k', oe) :: l)) with (<[k' := oe]> (list_to_map l : gmap string (option RecordEntry))).
  assert (∀ e, oe = Some e → entry_key e = k') as Hoe by (intros e ->; apply Hkey; left).
  unfold page_overlay. simpl. destruct (decide (k' = k)) as [->|Hne].
  - rewrite lookup_insert_eq, not_elem_of_list_to_map_1 by done.
    destruct (matches_key scan k); [|done]. destruct oe as [e|]; [|apply lookup_delete_eq].
    rewrite (Hoe e eq_refl). apply lookup_insert_eq.
  - rewrite (lookup_insert_ne _ k' k) by done. destruct (matches_key scan k'); [|done].
    destruct oe as [e|]; [rewrite (Hoe e eq_refl), lookup_insert_ne by done|rewrite lookup_delete_ne by done]; done.
Qed.

Lemma page_map_lookup overlay scan storage k :
  overlay_keyed overlay →
  page_map overlay scan storage !! k =
  match overlay !! k with
  | Some oe => if matches_key scan k then oe else foldl (page_insert scan) ∅ (default [] storage) !! k
  | None => foldl (page_insert scan) ∅ (default [] storage) !! k
  end.
Proof.
  intros Hkey. unfold page_map. rewrite page_overlay_lookup.
  - by rewrite btree_list_to_map.
  - apply btree_keys_NoDup.
  - intros k' e Hin. apply elem_of_btree_list in Hin. by apply Hkey.
Qed.

(** * Reading a range page by page *)

(** [Primadb::scan_records]. *)
Definition scan_records (fuel : nat) (overlay : gmap string (option RecordEntry)) (scan : RecordScan)
    (engine : option record_source) : option (result RecordScanResult) :=
  match collect_record_entries_for_scan fuel overlay scan engine with
  | Some (Ok entries) => Some (Ok (record_scan_result entries scan))
  | Some (Err e) => Some (Err e)
  | None => None
  end.

(** A client reading on with [next_cursor] until there is none, on a database
without storage; [None] when [pages] runs out. *)
Fixpoint read_all (pages : nat) (overlay : gmap string (option RecordEntry)) (scan : RecordScan)
    : option (list RecordEntry) :=
  match pages with
  | O => None
  | S pages =>
      match scan_records 0 overlay scan None with
      | Some (Ok r) =>
          match next_cursor r with
          | None => Some (scan_entries r)
          | Some c => (scan_entries r ++.) <$> read_all pages overlay (with_cursor scan (Some c))
          end
      | _ => None
      end
  end.

Definition map_keyed (m : gmap string RecordEntry) : Prop := ∀ k e, m !! k = Some e → entry_key e = k.

Lemma page_map_keyed overlay scan storage :
  overlay_keyed overlay → map_keyed (page_map overlay scan storage).
Proof.
  intros Hkey k e. rewrite page_map_lookup by done.
  assert (∀ l m, map_keyed m → map_keyed (foldl (page_insert scan) m l)) as Hins.
  { induction l as [|a l IH]; intros m Hm; [done|]. apply IH. unfold page_insert.
    destruct (matches_key scan (entry_key a)); [|done].
    intros k' e'. rewrite lookup_insert_Some. intros [[<- <-]|[_ ?]]; [done|by apply Hm]. }
  destruct (overlay !! k) as [oe|] eqn:E; [destruct (matches_key scan k)|]; try by apply Hins.
  intros ->. by apply Hkey.
Qed.

Lemma map_values_keys m : map_keyed m → entry_key <$> (btree_list m).*2 = btree_keys m.
Proof.
  intros Hm. unfold btree_keys. rewrite <-list_fmap_compose. apply list_fmap_ext.
  intros i [k e] Hi. simpl. apply Hm, elem_of_btree_list. by eapply list_elem_of_lookup_2.
Qed.

Lemma elem_of_map_values m e : map_keyed m → e ∈ (btree_list m).*2 ↔ m !! entry_key e = Some e.
Proof.
  intros Hm. rewrite list_elem_of_fmap. split.
  - intros ([k e'] & -> & Hin). apply elem_of_btree_list in Hin. simpl. by rewrite (Hm k e').
  - intros He. exists (entry_key e, e). split; [done|]. by apply elem_of_btree_list.
Qed.

(** The entries of a local page, in scan order, before truncation. *)
Definition local_list (overlay : gmap string (option RecordEntry)) (scan : RecordScan)
    : list RecordEntry :=
  arranged (reverse_ scan) (collect_record_entries_for_scan_page overlay scan None).

Lemma local_list_spec overlay scan :
  overlay_keyed overlay →
  in_order (reverse_ scan) (local_list overlay scan) ∧
  ∀ e, e ∈ local_list overlay scan ↔
    overlay !! entry_key e = Some (Some e) ∧ matches_key scan (entry_key e) = true.
Proof.
  intros Hkey. pose proof (page_map_keyed overlay scan None Hkey) as Hm. split.
  - apply arranged_in_order. unfold collect_record_entries_for_scan_page.
    rewrite map_values_keys by done. apply btree_keys_NoDup.
  - intros e. unfold local_list. rewrite arranged_perm.
    unfold collect_record_entries_for_scan_page. rewrite elem_of_map_values by done.
    rewrite page_map_lookup by done. simpl. rewrite lookup_empty.
    destruct (overlay !! entry_key e) as [oe|]; [|naive_solver].
    destruct (matches_key scan (entry_key e)); naive_solver.
Qed.

Lemma record_scan_result_arranged es scan :
  record_scan_result es scan =
  match limit scan with
  | Some lim =>
      let l := arranged (reverse_ scan) es in
      if lim <? length l
      then mkScanResult (take lim l)
             (match last (take lim l) with
              | Some e => Some (entry_key e) | None => entry_key <$> head (drop lim l) end)
      else mkScanResult l None
  | None => mkScanResult (arranged (reverse_ scan) es) None
  end.
Proof. done. Qed.

(** The next page starts where the last one stopped. *)
Lemma local_list_continue overlay scan i x :
  overlay_keyed overlay → local_list overlay scan !! i = Some x →
  local_list overlay (with_cursor scan (Some (entry_key x))) = drop (S i) (local_list overlay scan).
Proof.
  intros Hkey Hi. destruct (local_list_spec overlay scan Hkey) as [Hord Helem].
  destruct (local_list_spec overlay (with_cursor scan (Some (entry_key x))) Hkey) as [Hord' Helem'].
  apply (in_order_unique (reverse_ scan)); [done|by apply in_order_drop|].
  assert (x ∈ local_list overlay scan) as [_ Hx]%Helem by (by eapply list_elem_of_lookup_2).
  intros e. rewrite Helem', (in_order_beyond _ _ _ _ Hord Hi), Helem, matches_with_cursor by done.
  rewrite andb_true_iff, beyond_dir. naive_solver.
Qed.

Lemma last_take {A} (l : list A) n : S n < length l → last (take (S n) l) = l !! n.
Proof.
  intros Hn. rewrite last_lookup, length_take, lookup_take_lt by lia. f_equal. lia.
Qed.

Lemma read_all_local n overlay scan lim pages :
  overlay_keyed overlay → limit scan = Some (S lim) →
  length (local_list overlay scan) ≤ n → n ≤ pages →
  read_all (S pages) overlay scan = Some (local_list overlay scan).
Proof.
  intros Hkey. revert scan pages. induction n as [n IH] using lt_wf_ind. intros scan pages Hlim Hlen Hn.
  cbn [read_all]. unfold scan_records. cbn [collect_record_entries_for_scan].
  rewrite record_scan_result_arranged, Hlim. fold (local_list overlay scan). cbv zeta.
  destruct (Nat.ltb_spec (S lim) (length (local_list overlay scan))) as [Hlt|Hge]; [|done].
  rewrite last_take by done.
  destruct (lookup_lt_is_Some_2 (local_list overlay scan) lim) as [x Hx]; [lia|]. rewrite Hx.
  cbn [next_cursor scan_entries].
  destruct pages as [|pages]; [lia|].
  pose proof (local_list_continue overlay scan lim x Hkey Hx) as Hnext.
  rewrite (IH (n - S lim)); [|lia|done| |lia].
  - simpl. f_equal. rewrite Hnext. apply take_drop.
  - rewrite Hnext, length_drop. lia.
Qed.

(** * Scans over storage *)

(** The entries of a stored record map that a scan selects, in scan order. *)
Definition selected (stored : gmap string RecordEntry) (scan : RecordScan) : list RecordEntry :=
  arranged (reverse_ scan)
    ((btree_list (filter (λ p, matches_key scan p.1 = true) stored)).*2).

(** What [IncrementalStore::scan_record_entries] promises: the selected records
in scan order, up to the limit. *)
Class RecordStore (source : record_source) := {
  stored : gmap string RecordEntry;
  stored_keyed : map_keyed stored;
  source_spec : ∀ scan, source scan = Ok (Some
    match limit scan with Some n => take n (selected stored scan) | None => selected stored scan end)
}.

Lemma selected_keyed m scan :
  map_keyed m → map_keyed (filter (λ p, matches_key scan p.1 = true) m).
Proof. intros Hm k e [He _]%map_lookup_filter_Some. by apply Hm. Qed.

Lemma selected_spec m scan :
  map_keyed m →
  in_order (reverse_ scan) (selected m scan) ∧
  ∀ e, e ∈ selected m scan ↔ m !! entry_key e = Some e ∧ matches_key scan (entry_key e) = true.
Proof.
  intros Hm. pose proof (selected_keyed m scan Hm) as Hm'. split.
  - apply arranged_in_order. rewrite map_values_keys by done. apply btree_keys_NoDup.
  - intros e. unfold selected. rewrite arranged_perm, elem_of_map_values by done.
    by rewrite map_lookup_filter_Some.
Qed.

Lemma selected_continue m scan i x :
  map_keyed m → selected m scan !! i = Some x →
  selected m (with_cursor scan (Some (entry_key x))) = drop (S i) (selected m scan).
Proof.
  intros Hm Hi. destruct (selected_spec m scan Hm) as [Hord Helem].
  destruct (selected_spec m (with_cursor scan (Some (entry_key x))) Hm) as [Hord' Helem'].
  apply (in_order_unique (reverse_ scan)); [done|by apply in_order_drop|].
  assert (x ∈ selected m scan) as [_ Hx]%Helem by (by eapply list_elem_of_lookup_2).
  intros e. rewrite Helem', (in_order_beyond _ _ _ _ Hord Hi), Helem, matches_with_cursor by done.
  rewrite andb_true_iff, beyond_dir. naive_solver.
Qed.

Lemma selected_length m scan : length (selected m scan) ≤ size m.
Proof.
  unfold selected. rewrite arranged_perm, length_fmap, btree_list_perm, length_map_to_list. apply map_size_filter.
Qed.

(** The loop reads a prefix of the selected records, to the end or past the limit. *)
Lemma collect_pages_prefix (source : record_source) `{!RecordStore source} overlay scan lim pl fuel page_scan j :
  let L := selected stored scan in
  limit page_scan = Some (S pl) → selected stored page_scan = drop j L → length (drop j L) < fuel →
  ∃ k, let page := collect_record_entries_for_scan_page overlay scan (Some (take k L)) in
    collect_pages fuel overlay scan source lim (S pl) page_scan (take j L) = Some (Ok page) ∧
    (length L ≤ k ∨ lim < length page).
Proof.
  intros L. revert page_scan j. induction fuel as [|fuel IH]; intros page_scan j Hlim Hsel Hf; [lia|].
  cbn [collect_pages]. rewrite source_spec, Hlim, Hsel. cbv beta zeta iota delta [default from_option].
  unfold Datatypes.id. rewrite !take_take_drop. rewrite length_drop in Hf.
  destruct (last (take (S pl) (drop j L))) as [e|] eqn:Hlast; simpl.
  - destruct (lim <? _) eqn:Hm; [exists (j + S pl); apply Nat.ltb_lt in Hm; by auto|].
    destruct (length (take _ _) <? _) eqn:Hs; simpl.
    + exists (j + S pl). split; [done|]. left. apply Nat.ltb_lt in Hs. rewrite length_take, length_drop in Hs. lia.
    + apply Nat.ltb_ge in Hs. rewrite length_take, length_drop in Hs.
      assert (drop j L !! pl = Some e) as He.
      { rewrite <-Hlast, last_lookup, length_take, length_drop, lookup_take_lt by lia. f_equal. lia. }
      apply IH; [done| |rewrite length_drop; lia].
      rewrite <-Hsel in He. rewrite (selected_continue _ _ _ _ stored_keyed He), Hsel, drop_drop. done.
  - exists j. apply last_None in Hlast. apply (f_equal length) in Hlast. rewrite length_take, length_drop in Hlast.
    cbn [length] in Hlast. rewrite !take_ge by lia. split; [done|]. left. lia.
Qed.

(** Down to a key, inclusive. *)
Definition upto (rev : bool) (p : string) (e : RecordEntry) : Prop :=
  ¬ dir_lt rev p (entry_key e).

#[global] Instance dir_lt_dec rev a b : Decision (dir_lt rev a b).
Proof. unfold dir_lt, olt. destruct rev; apply _. Defined.

#[global] Instance upto_dec rev p e : Decision (upto rev p e).
Proof. unfold upto. apply _. Defined.

Lemma dir_lt_trans rev a b c : dir_lt rev a b → dir_lt rev b c → dir_lt rev a c.
Proof. unfold dir_lt. destruct rev; intros; ord. Qed.

Lemma in_order_filter rev (P : RecordEntry → Prop) `{∀ x, Decision (P x)} l :
  in_order rev l → in_order rev (filter P l).
Proof.
  intros Hl. induction Hl as [|x l Hl IH Hx]; [constructor|]. rewrite filter_cons.
  case_decide; [|done]. constructor; [done|]. rewrite Forall_forall in *.
  intros y [_ Hy]%list_elem_of_filter. by apply Hx.
Qed.

Lemma in_order_upto rev p l :
  in_order rev l → l = filter (upto rev p) l ++ filter (λ e, ¬ upto rev p e) l.
Proof.
  intros Hl. induction Hl as [|x l Hl IH Hx]; [done|]. rewrite !filter_cons.
  destruct (decide (upto rev p x)) as [Hu|Hu].
  - rewrite decide_False by tauto. simpl. by f_equal.
  - rewrite decide_True by done. rewrite Forall_forall in Hx.
    assert (∀ y, y ∈ l → ¬ upto rev p y) as Hall.
    { intros y Hy Huy. apply Huy. apply Hx in Hy. unfold upto in Hu.
      apply dec_stable in Hu. by eapply dir_lt_trans. }
    assert (filter (upto rev p) l = []) as ->.
    { destruct (filter (upto rev p) l) as [|z r] eqn:E; [done|].
      assert (z ∈ filter (upto rev p) l) as [Hz Hzl]%list_elem_of_filter by (rewrite E; left).
      by apply Hall in Hz. }
    simpl. f_equal. clear IH Hx Hl. induction l as [|y l IH]; [done|].
    rewrite filter_cons, decide_True by (apply Hall; left). f_equal. apply IH. intros z Hz. apply Hall. by right.
Qed.

(** Two ordered pages with the same entries down to a key that [n] of them reach
agree on their first [n] entries. *)
Lemma take_upto rev p n l1 l2 :
  in_order rev l1 → in_order rev l2 →
  (∀ e, upto rev p e → e ∈ l1 ↔ e ∈ l2) → n ≤ length (filter (upto rev p) l1) →
  take n l1 = take n l2 ∧ n ≤ length l1 ∧ n ≤ length l2.
Proof.
  intros H1 H2 Heq Hn.
  assert (filter (upto rev p) l1 = filter (upto rev p) l2) as E.
  { apply (in_order_unique rev); [by apply in_order_filter..|].
    intros e. rewrite !list_elem_of_filter. naive_solver. }
  rewrite (in_order_upto rev p l1), (in_order_upto rev p l2) by done.
  rewrite <-E, !take_app_le, !length_app by lia. split_and!; [done|lia..].
Qed.

(** * Merging a page of storage with the overlay *)

Section merge_page.
Context (overlay : gmap string (option RecordEntry)) (scan : RecordScan).
Hypothesis Hkey : overlay_keyed overlay.

Lemma page_insert_lookup es m k :
  NoDup (entry_key <$> es) → Forall (λ e, matches_key scan (entry_key e) = true) es →
  ∀ e, foldl (page_insert scan) m es !! k = Some e ↔
    (e ∈ es ∧ entry_key e = k) ∨ (k ∉ entry_key <$> es ∧ m !! k = Some e).
Proof.
  revert m. induction es as [|a es IH]; intros m Hnd Hall e.
  { simpl. split; [intros; right; split; [apply not_elem_of_nil|done]|].
    intros [[H _]|[_ ?]]; [by apply not_elem_of_nil in H|done]. }
  rewrite fmap_cons in Hnd. apply NoDup_cons in Hnd as [Hn Hnd]. apply Forall_cons in Hall as [Ha Hall].
  cbn [foldl]. rewrite IH by done. unfold page_insert. rewrite Ha, fmap_cons, !elem_of_cons, lookup_insert_Some.
  split.
  - intros [[? ?]|[Hk [[<- <-]|[Hne ?]]]]; [left; split; [by right|done]|left; split; [by left|done]|].
    right. split; [|done]. intros [?|?]; congruence.
  - intros [[[->|He] <-]|[Hk Hm]].
    + right. split; [done|]. by left.
    + left. done.
    + right. split; [tauto|]. right. split; [|done]. intros <-. tauto.
Qed.

Lemma elem_of_merged es e :
  NoDup (entry_key <$> es) → Forall (λ e, matches_key scan (entry_key e) = true) es →
  e ∈ collect_record_entries_for_scan_page overlay scan (Some es) ↔
  match overlay !! entry_key e with
  | Some oe => matches_key scan (entry_key e) = true ∧ oe = Some e
  | None => e ∈ es
  end.
Proof.
  intros Hnd Hall. unfold collect_record_entries_for_scan_page.
  rewrite elem_of_map_values by (by apply page_map_keyed). rewrite page_map_lookup by done. simpl.
  assert (foldl (page_insert scan) ∅ es !! entry_key e = Some e ↔ e ∈ es) as Hes.
  { rewrite page_insert_lookup by done. rewrite lookup_empty. naive_solver. }
  destruct (overlay !! entry_key e) as [oe|]; [|done].
  destruct (matches_key scan (entry_key e)) eqn:Hm; [naive_solver|].
  rewrite Hes. split; [|naive_solver]. intros He. rewrite Forall_forall in Hall.
  apply Hall in He. congruence.
Qed.

Lemma merged_in_order es :
  in_order (reverse_ scan)
    (arranged (reverse_ scan) (collect_record_entries_for_scan_page overlay scan (Some es))).
Proof.
  apply arranged_in_order. unfold collect_record_entries_for_scan_page.
  rewrite map_values_keys by (by apply page_map_keyed). apply btree_keys_NoDup.
Qed.

(** No matching key is deleted in the overlay. *)
Hypothesis Hlive : ∀ k, matches_key scan k = true → overlay !! k ≠ Some None.

Lemma merged_covers es :
  NoDup (entry_key <$> es) → Forall (λ e, matches_key scan (entry_key e) = true) es →
  ∀ k, k ∈ entry_key <$> es →
    k ∈ entry_key <$> collect_record_entries_for_scan_page overlay scan (Some es).
Proof.
  intros Hnd Hall k Hk. apply list_elem_of_fmap in Hk as (e & -> & He).
  assert (matches_key scan (entry_key e) = true) as Hm by (rewrite Forall_forall in Hall; eauto).
  destruct (overlay !! entry_key e) as [[e'|]|] eqn:E.
  - apply list_elem_of_fmap. exists e'. assert (entry_key e' = entry_key e) as Hk by (by apply Hkey).
    split; [done|]. apply elem_of_merged; [done..|]. by rewrite Hk, E.
  - by destruct (Hlive _ Hm).
  - apply list_elem_of_fmap. exists e. split; [done|]. apply elem_of_merged; [done..|]. by rewrite E.
Qed.

(** A page longer than the limit already determines the answer. *)
Lemma first_page_enough L n x :
  in_order (reverse_ scan) L → Forall (λ e, matches_key scan (entry_key e) = true) L →
  L !! n = Some x →
  let A := arranged (reverse_ scan) (collect_record_entries_for_scan_page overlay scan (Some (take (S n) L))) in
  let B := arranged (reverse_ scan) (collect_record_entries_for_scan_page overlay scan (Some L)) in
  take (S n) A = take (S n) B ∧ S n ≤ length A ∧ S n ≤ length B.
Proof.
  intros Hord Hall Hx A B. set (rev := reverse_ scan) in *.
  assert (∀ l, in_order rev l → NoDup (entry_key <$> l)) as Hkeys.
  { intros l Hl. induction Hl as [|y l Hl IH Hy]; [constructor|]. simpl. constructor; [|done].
    intros (z & Ez & Hz)%list_elem_of_fmap. rewrite Forall_forall in Hy. apply Hy in Hz.
    rewrite Ez in Hz. by apply dir_lt_irrefl in Hz. }
  assert (in_order rev (take (S n) L)) as Hord'.
  { unfold in_order in *. rewrite <-(take_drop (S n) L) in Hord. by eapply StronglySorted_app_1_l. }
  assert (Forall (λ e, matches_key scan (entry_key e) = true) (take (S n) L)) as Hall'.
  { by apply Forall_take. }
  assert (∀ e, e ∈ L → upto rev (entry_key x) e → e ∈ take (S n) L) as Hup.
  { intros e He Hu. rewrite <-(take_drop (S n) L) in He. apply elem_of_app in He as [?|He]; [done|].
    apply (in_order_beyond _ _ _ _ Hord Hx) in He as [_ He]. done. }
  apply (take_upto rev (entry_key x)); [apply merged_in_order..| |].
  - intros e Hu. unfold A, B. rewrite !arranged_perm, !elem_of_merged by auto.
    destruct (overlay !! entry_key e); [done|]. split; [|by auto]. intros He.
    rewrite <-(take_drop (S n) L). apply elem_of_app. by left.
  - assert (S n = length (entry_key <$> take (S n) L)) as ->.
    { rewrite length_fmap, length_take. apply lookup_lt_Some in Hx. lia. }
    rewrite <-(length_fmap entry_key (filter _ A)). apply submseteq_length, NoDup_submseteq; [by apply Hkeys|].
    intros k Hk. pose proof (merged_covers _ (Hkeys _ Hord') Hall' _ Hk) as Hc.
    apply list_elem_of_fmap in Hc as (e & -> & He). apply list_elem_of_fmap_2.
    apply list_elem_of_filter. split; [|unfold A; by rewrite arranged_perm].
    intros Hlt. apply list_elem_of_fmap in Hk as (e' & Ee & He').
    assert (e' ∈ drop (S n) L) as Hd.
    { apply (in_order_beyond _ _ _ _ Hord Hx). split; [|by rewrite <-Ee].
      rewrite <-(take_drop (S n) L). apply elem_of_app. by left. }
    rewrite <-(take_drop (S n) L) in Hord. apply Hkeys in Hord. rewrite fmap_app in Hord.
    apply NoDup_app in Hord as (_ & Hdis & _).
    apply (Hdis (entry_key e')); by apply list_elem_of_fmap_2.
Qed.
End merge_page.

Lemma page_limit_small lim : (Z.of_nat lim < u64_max)%Z → page_limit_of lim = S lim.
Proof. unfold page_limit_of, sat_add. lia. Qed.

Lemma record_scan_result_prefix A B scan lim :
  limit scan = Some lim →
  take (S lim) (arranged (reverse_ scan) A) = take (S lim) (arranged (reverse_ scan) B) →
  S lim ≤ length (arranged (reverse_ scan) A) → S lim ≤ length (arranged (reverse_ scan) B) →
  record_scan_result A scan = record_scan_result B scan.
Proof.
  intros Hlim E HA HB. rewrite !record_scan_result_arranged, Hlim. cbv zeta.
  set (a := arranged _ A) in *. set (b := arranged _ B) in *.
  rewrite !(proj2 (Nat.ltb_lt _ _)) by lia.
  assert (take lim a = take lim b) as ->.
  { replace lim with (min lim (S lim)) by lia. by rewrite <-!take_take, E. }
  assert (head (drop lim a) = head (drop lim b)) as ->; [|done].
  rewrite !head_lookup, !lookup_drop, Nat.add_0_r.
  rewrite <-(lookup_take_lt a (S lim)), E, lookup_take_lt by lia. done.
Qed.

(** * Theorems *)


(** A limited scan over storage with pending insertions and updates in the
overlay returns what a scan of everything returns: the first page of storage is
enough, whatever order and bounds the scan has, as long as no selected record
is deleted in the overlay. *)
Lemma storage_scan_exact (source : record_source) `{!RecordStore source} overlay scan lim fuel :
  overlay_keyed overlay → limit scan = Some lim → (Z.of_nat lim < u64_max)%Z →
  (∀ k, matches_key scan k = true → overlay !! k ≠ Some None) →
  scan_records (S fuel) overlay scan (Some source) =
  Some (Ok (record_scan_result
    (collect_record_entries_for_scan_page overlay scan (Some (selected stored scan))) scan)).
Proof.
  intros Hkey Hlim Hw Hlive. unfold scan_records, collect_record_entries_for_scan.
  rewrite Hlim, page_limit_small by done. cbn [collect_pages]. rewrite source_spec. cbn [limit with_limit].
  change (selected stored (with_limit scan (Some (S lim)))) with (selected stored scan).
  destruct (selected_spec stored scan stored_keyed) as [Hord Helem]. set (L := selected stored scan) in *.
  assert (Forall (λ e, matches_key scan (entry_key e) = true) L) as Hall.
  { apply Forall_forall. intros e He. by apply Helem. }
  rewrite app_nil_l. cbn [default from_option id].
  destruct (L !! lim) as [x|] eqn:Hx.
  - pose proof (first_page_enough overlay scan Hkey Hlive L lim x Hord Hall Hx) as (E & HA & HB).
    destruct (last (take (S lim) L)) as [y|]; simpl; [|by f_equal; f_equal; eapply record_scan_result_prefix].
    rewrite (proj2 (Nat.ltb_lt lim _)) by (rewrite arranged_perm in HA; lia).
    simpl. do 2 f_equal. by eapply record_scan_result_prefix.
  - apply lookup_ge_None in Hx. rewrite take_ge by lia.
    destruct (last L); simpl; [|done].
    rewrite (proj2 (Nat.ltb_lt (length L) (S lim))), orb_true_r by lia. done.
Qed.

(** * Concrete scans *)

Definition demo_entry (k : string) : RecordEntry := mkRecordEntry k (RJson (JString k)).

Definition demo_stored : gmap string RecordEntry :=
  list_to_map ((λ k, (k, demo_entry k)) <$> ["a"; "b"; "c"; "d"]).

Definition demo_overlay : gmap string (option RecordEntry) :=
  list_to_map [("b", Some (mkRecordEntry "b" (RJson JNull))); ("bb", Some (demo_entry "bb"));
               ("q", None); ("z", Some (demo_entry "z"))].

(** A store that keeps its records in memory. *)
Definition mem_source (m : gmap string RecordEntry) : record_source := λ scan,
  Ok (Some match limit scan with Some n => take n (selected m scan) | None => selected m scan end).

Lemma demo_stored_keyed : map_keyed demo_stored.
Proof. apply (bool_decide_unpack (map_Forall (λ k e, entry_key e = k) demo_stored)). by vm_compute. Qed.

#[global] Instance demo_store : RecordStore (mem_source demo_stored) := {|
  stored := demo_stored; stored_keyed := demo_stored_keyed; source_spec := λ scan, eq_refl |}.

Lemma demo_overlay_keyed : overlay_keyed demo_overlay.
Proof.
  assert (map_Forall (λ k oe, default k (entry_key <$> oe) = k) demo_overlay) as H.
  { apply (bool_decide_unpack _). by vm_compute. }
  intros k e He. exact (H k (Some e) He).
Qed.

Definition demo_scan (rev : bool) (lim : nat) : RecordScan :=
  mkScan None None (Some "a") None (Some "zz") rev (Some lim) None.


Lemma storage_scan_exact_witness :
  scan_records 1 (delete "q" demo_overlay) (demo_scan false 2) (Some (mem_source demo_stored)) =
  Some (Ok (mkScanResult [mkRecordEntry "b" (RJson JNull); demo_entry "bb"] (Some "bb"))).
Proof.
  etrans; [apply (storage_scan_exact (mem_source demo_stored) (delete "q" demo_overlay) (demo_scan false 2) 2 0)|by vm_compute].
  - intros k e [_ He]%lookup_delete_Some. by apply demo_overlay_keyed.
  - done.
  - done.
  - intros k _ Hk.
    assert (map_Forall (λ _ oe, oe ≠ None) (delete "q" demo_overlay)) as H.
    { apply (bool_decide_unpack _). by vm_compute. }
    by apply (H k None).
Defined.

(** A limited scan over storage ends, within one page more than there are
stored records, and it has read the records of storage in scan order up to the
last one or until the merged page exceeds the limit. *)
Lemma storage_scan_ends (source : record_source) `{!RecordStore source} overlay scan lim fuel :
  limit scan = Some lim → size stored < fuel →
  ∃ k, let page := collect_record_entries_for_scan_page overlay scan (Some (take k (selected stored scan))) in
    collect_record_entries_for_scan fuel overlay scan (Some source) = Some (Ok page) ∧
    (length (selected stored scan) ≤ k ∨ lim < length page).
Proof.
  intros Hlim Hf. unfold collect_record_entries_for_scan. rewrite Hlim.
  assert (page_limit_of lim = S (pred (page_limit_of lim))) as Hp by (unfold page_limit_of; lia).
  rewrite Hp. apply (collect_pages_prefix source overlay scan lim _ fuel _ 0); [done..|].
  rewrite drop_0. pose proof (selected_length stored scan). lia.
Qed.

Lemma storage_scan_ends_witness :
  (∃ k, let page := collect_record_entries_for_scan_page demo_overlay (demo_scan false 3)
       (Some (take k (selected demo_stored (demo_scan false 3)))) in
     collect_record_entries_for_scan 5 demo_overlay (demo_scan false 3) (Some (mem_source demo_stored)) = Some (Ok page) ∧
     (length (selected demo_stored (demo_scan false 3)) ≤ k ∨ 3 < length page)).
Proof.
  refine (storage_scan_ends (mem_source demo_stored) demo_overlay (demo_scan false 3) 3 5 eq_refl _).
  apply Nat.ltb_lt. by vm_compute.
Defined.

(** Deletions in the overlay break the paged scan.  With records [a] to [d]
in storage, [a] and [b] deleted and [y], [z] inserted but not yet flushed, a scan
with limit 1 answers [y] with cursor [y]: the two pending insertions alone exceed
the limit, so the loop stops after the first page of storage, and [c] and [d],
which come first and are still stored, are passed over for good. *)
Lemma storage_scan_skips :
  let overlay : gmap string (option RecordEntry) :=
    list_to_map [("a", None); ("b", None); ("y", Some (demo_entry "y")); ("z", Some (demo_entry "z"))] in
  let scan := with_limit scan_default (Some 1) in
  (∀ fuel, scan_records (S fuel) overlay scan (Some (mem_source demo_stored)) =
     Some (Ok (mkScanResult [demo_entry "y"] (Some "y")))) ∧
  record_scan_result (collect_record_entries_for_scan_page overlay scan
    (Some (selected demo_stored scan))) scan = mkScanResult [demo_entry "c"] (Some "c") ∧
  matches_key (with_cursor scan (Some "y")) "c" = false.
Proof. split_and!; [intros fuel; by vm_compute|by vm_compute..]. Qed.

(** A scan with limit 0 answers no entries but a cursor at the first record,
and a scan from that cursor does not select that record any more. *)
Lemma zero_limit_skips :
  let scan := with_limit scan_default (Some 0) in
  scan_records 1 (Some <$> demo_stored) scan None = Some (Ok (mkScanResult [] (Some "a"))) ∧
  matches_key (with_cursor scan (Some "a")) "a" = false.
Proof. split; by vm_compute. Qed.
