(* ===== verification/Keys.v ===== *)
(** Storage keys ([src/src/engine.rs]): the hexadecimal component encoding that
turns keys into file names while keeping their order, the key prefix under
which a record scan searches the record tree, and the rank keys of scalars. *)
From stdpp Require Import base gmap sets list strings sorting.
From Stdlib Require Import ZArith Lia.
From S2P Require Import Prelude Clock Value Crdt Records.

(** * Component encoding *)

(** [{byte:02x}]. *)
Definition hex_byte (b : Ascii.ascii) : string :=
  let n := Z.of_N (Ascii.N_of_ascii b) in
  String (hex_digit (n / 16)) (String (hex_digit (n mod 16)) "").

Fixpoint encode_component (input : string) : string :=
  match input with
  | EmptyString => ""
  | String b rest => hex_byte b +:+ encode_component rest
  end.

(** [char::to_digit(16)] on one byte. *)
Definition to_digit16 (b : Ascii.ascii) : option Z :=
  let n := Z.of_N (Ascii.N_of_ascii b) in
  (if (48 <=? n) && (n <=? 57) then Some (n - 48)
   else if (97 <=? n) && (n <=? 102) then Some (n - 87)
   else if (65 <=? n) && (n <=? 70) then Some (n - 55)
   else None)%Z.

(** [u8::from_str_radix(s, 16)] on two bytes, which accepts a leading plus sign. *)
Definition u8_from_hex2 (a b : Ascii.ascii) : option Z :=
  match to_digit16 b with
  | None => None
  | Some lo =>
      if decide (a = "+"%char) then Some lo
      else match to_digit16 a with Some hi => Some (16 * hi + lo)%Z | None => None end
  end.

(** The bytes a component spells, pair by pair; [None] when a pair is no number. *)
Fixpoint decode_bytes (input : string) : option string :=
  match input with
  | EmptyString => Some ""
  | String a (String b rest) =>
      match u8_from_hex2 a b, decode_bytes rest with
      | Some v, Some tail => Some (String (Ascii.ascii_of_N (Z.to_N v)) tail)
      | _, _ => None
      end
  | String _ EmptyString => None
  end.

(** [String::from_utf8]: the well-formed byte sequences of UTF-8. *)
Definition byte_in (lo hi : Z) (b : Ascii.ascii) : bool :=
  let n := Z.of_N (Ascii.N_of_ascii b) in ((lo <=? n) && (n <=? hi))%Z.

Fixpoint valid_utf8 (s : string) : bool :=
  match s with
  | EmptyString => true
  | String a rest =>
      if byte_in 0 127 a then valid_utf8 rest
      else if byte_in 194 223 a then
        match rest with
        | String b rest => byte_in 128 191 b && valid_utf8 rest
        | _ => false
        end
      else if byte_in 224 239 a then
        match rest with
        | String b (String c rest) =>
            (if byte_in 224 224 a then byte_in 160 191 b
             else if byte_in 237 237 a then byte_in 128 159 b else byte_in 128 191 b)
            && byte_in 128 191 c && valid_utf8 rest
        | _ => false
        end
      else if byte_in 240 244 a then
        match rest with
        | String b (String c (String d rest)) =>
            (if byte_in 240 240 a then byte_in 144 191 b
             else if byte_in 244 244 a then byte_in 128 143 b else byte_in 128 191 b)
            && byte_in 128 191 c && byte_in 128 191 d && valid_utf8 rest
        | _ => false
        end
      else false
  end.

(** [decode_component].  The parse error the source appends to its messages is
left out, and so is the panic of [&input[index..index + 2]] on an input with a
multi-byte character across a pair boundary, which no encoded key has. *)
Definition decode_component (input : string) : result string :=
  let invalid := Message ("invalid storage key component `" +:+ input +:+ "`") in
  if Nat.odd (String.length input) then Err invalid
  else
    match decode_bytes input with
    | None => Err invalid
    | Some bytes => if valid_utf8 bytes then Ok bytes
                    else Err (Message ("invalid utf-8 storage key component `" +:+ input +:+ "`"))
    end.

(** * The prefix of a record scan *)

(** [str::chars]: a lead byte with its continuation bytes. *)
Definition continues (s : string) : bool :=
  match s with String b _ => is_continuation b | EmptyString => false end.

Fixpoint chars (s : string) : list string :=
  match s with
  | EmptyString => []
  | String b rest =>
      match chars rest with
      | c :: cs => if continues rest then String b c :: cs else String b "" :: c :: cs
      | [] => [String b ""]
      end
  end.

Fixpoint common_chars (l r : list string) : string :=
  match l, r with
  | a :: l, b :: r => if decide (a = b) then a +:+ common_chars l r else ""
  | _, _ => ""
  end.

Definition common_string_prefix (left right : string) : string :=
  common_chars (chars left) (chars right).

(** [Option::or]. *)
Definition opt_or {A} (x y : option A) : option A := match x with Some _ => x | None => y end.

Definition record_scan_key_prefix (scan : RecordScan) : option string :=
  match prefix scan with
  | Some p => Some p
  | None =>
      let lower :=
        if reverse_ scan then opt_or (start_at scan) (start_after scan)
        else opt_or (opt_or (cursor scan) (start_at scan)) (start_after scan) in
      let upper :=
        if reverse_ scan then opt_or (opt_or (cursor scan) (end_at scan)) (end_before scan)
        else opt_or (end_at scan) (end_before scan) in
      match lower, upper with
      | Some lo, Some hi =>
          let common := common_string_prefix lo hi in
          if decide (common = "") then None else Some common
      | _, _ => None
      end
  end.

(** * Index keys *)

Definition direct_index_key (p sortable_key node_id : string) : string :=
  "direct/" +:+ encode_component p +:+ "/" +:+ sortable_key +:+ "/" +:+ encode_component node_id.

(** * Lemmas *)

Lemma hex_digit_spec d : (0 ≤ d < 16)%Z →
  Z.of_N (Ascii.N_of_ascii (hex_digit d)) = (if (d <? 10)%Z then 48 + d else 87 + d)%Z.
Proof.
  intros Hd. unfold hex_digit. rewrite Ascii.N_ascii_embedding; [rewrite Z2N.id; [done|]|];
    destruct (Z.ltb_spec d 10); lia.
Qed.

Lemma to_digit16_hex d : (0 ≤ d < 16)%Z → to_digit16 (hex_digit d) = Some d.
Proof.
  intros Hd. unfold to_digit16. rewrite hex_digit_spec by done.
  destruct (Z.ltb_spec d 10).
  - rewrite (proj2 (Z.leb_le 48 _)), (proj2 (Z.leb_le _ 57)) by lia. simpl. f_equal. lia.
  - rewrite (proj2 (Z.leb_le 48 _)) by lia. rewrite (proj2 (Z.leb_gt _ 57)) by lia. simpl.
    rewrite (proj2 (Z.leb_le 97 _)), (proj2 (Z.leb_le _ 102)) by lia. simpl. f_equal. lia.
Qed.

Lemma byte_bounds b : (0 ≤ Z.of_N (Ascii.N_of_ascii b) < 256)%Z.
Proof. pose proof (Ascii.N_ascii_bounded b). lia. Qed.

Lemma nibbles b :
  let n := Z.of_N (Ascii.N_of_ascii b) in
  (0 ≤ n / 16 < 16 ∧ 0 ≤ n mod 16 < 16 ∧ n = 16 * (n / 16) + n mod 16)%Z.
Proof.
  intros n. pose proof (byte_bounds b). fold n in H.
  split_and!; [apply Z.div_pos; lia|apply Z.div_lt_upper_bound; lia|apply Z.mod_pos_bound; lia..|].
  apply Z.div_mod. lia.
Qed.

Lemma decode_encode_bytes s : decode_bytes (encode_component s) = Some s.
Proof.
  induction s as [|b s IH]; [done|]. cbn [encode_component]. unfold hex_byte.
  rewrite !str_app_cons, str_app_nil_l. cbn [decode_bytes]. rewrite IH.
  destruct (nibbles b) as (Hh & Hl & Hn). unfold u8_from_hex2.
  rewrite to_digit16_hex by done. rewrite decide_False.
  - rewrite to_digit16_hex by done. rewrite <-Hn, N2Z.id, Ascii.ascii_N_embedding. done.
  - intros E. apply (f_equal (λ c, Z.of_N (Ascii.N_of_ascii c))) in E. rewrite hex_digit_spec in E by done.
    simpl in E. destruct (Z.ltb_spec (Z.of_N (Ascii.N_of_ascii b) / 16) 10); lia.
Qed.

Lemma encode_length s : String.length (encode_component s) = 2 * String.length s.
Proof. induction s as [|b s IH]; [done|]. cbn [encode_component]. rewrite str_length_app, IH. simpl. lia. Qed.

Lemma hex_digit_compare a b : (0 ≤ a < 16)%Z → (0 ≤ b < 16)%Z →
  Ascii.compare (hex_digit a) (hex_digit b) = (a ?= b)%Z.
Proof.
  intros Ha Hb. unfold Ascii.compare. rewrite <-N2Z.inj_compare, !hex_digit_spec by done.
  destruct (Z.ltb_spec a 10), (Z.ltb_spec b 10); destruct (Z.compare_spec a b);
    rewrite ?Z.compare_eq_iff, ?Z.compare_lt_iff, ?Z.compare_gt_iff; lia.
Qed.

Lemma hex_byte_compare a b s t :
  String.compare (hex_byte a +:+ s) (hex_byte b +:+ t) =
  match Ascii.compare a b with Eq => String.compare s t | c => c end.
Proof.
  unfold hex_byte. rewrite !str_app_cons, !str_app_nil_l. cbn [String.compare].
  destruct (nibbles a) as (Ha1 & Ha2 & Ha), (nibbles b) as (Hb1 & Hb2 & Hb).
  rewrite !hex_digit_compare by done. unfold Ascii.compare. rewrite <-N2Z.inj_compare.
  set (x := Z.of_N (Ascii.N_of_ascii a)) in *. set (y := Z.of_N (Ascii.N_of_ascii b)) in *.
  destruct (Z.compare_spec (x / 16) (y / 16)) as [E|E|E].
  - destruct (Z.compare_spec (x mod 16) (y mod 16)) as [E'|E'|E'].
    + rewrite (proj2 (Z.compare_eq_iff x y)) by lia. done.
    + rewrite (proj2 (Z.compare_lt_iff x y)) by lia. done.
    + rewrite (proj2 (Z.compare_gt_iff x y)) by lia. done.
  - rewrite (proj2 (Z.compare_lt_iff x y)) by lia. done.
  - rewrite (proj2 (Z.compare_gt_iff x y)) by lia. done.
Qed.

Lemma join_nil_cons a l : join "" (a :: l) = a +:+ join "" l.
Proof. destruct l; simpl; [by rewrite str_app_nil_r|done]. Qed.

Lemma concat_chars s : join "" (chars s) = s.
Proof.
  induction s as [|b s IH]; [done|]. cbn [chars]. destruct (chars s) as [|c cs].
  - simpl in IH. by subst.
  - rewrite join_nil_cons in IH. destruct (continues s); rewrite !join_nil_cons, ?str_app_cons;
      rewrite ?str_app_nil_l; by rewrite IH.
Qed.

Lemma common_chars_prefix l r :
  ∃ t u, join "" l = common_chars l r +:+ t ∧ join "" r = common_chars l r +:+ u.
Proof.
  revert r. induction l as [|a l IH]; intros [|b r]; cbn [common_chars];
    [by exists "", ""|by exists "", (join "" (b :: r))|by exists (join "" (a :: l)), ""|].
  case_decide as E; [subst|by exists (join "" (a :: l)), (join "" (b :: r))].
  destruct (IH r) as (t & u & Ht & Hu). exists t, u. rewrite !join_nil_cons, Ht, Hu, !str_app_assoc. done.
Qed.

(** What lies between two strings with a common prefix has it too. *)
Lemma between_prefix p s t k : ole (p +:+ s) k → ole k (p +:+ t) → ∃ u, k = p +:+ u.
Proof.
  revert k. induction p as [|a p IH]; intros k Hlo Hhi; [by exists k|].
  rewrite !str_app_cons in *. destruct k as [|b k]; [by destruct Hlo|].
  unfold ole in Hlo, Hhi. simpl in Hlo, Hhi. unfold Ascii.compare in Hlo, Hhi.
  rewrite (N.compare_antisym (Ascii.N_of_ascii a) (Ascii.N_of_ascii b)) in Hhi.
  destruct (N.compare (Ascii.N_of_ascii a) (Ascii.N_of_ascii b)) eqn:E; simpl in Hhi; try done.
  apply N.compare_eq_iff in E. apply (f_equal Ascii.ascii_of_N) in E.
  rewrite !Ascii.ascii_N_embedding in E. subst b.
  destruct (IH k Hlo Hhi) as [u ->]. by exists u.
Qed.

Lemma scan_bounds scan k :
  matches_key scan k = true →
  (∀ s, start_at scan = Some s → ole s k) ∧ (∀ s, start_after scan = Some s → ole s k) ∧
  (∀ e, end_at scan = Some e → ole k e) ∧ (∀ e, end_before scan = Some e → ole k e) ∧
  (∀ c, cursor scan = Some c → if reverse_ scan then ole k c else ole c k).
Proof.
  unfold matches_key. destruct (match prefix scan with Some _ => _ | None => _ end); [done|].
  destruct (match cursor scan with Some _ => _ | None => _ end) eqn:E1; [done|].
  destruct (match start_at scan with Some _ => _ | None => _ end) eqn:E2; [done|].
  destruct (match start_after scan with Some _ => _ | None => _ end) eqn:E3; [done|].
  destruct (match end_at scan with Some _ => _ | None => _ end) eqn:E4; [done|].
  destruct (match end_before scan with Some _ => _ | None => _ end) eqn:E5; [done|]. intros _.
  split_and!; intros x Hx; rewrite Hx in *; [ord..|]. destruct (reverse_ scan); ord.
Qed.

(** * Theorems *)

(** Component encoding round-trips: every key decodes to itself, and keys
that are not UTF-8 text are refused rather than altered. *)
Lemma component_roundtrip s :
  decode_component (encode_component s) =
  if valid_utf8 s then Ok s
  else Err (Message ("invalid utf-8 storage key component `" +:+ encode_component s +:+ "`")).
Proof.
  unfold decode_component. rewrite encode_length, decode_encode_bytes.
  by rewrite <-Nat.negb_even, Nat.even_mul.
Qed.

(** Encoding keeps the order of keys, so listing encoded file names in name
order lists keys in key order. *)
Lemma encode_component_order s t :
  String.compare (encode_component s) (encode_component t) = String.compare s t.
Proof.
  revert t. induction s as [|a s IH]; intros [|b t]; try done.
  cbn [encode_component]. rewrite hex_byte_compare. cbn [String.compare]. rewrite IH.
  by destruct (Ascii.compare a b).
Qed.

(** The directory a record scan starts from misses nothing: every key the
scan selects begins with the prefix the scan was narrowed to. *)
Lemma record_scan_prefix_sound scan p k :
  record_scan_key_prefix scan = Some p → matches_key scan k = true → starts_with k p = true.
Proof.
  intros Hp Hk. unfold record_scan_key_prefix in Hp. destruct (prefix scan) as [q|] eqn:Hq.
  - injection Hp as ->. unfold matches_key in Hk. rewrite Hq in Hk. by destruct (starts_with k p).
  - destruct (scan_bounds scan k Hk) as (H1 & H2 & H3 & H4 & H5).
    set (lower := if reverse_ scan then _ else _) in Hp.
    set (upper := if reverse_ scan then opt_or _ (end_before scan) else _) in Hp.
    assert (∀ lo, lower = Some lo → ole lo k) as Hlo.
    { intros lo. unfold lower, opt_or. destruct (reverse_ scan), (start_at scan), (start_after scan), (cursor scan);
        intros [= <-]; eauto. }
    assert (∀ hi, upper = Some hi → ole k hi) as Hhi.
    { intros hi. unfold upper, opt_or. destruct (reverse_ scan), (end_at scan), (end_before scan), (cursor scan);
        intros [= <-]; eauto. }
    destruct lower as [lo|], upper as [hi|]; try done. case_decide; simplify_eq.
    destruct (common_chars_prefix (chars lo) (chars hi)) as (t & u & Ht & Hu).
    rewrite !concat_chars in *. fold (common_string_prefix lo hi) in *.
    apply starts_with_spec, (between_prefix _ t u); [rewrite <-Ht; auto|rewrite <-Hu; auto].
Qed.

Lemma record_scan_prefix_sound_witness :
  let scan := mkScan None (Some "user/10") None (Some "user/19") None false None None in
  record_scan_key_prefix scan = Some "user/1" ∧ starts_with "user/15" "user/1" = true.
Proof.
  split; [by vm_compute|].
  apply (record_scan_prefix_sound
    (mkScan None (Some "user/10") None (Some "user/19") None false None None)); by vm_compute.
Defined.
