(* ===== verification/Engine.v ===== *)
(** What the database hands to a storage engine ([src/src/engine.rs]): the
metadata, the storage transaction and the scalar index it carries, built from the
changed nodes; the rank keys that put scalars of one type in their order. *)
From stdpp Require Import base gmap sets list strings sorting.
From Stdlib Require Import ZArith Lia.
From Stdlib Require SpecFloat.
From S2P Require Import Prelude Clock Value Crdt OpQueue Paths Records Keys.

(** What lies outside the repository: the hash of a string, a stored scalar as it
is shown (the value itself, or with the [crypto] feature the verified payload,
[None] when verification fails) and the signature data kept for it. *)
Record StoredAuthFieldMeta := mkAuthField {
  signer : string;
  certificate : option string;
  owner : option string;
  verified : bool
}.

Class StoreEnv := {
  store_hash : string → string;
  stored_scalar : string → json → option json;
  signed_scalar : string → json → option StoredAuthFieldMeta
}.

(** * Rank keys *)

(** [f64::to_bits].  For a canonical double the significand is added in full: its
leading bit carries into the exponent field, which a subnormal does not reach. *)
Definition f64_to_bits (f : spec_float) : Z :=
  let sign (s : bool) := if s then (2 ^ 63)%Z else 0%Z in
  match f with
  | SpecFloat.S754_zero s => sign s
  | SpecFloat.S754_infinity s => sign s + 2047 * 2 ^ 52
  | SpecFloat.S754_nan => 2047 * 2 ^ 52 + 2 ^ 51
  | SpecFloat.S754_finite s m e => sign s + (e + 1074) * 2 ^ 52 + Zpos m
  end%Z.

(** The bits as [sortable_scalar_key] rearranges them. *)
Definition sortable_bits (f : spec_float) : Z :=
  let bits := f64_to_bits f in
  if (Z.shiftr bits 63 =? 0)%Z then Z.lxor bits (2 ^ 63) else (u64_max - bits)%Z.

(** [{:016x}]. *)
Fixpoint hex_width (width : nat) (n : Z) : string :=
  match width with
  | O => ""
  | S w => String (hex_digit (n / 16 ^ Z.of_nat w)) (hex_width w (n mod 16 ^ Z.of_nat w))
  end.

Definition sortable_scalar_key (v : json) : option string :=
  match v with
  | JString s => Some ("s_" +:+ encode_component s)
  | JNumber n => Some ("n_" +:+ hex_width 16 (sortable_bits (as_f64 n)))
  | JBool b => Some ("b_" +:+ if b then "1" else "0")
  | JNull => Some "z_null"
  | JArray _ | JObject _ => None
  end.

(** * Transactions *)

(** [StorageMetadata]; provisional transactions, which it also carries, are not
modelled. *)
Record StorageMetadata := mkMetadata {
  schema_version : Z;
  meta_clock : HybridClock;
  meta_pending_ops : list Operation;
  next_tx_id : Z;
  last_materialized_tx_id : Z;
  meta_scope_policies : gmap string ScopePolicy
}.

Definition STORAGE_SCHEMA_VERSION : Z := 1.

Definition build_storage_metadata (clock : HybridClock) (pending : list Operation) (next : Z)
    : StorageMetadata :=
  mkMetadata STORAGE_SCHEMA_VERSION clock pending next (sat_sub next 1) ∅.

Record DirectScalarIndexEntry := mkIndexEntry {
  ie_node : NodeId;
  ie_path : string;
  ie_value : json;
  ie_sortable : string
}.

Record DirectScalarIndexFragment := mkFragment {
  fr_path : string;
  fr_value : json;
  fr_sortable : string
}.

Record AuthNodeMeta := mkAuthMeta { signed_fields : gmap string StoredAuthFieldMeta }.
Record NodeIndexManifest := mkManifest { direct_index_keys : list string }.

Record StorageTransaction := mkStorageTx {
  tx_id : Z;
  tx_metadata : StorageMetadata;
  tx_nodes : gmap string NodeState;
  tx_node_indexes : gmap string NodeIndexManifest;
  tx_direct_indexes : gmap string DirectScalarIndexEntry;
  tx_records : gmap string RecordEntry;
  tx_deleted_records : gset string;
  tx_auth_meta : gmap string AuthNodeMeta;
  tx_journal_ops : list Operation
}.

#[global] Instance index_entry_eq_dec : EqDecision DirectScalarIndexEntry.
Proof. solve_decision. Defined.
#[global] Instance auth_field_eq_dec : EqDecision StoredAuthFieldMeta.
Proof. solve_decision. Defined.
#[global] Instance auth_meta_eq_dec : EqDecision AuthNodeMeta.
Proof. solve_decision. Defined.
#[global] Instance manifest_eq_dec : EqDecision NodeIndexManifest.
Proof. solve_decision. Defined.

Section build.
Context `{StoreEnv}.

Abbreviation fragment_cache := (gmap string (list DirectScalarIndexFragment)).

(** The path of a fragment seen from the field that links to its node. *)
Definition extend_fragment (field : string) (fr : DirectScalarIndexFragment)
    : DirectScalarIndexFragment :=
  mkFragment (if decide (fr_path fr = "") then field else field +:+ "." +:+ fr_path fr)
    (fr_value fr) (fr_sortable fr).

(** The fragment of a scalar field, if it is shown and has a rank. *)
Definition scalar_fragment (node field : string) (v : json) : list DirectScalarIndexFragment :=
  match stored_scalar (node +:+ "/" +:+ field) v with
  | Some shown =>
      match sortable_scalar_key shown with
      | Some key => [mkFragment field shown key]
      | None => []
      end
  | None => []
  end.

(** The loop over a node's fields; [collect] visits a link's target. *)
Fixpoint collect_fields (collect : NodeId → fragment_cache →
      option (list DirectScalarIndexFragment * bool * fragment_cache))
    (node : NodeId) (fields : list (string * FieldState)) (cache : fragment_cache)
    : option (list DirectScalarIndexFragment * bool * fragment_cache) :=
  match fields with
  | [] => Some ([], false, cache)
  | (field, state) :: rest =>
      '(here, cyclic, cache) ←
        match value state with
        | FScalar v => Some (scalar_fragment node field v, false, cache)
        | FLink target =>
            '(child, cyclic, cache) ← collect target cache;
            Some (map (extend_fragment field) child, cyclic, cache)
        | FSet _ | FBytes _ | FBlob _ => Some ([], false, cache)
        end;
      '(more, cyclic', cache) ← collect_fields collect node rest cache;
      Some (here ++ more, cyclic || cyclic', cache)
  end.

(** [storage_collect_scalar_fragments]; [None] when the fuel is spent.  [visited]
is given back as it was by the source, so it is passed by value. *)
Fixpoint storage_collect_scalar_fragments (fuel : nat) (nodes : gmap string NodeState)
    (visited : gset string) (node : NodeId) (cache : fragment_cache)
    : option (list DirectScalarIndexFragment * bool * fragment_cache) :=
  match fuel with
  | O => None
  | S fuel =>
      match cache !! node with
      | Some fragments => Some (fragments, false, cache)
      | None =>
          if decide (node ∈ visited) then Some ([], true, cache)
          else
            '(fragments, cyclic, cache) ←
              match nodes !! node with
              | Some state =>
                  collect_fields
                    (storage_collect_scalar_fragments fuel nodes ({[node]} ∪ visited))
                    node (btree_list (fields state)) cache
              | None => Some ([], false, cache)
              end;
            Some (fragments, cyclic, if cyclic : bool then cache else <[node := fragments]> cache)
      end
  end.

(** Each step of the descent enters another node of the transaction. *)
Definition fragment_fuel (nodes : gmap string NodeState) : nat := S (S (size nodes)).

Definition index_fragments (node : NodeId) (fragments : list DirectScalarIndexFragment)
    : gmap string DirectScalarIndexEntry :=
  foldl (λ m fr, <[direct_index_key (fr_path fr) (fr_sortable fr) node :=
    mkIndexEntry node (fr_path fr) (fr_value fr) (fr_sortable fr)]> m) ∅ fragments.

(** [direct_scalar_indexes]; the fuel is enough, so the [default] is not taken. *)
Definition direct_scalar_indexes (node : NodeId) (nodes : gmap string NodeState)
    (cache : fragment_cache) : gmap string DirectScalarIndexEntry * fragment_cache :=
  let '(fragments, _, cache) :=
    default ([], false, cache)
      (storage_collect_scalar_fragments (fragment_fuel nodes) nodes ∅ node cache) in
  (index_fragments node fragments, cache).

Definition auth_node_meta (node : NodeId) (state : NodeState) : AuthNodeMeta :=
  mkAuthMeta (omap (λ s, s) (map_imap (λ field st,
    Some match value st with
         | FScalar v => signed_scalar (node +:+ "/" +:+ field) v
         | _ => None
         end) (fields state))).

(** One turn of the loop of [build_storage_transaction]. *)
Definition build_step (nodes : gmap string NodeState) (acc : StorageTransaction * fragment_cache)
    (entry : string * NodeState) : StorageTransaction * fragment_cache :=
  let '(t, cache) := acc in
  let '(node, state) := entry in
  let '(direct, cache) := direct_scalar_indexes node nodes cache in
  let '(recs, deleted) :=
    if is_record_node_id node then
      match record_key_from_node_state state with
      | Some key =>
          match record_entry_from_node_state state with
          | Some e => (<[entry_key e := e]> (tx_records t), tx_deleted_records t)
          | None => (tx_records t, {[key]} ∪ tx_deleted_records t)
          end
      | None => (tx_records t, tx_deleted_records t)
      end
    else (tx_records t, tx_deleted_records t) in
  (mkStorageTx (tx_id t) (tx_metadata t) (tx_nodes t)
     (<[node := mkManifest (btree_keys direct)]> (tx_node_indexes t))
     (direct ∪ tx_direct_indexes t) recs deleted
     (<[node := auth_node_meta node state]> (tx_auth_meta t)) (tx_journal_ops t), cache).

Definition build_storage_transaction (i : Z) (metadata : StorageMetadata)
    (nodes : gmap string NodeState) : StorageTransaction :=
  (foldl (build_step nodes) (mkStorageTx i metadata nodes ∅ ∅ ∅ ∅ ∅ [], ∅) (btree_list nodes)).1.

Definition touched_nodes (ops : list Operation) : gset string :=
  list_to_set (operation_source_node <$> ops).

(** The parents [rsplit_once('/')] walks through. *)
Fixpoint path_parents (n : string) : list string :=
  match n with
  | EmptyString => []
  | String b rest =>
      (if decide (b = "/"%char) then [""] else []) ++ (String b <$> path_parents rest)
  end.

Definition touched_storage_nodes (nodes : gmap string NodeState) (ops : list Operation) : gset string :=
  touched_nodes ops ∪
  list_to_set (filter (λ p, is_Some (nodes !! p)) (elements (touched_nodes ops) ≫= path_parents)).

Definition build_storage_transaction_from_ops (i : Z) (metadata : StorageMetadata)
    (nodes : gmap string NodeState) (ops : list Operation) : StorageTransaction :=
  let touched := touched_storage_nodes nodes ops in
  let t := build_storage_transaction i metadata (filter (λ p, p.1 ∈ touched) nodes) in
  mkStorageTx (tx_id t) (tx_metadata t) (tx_nodes t) (tx_node_indexes t) (tx_direct_indexes t)
    (tx_records t) (tx_deleted_records t) (tx_auth_meta t) ops.
End build.

(** * Rank keys keep the order of values *)

Lemma hex_width_compare w x y :
  (0 ≤ x < 16 ^ Z.of_nat w)%Z → (0 ≤ y < 16 ^ Z.of_nat w)%Z →
  String.compare (hex_width w x) (hex_width w y) = (x ?= y)%Z.
Proof.
  revert x y. induction w as [|w IH]; intros x y Hx Hy.
  { simpl in *. symmetry. apply Z.compare_eq_iff. lia. }
  rewrite Nat2Z.inj_succ, Z.pow_succ_r in Hx, Hy by lia. cbn [hex_width String.compare].
  set (p := (16 ^ Z.of_nat w)%Z) in *. assert (0 < p)%Z by (apply Z.pow_pos_nonneg; lia).
  pose proof (Z.mod_pos_bound x p ltac:(lia)). pose proof (Z.mod_pos_bound y p ltac:(lia)).
  pose proof (Z.div_mod x p ltac:(lia)). pose proof (Z.div_mod y p ltac:(lia)).
  assert (0 ≤ x / p < 16)%Z by (split; [apply Z.div_pos|apply Z.div_lt_upper_bound]; lia).
  assert (0 ≤ y / p < 16)%Z by (split; [apply Z.div_pos|apply Z.div_lt_upper_bound]; lia).
  rewrite hex_digit_compare, IH by done. symmetry.
  destruct (Z.compare_spec (x / p) (y / p)) as [E|E|E].
  - destruct (Z.compare_spec (x mod p) (y mod p)); rewrite ?Z.compare_eq_iff, ?Z.compare_lt_iff, ?Z.compare_gt_iff;
      nia.
  - apply Z.compare_lt_iff. nia.
  - apply Z.compare_gt_iff. nia.
Qed.

(** A canonical double that is a number. *)
Definition is_f64 (f : spec_float) : bool :=
  SpecFloat.valid_binary 53 1024 f &&
  match f with SpecFloat.S754_infinity _ | SpecFloat.S754_nan => false | _ => true end.

Definition sf_sign (f : spec_float) : bool :=
  match f with
  | SpecFloat.S754_zero s | SpecFloat.S754_infinity s | SpecFloat.S754_finite s _ _ => s
  | SpecFloat.S754_nan => false
  end.

Definition sf_magnitude (f : spec_float) : Z :=
  match f with SpecFloat.S754_finite _ m e => ((e + 1074) * 2 ^ 52 + Zpos m)%Z | _ => 0%Z end.

(** A canonical significand is below [2^53], and reaches [2^52] above the smallest
exponent. *)
Lemma bounded_spec m e :
  SpecFloat.bounded 53 1024 m e = true →
  (-1074 ≤ e ≤ 971 ∧ Zpos m < 2 ^ 53 ∧ (-1074 < e → 2 ^ 52 ≤ Zpos m))%Z.
Proof.
  unfold SpecFloat.bounded, SpecFloat.canonical_mantissa, SpecFloat.fexp, SpecFloat.emin.
  rewrite andb_true_iff, Z.leb_le, Z.eqb_eq.
  assert (SpecFloat.digits2_pos m = Pos.size m) as -> by (induction m; simpl; congruence).
  pose proof (Pos.size_gt m) as Hgt. pose proof (Pos.size_le m) as Hle.
  intros [Hf He]. assert (Z.pos (Pos.size m) + e - 53 ≤ e)%Z by lia.
  assert (Z.pos m < 2 ^ Z.pos (Pos.size m))%Z as Hlt by (rewrite <-Pos2Z.inj_pow; lia).
  assert (2 ^ Z.pos (Pos.size m) ≤ 2 * Z.pos m)%Z as Hge by (rewrite <-Pos2Z.inj_pow; lia).
  split; [lia|]. split.
  - eapply Z.lt_le_trans; [exact Hlt|]. apply Z.pow_le_mono_r; lia.
  - intros Hm. assert (Z.pos (Pos.size m) = 53)%Z as E by lia. rewrite E in Hge.
    change (2 ^ 53)%Z with (2 * 2 ^ 52)%Z in Hge. lia.
Qed.

Lemma sf_magnitude_bounds f : is_f64 f = true →
  (0 ≤ sf_magnitude f < 2 ^ 63)%Z ∧
  f64_to_bits f = ((if sf_sign f then 2 ^ 63 else 0) + sf_magnitude f)%Z.
Proof.
  unfold is_f64. rewrite andb_true_iff. intros [Hv Hn]. destruct f as [s|s| |s m e]; try done.
  - split; [done|]. by destruct s.
  - simpl in Hv. apply bounded_spec in Hv as (? & ? & _). unfold f64_to_bits, sf_sign, sf_magnitude.
    split; [|destruct s; ring]. change (2 ^ 63)%Z with (2048 * 2 ^ 52)%Z.
    change (2 ^ 53)%Z with (2 * 2 ^ 52)%Z in *. lia.
Qed.

Lemma sortable_bits_eq f : is_f64 f = true →
  sortable_bits f = (if sf_sign f then 2 ^ 63 - 1 - sf_magnitude f else 2 ^ 63 + sf_magnitude f)%Z.
Proof.
  intros Hf. destruct (sf_magnitude_bounds f Hf) as [Hm Hb]. unfold sortable_bits. rewrite Hb.
  destruct (sf_sign f).
  - rewrite (proj2 (Z.eqb_neq _ 0)); [unfold u64_max; change (2 ^ 64)%Z with (2 * 2 ^ 63)%Z; lia|].
    rewrite Z.shiftr_div_pow2 by lia. intros E. apply Z.div_small_iff in E; lia.
  - rewrite Z.add_0_l, (proj2 (Z.eqb_eq _ 0)) by (rewrite Z.shiftr_div_pow2 by lia; apply Z.div_small; lia).
    rewrite <-Z.add_nocarry_lxor; [lia|]. apply Z.bits_inj'. intros n Hn. rewrite Z.land_spec, Z.pow2_bits_eqb, Z.bits_0 by lia.
    destruct (Z.eqb_spec 63 n) as [<-|]; [|by rewrite andb_false_r].
    rewrite andb_true_r. apply Z.bits_above_log2; [lia|]. destruct (Z.eq_dec (sf_magnitude f) 0) as [->|]; [done|].
    apply Z.log2_lt_pow2; lia.
Qed.

Lemma sortable_bits_width f : is_f64 f = true → (0 ≤ sortable_bits f < 16 ^ 16)%Z.
Proof.
  intros Hf. rewrite sortable_bits_eq by done. destruct (sf_magnitude_bounds f Hf) as [? _].
  change (16 ^ 16)%Z with (2 * 2 ^ 63)%Z. destruct (sf_sign f); lia.
Qed.

Definition both_zero (x y : spec_float) : bool :=
  match x, y with SpecFloat.S754_zero _, SpecFloat.S754_zero _ => true | _, _ => false end.

(** The ranks of two numbers compare as the numbers do; only a negative and a
positive zero, which are equal, have different ranks. *)
Lemma sortable_bits_compare x y : is_f64 x = true → is_f64 y = true → both_zero x y = false →
  SpecFloat.SFcompare x y = Some (sortable_bits x ?= sortable_bits y)%Z.
Proof.
  intros Hx Hy Hz. rewrite !sortable_bits_eq by done.
  destruct (sf_magnitude_bounds x Hx) as [Mx _], (sf_magnitude_bounds y Hy) as [My _].
  unfold is_f64 in Hx, Hy. apply andb_true_iff in Hx as [Vx Nx], Hy as [Vy Ny].
  destruct x as [sx|sx| |sx mx ex], y as [sy|sy| |sy my ey]; try done; simpl in *.
  - apply bounded_spec in Vy as (? & _ & _).
    destruct sx, sy; f_equal; symmetry; rewrite ?Z.compare_lt_iff, ?Z.compare_gt_iff; lia.
  - apply bounded_spec in Vx as (? & _ & _).
    destruct sx, sy; f_equal; symmetry; rewrite ?Z.compare_lt_iff, ?Z.compare_gt_iff; lia.
  - apply bounded_spec in Vx as (? & ? & ?), Vy as (? & ? & ?).
    assert (∀ a b, (a + 1 ≤ b)%Z → (a * 2 ^ 52 + 2 ^ 52 ≤ b * 2 ^ 52)%Z) as Hstep by (intros; lia).
    change (2 ^ 53)%Z with (2 * 2 ^ 52)%Z in *.
    destruct sx, sy; f_equal; symmetry; try (rewrite ?Z.compare_lt_iff, ?Z.compare_gt_iff; lia).
    + destruct (Z.compare_spec ex ey) as [->|Hlt|Hlt].
      * fold (Pos.compare mx my). destruct (Pos.compare_spec mx my) as [->|?|?]; simpl;
          rewrite ?Z.compare_eq_iff, ?Z.compare_lt_iff, ?Z.compare_gt_iff; lia.
      * pose proof (Hstep (ex + 1074) (ey + 1074))%Z. apply Z.compare_gt_iff. lia.
      * pose proof (Hstep (ey + 1074) (ex + 1074))%Z. apply Z.compare_lt_iff. lia.
    + destruct (Z.compare_spec ex ey) as [->|Hlt|Hlt].
      * fold (Pos.compare mx my). destruct (Pos.compare_spec mx my) as [->|?|?]; simpl;
          rewrite ?Z.compare_eq_iff, ?Z.compare_lt_iff, ?Z.compare_gt_iff; lia.
      * pose proof (Hstep (ex + 1074) (ey + 1074))%Z. apply Z.compare_lt_iff. lia.
      * pose proof (Hstep (ey + 1074) (ex + 1074))%Z. apply Z.compare_gt_iff. lia.
Qed.

(** * Index fragments without the cache *)

Section fragments.
Context `{StoreEnv} (nodes : gmap string NodeState).

(** The reference: the same descent with nothing remembered between visits. *)
Fixpoint fields_of (collect : NodeId → option (list DirectScalarIndexFragment * bool))
    (node : NodeId) (fields : list (string * FieldState))
    : option (list DirectScalarIndexFragment * bool) :=
  match fields with
  | [] => Some ([], false)
  | (field, state) :: rest =>
      '(here, cyclic) ←
        match value state with
        | FScalar v => Some (scalar_fragment node field v, false)
        | FLink target =>
            '(child, cyclic) ← collect target; Some (map (extend_fragment field) child, cyclic)
        | FSet _ | FBytes _ | FBlob _ => Some ([], false)
        end;
      '(more, cyclic') ← fields_of collect node rest;
      Some (here ++ more, cyclic || cyclic')
  end.

Fixpoint fragments_of (fuel : nat) (visited : gset string) (node : NodeId)
    : option (list DirectScalarIndexFragment * bool) :=
  match fuel with
  | O => None
  | S fuel =>
      if decide (node ∈ visited) then Some ([], true)
      else
        match nodes !! node with
        | Some state =>
            fields_of (fragments_of fuel ({[node]} ∪ visited)) node (btree_list (fields state))
        | None => Some ([], false)
        end
  end.

Definition links (n t : NodeId) : Prop :=
  ∃ st f fs, nodes !! n = Some st ∧ (f, fs) ∈ btree_list (fields st) ∧ value fs = FLink t.

(** Two visitors that agree on the targets give the same fragments. *)
Lemma fields_of_ext c c' n l r :
  (∀ f fs t x, (f, fs) ∈ l → value fs = FLink t → c t = Some x →
     (r.2 = false → x.2 = false) → c' t = Some x) →
  fields_of c n l = Some r → fields_of c' n l = Some r.
Proof.
  revert r. induction l as [|[f fs] l IH]; intros r Hc; [done|]. cbn [fields_of].
  intros Hr. destruct (fields_of c n l) as [[more cy]|] eqn:E; [|by destruct (match value fs with FScalar _ => _ | _ => _ end) as [[]|]].
  assert (∀ cy', r.2 = cy' || cy → fields_of c' n l = Some (more, cy)) as IH'.
  { intros cy' Hb. apply (IH (more, cy)); [|done]. intros f' fs' t x Hin Hv Hx Hf.
    apply (Hc f' fs' t x); [by right|done|done|]. rewrite Hb. intros [_ ?]%orb_false_iff. by apply Hf. }
  destruct (value fs) as [v|b|b|t|s] eqn:Ev; cbn [mbind option_bind] in *.
  4: destruct (c t) as [[ch cy']|] eqn:Ec; [|done]; cbn [mbind option_bind] in *; injection Hr as <-;
    rewrite (Hc f fs t (ch, cy')); [|by left|done|done|simpl; by intros [? _]%orb_false_iff];
    cbn [mbind option_bind]; by rewrite (IH' cy').
  all: injection Hr as <-; by rewrite (IH' false).
Qed.

Lemma fields_of_acyclic c n l fr f fs t :
  fields_of c n l = Some (fr, false) → (f, fs) ∈ l → value fs = FLink t → ∃ x, c t = Some (x, false).
Proof.
  revert fr. induction l as [|[f' fs'] l IH]; intros fr; [by intros _ ?%not_elem_of_nil|].
  cbn [fields_of]. intros He Hin Hv.
  destruct (match value fs' with FScalar _ => _ | _ => _ end) as [[here cy]|] eqn:Eh; [|done].
  cbn [mbind option_bind] in He. destruct (fields_of c n l) as [[more cy']|] eqn:E; [|done].
  cbn [mbind option_bind] in He. injection He as _ Hb. apply orb_false_iff in Hb as [-> ->].
  apply elem_of_cons in Hin as [Heq|Hin]; [|by eapply IH].
  injection Heq as <- <-. rewrite Hv in Eh. destruct (c t) as [[x cy]|]; [|done].
  cbn [mbind option_bind] in Eh. injection Eh as _ ->. by exists x.
Qed.

Lemma fragments_of_mono f f' V n r : fragments_of f V n = Some r → f ≤ f' → fragments_of f' V n = Some r.
Proof.
  revert f' V n r. induction f as [|f IH]; intros [|f'] V n r Hr Hle; try done; [lia|].
  cbn [fragments_of] in *. case_decide; [done|]. destruct (nodes !! n); [|done].
  eapply fields_of_ext; [|done]. intros. eapply IH; [done|lia].
Qed.

Lemma fields_of_total c n l :
  (∀ f fs t, (f, fs) ∈ l → value fs = FLink t → is_Some (c t)) → is_Some (fields_of c n l).
Proof.
  induction l as [|[f fs] l IH]; intros Hc; cbn [fields_of]; [by eexists|].
  destruct IH as [[more cy] E]; [intros f' fs' t' Hin; apply (Hc f' fs' t'); by right|]. rewrite E.
  destruct (value fs) as [v|b|b|t|s] eqn:Ev; try by eexists.
  destruct (Hc f fs t ltac:(by left) Ev) as [[x cy'] ->]. by eexists.
Qed.

Lemma fragments_of_total f V n : size (dom nodes ∖ V) < f → is_Some (fragments_of f V n).
Proof.
  revert V n. induction f as [|f IH]; intros V n Hf; [lia|]. cbn [fragments_of].
  case_decide as HV; [by eexists|]. destruct (nodes !! n) as [st|] eqn:En; [|by eexists].
  apply fields_of_total. intros _ _ t _ _. apply IH.
  assert (size (dom nodes ∖ ({[n]} ∪ V)) < size (dom nodes ∖ V)); [|lia].
  apply subset_size. split; [set_solver|]. apply elem_of_dom_2 in En. set_solver.
Qed.

(** A descent that met no cycle stays clear of the visited nodes. *)
Lemma fragments_of_step f V n fr t :
  fragments_of f V n = Some (fr, false) → links n t →
  ∃ f' x, fragments_of f' ({[n]} ∪ V) t = Some (x, false).
Proof.
  intros Hf (st & fi & fs & Hn & Hin & Hv). destruct f as [|f]; [done|]. cbn [fragments_of] in Hf.
  case_decide; [done|]. rewrite Hn in Hf. destruct (fields_of_acyclic _ _ _ _ _ _ _ Hf Hin Hv). eauto.
Qed.

Lemma fragments_of_walk f V n fr m :
  fragments_of f V n = Some (fr, false) → rtc links n m → m ∉ V.
Proof.
  intros Hf Hr. revert f V fr Hf. induction Hr as [n|n t m Hl Hr IH]; intros f V fr Hf.
  - destruct f as [|f]; [done|]. cbn [fragments_of] in Hf. by case_decide.
  - destruct (fragments_of_step _ _ _ _ _ Hf Hl) as (f' & x & Hx). apply IH in Hx. set_solver.
Qed.

Lemma fragments_of_no_return f V n fr : fragments_of f V n = Some (fr, false) → ¬ tc links n n.
Proof.
  intros Hf Hn. assert (∃ t, links n t ∧ rtc links t n) as (t & Hl & Hr)
    by (inv Hn; eauto using rtc_refl, tc_rtc).
  destruct (fragments_of_step _ _ _ _ _ Hf Hl) as (f' & x & Hx).
  apply (fragments_of_walk _ _ _ _ n) in Hx; [set_solver|done].
Qed.

(** So its outcome does not depend on them. *)
Lemma fragments_of_irrelevant f V V' n fr :
  fragments_of f V n = Some (fr, false) → (∀ m, rtc links n m → m ∉ V') →
  fragments_of f V' n = Some (fr, false).
Proof.
  revert V V' n fr. induction f as [|f IH]; intros V V' n fr Hf HV'; [done|].
  pose proof (fragments_of_no_return _ _ _ _ Hf) as Hnr. cbn [fragments_of] in *. case_decide; [done|].
  rewrite decide_False by (apply HV', rtc_refl). destruct (nodes !! n) as [st|] eqn:En; [|done].
  eapply fields_of_ext; [|done]. intros fi fs t [x cy] Hin Hv Hx Hcy. simpl in Hcy. rewrite Hcy in * by done.
  assert (links n t) as Hl by (by exists st, fi, fs). eapply IH; [done|]. intros m Hm.
  apply not_elem_of_union. split; [|apply HV'; by eapply rtc_l].
  intros ->%elem_of_singleton. apply Hnr. by eapply tc_rtc_r; [apply tc_once|].
Qed.

(** * The cache *)

Definition cache_ok (cache : gmap string (list DirectScalarIndexFragment)) : Prop :=
  ∀ n fr, cache !! n = Some fr → ∃ f V, fragments_of f V n = Some (fr, false).

Definition leads_to (V : gset string) (n : NodeId) : Prop := ∀ v, v ∈ V → tc links v n.

Lemma cache_hit f V n cache fr :
  cache_ok cache → leads_to V n → size (dom nodes ∖ V) < f → cache !! n = Some fr →
  fragments_of f V n = Some (fr, false).
Proof.
  intros Hc HV Hf Hn. destruct (Hc _ _ Hn) as (f0 & V0 & H0).
  destruct (fragments_of_total f V n Hf) as [r Hr].
  apply (fragments_of_irrelevant _ _ V) in H0 as H1.
  - rewrite Hr. apply (fragments_of_mono _ (f `max` f0)) in Hr; [|lia].
    apply (fragments_of_mono _ (f `max` f0)) in H1; [|lia]. congruence.
  - intros m Hm Hin. eapply fragments_of_no_return; [exact H0|]. eapply tc_rtc_l; [done|]. by apply HV.
Qed.

Lemma collect_fields_spec collect c n l cache :
  cache_ok cache →
  (∀ f fs t cache, (f, fs) ∈ l → value fs = FLink t → cache_ok cache →
     ∃ fr b cache', collect t cache = Some (fr, b, cache') ∧ c t = Some (fr, b) ∧ cache_ok cache') →
  ∃ fr b cache', collect_fields collect n l cache = Some (fr, b, cache') ∧
    fields_of c n l = Some (fr, b) ∧ cache_ok cache'.
Proof.
  revert cache. induction l as [|[f fs] l IH]; intros cache Hc Hl; cbn [collect_fields fields_of]; [eauto 7|].
  assert (∀ cache, cache_ok cache → ∃ fr b cache', collect_fields collect n l cache = Some (fr, b, cache') ∧
    fields_of c n l = Some (fr, b) ∧ cache_ok cache') as IH'.
  { intros cache' Hc'. apply IH; [done|]. intros f' fs' t cache'' Hin. apply (Hl f' fs' t). by right. }
  destruct (value fs) as [v|b|b|t|s] eqn:Ev; cbn [mbind option_bind].
  4: destruct (Hl f fs t cache ltac:(by left) Ev Hc) as (ch & b & cache1 & -> & -> & H1);
    destruct (IH' cache1 H1) as (fr & b' & cache2 & E1 & E2 & ?); cbn [mbind option_bind];
    rewrite E1, E2; cbn [mbind option_bind]; eauto 7.
  all: destruct (IH' cache Hc) as (fr & b' & cache2 & -> & -> & ?); cbn [mbind option_bind]; eauto 7.
Qed.

Lemma cached_fragments f V n cache :
  size (dom nodes ∖ V) < f → cache_ok cache → leads_to V n →
  ∃ fr b cache', storage_collect_scalar_fragments f nodes V n cache = Some (fr, b, cache') ∧
    fragments_of f V n = Some (fr, b) ∧ cache_ok cache'.
Proof.
  revert V n cache. induction f as [|f IH]; intros V n cache Hf Hc HV; [lia|].
  destruct (cache !! n) as [fr|] eqn:Hn.
  { pose proof (cache_hit _ _ _ _ _ Hc HV Hf Hn) as Hr. cbn [storage_collect_scalar_fragments]. rewrite Hn. eauto 7. }
  cbn [storage_collect_scalar_fragments]. rewrite Hn. destruct (decide (n ∈ V)) as [HnV|HnV].
  { cbn [fragments_of]. rewrite decide_True by done. eauto 7. }
  assert (∃ fr b cache',
    match nodes !! n with
    | Some state => collect_fields (storage_collect_scalar_fragments f nodes ({[n]} ∪ V)) n
                      (btree_list (fields state)) cache
    | None => Some ([], false, cache)
    end = Some (fr, b, cache') ∧ fragments_of (S f) V n = Some (fr, b) ∧ cache_ok cache')
    as (fr & b & cache' & -> & Hfr & Hc').
  { cbn [fragments_of]. rewrite decide_False by done. destruct (nodes !! n) as [st|] eqn:En; [|eauto 7].
    apply collect_fields_spec; [done|]. intros fi fs t cache' Hin Hv Hc'.
    assert (links n t) as Hl by (by exists st, fi, fs). apply IH; [|done|].
    - assert (size (dom nodes ∖ ({[n]} ∪ V)) < size (dom nodes ∖ V)); [|lia].
      apply subset_size. split; [set_solver|]. apply elem_of_dom_2 in En. set_solver.
    - intros v [->%elem_of_singleton|Hv']%elem_of_union; [by apply tc_once|].
      eapply tc_rtc_r; [by apply HV|by apply rtc_once]. }
  cbn [mbind option_bind]. do 3 eexists. split; [done|]. split; [done|].
  destruct b; [done|]. intros m fr' [[-> ->]|[_ Hm]]%lookup_insert_Some; [|by apply Hc']. eauto.
Qed.

(** * The index of a transaction *)

(** The entries of a node, from a descent of its own. *)
Definition node_index (node : NodeId) : gmap string DirectScalarIndexEntry :=
  index_fragments node (default [] (fst <$> fragments_of (fragment_fuel nodes) ∅ node)).

Lemma direct_scalar_indexes_spec n cache :
  cache_ok cache →
  (direct_scalar_indexes n nodes cache).1 = node_index n ∧ cache_ok (direct_scalar_indexes n nodes cache).2.
Proof.
  intros Hc. unfold direct_scalar_indexes, node_index.
  destruct (cached_fragments (fragment_fuel nodes) ∅ n cache) as (fr & b & cache' & -> & -> & Hc'); [|done|done|done].
  rewrite difference_empty_L, size_dom. unfold fragment_fuel. lia.
Qed.

Lemma index_fragments_node n l k e : index_fragments n l !! k = Some e → ie_node e = n ∧
  k = direct_index_key (ie_path e) (ie_sortable e) n.
Proof.
  unfold index_fragments. assert (∀ m : gmap string DirectScalarIndexEntry, (∀ k e, m !! k = Some e → ie_node e = n ∧
    k = direct_index_key (ie_path e) (ie_sortable e) n) → ∀ k e,
    foldl (λ m fr, <[direct_index_key (fr_path fr) (fr_sortable fr) n :=
      mkIndexEntry n (fr_path fr) (fr_value fr) (fr_sortable fr)]> m) m l !! k = Some e → ie_node e = n ∧
    k = direct_index_key (ie_path e) (ie_sortable e) n) as Hg; [|apply Hg; intros ? ? ?%lookup_empty_Some; done].
  induction l as [|fr l IH]; intros m Hm; [done|]. simpl. apply IH.
  intros k' e' [[<- <-]|[_ ?]]%lookup_insert_Some; [done|by apply Hm].
Qed.
End fragments.

(** * Index keys *)

Lemma hex_digit_free d : (0 ≤ d < 16)%Z → hex_digit d ≠ "/"%char.
Proof.
  intros Hd E. apply (f_equal (λ c, Z.of_N (Ascii.N_of_ascii c))) in E. rewrite hex_digit_spec in E by done.
  change (Z.of_N (Ascii.N_of_ascii "/"%char)) with 47%Z in E. destruct (Z.ltb_spec d 10); lia.
Qed.

Lemma encode_free s : free_of "/" (encode_component s) = true.
Proof.
  induction s as [|b s IH]; [done|]. cbn [encode_component]. rewrite free_of_app, IH, andb_true_r.
  destruct (nibbles b) as (? & ? & _). simpl. rewrite !bool_decide_eq_true_2 by (by apply hex_digit_free). done.
Qed.

Lemma encode_inj s t : encode_component s = encode_component t → s = t.
Proof. intros E. apply (f_equal decode_bytes) in E. rewrite !decode_encode_bytes in E. congruence. Qed.

Lemma slash_app s : "/" +:+ s = String "/" s.
Proof. done. Qed.

(** The parts of an index key: its path, its rank, its node. *)
Lemma direct_index_key_split p s n : free_of "/" s = true →
  split_on "/" (direct_index_key p s n) = ["direct"; encode_component p; s; encode_component n].
Proof.
  intros Hs. unfold direct_index_key. change ("direct/" +:+ ?x) with ("direct" +:+ String "/" x).
  rewrite !slash_app.
  by rewrite !split_on_app, (split_on_free _ s Hs), !(split_on_free _ (encode_component _)) by apply encode_free.
Qed.

Lemma direct_index_key_node p s n p' s' n' :
  direct_index_key p s n = direct_index_key p' s' n' → n = n'.
Proof.
  unfold direct_index_key. intros E. apply (f_equal (λ x, last (split_on "/" x))) in E. revert E.
  change ("direct/" +:+ ?x) with ("direct" +:+ String "/" x).
  rewrite !slash_app.
  rewrite !split_on_app, !(split_on_free _ (encode_component _)) by apply encode_free.
  rewrite !app_assoc, !last_snoc. intros [= E]. by apply encode_inj.
Qed.

Section index_exact.
Context `{StoreEnv}.

Lemma node_index_key nodes n k e : node_index nodes n !! k = Some e → ie_node e = n ∧
  k = direct_index_key (ie_path e) (ie_sortable e) n.
Proof. apply index_fragments_node. Qed.

Definition build_inv (nodes : gmap string NodeState) (done : list (string * NodeState))
    (acc : StorageTransaction * gmap string (list DirectScalarIndexFragment)) : Prop :=
  cache_ok nodes acc.2 ∧
  (∀ n, tx_node_indexes acc.1 !! n =
     if decide (n ∈ done.*1) then Some (mkManifest (btree_keys (node_index nodes n))) else None) ∧
  (∀ k e, tx_direct_indexes acc.1 !! k = Some e ↔
     ∃ n, n ∈ done.*1 ∧ node_index nodes n !! k = Some e).

Lemma build_step_inv nodes done acc entry :
  build_inv nodes done acc → build_inv nodes (done ++ [entry]) (build_step nodes acc entry).
Proof.
  destruct acc as [t cache], entry as [n st]. intros (Hc & Hm & Hd). unfold build_step.
  destruct (direct_scalar_indexes_spec nodes n cache Hc) as [E Hc'].
  destruct (direct_scalar_indexes n nodes cache) as [direct cache']. simpl in E, Hc'. subst direct.
  destruct (if is_record_node_id n then _ else _) as [recs deleted]. split_and!; simpl in *; [done| |].
  - intros m. rewrite fmap_app. simpl. destruct (decide (m = n)) as [->|].
    + rewrite lookup_insert_eq, decide_True by (apply elem_of_app; right; by left). done.
    + rewrite lookup_insert_ne, Hm by done. apply decide_ext. rewrite elem_of_app, list_elem_of_singleton. tauto.
  - intros k e. rewrite lookup_union_Some_raw, Hd. rewrite fmap_app. simpl.
    setoid_rewrite elem_of_app. setoid_rewrite list_elem_of_singleton. split.
    + intros [He|[_ (m & Hm' & He)]]; eauto.
    + intros (m & [Hm'| ->] & He); [|by left].
      destruct (node_index nodes n !! k) as [e'|] eqn:E'; [|eauto].
      destruct (node_index_key _ _ _ _ He) as [_ Hk], (node_index_key _ _ _ _ E') as [_ Hk'].
      rewrite Hk in Hk'. apply direct_index_key_node in Hk' as ->. left. congruence.
Qed.

(** The index a storage transaction carries, built with fragments shared between
nodes, is the one each node's own descent gives: every node's manifest lists
exactly its keys, and the entries are exactly those of its nodes. *)
Lemma storage_index_exact i m nodes :
  let t := build_storage_transaction i m nodes in
  (∀ n, tx_node_indexes t !! n =
     if decide (is_Some (nodes !! n)) then Some (mkManifest (btree_keys (node_index nodes n))) else None) ∧
  (∀ k e, tx_direct_indexes t !! k = Some e ↔
     ∃ n, is_Some (nodes !! n) ∧ node_index nodes n !! k = Some e).
Proof.
  intros t. assert (∀ l done acc, build_inv nodes done acc → build_inv nodes (done ++ l) (foldl (build_step nodes) acc l)) as Hl.
  { induction l as [|x l IH]; intros done acc Hi; [by rewrite app_nil_r|]. simpl.
    rewrite cons_middle, app_assoc. by apply IH, build_step_inv. }
  destruct (Hl (btree_list nodes) [] (mkStorageTx i m nodes ∅ ∅ ∅ ∅ ∅ [], ∅)) as (_ & Hn & Hd).
  { split_and!; simpl; [by intros ? ? ?%lookup_empty_Some|done|]. intros k e. rewrite lookup_empty.
    split; [done|]. intros (? & ?%not_elem_of_nil & _). done. }
  split.
  - intros n. unfold t, build_storage_transaction. rewrite Hn. apply decide_ext. apply elem_of_btree_keys.
  - intros k e. unfold t, build_storage_transaction. rewrite Hd. by setoid_rewrite elem_of_btree_keys.
Qed.
End index_exact.
