(* ===== verification/Segment.v ===== *)
(** The segment file store ([SegmentFileStore] of [src/src/engine.rs]): a file
system of named files that may fail after any change, the write-ahead journal, the
materialization of a commit, recovery and vacuum.

A file's content is the value whose serialization was written; [FileOther] is text
that no reader parses.  Directories are implied by the files in them, and the
[fsync] calls change no content, so neither is represented. *)
From stdpp Require Import base gmap sets list strings sorting.
From Stdlib Require Import ZArith Lia.
From S2P Require Import Prelude Clock Value Crdt OpQueue Paths Records Keys Engine.

(** * Files *)

Record SegmentCommitPayload := mkPayload {
  pl_schema_version : Z;
  pl_transaction : StorageTransaction;
  direct_index_removals : list string
}.

Record SegmentCommitRecord := mkCommit {
  cr_payload : SegmentCommitPayload;
  cr_checksum : string
}.

Record SegmentCheckpointRecord := mkCheckpoint {
  ck_schema_version : Z;
  checkpoint_tx_id : Z;
  ck_payload : SegmentCommitPayload;
  ck_checksum : string
}.

Abbreviation DirectIndexBucket := (gmap string DirectScalarIndexEntry).

Inductive content :=
  | FileNode (state : NodeState)
  | FileAuth (meta : AuthNodeMeta)
  | FileManifest (manifest : NodeIndexManifest)
  | FileBucket (entries : DirectIndexBucket)
  | FileRecord (entry : RecordEntry)
  | FileMetadata (metadata : StorageMetadata)
  | FileCommit (record : SegmentCommitRecord)
  | FileCheckpoint (record : SegmentCheckpointRecord)
  | FileOther (text : string).

(** A path below the store's root, by components. *)
Abbreviation fpath := (list string).

(** The disk: its files, the number of temporary files made, and after how many
more changes it fails, if it does. *)
Record Disk := mkDisk {
  files : gmap fpath content;
  temp_counter : Z;
  faults : option nat
}.

Inductive SegmentDurability := Relaxed | Data | Full.
Inductive SegmentWriteMode := Configured | Wal | Commit | Checkpoint.

Record SegmentFileStore := mkSegmentStore {
  journal_retention : nat;
  durability : SegmentDurability
}.

Record StorageRecoveryReport := mkRecovery {
  applied_transactions : nat;
  skipped_transactions : nat;
  removed_pending_files : nat;
  removed_temp_files : nat;
  quarantined_files : nat
}.

(** The process id and time in a temporary file's name, at its [n]-th use, and the
checksums, which are hashes of serialized values. *)
Class SegmentEnv := {
  process_id : Z;
  temp_millis : Z → Z;
  payload_checksum : SegmentCommitPayload → string;
  checkpoint_checksum : Z → Z → SegmentCommitPayload → string
}.

(** * Disk operations *)

Definition D (A : Type) : Type := Disk → Disk * result A.

#[global] Instance D_ret : MRet D := λ A a d, (d, Ok a).
#[global] Instance D_bind : MBind D := λ A B f m d,
  match m d with
  | (d', Ok a) => f a d'
  | (d', Err e) => (d', Err e)
  end.

Definition dfail {A} (e : PrimadbError) : D A := λ d, (d, Err e).
Definition dlift {A} (r : result A) : D A := λ d, (d, r).
Definition look {A} (f : Disk → A) : D A := λ d, (d, Ok (f d)).

(** One change to the files, which may be the one that fails. *)
Definition change (f : gmap fpath content → gmap fpath content) : D unit := λ d,
  match faults d with
  | Some O => (d, Err (Io "disk failure"))
  | Some (S n) => (mkDisk (f (files d)) (temp_counter d) (Some n), Ok tt)
  | None => (mkDisk (f (files d)) (temp_counter d) None, Ok tt)
  end.

Fixpoint for_each {A} (f : A → D unit) (l : list A) : D unit :=
  match l with
  | [] => mret tt
  | x :: rest => _ ← f x; for_each f rest
  end.

(** A result that is dropped: [let _ = ...]. *)
Definition ignore {A} (m : D A) : D unit := λ d, ((m d).1, Ok tt).

(** * Names *)

(** The decimal digits of a number, and [{:020}]. *)
Definition dec_digit (d : Z) : Ascii.ascii := Ascii.ascii_of_N (Z.to_N (48 + d)).

Fixpoint dec_width (width : nat) (n : Z) : string :=
  match width with
  | O => ""
  | S w => String (dec_digit (n / 10 ^ Z.of_nat w)) (dec_width w (n mod 10 ^ Z.of_nat w))
  end.

Fixpoint dec_digits (fuel : nat) (n : Z) (acc : string) : string :=
  match fuel with
  | O => acc
  | S f =>
      let acc := String (dec_digit (n mod 10)) acc in
      if (n <? 10)%Z then acc else dec_digits f (n / 10) acc
  end.

(** Twenty digits are enough for a [u64]. *)
Definition dec (n : Z) : string := dec_digits 20 n "".

(** [str::parse::<u64>]. *)
Fixpoint parse_digits (s : string) (acc : Z) : option Z :=
  match s with
  | EmptyString => Some acc
  | String b rest =>
      let d := (Z.of_N (Ascii.N_of_ascii b) - 48)%Z in
      if ((0 <=? d) && (d <=? 9))%Z then parse_digits rest (acc * 10 + d) else None
  end.

Definition parse_u64 (s : string) : option Z :=
  let digits := match s with String b rest => if decide (b = "+"%char) then rest else s | _ => s end in
  if decide (digits = "") then None
  else match parse_digits digits 0 with
       | Some n => if (n <=? u64_max)%Z then Some n else None
       | None => None
       end.

Definition temp_suffix `{SegmentEnv} (counter : Z) : string :=
  ".tmp-" +:+ dec process_id +:+ "-" +:+ dec (temp_millis counter) +:+ "-" +:+ dec counter.

(** [temp_path_for]: the suffix goes to the file name, the last component. *)
Definition temp_path_for `{SegmentEnv} (p : fpath) (counter : Z) : fpath :=
  match reverse p with
  | name :: up => reverse ((name +:+ temp_suffix counter) :: up)
  | [] => ["primadb" +:+ temp_suffix counter]
  end.

Section names.
Context `{StoreEnv}.

Definition json_file (stem : string) : string := stem +:+ ".json".

Definition manifest_path : fpath := ["manifest.json"].
Definition checkpoint_path : fpath := ["checkpoint.json"].
Definition node_path (n : NodeId) : fpath := ["nodes"; json_file (encode_component n)].
Definition auth_meta_path (n : NodeId) : fpath := ["auth"; json_file (encode_component n)].
Definition node_index_manifest_path (n : NodeId) : fpath :=
  ["node_indexes"; json_file (encode_component n)].

Definition DIRECT_INDEX_LITERAL_COMPONENT_LIMIT : nat := 120.

Definition safe_direct_index_component (c : string) : string :=
  if String.length c <=? DIRECT_INDEX_LITERAL_COMPONENT_LIMIT then "v_" +:+ c
  else "h_" +:+ store_hash c.

Definition literal_direct_index_component (c : string) : option string := strip_prefix "v_" c.

Definition direct_index_key_parts (key : string) : option (string * string * string) :=
  match split_on "/" key with
  | [kind; p; sortable; n] => if decide (kind = "direct") then Some (p, sortable, n) else None
  | _ => None
  end.

(** [PathBuf::set_extension]: what follows the last dot of the file name goes,
unless the dot begins the name. *)
Fixpoint before_last_dot (s : string) : option string :=
  match s with
  | EmptyString => None
  | String b rest =>
      match before_last_dot rest with
      | Some stem => Some (String b stem)
      | None => if decide (b = "."%char) then Some "" else None
      end
  end.

Definition set_extension_json (name : string) : string :=
  match before_last_dot name with
  | Some stem => if decide (stem = "") then json_file name else json_file stem
  | None => json_file name
  end.

Definition direct_index_root (p : string) : fpath :=
  ["indexes"; "direct"; safe_direct_index_component (encode_component p)].

Definition direct_index_path (key : string) : fpath :=
  match direct_index_key_parts key with
  | Some (p, sortable, n) =>
      ["indexes"; "direct"; safe_direct_index_component p; safe_direct_index_component sortable;
       json_file (safe_direct_index_component n)]
  | None =>
      "indexes" ::
      match reverse (safe_direct_index_component <$> split_on "/" key) with
      | name :: up => reverse (set_extension_json name :: up)
      | [] => []
      end
  end.

Definition RECORD_KEY_CHUNK_HEX : nat := 64.
Definition RECORD_KEY_INDEX_HEX_LIMIT : nat := 512.

(** [as_bytes().chunks(n)]. *)
Fixpoint chunks (fuel n : nat) (s : string) : list string :=
  match fuel, s with
  | _, EmptyString | O, _ => []
  | S f, _ => String.substring 0 n s :: chunks f n (String.substring n (String.length s - n) s)
  end.

Definition record_entries_root : fpath := ["records"; "by_key"].

Definition record_components (key : string) : fpath :=
  let encoded := encode_component key in
  if decide (encoded = "") then ["_empty"]
  else
    let indexed := String.substring 0 (min (String.length encoded) RECORD_KEY_INDEX_HEX_LIMIT) encoded in
    chunks (String.length indexed) RECORD_KEY_CHUNK_HEX indexed ++
    (if RECORD_KEY_INDEX_HEX_LIMIT <? String.length encoded then ["_overflow"; store_hash key] else []).

Definition record_entry_path (key : string) : fpath :=
  record_entries_root ++ record_components key ++ ["entry.json"].

Definition journal_name (pending : bool) (tx : Z) : string :=
  (if pending then "pending-" else "tx-") +:+ dec_width 20 tx +:+ ".json".

Definition journal_pending_path (tx : Z) : fpath := ["journal"; journal_name true tx].
Definition journal_final_path (tx : Z) : fpath := ["journal"; journal_name false tx].

Definition journal_file_key (name : string) : option (Z * bool) :=
  match strip_prefix "pending-" name ≫= strip_suffix ".json" with
  | Some raw => (λ tx, (tx, true)) <$> parse_u64 raw
  | None =>
      match strip_prefix "tx-" name ≫= strip_suffix ".json" with
      | Some raw => (λ tx, (tx, false)) <$> parse_u64 raw
      | None => None
      end
  end.
End names.

(** * Commits *)

Definition SEGMENT_COMMIT_SCHEMA_VERSION : Z := 1.
Definition SEGMENT_CHECKPOINT_SCHEMA_VERSION : Z := 1.

Definition path_le (x y : fpath) : Prop := ole x y.

#[global] Instance path_le_dec : RelDecision path_le.
Proof. intros x y. unfold path_le, ole. apply _. Defined.

Definition journal_le (x y : Z * bool * fpath) : Prop :=
  (x.1.1 < y.1.1)%Z ∨ x.1.1 = y.1.1 ∧ (x.1.2 = false ∨ y.1.2 = true).

#[global] Instance journal_le_dec : RelDecision journal_le.
Proof. intros x y. unfold journal_le. apply _. Defined.

Section store.
Context `{StoreEnv, SegmentEnv} (store : SegmentFileStore).

Definition file_exists (p : fpath) : D bool := look (λ d, bool_decide (is_Some (files d !! p))).

Definition next_temp (p : fpath) : D fpath := λ d,
  (mkDisk (files d) (temp_counter d + 1) (faults d), Ok (temp_path_for p (temp_counter d))).

(** [write_file_batched_with_mode].  A relaxed store truncates the file and then
fills it; the others fill a temporary file and rename it over the old one. *)
Definition write_file (p : fpath) (c : content) (mode : SegmentWriteMode) : D unit :=
  let sync_file :=
    match mode, durability store with
    | (Configured | Checkpoint), Relaxed => false
    | (Configured | Checkpoint), _ => true
    | Commit, Data => true
    | Commit, _ => false
    | Wal, _ => true
    end in
  match sync_file, durability store with
  | false, Relaxed =>
      _ ← change <[p := FileOther ""]>;
      change <[p := c]>
  | _, _ =>
      temp ← next_temp p;
      _ ← change <[temp := FileOther ""]>;
      _ ← change <[temp := c]>;
      change (λ fs, <[p := c]> (delete temp fs))
  end.

Definition remove_file (p : fpath) : D bool :=
  there ← file_exists p;
  if there : bool then _ ← change (delete p); mret true else mret false.

(** [replace_file] and [std::fs::rename]. *)
Definition rename (from to : fpath) : D unit :=
  c ← look (λ d, files d !! from);
  match c with
  | Some c => change (λ fs, <[to := c]> (delete from fs))
  | None => dfail (Io "no such file")
  end.

Definition serde_error : PrimadbError := Serde "invalid content".

Definition read_direct_index_bucket_path (p : fpath) : D DirectIndexBucket :=
  c ← look (λ d, files d !! p);
  match c with
  | None => mret ∅
  | Some (FileBucket b) => mret b
  | Some _ => dfail serde_error
  end.

Definition load_node_index_manifest (n : NodeId) : D NodeIndexManifest :=
  c ← look (λ d, files d !! node_index_manifest_path n);
  match c with
  | None => mret (mkManifest [])
  | Some (FileManifest m) => mret m
  | Some _ => dfail serde_error
  end.

(** The keys of one node's previous manifest that its next one drops. *)
Definition manifest_removals (entry : string * NodeIndexManifest) : D (list string) :=
  previous ← load_node_index_manifest entry.1;
  mret (filter (λ k, k ∉ direct_index_keys entry.2) (direct_index_keys previous)).

Fixpoint collect_removals (l : list (string * NodeIndexManifest)) : D (list string) :=
  match l with
  | [] => mret []
  | entry :: rest =>
      here ← manifest_removals entry;
      more ← collect_removals rest;
      mret (here ++ more)
  end.

(** [build_commit_payload]; sorting and [dedup] give the ordered set of the keys. *)
Definition build_commit_payload (t : StorageTransaction) : D SegmentCommitPayload :=
  removals ← collect_removals (btree_list (tx_node_indexes t));
  mret (mkPayload SEGMENT_COMMIT_SCHEMA_VERSION t (btree_elems (list_to_set removals))).

Definition commit_record_for_payload (p : SegmentCommitPayload) : SegmentCommitRecord :=
  mkCommit p (payload_checksum p).

Definition validate_commit_record (r : SegmentCommitRecord) : result SegmentCommitPayload :=
  if negb (pl_schema_version (cr_payload r) =? SEGMENT_COMMIT_SCHEMA_VERSION)%Z
  then Err (Message "segment commit schema version is unsupported")
  else if decide (payload_checksum (cr_payload r) = cr_checksum r) then Ok (cr_payload r)
  else Err (Message "segment commit checksum mismatch").

Definition checkpoint_record_for_payload (p : SegmentCommitPayload) (tx : Z)
    : SegmentCheckpointRecord :=
  mkCheckpoint SEGMENT_CHECKPOINT_SCHEMA_VERSION tx p
    (checkpoint_checksum SEGMENT_CHECKPOINT_SCHEMA_VERSION tx p).

Definition validate_checkpoint_record (r : SegmentCheckpointRecord)
    : result (Z * SegmentCommitPayload) :=
  if negb (ck_schema_version r =? SEGMENT_CHECKPOINT_SCHEMA_VERSION)%Z
  then Err (Message "segment checkpoint schema version is unsupported")
  else if decide (checkpoint_checksum (ck_schema_version r) (checkpoint_tx_id r) (ck_payload r) = ck_checksum r)
  then Ok (checkpoint_tx_id r, ck_payload r)
  else Err (Message "segment checkpoint checksum mismatch").

Definition read_commit_record (c : content) : result SegmentCommitPayload :=
  match c with FileCommit r => validate_commit_record r | _ => Err serde_error end.

Definition read_checkpoint (c : content) : result (Z * SegmentCommitPayload) :=
  match c with FileCheckpoint r => validate_checkpoint_record r | _ => Err serde_error end.

Definition write_pending_commit (p : SegmentCommitPayload) : D fpath :=
  let pending := journal_pending_path (tx_id (pl_transaction p)) in
  _ ← write_file pending (FileCommit (commit_record_for_payload p))
        (match durability store with Full => Wal | _ => Configured end);
  mret pending.

Definition write_checkpoint (p : SegmentCommitPayload) (tx : Z) : D unit :=
  write_file checkpoint_path (FileCheckpoint (checkpoint_record_for_payload p tx)) Checkpoint.

(** * Materializing a commit *)

(** The buckets read so far, each with whether it was changed. *)
Abbreviation open_buckets := (gmap fpath (DirectIndexBucket * bool)).

Definition open_bucket (p : fpath) (buckets : open_buckets) : D (DirectIndexBucket * bool) :=
  match buckets !! p with
  | Some b => mret b
  | None => b ← read_direct_index_bucket_path p; mret (b, false)
  end.

Definition remove_from_bucket (buckets : open_buckets) (key : string) : D open_buckets :=
  b ← open_bucket (direct_index_path key) buckets;
  mret (<[direct_index_path key :=
    if decide (is_Some (b.1 !! key)) then (delete key b.1, true) else b]> buckets).

(** [!=] between entries is structural: the entries of one key have one rank, so
the two zeros, which IEEE equality would identify, do not meet here. *)
Definition insert_into_bucket (t : StorageTransaction) (buckets : open_buckets) (key : string)
    : D open_buckets :=
  match tx_direct_indexes t !! key with
  | None => mret buckets
  | Some entry =>
      b ← open_bucket (direct_index_path key) buckets;
      mret (<[direct_index_path key :=
        if decide (b.1 !! key = Some entry) then b else (<[key := entry]> b.1, true)]> buckets)
  end.

Fixpoint fold_buckets (f : open_buckets → string → D open_buckets) (keys : list string)
    (buckets : open_buckets) : D open_buckets :=
  match keys with
  | [] => mret buckets
  | key :: rest => buckets ← f buckets key; fold_buckets f rest buckets
  end.

Definition write_bucket (mode : SegmentWriteMode) (entry : fpath * (DirectIndexBucket * bool))
    : D unit :=
  let '(p, (bucket, changed)) := entry in
  if negb changed then mret tt
  else if decide (bucket = ∅) then
    there ← file_exists p;
    if there : bool then _ ← remove_file p; mret tt else mret tt
  else write_file p (FileBucket bucket) mode.

Definition path_key_le {V} (x y : fpath * V) : Prop := path_le x.1 y.1.

#[global] Instance path_key_le_dec {V} : RelDecision (@path_key_le V).
Proof. intros x y. unfold path_key_le. apply _. Defined.

(** The keys inserted: those of every manifest of the transaction. *)
Definition inserted_keys (t : StorageTransaction) : list string :=
  btree_list (tx_node_indexes t) ≫= λ entry, direct_index_keys entry.2.

Definition materialize_direct_index_changes (p : SegmentCommitPayload) (mode : SegmentWriteMode)
    : D unit :=
  buckets ← fold_buckets remove_from_bucket (direct_index_removals p) ∅;
  buckets ← fold_buckets (insert_into_bucket (pl_transaction p))
              (inserted_keys (pl_transaction p)) buckets;
  for_each (write_bucket mode) (merge_sort path_key_le (map_to_list buckets)).

Definition materialize_commit_payload_with_mode (p : SegmentCommitPayload)
    (mode : SegmentWriteMode) : D unit :=
  let t := pl_transaction p in
  _ ← for_each (λ e, write_file (node_path e.1) (FileNode e.2) mode) (btree_list (tx_nodes t));
  _ ← for_each (λ e, write_file (auth_meta_path e.1) (FileAuth e.2) mode)
        (btree_list (tx_auth_meta t));
  _ ← materialize_direct_index_changes p mode;
  _ ← for_each (λ e, write_file (node_index_manifest_path e.1) (FileManifest e.2) mode)
        (btree_list (tx_node_indexes t));
  _ ← for_each (λ key, _ ← remove_file (record_entry_path key); mret tt)
        (btree_elems (tx_deleted_records t));
  _ ← for_each (λ e, write_file (record_entry_path (entry_key e.2)) (FileRecord e.2) mode)
        (btree_list (tx_records t));
  write_file manifest_path (FileMetadata (tx_metadata t)) mode.

(** * The journal *)

(** The files of the journal directory. *)
Definition in_journal (p : fpath) : option string :=
  match p with [dir; name] => if decide (dir = "journal") then Some name else None | _ => None end.

Definition journal_dir (d : Disk) : list (string * content) :=
  omap (λ e, (λ name, (name, e.2)) <$> in_journal e.1) (map_to_list (files d)).

Definition prune_journal_with_report : D nat :=
  names ← look journal_dir;
  let entries := merge_sort path_le
    ((λ e, ["journal"; e.1]) <$> filter (λ e, starts_with e.1 "tx-" = true) names) in
  if length entries <=? journal_retention store then mret 0
  else
    let count := length entries - journal_retention store in
    _ ← for_each (λ p, ignore (remove_file p)) (take count entries);
    mret count.

Definition prune_journal : D unit :=
  match durability store with
  | Full => mret tt
  | _ => _ ← prune_journal_with_report; mret tt
  end.

Definition apply_transaction (t : StorageTransaction) : D unit :=
  payload ← build_commit_payload t;
  pending ← write_pending_commit payload;
  _ ← materialize_commit_payload_with_mode payload Commit;
  _ ← rename pending (journal_final_path (tx_id t));
  prune_journal.

(** * Recovery *)

Definition bump_quarantined (r : StorageRecoveryReport) : StorageRecoveryReport :=
  mkRecovery (applied_transactions r) (skipped_transactions r) (removed_pending_files r)
    (removed_temp_files r) (S (quarantined_files r)).

(** [path.with_extension("corrupt")] on a name that ends in [.json]. *)
Definition corrupt_path (p : fpath) : fpath :=
  match reverse p with
  | name :: up => reverse ((default name (strip_suffix "json" name) +:+ "corrupt") :: up)
  | [] => []
  end.

Definition recover_checkpoint (report : StorageRecoveryReport) : D (Z * StorageRecoveryReport) :=
  c ← look (λ d, files d !! checkpoint_path);
  match c with
  | None => mret (0%Z, report)
  | Some c =>
      match read_checkpoint c with
      | Ok (tx, payload) =>
          _ ← materialize_commit_payload_with_mode payload Checkpoint;
          mret (tx, report)
      | Err _ =>
          _ ← ignore (rename checkpoint_path (corrupt_path checkpoint_path));
          mret (0%Z, bump_quarantined report)
      end
  end.

Fixpoint remove_temp_files (names : list string) (count : nat) : D nat :=
  match names with
  | [] => mret count
  | name :: rest =>
      if contains_str name ".tmp-" then
        _ ← remove_file ["journal"; name];
        remove_temp_files rest (S count)
      else remove_temp_files rest count
  end.

Definition journal_files (names : list string) : list (Z * bool * fpath) :=
  merge_sort journal_le
    (omap (λ name, if contains_str name ".tmp-" then None
                   else (λ k, (k, ["journal"; name])) <$> journal_file_key name) names).

(** The loop over the journal: a record that does not validate is set aside, one
that is already covered is skipped, the others are materialized in order. *)
Fixpoint recover_journal (l : list (Z * bool * fpath)) (last : Z)
    (report : StorageRecoveryReport) : D StorageRecoveryReport :=
  match l with
  | [] => mret report
  | (_, pending, p) :: rest =>
      c ← look (λ d, files d !! p);
      match (match c with Some c => read_commit_record c | None => Err (Io "no such file") end) with
      | Err _ =>
          _ ← ignore (rename p (corrupt_path p));
          recover_journal rest last (bump_quarantined report)
      | Ok payload =>
          let tx := tx_id (pl_transaction payload) in
          if (tx <=? last)%Z then
            _ ← (if pending : bool then _ ← remove_file p; mret tt else mret tt);
            recover_journal rest last
              (mkRecovery (applied_transactions report) (S (skipped_transactions report))
                 ((if pending then S else Datatypes.id) (removed_pending_files report))
                 (removed_temp_files report) (quarantined_files report))
          else
            _ ← materialize_commit_payload_with_mode payload Commit;
            _ ← (if pending then
                   there ← file_exists (journal_final_path tx);
                   if there : bool then _ ← remove_file p; mret tt
                   else rename p (journal_final_path tx)
                 else mret tt);
            recover_journal rest (Z.max last tx)
              (mkRecovery (S (applied_transactions report)) (skipped_transactions report)
                 (removed_pending_files report) (removed_temp_files report) (quarantined_files report))
      end
  end.

Definition recover : D StorageRecoveryReport :=
  '(last, report) ← recover_checkpoint (mkRecovery 0 0 0 0 0);
  names ← look (λ d, (journal_dir d).*1);
  temps ← remove_temp_files names 0;
  recover_journal (journal_files names) last
    (mkRecovery (applied_transactions report) (skipped_transactions report)
       (removed_pending_files report) temps (quarantined_files report)).

Definition read_manifest_unrecovered : D (option StorageMetadata) :=
  c ← look (λ d, files d !! manifest_path);
  match c with
  | None => mret None
  | Some (FileMetadata m) =>
      if (schema_version m =? STORAGE_SCHEMA_VERSION)%Z then mret (Some m)
      else dfail (Message "storage schema version is unsupported")
  | Some _ => dfail serde_error
  end.

Definition load_metadata : D (option StorageMetadata) :=
  _ ← recover; read_manifest_unrecovered.

Definition segment_get_node (n : NodeId) : D (option NodeState) :=
  c ← look (λ d, files d !! node_path n);
  match c with
  | None => mret None
  | Some (FileNode st) => mret (Some st)
  | Some _ => dfail serde_error
  end.
End store.
