(* ===== verification/Cells.v ===== *)
(** The files of the segment store seen as cells: a whole file, or one entry of an
index bucket.  A commit is a list of assignments to cells, and materializing it
performs them in order; whatever change the disk fails at, no other cell is
touched. *)
From stdpp Require Import base gmap sets list strings sorting.
From Stdlib Require Import ZArith Lia.
From S2P Require Import Prelude Clock Value Crdt OpQueue Paths Records Keys Engine Segment.

Section cells.
Context `{StoreEnv, SegmentEnv}.

(** * Paths *)

(** The name of every file the store reads ends in [.json]; a temporary file's ends
in a digit. *)
Definition json_path (p : fpath) : Prop := ∃ up s, p = up ++ [json_file s].

Fixpoint last_char (s : string) : option Ascii.ascii :=
  match s with
  | EmptyString => None
  | String b EmptyString => Some b
  | String _ rest => last_char rest
  end.

Lemma last_char_app s t : t ≠ "" → last_char (s +:+ t) = last_char t.
Proof.
  intros Ht. induction s as [|b s IH]; [done|]. rewrite str_app_cons. simpl. rewrite <-IH.
  destruct (s +:+ t) eqn:E; [|done]. destruct s; [by rewrite str_app_nil_l in E|done].
Qed.

Lemma dec_digits_last fuel n acc : last_char acc ≠ None → last_char (dec_digits fuel n acc) = last_char acc.
Proof.
  revert n acc. induction fuel as [|f IH]; intros n acc Ha; [done|]. cbn [dec_digits].
  assert (∀ b, last_char (String b acc) = last_char acc) as Hb by (by destruct acc).
  destruct (n <? 10)%Z; [done|]. rewrite IH; [done|by rewrite Hb].
Qed.

Lemma dec_last n : ∃ d, last_char (dec n) = Some (dec_digit d) ∧ (0 ≤ d < 10)%Z.
Proof.
  exists (n mod 10)%Z. split; [|apply Z.mod_pos_bound; lia]. unfold dec. generalize 19 as f. intros f.
  cbn [dec_digits]. destruct (n <? 10)%Z; [done|]. by rewrite dec_digits_last.
Qed.

Lemma dec_digit_spec d : (0 ≤ d < 10)%Z → Z.of_N (Ascii.N_of_ascii (dec_digit d)) = (48 + d)%Z.
Proof. intros Hd. unfold dec_digit. rewrite Ascii.N_ascii_embedding; lia. Qed.

Lemma temp_name_last a n : ∃ d, last_char (a +:+ temp_suffix n) = Some (dec_digit d) ∧ (0 ≤ d < 10)%Z.
Proof.
  destruct (dec_last n) as (d & Hd & Hr). exists d. split; [|done]. unfold temp_suffix.
  assert (dec n ≠ "") by (intros Hn; by rewrite Hn in Hd).
  assert (∀ x y, y ≠ "" → x +:+ y ≠ "") as Hne by (intros [|b x] y Hy; [by rewrite str_app_nil_l|by rewrite str_app_cons]).
  by rewrite !last_char_app by auto 10.
Qed.

(** A name whose last letter is no digit is no temporary file's. *)
Lemma temp_name_ne a n s b : last_char s = Some b → (57 < Z.of_N (Ascii.N_of_ascii b))%Z → a +:+ temp_suffix n ≠ s.
Proof.
  intros Hs Hb <-. destruct (temp_name_last a n) as (d & Hd & Hr). rewrite Hd in Hs. injection Hs as <-.
  rewrite dec_digit_spec in Hb by done. lia.
Qed.

Lemma temp_path_last p n : ∃ a, last (temp_path_for p n) = Some (a +:+ temp_suffix n) ∧
  (head (temp_path_for p n) = head p ∨ head (temp_path_for p n) = Some (a +:+ temp_suffix n)).
Proof.
  unfold temp_path_for. destruct (reverse p) as [|name r] eqn:E; [exists "primadb"; auto|].
  exists name. rewrite reverse_cons, last_snoc. split; [done|].
  apply (f_equal reverse) in E. rewrite reverse_involutive, reverse_cons in E. subst p.
  destruct (reverse r) as [|x y]; simpl; auto.
Qed.

Lemma temp_not_json p n : ¬ json_path (temp_path_for p n).
Proof.
  intros (up & s & E). destruct (temp_path_last p n) as (a & Ha & _). rewrite E, last_snoc in Ha.
  injection Ha as Ha. symmetry in Ha. revert Ha. eapply temp_name_ne; [by unfold json_file; rewrite last_char_app|].
  by vm_compute.
Qed.

Lemma temp_head p n : head p ≠ Some "journal" → head (temp_path_for p n) ≠ Some "journal".
Proof.
  intros Hp. destruct (temp_path_last p n) as (a & _ & [E|E]); rewrite E; [done|]. intros [= E']. revert E'.
  eapply temp_name_ne; [done|]. by vm_compute.
Qed.

Lemma temp_ne p q n : json_path q → temp_path_for p n ≠ q.
Proof. intros Hq <-. by apply temp_not_json in Hq. Qed.

Lemma set_extension_json_ex name : ∃ s, set_extension_json name = json_file s.
Proof. unfold set_extension_json. destruct (before_last_dot name); [case_decide|]; eauto. Qed.

Lemma direct_index_path_shape k : json_path (direct_index_path k) ∧ head (direct_index_path k) = Some "indexes".
Proof.
  unfold direct_index_path. destruct (direct_index_key_parts k) as [[[p s] n]|].
  - split; [|done]. by eexists [_; _; _; _], _.
  - split; [|done]. destruct (split_on_cons "/" k) as (x & xs & ->). rewrite fmap_cons, reverse_cons.
    destruct (reverse (safe_direct_index_component <$> xs) ++ _) as [|name up] eqn:E; [by destruct (reverse _)|].
    destruct (set_extension_json_ex name) as [s ->]. exists ("indexes" :: reverse up), s.
    by rewrite reverse_cons.
Qed.

(** * Cells *)

Inductive cell :=
  | CFile (p : fpath)
  | CIndex (key : string).

Inductive cell_value :=
  | VContent (c : content)
  | VEntry (e : DirectScalarIndexEntry).

#[global] Instance cell_eq_dec : EqDecision cell.
Proof. solve_decision. Defined.

Definition cell_get (fs : gmap fpath content) (c : cell) : option cell_value :=
  match c with
  | CFile p => VContent <$> fs !! p
  | CIndex k =>
      match fs !! direct_index_path k with
      | Some (FileBucket b) => VEntry <$> b !! k
      | _ => None
      end
  end.

(** The files a commit writes whole. *)
Definition store_path (p : fpath) : Prop :=
  json_path p ∧ head p ≠ Some "indexes" ∧ head p ≠ Some "journal" ∧ p ≠ checkpoint_path.

Definition tracked (c : cell) : Prop :=
  match c with CFile p => store_path p | CIndex _ => True end.

Definition assignment : Type := cell * option cell_value.

Definition last_assign (l : list assignment) (c : cell) (v : option cell_value) : option cell_value :=
  foldl (λ v a, if decide (a.1 = c) then a.2 else v) v l.

Lemma last_assign_app l k c v : last_assign (l ++ k) c v = last_assign k c (last_assign l c v).
Proof. apply foldl_app. Qed.

Lemma last_assign_untouched l c v : c ∉ l.*1 → last_assign l c v = v.
Proof.
  revert v. induction l as [|[c' v'] l IH]; intros v Hc; [done|]. simpl in *.
  apply not_elem_of_cons in Hc as [? ?]. rewrite decide_False by congruence. by apply IH.
Qed.

Lemma last_assign_touched l c v v' : c ∈ l.*1 → last_assign l c v = last_assign l c v'.
Proof.
  revert v v'. induction l as [|[c' x] l IH]; intros v v' Hc; [by apply not_elem_of_nil in Hc|].
  simpl in *. case_decide as E; [done|]. apply IH. apply elem_of_cons in Hc as [?|?]; [congruence|done].
Qed.

(** The assignments of a commit, in the order they are performed. *)
Definition assigns (p : SegmentCommitPayload) : list assignment :=
  let t := pl_transaction p in
  ((λ e, (CFile (node_path e.1), Some (VContent (FileNode e.2)))) <$> btree_list (tx_nodes t)) ++
  ((λ e, (CFile (auth_meta_path e.1), Some (VContent (FileAuth e.2)))) <$> btree_list (tx_auth_meta t)) ++
  (((λ k, (CIndex k, None)) <$> direct_index_removals p) ++
   omap (λ k, (λ e, (CIndex k, Some (VEntry e))) <$> tx_direct_indexes t !! k) (inserted_keys t)) ++
  ((λ e, (CFile (node_index_manifest_path e.1), Some (VContent (FileManifest e.2)))) <$>
     btree_list (tx_node_indexes t)) ++
  ((λ k, (CFile (record_entry_path k), None)) <$> btree_elems (tx_deleted_records t)) ++
  ((λ e, (CFile (record_entry_path (entry_key e.2)), Some (VContent (FileRecord e.2)))) <$>
     btree_list (tx_records t)) ++
  [(CFile manifest_path, Some (VContent (FileMetadata (tx_metadata t))))].

(** * Performing assignments *)

(** Every file that is read back as a bucket or a manifest is one. *)
Definition readable (fs : gmap fpath content) : Prop :=
  (∀ k, match fs !! direct_index_path k with Some (FileBucket _) | None => True | _ => False end) ∧
  (∀ n, match fs !! node_index_manifest_path n with Some (FileManifest _) | None => True | _ => False end).

(** A predicate that reads only the journal and the checkpoint. *)
Definition journal_part (p : fpath) : Prop := head p = Some "journal" ∨ p = checkpoint_path.

Definition about_journal (K : gmap fpath content → Prop) : Prop :=
  ∀ fs fs', (∀ p, journal_part p → fs' !! p = fs !! p) → K fs → K fs'.

(** [m] carries out the assignments [l]: it touches no other cell even when it
fails, keeps [K], and on success the cells are as assigned; it fails only when the
disk does. *)
Definition performs_at (d : Disk) (K : gmap fpath content → Prop) (l : list assignment) {A} (m : D A) : Prop :=
  readable (files d) → K (files d) →
  let r := m d in
  readable (files r.1) ∧ K (files r.1) ∧
  (∀ c, tracked c → c ∉ l.*1 → cell_get (files r.1) c = cell_get (files d) c) ∧
  (is_ok r.2 = true → ∀ c, tracked c → cell_get (files r.1) c = last_assign l c (cell_get (files d) c)) ∧
  (faults d = None → is_ok r.2 = true ∧ faults r.1 = None).

Definition performs (K : gmap fpath content → Prop) (l : list assignment) {A} (m : D A) : Prop :=
  ∀ d, performs_at d K l m.

Lemma performs_ret K {A} (a : A) : performs K [] (mret a).
Proof. intros d Hr HK. done. Qed.

(** The second step may rely on what the first one left alone. *)
Lemma performs_at_bind d K l k {A B} (m : D A) (f : A → D B) :
  performs_at d K l m →
  (∀ a d1, (∀ c, tracked c → c ∉ l.*1 → cell_get (files d1) c = cell_get (files d) c) → performs_at d1 K k (f a)) →
  performs_at d K (l ++ k) (m ≫= f).
Proof.
  intros Hm Hf Hr HK. destruct (Hm Hr HK) as (Hr1 & HK1 & Hu1 & Ho1 & Hn1).
  unfold mbind, D_bind. destruct (m d) as [d1 [a|e]]; simpl in *.
  - destruct (Hf a d1 Hu1 Hr1 HK1) as (Hr2 & HK2 & Hu2 & Ho2 & Hn2). split_and!; [done|done| | |].
    + intros c Hc. rewrite fmap_app, not_elem_of_app. intros [? ?]. rewrite Hu2, Hu1 by done. done.
    + intros Hok c Hc. rewrite Ho2, Ho1, last_assign_app by done. done.
    + intros Hd. apply Hn2. by apply Hn1.
  - split_and!; [done|done| |done|].
    + intros c Hc. rewrite fmap_app, not_elem_of_app. intros [? ?]. by apply Hu1.
    + intros Hd. by destruct (Hn1 Hd).
Qed.

Lemma performs_bind K l k {A B} (m : D A) (f : A → D B) :
  performs K l m → (∀ a, performs K k (f a)) → performs K (l ++ k) (m ≫= f).
Proof. intros Hm Hf d. apply performs_at_bind; [apply Hm|]. intros a d1 _. apply Hf. Qed.

Lemma performs_at_ext d K l k {A} (m : D A) :
  performs_at d K l m → (∀ c, c ∈ l.*1 → c ∈ k.*1) →
  (∀ c, tracked c → last_assign l c (cell_get (files d) c) = last_assign k c (cell_get (files d) c)) →
  performs_at d K k m.
Proof.
  intros Hm Hs He Hr HK. destruct (Hm Hr HK) as (Hr1 & HK1 & Hu1 & Ho1 & Hn1). split_and!; try done.
  - intros c Hc Hk. apply Hu1; [done|]. by intros ?%Hs.
  - intros Hok c Hc. by rewrite Ho1, He.
Qed.

Lemma performs_for_each K {A} (g : A → list assignment) (f : A → D unit) l :
  (∀ x, x ∈ l → performs K (g x) (f x)) → performs K (l ≫= g) (for_each f l).
Proof.
  induction l as [|x l IH]; intros Hf; [apply performs_ret|].
  apply performs_bind; [apply Hf; by left|]. intros _. apply IH. intros y Hy. apply Hf. by right.
Qed.

Lemma performs_each K {A} (g : A → assignment) (f : A → D unit) l :
  (∀ x, x ∈ l → performs K [g x] (f x)) → performs K (g <$> l) (for_each f l).
Proof.
  intros Hf. replace (g <$> l) with (l ≫= λ x, [g x]); [by apply performs_for_each|].
  induction l as [|x l IH]; [done|]. rewrite bind_cons, fmap_cons, IH; [done|]. intros y Hy. apply Hf. by right.
Qed.

(** * One file at a time *)

Lemma performs_change_at d K l f :
  (readable (files d) → K (files d) → readable (f (files d)) ∧ K (f (files d)) ∧
     ∀ c, tracked c → cell_get (f (files d)) c = last_assign l c (cell_get (files d) c)) →
  performs_at d K l (change f).
Proof.
  intros Hf Hr HK. destruct (Hf Hr HK) as (Hr' & HK' & Hc). unfold change.
  destruct (faults d) as [[|n]|] eqn:Ed; simpl; split_and!; try done.
  all: intros c Ht Hl; by rewrite Hc, last_assign_untouched.
Qed.

Lemma performs_change K l f :
  (∀ fs, readable fs → K fs → readable (f fs) ∧ K (f fs) ∧
     ∀ c, tracked c → cell_get (f fs) c = last_assign l c (cell_get fs c)) →
  performs K l (change f).
Proof. intros Hf d. apply performs_change_at, Hf. Qed.

(** A change of one path that no cell lies at. *)
Lemma cell_get_insert_ne p x fs c :
  (∀ k, direct_index_path k ≠ p) → c ≠ CFile p → cell_get (<[p := x]> fs) c = cell_get fs c.
Proof.
  intros Hi Hc. destruct c as [q|k]; simpl; rewrite lookup_insert_ne; try done; congruence.
Qed.

Lemma cell_get_delete_ne p fs c :
  (∀ k, direct_index_path k ≠ p) → c ≠ CFile p → cell_get (delete p fs) c = cell_get fs c.
Proof.
  intros Hi Hc. destruct c as [q|k]; simpl; rewrite lookup_delete_ne; try done; congruence.
Qed.

Lemma readable_insert p x fs :
  (∀ k, direct_index_path k ≠ p) → (∀ n, node_index_manifest_path n = p → ∃ m, x = FileManifest m) →
  readable fs → readable (<[p := x]> fs).
Proof.
  intros Hi Hm [Hb Hn]. split; intros y; [rewrite lookup_insert_ne by done; apply Hb|].
  destruct (decide (node_index_manifest_path y = p)) as [E|E].
  - rewrite E, lookup_insert_eq. by destruct (Hm y E) as [m ->].
  - rewrite lookup_insert_ne by done. apply Hn.
Qed.

Lemma readable_delete p fs : readable fs → readable (delete p fs).
Proof.
  intros [Hb Hn]. split; intros y; [destruct (decide (direct_index_path y = p)) as [<-|]|destruct (decide (node_index_manifest_path y = p)) as [<-|]];
    rewrite ?lookup_delete_eq, ?lookup_delete_ne by done; [done|apply Hb|done|apply Hn].
Qed.

Lemma manifest_path_json n : json_path (node_index_manifest_path n).
Proof. by eexists ["node_indexes"], _. Qed.

(** Neither a temporary file nor a file of the journal is a cell. *)
Definition aside (p : fpath) : Prop :=
  (∀ k, direct_index_path k ≠ p) ∧ (∀ n, node_index_manifest_path n ≠ p) ∧ ¬ store_path p.

Lemma temp_aside p n : aside (temp_path_for p n).
Proof.
  split_and!.
  - intros k E. symmetry in E. revert E. apply temp_ne, direct_index_path_shape.
  - intros m E. symmetry in E. revert E. apply temp_ne, manifest_path_json.
  - intros [Hj _]. by apply temp_not_json in Hj.
Qed.

Lemma journal_aside p : head p = Some "journal" → aside p.
Proof.
  intros Hp. split_and!; [|by intros n <-|by intros (_ & _ & ? & _)].
  intros k <-. destruct (direct_index_path_shape k). congruence.
Qed.

Lemma aside_insert p x fs : aside p →
  (readable fs → readable (<[p := x]> fs)) ∧ ∀ c, tracked c → cell_get (<[p := x]> fs) c = cell_get fs c.
Proof.
  intros (Hi & Hm & Hs). split; [apply readable_insert; [done|by intros n ?%Hm]|].
  intros c Hc. apply cell_get_insert_ne; [done|]. by intros ->.
Qed.

Lemma aside_delete p fs : aside p →
  (readable fs → readable (delete p fs)) ∧ ∀ c, tracked c → cell_get (delete p fs) c = cell_get fs c.
Proof.
  intros (Hi & Hm & Hs). split; [apply readable_delete|].
  intros c Hc. apply cell_get_delete_ne; [done|]. by intros ->.
Qed.

Lemma about_journal_insert K p x fs : about_journal K → ¬ journal_part p → K fs → K (<[p := x]> fs).
Proof. intros HK Hp. apply HK. intros q Hq. apply lookup_insert_ne. by intros <-. Qed.

Lemma about_journal_delete K p fs : about_journal K → ¬ journal_part p → K fs → K (delete p fs).
Proof. intros HK Hp. apply HK. intros q Hq. apply lookup_delete_ne. by intros <-. Qed.

Lemma temp_not_journal p n : ¬ journal_part p → ¬ journal_part (temp_path_for p n).
Proof.
  intros Hp [Hh|Hc].
  - revert Hh. apply temp_head. intros Hh. apply Hp. by left.
  - revert Hc. apply temp_ne. by eexists [], "checkpoint".
Qed.

Lemma store_path_not_journal p : store_path p → ¬ journal_part p.
Proof. intros (_ & _ & Hj & Hc) [?|?]; done. Qed.

Section full.
Context (store : SegmentFileStore) (Hfull : durability store = Full).

(** Filling a temporary file and renaming it. *)
Definition replace_file (p : fpath) (c : content) (temp : fpath) : D unit :=
  _ ← change <[temp := FileOther ""]>;
  _ ← change <[temp := c]>;
  change (λ fs, <[p := c]> (delete temp fs)).

Lemma write_file_full p c mode d :
  write_file store p c mode d =
  replace_file p c (temp_path_for p (temp_counter d)) (mkDisk (files d) (temp_counter d + 1) (faults d)).
Proof using Hfull. unfold write_file. rewrite Hfull. by destruct mode. Qed.

Lemma performs_at_write d K l p c mode :
  about_journal K → ¬ journal_part p →
  (∀ fs, readable fs → (∀ x, tracked x → cell_get fs x = cell_get (files d) x) →
     readable (<[p := c]> fs) ∧
     ∀ x, tracked x → cell_get (<[p := c]> fs) x = last_assign l x (cell_get fs x)) →
  performs_at d K l (write_file store p c mode).
Proof using Hfull.
  intros HK Hp Hw. unfold performs_at. rewrite write_file_full.
  set (d0 := mkDisk (files d) (temp_counter d + 1) (faults d)).
  set (temp := temp_path_for p (temp_counter d)). pose proof (temp_aside p _ : aside temp) as Ht.
  pose proof (temp_not_journal p _ Hp : ¬ journal_part temp) as Hj.
  cut (performs_at d0 K ([] ++ ([] ++ l)) (replace_file p c temp)); [done|].
  assert (∀ x, performs K [] (change <[temp := x]>)) as Htemp.
  { intros x. apply performs_change. intros fs Hr HKf. destruct (aside_insert temp x fs Ht) as [Hr' Hc'].
    split_and!; [auto|by apply about_journal_insert|done]. }
  apply performs_at_bind; [apply Htemp|]. intros _ d1 H1. apply performs_at_bind; [apply Htemp|].
  intros _ d2 H2. apply performs_change_at. intros Hr HKf. destruct (aside_delete temp (files d2) Ht) as [Hr' Hc'].
  destruct (Hw (delete temp (files d2)) (Hr' Hr)) as [Hr2 Hc2].
  { intros x Hx. rewrite Hc', H2, H1 by (done || apply not_elem_of_nil). done. }
  split_and!; [done|by apply about_journal_insert, about_journal_delete|].
  intros x Hx. by rewrite Hc2, Hc'.
Qed.

(** A file write is the assignment of its cell. *)
Lemma performs_write K p c mode :
  about_journal K → store_path p → (∀ n, node_index_manifest_path n = p → ∃ m, c = FileManifest m) →
  performs K [(CFile p, Some (VContent c))] (write_file store p c mode).
Proof using Hfull.
  intros HK Hp Hm d. apply performs_at_write; [done|by apply store_path_not_journal|]. intros fs Hrf _.
  pose proof Hp as (_ & Hidx & _ & _).
  assert (∀ k, direct_index_path k ≠ p) as Hi by (intros k <-; by destruct (direct_index_path_shape k)).
  split; [by apply readable_insert|]. intros x Hx. simpl. case_decide as E.
  - subst x. simpl. by rewrite lookup_insert_eq.
  - apply cell_get_insert_ne; [done|congruence].
Qed.

Lemma performs_remove K p :
  about_journal K → store_path p →
  performs K [(CFile p, None)] (_ ← remove_file p; mret tt).
Proof.
  intros HK Hp. change [(CFile p, None : option cell_value)] with ([(CFile p, None : option cell_value)] ++ []).
  apply performs_bind; [|intros; apply performs_ret]. intros d Hr HKd.
  assert (∀ k, direct_index_path k ≠ p) as Hi
    by (intros k <-; destruct (direct_index_path_shape k); by destruct Hp as (_ & ? & _)).
  unfold remove_file, file_exists, look, mbind, D_bind. simpl. case_bool_decide as Hs.
  - apply (performs_bind K [(CFile p, None)] [] (change (delete p)) (λ _, mret true)); [|intros; apply performs_ret|done|done].
    apply performs_change. intros fs Hrf HKf. split_and!; [by apply readable_delete| |].
    + apply about_journal_delete; [done|by apply store_path_not_journal|done].
    + intros x Hx. simpl. case_decide as E; [subst x; simpl; by rewrite lookup_delete_eq|].
      apply cell_get_delete_ne; [done|congruence].
  - simpl. split_and!; try done. intros _ x Hx. case_decide as E; [|done]. subst x. simpl.
    by rewrite (proj2 (eq_None_not_Some _) Hs).
Qed.

(** * Index buckets *)

(** The buckets opened so far hold the assignments [l] made to the files [fs]. *)
Definition opened (fs : gmap fpath content) (l : list assignment)
    (B : gmap fpath (DirectIndexBucket * bool)) : Prop :=
  (∀ p b, B !! p = Some b →
     (∃ k, p = direct_index_path k) ∧
     (∀ k, direct_index_path k = p → VEntry <$> b.1 !! k = last_assign l (CIndex k) (cell_get fs (CIndex k))) ∧
     (b.2 = false → ∀ k, direct_index_path k = p → VEntry <$> b.1 !! k = cell_get fs (CIndex k))) ∧
  (∀ k, CIndex k ∈ l.*1 → is_Some (B !! direct_index_path k)).

Lemma open_bucket_spec fs l B key d :
  files d = fs → readable fs → opened fs l B →
  ∃ b, open_bucket (direct_index_path key) B d = (d, Ok b) ∧
    (∀ k, direct_index_path k = direct_index_path key →
       VEntry <$> b.1 !! k = last_assign l (CIndex k) (cell_get fs (CIndex k))) ∧
    (b.2 = false → ∀ k, direct_index_path k = direct_index_path key →
       VEntry <$> b.1 !! k = cell_get fs (CIndex k)).
Proof.
  intros <- [Hr _] [HB Hl]. unfold open_bucket. destruct (B !! direct_index_path key) as [b|] eqn:E.
  { destruct (HB _ _ E) as (_ & H1 & H2). eauto. }
  assert (∃ b, read_direct_index_bucket_path (direct_index_path key) d = (d, Ok b) ∧
    ∀ k, direct_index_path k = direct_index_path key → VEntry <$> b !! k = cell_get (files d) (CIndex k))
    as (b & Hb & Hc).
  { unfold read_direct_index_bucket_path, look, mbind, D_bind. specialize (Hr key).
    destruct (files d !! direct_index_path key) as [c|] eqn:Ef.
    - destruct c; try done. eexists. split; [done|]. intros k Hk. simpl. by rewrite Hk, Ef.
    - eexists. split; [done|]. intros k Hk. simpl. by rewrite Hk, Ef, lookup_empty. }
  exists (b, false). unfold mbind, D_bind. rewrite Hb. split; [done|]. split; [|auto]. intros k Hk. simpl.
  rewrite last_assign_untouched; [by apply Hc|]. intros Hin. apply Hl in Hin. rewrite Hk, E in Hin. by destruct Hin.
Qed.

Lemma opened_update fs l B key b b' v :
  opened fs l B →
  (∀ k, direct_index_path k = direct_index_path key →
     VEntry <$> b.1 !! k = last_assign l (CIndex k) (cell_get fs (CIndex k))) →
  (b.2 = false → ∀ k, direct_index_path k = direct_index_path key → VEntry <$> b.1 !! k = cell_get fs (CIndex k)) →
  b'.1 !! key = v → (∀ k, k ≠ key → b'.1 !! k = b.1 !! k) → (b'.2 = false → b' = b) →
  opened fs (l ++ [(CIndex key, VEntry <$> v)]) (<[direct_index_path key := b']> B).
Proof.
  intros [HB Hl] H1 H2 Hv Hne Hf. split.
  - intros p c [[<- <-]|[Hp Hc]]%lookup_insert_Some.
    + split; [eauto|]. split; [|intros Hb k Hk; rewrite Hf in * by done; auto]. intros k Hk.
      rewrite last_assign_app. simpl. case_decide as E.
      * injection E as ->. by rewrite Hv.
      * rewrite <-H1 by done. rewrite Hne; [done|]. by intros ->.
    + destruct (HB _ _ Hc) as (Hex & Hc1 & Hc2). split_and!; [done| |done]. intros k Hk.
      rewrite last_assign_app. simpl. rewrite decide_False; [by apply Hc1|]. intros [= ->]. done.
  - intros k. rewrite fmap_app, elem_of_app. intros [Hk|Hk].
    + destruct (decide (direct_index_path key = direct_index_path k)) as [->|]; [by rewrite lookup_insert_eq|].
      rewrite lookup_insert_ne by done. auto.
    + simpl in Hk. apply list_elem_of_singleton in Hk as [= ->]. by rewrite lookup_insert_eq.
Qed.

Lemma remove_from_bucket_spec fs l B key d :
  files d = fs → readable fs → opened fs l B →
  ∃ B', remove_from_bucket B key d = (d, Ok B') ∧ opened fs (l ++ [(CIndex key, None)]) B'.
Proof.
  intros Hd Hr Ho. destruct (open_bucket_spec _ _ _ key _ Hd Hr Ho) as (b & Hb & H1 & H2).
  unfold remove_from_bucket, mbind, D_bind. rewrite Hb. eexists. split; [done|].
  apply (opened_update fs l B key b _ None Ho H1 H2); case_decide as Hs; simpl; try done.
  - by rewrite lookup_delete_eq.
  - by apply eq_None_not_Some.
  - intros k Hk. by rewrite lookup_delete_ne.
Qed.

Lemma insert_into_bucket_spec fs l B t key d :
  files d = fs → readable fs → opened fs l B →
  ∃ B', insert_into_bucket t B key d = (d, Ok B') ∧
    opened fs (l ++ omap (λ k, (λ e, (CIndex k, Some (VEntry e))) <$> tx_direct_indexes t !! k) [key]) B'.
Proof.
  intros Hd Hr Ho. unfold insert_into_bucket. simpl. destruct (tx_direct_indexes t !! key) as [e|]; simpl;
    [|rewrite app_nil_r; eauto].
  destruct (open_bucket_spec _ _ _ key _ Hd Hr Ho) as (b & Hb & H1 & H2).
  unfold mbind, D_bind. rewrite Hb. eexists. split; [done|].
  apply (opened_update fs l B key b _ (Some e) Ho H1 H2); case_decide as Hs; simpl; try done.
  - by rewrite lookup_insert_eq.
  - intros k Hk. by rewrite lookup_insert_ne.
Qed.

Lemma fold_buckets_spec (g : string → list assignment) f fs d :
  (∀ l B key, opened fs l B → ∃ B', f B key d = (d, Ok B') ∧ opened fs (l ++ g key) B') →
  ∀ keys l B, opened fs l B → ∃ B', fold_buckets f keys B d = (d, Ok B') ∧ opened fs (l ++ (keys ≫= g)) B'.
Proof.
  intros Hf keys. induction keys as [|key keys IH]; intros l B Ho; [rewrite app_nil_r; by eexists|].
  destruct (Hf l B key Ho) as (B1 & E1 & Ho1). destruct (IH _ _ Ho1) as (B2 & E2 & Ho2).
  exists B2. cbn [fold_buckets]. unfold mbind at 1, D_bind at 1. rewrite E1. split; [done|].
  by rewrite bind_cons, app_assoc.
Qed.

(** The cells of [S] that lie in the bucket at [p], with their values in it. *)
Definition bucket_assigns (S : list cell) (p : fpath) (b : DirectIndexBucket) : list assignment :=
  omap (λ c, match c with
             | CIndex k => if decide (direct_index_path k = p) then Some (c, VEntry <$> b !! k) else None
             | CFile _ => None
             end) S.

Lemma elem_of_bucket_assigns S p b c :
  c ∈ (bucket_assigns S p b).*1 ↔ c ∈ S ∧ ∃ k, c = CIndex k ∧ direct_index_path k = p.
Proof.
  unfold bucket_assigns. rewrite list_elem_of_fmap. setoid_rewrite list_elem_of_omap. split.
  - intros ([c' v] & -> & c'' & Hin & E). destruct c'' as [q|k]; [done|]. case_decide; simplify_eq. eauto.
  - intros (Hin & k & -> & Hk). exists (CIndex k, VEntry <$> b !! k). split; [done|].
    exists (CIndex k). by rewrite decide_True.
Qed.

Lemma last_assign_bucket S p b k v :
  direct_index_path k = p → CIndex k ∈ S → last_assign (bucket_assigns S p b) (CIndex k) v = VEntry <$> b !! k.
Proof.
  intros Hk. unfold bucket_assigns. revert v. induction S as [|c S IH]; intros v; [by intros ?%not_elem_of_nil|].
  intros [<-|Hin]%elem_of_cons.
  - simpl. rewrite decide_True by done. simpl. rewrite decide_True by done.
    destruct (decide (CIndex k ∈ S)); [by apply IH|]. apply last_assign_untouched.
    intros Hc. apply elem_of_bucket_assigns in Hc as [? _]. done.
  - destruct c as [q|k']; simpl; [by apply IH|]. case_decide; simpl; by apply IH.
Qed.

Lemma write_bucket_performs K S p b mode d :
  about_journal K → (∃ k, p = direct_index_path k) →
  (∀ k, direct_index_path k = p → CIndex k ∉ S → VEntry <$> b.1 !! k = cell_get (files d) (CIndex k)) →
  (b.2 = false → ∀ k, direct_index_path k = p → VEntry <$> b.1 !! k = cell_get (files d) (CIndex k)) →
  performs_at d K (bucket_assigns S p b.1) (write_bucket store mode (p, b)).
Proof.
  intros HK [k0 Hp] Hout Hsame.
  destruct (direct_index_path_shape k0) as [_ Hhead]. rewrite <-Hp in Hhead.
  assert (¬ journal_part p) as Hj by (intros [E|E]; [congruence|subst p; by rewrite E in Hhead]).
  assert (∀ n, node_index_manifest_path n ≠ p) as Hm by (by intros n <-).
  (* the cells once the file at [p] holds [b] *)
  assert (∀ fs fs', (∀ q, q ≠ p → fs' !! q = fs !! q) →
    (∀ k, direct_index_path k = p → cell_get fs' (CIndex k) = VEntry <$> b.1 !! k) →
    (∀ x, tracked x → cell_get fs x = cell_get (files d) x) →
    ∀ x, tracked x → cell_get fs' x = last_assign (bucket_assigns S p b.1) x (cell_get fs x)) as Hcells.
  { intros fs fs' Hq Hk Hd x Hx. destruct (decide (x ∈ (bucket_assigns S p b.1).*1)) as [Hin|Hin].
    - apply elem_of_bucket_assigns in Hin as (HS & k & -> & E). rewrite last_assign_bucket by done. by apply Hk.
    - rewrite last_assign_untouched by done. rewrite elem_of_bucket_assigns in Hin.
      destruct x as [q|k]; [simpl; rewrite Hq; [done|intros ->; by destruct Hx as (_ & ? & _)]|].
      destruct (decide (direct_index_path k = p)) as [E|E]; [|simpl; by rewrite Hq].
      rewrite Hk, Hout, Hd by naive_solver. done. }
  unfold write_bucket. destruct b as [b ch]. simpl in *. destruct ch; simpl.
  2: { intros Hr HK0. simpl. split_and!; try done. intros _. apply Hcells; [done| |done].
       intros k Hk. symmetry. by apply Hsame. }
  case_decide as Hb; [subst b|].
  - unfold file_exists, remove_file, look. unfold performs_at, mbind, D_bind. simpl. case_bool_decide as Hs.
    + cut (performs_at d K (bucket_assigns S p ∅ ++ []) (_ ← change (delete p); mret tt)).
      { rewrite app_nil_r. unfold performs_at, mbind, D_bind, file_exists, look. rewrite bool_decide_eq_true_2 by done.
        by destruct (change (delete p) d) as [d' [u|e]]. }
      apply performs_at_bind; [|intros; apply performs_ret]. apply performs_change_at. intros Hr HK0.
      split_and!; [by apply readable_delete|by apply about_journal_delete|]. apply Hcells; [|..|done].
      * intros q Hq. by rewrite lookup_delete_ne.
      * intros k Hk. simpl. by rewrite Hk, lookup_delete_eq, lookup_empty.
    + intros Hr HK0. simpl. split_and!; try done. intros _. apply Hcells; [done| |done].
      intros k Hk. simpl. rewrite Hk, (proj2 (eq_None_not_Some _) Hs), lookup_empty. done.
  - apply performs_at_write; [done|done|]. intros fs Hr Hd. split.
    + destruct Hr as [Hb1 Hn1]. split; intros y; [|rewrite lookup_insert_ne by (apply not_eq_sym, Hm); apply Hn1].
      destruct (decide (p = direct_index_path y)) as [->|]; [by rewrite lookup_insert_eq|].
      rewrite lookup_insert_ne by done. apply Hb1.
    + apply Hcells; [|..|done].
      * intros q Hq. by rewrite lookup_insert_ne.
      * intros k Hk. simpl. by rewrite Hk, lookup_insert_eq.
Qed.

Abbreviation all_bucket_assigns S L := (L ≫= λ e : fpath * (DirectIndexBucket * bool), bucket_assigns S e.1 e.2.1).

Lemma write_buckets_performs K S mode L d :
  about_journal K → NoDup L.*1 →
  (∀ p b, (p, b) ∈ L → (∃ k, p = direct_index_path k) ∧
     (∀ k, direct_index_path k = p → CIndex k ∉ S → VEntry <$> b.1 !! k = cell_get (files d) (CIndex k)) ∧
     (b.2 = false → ∀ k, direct_index_path k = p → VEntry <$> b.1 !! k = cell_get (files d) (CIndex k))) →
  performs_at d K (all_bucket_assigns S L) (for_each (write_bucket store mode) L).
Proof using Hfull.
  intros HK. revert d. induction L as [|[p b] L IH]; intros d Hnd HL; [apply performs_ret|].
  apply NoDup_cons in Hnd as [Hp Hnd]. rewrite bind_cons. cbn [for_each].
  apply performs_at_bind.
  { destruct (HL p b ltac:(by left)) as (Hex & Hout & Hsame). by apply write_bucket_performs. }
  intros _ d1 H1. apply IH; [done|]. intros p' b' Hin.
  destruct (HL p' b' ltac:(by right)) as (Hex & Hout & Hsame). split; [done|].
  assert (∀ k, direct_index_path k = p' → cell_get (files d1) (CIndex k) = cell_get (files d) (CIndex k)) as Hk.
  { intros k E. apply H1; [done|]. simpl. rewrite elem_of_bucket_assigns. intros (_ & k' & [= <-] & E').
    apply Hp. rewrite <-E', E. by apply (list_elem_of_fmap_2 fst _ _ Hin). }
  split; intros; rewrite Hk by done; auto.
Qed.

Lemma last_assign_buckets S L p b k v :
  NoDup L.*1 → (p, b) ∈ L → direct_index_path k = p → CIndex k ∈ S →
  last_assign (all_bucket_assigns S L) (CIndex k) v = VEntry <$> b.1 !! k.
Proof.
  intros Hnd Hin Hk HS. revert v. induction L as [|[p' b'] L IH]; intros v; [by apply not_elem_of_nil in Hin|].
  apply NoDup_cons in Hnd as [Hp Hnd]. rewrite bind_cons, last_assign_app.
  apply elem_of_cons in Hin as [[= <- <-]|Hin]; [|by apply IH].
  rewrite last_assign_untouched; [by apply last_assign_bucket|].
  intros Hc. apply list_elem_of_fmap in Hc as (x & Hx & Hc). apply list_elem_of_bind in Hc as ([q c] & Hc & HL).
  simpl in Hc. apply (list_elem_of_fmap_2 fst) in Hc. rewrite <-Hx in Hc. apply elem_of_bucket_assigns in Hc as (_ & k' & [= <-] & E).
  apply Hp. rewrite <-Hk, E. by apply (list_elem_of_fmap_2 fst _ _ HL).
Qed.

Definition index_assigns (p : SegmentCommitPayload) : list assignment :=
  let t := pl_transaction p in
  ((λ k, (CIndex k, None)) <$> direct_index_removals p) ++
  omap (λ k, (λ e, (CIndex k, Some (VEntry e))) <$> tx_direct_indexes t !! k) (inserted_keys t).

Lemma open_all_buckets p d : readable (files d) →
  ∃ B, (buckets ← fold_buckets remove_from_bucket (direct_index_removals p) ∅;
        fold_buckets (insert_into_bucket (pl_transaction p)) (inserted_keys (pl_transaction p)) buckets) d = (d, Ok B) ∧
    opened (files d) (index_assigns p) B.
Proof.
  intros Hr.
  destruct (fold_buckets_spec (λ k, [(CIndex k, None)]) remove_from_bucket (files d) d
    (λ l B key, remove_from_bucket_spec _ _ _ _ _ eq_refl Hr) (direct_index_removals p) [] ∅) as (B1 & E1 & Ho1).
  { split; [by intros q b ?%lookup_empty_Some|by intros k ?%not_elem_of_nil]. }
  destruct (fold_buckets_spec _ (insert_into_bucket (pl_transaction p)) (files d) d
    (λ l B key, insert_into_bucket_spec _ _ _ _ _ _ eq_refl Hr) (inserted_keys (pl_transaction p)) _ _ Ho1) as (B2 & E2 & Ho2).
  exists B2. unfold mbind, D_bind. rewrite E1. split; [done|]. unfold index_assigns.
  assert (∀ {X Y} (f : X → Y) l, l ≫= (λ x, [f x]) = f <$> l) as Hm
    by (intros X Y f l; induction l as [|x l IH]; [done|by rewrite bind_cons, fmap_cons, IH]).
  assert (∀ {X Y} (f : X → option Y) l, l ≫= (λ x, omap f [x]) = omap f l) as Ho.
  { intros X Y f l. induction l as [|x l IH]; [done|]. rewrite bind_cons, IH. simpl. by destruct (f x). }
  by rewrite Hm, Ho in Ho2.
Qed.

Lemma performs_index K p mode : about_journal K → performs K (index_assigns p) (materialize_direct_index_changes store p mode).
Proof using Hfull.
  intros HK d Hr HK0. destruct (open_all_buckets p d Hr) as (B & HB & [Hop Hall]).
  set (L := merge_sort path_key_le (map_to_list B)).
  assert (∀ q b, (q, b) ∈ L ↔ B !! q = Some b) as HL.
  { intros q b. unfold L. rewrite merge_sort_Permutation. apply elem_of_map_to_list. }
  assert (NoDup L.*1) as Hnd by (unfold L; rewrite merge_sort_Permutation; apply NoDup_fst_map_to_list).
  assert (materialize_direct_index_changes store p mode d = for_each (write_bucket store mode) L d) as ->.
  { unfold materialize_direct_index_changes, mbind, D_bind in *. 
    destruct (fold_buckets remove_from_bucket (direct_index_removals p) ∅ d) as [d1 [B1|e]]; [|done].
    by rewrite HB. }
  revert Hr HK0. change (performs_at d K (index_assigns p) (for_each (write_bucket store mode) L)).
  eapply performs_at_ext; [apply (write_buckets_performs K (index_assigns p).*1); [done|done|]|..].
  - intros q b Hin%HL. destruct (Hop _ _ Hin) as (Hex & Hb & Hsame). split_and!; [done| |done].
    intros k Hk Hu. by rewrite Hb, last_assign_untouched.
  - intros c Hc. apply list_elem_of_fmap in Hc as (x & -> & Hc). apply list_elem_of_bind in Hc as (e & Hc & _).
    apply (list_elem_of_fmap_2 fst) in Hc. by apply elem_of_bucket_assigns in Hc as [? _].
  - intros c Hc. destruct (decide (c ∈ (index_assigns p).*1)) as [Hin|Hin].
    + assert (∃ k, c = CIndex k) as [k ->].
      { unfold index_assigns in Hin. rewrite fmap_app, elem_of_app, !list_elem_of_fmap in Hin.
        destruct Hin as [(x & -> & Hx)|(x & -> & Hx)].
        - apply list_elem_of_fmap in Hx as (k & -> & _). by exists k.
        - apply list_elem_of_omap in Hx as (k & _ & Hx). destruct (tx_direct_indexes (pl_transaction p) !! k); simplify_eq/=. by exists k. }
      destruct (Hall k Hin) as [b Hb]. destruct (Hop _ _ Hb) as (_ & Hv & _).
      rewrite (last_assign_buckets _ L (direct_index_path k) b) by (by rewrite ?HL). by rewrite Hv.
    + rewrite !last_assign_untouched; [done|done|]. intros Hc'.
      apply list_elem_of_fmap in Hc' as (x & -> & Hc'). apply list_elem_of_bind in Hc' as (e & Hc' & _).
      apply (list_elem_of_fmap_2 fst) in Hc'. by apply elem_of_bucket_assigns in Hc' as [? _].
Qed.

(** * A whole commit *)

Lemma store_path_intro d up s :
  d ≠ "indexes" → d ≠ "journal" → store_path (d :: up ++ [json_file s]).
Proof.
  intros Hi Hj. split_and!; [by exists (d :: up), s|simpl; congruence..|].
  intros E. apply (f_equal length) in E. rewrite length_cons, length_app in E. simpl in E. lia.
Qed.

Lemma node_path_store n : store_path (node_path n).
Proof. by apply (store_path_intro "nodes" []). Qed.
Lemma auth_path_store n : store_path (auth_meta_path n).
Proof. by apply (store_path_intro "auth" []). Qed.
Lemma index_manifest_path_store n : store_path (node_index_manifest_path n).
Proof. by apply (store_path_intro "node_indexes" []). Qed.
Lemma manifest_path_store : store_path manifest_path.
Proof. split_and!; [by exists [], "manifest"|done..]. Qed.
Lemma record_path_store k : store_path (record_entry_path k).
Proof.
  unfold record_entry_path. change (record_entries_root ++ ?x) with ("records" :: ["by_key"] ++ x).
  rewrite app_assoc. by apply (store_path_intro "records" _ "entry").
Qed.

(** Materializing a commit performs its assignments. *)
Lemma performs_commit K p mode :
  about_journal K → performs K (assigns p) (materialize_commit_payload_with_mode store p mode).
Proof using Hfull.
  intros HK. unfold materialize_commit_payload_with_mode, assigns. cbv zeta.
  apply performs_bind; [apply performs_each; intros e _; by apply performs_write; [|apply node_path_store|]|intros _].
  apply performs_bind; [apply performs_each; intros e _; by apply performs_write; [|apply auth_path_store|]|intros _].
  apply performs_bind; [by apply performs_index|intros _].
  apply performs_bind; [apply performs_each; intros e _; apply performs_write; [done|apply index_manifest_path_store|eauto]|intros _].
  apply performs_bind; [apply performs_each; intros k _; by apply performs_remove, record_path_store|intros _].
  apply performs_bind; [apply performs_each; intros e _; by apply performs_write; [|apply record_path_store|]|intros _].
  by apply performs_write; [|apply manifest_path_store|].
Qed.
End full.
End cells.
