(* ===== verification/Recovery.v ===== *)
(** Crash safety of the segment file store: whatever change the disk fails at, and
whatever becomes of the files materialized from the journal, recovery restores
exactly the committed transactions. *)
From stdpp Require Import base gmap sets list strings sorting.
From Stdlib Require Import ZArith Lia.
From S2P Require Import Prelude Clock Value Crdt OpQueue Paths Records Keys Engine Segment Cells.

Abbreviation payload_id p := (tx_id (pl_transaction p)).

Section recovery.
Context `{StoreEnv, SegmentEnv}.

(** * Names of journal files *)



Lemma parse_digits_width w n acc :
  (0 ≤ n < 10 ^ Z.of_nat w)%Z → parse_digits (dec_width w n) acc = Some (acc * 10 ^ Z.of_nat w + n)%Z.
Proof.
  revert n acc. induction w as [|w IH]; intros n acc Hn.
  { simpl in *. f_equal. lia. }
  rewrite Nat2Z.inj_succ, Z.pow_succ_r in * by lia. cbn [dec_width parse_digits].
  set (p := (10 ^ Z.of_nat w)%Z) in *. assert (0 < p)%Z by (apply Z.pow_pos_nonneg; lia).
  assert (0 ≤ n / p < 10)%Z as Hd by (split; [apply Z.div_pos|apply Z.div_lt_upper_bound]; lia).
  rewrite dec_digit_spec by done. replace (48 + n / p - 48)%Z with (n / p)%Z by lia.
  rewrite (proj2 (Z.leb_le 0 _)), (proj2 (Z.leb_le _ 9)) by lia. simpl.
  rewrite IH by (apply Z.mod_pos_bound; lia). f_equal. pose proof (Z.div_mod n p ltac:(lia)). lia.
Qed.

Lemma dec_width_cons w n : ∃ d rest, dec_width (S w) n = String (dec_digit d) rest ∧ d = (n / 10 ^ Z.of_nat w)%Z.
Proof. by do 2 eexists. Qed.

Lemma journal_file_key_name pending n :
  in_width u64_max n → journal_file_key (journal_name pending n) = Some (n, pending).
Proof.
  intros Hn. assert (0 ≤ n < 10 ^ Z.of_nat 20)%Z as Hb.
  { unfold in_width in Hn. assert (u64_max < 10 ^ Z.of_nat 20)%Z by (by vm_compute). lia. }
  assert (parse_u64 (dec_width 20 n) = Some n) as Hp.
  { unfold parse_u64. destruct (dec_width_cons 19 n) as (d & rest & E & Hd). rewrite E.
    assert (dec_digit d ≠ "+"%char) as Hplus.
    { intros Hc. apply (f_equal (λ c, Z.of_N (Ascii.N_of_ascii c))) in Hc. rewrite dec_digit_spec in Hc.
      - change (Z.of_N (Ascii.N_of_ascii "+"%char)) with 43%Z in Hc.
        assert (0 ≤ d)%Z by (subst d; apply Z.div_pos; lia). lia.
      - subst d. split; [apply Z.div_pos|apply Z.div_lt_upper_bound]; lia. }
    rewrite (decide_False (P := dec_digit d = "+"%char)) by done. cbv zeta.
    rewrite decide_False by done. rewrite <-E, parse_digits_width by done. rewrite Z.mul_0_l, Z.add_0_l.
    rewrite (proj2 (Z.leb_le n u64_max)) by (unfold in_width in Hn; lia). done. }
  unfold journal_file_key, journal_name. set (w := dec_width 20 n) in *. clearbody w. destruct pending.
  - assert (strip_prefix "pending-" ("pending-" +:+ w +:+ ".json") = Some (w +:+ ".json")) as ->
      by (by apply strip_prefix_Some).
    simpl. by rewrite strip_suffix_app, Hp.
  - assert (strip_prefix "pending-" ("tx-" +:+ w +:+ ".json") = None) as -> by done.
    assert (strip_prefix "tx-" ("tx-" +:+ w +:+ ".json") = Some (w +:+ ".json")) as ->
      by (by apply strip_prefix_Some).
    cbn [mbind option_bind]. by rewrite strip_suffix_app, Hp.
Qed.

Lemma contains_str_app a b c : contains_str (a +:+ b +:+ c) b = true.
Proof.
  induction a as [|x a IH].
  - rewrite str_app_nil_l. assert (starts_with (b +:+ c) b = true) as E by (apply starts_with_spec; eauto).
    destruct (b +:+ c); simpl; rewrite E; done.
  - rewrite str_app_cons. cbn [contains_str]. by rewrite IH, orb_true_r.
Qed.

Lemma contains_skip s t p : free_of "." s = true →
  contains_str (s +:+ t) (String "." p) = contains_str t (String "." p).
Proof.
  induction s as [|b s IH]; [done|]. cbn [free_of]. rewrite andb_true_iff, bool_decide_eq_true. intros [Hb Hs].
  rewrite str_app_cons. cbn [contains_str]. rewrite IH by done. unfold starts_with. cbn [strip_prefix].
  by rewrite decide_False.
Qed.

Lemma dec_width_free w n : (0 ≤ n < 10 ^ Z.of_nat w)%Z → free_of "." (dec_width w n) = true.
Proof.
  revert n. induction w as [|w IH]; intros n Hn; [done|].
  rewrite Nat2Z.inj_succ, Z.pow_succ_r in * by lia. cbn [dec_width free_of].
  set (p := (10 ^ Z.of_nat w)%Z) in *. assert (0 < p)%Z by (apply Z.pow_pos_nonneg; lia).
  rewrite IH by (apply Z.mod_pos_bound; lia). rewrite andb_true_r, bool_decide_eq_true. intros E.
  apply (f_equal (λ c, Z.of_N (Ascii.N_of_ascii c))) in E. rewrite dec_digit_spec in E.
  - change (Z.of_N (Ascii.N_of_ascii "."%char)) with 46%Z in E. assert (0 ≤ n / p)%Z by (apply Z.div_pos; lia). lia.
  - split; [apply Z.div_pos|apply Z.div_lt_upper_bound]; lia.
Qed.

Lemma journal_name_not_temp pending n : in_width u64_max n → contains_str (journal_name pending n) ".tmp-" = false.
Proof.
  intros Hn. assert (0 ≤ n < 10 ^ Z.of_nat 20)%Z as Hb.
  { unfold in_width in Hn. assert (u64_max < 10 ^ Z.of_nat 20)%Z by (by vm_compute). lia. }
  unfold journal_name. rewrite contains_skip by (by destruct pending). by rewrite contains_skip by (by apply dec_width_free).
Qed.

(** * The journal *)

Lemma NoDup_omap {X Y} (f : X → option Y) l :
  (∀ x y z, f x = Some z → f y = Some z → x = y) → NoDup l → NoDup (omap f l).
Proof.
  intros Hf. induction 1 as [|x l Hx Hl IH]; [constructor|]. simpl. destruct (f x) as [z|] eqn:E; [|done].
  constructor; [|done]. intros (y & Hy & Ey)%list_elem_of_omap. by rewrite (Hf _ _ _ E Ey) in Hx.
Qed.

(** An entry of the journal: whether it is pending, and its commit. *)
Definition journal_entry : Type := bool * SegmentCommitPayload.

Definition entry_name (x : journal_entry) : string := journal_name x.1 (payload_id x.2).
Definition entry_path (x : journal_entry) : fpath := ["journal"; entry_name x].
Definition entry_content (x : journal_entry) : content := FileCommit (commit_record_for_payload x.2).

Definition entry_lt (x y : journal_entry) : Prop := (payload_id x.2 < payload_id y.2)%Z.

(** A commit of the current version with a usable number. *)
Definition commit_ok (p : SegmentCommitPayload) : Prop :=
  pl_schema_version p = SEGMENT_COMMIT_SCHEMA_VERSION ∧ (1 ≤ payload_id p ≤ u64_max)%Z.

(** The journal directory holds the entries [J], in increasing order of their
numbers, and otherwise only temporary files. *)
Definition journal_holds (J : list journal_entry) (fs : gmap fpath content) : Prop :=
  StronglySorted entry_lt J ∧ Forall (λ x, commit_ok x.2) J ∧ fs !! checkpoint_path = None ∧
  (∀ x, x ∈ J → fs !! entry_path x = Some (entry_content x)) ∧
  (∀ name c, fs !! ["journal"; name] = Some c → contains_str name ".tmp-" = true ∨ ∃ x, x ∈ J ∧ name = entry_name x).

Lemma journal_holds_about J : about_journal (journal_holds J).
Proof.
  intros fs fs' Hfs (Hs & Hf & Hc & Hin & Honly). split_and!; try done.
  - rewrite Hfs; [done|by right].
  - intros x Hx. rewrite Hfs; [by apply Hin|by left].
  - intros name c. rewrite Hfs by (by left). apply Honly.
Qed.

Lemma commit_ok_width p : commit_ok p → in_width u64_max (payload_id p).
Proof. intros [_ ?]. unfold in_width. lia. Qed.

Lemma entry_key_eq x : commit_ok x.2 → journal_file_key (entry_name x) = Some (payload_id x.2, x.1).
Proof. intros Hx. apply journal_file_key_name. by apply commit_ok_width. Qed.

Lemma entry_not_temp x : commit_ok x.2 → contains_str (entry_name x) ".tmp-" = false.
Proof. intros Hx. apply journal_name_not_temp. by apply commit_ok_width. Qed.

Lemma entry_lt_unique J x y : StronglySorted entry_lt J → x ∈ J → y ∈ J → payload_id x.2 = payload_id y.2 → x = y.
Proof.
  induction 1 as [|z J Hs IH Hz]; [by intros ?%not_elem_of_nil|]. rewrite Forall_forall in Hz.
  intros [->|Hx]%elem_of_cons [->|Hy]%elem_of_cons E; [done| | |by apply IH].
  - apply Hz in Hy. unfold entry_lt in Hy. lia.
  - apply Hz in Hx. unfold entry_lt in Hx. lia.
Qed.

Lemma entry_lt_NoDup J : StronglySorted entry_lt J → NoDup J.
Proof.
  induction 1 as [|x J Hs IH Hx]; [constructor|]. constructor; [|done]. intros Hin.
  rewrite Forall_forall in Hx. apply Hx in Hin. unfold entry_lt in Hin. lia.
Qed.

Lemma entry_name_inj J x y :
  StronglySorted entry_lt J → Forall (λ x, commit_ok x.2) J → x ∈ J → y ∈ J → entry_name x = entry_name y → x = y.
Proof.
  intros Hs Hf Hx Hy E. rewrite Forall_forall in Hf. apply (entry_lt_unique J); [done..|].
  apply (f_equal journal_file_key) in E. rewrite !entry_key_eq in E by auto. congruence.
Qed.

Lemma in_journal_Some p name : in_journal p = Some name ↔ p = ["journal"; name].
Proof.
  unfold in_journal. split; [|intros ->; by rewrite decide_True].
  destruct p as [|dir [|n [|]]]; try done. case_decide; naive_solver.
Qed.

Lemma elem_of_journal_dir d name c : (name, c) ∈ journal_dir d ↔ files d !! ["journal"; name] = Some c.
Proof.
  unfold journal_dir. rewrite list_elem_of_omap. split.
  - intros ([p c'] & Hin%elem_of_map_to_list & E). simpl in E.
    destruct (in_journal p) as [n|] eqn:Ep; [|done]. apply in_journal_Some in Ep. simplify_eq/=. done.
  - intros Hp. exists (["journal"; name], c). split; [by apply elem_of_map_to_list|]. cbn [fst snd].
    by rewrite (proj2 (in_journal_Some _ name)).
Qed.

Lemma journal_dir_names_NoDup d : NoDup (journal_dir d).*1.
Proof.
  unfold journal_dir.
  assert ((omap (λ e : fpath * content, (λ name, (name, e.2)) <$> in_journal e.1) (map_to_list (files d))).*1 =
    omap in_journal ((map_to_list (files d)).*1)) as ->.
  { induction (map_to_list (files d)) as [|[p c] l IH]; [done|]. rewrite fmap_cons. cbn [omap list_omap fst snd].
    destruct (in_journal p); [|done]. cbn [fmap option_fmap option_map]. rewrite fmap_cons. by f_equal. }
  apply NoDup_omap; [|apply NoDup_fst_map_to_list]. intros p q z Hp%in_journal_Some Hq%in_journal_Some. congruence.
Qed.

(** What recovery is about to read is the journal in order. *)
Definition listed (x : journal_entry) : Z * bool * fpath := (payload_id x.2, x.1, entry_path x).

#[local] Instance journal_le_trans : Transitive journal_le.
Proof.
  intros x y z [H1|[H1 B1]] [H2|[H2 B2]]; [left; lia..|]. right. split; [lia|].
  destruct B1, B2; auto. congruence.
Qed.

Lemma journal_files_listed J d :
  journal_holds J (files d) → journal_files (journal_dir d).*1 = listed <$> J.
Proof.
  intros (Hs & Hf & _ & Hin & Honly). unfold journal_files. rewrite Forall_forall in Hf.
  set (l := omap _ _). assert (∀ y, y ∈ l ↔ y ∈ listed <$> J) as Hl.
  { intros y. unfold l. rewrite list_elem_of_omap, list_elem_of_fmap. split.
    - intros (name & Hn & E). apply list_elem_of_fmap in Hn as ([name' c] & -> & Hn%elem_of_journal_dir). simpl in *.
      destruct (Honly _ _ Hn) as [Ht|(x & Hx & ->)]; [by rewrite Ht in E|].
      rewrite entry_not_temp in E by auto.
      rewrite entry_key_eq in E by auto. simplify_eq/=. by exists x.
    - intros (x & -> & Hx). exists (entry_name x). split.
      + apply list_elem_of_fmap. exists (entry_name x, entry_content x). split; [done|]. by apply elem_of_journal_dir, Hin.
      + rewrite entry_not_temp by auto. by rewrite entry_key_eq by auto. }
  assert (NoDup (listed <$> J)) as Hnd.
  { apply NoDup_fmap_2_strong; [|by apply entry_lt_NoDup]. intros x y Hx Hy E.
    unfold listed in E. simplify_eq. by apply (entry_lt_unique J). }
  apply (Sorted_unique_strong journal_le).
  - intros x1 x2 H1 H2 Hle1 Hle2. rewrite merge_sort_Permutation, Hl in H1.
    apply list_elem_of_fmap in H1 as (x & -> & Hx), H2 as (y & -> & Hy). f_equal. apply (entry_lt_unique J); [done..|].
    unfold journal_le, listed in *. simpl in *. lia.
  - apply Sorted_merge_sort. intros x y. unfold journal_le. destruct (Z.lt_trichotomy x.1.1 y.1.1) as [?|[?|?]];
      [by left; left| |by right; left]. destruct (x.1.2) eqn:E1, (y.1.2) eqn:E2; naive_solver.
  - apply StronglySorted_Sorted. clear -Hs. induction Hs as [|x J Hs IH Hx]; [constructor|]. rewrite fmap_cons.
    constructor; [done|]. apply Forall_fmap. eapply Forall_impl; [done|]. intros y Hy. by left.
  - rewrite merge_sort_Permutation. apply NoDup_Permutation; [|done|done].
    apply NoDup_omap; [|apply journal_dir_names_NoDup]. intros x y z. destruct (contains_str x _), (contains_str y _); try done.
    destruct (journal_file_key x), (journal_file_key y); simpl; congruence.
Qed.

(** * Changing the journal *)

Lemma entry_path_ne J x y :
  Forall (λ x, commit_ok x.2) J → x ∈ J → commit_ok y.2 → payload_id x.2 ≠ payload_id y.2 ∨ x.1 ≠ y.1 →
  entry_path y ≠ entry_path x.
Proof.
  intros Hf Hx Hy Hne [= E]. rewrite Forall_forall in Hf. apply (f_equal journal_file_key) in E.
  rewrite !entry_key_eq in E by auto. naive_solver.
Qed.

Lemma journal_temp J fs name o :
  contains_str name ".tmp-" = true → journal_holds J fs →
  journal_holds J (partial_alter (λ _, o) ["journal"; name] fs).
Proof.
  intros Ht (Hs & Hf & Hc & Hin & Honly). assert (∀ x, x ∈ J → ["journal"; name] ≠ entry_path x) as Hne.
  { intros x Hx [= ->]. rewrite Forall_forall in Hf. by rewrite entry_not_temp in Ht by auto. }
  split_and!; [done|done| | |].
  - by rewrite lookup_partial_alter_ne.
  - intros x Hx. rewrite lookup_partial_alter_ne by auto. auto.
  - intros n c. destruct (decide (name = n)) as [->|]; [by left|]. rewrite lookup_partial_alter_ne by congruence. apply Honly.
Qed.

Lemma journal_add J fs y :
  journal_holds J fs → Forall (λ x, entry_lt x y) J → commit_ok y.2 →
  journal_holds (J ++ [y]) (<[entry_path y := entry_content y]> fs).
Proof.
  intros (Hs & Hf & Hc & Hin & Honly) Hlt Hy. rewrite Forall_forall in Hlt. split_and!.
  - clear -Hs Hlt. induction Hs as [|x J Hs IH Hx]; simpl; [by repeat constructor|]. constructor.
    + apply IH. intros z Hz. apply Hlt. by right.
    + apply Forall_app. split; [done|]. constructor; [apply Hlt; by left|done].
  - apply Forall_app. split; [done|]. by apply Forall_singleton.
  - by rewrite lookup_insert_ne.
  - intros x [Hx| ->%list_elem_of_singleton]%elem_of_app; [|by rewrite lookup_insert_eq].
    rewrite lookup_insert_ne; [auto|]. apply (entry_path_ne J); [done..|]. left. apply Hlt in Hx. unfold entry_lt in Hx. lia.
  - intros name c. destruct (decide (entry_name y = name)) as [<-|].
    + intros _. right. exists y. split; [|done]. apply elem_of_app. right. by left.
    + rewrite lookup_insert_ne by (unfold entry_path; congruence). intros [?|(x & ? & ->)]%Honly; [by left|].
      right. exists x. split; [|done]. apply elem_of_app. by left.
Qed.

Lemma sorted_app_inv J x K : StronglySorted entry_lt (J ++ x :: K) →
  Forall (λ y, entry_lt y x) J ∧ Forall (entry_lt x) K.
Proof.
  induction J as [|z J IH]; simpl; intros Hs; inv Hs; [done|]. destruct IH as [? ?]; [done|]. split; [|done].
  constructor; [|done]. rewrite Forall_app, Forall_cons in H4. naive_solver.
Qed.

Lemma sorted_flip J b b' p K : StronglySorted entry_lt (J ++ (b, p) :: K) → StronglySorted entry_lt (J ++ (b', p) :: K).
Proof.
  induction J as [|z J IH]; simpl; intros Hs; inv Hs; [by constructor|]. constructor; [by apply IH|].
  rewrite Forall_app, Forall_cons in *. naive_solver.
Qed.

Lemma journal_finalize J p K fs :
  journal_holds (J ++ (true, p) :: K) fs →
  journal_holds (J ++ (false, p) :: K)
    (<[entry_path (false, p) := entry_content (false, p)]> (delete (entry_path (true, p)) fs)).
Proof.
  intros (Hs & Hf & Hc & Hin & Honly). pose proof (sorted_app_inv _ _ _ Hs) as [HJ HK].
  assert (commit_ok p) as Hp by (rewrite Forall_app, Forall_cons in Hf; naive_solver).
  assert (Forall (λ x : journal_entry, commit_ok x.2) (J ++ (false, p) :: K)) as Hf'
    by (rewrite Forall_app, Forall_cons in *; naive_solver).
  rewrite Forall_forall in HJ, HK. split_and!; [by eapply sorted_flip|done| | |].
  - by rewrite lookup_insert_ne, lookup_delete_ne.
  - intros x Hx. apply elem_of_app in Hx as Hx'. rewrite elem_of_cons in Hx'.
    assert (x = (false, p) ∨ x ∈ J ++ (true, p) :: K ∧ payload_id x.2 ≠ payload_id p) as [->|[Hx2 Hid]].
    { destruct Hx' as [Hj|[?|Hk]]; [right|by left|right]; rewrite elem_of_app, elem_of_cons; (split; [tauto|]).
      - apply HJ in Hj. unfold entry_lt in Hj. simpl in Hj. lia.
      - apply HK in Hk. unfold entry_lt in Hk. simpl in Hk. lia. }
    { by rewrite lookup_insert_eq. }
    rewrite lookup_insert_ne by (eapply entry_path_ne; eauto).
    rewrite lookup_delete_ne by (eapply entry_path_ne; eauto).
    by apply Hin.
  - intros name c. destruct (decide (entry_name (false, p) = name)) as [<-|Hn1].
    { intros _. right. exists (false, p). split; [|done]. apply elem_of_app. right. by left. }
    rewrite lookup_insert_ne by (unfold entry_path; congruence).
    destruct (decide (entry_name (true, p) = name)) as [<-|Hn2]; [by rewrite lookup_delete_eq|].
    rewrite lookup_delete_ne by (unfold entry_path; congruence). intros [?|(x & Hx & ->)]%Honly; [by left|]. right.
    exists x. split; [|done]. rewrite elem_of_app, elem_of_cons in Hx |- *. naive_solver.
Qed.

(** * Steps that change the journal *)

(** [m] goes from [P] to [Q], or stops in [E] when the disk fails, performing [l]. *)
Definition does (d : Disk) (P Q E : gmap fpath content → Prop) (l : list assignment) {A} (m : D A) : Prop :=
  readable (files d) → P (files d) →
  let r := m d in
  readable (files r.1) ∧ (if is_ok r.2 then Q (files r.1) else E (files r.1)) ∧
  (∀ c, tracked c → c ∉ l.*1 → cell_get (files r.1) c = cell_get (files d) c) ∧
  (is_ok r.2 = true → ∀ c, tracked c → cell_get (files r.1) c = last_assign l c (cell_get (files d) c)) ∧
  (faults d = None → is_ok r.2 = true ∧ faults r.1 = None).

Lemma does_performs (d : Disk) (K E : gmap fpath content → Prop) l {A} (m : D A) : (∀ fs, K fs → E fs) → performs K l m → does d K K E l m.
Proof.
  intros HE Hm Hr HK. destruct (Hm d Hr HK) as (? & ? & ? & ? & ?). split_and!; try done.
  destruct (is_ok _); auto.
Qed.

Lemma does_bind (d : Disk) (P Q R E : gmap fpath content → Prop) l k {A B} (m : D A) (f : A → D B) :
  does d P Q E l m → (∀ a d1, does d1 Q R E k (f a)) → does d P R E (l ++ k) (m ≫= f).
Proof.
  intros Hm Hf Hr HP. destruct (Hm Hr HP) as (Hr1 & HK1 & Hu1 & Ho1 & Hn1).
  unfold mbind, D_bind. destruct (m d) as [d1 [a|e]]; simpl in *.
  - destruct (Hf a d1 Hr1 HK1) as (Hr2 & HK2 & Hu2 & Ho2 & Hn2). split_and!; [done|done| | |].
    + intros c Hc. rewrite fmap_app, not_elem_of_app. intros [? ?]. rewrite Hu2, Hu1 by done. done.
    + intros Hok c Hc. rewrite Ho2, Ho1, last_assign_app by done. done.
    + intros Hd. apply Hn2. by apply Hn1.
  - split_and!; [done|done| |done|].
    + intros c Hc. rewrite fmap_app, not_elem_of_app. intros [? ?]. by apply Hu1.
    + intros Hd. by destruct (Hn1 Hd).
Qed.

Lemma does_ret (d : Disk) (P Q E : gmap fpath content → Prop) {A} (a : A) : (∀ fs, P fs → Q fs) → does d P Q E [] (mret a).
Proof. intros HQ Hr HP. split_and!; simpl; auto. Qed.

Lemma does_change (d : Disk) (P Q E : gmap fpath content → Prop) f :
  (∀ fs, P fs → E fs) →
  (∀ fs, readable fs → P fs → readable (f fs) ∧ Q (f fs) ∧ ∀ c, tracked c → cell_get (f fs) c = cell_get fs c) →
  does d P Q E [] (change f).
Proof.
  intros HE Hf Hr HP. destruct (Hf (files d) Hr HP) as (Hr' & HQ & Hc). unfold change.
  destruct (faults d) as [[|n]|] eqn:Ed; simpl; split_and!; try done; auto.
Qed.

(** A change inside the journal directory leaves the cells alone. *)
Lemma does_journal_change (d : Disk) (P Q E : gmap fpath content → Prop) f :
  (∀ fs, P fs → E fs) → (∀ fs, P fs → Q (f fs)) →
  (∀ fs, (readable fs → readable (f fs)) ∧ ∀ c, tracked c → cell_get (f fs) c = cell_get fs c) →
  does d P Q E [] (change f).
Proof. intros HE HQ Hf. apply does_change; [done|]. intros fs Hr HP. destruct (Hf fs). auto. Qed.

Lemma journal_move x y c fs :
  (readable fs → readable (<[entry_path y := c]> (delete (entry_path x) fs))) ∧
  ∀ z, tracked z → cell_get (<[entry_path y := c]> (delete (entry_path x) fs)) z = cell_get fs z.
Proof.
  destruct (aside_insert (entry_path y) c (delete (entry_path x) fs)) as [Hi1 Hi2]; [by apply journal_aside|].
  destruct (aside_delete (entry_path x) fs) as [Hd1 Hd2]; [by apply journal_aside|].
  split; [auto|]. intros z Hz. by rewrite Hi2, Hd2.
Qed.

Section full.
Context (store : SegmentFileStore) (Hfull : durability store = Full).

(** The commits of the journal, whatever their state. *)
Definition logged (log : list SegmentCommitPayload) (fs : gmap fpath content) : Prop :=
  ∃ J : list journal_entry, J.*2 = log ∧ journal_holds J fs.

Lemma does_look (d : Disk) (P : gmap fpath content → Prop) Q E l {A B} (f : Disk → A) (g : A → D B) :
  does d P Q E l (g (f d)) → does d P Q E l (look f ≫= g).
Proof. done. Qed.

(** Finishing a pending entry. *)
Lemma does_finalize d J p K log :
  ((J ++ (true, p) :: K).*2 = log) →
  does d (journal_holds (J ++ (true, p) :: K)) (journal_holds (J ++ (false, p) :: K)) (logged log) []
    (rename (entry_path (true, p)) (entry_path (false, p))).
Proof.
  intros Hlog Hr Hj. revert Hr Hj. intros Hr Hj. assert (files d !! entry_path (true, p) = Some (entry_content (true, p))) as Hp.
  { apply Hj. apply elem_of_app. right. by left. }
  unfold rename. unfold mbind, D_bind, look. rewrite Hp.
  apply (does_journal_change d (journal_holds (J ++ (true, p) :: K))); [| |intros fs; apply journal_move|done|done].
  - intros fs Hfs. by exists (J ++ (true, p) :: K).
  - intros fs Hfs. by apply journal_finalize.
Qed.

Lemma final_absent J p K fs : journal_holds (J ++ (true, p) :: K) fs → fs !! entry_path (false, p) = None.
Proof.
  intros (Hs & Hf & _ & _ & Honly). destruct (fs !! entry_path (false, p)) as [c|] eqn:E; [|done].
  assert (commit_ok p) as Hp by (rewrite Forall_app, Forall_cons in Hf; naive_solver). exfalso.
  destruct (Honly _ _ E) as [Ht|(x & Hx & Hn)]; [by rewrite (entry_not_temp (false, p)) in Ht|].
  assert (x = (true, p)) as ->; [|by apply (f_equal journal_file_key) in Hn; rewrite !entry_key_eq in Hn].
  apply (entry_lt_unique _ _ _ Hs Hx); [apply elem_of_app; right; by left|].
  rewrite Forall_forall in Hf. apply (f_equal journal_file_key) in Hn. rewrite !entry_key_eq in Hn by auto. naive_solver.
Qed.

Lemma recover_journal_does R : ∀ J last report log d,
  (J ++ R).*2 = log → Forall (λ x : journal_entry, last < payload_id x.2)%Z R →
  does d (journal_holds (J ++ R)) (logged log) (logged log) (R.*2 ≫= assigns)
    (recover_journal store (listed <$> R) last report).
Proof using Hfull.
  induction R as [|[b p] R IH]; intros J last report log d Hlog Hlast.
  { apply does_ret. intros fs Hfs. by exists (J ++ []). }
  rewrite !fmap_cons. cbn [recover_journal listed]. intros Hr Hj. pose proof Hj as (Hs & Hf & _ & Hin & _).
  assert (commit_ok p) as Hp by (rewrite Forall_app, Forall_cons in Hf; naive_solver).
  apply Forall_cons in Hlast as [Hlt Hlast]. simpl in Hlt.
  assert (files d !! entry_path (b, p) = Some (entry_content (b, p))) as Hfile by (apply Hin, elem_of_app; right; by left).
  revert Hr Hj. apply does_look. rewrite Hfile. cbn [entry_content read_commit_record].
  assert (validate_commit_record (commit_record_for_payload (b, p).2) = Ok p) as ->.
  { unfold validate_commit_record, commit_record_for_payload. simpl. destruct Hp as [-> _]. simpl. by rewrite decide_True. }
  rewrite (proj2 (Z.leb_gt (payload_id p) last)) by done. rewrite bind_cons.
  assert (∀ fs, journal_holds (J ++ (b, p) :: R) fs → logged log fs) as Hlogged by (intros fs ?; by exists (J ++ (b, p) :: R)).
  eapply does_bind; [apply (does_performs _ (journal_holds (J ++ (b, p) :: R))); [done|apply performs_commit; [done|apply journal_holds_about]]|].
  intros _ d1. change (R.*2 ≫= assigns) with ([] ++ (R.*2 ≫= assigns)).
  eapply (does_bind _ _ (journal_holds (J ++ (false, p) :: R))).
  - destruct b; [|by apply does_ret]. intros Hr1 Hj1. revert Hr1 Hj1.
    intros Hr1 Hj1. pose proof (final_absent _ _ _ _ Hj1) as Hfin. revert Hr1 Hj1. apply does_look.
    change (journal_final_path (payload_id p)) with (entry_path (false, p)).
    rewrite bool_decide_eq_false_2 by (by rewrite Hfin). by apply does_finalize.
  - intros _ d2. assert (∀ K : list journal_entry, J ++ (false, p) :: K = (J ++ [(false, p)]) ++ K) as Happ
      by (intros; by rewrite <-app_assoc).
    rewrite Happ. apply IH.
    + rewrite <-Happ, <-Hlog, !fmap_app. done.
    + apply sorted_app_inv in Hs as [_ HR]. rewrite Forall_forall in *. intros x Hx.
      apply HR in Hx as Hx'. apply Hlast in Hx. unfold entry_lt in Hx'. simpl in *. lia.
Qed.

(** * Recovery *)

Lemma remove_temp_performs J names count : performs (journal_holds J) [] (remove_temp_files names count).
Proof.
  revert count. induction names as [|name names IH]; intros count; cbn [remove_temp_files]; [apply performs_ret|].
  destruct (contains_str name ".tmp-") eqn:Ht; [|apply IH].
  apply (performs_bind _ [] []); [|intros _; apply IH]. intros d Hr Hj. unfold remove_file, file_exists, look, mbind, D_bind. simpl.
  case_bool_decide; [|by apply (performs_ret (journal_holds J) false d)].
  apply (performs_bind _ [] [] (change (delete ["journal"; name])) (λ _, mret true)); [|intros _; apply performs_ret|done|done].
  apply performs_change. intros fs Hrf Hjf. destruct (aside_delete ["journal"; name] fs) as [Hd1 Hd2]; [by apply journal_aside|].
  split_and!; [auto|by apply journal_temp|done].
Qed.

Lemma recover_does log d : does d (logged log) (logged log) (logged log) (log ≫= assigns) (recover store).
Proof using Hfull.
  intros Hr (J & HJ & Hj). revert Hr. cut (does d (journal_holds J) (logged log) (logged log) (log ≫= assigns) (recover store)); [auto|].
  clear Hj. intros Hr Hj. pose proof Hj as (Hs & Hf & Hck & _).
  assert (recover store d = (temps ← remove_temp_files (journal_dir d).*1 0;
    recover_journal store (listed <$> J) 0 (mkRecovery 0 0 0 temps 0)) d) as Heq.
  { assert (∀ report, recover_checkpoint store report d = (d, Ok (0%Z, report))) as Hcp
      by (intros report; unfold recover_checkpoint, mbind, D_bind, look; by rewrite Hck).
    unfold recover. unfold mbind at 1, D_bind at 1. rewrite Hcp. unfold mbind at 1, D_bind at 1, look.
    by rewrite (journal_files_listed J). }
  revert Hr Hj. unfold does. rewrite Heq. change (log ≫= assigns) with ([] ++ (log ≫= assigns)).
  eapply does_bind.
  { apply does_performs; [|apply remove_temp_performs]. intros fs Hfs. by exists J. }
  intros temps d1. rewrite <-HJ. apply (recover_journal_does J []); [done|].
  eapply Forall_impl; [exact Hf|]. intros x [_ Hx]. lia.
Qed.

(** * Committing *)

(** The commits on record once [p] was attempted. *)
Definition log_after (log : list SegmentCommitPayload) (p : SegmentCommitPayload)
    (fs : gmap fpath content) : list SegmentCommitPayload :=
  if decide (is_Some (fs !! entry_path (true, p)) ∨ is_Some (fs !! entry_path (false, p)))
  then log ++ [p] else log.

Definition recorded (log : list SegmentCommitPayload) (p : SegmentCommitPayload) (fs : gmap fpath content) : Prop :=
  logged (log_after log p fs) fs.

Definition newer (log : list SegmentCommitPayload) (t : StorageTransaction) : Prop :=
  Forall (λ q, payload_id q < tx_id t)%Z log ∧ (1 ≤ tx_id t ≤ u64_max)%Z.

(** Where an attempt at [p] from [fs0] may stop: [p] is on record, or nothing of it
was done. *)
Definition attempted (fs0 : gmap fpath content) (log : list SegmentCommitPayload) (p : SegmentCommitPayload)
    (fs : gmap fpath content) : Prop :=
  recorded log p fs ∧
  (log_after log p fs = log ++ [p] ∨ ∀ c, tracked c → cell_get fs c = cell_get fs0 c).

Definition untouched (fs0 fs : gmap fpath content) : Prop := ∀ c, tracked c → cell_get fs c = cell_get fs0 c.

Lemma recorded_before J log p fs :
  J.*2 = log → newer log (pl_transaction p) → journal_holds J fs → recorded log p fs.
Proof.
  intros HJ [Hn Hw] Hj. unfold recorded, log_after. pose proof Hj as (_ & Hf & _ & _ & Honly).
  assert (∀ b, fs !! entry_path (b, p) = None) as Hnone.
  { intros b. destruct (fs !! entry_path (b, p)) as [c|] eqn:E; [|done]. exfalso.
    assert (in_width u64_max (payload_id p)) as Hw' by (unfold in_width; lia).
    destruct (Honly _ _ E) as [Ht|(x & Hx & Hname)]; [by unfold entry_name in Ht; rewrite journal_name_not_temp in Ht|].
    apply (f_equal journal_file_key) in Hname. rewrite Forall_forall in Hf.
    rewrite (entry_key_eq x) in Hname by auto. unfold entry_name in Hname. rewrite journal_file_key_name in Hname by done.
    rewrite <-HJ, Forall_fmap, Forall_forall in Hn. apply Hn in Hx. simpl in *. naive_solver lia. }
  rewrite decide_False; [by exists J|]. rewrite !Hnone. intros [[? ?]|[? ?]]; done.
Qed.

Lemma recorded_after fs0 J b p log fs : J.*2 = log → journal_holds (J ++ [(b, p)]) fs → attempted fs0 log p fs.
Proof.
  intros HJ Hj. unfold attempted, recorded, log_after. pose proof Hj as (_ & _ & _ & Hin & _).
  assert (is_Some (fs !! entry_path (b, p))) as Hs by (rewrite Hin; [done|apply elem_of_app; right; by left]).
  rewrite decide_True by (destruct b; auto). split; [|by left].
  exists (J ++ [(b, p)]). split; [|done]. by rewrite fmap_app, HJ.
Qed.

Lemma temp_journal_name p n : ∃ name, temp_path_for (entry_path (true, p)) n = ["journal"; name] ∧ contains_str name ".tmp-" = true.
Proof.
  unfold temp_path_for, entry_path. simpl. eexists. split; [done|]. unfold temp_suffix. apply contains_str_app.
Qed.

Lemma write_pending_does fs0 J log p d :
  J.*2 = log → newer log (pl_transaction p) → commit_ok p →
  does d (λ fs, journal_holds J fs ∧ untouched fs0 fs) (journal_holds (J ++ [(true, p)])) (attempted fs0 log p) []
    (write_file store (entry_path (true, p)) (entry_content (true, p)) Wal).
Proof using Hfull.
  intros HJ Hn Hp. unfold does. rewrite write_file_full by done. unfold replace_file.
  destruct (temp_journal_name p (temp_counter d)) as (name & -> & Hname).
  set (d0 := mkDisk (files d) (temp_counter d + 1) (faults d)).
  change (does d0 (λ fs, journal_holds J fs ∧ untouched fs0 fs) (journal_holds (J ++ [(true, p)])) (attempted fs0 log p) ([] ++ ([] ++ []))
    (replace_file (entry_path (true, p)) (entry_content (true, p)) ["journal"; name])).
  assert (∀ fs, journal_holds J fs ∧ untouched fs0 fs → attempted fs0 log p fs) as Hstop.
  { intros fs [Hfs Hu]. split; [by eapply recorded_before|by right]. }
  assert (∀ d (c : content), does d (λ fs, journal_holds J fs ∧ untouched fs0 fs)
    (λ fs, journal_holds J fs ∧ untouched fs0 fs) (attempted fs0 log p) [] (change <[["journal"; name] := c]>)) as Ht.
  { intros d' c. apply does_journal_change; [done| |intros fs; by apply aside_insert, journal_aside].
    intros fs [Hfs Hu]. split; [by apply journal_temp|]. intros x Hx. rewrite <-Hu by done.
    by apply aside_insert; [apply journal_aside|]. }
  eapply does_bind; [apply Ht|]. intros _ d1. eapply does_bind; [apply Ht|]. intros _ d2.
  apply does_journal_change; [done| |].
  - intros fs [Hfs _]. apply journal_add; [by apply journal_temp| |done].
    rewrite Forall_forall. intros x Hx. destruct Hn as [Hn _]. rewrite <-HJ, Forall_fmap, Forall_forall in Hn. by apply Hn.
  - intros fs. destruct (aside_insert (entry_path (true, p)) (entry_content (true, p)) (delete ["journal"; name] fs)) as [Hi1 Hi2]; [by apply journal_aside|].
    destruct (aside_delete ["journal"; name] fs) as [Hd1 Hd2]; [by apply journal_aside|].
    split; [auto|]. intros z Hz. by rewrite Hi2, Hd2.
Qed.

Lemma build_commit_payload_reads t d : readable (files d) →
  ∃ removals, build_commit_payload t d = (d, Ok (mkPayload SEGMENT_COMMIT_SCHEMA_VERSION t removals)).
Proof.
  intros [_ Hm]. assert (∀ l, ∃ ks, collect_removals l d = (d, Ok ks)) as Hc.
  { induction l as [|[n m] l [ks IH]]; [by eexists|]. cbn [collect_removals]. unfold mbind, D_bind, manifest_removals,
      load_node_index_manifest, look. specialize (Hm n). simpl. unfold mbind, D_bind. 
    destruct (files d !! node_index_manifest_path n) as [[]|]; try done; simpl; rewrite IH; by eexists. }
  unfold build_commit_payload. destruct (Hc (btree_list (tx_node_indexes t))) as [ks E]. unfold mbind, D_bind. rewrite E. by eexists.
Qed.

(** What remains of [apply_transaction] once the commit is built. *)
Definition commit_steps (p : SegmentCommitPayload) : D unit :=
  _ ← write_file store (entry_path (true, p)) (entry_content (true, p)) Wal;
  _ ← materialize_commit_payload_with_mode store p Commit;
  rename (entry_path (true, p)) (entry_path (false, p)).

Lemma apply_transaction_eq t p d :
  build_commit_payload t d = (d, Ok p) → pl_transaction p = t → apply_transaction store t d = commit_steps p d.
Proof using Hfull.
  intros Hb <-. unfold apply_transaction, commit_steps. unfold mbind at 1, D_bind at 1. rewrite Hb.
  unfold write_pending_commit, prune_journal. rewrite Hfull. unfold mbind, D_bind.
  change (journal_pending_path (payload_id p)) with (entry_path (true, p)).
  change (journal_final_path (payload_id p)) with (entry_path (false, p)).
  change (FileCommit (commit_record_for_payload p)) with (entry_content (true, p)).
  destruct (write_file _ _ _ _ d) as [d1 [[]|e]]; [|done].
  simpl. destruct (materialize_commit_payload_with_mode store p Commit d1) as [d2 [[]|e]]; [|done].
  by destruct (rename (entry_path (true, p)) (entry_path (false, p)) d2) as [d3 [[]|e]].
Qed.

Lemma commit_steps_does fs0 J log p d :
  J.*2 = log → newer log (pl_transaction p) → commit_ok p →
  does d (λ fs, journal_holds J fs ∧ untouched fs0 fs) (journal_holds (J ++ [(false, p)])) (attempted fs0 log p)
    ([] ++ (assigns p ++ [])) (commit_steps p).
Proof using Hfull.
  intros HJ Hn Hp. eapply does_bind; [by apply write_pending_does|]. intros _ d1.
  apply (does_bind d1 _ (journal_holds (J ++ [(true, p)]))).
  { apply does_performs; [intros fs; by apply recorded_after|]. apply performs_commit; [done|apply journal_holds_about]. }
  intros _ d2 Hr Hj.
  destruct (does_finalize d2 J p [] (log ++ [p]) ltac:(by rewrite fmap_app, HJ) Hr Hj) as (H1 & H2 & H3).
  split; [done|]. split; [|done]. destruct (is_ok _) eqn:E; [done|].
  (* the rename failed: the pending entry is still there *)
  assert (files (rename (entry_path (true, p)) (entry_path (false, p)) d2).1 = files d2) as ->.
  { revert E. unfold rename, mbind, D_bind, look. destruct (files d2 !! entry_path (true, p)); [|done].
    unfold change. by destruct (faults d2) as [[|n]|]. }
  by eapply recorded_after.
Qed.

Lemma apply_does J log t p d :
  J.*2 = log → newer log t → build_commit_payload t d = (d, Ok p) → pl_transaction p = t → commit_ok p →
  does d (journal_holds J) (journal_holds (J ++ [(false, p)])) (attempted (files d) log p) (assigns p)
    (apply_transaction store t).
Proof using Hfull.
  intros HJ Hn Hb Hpt Hp Hr Hj. rewrite (apply_transaction_eq t p d Hb Hpt). subst t.
  pose proof (commit_steps_does (files d) J log p d HJ Hn Hp Hr) as Hs. rewrite app_nil_r in Hs. by apply Hs.
Qed.

(** * What a store can have been through *)

(** The disks a store can leave behind and the commits on record there: commits
and recoveries on a disk that may fail at any change, and a power failure that
leaves the journal, which was synced, and anything at all in the files the journal
covers, as long as the index files can be parsed. *)
Inductive history : Disk → list SegmentCommitPayload → Prop :=
  | history_new n f : history (mkDisk ∅ n f) []
  | history_faults d log f : history d log → history (mkDisk (files d) (temp_counter d) f) log
  | history_apply d log t p :
      history d log → newer log t → build_commit_payload t d = (d, Ok p) →
      history (apply_transaction store t d).1 (log_after log p (files (apply_transaction store t d).1))
  | history_recover d log : history d log → history (recover store d).1 log
  | history_power_loss d log fs n f :
      history d log →
      (∀ p, journal_part p → fs !! p = files d !! p) →
      (∀ c, tracked c → c ∉ (log ≫= assigns).*1 → cell_get fs c = cell_get (files d) c) →
      readable fs →
      history (mkDisk fs n f) log.

Definition history_inv (d : Disk) (log : list SegmentCommitPayload) : Prop :=
  readable (files d) ∧ logged log (files d) ∧
  ∀ c, tracked c → c ∉ (log ≫= assigns).*1 → cell_get (files d) c = None.

Lemma build_commit_payload_tx t d p : readable (files d) → build_commit_payload t d = (d, Ok p) →
  pl_transaction p = t ∧ pl_schema_version p = SEGMENT_COMMIT_SCHEMA_VERSION.
Proof. intros Hr Hb. destruct (build_commit_payload_reads t d Hr) as [ks E]. rewrite Hb in E. by injection E as ->. Qed.

Lemma history_apply_inv d log t p :
  history_inv d log → newer log t → build_commit_payload t d = (d, Ok p) →
  history_inv (apply_transaction store t d).1 (log_after log p (files (apply_transaction store t d).1)) ∧
  (is_ok (apply_transaction store t d).2 = true →
     log_after log p (files (apply_transaction store t d).1) = log ++ [p]).
Proof using Hfull.
  intros (Hr & (J & HJ & Hj) & Hu) Hn Hb. destruct (build_commit_payload_tx _ _ _ Hr Hb) as [Hpt Hps].
  assert (commit_ok p) as Hp by (split; [done|rewrite Hpt; apply Hn]).
  destruct (apply_does J log t p d HJ Hn Hb Hpt Hp Hr Hj) as (Hr' & Hs & Hcells & _ & _).
  set (fs := files (apply_transaction store t d).1) in *.
  assert (attempted (files d) log p fs) as [Hrec Hst] by (destruct (is_ok _); [by eapply recorded_after|done]).
  split.
  - split; [done|]. split; [exact Hrec|]. intros c Hc Hin. destruct Hst as [E|Hsame].
    + rewrite E, bind_app, fmap_app, not_elem_of_app in Hin. destruct Hin as [H1 H2]. rewrite Hcells; [by apply Hu|done|].
      rewrite bind_cons, app_nil_r in H2. done.
    + rewrite Hsame by done. apply Hu; [done|]. intros Hin'. apply Hin. unfold log_after. case_decide; [|done].
      rewrite bind_app, fmap_app. apply elem_of_app. by left.
  - intros Hok. rewrite Hok in Hs. unfold log_after. rewrite decide_True; [done|]. right.
    destruct Hs as (_ & _ & _ & Hin & _). rewrite Hin; [done|]. apply elem_of_app. right. by left.
Qed.

Lemma history_holds d log : history d log → history_inv d log.
Proof using Hfull.
  induction 1 as [n f|d log f _ IH|d log t p _ IH Hn Hb|d log _ IH|d log fs n f _ IH Hj Hc Hr].
  - assert (∀ q, files (mkDisk ∅ n f) !! q = None) as He by (intros q; apply lookup_empty).
    split; [split; intros; by rewrite He|]. split; [|intros c _ _; destruct c; cbn [cell_get]; by rewrite He].
    exists []. split; [done|]. split_and!; [constructor|constructor|apply He|by intros x ?%not_elem_of_nil|].
    intros name c. by rewrite He.
  - exact IH.
  - by apply history_apply_inv.
  - destruct IH as (Hr & Hl & Hu). destruct (recover_does log d Hr Hl) as (Hr' & Hl' & Hc & _).
    split; [done|]. split; [by destruct (is_ok _)|]. intros c Ht Hin. rewrite Hc by done. auto.
  - destruct IH as (Hr0 & (J & HJ & Hl) & Hu). split; [done|]. split.
    + exists J. split; [done|]. by eapply journal_holds_about.
    + intros c Ht Hin. simpl. rewrite Hc by done. auto.
Qed.

(** * What is read back *)

(** What the commits on record last wrote to a node, and their last metadata. *)
Definition committed_node (log : list SegmentCommitPayload) (n : NodeId) : option NodeState :=
  foldl (λ st p, match tx_nodes (pl_transaction p) !! n with Some st' => Some st' | None => st end) None log.

Definition committed_metadata (log : list SegmentCommitPayload) : option StorageMetadata :=
  (λ p, tx_metadata (pl_transaction p)) <$> last log.

Lemma last_assign_map {A} (key : A → string) (path : string → fpath) (c : A → content) (l : list A) n v :
  (∀ x y, path x = path y → x = y) →
  last_assign ((λ e, (CFile (path (key e)), Some (VContent (c e)))) <$> l) (CFile (path n)) v =
  foldl (λ v e, if decide (key e = n) then Some (VContent (c e)) else v) v l.
Proof.
  intros Hinj. revert v. induction l as [|e l IH]; intros v; [done|]. simpl. rewrite <-IH. f_equal.
  destruct (decide (key e = n)) as [<-|Hne]; [by rewrite decide_True|]. rewrite decide_False; [done|].
  intros [= E%Hinj]. done.
Qed.

Lemma foldl_btree {V W} (g : V → W) (m : gmap string V) n (v : option W) :
  foldl (λ v e, if decide (e.1 = n) then Some (g e.2) else v) v (btree_list m) =
  match m !! n with Some x => Some (g x) | None => v end.
Proof.
  assert (∀ l : list (string * V), NoDup l.*1 → ∀ v,
    foldl (λ v e, if decide (e.1 = n) then Some (g e.2) else v) v l =
    match list_to_map (M := gmap string V) l !! n with Some x => Some (g x) | None => v end) as Hl.
  { induction l as [|[k x] l IH]; intros Hnd v'; [done|]. inv Hnd. cbn [foldl list_to_map fst snd]. rewrite IH by done.
    simpl. case_decide as E.
    - subst k. rewrite lookup_insert_eq. rewrite (not_elem_of_list_to_map_1 l n) by done. done.
    - by rewrite lookup_insert_ne. }
  rewrite Hl by apply btree_keys_NoDup. by rewrite btree_list_to_map.
Qed.

Lemma node_path_inj x y : node_path x = node_path y → x = y.
Proof.
  unfold node_path, json_file. intros [= E]. apply (f_equal (strip_suffix ".json")) in E.
  rewrite !strip_suffix_app in E. injection E as E. by apply encode_inj.
Qed.

(** Assignments to files that are no node's say nothing of a node. *)
Lemma node_untouched p n : 
  CFile (node_path n) ∉ (drop (length (btree_list (tx_nodes (pl_transaction p)))) (assigns p)).*1.
Proof.
  unfold assigns. rewrite drop_app_length' by (by rewrite length_fmap).
  rewrite !fmap_app, !not_elem_of_app. split_and!; rewrite ?list_elem_of_fmap.
  - intros (e & E & (x & -> & _)%list_elem_of_fmap). done.
  - intros (e & E & (x & -> & _)%list_elem_of_fmap). done.
  - intros (e & E & (x & _ & Hx)%list_elem_of_omap). destruct (_ !! x); simplify_eq/=.
  - intros (e & E & (x & -> & _)%list_elem_of_fmap). done.
  - intros (e & E & (x & -> & _)%list_elem_of_fmap). done.
  - intros (e & E & (x & -> & _)%list_elem_of_fmap). done.
  - intros (e & E & ->%list_elem_of_singleton). done.
Qed.

Lemma node_assigned p n v :
  last_assign (assigns p) (CFile (node_path n)) v =
  match tx_nodes (pl_transaction p) !! n with Some st => Some (VContent (FileNode st)) | None => v end.
Proof.
  rewrite <-(take_drop (length (btree_list (tx_nodes (pl_transaction p)))) (assigns p)), last_assign_app.
  rewrite last_assign_untouched by apply node_untouched. unfold assigns.
  rewrite take_app_length' by (by rewrite length_fmap).
  rewrite (last_assign_map fst node_path (λ e, FileNode e.2)) by apply node_path_inj.
  apply (foldl_btree (λ st, VContent (FileNode st))).
Qed.

Lemma nodes_assigned log n v :
  last_assign (log ≫= assigns) (CFile (node_path n)) (VContent ∘ FileNode <$> v) =
  VContent ∘ FileNode <$>
    foldl (λ st p, match tx_nodes (pl_transaction p) !! n with Some st' => Some st' | None => st end) v log.
Proof.
  revert v. induction log as [|p log IH]; intros v; [done|]. rewrite bind_cons, last_assign_app, node_assigned.
  cbn [foldl]. rewrite <-IH. f_equal. by destruct (_ !! n).
Qed.

Lemma metadata_assigned log v :
  last_assign (log ≫= assigns) (CFile manifest_path) v =
  match committed_metadata log with Some m => Some (VContent (FileMetadata m)) | None => v end.
Proof.
  induction log as [|p log' _] using rev_ind; [done|]. unfold committed_metadata.
  rewrite last_snoc, bind_app, last_assign_app, bind_cons, app_nil_r. generalize (last_assign (log' ≫= assigns) (CFile manifest_path) v).
  intros w. unfold assigns. rewrite !app_assoc, last_assign_app. unfold last_assign at 1. cbn [foldl fst snd].
  by rewrite decide_True.
Qed.

(** A disk whose files are what the commits on record wrote. *)
Definition up_to_date (d : Disk) (log : list SegmentCommitPayload) : Prop :=
  history d log ∧ ∀ c, tracked c → cell_get (files d) c = last_assign (log ≫= assigns) c None.

Lemma recover_up_to_date d log :
  history d log →
  (is_ok (recover store d).2 = true → up_to_date (recover store d).1 log) ∧
  (faults d = None → is_ok (recover store d).2 = true ∧ faults (recover store d).1 = None).
Proof using Hfull.
  intros Hh. destruct (history_holds d log Hh) as (Hr & Hl & Hu).
  destruct (recover_does log d Hr Hl) as (_ & _ & _ & Ho & Hn). split; [|done].
  intros Hok. split; [by apply history_recover|]. intros c Hc. rewrite Ho by done.
  destruct (decide (c ∈ (log ≫= assigns).*1)); [by apply last_assign_touched|by rewrite Hu].
Qed.

Lemma up_to_date_node d log n : up_to_date d log → segment_get_node n d = (d, Ok (committed_node log n)).
Proof.
  intros [_ Hcells]. specialize (Hcells (CFile (node_path n)) (node_path_store n)).
  pose proof (nodes_assigned log n None) as Hn'. cbn [fmap option_fmap option_map] in Hn'. rewrite Hn' in Hcells.
  cbn [cell_get] in Hcells. unfold segment_get_node, mbind, D_bind, look, committed_node.
  destruct (files d !! node_path n) as [[]|], (foldl _ None log); by simplify_eq/=.
Qed.

Lemma up_to_date_metadata d log :
  up_to_date d log → (∀ m, committed_metadata log = Some m → schema_version m = STORAGE_SCHEMA_VERSION) →
  read_manifest_unrecovered d = (d, Ok (committed_metadata log)).
Proof.
  intros [_ Hcells] Hv. specialize (Hcells (CFile manifest_path) manifest_path_store).
  rewrite metadata_assigned in Hcells. cbn [cell_get] in Hcells.
  unfold read_manifest_unrecovered, mbind, D_bind, look.
  destruct (committed_metadata log) as [m|].
  - specialize (Hv m eq_refl). destruct (files d !! manifest_path) as [[]|]; simplify_eq/=. by rewrite Hv.
  - by destruct (files d !! manifest_path) as [[]|]; simplify_eq/=.
Qed.

Lemma history_builds d log t : history d log → ∃ p, build_commit_payload t d = (d, Ok p).
Proof using Hfull.
  intros Hh. destruct (history_holds d log Hh) as (Hr & _ & _). destruct (build_commit_payload_reads t d Hr) as [ks Hb]. eauto.
Qed.

(** What an attempt at a commit leaves. *)
Lemma apply_outcome d log t p :
  history d log → newer log t → build_commit_payload t d = (d, Ok p) →
  let r := apply_transaction store t d in
  pl_transaction p = t ∧
    (if is_ok r.2 then history r.1 (log ++ [p]) ∧ (up_to_date d log → up_to_date r.1 (log ++ [p]))
     else history r.1 (log ++ [p]) ∨ history r.1 log) ∧
    (faults d = None → is_ok r.2 = true ∧ faults r.1 = None).
Proof using Hfull.
  intros Hh Hn Hb r. pose proof (history_holds d log Hh) as Hi. pose proof Hi as (Hr & (J & HJ & Hj) & _).
  destruct (build_commit_payload_tx _ _ _ Hr Hb) as [Hpt Hps]. split; [done|].
  destruct (history_apply_inv d log t p Hi Hn Hb) as [_ Hok]. pose proof (history_apply d log t p Hh Hn Hb) as Hh'.
  assert (commit_ok p) as Hp by (split; [done|rewrite Hpt; apply Hn]).
  destruct (apply_does J log t p d HJ Hn Hb Hpt Hp Hr Hj) as (_ & _ & _ & Hcells & Hfail). fold r in Hok, Hh', Hcells, Hfail.
  split; [|done]. destruct (is_ok r.2) eqn:E.
  - rewrite Hok in Hh' by done. split; [done|]. intros [_ Hc]. split; [done|]. intros c Ht.
    rewrite Hcells, Hc by done. by rewrite bind_app, last_assign_app, bind_cons, app_nil_r.
  - revert Hh'. unfold log_after. case_decide; [by left|by right].
Qed.

(** C5: crash safety of the synced store.  Let commits and recoveries run on a disk
that may fail at any one change, and let a power failure turn the files that the
journal covers into anything that parses: recovery on a working disk succeeds, and
every file and index entry then holds what the commits on record last wrote there,
so that the nodes and the metadata read back are the committed ones; and it leaves
a disk of the same kind, so recovering again changes nothing. *)
Theorem crash_recovery d log :
  history d log →
  let r := recover store (mkDisk (files d) (temp_counter d) None) in
  is_ok r.2 = true ∧
  (∀ c, tracked c → cell_get (files r.1) c = last_assign (log ≫= assigns) c None) ∧
  (∀ n, segment_get_node n r.1 = (r.1, Ok (committed_node log n))) ∧
  ((∀ m, committed_metadata log = Some m → schema_version m = STORAGE_SCHEMA_VERSION) →
     read_manifest_unrecovered r.1 = (r.1, Ok (committed_metadata log))) ∧
  history r.1 log.
Proof using Hfull.
  intros Hh r. apply (history_faults d log None) in Hh. destruct (recover_up_to_date _ _ Hh) as [Hs Hok].
  destruct (Hok eq_refl) as [Hok' _]. specialize (Hs Hok'). fold r in Hok', Hs. split_and!; [done|apply Hs|intros n; by apply up_to_date_node|by apply up_to_date_metadata|apply Hs].
Qed.

(** C29: a commit is atomic and durable: it ends with its payload on record or, only
when it reports an error, with the record as it was; no part of a commit that is
not on record survives recovery. *)
Theorem commit_atomic d log t :
  history d log → newer log t →
  let r := apply_transaction store t d in
  ∃ p, pl_transaction p = t ∧
    (history r.1 (log ++ [p]) ∨ is_ok r.2 = false ∧ history r.1 log).
Proof using Hfull.
  intros Hh Hn r. destruct (history_builds d log t Hh) as [p Hb].
  destruct (apply_outcome d log t p Hh Hn Hb) as (Hp & Ho & _). fold r in Ho. exists p. split; [done|]. destruct (is_ok r.2); naive_solver.
Qed.
End full.
End recovery.

(** * A concrete run *)

Module Run.
Definition env : StoreEnv := {|
  store_hash := λ s, s;
  stored_scalar := λ _ v, Some v;
  signed_scalar := λ _ _, None
|}.

Definition senv : SegmentEnv := {|
  process_id := 7;
  temp_millis := λ n, n;
  payload_checksum := λ p, dec (tx_id (pl_transaction p));
  checkpoint_checksum := λ _ tx _, dec tx
|}.
#[local] Existing Instance env.
#[local] Existing Instance senv.

Definition store : SegmentFileStore := mkSegmentStore 8 Full.

Definition node (n : string) (v : json) : NodeState :=
  mkNode n {["x" := mkField (FScalar v) (mkMarker (mkRevision 5 0 "a") "op1")]} ∅.

Definition meta (next : Z) : StorageMetadata :=
  build_storage_metadata (mkClock "a" 5 0 1) [] next.

Definition tx (i : Z) (v : json) : StorageTransaction :=
  build_storage_transaction i (meta (i + 1)) {["p" := node "p" v; "q" := node "q" v]}.

(** A commit, then one that the disk stops after its third change to the files. *)
Definition first : Disk := (apply_transaction store (tx 1 (JBool true)) (mkDisk ∅ 0 None)).1.
Definition stopped (n : nat) : Disk :=
  (apply_transaction store (tx 2 (JBool false)) (mkDisk (files first) (temp_counter first) (Some n))).1.

Definition payload (i : Z) (v : json) (removals : list string) : SegmentCommitPayload :=
  mkPayload SEGMENT_COMMIT_SCHEMA_VERSION (tx i v) removals.

Definition committed : SegmentCommitPayload := payload 1 (JBool true) [].
Definition interrupted : SegmentCommitPayload :=
  payload 2 (JBool false) ["direct/78/b_1/70"; "direct/78/b_1/71"].

Lemma newer_first : newer [] (tx 1 (JBool true)).
Proof. split; [constructor|]. by split; apply Z.leb_le; vm_compute. Qed.

Lemma newer_second : newer [committed] (tx 2 (JBool false)).
Proof.
  split; [constructor; [|constructor]; by apply Z.ltb_lt; vm_compute|]. by split; apply Z.leb_le; vm_compute.
Qed.

Lemma history_first : history store first [committed].
Proof. exact (history_apply store _ [] (tx 1 (JBool true)) committed (history_new store 0 None) newer_first eq_refl). Qed.

Definition weakened : Disk := mkDisk (files first) (temp_counter first) (Some 6).

Lemma built_second : build_commit_payload (tx 2 (JBool false)) weakened = (weakened, Ok interrupted).
Proof. vm_cast_no_check (eq_refl (weakened, Ok interrupted)). Qed.

Lemma recorded_second : log_after [committed] interrupted (files (stopped 6)) = [committed; interrupted].
Proof. unfold log_after. rewrite decide_True; [done|]. left. eexists. by vm_compute. Qed.

Lemma history_stopped : history store (stopped 6) [committed; interrupted].
Proof.
  rewrite <-recorded_second.
  exact (history_apply store weakened _ _ interrupted (history_faults store _ _ (Some 6) history_first) newer_second built_second).
Qed.

(** A commit that stopped in the middle of its first node is completed. *)
Lemma crash_recovery_witness :
  history store (stopped 6) [committed; interrupted] ∧
  is_ok (recover store (mkDisk (files (stopped 6)) (temp_counter (stopped 6)) None)).2 = true ∧
  committed_node [committed; interrupted] "p" = Some (node "p" (JBool false)).
Proof.
  split; [exact history_stopped|]. split; [|by vm_compute].
  exact (proj1 (crash_recovery store eq_refl (stopped 6) [committed; interrupted] history_stopped)).
Defined.

Lemma commit_atomic_witness :
  ∃ p, pl_transaction p = tx 2 (JBool false) ∧
    (history store (stopped 6) ([committed] ++ [p]) ∨
     is_ok (apply_transaction store (tx 2 (JBool false)) weakened).2 = false ∧
     history store (stopped 6) [committed]).
Proof.
  exact (commit_atomic store eq_refl weakened [committed] (tx 2 (JBool false))
    (history_faults store _ _ (Some 6) history_first) newer_second).
Defined.

(** The same disk, with one index file that a power failure left empty. *)
Definition torn : Disk :=
  mkDisk (<[direct_index_path "direct/78/b_1/70" := FileOther ""]> (files (stopped 6))) 0 None.

(** An index file that cannot be parsed, which a power failure can leave since
the index files of a commit are renamed into place unsynced, stops every recovery,
although the journal holds all that is needed to rebuild it: the store cannot be
opened. *)
Lemma torn_index_blocks_recovery :
  (∀ p, journal_part p → files torn !! p = files (stopped 6) !! p) ∧
  is_ok (recover store torn).2 = false ∧ is_ok (load_metadata store torn).2 = false ∧
  is_ok (recover store (mkDisk (files (recover store torn).1) 0 None)).2 = false.
Proof.
  split_and!; [|by vm_compute..]. intros p Hp. unfold torn. cbn [files]. apply lookup_insert_ne. intros <-.
  destruct Hp as [Hp|Hp]; by vm_compute in Hp.
Qed.
End Run.
