(* ===== verification/Vacuum.v ===== *)
(** Vacuuming the segment file store ([SegmentFileStore::vacuum] of
[src/src/engine.rs]): the checkpoint, the removal of files that the transaction
does not list, and the pruning of the journal.

[read_dir] gives a directory's files in no particular order; the order of the file
map stands for it.  Empty directories are not represented, so their removal is not
either. *)
From stdpp Require Import base gmap sets list strings sorting.
From Stdlib Require Import ZArith Lia.
From S2P Require Import Prelude Clock Value Crdt OpQueue Paths Records Keys Engine Segment.

Record StorageVacuumReport := mkVacuumReport {
  removed_node_files : nat;
  removed_auth_files : nat;
  removed_index_manifests : nat;
  removed_direct_index_files : nat;
  pruned_journal_files : nat
}.

(** [Path::file_stem]. *)
Definition file_stem (name : string) : string :=
  match before_last_dot name with
  | Some stem => if decide (stem = "") then name else stem
  | None => name
  end.

(** The files right in a directory. *)
Definition in_dir (dir : string) (p : fpath) : option string :=
  match p with [x; name] => if decide (x = dir) then Some name else None | _ => None end.

Definition dir_files (dir : string) (d : Disk) : list (string * content) :=
  omap (λ e, (λ name, (name, e.2)) <$> in_dir dir e.1) (map_to_list (files d)).

Section vacuum.
Context `{StoreEnv, SegmentEnv} (store : SegmentFileStore).

(** The loop of [vacuum_files_for_dir]. *)
Fixpoint vacuum_names (dir : string) (live : gset string) (names : list string) (removed : nat) : D nat :=
  match names with
  | [] => mret removed
  | name :: rest =>
      match decode_component (file_stem name) with
      | Err _ => vacuum_names dir live rest removed
      | Ok decoded =>
          if decide (decoded ∈ live) then vacuum_names dir live rest removed
          else _ ← remove_file [dir; name]; vacuum_names dir live rest (S removed)
      end
  end.

Definition vacuum_files_for_dir (dir : string) (live : gset string) : D nat :=
  names ← look (λ d, (dir_files dir d).*1);
  vacuum_names dir live names 0.

(** [collect_files] on [indexes/direct]. *)
Definition in_direct_index (p : fpath) : bool :=
  match p with x :: y :: _ :: _ => bool_decide (x = "indexes" ∧ y = "direct") | _ => false end.

Definition direct_index_files (d : Disk) : list fpath :=
  filter (λ p, in_direct_index p = true) (map_to_list (files d)).*1.

Fixpoint vacuum_buckets (live : gset string) (paths : list fpath) (removed : nat) : D nat :=
  match paths with
  | [] => mret removed
  | p :: rest =>
      bucket ← read_direct_index_bucket_path p;
      let kept : DirectIndexBucket := filter (λ e, e.1 ∈ live) bucket in
      if decide (kept = ∅) then
        _ ← remove_file p; vacuum_buckets live rest (S removed)
      else
        _ ← (if decide (size kept = size bucket) then mret tt
             else write_file store p (FileBucket kept) Configured);
        vacuum_buckets live rest removed
  end.

Fixpoint prune_names (checkpoint : Z) (names : list string) (removed : nat) : D nat :=
  match names with
  | [] => mret removed
  | name :: rest =>
      match journal_file_key name with
      | None => prune_names checkpoint rest removed
      | Some (tx, _) =>
          if (tx <=? checkpoint)%Z then
            there ← remove_file ["journal"; name];
            prune_names checkpoint rest (if there : bool then S removed else removed)
          else prune_names checkpoint rest removed
      end
  end.

Definition prune_journal_through (checkpoint : Z) : D nat :=
  names ← look (λ d, (journal_dir d).*1);
  prune_names checkpoint names 0.

Definition vacuum (t : StorageTransaction) : D StorageVacuumReport :=
  let checkpoint := sat_sub (tx_id t) 1 in
  _ ← match durability store with
      | Full =>
          payload ← build_commit_payload t;
          _ ← materialize_commit_payload_with_mode store payload Checkpoint;
          write_checkpoint store payload checkpoint
      | _ => mret tt
      end;
  nodes ← vacuum_files_for_dir "nodes" (dom (tx_nodes t));
  auth ← vacuum_files_for_dir "auth" (dom (tx_auth_meta t));
  manifests ← vacuum_files_for_dir "node_indexes" (dom (tx_node_indexes t));
  paths ← look direct_index_files;
  direct ← vacuum_buckets (dom (tx_direct_indexes t)) paths 0;
  pruned ← match durability store with
           | Full => prune_journal_through checkpoint
           | _ => prune_journal_with_report store
           end;
  mret (mkVacuumReport nodes auth manifests direct pruned).
End vacuum.
