(* ===== verification/Input.v ===== *)
(** Reading JSON input: the marker objects that stand for bytes, blobs, links and
sets, and [parse_input] that classifies a value before it is written
([src/src/db.rs], [src/src/binary.rs]). *)
From stdpp Require Import base gmap sets list strings sorting.
From Stdlib Require Import ZArith Lia.
From S2P Require Import Prelude Clock Value.

(** Code outside the repository the parser calls: the base64 codec of
[Base64UrlUnpadded] and the derived serialisation of [BlobRef]. *)
Class Codec := {
  base64_encode : list Z → string;
  base64_decode : string → option (list Z);
  blob_to_json : BlobRef → json;
  blob_from_json : json → option BlobRef
}.

Inductive SetMemberInput :=
  | MLink (target : NodeId)
  | MObject (object : list (string * json)).

Inductive ParsedInput :=
  | PScalar (v : json)
  | PBytes (b : BinaryBytes)
  | PBlob (r : BlobRef)
  | PLink (target : NodeId)
  | PSet (members : list SetMemberInput)
  | PObject (object : list (string * json)).

Section input.
Context `{Codec}.

Definition parse_link_marker (object : list (string * json)) : option string :=
  if negb (length object =? 1) then None
  else
    match (match obj_get "$link" object with Some v => Some v | None => obj_get "#" object end) with
    | Some (JString target) => Some target
    | _ => None
    end.

Definition parse_bytes_marker (object : list (string * json)) (path : string)
    : result (option BinaryBytes) :=
  if negb (length object =? 1) then Ok None
  else
    match obj_get "$bytes" object with
    | None => Ok None
    | Some (JString encoded) =>
        match base64_decode encoded with
        | Some bytes => Ok (Some (mkBytes bytes))
        | None => Err (InvalidBinaryMarker path)
        end
    | Some _ => Err (InvalidBinaryMarker path)
    end.

Definition parse_blob_marker (object : list (string * json)) (path : string)
    : result (option BlobRef) :=
  if negb (length object =? 1) then Ok None
  else
    match obj_get "$blob" object with
    | None => Ok None
    | Some v =>
        match blob_from_json v with
        | Some r => Ok (Some r)
        | None => Err (InvalidBlobMarker path)
        end
    end.

Definition parse_set_marker (object : list (string * json)) : option (list json) :=
  if negb (length object =? 1) then None
  else match obj_get "$set" object with Some (JArray items) => Some items | _ => None end.

(** The loop over the items of a set marker. *)
Fixpoint parse_members (items : list json) (path : string) : result (list SetMemberInput) :=
  match items with
  | [] => Ok []
  | JObject object :: rest =>
      match parse_members rest path with
      | Ok members =>
          Ok (match parse_link_marker object with
              | Some target => MLink target
              | None => MObject object
              end :: members)
      | Err e => Err e
      end
  | _ :: _ => Err (InvalidSetMember path)
  end.

Definition parse_input (v : json) (path : string) : result ParsedInput :=
  match v with
  | JObject object =>
      match parse_bytes_marker object path with
      | Err e => Err e
      | Ok (Some bytes) => Ok (PBytes bytes)
      | Ok None =>
          match parse_blob_marker object path with
          | Err e => Err e
          | Ok (Some r) => Ok (PBlob r)
          | Ok None =>
              match parse_link_marker object with
              | Some target => Ok (PLink target)
              | None =>
                  match parse_set_marker object with
                  | Some items =>
                      match parse_members items path with
                      | Ok members => Ok (PSet members)
                      | Err e => Err e
                      end
                  | None => Ok (PObject object)
                  end
              end
          end
      end
  | JArray items =>
      if existsb is_object items then Err (ArrayOfObjectsUnsupported path)
      else Ok (PScalar (JArray items))
  | scalar => Ok (PScalar scalar)
  end.

Definition bytes_marker_value (b : BinaryBytes) : json :=
  JObject [("$bytes", JString (base64_encode (bytes_of b)))].

Definition blob_marker_value (r : BlobRef) : json := JObject [("$blob", blob_to_json r)].

Definition link_marker_value (target : NodeId) : json := JObject [("$link", JString target)].

Definition parse_member_reference (v : json) (path : string) : result string :=
  match v with
  | JString member => Ok member
  | JObject object =>
      match parse_link_marker object with
      | Some link => Ok link
      | None =>
          match obj_get "$id" object with
          | Some (JString id) => Ok id
          | _ => Err (InvalidMemberReference path)
          end
      end
  | _ => Err (InvalidMemberReference path)
  end.
End input.

(** The codecs invert each other. *)
Class CodecLaws `{Codec} := {
  base64_roundtrip : ∀ b, base64_decode (base64_encode b) = Some b;
  blob_roundtrip : ∀ r, blob_from_json (blob_to_json r) = Some r
}.

(** * Theorems *)

Section laws.
Context `{Codec}.

Lemma single_entry (o : list (string * json)) k v :
  (length o =? 1) = true → obj_get k o = Some v → o = [(k, v)].
Proof.
  destruct o as [|[k' v'] [|]]; try done. intros _. simpl. case_decide; [|done]. by intros [= ->]; subst.
Qed.

Lemma parse_members_length items p ms :
  parse_members items p = Ok ms → length ms = length items ∧ Forall (λ x, is_object x = true) items.
Proof.
  revert ms. induction items as [|x items IH]; intros ms; simpl; [by intros [= <-]|].
  destruct x; try done. destruct (parse_members items p) as [ms'|]; [|done]. intros [= <-].
  destruct (IH ms' eq_refl). simpl. split; [lia|]. by constructor.
Qed.

(** The container inputs: what a parsed set or object came from. *)
Lemma parse_input_container v p :
  match parse_input v p with
  | Ok (PSet _) => ∃ items, v = JObject [("$set", JArray items)]
  | Ok (PObject o) => v = JObject o
  | _ => True
  end.
Proof.
  destruct v as [| | | |items|o]; simpl; try done; [by destruct (existsb is_object items)|].
  destruct (parse_bytes_marker o p) as [[]|]; try done.
  destruct (parse_blob_marker o p) as [[]|]; try done.
  destruct (parse_link_marker o); [done|]. unfold parse_set_marker.
  destruct (length o =? 1) eqn:Hlen; simpl; [|done].
  destruct (obj_get "$set" o) as [vs|] eqn:Es; [|done].
  apply single_entry in Es as ->; [|done]. destruct vs as [| | | |items|]; try done.
  destruct (parse_members items p); [eauto|done].
Qed.

(** What each kind of input is.  A value is classified as bytes, blob, link
or set only when it is exactly that one-entry marker object; scalars and objects
pass through unchanged; a scalar array holds no object; and only objects and
arrays are ever refused. *)
Lemma parse_input_cases v p :
  match parse_input v p with
  | Ok (PScalar s) => s = v ∧ is_object v = false ∧
      ∀ items, v = JArray items → existsb is_object items = false
  | Ok (PBytes b) => ∃ s, v = JObject [("$bytes", JString s)] ∧ base64_decode s = Some (bytes_of b)
  | Ok (PBlob r) => ∃ j, v = JObject [("$blob", j)] ∧ blob_from_json j = Some r
  | Ok (PLink t) => v = JObject [("$link", JString t)] ∨ v = JObject [("#", JString t)]
  | Ok (PSet ms) => ∃ items, v = JObject [("$set", JArray items)] ∧ length ms = length items ∧
      Forall (λ x, is_object x = true) items
  | Ok (PObject o) => v = JObject o
  | Err _ => is_object v = true ∨ ∃ items, v = JArray items ∧ existsb is_object items = true
  end.
Proof.
  destruct v as [|b|n|s|items|o]; simpl; try done.
  { destruct (existsb is_object items) eqn:E; [eauto|]. split_and!; [done..|]. by intros ? [= <-]. }
  unfold parse_bytes_marker, parse_blob_marker, parse_link_marker, parse_set_marker.
  destruct (length o =? 1) eqn:Hlen; simpl; [|done].
  destruct (obj_get "$bytes" o) as [vb|] eqn:Eb.
  { apply single_entry in Eb as ->; [|done]. destruct vb; try by left.
    destruct (base64_decode s) eqn:E; [|by left]. eauto. }
  destruct (obj_get "$blob" o) as [vb|] eqn:Er.
  { apply single_entry in Er as ->; [|done]. destruct (blob_from_json vb) eqn:E; [|by left]. eauto. }
  destruct (obj_get "$link" o) as [vl|] eqn:El.
  { apply single_entry in El as ->; [|done]. destruct vl; try done. by left. }
  destruct (obj_get "#" o) as [vl|] eqn:Eh.
  { apply single_entry in Eh as ->; [|done]. destruct vl; try done. by right. }
  destruct (obj_get "$set" o) as [vs|] eqn:Es; [|done].
  apply single_entry in Es as ->; [|done]. destruct vs as [| | | |items|]; try done.
  destruct (parse_members items p) as [ms|] eqn:Em; [|by left].
  apply parse_members_length in Em as [? ?]. eauto.
Qed.

(** Markers round-trip: what the database prints for bytes, a blob or a link
parses back to the same value when it is written again. *)
Lemma marker_roundtrip `{!CodecLaws} b r t p :
  parse_input (bytes_marker_value b) p = Ok (PBytes b) ∧
  parse_input (blob_marker_value r) p = Ok (PBlob r) ∧
  parse_input (link_marker_value t) p = Ok (PLink t).
Proof.
  unfold parse_input, bytes_marker_value, blob_marker_value, link_marker_value,
    parse_bytes_marker, parse_blob_marker. simpl. split_and!; [|by rewrite blob_roundtrip|done].
  rewrite base64_roundtrip. by destruct b.
Qed.
End laws.

(** * A codec *)

Fixpoint pos_str (p : positive) : string :=
  match p with
  | xH => "" | xO p => String "0"%char (pos_str p) | xI p => String "1"%char (pos_str p)
  end.

Fixpoint str_pos (s : string) : option positive :=
  match s with
  | EmptyString => Some xH
  | String a s => (if decide (a = "0"%char) then xO else xI) <$> str_pos s
  end.

Lemma str_pos_str p : str_pos (pos_str p) = Some p.
Proof. induction p as [p IH|p IH|]; simpl; [by rewrite IH..|done]. Qed.

#[global] Instance BlobRef_countable : Countable BlobRef.
Proof.
  apply (inj_countable' (λ r, (blob_id r, blob_bytes r, media_type r))
    (λ t, let '(i, b, m) := t in mkBlobRef i b m)). by intros [].
Defined.

Definition demo_codec : Codec := {|
  base64_encode l := pos_str (encode l);
  base64_decode s := str_pos s ≫= decode;
  blob_to_json r := JString (pos_str (encode r));
  blob_from_json v := match v with JString s => str_pos s ≫= decode | _ => None end
|}.

Lemma demo_codec_laws : @CodecLaws demo_codec.
Proof. split; intros x; simpl; rewrite str_pos_str; simpl; apply decode_encode. Qed.

Lemma marker_roundtrip_witness :
  @parse_input demo_codec (@bytes_marker_value demo_codec (mkBytes [1; 255]%Z)) "p" =
  Ok (PBytes (mkBytes [1; 255]%Z)).
Proof.
  exact (proj1 (@marker_roundtrip demo_codec demo_codec_laws (mkBytes [1; 255]%Z)
    (mkBlobRef "b" 3 None) "t" "p")).
Defined.
