(* ===== verification/Inner.v ===== *)
(** The database state behind the lock ([Inner] of [src/src/db.rs]) and the
operations on it: journaling, applying operations, loading nodes from storage,
resolving paths, and writing, with the state explicit and errors as values that
keep the writes made before them. *)
From stdpp Require Import base gmap sets list strings sorting pretty.
From Stdlib Require Import ZArith Lia.
From S2P Require Import Prelude Clock Value Crdt Merge OpQueue RelIndex Paths Records Input.

(** [TransactionJournal]. *)
Record TransactionJournal := mkJournal {
  j_clock : HybridClock;
  j_nodes : gmap string (option NodeState);
  j_overlay : Overlay;
  j_pending : OperationQueueUndo;
  j_unflushed : OperationQueueUndo;
  j_missing : gmap string bool;
  j_scheduled : gmap string bool;
  j_rel_sources : gset string;
  j_rel_pending : gset string
}.

(** [Inner], the fields the modelled operations read or write.  [record_overlay]
and [record_overlay_node_keys] are the two maps of [overlay]; [max_pending_ops]
is the one of [limits]; [ticks] counts the readings of the wall clock. *)
Record Inner := mkInner {
  clock : HybridClock;
  nodes : gmap string NodeState;
  overlay : Overlay;
  pending_ops : CompactedOperations;
  unflushed_ops : CompactedOperations;
  missing_nodes : gset string;
  relationship_index : RelationshipIndex;
  scheduled_node_fetches : gset string;
  scope_policies : gmap string ScopePolicy;
  max_pending_ops : nat;
  transaction_journal : option TransactionJournal;
  ticks : nat
}.

Definition set_clock (x : HybridClock) (i : Inner) : Inner :=
  mkInner x (nodes i) (overlay i) (pending_ops i) (unflushed_ops i) (missing_nodes i)
    (relationship_index i) (scheduled_node_fetches i) (scope_policies i) (max_pending_ops i)
    (transaction_journal i) (ticks i).
Definition set_nodes (x : gmap string NodeState) (i : Inner) : Inner :=
  mkInner (clock i) x (overlay i) (pending_ops i) (unflushed_ops i) (missing_nodes i)
    (relationship_index i) (scheduled_node_fetches i) (scope_policies i) (max_pending_ops i)
    (transaction_journal i) (ticks i).
Definition set_overlay (x : Overlay) (i : Inner) : Inner :=
  mkInner (clock i) (nodes i) x (pending_ops i) (unflushed_ops i) (missing_nodes i)
    (relationship_index i) (scheduled_node_fetches i) (scope_policies i) (max_pending_ops i)
    (transaction_journal i) (ticks i).
Definition set_pending_ops (x : CompactedOperations) (i : Inner) : Inner :=
  mkInner (clock i) (nodes i) (overlay i) x (unflushed_ops i) (missing_nodes i)
    (relationship_index i) (scheduled_node_fetches i) (scope_policies i) (max_pending_ops i)
    (transaction_journal i) (ticks i).
Definition set_unflushed_ops (x : CompactedOperations) (i : Inner) : Inner :=
  mkInner (clock i) (nodes i) (overlay i) (pending_ops i) x (missing_nodes i)
    (relationship_index i) (scheduled_node_fetches i) (scope_policies i) (max_pending_ops i)
    (transaction_journal i) (ticks i).
Definition set_missing_nodes (x : gset string) (i : Inner) : Inner :=
  mkInner (clock i) (nodes i) (overlay i) (pending_ops i) (unflushed_ops i) x
    (relationship_index i) (scheduled_node_fetches i) (scope_policies i) (max_pending_ops i)
    (transaction_journal i) (ticks i).
Definition set_relationship_index (x : RelationshipIndex) (i : Inner) : Inner :=
  mkInner (clock i) (nodes i) (overlay i) (pending_ops i) (unflushed_ops i) (missing_nodes
    i) x (scheduled_node_fetches i) (scope_policies i) (max_pending_ops i)
    (transaction_journal i) (ticks i).
Definition set_scheduled_node_fetches (x : gset string) (i : Inner) : Inner :=
  mkInner (clock i) (nodes i) (overlay i) (pending_ops i) (unflushed_ops i) (missing_nodes
    i) (relationship_index i) x (scope_policies i) (max_pending_ops i) (transaction_journal
    i) (ticks i).
Definition set_scope_policies (x : gmap string ScopePolicy) (i : Inner) : Inner :=
  mkInner (clock i) (nodes i) (overlay i) (pending_ops i) (unflushed_ops i) (missing_nodes
    i) (relationship_index i) (scheduled_node_fetches i) x (max_pending_ops i)
    (transaction_journal i) (ticks i).
Definition set_max_pending_ops (x : nat) (i : Inner) : Inner :=
  mkInner (clock i) (nodes i) (overlay i) (pending_ops i) (unflushed_ops i) (missing_nodes
    i) (relationship_index i) (scheduled_node_fetches i) (scope_policies i) x
    (transaction_journal i) (ticks i).
Definition set_transaction_journal (x : option TransactionJournal) (i : Inner) : Inner :=
  mkInner (clock i) (nodes i) (overlay i) (pending_ops i) (unflushed_ops i) (missing_nodes
    i) (relationship_index i) (scheduled_node_fetches i) (scope_policies i) (max_pending_ops
    i) x (ticks i).
Definition set_ticks (x : nat) (i : Inner) : Inner :=
  mkInner (clock i) (nodes i) (overlay i) (pending_ops i) (unflushed_ops i) (missing_nodes
    i) (relationship_index i) (scheduled_node_fetches i) (scope_policies i) (max_pending_ops
    i) (transaction_journal i) x.

(** What a storage engine is asked ([IncrementalStore]); [stored_ids] are the
nodes it holds. *)
Record StorageEngine := mkEngine {
  get_node : NodeId → result (option NodeState);
  scan_record_entries : record_source;
  stored_ids : gset string
}.

(** What lies outside the repository or the lock: the wall clock (its [n]-th
reading), the hash of record keys, the storage engine, which does not change
while an operation runs, how a stored scalar is shown ([materialize_scalar]: the
value itself, or the verified payload with the [crypto] feature), and the
printing of a value in an error message. *)
Class Env := {
  now_millis : nat → Z;
  blake3_hex : string → string;
  storage_engine : option StorageEngine;
  materialize_scalar : string → json → json;
  json_display : json → string
}.

(** What the model relies on of a storage engine: a node is stored under its id,
and the ids it answers for are finitely many. *)
Class EnvLaws `{Env} := {
  stored_under_id : ∀ e n st, storage_engine = Some e → get_node e n = Ok (Some st) → id st = n;
  stored_listed : ∀ e n st, storage_engine = Some e → get_node e n = Ok (Some st) → n ∈ stored_ids e
}.

(** * State and errors *)

Definition M (A : Type) : Type := Inner → Inner * result A.

#[global] Instance M_ret : MRet M := λ A a i, (i, Ok a).
#[global] Instance M_bind : MBind M := λ A B f m i,
  match m i with
  | (i', Ok a) => f a i'
  | (i', Err e) => (i', Err e)
  end.

Definition throw {A} (e : PrimadbError) : M A := λ i, (i, Err e).
Definition lift {A} (r : result A) : M A := λ i, (i, r).
Definition modify (f : Inner → Inner) : M unit := λ i, (f i, Ok tt).
Definition embed {A} (f : Inner → Inner * A) : M A := λ i, let r := f i in (r.1, Ok r.2).
Definition gets {A} (f : Inner → A) : M A := λ i, (i, Ok (f i)).

Inductive OperationOrigin := Local | Remote.
Inductive OperationQueue := Pending | Unflushed.

#[global] Instance OperationOrigin_eq_dec : EqDecision OperationOrigin.
Proof. solve_decision. Defined.

(** * Journaling *)

Definition journal_node (node : NodeId) (i : Inner) : Inner :=
  match transaction_journal i with
  | None => i
  | Some j =>
      if decide (is_Some (j_nodes j !! node)) then i
      else set_transaction_journal (Some (mkJournal (j_clock j)
             (<[node := nodes i !! node]> (j_nodes j)) (j_overlay j) (j_pending j) (j_unflushed j)
             (j_missing j) (j_scheduled j) (j_rel_sources j) (j_rel_pending j))) i
  end.

Definition journal_missing_node (node : NodeId) (i : Inner) : Inner :=
  match transaction_journal i with
  | None => i
  | Some j =>
      if decide (is_Some (j_missing j !! node)) then i
      else set_transaction_journal (Some (mkJournal (j_clock j) (j_nodes j) (j_overlay j)
             (j_pending j) (j_unflushed j)
             (<[node := bool_decide (node ∈ missing_nodes i)]> (j_missing j))
             (j_scheduled j) (j_rel_sources j) (j_rel_pending j))) i
  end.

Definition journal_scheduled_node_fetch (node : NodeId) (i : Inner) : Inner :=
  match transaction_journal i with
  | None => i
  | Some j =>
      if decide (is_Some (j_scheduled j !! node)) then i
      else set_transaction_journal (Some (mkJournal (j_clock j) (j_nodes j) (j_overlay j)
             (j_pending j) (j_unflushed j) (j_missing j)
             (<[node := bool_decide (node ∈ scheduled_node_fetches i)]> (j_scheduled j))
             (j_rel_sources j) (j_rel_pending j))) i
  end.

Definition journal_operation_queue (queue : OperationQueue) (op : Operation) (i : Inner) : Inner :=
  match transaction_journal i with
  | None => i
  | Some j =>
      match queue with
      | Pending =>
          set_transaction_journal (Some (mkJournal (j_clock j) (j_nodes j) (j_overlay j)
            (undo_record (pending_ops i) (j_pending j) op) (j_unflushed j) (j_missing j)
            (j_scheduled j) (j_rel_sources j) (j_rel_pending j))) i
      | Unflushed =>
          set_transaction_journal (Some (mkJournal (j_clock j) (j_nodes j) (j_overlay j)
            (j_pending j) (undo_record (unflushed_ops i) (j_unflushed j) op) (j_missing j)
            (j_scheduled j) (j_rel_sources j) (j_rel_pending j))) i
      end
  end.

(** * The relationship index *)

Definition reindex_node_relationships (node : NodeId) (i : Inner) : Inner :=
  let i := journal_node node i in
  set_relationship_index (reindex (nodes i) (relationship_index i) node) i.

Definition request_reindex_node_relationships (node : NodeId) (i : Inner) : Inner :=
  match transaction_journal i with
  | None => reindex_node_relationships node i
  | Some j =>
      set_transaction_journal (Some (mkJournal (j_clock j) (j_nodes j) (j_overlay j)
        (j_pending j) (j_unflushed j) (j_missing j) (j_scheduled j)
        ({[node]} ∪ j_rel_sources j) ({[node]} ∪ j_rel_pending j))) i
  end.

Definition flush_pending_relationship_index (i : Inner) : Inner :=
  match transaction_journal i with
  | None => i
  | Some j =>
      let i := set_transaction_journal (Some (mkJournal (j_clock j) (j_nodes j) (j_overlay j)
                 (j_pending j) (j_unflushed j) (j_missing j) (j_scheduled j)
                 (j_rel_sources j) ∅)) i in
      foldl (λ i node, reindex_node_relationships node i) i (btree_elems (j_rel_pending j))
  end.

(** * Applying an operation *)

(** [Inner::apply_operation_internal]: the queue limit for local operations, the
scope rule for remote ones, the clock, the graph, and on acceptance the overlay,
the index and the two queues. *)
Definition apply_operation_internal (op : Operation) (origin : OperationOrigin) (i : Inner)
    : Inner * bool :=
  if bool_decide (origin = Local) && (max_pending_ops i <=? queue_len (pending_ops i)) then (i, false)
  else if bool_decide (origin = Remote) && negb (remote_operation_allowed (scope_policies i) op)
  then (i, false)
  else
    let i := set_clock (observe (op_revision op) (clock i)) i in
    let source := operation_source_node op in
    let i := journal_node source i in
    let r := apply_action op (nodes i) in
    let i := set_nodes r.1 i in
    if r.2 then
      let i := set_overlay (refresh_record_overlay (nodes i) (overlay i) source) i in
      let i := request_reindex_node_relationships source i in
      let i := journal_operation_queue Unflushed op i in
      let i := set_unflushed_ops (push (unflushed_ops i) op) i in
      if bool_decide (origin = Local) then
        let i := journal_operation_queue Pending op i in
        let i := set_pending_ops (push (pending_ops i) op) i in
        (i, true)
      else (i, true)
    else (i, false).

Section env.
Context `{Codec, Env}.

(** The operation a local write issues: a fresh revision, then a fresh id. *)
Definition local_operation (namespace : string) (a : OperationAction) (i : Inner) : Operation * Inner :=
  let '(rev, c) := next_revision (now_millis (ticks i)) (clock i) in
  let '(op_id, c) := next_op_id namespace c in
  (mkOp op_id (actor c) rev a, set_clock c (set_ticks (S (ticks i)) i)).

Definition write_local (namespace : string) (a : OperationAction) (i : Inner) : Inner :=
  let '(op, i) := local_operation namespace a i in
  (apply_operation_internal op Local i).1.

Definition delete_field (node field : string) : Inner → Inner :=
  write_local "delete" (DeleteField node field).

Definition set_field (node field : string) (v : OperationValue) : Inner → Inner :=
  write_local "set" (SetField node field v).

Definition add_set_member (node field member : string) : Inner → Inner :=
  write_local "set-add" (AddSetMember node field member).

Definition remove_member_from_set (node field member : string) : Inner → Inner :=
  write_local "set-remove" (RemoveSetMember node field member).

(** * Nodes and paths *)

Definition maybe_load_node (node : NodeId) : M bool := λ i,
  let resident :=
    match nodes i !! node with
    | Some existing =>
        negb (node_state_is_empty existing)
        || match storage_engine with None => true | Some _ => false end
    | None => false
    end in
  if resident then (i, Ok true)
  else if bool_decide (node ∈ missing_nodes i) then (i, Ok false)
  else
    match storage_engine with
    | None => (i, Ok false)
    | Some engine =>
        match get_node engine node with
        | Err e => (i, Err e)
        | Ok (Some state) =>
            let i := journal_node node i in
            let i := set_nodes (merge_node_state (nodes i) state) i in
            let i := journal_missing_node node i in
            let i := set_missing_nodes (missing_nodes i ∖ {[node]}) i in
            (request_reindex_node_relationships node i, Ok true)
        | Ok None =>
            if decide (is_Some (nodes i !! node)) then (i, Ok true)
            else
              let i := journal_missing_node node i in
              (set_missing_nodes ({[node]} ∪ missing_nodes i) i, Ok false)
        end
    end.

Definition ensure_node (node : NodeId) (i : Inner) : Inner :=
  let i := journal_node node i in
  let i := journal_missing_node node i in
  let i := set_missing_nodes (missing_nodes i ∖ {[node]}) i in
  set_nodes (<[node := node_entry node (nodes i)]> (nodes i)) i.

Inductive Cursor :=
  | CNode (node : NodeId)
  | CField (node : NodeId) (field : string).

Definition field_of (i : Inner) (node field : string) : option FieldValue :=
  match nodes i !! node with
  | Some state => value <$> fields state !! field
  | None => None
  end.

(** The loop of [ensure_field_cursor] over the segments before the last. *)
Fixpoint ensure_path (current : NodeId) (segs : list string) : M NodeId :=
  match segs with
  | [] => mret current
  | segment :: rest =>
      _ ← maybe_load_node current;
      fv ← gets (λ i, field_of i current segment);
      next ← match fv with
             | Some (FLink target) => mret target
             | Some (FScalar _) | Some (FBytes _) | Some (FBlob _) =>
                 throw (TraversalIntoScalar current segment)
             | Some (FSet _) => throw (TraversalIntoSet current segment)
             | None =>
                 let child := derived_child_id current segment in
                 _ ← modify (set_field current segment (OLink child));
                 mret child
             end;
      _ ← modify (ensure_node next);
      ensure_path next rest
  end.

Definition ensure_field_cursor (a : NodeId) (segs : list string) : M Cursor :=
  match segs with
  | [] => mret (CNode a)
  | _ =>
      loaded ← maybe_load_node a;
      _ ← (if loaded : bool then mret tt else modify (ensure_node a));
      node ← ensure_path a (removelast segs);
      mret (CField node (default "" (last segs)))
  end.

(** The loop of [resolve_cursor]. *)
Fixpoint resolve_path (current : NodeId) (segs : list string) : M (option NodeId) :=
  match segs with
  | [] => mret (Some current)
  | segment :: rest =>
      loaded ← maybe_load_node current;
      if negb loaded then mret None
      else
        fv ← gets (λ i, field_of i current segment);
        match fv with
        | None => mret None
        | Some (FLink target) => resolve_path target rest
        | Some (FScalar _) | Some (FBytes _) | Some (FBlob _) =>
            throw (TraversalIntoScalar current segment)
        | Some (FSet _) => throw (TraversalIntoSet current segment)
        end
  end.

Definition resolve_cursor (a : NodeId) (segs : list string) : M (option Cursor) :=
  match segs with
  | [] => loaded ← maybe_load_node a; mret (if loaded : bool then Some (CNode a) else None)
  | _ =>
      loaded ← maybe_load_node a;
      if negb loaded then mret None
      else
        target ← resolve_path a (removelast segs);
        match target with
        | None => mret None
        | Some current =>
            loaded ← maybe_load_node current;
            mret (if loaded : bool then Some (CField current (default "" (last segs))) else None)
        end
  end.

(** * Writing *)

(** [self.clock.next_node_id(hint)]. *)
Definition fresh_node_id (hint : string) : M NodeId := λ i,
  let '(n, c) := next_node_id hint (clock i) in (set_clock c i, Ok n).

Definition existing_link (i : Inner) (node field : string) : option NodeId :=
  match field_of i node field with Some (FLink target) => Some target | _ => None end.

Definition field_path (path field : string) : string :=
  if decide (path = "") then field else path +:+ "." +:+ field.

(** [Inner::write_value_to_field], recursive in the value written.  The inner
loops are those of [write_object_to_node] (over the fields of an object) and of
the [Set] case (over its members); [write_value_eq] states the equation in the
source's shape. *)
Fixpoint write_value_to_field (v : json) (node field path : string) {struct v} : M unit :=
  let write_fields :=
    (fix write_fields (object : list (string * json)) (node path : string) : M unit :=
       match object with
       | [] => mret tt
       | (f, x) :: rest =>
           _ ← write_value_to_field x node f (field_path path f);
           write_fields rest node path
       end) in
  let write_members :=
    (fix write_members (items : list json) (index : nat) (ids : list NodeId) : M (list NodeId) :=
       match items with
       | [] => mret ids
       | JObject object :: rest =>
           match parse_link_marker object with
           | Some target => write_members rest (S index) (ids ++ [target])
           | None =>
               member_id ← fresh_node_id (field +:+ "-member");
               _ ← modify (ensure_node member_id);
               _ ← modify (ensure_node member_id);
               _ ← write_fields object member_id (path +:+ ".$set[" +:+ pretty index +:+ "]");
               write_members rest (S index) (ids ++ [member_id])
           end
       | _ :: rest => write_members rest (S index) ids
       end) in
  match parse_input v path with
  | Err e => throw e
  | Ok (PScalar s) => modify (set_field node field (OScalar s))
  | Ok (PBytes b) => modify (set_field node field (OBytes b))
  | Ok (PBlob r) => modify (set_field node field (OBlob r))
  | Ok (PLink target) => modify (set_field node field (OLink target))
  | Ok (PObject _) =>
      match v with
      | JObject object =>
          link ← gets (λ i, existing_link i node field);
          let child := default (derived_child_id node field) link in
          _ ← modify (ensure_node child);
          _ ← modify (set_field node field (OLink child));
          _ ← modify (ensure_node child);
          write_fields object child path
      | _ => mret tt
      end
  | Ok (PSet _) =>
      match v with
      | JObject [(_, JArray items)] =>
          ids ← write_members items 0 [];
          modify (set_field node field (OSet ids))
      | _ => mret tt
      end
  end.

(** The loop of [write_object_to_node]. *)
Fixpoint write_fields (object : list (string * json)) (node path : string) : M unit :=
  match object with
  | [] => mret tt
  | (f, x) :: rest =>
      _ ← write_value_to_field x node f (field_path path f);
      write_fields rest node path
  end.

(** [Inner::write_object_to_node]. *)
Definition write_object_to_node (node : NodeId) (object : list (string * json)) (path : string)
    : M unit :=
  _ ← modify (ensure_node node);
  write_fields object node path.

(** The member loop of [write_value_to_field] on parsed members. *)
Fixpoint write_members (field path : string) (ms : list SetMemberInput) (index : nat)
    (ids : list NodeId) : M (list NodeId) :=
  match ms with
  | [] => mret ids
  | MLink target :: rest => write_members field path rest (S index) (ids ++ [target])
  | MObject object :: rest =>
      member_id ← fresh_node_id (field +:+ "-member");
      _ ← modify (ensure_node member_id);
      _ ← write_object_to_node member_id object (path +:+ ".$set[" +:+ pretty index +:+ "]");
      write_members field path rest (S index) (ids ++ [member_id])
  end.

(** The case analysis of the source's [write_value_to_field], with its calls. *)
Definition write_parsed (node field path : string) (parsed : ParsedInput) : M unit :=
  match parsed with
  | PScalar s => modify (set_field node field (OScalar s))
  | PBytes b => modify (set_field node field (OBytes b))
  | PBlob r => modify (set_field node field (OBlob r))
  | PLink target => modify (set_field node field (OLink target))
  | PObject object =>
      link ← gets (λ i, existing_link i node field);
      let child := default (derived_child_id node field) link in
      _ ← modify (ensure_node child);
      _ ← modify (set_field node field (OLink child));
      write_object_to_node child object path
  | PSet members =>
      ids ← write_members field path members 0 [];
      modify (set_field node field (OSet ids))
  end.

Lemma bind_cong {A B} (m m' : M A) (f g : A → M B) i :
  m i = m' i → (∀ a i, f a i = g a i) → (m ≫= f) i = (m' ≫= g) i.
Proof. intros Hm Hfg. unfold mbind, M_bind. rewrite Hm. destruct (m' i) as [i' []]; [apply Hfg|done]. Qed.

Lemma bind_assoc {A B D} (m : M A) (f : A → M B) (g : B → M D) i :
  ((m ≫= f) ≫= g) i = (m ≫= λ a, f a ≫= g) i.
Proof. unfold mbind, M_bind. by destruct (m i) as [i' []]. Qed.

(** [write_value_to_field] is [parse_input] followed by that case analysis. *)
Lemma write_value_eq v node field path i :
  write_value_to_field v node field path i =
  (lift (parse_input v path) ≫= write_parsed node field path) i.
Proof.
  pose proof (parse_input_container v path) as Hcases.
  unfold lift. unfold mbind at 1, M_bind at 1.
  destruct (parse_input v path) as [[s|b|r|t|ms|o]|e] eqn:Hp.
  1-4, 7: destruct v; cbn [write_value_to_field]; rewrite Hp; done.
  - destruct Hcases as [items ->]. cbn [write_value_to_field]. rewrite Hp. cbn [write_parsed].
    assert (parse_members items path = Ok ms) as Hms.
    { simpl in Hp. by destruct (parse_members items path); simplify_eq. }
    clear Hp. apply bind_cong; [|done].
    match goal with |- ?loop _ 0 _ _ = _ =>
      enough (∀ n l k, loop items n l k = write_members field path ms n l k) as Hgen by apply Hgen end.
    clear i. revert ms Hms.
    induction items as [|x items IH]; intros ms Hms index ids k; [by injection Hms as <-|].
    simpl in Hms. destruct x as [| | | | |object]; try done.
    destruct (parse_members items path) as [ms'|]; [|done]. injection Hms as <-.
    destruct (parse_link_marker object) as [t|]; [exact (IH ms' eq_refl (S index) (ids ++ [t]) k)|].
    cbn [write_members]. apply bind_cong; [done|]. intros a k1. apply bind_cong; [done|]. intros [] k2.
    unfold write_object_to_node. rewrite bind_assoc. apply bind_cong; [done|]. intros [] k3.
    apply bind_cong; [done|]. intros [] k4. exact (IH ms' eq_refl (S index) (ids ++ [a]) k4).
  - simpl in Hcases. subst v. cbn [write_value_to_field]. rewrite Hp. done.
Qed.

Definition add_member_to_set (node field : string) (parsed : ParsedInput) (path : string)
    : M string :=
  member_id ←
    match parsed with
    | PLink target => mret target
    | PObject object =>
        member_id ← fresh_node_id (field +:+ "-member");
        _ ← modify (ensure_node member_id);
        _ ← write_object_to_node member_id object path;
        mret member_id
    | PScalar _ | PBytes _ | PBlob _ | PSet _ => throw (InvalidSetMember path)
    end;
  _ ← modify (add_set_member node field member_id);
  mret member_id.

(** * The write operations *)

Definition check_write_allowed (a : string) (segs : list string) : M unit := λ i,
  (i, ensure_canonical_write_allowed (scope_policies i) (actor (clock i)) a segs).

Definition put_json_inner (a : string) (segs : list string) (v : json) : M unit :=
  _ ← check_write_allowed a segs;
  match segs with
  | [] =>
      parsed ← lift (parse_input v (display_path a segs));
      match parsed with
      | PObject object => write_object_to_node a object (display_path a segs)
      | _ => throw (ExpectedObject (display_path a segs))
      end
  | _ =>
      c ← ensure_field_cursor a segs;
      match c with
      | CField node field => write_value_to_field v node field (display_path a segs)
      | CNode _ => throw (ExpectedFieldPath (display_path a segs))
      end
  end.

Definition field_cursor (a : string) (segs : list string) : M (string * string) :=
  match segs with
  | [] => throw (ExpectedFieldPath (display_path a segs))
  | _ =>
      _ ← check_write_allowed a segs;
      c ← ensure_field_cursor a segs;
      match c with
      | CField node field => mret (node, field)
      | CNode _ => throw (ExpectedFieldPath (display_path a segs))
      end
  end.

Definition unset_inner (a : string) (segs : list string) : M unit :=
  nf ← field_cursor a segs;
  modify (delete_field nf.1 nf.2).

Definition set_json_inner (a : string) (segs : list string) (v : json) : M string :=
  nf ← field_cursor a segs;
  parsed ← lift (parse_input v (display_path a segs));
  add_member_to_set nf.1 nf.2 parsed (display_path a segs).

Definition remove_json_inner (a : string) (segs : list string) (v : json) : M string :=
  nf ← field_cursor a segs;
  member_id ← lift (parse_member_reference v (display_path a segs));
  _ ← modify (remove_member_from_set nf.1 nf.2 member_id);
  mret member_id.

(** * Records *)

Definition put_record_inner (key : string) (v : RecordValue) : M unit :=
  let node := record_node_id blake3_hex key in
  _ ← modify (set_field node "key" (OScalar (JString key)));
  modify (set_field node "value"
    (match v with RJson v => OScalar v | RBytes b => OBytes b | RBlob r => OBlob r end)).

Definition delete_record_inner (key : string) : M unit :=
  let node := record_node_id blake3_hex key in
  _ ← modify (set_field node "key" (OScalar (JString key)));
  modify (delete_field node "value").

Definition record_entry_from_inner (key : string) : M (option RecordEntry) :=
  let node_id := record_node_id blake3_hex key in
  _ ← maybe_load_node node_id;
  gets (λ i,
    match nodes i !! node_id ≫= record_entry_from_node_state with
    | Some entry => if decide (entry_key entry = key) then Some entry else None
    | None => None
    end).

Inductive RecordPrecondition :=
  | RExists (key : string)
  | RAbsent (key : string)
  | RValue (key : string) (v : RecordValue).

Definition assert_record_precondition (p : RecordPrecondition) : M unit :=
  match p with
  | RExists key =>
      e ← record_entry_from_inner key;
      match e with
      | Some _ => mret tt
      | None => throw (TransactionConflict ("record `" +:+ key +:+ "` must exist"))
      end
  | RAbsent key =>
      e ← record_entry_from_inner key;
      match e with
      | None => mret tt
      | Some _ => throw (TransactionConflict ("record `" +:+ key +:+ "` must be absent"))
      end
  | RValue key v =>
      e ← record_entry_from_inner key;
      match e with
      | Some entry =>
          if record_value_eqb (entry_value entry) v then mret tt
          else throw (TransactionConflict ("record `" +:+ key +:+ "` did not match the expected value"))
      | None => throw (TransactionConflict ("record `" +:+ key +:+ "` did not match the expected value"))
      end
  end.
End env.
