(* ===== verification/Read.v ===== *)
(** Reading the graph ([materialize_node] and its callers in [src/src/db.rs]):
the JSON view of a node, existence and revision of a path. *)
From stdpp Require Import base gmap sets list strings sorting.
From Stdlib Require Import ZArith Lia.
From S2P Require Import Prelude Clock Value Crdt Merge OpQueue RelIndex Paths Records Input Inner.

Section read.
Context `{Codec, Env}.

Definition ref_value (node : NodeId) : json := JObject [("$ref", JString node)].

(** A loop that threads the state and stops with [None] when fuel runs out. *)
Fixpoint thread {A B} (f : A → Inner → Inner * option B) (l : list A) (i : Inner)
    : Inner * option (list B) :=
  match l with
  | [] => (i, Some [])
  | a :: rest =>
      match f a i with
      | (i, None) => (i, None)
      | (i, Some b) =>
          match thread f rest i with
          | (i, None) => (i, None)
          | (i, Some bs) => (i, Some (b :: bs))
          end
      end
  end.

(** [Inner::materialize_node] and [materialize_field]; [fuel] bounds the depth.
The [visited] set of the source holds the nodes on the path from the root. *)
Fixpoint materialize_node (fuel : nat) (node : NodeId) (visited : gset string) (i : Inner)
    : Inner * option json :=
  match fuel with
  | O => (i, None)
  | S fuel =>
      if decide (node ∈ visited) then (i, Some (ref_value node))
      else
        let i := (maybe_load_node node i).1 in
        match nodes i !! node with
        | None => (i, Some (ref_value node))
        | Some state =>
            let materialize_field (p : string * FieldState) (i : Inner)
                : Inner * option (string * json) :=
              match value p.2 with
              | FScalar v => (i, Some (p.1, materialize_scalar (node +:+ "/" +:+ p.1) v))
              | FBytes b => (i, Some (p.1, bytes_marker_value b))
              | FBlob r => (i, Some (p.1, blob_marker_value r))
              | FLink target =>
                  let r := materialize_node fuel target ({[node]} ∪ visited) i in
                  (r.1, (p.1,.) <$> r.2)
              | FSet set =>
                  let r := thread (λ m, materialize_node fuel m ({[node]} ∪ visited))
                             (btree_keys (members set)) i in
                  (r.1, (λ l, (p.1, JObject [("$set", JArray l)])) <$> r.2)
              end in
            match thread materialize_field (btree_list (fields state)) i with
            | (i, None) => (i, None)
            | (i, Some kvs) =>
                (i, Some (JObject (foldl (λ o kv, obj_insert kv.1 kv.2 o)
                                     [("$id", JString (id state))] kvs)))
            end
        end
  end.

(** [materialize_field] at the top of a path. *)
Definition materialize_field (fuel : nat) (node field : string) (fv : FieldValue) (i : Inner)
    : Inner * option json :=
  match fv with
  | FScalar v => (i, Some (materialize_scalar (node +:+ "/" +:+ field) v))
  | FBytes b => (i, Some (bytes_marker_value b))
  | FBlob r => (i, Some (blob_marker_value r))
  | FLink target => materialize_node fuel target ∅ i
  | FSet set =>
      let r := thread (λ m, materialize_node fuel m ∅) (btree_keys (members set)) i in
      (r.1, (λ l, JObject [("$set", JArray l)]) <$> r.2)
  end.

(** Enough fuel: one more than the nodes there are, in memory and in storage. *)
Definition read_fuel (i : Inner) : nat :=
  S (size (dom (nodes i) ∪ match storage_engine with Some e => stored_ids e | None => ∅ end)).

Definition materialize_inner (a : string) (segs : list string) : M (option json) :=
  c ← resolve_cursor a segs;
  match c with
  | Some (CNode node) => embed (λ i, materialize_node (read_fuel i) node ∅ i)
  | Some (CField node field) => embed (λ i,
      match field_of i node field with
      | Some fv => materialize_field (read_fuel i) node field fv i
      | None => (i, None)
      end)
  | None => mret None
  end.

Definition path_exists_inner (a : string) (segs : list string) : M bool :=
  c ← resolve_cursor a segs;
  match c with
  | Some (CNode node) => gets (λ i, bool_decide (is_Some (nodes i !! node)))
  | Some (CField node field) => gets (λ i, bool_decide (is_Some (field_of i node field)))
  | None => mret false
  end.

Definition node_revision_marker (state : NodeState) : option VersionMarker :=
  let marker := foldl (λ m p, max_marker m (Some (version p.2))) None (btree_list (fields state)) in
  foldl (λ m p, max_marker m (Some p.2)) marker (btree_list (tombstones state)).

Definition revision_at_inner (a : string) (segs : list string) : M (option VersionMarker) :=
  c ← resolve_cursor a segs;
  match c with
  | Some (CNode node) => gets (λ i, nodes i !! node ≫= node_revision_marker)
  | Some (CField node field) => gets (λ i,
      match nodes i !! node with
      | None => None
      | Some state =>
          match version <$> fields state !! field with
          | Some v => Some v
          | None => tombstones state !! field
          end
      end)
  | None => mret None
  end.

(** * Reading ends *)

(** The nodes a read can come across. *)
Definition universe (i : Inner) : gset string :=
  dom (nodes i) ∪ match storage_engine with Some e => stored_ids e | None => ∅ end.

(** [f] yields a value and comes across no new node, from every state over [U]. *)
Definition yields {B} (U : gset string) (f : Inner → Inner * option B) : Prop :=
  ∀ i, universe i = U → universe (f i).1 = U ∧ is_Some (f i).2.

Lemma thread_yields {A B} U (f : A → Inner → Inner * option B) l :
  (∀ a, a ∈ l → yields U (f a)) → yields U (thread f l).
Proof.
  induction l as [|a l IH]; intros Hf i Hi; [done|]. cbn [thread].
  destruct (Hf a (list_elem_of_here _ _) i Hi) as [H1 [b H2]].
  destruct (f a i) as [i1 ob]. simpl in *. subst ob.
  destruct (IH (λ a' Ha', Hf a' (list_elem_of_further _ _ _ Ha')) i1 H1) as [H3 [bs H4]].
  destruct (thread f l i1) as [i2 obs]. simpl in *. subst obs. simpl. eauto.
Qed.

Lemma journal_node_nodes n i : nodes (journal_node n i) = nodes i.
Proof. unfold journal_node. destruct (transaction_journal i); [case_decide|]; done. Qed.

Lemma request_reindex_nodes n i : nodes (request_reindex_node_relationships n i) = nodes i.
Proof.
  unfold request_reindex_node_relationships, reindex_node_relationships.
  destruct (transaction_journal i); [done|apply journal_node_nodes].
Qed.

Lemma journal_missing_nodes n i : nodes (journal_missing_node n i) = nodes i.
Proof. unfold journal_missing_node. destruct (transaction_journal i); [case_decide|]; done. Qed.

Context `{Laws : !EnvLaws}.

Lemma maybe_load_universe n i : universe (maybe_load_node n i).1 = universe i.
Proof.
  unfold maybe_load_node. cbv zeta. destruct (match nodes i !! n with Some _ => _ | None => _ end); [done|].
  case_bool_decide; [done|]. destruct storage_engine as [e|] eqn:He; [|done].
  destruct (get_node e n) as [[st|]|] eqn:Hg; [|case_decide; [done|]|done];
    unfold universe; cbn [fst]; rewrite ?request_reindex_nodes; cbn [nodes set_missing_nodes];
    rewrite journal_missing_nodes; cbn [nodes set_nodes]; rewrite ?journal_node_nodes; [|done].
  rewrite He. pose proof (stored_listed e n st He Hg) as Hl.
  pose proof (stored_under_id e n st He Hg) as Hid.
  unfold merge_node_state. rewrite dom_insert_L, Hid. set_solver.
Qed.

Lemma size_visit (U visited : gset string) n :
  n ∈ U → n ∉ visited → size (U ∖ ({[n]} ∪ visited)) < size (U ∖ visited).
Proof. intros Hn Hv. apply subset_size. set_solver. Qed.

Lemma materialize_yields fuel n visited U :
  size (U ∖ visited) < fuel → yields U (materialize_node fuel n visited).
Proof.
  revert n visited. induction fuel as [|fuel IH]; intros n visited Hs i Hi; [lia|].
  cbn [materialize_node]. case_decide as Hv; [by eauto|]. cbv zeta.
  pose proof (maybe_load_universe n i) as H1. set (i1 := (maybe_load_node n i).1) in *. rewrite Hi in H1.
  destruct (nodes i1 !! n) as [state|] eqn:Hn; [|by eauto].
  assert (size (U ∖ ({[n]} ∪ visited)) < fuel) as Hs'.
  { assert (n ∈ U) by (rewrite <- H1; unfold universe; apply elem_of_dom_2 in Hn; set_solver).
    pose proof (size_visit U visited n). naive_solver lia. }
  pose proof (λ m, IH m ({[n]} ∪ visited) Hs') as IH'.
  match goal with |- context [thread ?f ?l i1] => destruct (thread_yields U f l) with (i := i1) as [H2 [kvs H3]] end.
  - intros [k fs] _ i2 Hi2. cbn [fst snd]. destruct (value fs) as [| | |target|set]; try by eauto.
    + destruct (IH' target i2 Hi2) as [H3 [v H4]]. cbn [fst snd]. rewrite H4. eauto.
    + destruct (thread_yields U (λ m, materialize_node fuel m ({[n]} ∪ visited)) (btree_keys (members set))
        (λ m _, IH' m) i2 Hi2) as [H3 [v H4]]. cbn [fst snd]. rewrite H4. eauto.
  - done.
  - destruct (thread _ _ i1) as [i3 o]. simpl in *. subst o. simpl. eauto.
Qed.

(** More fuel gives the same read. *)
Definition same_read {B} (f g : Inner → Inner * option B) : Prop :=
  ∀ i, is_Some (f i).2 → g i = f i.

Lemma thread_same {A B} (f g : A → Inner → Inner * option B) l :
  (∀ a, same_read (f a) (g a)) → same_read (thread f l) (thread g l).
Proof.
  intros Hfg. induction l as [|a l IH]; intros i Hf; [done|]. cbn [thread] in *.
  pose proof (Hfg a i) as Ha. destruct (f a i) as [i1 [b|]]; [|by destruct Hf].
  rewrite Ha by done. pose proof (IH i1) as Hl.
  destruct (thread f l i1) as [i2 [bs|]]; [|by destruct Hf]. by rewrite Hl.
Qed.

Lemma materialize_more fuel fuel' n visited :
  fuel ≤ fuel' → same_read (materialize_node fuel n visited) (materialize_node fuel' n visited).
Proof.
  revert fuel' n visited. induction fuel as [|fuel IH]; intros fuel' n visited Hle i Hf; [by destruct Hf|].
  destruct fuel' as [|fuel']; [lia|]. assert (fuel ≤ fuel') as Hle' by lia.
  cbn [materialize_node] in *. case_decide; [done|]. cbv zeta in *.
  destruct (nodes (maybe_load_node n i).1 !! n) as [state|]; [|done].
  match goal with |- match thread ?g ?l ?i1 with _ => _ end = match thread ?f _ _ with _ => _ end =>
    assert (same_read (thread f l) (thread g l)) as Ht end.
  { apply thread_same. intros [k fs] i2. cbn [fst snd]. destruct (value fs) as [| | |target|set]; try done.
    - intros Hs. rewrite (IH fuel' target ({[n]} ∪ visited) Hle'); [done|].
      apply fmap_is_Some in Hs. exact Hs.
    - intros Hs. rewrite (thread_same _ _ (btree_keys (members set))
        (λ m, IH fuel' m ({[n]} ∪ visited) Hle')); [done|]. apply fmap_is_Some in Hs. exact Hs. }
  match goal with |- match thread ?g ?l ?i1 with _ => _ end = match thread ?f _ _ with _ => _ end =>
    destruct (thread f l i1) as [i3 [kvs|]] eqn:E; [|by destruct Hf]; rewrite (Ht i1); rewrite E; done end.
Qed.

Lemma materialize_enough i n : ∃ r, (∃ v, r.2 = Some v) ∧
  ∀ fuel, read_fuel i ≤ fuel → materialize_node fuel n ∅ i = r.
Proof.
  assert (size (universe i ∖ ∅) < read_fuel i) as Hs.
  { unfold read_fuel. fold (universe i). rewrite difference_empty_L. lia. }
  destruct (materialize_yields _ n ∅ (universe i) Hs i eq_refl) as [_ Hv].
  eexists. split; [exact Hv|]. intros fuel Hle. by apply materialize_more.
Qed.

Lemma materialize_field_enough i n f fv : ∃ r, (∃ v, r.2 = Some v) ∧
  ∀ fuel, read_fuel i ≤ fuel → materialize_field fuel n f fv i = r.
Proof.
  destruct fv as [v|b|r|target|set]; simpl; [eexists; (split; [|intros; reflexivity]); simpl; by eauto..|apply materialize_enough|].
  assert (size (universe i ∖ ∅) < read_fuel i) as Hs.
  { unfold read_fuel. fold (universe i). rewrite difference_empty_L. lia. }
  destruct (thread_yields (universe i) (λ m, materialize_node (read_fuel i) m ∅) (btree_keys (members set))
    (λ m _, materialize_yields _ m ∅ _ Hs) i eq_refl) as [_ Hv].
  exists (materialize_field (read_fuel i) n f (FSet set) i). split.
  - destruct Hv as [l Hl]. cbn [materialize_field snd]. cbn [snd] in Hl. setoid_rewrite Hl. simpl. eauto.
  - intros fuel Hle. cbn [materialize_field].
    rewrite (thread_same _ _ _ (λ m, materialize_more _ fuel m ∅ Hle)); [done|exact Hv].
Qed.

(** C25: reading ends, whatever cycles the links form.  A read fails only where
resolving the path fails, is empty only where the path leads nowhere, and
otherwise gives a value; the bound on its depth is immaterial, any larger one
gives the same value and the same state. *)
Theorem materialize_terminates a segs i :
  match resolve_cursor a segs i with
  | (i1, Err e) => materialize_inner a segs i = (i1, Err e)
  | (i1, Ok None) => materialize_inner a segs i = (i1, Ok None)
  | (i1, Ok (Some (CNode n))) => ∃ i' v, materialize_inner a segs i = (i', Ok (Some v)) ∧
      ∀ fuel, read_fuel i1 ≤ fuel → materialize_node fuel n ∅ i1 = (i', Some v)
  | (i1, Ok (Some (CField n f))) =>
      match field_of i1 n f with
      | None => materialize_inner a segs i = (i1, Ok None)
      | Some fv => ∃ i' v, materialize_inner a segs i = (i', Ok (Some v)) ∧
          ∀ fuel, read_fuel i1 ≤ fuel → materialize_field fuel n f fv i1 = (i', Some v)
      end
  end.
Proof.
  unfold materialize_inner, mbind, M_bind. destruct (resolve_cursor a segs i) as [i1 [[[n|n f]|]|e]]; try done.
  - destruct (materialize_enough i1 n) as [[i' o] [[v Ho] Hr]]. simpl in Ho. subst o.
    exists i', v. split; [|done]. unfold embed. by rewrite (Hr (read_fuel i1)).
  - destruct (field_of i1 n f) as [fv|] eqn:Hf; [|unfold embed; by rewrite Hf].
    destruct (materialize_field_enough i1 n f fv) as [[i' o] [[v Ho] Hr]]. simpl in Ho. subst o.
    exists i', v. split; [|done]. unfold embed. by rewrite Hf, (Hr (read_fuel i1)).
Qed.
End read.
