(* ===== verification/View.v ===== *)
(** Lazy loading is invisible.  A read loads nodes from storage into memory as it
comes across them; [view] is what a state shows of a node once it is loaded, and
every read is shown to be a function of the view, which no read changes. *)
From stdpp Require Import base gmap sets list strings sorting.
From Stdlib Require Import ZArith Lia.
From S2P Require Import Prelude Clock Value Crdt Merge OpQueue RelIndex Paths Records Input Inner Read.

Section view.
Context `{Cod : Codec, En : Env}.

(** What loading a node shows of it: its state, and the answer of the load. *)
Definition view (i : Inner) (n : NodeId) : option NodeState * result bool :=
  (nodes (maybe_load_node n i).1 !! n, (maybe_load_node n i).2).

(** [i] shows [v], over the nodes [U], and has those of [K] in memory as [v] shows
them. *)
Definition shows (U K : gset string) (v : NodeId → option NodeState * result bool) (i : Inner) : Prop :=
  universe i = U ∧ (∀ n, view i n = v n) ∧ ∀ n, n ∈ K → nodes i !! n = (v n).1.

(** The three things a load does. *)
Inductive load_effect (n : NodeId) (i : Inner) (r : Inner * result bool) : Prop :=
  | load_none : nodes r.1 = nodes i → missing_nodes r.1 = missing_nodes i → load_effect n i r
  | load_stored e st : storage_engine = Some e → get_node e n = Ok (Some st) →
      nodes r.1 = <[n := merge_into (node_entry n (nodes i)) st]> (nodes i) →
      missing_nodes r.1 = missing_nodes i ∖ {[n]} → r.2 = Ok true → load_effect n i r
  | load_missing : nodes i !! n = None → nodes r.1 = nodes i →
      missing_nodes r.1 = {[n]} ∪ missing_nodes i → r.2 = Ok false → load_effect n i r.

Lemma journal_node_missing n i : missing_nodes (journal_node n i) = missing_nodes i.
Proof. unfold journal_node. destruct (transaction_journal i); [case_decide|]; done. Qed.

Lemma journal_missing_missing n i : missing_nodes (journal_missing_node n i) = missing_nodes i.
Proof. unfold journal_missing_node. destruct (transaction_journal i); [case_decide|]; done. Qed.

Lemma request_reindex_missing n i : missing_nodes (request_reindex_node_relationships n i) = missing_nodes i.
Proof.
  unfold request_reindex_node_relationships, reindex_node_relationships.
  destruct (transaction_journal i); [done|apply journal_node_missing].
Qed.

Context `{Laws : !EnvLaws}.

Lemma maybe_load_effect n i : load_effect n i (maybe_load_node n i).
Proof.
  unfold maybe_load_node. cbv zeta.
  destruct (match nodes i !! n with Some _ => _ | None => _ end); [by apply load_none|].
  case_bool_decide; [by apply load_none|].
  destruct storage_engine as [e|] eqn:He; [|by apply load_none].
  destruct (get_node e n) as [[st|]|] eqn:Hg; [| |by apply load_none].
  - apply (load_stored _ _ _ e st He Hg); cbn [fst];
      rewrite ?request_reindex_nodes, ?request_reindex_missing; cbn [nodes missing_nodes set_missing_nodes];
      rewrite ?journal_missing_nodes, ?journal_missing_missing; cbn [nodes missing_nodes set_nodes];
      rewrite ?journal_node_nodes, ?journal_node_missing; [|done..].
    unfold merge_node_state. by rewrite (stored_under_id e n st He Hg).
  - case_decide as Hn; [by apply load_none|]. apply load_missing; cbn [fst nodes missing_nodes set_missing_nodes].
    + by apply eq_None_not_Some.
    + by rewrite journal_missing_nodes.
    + by rewrite journal_missing_missing.
    + done.
Qed.

(** A load is determined by the node, its mark as missing and the engine. *)
Lemma view_cases i n :
  view i n =
  match nodes i !! n with
  | Some st =>
      if negb (node_state_is_empty st) || match storage_engine with None => true | Some _ => false end
      then (Some st, Ok true)
      else if bool_decide (n ∈ missing_nodes i) then (Some st, Ok false)
      else match storage_engine with
           | None => (Some st, Ok false)
           | Some e => match get_node e n with
                       | Err err => (Some st, Err err)
                       | Ok (Some s) => (Some (merge_into st s), Ok true)
                       | Ok None => (Some st, Ok true)
                       end
           end
  | None =>
      if bool_decide (n ∈ missing_nodes i) then (None, Ok false)
      else match storage_engine with
           | None => (None, Ok false)
           | Some e => match get_node e n with
                       | Err err => (None, Err err)
                       | Ok (Some s) => (Some (merge_into (node_new n) s), Ok true)
                       | Ok None => (None, Ok false)
                       end
           end
  end.
Proof.
  unfold view, maybe_load_node. cbv zeta. destruct (nodes i !! n) as [st|] eqn:Hn.
  - destruct (negb (node_state_is_empty st) || _); [by cbn [fst snd]; rewrite Hn|]. case_bool_decide; [by cbn [fst snd]; rewrite Hn|].
    destruct storage_engine as [e|] eqn:He; [|by cbn [fst snd]; rewrite Hn].
    destruct (get_node e n) as [[s|]|] eqn:Hg; [|case_decide as Hd; [by cbn [fst snd]; rewrite Hn|by destruct Hd]|by cbn [fst snd]; rewrite Hn].
    cbn [fst snd]. rewrite request_reindex_nodes. cbn [nodes set_missing_nodes].
    rewrite journal_missing_nodes. cbn [nodes set_nodes]. rewrite journal_node_nodes.
    unfold merge_node_state, node_entry. by rewrite (stored_under_id e n s He Hg), lookup_insert_eq, Hn.
  - case_bool_decide; [by cbn [fst snd]; rewrite Hn|]. destruct storage_engine as [e|] eqn:He; [|by cbn [fst snd]; rewrite Hn].
    destruct (get_node e n) as [[s|]|] eqn:Hg; [|case_decide as Hd; [by destruct Hd|]|by cbn [fst snd]; rewrite Hn].
    + cbn [fst snd]. rewrite request_reindex_nodes. cbn [nodes set_missing_nodes].
      rewrite journal_missing_nodes. cbn [nodes set_nodes]. rewrite journal_node_nodes.
      unfold merge_node_state, node_entry. by rewrite (stored_under_id e n s He Hg), lookup_insert_eq, Hn.
    + cbn [fst snd nodes set_missing_nodes]. by rewrite journal_missing_nodes, Hn.
Qed.

Lemma merge_slot_empty cur inc : merge_slot cur inc = (None, None) → inc = (None, None).
Proof.
  destruct cur as [[cf|] [ct|]], inc as [[jf|] [jt|]]; unfold merge_slot; simpl;
    repeat case_match; intros; simplify_eq; done.
Qed.

Lemma empty_slots st : node_state_is_empty st = true ↔ ∀ f, node_slot st f = (None, None).
Proof.
  unfold node_state_is_empty, node_slot. rewrite andb_true_iff, !bool_decide_eq_true. split.
  - intros [Hf Ht] f. by rewrite Hf, Ht, !lookup_empty.
  - intros Hs. split; apply map_eq; intros f; specialize (Hs f); simplify_eq; by rewrite lookup_empty.
Qed.

Lemma merge_into_empty cur inc : node_state_is_empty (merge_into cur inc) = true → node_state_is_empty inc = true.
Proof.
  rewrite !empty_slots. intros Hs f. specialize (Hs f). rewrite merge_into_slot in Hs.
  by apply merge_slot_empty in Hs.
Qed.

Lemma merge_empty_id cur inc : node_state_is_empty inc = true → merge_into cur inc = cur.
Proof.
  unfold node_state_is_empty, merge_into. rewrite andb_true_iff, !bool_decide_eq_true. intros [-> ->].
  reflexivity.
Qed.

(** Loading a node changes the view of no node. *)
Lemma view_load m i n : view (maybe_load_node m i).1 n = view i n.
Proof.
  destruct (maybe_load_effect m i) as [Hn Hm|e st He Hg Hn Hm Hr|Hnone Hn Hm Hr];
    rewrite (view_cases (maybe_load_node m i).1), Hn, Hm.
  - by rewrite (view_cases i n).
  - destruct (decide (n = m)) as [->|Hne].
    2:{ rewrite (view_cases i n), lookup_insert_ne by done.
        by rewrite (bool_decide_ext (n ∈ missing_nodes i ∖ {[m]}) (n ∈ missing_nodes i)) by set_solver. }
    rewrite lookup_insert_eq. rewrite bool_decide_false by set_solver. rewrite He, Hg.
    assert (view i m = (Some (merge_into (node_entry m (nodes i)) st), Ok true)) as ->.
    { unfold view. by rewrite Hn, lookup_insert_eq, Hr. }
    destruct (node_state_is_empty (merge_into _ st)) eqn:E; [|done]. cbn [negb orb].
    by rewrite (merge_empty_id _ st) by (by eapply merge_into_empty).
  - destruct (decide (n = m)) as [->|Hne].
    2:{ rewrite (view_cases i n).
        by rewrite (bool_decide_ext (n ∈ {[m]} ∪ missing_nodes i) (n ∈ missing_nodes i)) by set_solver. }
    rewrite Hnone, bool_decide_true by set_solver. unfold view. by rewrite Hn, Hnone, Hr.
Qed.

Lemma load_other m n i : n ≠ m → nodes (maybe_load_node m i).1 !! n = nodes i !! n.
Proof.
  intros Hne. destruct (maybe_load_effect m i) as [Hn _|e st _ _ Hn _ _|_ Hn _ _]; rewrite Hn; [done| |done].
  by rewrite lookup_insert_ne.
Qed.

Lemma shows_nodes U K v n i : shows U K v i → nodes (maybe_load_node n i).1 !! n = (v n).1.
Proof. intros (_ & Hv & _). by rewrite <-(Hv n). Qed.

Lemma shows_result U K v n i : shows U K v i → (maybe_load_node n i).2 = (v n).2.
Proof. intros (_ & Hv & _). by rewrite <-(Hv n). Qed.

(** Loading keeps what the state shows, and adds the node to those in memory. *)
Lemma shows_load U K v m i : shows U K v i → shows U ({[m]} ∪ K) v (maybe_load_node m i).1.
Proof.
  intros Hi. split_and!; [rewrite maybe_load_universe; apply Hi|intros n; rewrite view_load; apply Hi|].
  intros n Hn. destruct (decide (n = m)) as [->|Hne]; [by eapply shows_nodes|].
  rewrite load_other by done. apply Hi. set_solver.
Qed.

Lemma shows_weaken U K K' v i : K' ⊆ K → shows U K v i → shows U K' v i.
Proof. intros HK (HU & Hv & Hl). split_and!; [done..|]. intros n Hn. apply Hl. set_solver. Qed.

Lemma shows_load_keep U K v m i : shows U K v i → shows U K v (maybe_load_node m i).1.
Proof. intros Hi. eapply shows_weaken, shows_load, Hi. set_solver. Qed.

Lemma shows_view i : shows (universe i) ∅ (view i) i.
Proof. by split_and!. Qed.

(** The bound on the depth of a read in a state over [U]. *)
Lemma shows_fuel U K v i : shows U K v i → read_fuel i = S (size U).
Proof. intros [<- _]. done. Qed.

(** * Reading a view *)

(** The JSON of a field, given how the nodes it refers to are shown. *)
Definition view_field (sub : NodeId → option json) (n f : string) (fv : FieldValue) : option json :=
  match fv with
  | FScalar v => Some (materialize_scalar (n +:+ "/" +:+ f) v)
  | FBytes b => Some (bytes_marker_value b)
  | FBlob r => Some (blob_marker_value r)
  | FLink target => sub target
  | FSet set => (λ l, JObject [("$set", JArray l)]) <$> mapM sub (btree_keys (members set))
  end.

(** The object of a node with its fields shown. *)
Definition node_object (ident : string) (kvs : list (string * json)) : json :=
  JObject (foldl (λ o kv, obj_insert kv.1 kv.2 o) [("$id", JString ident)] kvs).

(** [materialize_node] on a view. *)
Fixpoint view_json (fuel : nat) (v : NodeId → option NodeState * result bool)
    (n : NodeId) (visited : gset string) : option json :=
  match fuel with
  | O => None
  | S fuel =>
      if decide (n ∈ visited) then Some (ref_value n)
      else
        match (v n).1 with
        | None => Some (ref_value n)
        | Some state =>
            node_object (id state) <$>
              mapM (λ p, (p.1,.) <$> view_field (λ m, view_json fuel v m ({[n]} ∪ visited)) n p.1 (value p.2))
                (btree_list (fields state))
        end
  end.

(** [f] answers [o] and keeps what the state shows. *)
Definition reads {B} (U K : gset string) (v : NodeId → option NodeState * result bool) (f : Inner → Inner * B)
    (o : B) : Prop :=
  ∀ i, shows U K v i → (f i).2 = o ∧ shows U K v (f i).1.

Lemma thread_reads {A B} U K v (f : A → Inner → Inner * option B) (g : A → option B) l :
  (∀ a, a ∈ l → reads U K v (f a) (g a)) → reads U K v (thread f l) (mapM g l).
Proof.
  induction l as [|a l IH]; intros Hf i Hi; [done|]. cbn [thread].
  destruct (Hf a (list_elem_of_here _ _) i Hi) as [H1 H2].
  destruct (f a i) as [i1 ob]. cbn [fst snd] in *. subst ob. simpl. destruct (g a) as [b|]; [|done].
  destruct (IH (λ a' Ha', Hf a' (list_elem_of_further _ _ _ Ha')) i1 H2) as [H3 H4].
  destruct (thread f l i1) as [i2 obs]. cbn [fst snd] in *. subst obs. simpl.
  by destruct (mapM g l).
Qed.

Lemma materialize_reads U K fuel n visited v :
  reads U K v (materialize_node fuel n visited) (view_json fuel v n visited).
Proof.
  revert n visited. induction fuel as [|fuel IH]; intros n visited i Hi; [done|].
  cbn [materialize_node view_json]. case_decide; [done|]. cbv zeta.
  rewrite (shows_nodes U K v n i Hi). pose proof (shows_load_keep U K v n i Hi) as H1.
  set (i1 := (maybe_load_node n i).1) in *. destruct (v n).1 as [state|]; [|done].
  match goal with |- context [thread ?f ?l i1] => match goal with |- context [mapM ?g l] =>
    destruct (thread_reads U K v f g l) with (i := i1) as [H2 H3] end end; [|done|].
  - intros [k fs] _ i2 Hi2. cbn [fst snd]. unfold view_field.
    destruct (value fs) as [| | |target|set]; try done.
    + destruct (IH target ({[n]} ∪ visited) i2 Hi2) as [H3 H4]. cbn [fst snd]. by rewrite H3.
    + destruct (thread_reads U K v (λ m, materialize_node fuel m ({[n]} ∪ visited))
        (λ m, view_json fuel v m ({[n]} ∪ visited)) (btree_keys (members set))
        (λ m _, IH m ({[n]} ∪ visited)) i2 Hi2) as [H3 H4].
      cbn [fst snd]. rewrite H3. split; [|done]. by destruct (mapM _ _).
  - destruct (thread _ _ i1) as [i3 o]. cbn [fst snd] in *. rewrite <-H2. by destruct o.
Qed.

Lemma materialize_field_reads U K fuel n f fv v :
  reads U K v (materialize_field fuel n f fv) (view_field (λ m, view_json fuel v m ∅) n f fv).
Proof.
  destruct fv as [| | |target|set]; cbn [materialize_field view_field]; try by intros i Hi.
  { apply materialize_reads. }
  intros i Hi. destruct (thread_reads U K v (λ m, materialize_node fuel m ∅) (λ m, view_json fuel v m ∅)
    (btree_keys (members set)) (λ m _, materialize_reads U K fuel m ∅ v) i Hi) as [H1 H2].
  cbn [fst snd]. split; [|exact H2]. by rewrite <-H1.
Qed.

(** A bound above the number of nodes is enough for every view a state shows. *)
Lemma view_json_some U K v i n : shows U K v i → is_Some (view_json (S (size U)) v n ∅).
Proof.
  intros Hi. destruct (materialize_reads U K (S (size U)) n ∅ v i Hi) as [<- _].
  apply (materialize_yields (S (size U)) n ∅ U); [rewrite difference_empty_L; lia|apply Hi].
Qed.

Lemma view_field_some U K v i n f fv :
  shows U K v i → is_Some (view_field (λ m, view_json (S (size U)) v m ∅) n f fv).
Proof.
  intros Hi. destruct fv as [| | |target|set]; simpl; [by eauto..|by eapply view_json_some|].
  apply fmap_is_Some, mapM_is_Some, Forall_forall. intros m _. by eapply view_json_some.
Qed.

(** * Paths *)

(** A computation whose answer the view determines, and which keeps the view. *)
Definition pureM {A} (U K : gset string) (v : NodeId → option NodeState * result bool) (m : M A) (r : result A) : Prop :=
  ∀ i, shows U K v i → (m i).2 = r ∧ shows U K v (m i).1.

(** [resolve_path] and [resolve_cursor] on a view. *)
Fixpoint view_path (v : NodeId → option NodeState * result bool) (current : NodeId) (segs : list string)
    : result (option NodeId) :=
  match segs with
  | [] => Ok (Some current)
  | segment :: rest =>
      match (v current).2 with
      | Err e => Err e
      | Ok false => Ok None
      | Ok true =>
          match (v current).1 ≫= λ st, value <$> fields st !! segment with
          | None => Ok None
          | Some (FLink target) => view_path v target rest
          | Some (FScalar _) | Some (FBytes _) | Some (FBlob _) => Err (TraversalIntoScalar current segment)
          | Some (FSet _) => Err (TraversalIntoSet current segment)
          end
      end
  end.

Lemma resolve_path_pure U K v current segs : pureM U K v (resolve_path current segs) (view_path v current segs).
Proof.
  revert current. induction segs as [|s segs IH]; intros current i Hi; [done|].
  cbn [resolve_path view_path]. unfold mbind, M_bind, option_bind, gets, field_of.
  rewrite <-(shows_result U K v current i Hi), <-(shows_nodes U K v current i Hi).
  pose proof (shows_load_keep U K v current i Hi) as H1.
  destruct (maybe_load_node current i) as [i1 [[|]|e]]; cbn [fst snd negb] in *; [|done..].
  destruct (nodes i1 !! current) as [st|]; simpl; [|done].
  destruct (fields st !! s) as [[fv ver]|]; simpl; [|done]. destruct fv; try done. by apply IH.
Qed.

Definition view_cursor (v : NodeId → option NodeState * result bool) (a : NodeId) (segs : list string)
    : result (option Cursor) :=
  match (v a).2 with
  | Err e => Err e
  | Ok false => Ok None
  | Ok true =>
      match segs with
      | [] => Ok (Some (CNode a))
      | _ =>
          match view_path v a (removelast segs) with
          | Err e => Err e
          | Ok None => Ok None
          | Ok (Some current) =>
              match (v current).2 with
              | Err e => Err e
              | Ok loaded => Ok (if loaded then Some (CField current (default "" (last segs))) else None)
              end
          end
      end
  end.

(** Resolving a path leaves the node it names in memory. *)
Definition cursor_nodes (c : result (option Cursor)) : gset string :=
  match c with
  | Ok (Some (CNode n)) | Ok (Some (CField n _)) => {[n]}
  | _ => ∅
  end.

Lemma resolve_cursor_pure U K v a segs i :
  shows U K v i →
  (resolve_cursor a segs i).2 = view_cursor v a segs ∧
  shows U (cursor_nodes (view_cursor v a segs) ∪ K) v (resolve_cursor a segs i).1.
Proof.
  intros Hi. unfold resolve_cursor, view_cursor. rewrite <-(shows_result U K v a i Hi).
  pose proof (shows_load U K v a i Hi) as H1.
  destruct segs as [|s segs]; unfold mbind, M_bind.
  { destruct (maybe_load_node a i) as [i1 [[|]|e]]; (split; [done|]);
      (eapply shows_weaken; [|exact H1]); set_solver. }
  destruct (maybe_load_node a i) as [i1 [[|]|e]]; cbn [fst snd negb] in *;
    [|split; [done|]; (eapply shows_weaken; [|exact H1]); set_solver..].
  destruct (resolve_path_pure U _ v a (removelast (s :: segs)) i1 H1) as [H2 H3]. rewrite <-H2.
  destruct (resolve_path _ _ i1) as [i2 [[current|]|e]]; cbn [fst snd] in *;
    [|split; [done|]; (eapply shows_weaken; [|exact H3]); set_solver..].
  rewrite <-(shows_result U _ v current i2 H3). pose proof (shows_load U _ v current i2 H3) as H4.
  destruct (maybe_load_node current i2) as [i3 [[|]|e]]; (split; [done|]);
      (eapply shows_weaken; [|exact H4]); set_solver.
Qed.

(** * Reads *)

(** [materialize_inner] on a view. *)
Definition view_read (fuel : nat) (v : NodeId → option NodeState * result bool) (a : NodeId) (segs : list string)
    : result (option json) :=
  match view_cursor v a segs with
  | Err e => Err e
  | Ok None => Ok None
  | Ok (Some (CNode n)) => Ok (view_json fuel v n ∅)
  | Ok (Some (CField n f)) =>
      match (v n).1 ≫= λ st, value <$> fields st !! f with
      | None => Ok None
      | Some fv => Ok (view_field (λ m, view_json fuel v m ∅) n f fv)
      end
  end.

Lemma materialize_inner_pure U K v a segs i :
  shows U K v i → (materialize_inner a segs i).2 = view_read (S (size U)) v a segs ∧
              shows U K v (materialize_inner a segs i).1.
Proof.
  intros Hi. unfold materialize_inner, view_read, mbind, M_bind, option_bind.
  destruct (resolve_cursor_pure U K v a segs i Hi) as [H1 H2]. rewrite <-H1 in *.
  pose proof (shows_weaken U _ K v _ (union_subseteq_r _ _) H2) as HK.
  pose proof (shows_fuel U _ v _ H2) as Hf.
  destruct (resolve_cursor a segs i) as [i1 [[[n|n f]|]|e]]; cbn [fst snd] in *; [..|done|done].
  - unfold embed. rewrite Hf. destruct (materialize_reads U K (S (size U)) n ∅ v i1 HK) as [H4 H5].
    cbn [fst snd]. by rewrite H4.
  - unfold embed, field_of. rewrite (proj2 (proj2 H2) n) by (simpl; set_solver).
    destruct (v n).1 as [st|]; [|done].
    destruct (value <$> fields st !! f) as [fv|]; [|done].
    rewrite Hf. destruct (materialize_field_reads U K (S (size U)) n f fv v i1 HK) as [H4 H5].
    cbn [fst snd]. by rewrite H4.
Qed.

(** Reading is pure.  A read may load nodes from storage, mark others as
missing and reindex what it loaded, but it does not change what the state shows
of any node once loaded, nor what any read of any path answers, errors included. *)
Lemma reads_do_not_interfere a segs b segs' i :
  (∀ n, view (materialize_inner a segs i).1 n = view i n) ∧
  (materialize_inner b segs' (materialize_inner a segs i).1).2 = (materialize_inner b segs' i).2.
Proof.
  destruct (materialize_inner_pure (universe i) ∅ (view i) a segs i (shows_view i)) as [_ H1].
  split; [apply H1|].
  destruct (materialize_inner_pure (universe i) ∅ (view i) b segs' i (shows_view i)) as [-> _].
  by destruct (materialize_inner_pure (universe i) ∅ (view i) b segs' _ H1) as [-> _].
Qed.
End view.
