(* ===== verification/Query.v ===== *)
(** Queries over the entries of a node or the members of a set ([query_at],
[evaluate_query_candidates] and the value lookups of [src/src/db.rs], the
specifications of [src/src/query.rs]), and the proof that looking values up in
the graph instead of materializing every candidate changes no answer. *)
From stdpp Require Import base gmap sets list strings sorting.
From Stdlib Require Import ZArith Lia.
From Stdlib Require SpecFloat.
From S2P Require Import Prelude Clock Value Crdt Merge OpQueue RelIndex Paths Records Input Inner Read View.

(** * Specifications *)

Inductive QueryDirection := Asc | Desc.

Record QueryOrder := mkOrder {
  order_path : string;
  order_direction : QueryDirection
}.

Inductive QueryFilter :=
  | FEq (path : string) (expected : json)
  | FNe (path : string) (expected : json)
  | FGt (path : string) (expected : json)
  | FGte (path : string) (expected : json)
  | FLt (path : string) (expected : json)
  | FLte (path : string) (expected : json)
  | FPrefix (path : string) (expected : string)
  | FContains (path : string) (expected : string)
  | FExists (path : string).

Record QuerySpec := mkQuery {
  query_filters : list QueryFilter;
  query_order : option QueryOrder;
  query_limit : option nat;
  query_offset : nat
}.

Record MapEntry := mkEntry {
  map_key : string;
  map_value : json
}.

(** * Filters *)

Definition filter_path (f : QueryFilter) : string :=
  match f with
  | FEq p _ | FNe p _ | FGt p _ | FGte p _ | FLt p _ | FLte p _
  | FPrefix p _ | FContains p _ | FExists p => p
  end.

Definition compare_json_values (left right : json) : option comparison :=
  match left, right with
  | JString l, JString r => Some (String.compare l r)
  | JNumber l, JNumber r => SpecFloat.SFcompare (as_f64 l) (as_f64 r)
  | JBool l, JBool r => Some (Bool.compare l r)
  | JNull, JNull => Some Eq
  | _, _ => None
  end.

Definition as_str (v : json) : option string :=
  match v with JString s => Some s | _ => None end.

Definition matches_filter_value (v : option json) (f : QueryFilter) : bool :=
  match f with
  | FEq _ e => match v with Some c => json_eqb c e | None => false end
  | FNe _ e => match v with Some c => negb (json_eqb c e) | None => false end
  | FGt _ e => match v ≫= λ c, compare_json_values c e with Some Gt => true | _ => false end
  | FGte _ e => match v ≫= λ c, compare_json_values c e with Some (Gt | Eq) => true | _ => false end
  | FLt _ e => match v ≫= λ c, compare_json_values c e with Some Lt => true | _ => false end
  | FLte _ e => match v ≫= λ c, compare_json_values c e with Some (Lt | Eq) => true | _ => false end
  | FPrefix _ e => match v ≫= as_str with Some c => starts_with c e | None => false end
  | FContains _ e => match v ≫= as_str with Some c => contains_str c e | None => false end
  | FExists _ => match v with Some _ => true | None => false end
  end.

(** The walk of [query_value_parts] and [query_scalar_path] down an object. *)
Fixpoint query_scalar_path (v : json) (segs : list string) : option json :=
  match segs with
  | [] => Some v
  | s :: rest =>
      match v with
      | JObject o => match obj_get s o with Some v => query_scalar_path v rest | None => None end
      | _ => None
      end
  end.

Definition query_value_parts (key : string) (v : json) (path : string) : option json :=
  if decide (path = "" ∨ path = "$value") then Some v
  else if decide (path = "$key") then Some (JString key)
  else query_scalar_path v (split_on "." path).

Definition matches_filter_parts (key : string) (v : json) (f : QueryFilter) : bool :=
  matches_filter_value (query_value_parts key v (filter_path f)) f.

Definition matches_filter (e : MapEntry) (f : QueryFilter) : bool :=
  matches_filter_parts (map_key e) (map_value e) f.

(** * Candidates *)

Inductive QueryCandidateSource :=
  | QNode (node : NodeId)
  | QField (node : NodeId) (field : string).

Record QueryCandidate := mkCandidate {
  cand_key : string;
  cand_source : QueryCandidateSource
}.

Record EvaluatedQueryCandidate := mkEvaluated {
  candidate : QueryCandidate;
  full_value : option json;
  order_value : option json
}.

Inductive QueryValuePath := PFull | PKey | PSegments (segs : list string).

(** [QueryValuePath::new]. *)
Definition query_value_path (path : string) : QueryValuePath :=
  if decide (path = "" ∨ path = "$value") then PFull
  else if decide (path = "$key") then PKey
  else PSegments (split_on "." path).

Definition compare_evaluated_candidates (left right : EvaluatedQueryCandidate) (order : QueryOrder)
    : comparison :=
  let keys := String.compare (cand_key (candidate left)) (cand_key (candidate right)) in
  let base :=
    match order_value left, order_value right with
    | Some l, Some r => default Eq (compare_json_values l r)
    | Some _, None => Gt
    | None, Some _ => Lt
    | None, None => keys
    end in
  match order_direction order with
  | Asc => then_with base keys
  | Desc => then_with (CompOpp base) keys
  end.

Section query.
Context `{Cod : Codec, En : Env}.

(** [query_field_value]; [sub] looks into a linked node.  [Some v] is the
source's [Ok(v)], [None] its [Err(())]: the graph alone does not tell. *)
Definition query_field_value (sub : NodeId → Inner → Inner * option (option json))
    (node field : string) (segs : list string) (i : Inner) : Inner * option (option json) :=
  let i := (maybe_load_node node i).1 in
  match field_of i node field with
  | None => (i, Some None)
  | Some (FScalar v) => (i, Some (query_scalar_path (materialize_scalar (node +:+ "/" +:+ field) v) segs))
  | Some (FLink target) => match segs with [] => (i, None) | _ => sub target i end
  | Some (FBytes _) | Some (FBlob _) | Some (FSet _) => (i, None)
  end.

Fixpoint query_node_value (segs : list string) (node : NodeId) (visited : gset string) (i : Inner)
    : Inner * option (option json) :=
  if decide (node ∈ visited) then (i, None)
  else
    match maybe_load_node node i with
    | (i, Ok true) =>
        match segs with
        | [] => (i, None)
        | first :: rest =>
            if decide (first = "$id")
            then (i, Some (match rest with [] => Some (JString node) | _ => None end))
            else query_field_value (λ target, query_node_value rest target ({[node]} ∪ visited))
                   node first rest i
        end
    | (i, _) => (i, None)
    end.

Definition query_candidate_value (c : QueryCandidate) (path : QueryValuePath) (i : Inner)
    : Inner * option (option json) :=
  match path with
  | PFull => (i, None)
  | PKey => (i, Some (Some (JString (cand_key c))))
  | PSegments segs =>
      match cand_source c with
      | QNode node => query_node_value segs node ∅ i
      | QField node field => query_field_value (λ target, query_node_value segs target ∅) node field segs i
      end
  end.

(** [materialize_query_candidate].  The bound on the depth is enough, so the
[default] is not taken. *)
Definition materialize_query_candidate (c : QueryCandidate) (i : Inner) : Inner * json :=
  match cand_source c with
  | QNode node => let r := materialize_node (read_fuel i) node ∅ i in (r.1, default JNull r.2)
  | QField node field =>
      match field_of i node field with
      | None => (i, JNull)
      | Some fv => let r := materialize_field (read_fuel i) node field fv i in (r.1, default JNull r.2)
      end
  end.

(** [evaluated.full_value], materialized on first use. *)
Definition full_value_of (ev : EvaluatedQueryCandidate) (i : Inner)
    : Inner * (EvaluatedQueryCandidate * json) :=
  match full_value ev with
  | Some v => (i, (ev, v))
  | None =>
      let r := materialize_query_candidate (candidate ev) i in
      (r.1, (mkEvaluated (candidate ev) (Some r.2) (order_value ev), r.2))
  end.

(** The loop over the filters; [None] is the early return. *)
Fixpoint check_filters (fs : list QueryFilter) (ev : EvaluatedQueryCandidate) (i : Inner)
    : Inner * option EvaluatedQueryCandidate :=
  match fs with
  | [] => (i, Some ev)
  | f :: rest =>
      match query_candidate_value (candidate ev) (query_value_path (filter_path f)) i with
      | (i, Some v) => if matches_filter_value v f then check_filters rest ev i else (i, None)
      | (i, None) =>
          let '(i, (ev, full)) := full_value_of ev i in
          if matches_filter_parts (cand_key (candidate ev)) full f then check_filters rest ev i
          else (i, None)
      end
  end.

Definition evaluate_query_candidate (c : QueryCandidate) (spec : QuerySpec) (i : Inner)
    : Inner * option EvaluatedQueryCandidate :=
  match check_filters (query_filters spec) (mkEvaluated c None None) i with
  | (i, None) => (i, None)
  | (i, Some ev) =>
      match query_order spec with
      | None => (i, Some ev)
      | Some order =>
          match query_candidate_value (candidate ev) (query_value_path (order_path order)) i with
          | (i, Some v) => (i, Some (mkEvaluated (candidate ev) (full_value ev) v))
          | (i, None) =>
              let '(i, (ev, full)) := full_value_of ev i in
              (i, Some (mkEvaluated (candidate ev) (full_value ev)
                         (query_value_parts (cand_key (candidate ev)) full (order_path order))))
          end
      end
  end.

(** [filter_map] over the candidates. *)
Fixpoint evaluate_all (cs : list QueryCandidate) (spec : QuerySpec) (i : Inner)
    : Inner * list EvaluatedQueryCandidate :=
  match cs with
  | [] => (i, [])
  | c :: rest =>
      let '(i, r) := evaluate_query_candidate c spec i in
      let '(i, evs) := evaluate_all rest spec i in
      (i, match r with Some ev => ev :: evs | None => evs end)
  end.

(** [skip(offset).take(end - offset)]. *)
Definition query_window {A} (spec : QuerySpec) (l : list A) : list A :=
  let offset := min (query_offset spec) (length l) in
  let end_ :=
    match query_limit spec with
    | Some limit => min (Z.to_nat (sat_add u64_max (Z.of_nat offset) (Z.of_nat limit))) (length l)
    | None => length l
    end in
  take (end_ - offset) (drop offset l).

(** [sort_by] with a comparison function. *)
Definition ev_le (order : QueryOrder) (x y : EvaluatedQueryCandidate) : Prop :=
  compare_evaluated_candidates x y order ≠ Gt.

#[global] Instance ev_le_dec order : RelDecision (ev_le order).
Proof. intros x y. unfold ev_le. apply _. Defined.

Definition sort_evaluated (spec : QuerySpec) (l : list EvaluatedQueryCandidate)
    : list EvaluatedQueryCandidate :=
  match query_order spec with Some order => merge_sort (ev_le order) l | None => l end.

Fixpoint finish (evs : list EvaluatedQueryCandidate) (i : Inner) : Inner * list MapEntry :=
  match evs with
  | [] => (i, [])
  | ev :: rest =>
      let '(i, (ev, full)) := full_value_of ev i in
      let '(i, entries) := finish rest i in
      (i, mkEntry (cand_key (candidate ev)) full :: entries)
  end.

Definition evaluate_query_candidates (cs : list QueryCandidate) (spec : QuerySpec) (i : Inner)
    : Inner * list MapEntry :=
  let '(i, evs) := evaluate_all cs spec i in
  finish (query_window spec (sort_evaluated spec evs)) i.

(** [query_candidates] on a node, and on a cursor. *)
Definition node_candidates (node : NodeId) (i : Inner) : Inner * list QueryCandidate :=
  let i := (maybe_load_node node i).1 in
  (i, match nodes i !! node with
      | Some state => (λ field, mkCandidate field (QField node field)) <$> btree_keys (fields state)
      | None => []
      end).

Definition query_candidates (c : Cursor) (i : Inner) : Inner * list QueryCandidate :=
  match c with
  | CNode node => node_candidates node i
  | CField node field =>
      let i := (maybe_load_node node i).1 in
      match field_of i node field with
      | Some (FLink target) => node_candidates target i
      | Some (FSet set) => (i, (λ m, mkCandidate m (QNode m)) <$> btree_keys (members set))
      | Some (FScalar _) | Some (FBytes _) | Some (FBlob _) | None => (i, [])
      end
  end.

(** [Primadb::query_at] where no storage index answers. *)
Definition query_at (a : NodeId) (segs : list string) (spec : QuerySpec) : M (list MapEntry) :=
  c ← resolve_cursor a segs;
  cs ← match c with Some c => embed (query_candidates c) | None => mret [] end;
  embed (evaluate_query_candidates cs spec).

(** * Looking up in the graph is looking up in the object *)

(** [query_field_value] and [query_node_value] on a view. *)
Definition view_field_value (v : NodeId → option NodeState * result bool)
    (sub : NodeId → option (option json)) (n f : string) (segs : list string) : option (option json) :=
  match (v n).1 ≫= λ st, value <$> fields st !! f with
  | None => Some None
  | Some (FScalar x) => Some (query_scalar_path (materialize_scalar (n +:+ "/" +:+ f) x) segs)
  | Some (FLink target) => match segs with [] => None | _ => sub target end
  | Some (FBytes _) | Some (FBlob _) | Some (FSet _) => None
  end.

Fixpoint view_node_value (v : NodeId → option NodeState * result bool) (segs : list string)
    (n : NodeId) (visited : gset string) : option (option json) :=
  if decide (n ∈ visited) then None
  else
    match (v n).2 with
    | Ok true =>
        match segs with
        | [] => None
        | first :: rest =>
            if decide (first = "$id") then Some (match rest with [] => Some (JString n) | _ => None end)
            else view_field_value v (λ t, view_node_value v rest t ({[n]} ∪ visited)) n first rest
        end
    | _ => None
    end.

Context `{Laws : !EnvLaws}.

Lemma query_field_reads U K v sub sub' n f segs :
  (∀ t, segs ≠ [] → reads U K v (sub t) (sub' t)) →
  reads U K v (query_field_value sub n f segs) (view_field_value v sub' n f segs).
Proof.
  intros Hsub i Hi. unfold query_field_value, view_field_value, field_of, mbind, option_bind. cbv zeta.
  rewrite (shows_nodes U K v n i Hi). pose proof (shows_load_keep U K v n i Hi) as H1.
  destruct (v n).1 as [st|]; [|done]. destruct (value <$> fields st !! f) as [[]|]; try done.
  destruct segs; [done|]. by apply Hsub.
Qed.

Lemma query_node_reads U K v segs n visited :
  reads U K v (query_node_value segs n visited) (view_node_value v segs n visited).
Proof.
  revert n visited. induction segs as [|s segs IH]; intros n visited i Hi;
    cbn [query_node_value view_node_value]; (case_decide; [done|]);
    rewrite <-(shows_result U K v n i Hi); pose proof (shows_load_keep U K v n i Hi) as H1;
    destruct (maybe_load_node n i) as [i1 [[|]|e]]; try done; cbn [fst snd] in *.
  case_decide; [done|]. apply query_field_reads; [|done]. intros t _. apply IH.
Qed.

(** What the comparison needs of a view: a loaded node has a state, under its own
name, without a stored field named [$id]. *)
Definition view_wf (v : NodeId → option NodeState * result bool) : Prop :=
  ∀ n, ((v n).2 = Ok true → is_Some (v n).1) ∧
       ∀ st, (v n).1 = Some st → id st = n ∧ fields st !! "$id" = None.

Lemma foldl_insert_get (kvs base : list (string * json)) k :
  obj_get k (foldl (λ o kv, obj_insert kv.1 kv.2 o) base kvs) =
  match list_to_map (M := gmap string json) (reverse kvs) !! k with Some x => Some x | None => obj_get k base end.
Proof.
  revert base. induction kvs as [|[a x] kvs IH] using rev_ind; intros base; [done|].
  rewrite foldl_snoc, reverse_snoc. simpl. destruct (decide (a = k)) as [->|Hne].
  - by rewrite obj_get_insert, lookup_insert_eq.
  - by rewrite obj_get_insert_ne, lookup_insert_ne, IH.
Qed.

Lemma node_object_get ident (g : string → FieldState → option json) (m : gmap string FieldState) kvs k :
  mapM (λ p, (p.1,.) <$> g p.1 p.2) (btree_list m) = Some kvs → m !! "$id" = None →
  obj_get k (foldl (λ o kv, obj_insert kv.1 kv.2 o) [("$id", JString ident)] kvs) =
  if decide (k = "$id") then Some (JString ident) else m !! k ≫= g k.
Proof.
  intros Hm Hid. rewrite foldl_insert_get. apply mapM_Some in Hm.
  assert (kvs.*1 = btree_keys m) as Hk.
  { unfold btree_keys. clear Hid. revert kvs Hm. generalize (btree_list m). intros l kvs Hm.
    induction Hm as [|[f fs] [f' x] l kvs Hx _ IH]; [done|]. rewrite !fmap_cons, IH.
    simpl in *. destruct (g f fs); by simplify_eq/=. }
  assert (NoDup (reverse kvs).*1) as Hnd.
  { assert ((reverse kvs).*1 ≡ₚ btree_keys m) as -> by (rewrite <-Hk; by rewrite reverse_Permutation).
    apply btree_keys_NoDup. }
  assert (∀ x, list_to_map (M := gmap string json) (reverse kvs) !! k = Some x ↔ m !! k ≫= g k = Some x) as Hl.
  { intros x. rewrite <-elem_of_list_to_map by done. rewrite elem_of_reverse. split.
    - intros (j & Hj)%list_elem_of_lookup. destruct (Forall2_lookup_r _ _ _ _ _ Hm Hj) as ([f fs] & Hf & Hx).
      assert ((f, fs) ∈ btree_list m) as Hin%elem_of_btree_list by (by eapply list_elem_of_lookup_2).
      simpl in Hx. destruct (g f fs) eqn:Hg; simplify_eq/=. by rewrite Hin.
    - destruct (m !! k) as [fs|] eqn:Hf; [|done]. simpl. intros Hg.
      apply elem_of_btree_list in Hf. apply list_elem_of_lookup in Hf as [j Hj].
      destruct (Forall2_lookup_l _ _ _ _ _ Hm Hj) as ([f x'] & Hx & Hfx). simpl in Hfx. rewrite Hg in Hfx.
      simplify_eq/=. by eapply list_elem_of_lookup_2. }
  destruct (list_to_map (reverse kvs) !! k) as [x|].
  - pose proof (proj1 (Hl x) eq_refl) as E. rewrite decide_False; [done|]. intros ->. by rewrite Hid in E.
  - simpl. destruct (decide (k = "$id")) as [->|Hne]; [done|].
    rewrite decide_False by done. destruct (m !! k ≫= g k) as [x|]; [|done].
    by pose proof (proj2 (Hl x) eq_refl).
Qed.

Lemma mapM_fields_some (g : string → FieldState → option json) (m : gmap string FieldState) kvs k fs :
  mapM (λ p, (p.1,.) <$> g p.1 p.2) (btree_list m) = Some kvs → m !! k = Some fs → is_Some (g k fs).
Proof.
  intros Hm%mapM_Some Hk. apply elem_of_btree_list, list_elem_of_lookup in Hk as [j Hj].
  destruct (Forall2_lookup_l _ _ _ _ _ Hm Hj) as (y & _ & Hy). simpl in Hy.
  destruct (g k fs); [by eauto|done].
Qed.

(** A value found in the graph is the one the materialized node has. *)
Lemma node_value_sound v segs n visited r fuel j :
  view_wf v → view_node_value v segs n visited = Some r → view_json fuel v n visited = Some j →
  query_scalar_path j segs = r.
Proof.
  intros Hwf. revert n visited r fuel j. induction segs as [|s segs IH]; intros n visited r fuel j;
    cbn [view_node_value]; (case_decide as Hv; [done|]); destruct (Hwf n) as [Hs Hst];
    destruct (v n).2 as [[|]|] eqn:Hr; try done.
  destruct (Hs eq_refl) as [st Hn]. destruct (Hst st Hn) as [Hid Hno].
  intros Hval Hj. destruct fuel as [|fuel]; [done|]. cbn [view_json] in Hj.
  rewrite decide_False, Hn in Hj by done. apply fmap_Some in Hj as (kvs & Hkvs & ->).
  unfold node_object. cbn [query_scalar_path].
  rewrite (node_object_get (id st) (λ f fs, view_field (λ m, view_json fuel v m ({[n]} ∪ visited)) n f (value fs))
    (fields st) kvs s Hkvs Hno).
  revert Hval. case_decide as Hs'; [intros [= <-]; subst s; rewrite Hid; by destruct segs|].
  unfold view_field_value. rewrite Hn. simpl.
  destruct (fields st !! s) as [[fv ver]|] eqn:Hf; simpl; [|by intros [= <-]].
  destruct fv as [x| | |target|set]; simpl; try done; [by intros [= <-]|].
  destruct segs as [|s' segs]; [done|]. intros Hval.
  destruct (mapM_fields_some (λ f fs, view_field (λ m, view_json fuel v m ({[n]} ∪ visited)) n f (value fs))
    _ _ _ _ Hkvs Hf) as [j' Hj']. simpl in Hj'.
  rewrite Hj'. by eapply IH.
Qed.

(** * The reference: materialize everything, then filter, order and cut *)

(** The value of a candidate. *)
Definition cand_json (fuel : nat) (v : NodeId → option NodeState * result bool) (c : QueryCandidate) : json :=
  match cand_source c with
  | QNode n => default JNull (view_json fuel v n ∅)
  | QField n f =>
      match (v n).1 ≫= λ st, value <$> fields st !! f with
      | None => JNull
      | Some fv => default JNull (view_field (λ m, view_json fuel v m ∅) n f fv)
      end
  end.

Definition passes (spec : QuerySpec) (key : string) (full : json) : bool :=
  forallb (matches_filter (mkEntry key full)) (query_filters spec).

(** A candidate with its full value and the value it is ordered by. *)
Definition evaluated_with (spec : QuerySpec) (c : QueryCandidate) (full : json) : EvaluatedQueryCandidate :=
  mkEvaluated c (Some full)
    (match query_order spec with
     | Some order => query_value_parts (cand_key c) full (order_path order)
     | None => None
     end).

Definition entry_of (ev : EvaluatedQueryCandidate) : MapEntry :=
  mkEntry (cand_key (candidate ev)) (default JNull (full_value ev)).

Definition query_reference (spec : QuerySpec) (entries : list (QueryCandidate * json)) : list MapEntry :=
  let kept := filter (λ e, passes spec (cand_key e.1) e.2 = true) entries in
  entry_of <$> query_window spec (sort_evaluated spec ((λ e, evaluated_with spec e.1 e.2) <$> kept)).

(** The node of a field candidate is in memory. *)
Definition cand_known (K : gset string) (c : QueryCandidate) : Prop :=
  match cand_source c with QField n _ => n ∈ K | QNode _ => True end.

Lemma materialize_candidate_reads U K v c :
  cand_known K c → reads U K v (materialize_query_candidate c) (cand_json (S (size U)) v c).
Proof.
  intros Hc i Hi. unfold materialize_query_candidate, cand_json. rewrite (shows_fuel U K v i Hi).
  unfold cand_known in Hc. destruct (cand_source c) as [n|n f]; cbv zeta.
  - destruct (materialize_reads U K (S (size U)) n ∅ v i Hi) as [H1 H2]. cbn [fst snd]. by rewrite H1.
  - unfold field_of, mbind, option_bind. rewrite (proj2 (proj2 Hi) n Hc).
    destruct (v n).1 as [st|]; [|done]. destruct (value <$> fields st !! f) as [fv|]; [|done].
    destruct (materialize_field_reads U K (S (size U)) n f fv v i Hi) as [H1 H2]. cbn [fst snd]. by rewrite H1.
Qed.

(** A value found without materializing is the one the materialized candidate has. *)
Lemma candidate_value_sound U K v i c path r :
  view_wf v → shows U K v i →
  (query_candidate_value c (query_value_path path) i).2 = Some r →
  query_value_parts (cand_key c) (cand_json (S (size U)) v c) path = r.
Proof.
  intros Hwf Hi. unfold query_candidate_value, query_value_path, query_value_parts.
  case_decide; [done|]. case_decide; [by intros [= <-]|].
  destruct (split_on_cons "." path) as (s & segs & Hs). rewrite Hs. clear Hs. unfold cand_json.
  destruct (cand_source c) as [n|n f].
  - destruct (query_node_reads U K v (s :: segs) n ∅ i Hi) as [-> _]. intros Hr.
    destruct (view_json_some U K v i n Hi) as [j Hj]. rewrite Hj. by eapply node_value_sound.
  - destruct (query_field_reads U K v (λ t, query_node_value (s :: segs) t ∅)
      (λ t, view_node_value v (s :: segs) t ∅) n f (s :: segs)) with (i := i) as [-> _]; [|done|].
    { intros t _. apply query_node_reads. }
    unfold view_field_value. destruct ((v n).1 ≫= _) as [fv|]; [|by intros [= <-]].
    destruct fv as [x| | |target|set]; try done; [by intros [= <-]|]. intros Hr. cbn [view_field].
    destruct (view_json_some U K v i target Hi) as [j Hj]. rewrite Hj. by eapply node_value_sound.
Qed.

Lemma query_candidate_keeps U K v i c path :
  shows U K v i → shows U K v (query_candidate_value c path i).1.
Proof.
  intros Hi. unfold query_candidate_value. destruct path as [| |segs]; [done..|].
  destruct (cand_source c) as [n|n f]; [by apply query_node_reads|].
  apply (query_field_reads U K v _ (λ t, view_node_value v segs t ∅)); [|done].
  intros t _. apply query_node_reads.
Qed.

(** An evaluated candidate whose value, if it has been materialized, is right. *)
Definition full_ok (full : json) (ev : EvaluatedQueryCandidate) : Prop :=
  full_value ev = None ∨ full_value ev = Some full.

Lemma full_value_spec U K v ev i :
  cand_known K (candidate ev) → full_ok (cand_json (S (size U)) v (candidate ev)) ev → shows U K v i →
  let full := cand_json (S (size U)) v (candidate ev) in
  (full_value_of ev i).2 = (mkEvaluated (candidate ev) (Some full) (order_value ev), full) ∧
  shows U K v (full_value_of ev i).1.
Proof.
  intros Hk Hok Hi. unfold full_value_of. destruct Hok as [->|Hok].
  - destruct (materialize_candidate_reads U K v _ Hk i Hi) as [H1 H2]. cbn [fst snd]. by rewrite H1.
  - rewrite Hok. cbn [fst snd]. split; [|done]. destruct ev as [c fv ov]; simpl in *. by rewrite Hok.
Qed.

Lemma check_filters_spec U K v fs ev i :
  view_wf v → cand_known K (candidate ev) → full_ok (cand_json (S (size U)) v (candidate ev)) ev →
  shows U K v i →
  let full := cand_json (S (size U)) v (candidate ev) in
  shows U K v (check_filters fs ev i).1 ∧
  match (check_filters fs ev i).2 with
  | Some ev' => forallb (matches_filter (mkEntry (cand_key (candidate ev)) full)) fs = true ∧
      candidate ev' = candidate ev ∧ order_value ev' = order_value ev ∧ full_ok full ev'
  | None => forallb (matches_filter (mkEntry (cand_key (candidate ev)) full)) fs = false
  end.
Proof.
  intros Hwf. revert ev i. induction fs as [|f fs IH]; intros ev i Hk Hok Hi; [by simpl|].
  cbv zeta. cbn [check_filters forallb].
  pose proof (query_candidate_keeps U K v i (candidate ev) (query_value_path (filter_path f)) Hi) as H1.
  pose proof (candidate_value_sound U K v i (candidate ev) (filter_path f)) as Hs.
  assert (∀ full, matches_filter (mkEntry (cand_key (candidate ev)) full) f =
    matches_filter_value (query_value_parts (cand_key (candidate ev)) full (filter_path f)) f) as Hm by done.
  destruct (query_candidate_value _ _ i) as [i1 [r|]]; cbn [fst snd] in *.
  - rewrite Hm, (Hs r Hwf Hi eq_refl). destruct (matches_filter_value r f); [by apply IH|done].
  - destruct (full_value_spec U K v ev i1 Hk Hok H1) as [H2 H3].
    destruct (full_value_of ev i1) as [i2 [ev2 full]]. cbn [fst snd] in *. simplify_eq/=.
    change (matches_filter_parts ?k ?x f) with (matches_filter (mkEntry k x) f).
    destruct (matches_filter _ f); [|done]. apply (IH (mkEvaluated (candidate ev) _ (order_value ev))); [done|by right|done].
Qed.

(** What evaluating a candidate yields, up to when its value was materialized. *)
Definition settle (U : gset string) (v : NodeId → option NodeState * result bool) (ev : EvaluatedQueryCandidate)
    : EvaluatedQueryCandidate :=
  mkEvaluated (candidate ev) (Some (cand_json (S (size U)) v (candidate ev))) (order_value ev).

Definition settled (U K : gset string) (v : NodeId → option NodeState * result bool)
    (ev : EvaluatedQueryCandidate) : Prop :=
  cand_known K (candidate ev) ∧ full_ok (cand_json (S (size U)) v (candidate ev)) ev.

Lemma evaluate_candidate_spec U K v spec c i :
  view_wf v → cand_known K c → shows U K v i →
  let full := cand_json (S (size U)) v c in
  shows U K v (evaluate_query_candidate c spec i).1 ∧
  match (evaluate_query_candidate c spec i).2 with
  | Some ev => passes spec (cand_key c) full = true ∧ settled U K v ev ∧ settle U v ev = evaluated_with spec c full
  | None => passes spec (cand_key c) full = false
  end.
Proof.
  intros Hwf Hk Hi. cbv zeta. unfold evaluate_query_candidate, passes, evaluated_with.
  destruct (check_filters_spec U K v (query_filters spec) (mkEvaluated c None None) i Hwf Hk (or_introl eq_refl) Hi)
    as [H1 H2].
  destruct (check_filters _ _ i) as [i1 [ev|]]; cbn [fst snd] in *; [|done].
  destruct H2 as (Hf & Hc & Ho & Hok). cbn [candidate order_value] in *. subst c.
  destruct (query_order spec) as [order|].
  2:{ cbn [fst snd]. split_and!; [done..|]. unfold settle. by rewrite Ho. }
  pose proof (query_candidate_keeps U K v i1 (candidate ev) (query_value_path (order_path order)) H1) as H3.
  pose proof (candidate_value_sound U K v i1 (candidate ev) (order_path order)) as Hs.
  destruct (query_candidate_value _ _ i1) as [i2 [r|]]; cbn [fst snd] in *.
  - split_and!; [done..|]. unfold settle. cbn [candidate order_value]. by rewrite (Hs r Hwf H1 eq_refl).
  - destruct (full_value_spec U K v ev i2 Hk Hok H3) as [H4 H5].
    destruct (full_value_of ev i2) as [i3 [ev3 full]]. cbn [fst snd] in *. simplify_eq/=.
    split; [done|]. split; [done|]. split; [|done]. split; [done|by right].
Qed.

Lemma evaluate_all_spec U K v spec cs i :
  view_wf v → Forall (cand_known K) cs → shows U K v i →
  shows U K v (evaluate_all cs spec i).1 ∧ Forall (settled U K v) (evaluate_all cs spec i).2 ∧
  settle U v <$> (evaluate_all cs spec i).2 =
  (λ e, evaluated_with spec e.1 e.2) <$>
    filter (λ e, passes spec (cand_key e.1) e.2 = true) ((λ c, (c, cand_json (S (size U)) v c)) <$> cs).
Proof.
  intros Hwf. revert i. induction cs as [|c cs IH]; intros i Hks Hi; [done|].
  apply Forall_cons in Hks as [Hk Hks]. cbn [evaluate_all].
  destruct (evaluate_candidate_spec U K v spec c i Hwf Hk Hi) as [H1 H2].
  destruct (evaluate_query_candidate c spec i) as [i1 r]. cbn [fst snd] in *.
  destruct (IH i1 Hks H1) as (H3 & H4 & H5).
  destruct (evaluate_all cs spec i1) as [i2 evs]. cbn [fst snd] in *. rewrite fmap_cons, filter_cons. cbn [fst snd].
  destruct r as [ev|].
  - destruct H2 as (Hp & Hs & He). rewrite decide_True by done. split_and!; [done|by constructor|].
    by rewrite !fmap_cons, He, H5.
  - rewrite decide_False by (by rewrite H2). done.
Qed.

Lemma sort_settle U v spec l : sort_evaluated spec (settle U v <$> l) = settle U v <$> sort_evaluated spec l.
Proof. unfold sort_evaluated. destruct (query_order spec); [|done]. by apply merge_sort_fmap. Qed.

Lemma query_window_fmap {A B} (f : A → B) spec l : query_window spec (f <$> l) = f <$> query_window spec l.
Proof. unfold query_window. by rewrite length_fmap, fmap_take, fmap_drop. Qed.

Lemma query_window_sublist {A} spec (l : list A) : query_window spec l ⊆ l.
Proof.
  unfold query_window. intros x Hx. rewrite <-(take_drop (min (query_offset spec) (length l)) l).
  apply elem_of_app. right. apply list_elem_of_lookup in Hx as [j Hj]. apply lookup_take_Some in Hj as [Hj _]. by eapply list_elem_of_lookup_2.
Qed.

Lemma sort_evaluated_perm spec l : sort_evaluated spec l ≡ₚ l.
Proof. unfold sort_evaluated. destruct (query_order spec); [|done]. apply merge_sort_Permutation. Qed.

Lemma finish_spec U K v evs i :
  Forall (settled U K v) evs → shows U K v i →
  (finish evs i).2 = entry_of <$> (settle U v <$> evs) ∧ shows U K v (finish evs i).1.
Proof.
  revert i. induction evs as [|ev evs IH]; intros i Hs Hi; [done|].
  apply Forall_cons in Hs as [[Hk Hok] Hs]. cbn [finish].
  destruct (full_value_spec U K v ev i Hk Hok Hi) as [H1 H2].
  destruct (full_value_of ev i) as [i1 [ev1 full]]. cbn [fst snd] in *. simplify_eq.
  destruct (IH i1 Hs H2) as [H3 H4]. destruct (finish evs i1) as [i2 entries]. cbn [fst snd] in *. by subst.
Qed.

Lemma evaluate_candidates_spec U K v spec cs i :
  view_wf v → Forall (cand_known K) cs → shows U K v i →
  (evaluate_query_candidates cs spec i).2 =
  query_reference spec ((λ c, (c, cand_json (S (size U)) v c)) <$> cs).
Proof.
  intros Hwf Hks Hi. unfold evaluate_query_candidates, query_reference.
  destruct (evaluate_all_spec U K v spec cs i Hwf Hks Hi) as (H1 & H2 & H3).
  destruct (evaluate_all cs spec i) as [i1 evs]. cbn [fst snd] in *.
  rewrite <-H3, sort_settle, query_window_fmap. eapply finish_spec; [|done].
  rewrite Forall_forall in *. intros ev Hev%query_window_sublist. apply H2.
  by rewrite sort_evaluated_perm in Hev.
Qed.

(** [query_candidates] on a view. *)
Definition view_node_candidates (v : NodeId → option NodeState * result bool) (n : NodeId) : list QueryCandidate :=
  match (v n).1 with
  | Some state => (λ field, mkCandidate field (QField n field)) <$> btree_keys (fields state)
  | None => []
  end.

Definition view_candidates (v : NodeId → option NodeState * result bool) (c : Cursor) : list QueryCandidate :=
  match c with
  | CNode n => view_node_candidates v n
  | CField n f =>
      match (v n).1 ≫= λ st, value <$> fields st !! f with
      | Some (FLink target) => view_node_candidates v target
      | Some (FSet set) => (λ m, mkCandidate m (QNode m)) <$> btree_keys (members set)
      | Some (FScalar _) | Some (FBytes _) | Some (FBlob _) | None => []
      end
  end.

Lemma node_candidates_spec U K v n i :
  shows U K v i →
  (node_candidates n i).2 = view_node_candidates v n ∧
  ∃ K', shows U K' v (node_candidates n i).1 ∧ Forall (cand_known K') (view_node_candidates v n).
Proof.
  intros Hi. unfold node_candidates, view_node_candidates. cbv zeta. cbn [fst snd].
  rewrite (shows_nodes U K v n i Hi). split; [done|]. exists ({[n]} ∪ K). split; [by apply shows_load|].
  destruct (v n).1 as [st|]; [|constructor]. apply Forall_fmap, Forall_forall. intros f _. unfold compose, cand_known.
  simpl. set_solver.
Qed.

Lemma query_candidates_spec U K v c i :
  shows U K v i →
  (query_candidates c i).2 = view_candidates v c ∧
  ∃ K', shows U K' v (query_candidates c i).1 ∧ Forall (cand_known K') (view_candidates v c).
Proof.
  intros Hi. destruct c as [n|n f]; cbn [query_candidates view_candidates]; [by eapply node_candidates_spec|].
  cbv zeta. unfold field_of, mbind, option_bind. rewrite (shows_nodes U K v n i Hi).
  pose proof (shows_load_keep U K v n i Hi) as H1.
  destruct (v n).1 as [st|]; [|by eauto]. destruct (value <$> fields st !! f) as [[]|]; try by eauto.
  - by eapply node_candidates_spec.
  - split; [done|]. exists K. split; [done|]. apply Forall_fmap, Forall_forall. by intros m _.
Qed.

(** [query_at] in a state that shows [v]. *)
Lemma query_at_shows U K v a segs spec i :
  view_wf v → shows U K v i →
  (query_at a segs spec i).2 =
  match view_cursor v a segs with
  | Err e => Err e
  | Ok c => Ok (query_reference spec
      ((λ k, (k, cand_json (S (size U)) v k)) <$> match c with Some c => view_candidates v c | None => [] end))
  end.
Proof.
  intros Hwf Hi. destruct (resolve_cursor_pure _ _ _ a segs i Hi) as [H1 H2].
  unfold query_at, mbind, M_bind. rewrite <-H1.
  destruct (resolve_cursor a segs i) as [i1 [c|e]]; cbn [fst snd] in *; [|done].
  destruct c as [c|]; unfold embed; cbn [fst snd].
  - destruct (query_candidates_spec _ _ _ c i1 H2) as [H3 (K' & H4 & H5)].
    rewrite H3. f_equal. by eapply evaluate_candidates_spec.
  - unfold mret, M_ret. cbn [fst snd]. f_equal. by eapply (evaluate_candidates_spec _ _ _ spec []).
Qed.


(** A database in memory meets the condition when no node stores an [$id]. *)
Lemma view_wf_memory i :
  storage_engine = None → graph_wf (nodes i) →
  map_Forall (λ _ st, fields st !! "$id" = None) (nodes i) → view_wf (view i).
Proof.
  intros He Hg Hid n. rewrite view_cases, He. destruct (nodes i !! n) as [st|] eqn:Hn.
  - rewrite orb_true_r. simpl. split; [by eauto|]. intros ? [= <-]. split; [by apply Hg|by apply (Hid n)].
  - by case_bool_decide.
Qed.
End query.

(** Ordering by a field of mixed types is not an order.  Two values of
different types compare as equal and the key decides, while two numbers compare
by value: with [2], ["x"] and [1] under the keys [a], [b] and [c], each comes
before the next in a circle, so there is no list a sort could produce. *)
Lemma query_order_cycle :
  let at_key k v := mkEvaluated (mkCandidate k (QNode k)) None (Some v) in
  let a := at_key "a" (JNumber (PosInt 2)) in
  let b := at_key "b" (JString "x") in
  let c := at_key "c" (JNumber (PosInt 1)) in
  ∀ path, let less x y := compare_evaluated_candidates x y (mkOrder path Asc) = Lt in
    less a b ∧ less b c ∧ less c a.
Proof. intros at_key a b c path less. unfold less. by vm_compute. Qed.
