(* ===== verification/IndexScan.v ===== *)
(** Scanning the scalar index of a segment store ([scan_direct_index_entries] of
[src/src/engine.rs]): which directories and buckets are read, in which order, and where
the scan stops.  The scan is proved to be a window of the matching entries in the order of
their rank, whatever names the directories have. *)
From stdpp Require Import base gmap sets list strings sorting.
From Stdlib Require Import ZArith Lia.
From S2P Require Import Prelude Clock Value Crdt OpQueue TopK Paths Records Keys Engine Segment Cells Query.

(** * What is asked for *)

Record DirectIndexScan := mkIndexScan {
  exact_sortable_key : option string;
  prefix_sortable_key : option string;
  ds_start_at : option string;
  ds_start_after : option string;
  ds_end_at : option string;
  ds_end_before : option string;
  ds_limit : option nat;
  ds_offset : nat;
  candidate_ids : option (gset string)
}.

Definition matches_sortable_key (scan : DirectIndexScan) (candidate : string) : bool :=
  match exact_sortable_key scan with
  | Some exact => bool_decide (candidate = exact)
  | None =>
      match prefix_sortable_key scan with Some p => starts_with candidate p | None => true end &&
      match ds_start_at scan with Some k => negb (ltb candidate k) | None => true end &&
      match ds_start_after scan with Some k => negb (leb candidate k) | None => true end &&
      match ds_end_at scan with Some k => negb (ltb k candidate) | None => true end &&
      match ds_end_before scan with Some k => negb (leb k candidate) | None => true end
  end.

Definition matches_candidate (scan : DirectIndexScan) (node : NodeId) : bool :=
  match candidate_ids scan with Some ids => bool_decide (node ∈ ids) | None => true end.

(** * Directories *)

(** A path seen from a directory it lies in. *)
Fixpoint relative (dir p : fpath) : option fpath :=
  match dir, p with
  | [], _ => Some p
  | x :: dir, y :: p => if decide (x = y) then relative dir p else None
  | _ :: _, [] => None
  end.

(** The directory right below [dir] that a file is in. *)
Definition subdir (dir p : fpath) : option string :=
  match relative dir p with Some (c :: _ :: _) => Some c | _ => None end.

(** The directories right below [dir]: those of the files, and [emptied], which removed
buckets have left behind. *)
Definition subdirs (emptied : list string) (dir : fpath) (d : Disk) : list string :=
  remove_dups (omap (subdir dir) (map_to_list (files d)).*1 ++ emptied).

Definition inside (dir p : fpath) : bool :=
  match relative dir p with Some (_ :: _) => true | _ => false end.

(** [collect_files] and [sort]. *)
Definition sorted_files (dir : fpath) (d : Disk) : list fpath :=
  merge_sort path_le (filter (λ p, inside dir p = true) (map_to_list (files d)).*1).

(** A directory of buckets with the rank in its name, unless the name is a hash. *)
Abbreviation bucket_dir := (fpath * option string)%type.

Definition option_cmp (l r : option string) : comparison :=
  match l, r with
  | None, None => Eq
  | None, Some _ => Lt
  | Some _, None => Gt
  | Some l, Some r => cmp l r
  end.

Definition dir_cmp (l r : bucket_dir) : comparison :=
  then_with (Bool.compare (bool_decide (l.2 = None)) (bool_decide (r.2 = None)))
    (then_with (option_cmp l.2 r.2) (cmp l.1 r.1)).

Definition dir_le (l r : bucket_dir) : Prop := dir_cmp l r ≠ Gt.

#[global] Instance dir_le_dec : RelDecision dir_le.
Proof. intros l r. unfold dir_le. apply _. Defined.

(** * The order of entries *)

Definition entry_cmp (dir : QueryDirection) (l r : DirectScalarIndexEntry) : comparison :=
  let ranks := cmp (ie_sortable l) (ie_sortable r) in
  then_with (match dir with Desc => CompOpp ranks | Asc => ranks end)
    (then_with (cmp (ie_node l) (ie_node r)) (cmp (ie_path l) (ie_path r))).

Definition entry_le (dir : QueryDirection) (l r : DirectScalarIndexEntry) : Prop := entry_cmp dir l r ≠ Gt.

#[global] Instance entry_le_dec dir : RelDecision (entry_le dir).
Proof. intros l r. unfold entry_le. apply _. Defined.

Definition sort_direct_index_entries (dir : QueryDirection) (l : list DirectScalarIndexEntry)
    : list DirectScalarIndexEntry := merge_sort (entry_le dir) l.

Definition apply_direct_index_window {A} (offset : nat) (limit : option nat) (l : list A) : list A :=
  if length l <=? offset then []
  else
    let l := drop offset l in
    match limit with Some n => take n l | None => l end.

(** * The scan *)

Section scan.
Context `{StoreEnv}.

(** A directory whose name shows a rank that is not asked for. *)
Definition passed_over (scan : DirectIndexScan) (name : string) : bool :=
  match literal_direct_index_component name with
  | Some key => negb (matches_sortable_key scan key)
  | None => false
  end.

Definition direct_index_scan_sortable_dirs (emptied : list string) (root : fpath) (scan : DirectIndexScan)
    : D (list bucket_dir) :=
  match exact_sortable_key scan with
  | Some exact =>
      let name := safe_direct_index_component exact in
      look (λ d, if bool_decide (name ∈ subdirs emptied root d) then [(root ++ [name], Some exact)] else [])
  | None =>
      look (λ d,
        merge_sort dir_le (omap (λ name,
          if passed_over scan name then None else Some (root ++ [name], literal_direct_index_component name))
          (subdirs emptied root d)))
  end.

Definition selected_entry (p : string) (scan : DirectIndexScan) (e : DirectScalarIndexEntry) : bool :=
  bool_decide (ie_path e = p) && matches_sortable_key scan (ie_sortable e) && matches_candidate scan (ie_node e).

Definition limit_reached (limit : option nat) (l : list DirectScalarIndexEntry) : bool :=
  match limit with Some n => n <=? length l | None => false end.

(** The loop over the selected entries of a bucket. *)
Fixpoint push_entries (limit : option nat) (l : list DirectScalarIndexEntry) (offset : nat)
    (entries : list DirectScalarIndexEntry) : nat * list DirectScalarIndexEntry :=
  match l with
  | [] => (offset, entries)
  | e :: rest =>
      match offset with
      | S o => push_entries limit rest o entries
      | O =>
          let entries := entries ++ [e] in
          if limit_reached limit entries then (O, entries) else push_entries limit rest O entries
      end
  end.

Definition bucket_entries (p : string) (scan : DirectIndexScan) (b : DirectIndexBucket)
    : list DirectScalarIndexEntry :=
  filter (λ e, selected_entry p scan e = true) (btree_list b).*2.

Definition collect_direct_index_entries_from_bucket (file : fpath) (p : string) (scan : DirectIndexScan)
    (limit : option nat) (acc : nat * list DirectScalarIndexEntry) : D (nat * list DirectScalarIndexEntry) :=
  bucket ← read_direct_index_bucket_path file;
  mret (push_entries limit (bucket_entries p scan bucket) acc.1 acc.2).

(** The loops over directories and files: over a directory's files, whether the limit
ended the scan, and over the directories. *)
Fixpoint scan_files (p : string) (scan : DirectIndexScan) (limit : option nat) (fs : list fpath)
    (acc : nat * list DirectScalarIndexEntry) : D (bool * (nat * list DirectScalarIndexEntry)) :=
  match fs with
  | [] => mret (false, acc)
  | file :: rest =>
      acc ← collect_direct_index_entries_from_bucket file p scan limit acc;
      if limit_reached limit acc.2 then mret (true, acc) else scan_files p scan limit rest acc
  end.

Fixpoint scan_dirs (p : string) (dir : QueryDirection) (scan : DirectIndexScan) (limit : option nat)
    (dirs : list bucket_dir) (acc : nat * list DirectScalarIndexEntry) : D (list DirectScalarIndexEntry) :=
  match dirs with
  | [] => mret acc.2
  | (at_, _) :: rest =>
      found ← look (sorted_files at_);
      '(ended, acc) ← scan_files p scan limit (match dir with Desc => reverse found | Asc => found end) acc;
      if ended : bool then mret acc.2 else scan_dirs p dir scan limit rest acc
  end.

Definition scan_direct_index_entries (emptied : list string) (p : string) (dir : QueryDirection)
    (scan : DirectIndexScan) : D (list DirectScalarIndexEntry) :=
  let root := direct_index_root p in
  if bool_decide (ds_limit scan = Some 0) then mret []
  else
    dirs ← direct_index_scan_sortable_dirs emptied root scan;
    if existsb (λ x, bool_decide (x.2 = None)) dirs then
      entries ← scan_dirs p Asc scan None dirs (0, []);
      mret (apply_direct_index_window (ds_offset scan) (ds_limit scan) (sort_direct_index_entries dir entries))
    else
      scan_dirs p dir scan (ds_limit scan) (match dir with Desc => reverse dirs | Asc => dirs end)
        (ds_offset scan, []).
End scan.

(** * The loops are a window of a listing *)

Definition take_opt {A} (limit : option nat) (l : list A) : list A :=
  match limit with Some n => take n l | None => l end.

Lemma window_take {A} offset limit (l : list A) :
  apply_direct_index_window offset limit l = take_opt limit (drop offset l).
Proof.
  unfold apply_direct_index_window. destruct (Nat.leb_spec (length l) offset) as [Hl|Hl]; [|by destruct limit].
  rewrite drop_ge by done. destruct limit; simpl; [by rewrite take_nil|done].
Qed.

Section loops.
Context `{StoreEnv}.

(** What is still taken after [entries]. *)
Definition room (limit : option nat) (entries : list DirectScalarIndexEntry) : option nat :=
  (λ n, n - length entries) <$> limit.

Lemma push_entries_spec limit l offset entries : limit_reached limit entries = false →
  push_entries limit l offset entries =
    (offset - length l, entries ++ take_opt (room limit entries) (drop offset l)).
Proof.
  revert offset entries. induction l as [|e l IH]; intros offset entries Hr; cbn [push_entries].
  - rewrite drop_nil, Nat.sub_0_r. f_equal. destruct limit; simpl; by rewrite ?take_nil, app_nil_r.
  - destruct offset as [|o]; [|by rewrite IH]. cbn [drop length]. rewrite Nat.sub_0_l.
    destruct (limit_reached limit (entries ++ [e])) eqn:E.
    + f_equal. f_equal. unfold limit_reached, room in *. destruct limit as [n|]; [|done]. cbn.
      apply Nat.leb_gt in Hr. apply Nat.leb_le in E. rewrite length_app in E. simpl in E.
      replace (n - length entries) with 1 by lia. done.
    + rewrite IH by done. rewrite drop_0, Nat.sub_0_l, <-app_assoc. do 2 f_equal.
      unfold limit_reached, room in *. destruct limit as [n|]; [|done]. cbn.
      apply Nat.leb_gt in Hr, E. rewrite length_app in *. simpl in *.
      destruct (n - length entries) as [|k] eqn:Ek; [lia|]. cbn [take]. by replace (n - (length entries + 1)) with k by lia.
Qed.

Lemma reached_stops limit l offset entries more : limit_reached limit entries = false →
  limit_reached limit (entries ++ take_opt (room limit entries) (drop offset l)) = true →
  take_opt (room limit entries) (drop offset (l ++ more)) = take_opt (room limit entries) (drop offset l).
Proof.
  unfold limit_reached, room. destruct limit as [n|]; [|done]. cbn. intros Hn%Nat.leb_gt Hl%Nat.leb_le.
  rewrite length_app, length_take, length_drop in Hl. rewrite drop_app. rewrite take_app_le; [done|]. rewrite length_drop. lia.
Qed.

Lemma window_continues limit l offset entries more : limit_reached limit entries = false →
  limit_reached limit (entries ++ take_opt (room limit entries) (drop offset l)) = false →
  entries ++ take_opt (room limit entries) (drop offset (l ++ more)) =
    (entries ++ take_opt (room limit entries) (drop offset l)) ++
    take_opt (room limit (entries ++ take_opt (room limit entries) (drop offset l))) (drop (offset - length l) more).
Proof.
  intros Hn Hl. rewrite <-app_assoc. f_equal. rewrite drop_app. unfold limit_reached, room in *.
  destruct limit as [n|]; [|done]. cbn in *. apply Nat.leb_gt in Hn, Hl.
  rewrite length_app, length_take, length_drop in Hl. rewrite take_app_ge by (rewrite length_drop; lia).
  rewrite length_app, length_take, length_drop. rewrite (take_ge (drop offset l)) by (rewrite length_drop; lia).
  f_equal. f_equal. lia.
Qed.

(** The selected entries of a file. *)
Definition file_entries (p : string) (scan : DirectIndexScan) (d : Disk) (file : fpath) : list DirectScalarIndexEntry :=
  match files d !! file with Some (FileBucket b) => bucket_entries p scan b | _ => [] end.

(** A file of the index that can be read. *)
Definition is_bucket (d : Disk) (file : fpath) : Prop :=
  match files d !! file with Some (FileBucket _) => True | _ => False end.

Lemma scan_files_spec p scan limit fs d offset entries :
  limit_reached limit entries = false → Forall (is_bucket d) fs →
  let l := fs ≫= file_entries p scan d in
  let out := entries ++ take_opt (room limit entries) (drop offset l) in
  scan_files p scan limit fs (offset, entries) d = (d, Ok (limit_reached limit out, (offset - length l, out))).
Proof.
  intros Hr Hfs. cbv zeta. revert offset entries Hr. induction Hfs as [|f fs Hf Hfs IH]; intros offset entries Hr; cbn [scan_files].
  - change (([] : list fpath) ≫= file_entries p scan d) with ([] : list DirectScalarIndexEntry). rewrite drop_nil. simpl. rewrite Nat.sub_0_r. unfold mret, D_ret.
    assert (take_opt (room limit entries) ([] : list DirectScalarIndexEntry) = []) as -> by (destruct limit; simpl; by rewrite ?take_nil).
    by rewrite app_nil_r, Hr.
  - rewrite bind_cons. set (rest := fs ≫= file_entries p scan d) in *. unfold collect_direct_index_entries_from_bucket, read_direct_index_bucket_path, look, mbind, D_bind, mret, D_ret.
    unfold is_bucket in Hf. unfold file_entries. destruct (files d !! f) as [[]|] eqn:E; try done. cbn [fst snd].
    rewrite push_entries_spec by done. cbn [fst snd]. set (here := bucket_entries p scan _).
    destruct (limit_reached limit (entries ++ take_opt (room limit entries) (drop offset here))) eqn:El.
    + rewrite (reached_stops limit here offset entries _ Hr El), El.
      assert (offset - length (here ++ rest) = offset - length here) as ->; [|done].
      rewrite length_app. unfold limit_reached, room in *. destruct limit as [n|]; [|done]. cbn in *.
      apply Nat.leb_le in El. apply Nat.leb_gt in Hr. rewrite length_app, length_take, length_drop in El. lia.
    + pose proof (IH (offset - length here) _ El) as Hi. unfold mret, D_ret in Hi. rewrite Hi.
      by rewrite (window_continues limit here offset entries _ Hr El), length_app, Nat.sub_add_distr.
Qed.

Definition dir_listing (p : string) (dir : QueryDirection) (scan : DirectIndexScan) (d : Disk) (x : bucket_dir)
    : list DirectScalarIndexEntry :=
  (match dir with Desc => reverse (sorted_files x.1 d) | Asc => sorted_files x.1 d end) ≫= file_entries p scan d.

Lemma scan_dirs_spec p dir scan limit dirs d offset entries :
  limit_reached limit entries = false → Forall (λ x, Forall (is_bucket d) (sorted_files x.1 d)) dirs →
  scan_dirs p dir scan limit dirs (offset, entries) d =
    (d, Ok (entries ++ take_opt (room limit entries) (drop offset (dirs ≫= dir_listing p dir scan d)))).
Proof.
  intros Hr Hd. revert offset entries Hr. induction Hd as [|[at_ key] dirs Hx Hd IH]; intros offset entries Hr; cbn [scan_dirs].
  - change (([] : list bucket_dir) ≫= dir_listing p dir scan d) with ([] : list DirectScalarIndexEntry). rewrite drop_nil. unfold mret, D_ret. cbn.
    assert (take_opt (room limit entries) ([] : list DirectScalarIndexEntry) = []) as -> by (destruct limit; simpl; by rewrite ?take_nil).
    by rewrite app_nil_r.
  - rewrite bind_cons. set (rest := dirs ≫= dir_listing p dir scan d) in *. unfold look, mbind, D_bind. cbn [fst snd] in *.
    set (fs := match dir with Desc => _ | Asc => _ end).
    assert (Forall (is_bucket d) fs) as Hfs by (unfold fs; destruct dir; [done|by apply Forall_reverse]).
    rewrite (scan_files_spec p scan limit fs d offset entries Hr Hfs).
    change (fs ≫= file_entries p scan d) with (dir_listing p dir scan d (at_, key)). set (here := dir_listing p dir scan d (at_, key)).
    destruct (limit_reached limit (entries ++ take_opt (room limit entries) (drop offset here))) eqn:El.
    + unfold mret, D_ret. cbn [snd]. by rewrite (reached_stops limit here offset entries _ Hr El).
    + rewrite IH by done. by rewrite (window_continues limit here offset entries _ Hr El).
Qed.
End loops.

(** * Orders *)

Definition dir_key (x : bucket_dir) : Z * (list string * fpath) :=
  match x.2 with Some k => (0%Z, ([k], x.1)) | None => (1%Z, ([], x.1)) end.

Lemma dir_le_key x y : dir_le x y ↔ by_key_le dir_key x y.
Proof.
  unfold dir_le, by_key_le, ole. assert (dir_cmp x y = cmp (dir_key x) (dir_key y)) as ->; [|done].
  unfold dir_cmp, dir_key. destruct x as [p [k|]], y as [q [k'|]]; cbn; try done. by destruct (String.compare k k').
Qed.

(** The reverse of an order. *)
Record down (A : Type) := Down { undown : A }.
Arguments Down {_}.
Arguments undown {_}.

#[global] Program Instance down_ord `{TotalOrd A} : TotalOrd (down A) := {| cmp := λ x y, cmp (undown y) (undown x) |}.
Next Obligation. intros A HA [x] [y]. cbn. rewrite cmp_eq. naive_solver. Qed.
Next Obligation. intros A HA [x] [y]. cbn. apply cmp_opp. Qed.
Next Obligation. intros A HA [x] [y] [z]. cbn. eauto using cmp_lt_trans. Qed.

Definition asc_key (e : DirectScalarIndexEntry) : string * (string * string) := (ie_sortable e, (ie_node e, ie_path e)).
Definition desc_key (e : DirectScalarIndexEntry) : down string * (string * string) := (Down (ie_sortable e), (ie_node e, ie_path e)).

Lemma entry_le_asc x y : entry_le Asc x y ↔ by_key_le asc_key x y.
Proof. done. Qed.

Lemma entry_le_desc x y : entry_le Desc x y ↔ by_key_le desc_key x y.
Proof. unfold entry_le, by_key_le, ole, entry_cmp. cbn. by rewrite (String.compare_antisym (ie_sortable y) (ie_sortable x)). Qed.

(** The order of the ranks alone. *)
Definition rank_le (dir : QueryDirection) (x y : DirectScalarIndexEntry) : Prop :=
  match dir with Asc => ole (ie_sortable x) (ie_sortable y) | Desc => ole (ie_sortable y) (ie_sortable x) end.

Lemma ole_prod `{TotalOrd A, TotalOrd B} (p q : A * B) : ole p q → ole p.1 q.1.
Proof. unfold ole. cbn. by destruct (cmp p.1 q.1). Qed.

Lemma sorted_mono {A} (R R' : relation A) l : (∀ x y, R x y → R' x y) → StronglySorted R l → StronglySorted R' l.
Proof. intros HR. induction 1 as [|x l _ IH Hx]; constructor; [done|]. eapply Forall_impl; [exact Hx|apply HR]. Qed.

#[global] Instance entry_le_trans dir : Transitive (entry_le dir).
Proof. intros x y z. destruct dir; rewrite ?entry_le_asc, ?entry_le_desc; apply by_key_le_trans. Qed.

#[global] Instance entry_le_total dir : Total (entry_le dir).
Proof. intros x y. destruct dir; rewrite ?entry_le_asc, ?entry_le_desc; apply by_key_le_total. Qed.

#[global] Instance dir_le_trans : Transitive dir_le.
Proof. intros x y z. rewrite !dir_le_key. apply by_key_le_trans. Qed.

#[global] Instance dir_le_total : Total dir_le.
Proof. intros x y. rewrite !dir_le_key. apply by_key_le_total. Qed.

Lemma sort_entries_ranked dir l : StronglySorted (rank_le dir) (sort_direct_index_entries dir l).
Proof.
  eapply sorted_mono; [|apply (StronglySorted_merge_sort (entry_le dir)); apply _]. intros x y. destruct dir.
  - rewrite entry_le_asc. intros Hxy%ole_prod. exact Hxy.
  - rewrite entry_le_desc. intros Hxy%ole_prod. exact Hxy.
Qed.

Lemma sorted_bind {A B} (R : relation A) (R' : relation B) (f : A → list B) l :
  StronglySorted R l → (∀ x, x ∈ l → StronglySorted R' (f x)) →
  (∀ x y a b, x ∈ l → y ∈ l → R x y → a ∈ f x → b ∈ f y → R' a b) → StronglySorted R' (l ≫= f).
Proof.
  induction 1 as [|x l Hl IH Hx]; intros Hf HR; [constructor|]. rewrite bind_cons. apply StronglySorted_app_2.
  - intros a b Ha (y & Hb & Hy)%list_elem_of_bind. rewrite Forall_forall in Hx. eapply (HR x y); set_solver.
  - apply Hf. set_solver.
  - apply IH; [|intros y z a b Hy Hz; apply HR]; set_solver.
Qed.

Lemma sorted_reverse {A} (R : relation A) l : Transitive R → StronglySorted R l → StronglySorted (flip R) (reverse l).
Proof.
  intros HR Hl. apply Sorted_StronglySorted; [intros x y z; unfold flip; intros; by etrans|].
  by apply Sorted_reverse, StronglySorted_Sorted.
Qed.

Lemma sorted_equal {A} (R : relation A) l : (∀ x y, x ∈ l → y ∈ l → R x y) → StronglySorted R l.
Proof.
  induction l as [|x l IH]; intros HR; constructor; [apply IH; set_solver|]. apply Forall_forall. set_solver.
Qed.

(** * What the buckets hold *)

Section contents.
Context `{StoreEnv}.

Definition stored_entry (d : Disk) (e : DirectScalarIndexEntry) : Prop :=
  ∃ p b k, files d !! p = Some (FileBucket b) ∧ b !! k = Some e.

(** Every entry is in the bucket its key names, under the key made of its parts. *)
Definition placed (d : Disk) : Prop :=
  ∀ p b k e, files d !! p = Some (FileBucket b) → b !! k = Some e →
    p = direct_index_path k ∧ k = direct_index_key (ie_path e) (ie_sortable e) (ie_node e) ∧
    free_of "/" (ie_sortable e) = true.

(** No file below the root of a path is anything but a bucket. *)
Definition only_buckets (d : Disk) (p : string) : Prop :=
  ∀ q, inside (direct_index_root p) q = true → is_Some (files d !! q) → is_bucket d q.

Lemma relative_app dir rest : relative dir (dir ++ rest) = Some rest.
Proof. induction dir as [|x dir IH]; [done|]. simpl. by rewrite decide_True. Qed.

Lemma relative_Some dir p rest : relative dir p = Some rest → p = dir ++ rest.
Proof.
  revert p. induction dir as [|x dir IH]; intros p; simpl; [by intros [= ->]|].
  destruct p as [|y p]; [done|]. case_decide as E; [|done]. intros Hp%IH. by subst.
Qed.

Lemma inside_inv dir p : inside dir p = true → ∃ c rest, p = dir ++ c :: rest.
Proof. unfold inside. destruct (relative dir p) as [[|c rest]|] eqn:E; try done. intros _. apply relative_Some in E. eauto. Qed.

Lemma inside_cons dir c rest : inside dir (dir ++ c :: rest) = true.
Proof. unfold inside. by rewrite relative_app. Qed.

Lemma elem_sorted_files dir d p : p ∈ sorted_files dir d ↔ inside dir p = true ∧ is_Some (files d !! p).
Proof.
  unfold sorted_files. rewrite merge_sort_Permutation, list_elem_of_filter, list_elem_of_fmap. split; intros [Hi Hp]; (split; [done|]).
  - destruct Hp as ([q c] & -> & Hc). apply elem_of_map_to_list in Hc. by eexists.
  - destruct Hp as [c Hc]. exists (p, c). split; [done|]. by apply elem_of_map_to_list.
Qed.

Lemma sorted_files_NoDup dir d : NoDup (sorted_files dir d).
Proof. unfold sorted_files. rewrite merge_sort_Permutation. apply NoDup_filter, NoDup_fst_map_to_list. Qed.

Lemma bucket_path p s n : free_of "/" s = true →
  direct_index_path (direct_index_key p s n) =
    direct_index_root p ++ [safe_direct_index_component s; json_file (safe_direct_index_component (encode_component n))].
Proof. intros Hs. unfold direct_index_path, direct_index_key_parts. by rewrite direct_index_key_split. Qed.

(** A name that is not a hash shows the rank. *)
Lemma literal_rank s k : literal_direct_index_component (safe_direct_index_component s) = Some k → k = s.
Proof.
  unfold literal_direct_index_component, safe_direct_index_component. intros Hk. apply strip_prefix_Some in Hk. case_match.
  - symmetry. by eapply str_app_inj_l.
  - rewrite !str_app_cons in Hk. by injection Hk.
Qed.

Lemma elem_file_entries p scan d q e :
  e ∈ file_entries p scan d q ↔ (∃ b k, files d !! q = Some (FileBucket b) ∧ b !! k = Some e) ∧ selected_entry p scan e = true.
Proof.
  unfold file_entries, bucket_entries. destruct (files d !! q) as [c|] eqn:E; [|set_solver].
  destruct c; rewrite ?list_elem_of_filter, ?list_elem_of_fmap; try (split; [set_solver|naive_solver]).
  split.
  - intros [Hs ([k x] & -> & Hk%elem_of_btree_list)]. eauto.
  - intros [(b & k & [= <-] & Hk) Hs]. split; [done|]. exists (k, e). split; [done|]. by apply elem_of_btree_list.
Qed.

Lemma file_entries_NoDup p scan d q : placed d → NoDup (file_entries p scan d q).
Proof.
  intros Hp. unfold file_entries, bucket_entries. destruct (files d !! q) as [[]|] eqn:E; try constructor.
  apply NoDup_filter. eapply NoDup_fmap_2_strong; [|eapply NoDup_fmap_1; apply btree_keys_NoDup].
  intros [k e] [k' e'] Hk%elem_of_btree_list Hk'%elem_of_btree_list. cbn. intros <-.
  destruct (Hp _ _ _ _ E Hk) as (_ & -> & _). by destruct (Hp _ _ _ _ E Hk') as (_ & -> & _).
Qed.

Lemma elem_subdirs emptied root d name c rest x :
  files d !! (root ++ name :: c :: rest) = Some x → name ∈ subdirs emptied root d.
Proof.
  intros Hx. unfold subdirs. rewrite elem_of_remove_dups, elem_of_app. left. apply list_elem_of_omap.
  exists (root ++ name :: c :: rest). split; [|unfold subdir; by rewrite relative_app].
  apply list_elem_of_fmap. exists (root ++ name :: c :: rest, x). split; [done|]. by apply elem_of_map_to_list.
Qed.

(** The directories of a scan. *)
Definition scan_dirs_of (emptied : list string) (p : string) (scan : DirectIndexScan) (d : Disk) : list bucket_dir :=
  match (direct_index_scan_sortable_dirs emptied (direct_index_root p) scan d).2 with Ok l => l | Err _ => [] end.

Lemma dirs_run emptied p scan d :
  direct_index_scan_sortable_dirs emptied (direct_index_root p) scan d = (d, Ok (scan_dirs_of emptied p scan d)).
Proof. unfold scan_dirs_of, direct_index_scan_sortable_dirs, look. by destruct (exact_sortable_key scan). Qed.

(** Each is the directory of a name, and its entries have the rank it shows. *)
Lemma elem_scan_dirs emptied p scan d x : x ∈ scan_dirs_of emptied p scan d →
  ∃ name, x.1 = direct_index_root p ++ [name] ∧
    (x.2 = literal_direct_index_component name ∨ exact_sortable_key scan = x.2).
Proof.
  unfold scan_dirs_of, direct_index_scan_sortable_dirs, look. destruct (exact_sortable_key scan) as [exact|]; cbn [snd].
  - case_bool_decide; [|set_solver]. intros ->%list_elem_of_singleton. cbn. eauto.
  - rewrite merge_sort_Permutation, list_elem_of_omap. intros (name & _ & E). exists name. destruct (passed_over scan name); [done|]. injection E as <-. cbn. auto.
Qed.

Lemma scan_dirs_distinct emptied p scan d : NoDup (scan_dirs_of emptied p scan d).*1.
Proof.
  unfold scan_dirs_of, direct_index_scan_sortable_dirs, look. destruct (exact_sortable_key scan) as [exact|]; cbn [snd].
  - case_bool_decide; [apply NoDup_singleton|constructor].
  - rewrite merge_sort_Permutation. assert (NoDup (subdirs emptied (direct_index_root p) d)) as Hs by apply NoDup_remove_dups.
    induction Hs as [|name l Hn Hl IH]; [constructor|]. cbn. destruct (passed_over scan name); [done|]. cbn.
    constructor; [|done]. intros ([q lit] & E & Hq)%list_elem_of_fmap. apply list_elem_of_omap in Hq as (n & Hin & En).
    destruct (passed_over scan n); [done|]. injection En as <- <-. cbn in E.
    injection E as <-. done.
Qed.

(** No directory that holds a matching entry is left out. *)
Lemma scan_dirs_complete emptied p scan d e : placed d → stored_entry d e → selected_entry p scan e = true →
  ∃ x q b k, x ∈ scan_dirs_of emptied p scan d ∧ q ∈ sorted_files x.1 d ∧ files d !! q = Some (FileBucket b) ∧ b !! k = Some e.
Proof.
  intros Hp (q & b & k & Hq & Hk) He. destruct (Hp _ _ _ _ Hq Hk) as (Eq & Ek & Hf).
  unfold selected_entry in He. rewrite !andb_true_iff, bool_decide_eq_true in He. destruct He as [[He Hm] _].
  rewrite Ek, bucket_path, He in Eq by done. set (name := safe_direct_index_component (ie_sortable e)) in *.
  assert (name ∈ subdirs emptied (direct_index_root p) d) as Hn by (by eapply elem_subdirs; rewrite <-Eq).
  assert (∃ x, x ∈ scan_dirs_of emptied p scan d ∧ x.1 = direct_index_root p ++ [name]) as (x & Hx & Ex).
  { unfold scan_dirs_of, direct_index_scan_sortable_dirs, look, matches_sortable_key in *.
    destruct (exact_sortable_key scan) as [exact|] eqn:Ee; cbn [snd].
    - rewrite bool_decide_eq_true in Hm. subst exact. exists (direct_index_root p ++ [name], Some (ie_sortable e)).
      rewrite bool_decide_eq_true_2 by done. split; [by apply list_elem_of_singleton|done].
    - exists (direct_index_root p ++ [name], literal_direct_index_component name). split; [|done].
      rewrite merge_sort_Permutation, list_elem_of_omap. exists name. split; [done|]. unfold passed_over, matches_sortable_key.
      destruct (literal_direct_index_component name) as [key|] eqn:El; [|done]. apply literal_rank in El as ->. by rewrite Ee, Hm. }
  exists x, q, b, k. split_and!; try done. apply elem_sorted_files. rewrite Ex. split; [|by rewrite Hq].
  rewrite Eq. change [name; ?z] with ([name] ++ [z]). rewrite app_assoc. apply inside_cons.
Qed.
End contents.

(** * The scan is a window of the matching entries, by rank *)

Section exact.
Context `{StoreEnv}.

(** A window of the entries of an index, in the order of their ranks. *)
Definition ranked_window (index : DirectScalarIndexEntry → Prop) (p : string) (dir : QueryDirection)
    (scan : DirectIndexScan) (l : list DirectScalarIndexEntry) : Prop :=
  ∃ full, NoDup full ∧ (∀ e, e ∈ full ↔ index e ∧ selected_entry p scan e = true) ∧
    StronglySorted (rank_le dir) full ∧ l = take_opt (ds_limit scan) (drop (ds_offset scan) full).

Lemma elem_dir_listing p dir scan d x e :
  e ∈ dir_listing p dir scan d x ↔ ∃ q, q ∈ sorted_files x.1 d ∧ e ∈ file_entries p scan d q.
Proof. unfold dir_listing. rewrite list_elem_of_bind. destruct dir; [set_solver|]. setoid_rewrite elem_of_reverse. set_solver. Qed.

Lemma dir_listing_NoDup p dir scan d x : placed d → NoDup (dir_listing p dir scan d x).
Proof.
  intros Hp. unfold dir_listing. apply NoDup_bind.
  - intros q q' e _ _ [(b & k & Hq & Hk) _]%elem_file_entries [(b' & k' & Hq' & Hk') _]%elem_file_entries.
    destruct (Hp _ _ _ _ Hq Hk) as (-> & -> & _). by destruct (Hp _ _ _ _ Hq' Hk') as (-> & -> & _).
  - intros q _. by apply file_entries_NoDup.
  - destruct dir; [apply sorted_files_NoDup|rewrite reverse_Permutation; apply sorted_files_NoDup].
Qed.

Lemma inside_one dir name name' q : inside (dir ++ [name]) q = true → inside (dir ++ [name']) q = true → name = name'.
Proof.
  intros (c & r & ->)%inside_inv (c' & r' & E)%inside_inv. rewrite <-!app_assoc in E. by simplify_list_eq.
Qed.

Lemma listing_spec emptied p dir dirs scan d : placed d → dirs ≡ₚ scan_dirs_of emptied p scan d →
  NoDup (dirs ≫= dir_listing p dir scan d) ∧
  ∀ e, e ∈ dirs ≫= dir_listing p dir scan d ↔ stored_entry d e ∧ selected_entry p scan e = true.
Proof.
  intros Hp Hd. split.
  - apply NoDup_bind; [|intros; by apply dir_listing_NoDup|rewrite Hd; eapply NoDup_fmap_1, scan_dirs_distinct].
    intros x y e Hx Hy (q & Hq & [(b & k & Eq & Hk) _]%elem_file_entries)%elem_dir_listing
      (q' & Hq' & [(b' & k' & Eq' & Hk') _]%elem_file_entries)%elem_dir_listing.
    destruct (Hp _ _ _ _ Eq Hk) as (E & Ek & _). destruct (Hp _ _ _ _ Eq' Hk') as (E' & Ek' & _).
    rewrite Ek in E. rewrite Ek' in E'. rewrite <-E in E'. subst q'.
    rewrite Hd in Hx, Hy. destruct (elem_scan_dirs _ _ _ _ _ Hx) as (n & En & _), (elem_scan_dirs _ _ _ _ _ Hy) as (n' & En' & _).
    apply elem_sorted_files in Hq as [Hq _], Hq' as [Hq' _]. rewrite En in Hq. rewrite En' in Hq'.
    pose proof (inside_one _ _ _ _ Hq Hq') as <-. rewrite <-En' in En.
    apply list_elem_of_lookup in Hx as [i Hi], Hy as [j Hj]. assert (i = j) as ->; [|congruence].
    assert (∀ i z, scan_dirs_of emptied p scan d !! i = Some z → (scan_dirs_of emptied p scan d).*1 !! i = Some z.1) as Hz
      by (intros i' z Hz; by rewrite list_lookup_fmap, Hz).
    eapply NoDup_lookup; [apply (scan_dirs_distinct emptied p scan d)|by apply Hz|]. rewrite En. by apply Hz.
  - intros e. rewrite list_elem_of_bind. split.
    + intros (x & (q & _ & [(b & k & Hq & Hk) Hs]%elem_file_entries)%elem_dir_listing & _). split; [by exists q, b, k|done].
    + intros [He Hs]. destruct (scan_dirs_complete emptied p scan d e Hp He Hs) as (x & q & b & k & Hx & Hq & Hb & Hk).
      exists x. split; [|by rewrite Hd]. apply elem_dir_listing. exists q. split; [done|]. apply elem_file_entries. eauto.
Qed.

(** The rank of an entry is the one its directory shows. *)
Lemma dir_rank emptied p dir scan d x k e : placed d → x ∈ scan_dirs_of emptied p scan d → x.2 = Some k →
  e ∈ dir_listing p dir scan d x → ie_sortable e = k.
Proof.
  intros Hp Hx Hk (q & Hq & [(b & key & Eq & Hb) Hs]%elem_file_entries)%elem_dir_listing.
  destruct (elem_scan_dirs _ _ _ _ _ Hx) as (name & En & [El|Ee]).
  - destruct (Hp _ _ _ _ Eq Hb) as (E & Ek & Hf). rewrite Ek, bucket_path in E by done.
    apply elem_sorted_files in Hq as [Hq _]. rewrite En in Hq. apply inside_inv in Hq as (c & r & E'). rewrite E', <-app_assoc in E.
    injection E as _ E2 _ _. rewrite Hk, E2 in El. symmetry in El. by apply literal_rank in El.
  - unfold selected_entry, matches_sortable_key in Hs. rewrite Ee, Hk in Hs. rewrite !andb_true_iff, !bool_decide_eq_true in Hs. naive_solver.
Qed.

Lemma scan_dirs_sorted emptied p scan d : StronglySorted dir_le (scan_dirs_of emptied p scan d).
Proof.
  unfold scan_dirs_of, direct_index_scan_sortable_dirs, look. destruct (exact_sortable_key scan); cbn [snd].
  - case_bool_decide; repeat constructor.
  - apply (StronglySorted_merge_sort dir_le); apply _.
Qed.

Lemma dir_le_rank x y k k' : dir_le x y → x.2 = Some k → y.2 = Some k' → ole k k'.
Proof.
  unfold dir_le, dir_cmp, ole. intros Hxy Hx Hy. rewrite Hx, Hy in Hxy. cbn in *. by destruct (String.compare k k').
Qed.

Lemma listing_ranked emptied p dir scan d : placed d →
  existsb (λ x : bucket_dir, bool_decide (x.2 = None)) (scan_dirs_of emptied p scan d) = false →
  StronglySorted (rank_le dir)
    ((match dir with Desc => reverse (scan_dirs_of emptied p scan d) | Asc => scan_dirs_of emptied p scan d end) ≫= dir_listing p dir scan d).
Proof.
  intros Hp Hn. assert (∀ x, x ∈ scan_dirs_of emptied p scan d → ∃ k, x.2 = Some k) as Hk.
  { intros x Hx. destruct (x.2) as [k|] eqn:E; [by eexists|]. rewrite <-not_true_iff_false, existsb_exists in Hn.
    destruct Hn. exists x. split; [by apply list_elem_of_In|]. by apply bool_decide_eq_true_2. }
  pose proof (scan_dirs_sorted emptied p scan d) as Hs.
  assert (∀ x, x ∈ scan_dirs_of emptied p scan d → StronglySorted (rank_le dir) (dir_listing p dir scan d x)) as Hone.
  { intros x Hx. destruct (Hk x Hx) as [k Ek]. apply sorted_equal. intros a b Ha Hb.
    pose proof (dir_rank _ _ _ _ _ _ _ _ Hp Hx Ek Ha) as Ra. pose proof (dir_rank _ _ _ _ _ _ _ _ Hp Hx Ek Hb) as Rb.
    unfold rank_le. rewrite Ra, Rb. destruct dir; apply ole_refl. }
  destruct dir.
  - eapply sorted_bind; [exact Hs|done|]. intros x y a b Hx Hy Hxy Ha Hb. destruct (Hk x Hx) as [k Ek], (Hk y Hy) as [k' Ek'].
    unfold rank_le. rewrite (dir_rank _ _ _ _ _ _ _ _ Hp Hx Ek Ha), (dir_rank _ _ _ _ _ _ _ _ Hp Hy Ek' Hb). by eapply dir_le_rank.
  - eapply sorted_bind; [exact (sorted_reverse dir_le _ dir_le_trans Hs)|intros x; rewrite elem_of_reverse; apply Hone|].
    intros x y a b. rewrite !elem_of_reverse. intros Hx Hy Hxy Ha Hb. destruct (Hk x Hx) as [k Ek], (Hk y Hy) as [k' Ek'].
    unfold rank_le. rewrite (dir_rank _ _ _ _ _ _ _ _ Hp Hx Ek Ha), (dir_rank _ _ _ _ _ _ _ _ Hp Hy Ek' Hb). by eapply dir_le_rank.
Qed.

(** A scan of the index returns the matching entries in the order of their ranks, from
the offset on and up to the limit: neither leaving out directories by their name nor
stopping early loses an entry, and the fallback for hashed names gives the same. *)
Theorem scan_direct_index_exact emptied p dir scan d :
  placed d → only_buckets d p →
  ∃ l, scan_direct_index_entries emptied p dir scan d = (d, Ok l) ∧ ranked_window (stored_entry d) p dir scan l.
Proof.
  intros Hp Ho. unfold scan_direct_index_entries. set (dirs := scan_dirs_of emptied p scan d).
  assert (Forall (λ x : bucket_dir, Forall (is_bucket d) (sorted_files x.1 d)) dirs) as Hb.
  { apply Forall_forall. intros x Hx. apply Forall_forall. intros q [Hq Hs]%elem_sorted_files. apply Ho; [|done].
    destruct (elem_scan_dirs _ _ _ _ _ Hx) as (name & En & _). rewrite En in Hq. apply inside_inv in Hq as (c & r & ->).
    rewrite <-app_assoc. apply inside_cons. }
  destruct (listing_spec emptied p Asc dirs scan d Hp) as [Hnd He]; [done|].
  set (sorted := sort_direct_index_entries dir (dirs ≫= dir_listing p Asc scan d)).
  assert (sorted ≡ₚ dirs ≫= dir_listing p Asc scan d) as Hperm by apply merge_sort_Permutation.
  assert (ranked_window (stored_entry d) p dir scan (take_opt (ds_limit scan) (drop (ds_offset scan) sorted))) as Hsorted.
  { exists sorted. split_and!; [by rewrite Hperm|intros e; by rewrite Hperm|apply sort_entries_ranked|done]. }
  case_bool_decide as Ez.
  { exists []. split; [done|]. by rewrite Ez in Hsorted. }
  assert (limit_reached (ds_limit scan) [] = false) as Hl.
  { unfold limit_reached. destruct (ds_limit scan) as [[|n]|]; try done. }
  unfold mbind, D_bind. rewrite dirs_run. fold dirs. destruct (existsb _ dirs) eqn:Eh.
  - rewrite scan_dirs_spec by done. rewrite drop_0, app_nil_l. cbn [room fmap option_fmap option_map take_opt].
    eexists. split; [reflexivity|]. rewrite window_take. exact Hsorted.
  - assert (∀ l, l ≡ₚ dirs → Forall (λ x : bucket_dir, Forall (is_bucket d) (sorted_files x.1 d)) l) as Hperm' by (intros l ->; done).
    rewrite scan_dirs_spec by (first [done|apply Hperm'; destruct dir; [done|apply reverse_Permutation]]).
    eexists. split; [reflexivity|]. rewrite app_nil_l.
    set (full := _ ≫= dir_listing p dir scan d).
    destruct (listing_spec emptied p dir (match dir with Desc => reverse dirs | Asc => dirs end) scan d Hp) as [Hnd' He'];
      [destruct dir; [done|apply reverse_Permutation]|].
    exists full. split_and!; [done|done|by apply listing_ranked|]. unfold room. cbn. by destruct (ds_limit scan); cbn; rewrite ?Nat.sub_0_r.
Qed.
End exact.

(** * A store built by commits can be scanned *)

Section tidy.
Context `{StoreEnv, SegmentEnv} (store : SegmentFileStore).

(** Below [indexes] there are only buckets, with every entry in its place. *)
Definition tidy (d : Disk) : Prop :=
  placed d ∧ ∀ p, head p = Some "indexes" → is_Some (files d !! p) → is_bucket d p.

Definition fits (p : fpath) (c : content) : Prop :=
  match c with
  | FileBucket b => ∀ k e, b !! k = Some e → p = direct_index_path k ∧
      k = direct_index_key (ie_path e) (ie_sortable e) (ie_node e) ∧ free_of "/" (ie_sortable e) = true
  | _ => head p ≠ Some "indexes"
  end.

Definition tidies {A} (m : D A) : Prop := ∀ d d' a, tidy d → m d = (d', Ok a) → tidy d'.

Lemma tidy_fits d : tidy d ↔ ∀ p c, files d !! p = Some c → fits p c.
Proof.
  split.
  - intros [Hp Ho] p c Hc. destruct c; cbn.
    4: { intros k e Hk. by eapply Hp. }
    all: intros Hi; specialize (Ho p Hi); unfold is_bucket in Ho; rewrite Hc in Ho; by apply Ho.
  - intros Hf. split.
    + intros p b k e Hb Hk. exact (Hf _ _ Hb k e Hk).
    + intros p Hi [c Hc]. unfold is_bucket. rewrite Hc. specialize (Hf _ _ Hc). by destruct c.
Qed.

Lemma tidies_ret {A} (a : A) : tidies (mret a).
Proof. intros d d' a' Hd [= <- _]. done. Qed.

Lemma tidies_then {A B} (m : D A) (f : A → D B) :
  tidies m → (∀ d d' a, m d = (d', Ok a) → tidies (f a)) → tidies (m ≫= f).
Proof.
  intros Hm Hf d d' b Hd. unfold mbind, D_bind. destruct (m d) as [d1 [a|e]] eqn:E; [|done].
  apply (Hf _ _ _ E). by eapply Hm.
Qed.

Lemma tidies_bind {A B} (m : D A) (f : A → D B) : tidies m → (∀ a, tidies (f a)) → tidies (m ≫= f).
Proof. intros Hm Hf. apply tidies_then; [done|]. intros ? ? a _. apply Hf. Qed.

Lemma tidies_look {A} (f : Disk → A) : tidies (look f).
Proof. intros d d' a Hd [= <- _]. done. Qed.

Lemma tidies_for_each {A} (f : A → D unit) l : Forall (λ x, tidies (f x)) l → tidies (for_each f l).
Proof. induction 1 as [|x l Hx Hl IH]; cbn [for_each]; [apply tidies_ret|]. by apply tidies_bind. Qed.

Lemma change_ok f d d' u : change f d = (d', Ok u) → files d' = f (files d).
Proof. unfold change. destruct (faults d) as [[|n]|]; intros [= <-]; done. Qed.

Lemma write_file_ok p c mode d d' u : write_file store p c mode d = (d', Ok u) →
  files d' = <[p := c]> (<[p := FileOther ""]> (files d)) ∨
  files d' = <[p := c]> (delete (temp_path_for p (temp_counter d))
    (<[temp_path_for p (temp_counter d) := c]> (<[temp_path_for p (temp_counter d) := FileOther ""]> (files d)))).
Proof.
  unfold write_file. set (b := match mode with Configured => _ | _ => _ end).
  unfold mbind, D_bind, next_temp.
  assert (∀ t d d' u, (let '(d', r) := change <[t := FileOther ""]> d in match r with Ok _ =>
     (let '(d', r) := change <[t := c]> d' in match r with Ok _ => change (λ fs, <[p := c]> (delete t fs)) d' | Err e => (d', Err e) end)
     | Err e => (d', Err e) end) = (d', Ok u) →
     files d' = <[p := c]> (delete t (<[t := c]> (<[t := FileOther ""]> (files d))))) as Htemp.
  { intros t d0 d1 u1. destruct (change <[t := FileOther ""]> d0) as [d2 [[]|e]] eqn:E1; [|done].
    destruct (change <[t := c]> d2) as [d3 [[]|e]] eqn:E2; [|done]. intros E3%change_ok. apply change_ok in E1, E2. by rewrite E3, E2, E1. }
  destruct b, (durability store); try (intros E; right; by apply (Htemp _ _ _ _ E)).
  destruct (change <[p := FileOther ""]> d) as [d1 [[]|e]] eqn:E1; [|done]. intros E2%change_ok. apply change_ok in E1. left. by rewrite E2, E1.
Qed.

Lemma tidies_write p c mode : fits p c → tidies (write_file store p c mode).
Proof.
  intros Hf d d' u Hd Hw. rewrite tidy_fits in *. intros q x Hq.
  apply write_file_ok in Hw as [E|E]; rewrite E in Hq; apply lookup_insert_Some in Hq as [[<- <-]|[Hne Hq]]; try done.
  - rewrite lookup_insert_ne in Hq by done. by apply Hd.
  - apply lookup_delete_Some in Hq as [Ht Hq]. rewrite !lookup_insert_ne in Hq by done. by apply Hd.
Qed.

Lemma tidies_remove p : tidies (remove_file p).
Proof.
  unfold remove_file. apply tidies_bind; [apply tidies_look|]. intros []; [|apply tidies_ret]. apply tidies_bind; [|intros; apply tidies_ret].
  intros d d' u Hd E%change_ok. rewrite tidy_fits in *. rewrite E. intros q x [_ Hq]%lookup_delete_Some. by apply Hd.
Qed.

Lemma tidies_ignore {A} (m : D A) : (∀ d, tidy d → tidy (m d).1) → tidies (ignore m).
Proof. intros Hm d d' u Hd [= <- _]. by apply Hm. Qed.

Lemma remove_keeps p d : tidy d → tidy (remove_file p d).1.
Proof.
  intros Hd. destruct (remove_file p d) as [d' [b|e]] eqn:E; [by eapply tidies_remove|]. cbn.
  unfold remove_file, mbind, D_bind, file_exists, look, change in E. case_bool_decide; [|done]. by destruct (faults d) as [[|]|]; simplify_eq.
Qed.

Lemma tidies_rename from to : head from ≠ Some "indexes" → head to ≠ Some "indexes" → tidies (rename from to).
Proof.
  intros Hfrom Hto. unfold rename. intros d d' u Hd. unfold mbind, D_bind, look.
  destruct (files d !! from) as [c|] eqn:Ec; [|done]. intros E%change_ok. rewrite tidy_fits in *. rewrite E.
  intros q x [[<- <-]|[_ [_ Hq]%lookup_delete_Some]]%lookup_insert_Some; [|by apply Hd].
  specialize (Hd _ _ Ec). destruct c; cbn in *; try done. intros k e Hk. destruct (Hd k e Hk) as [-> _].
  destruct Hfrom. apply direct_index_path_shape.
Qed.

(** A transaction whose index is keyed by the parts of its entries. *)
Definition keyed_tx (t : StorageTransaction) : Prop :=
  ∀ k e, tx_direct_indexes t !! k = Some e →
    k = direct_index_key (ie_path e) (ie_sortable e) (ie_node e) ∧ free_of "/" (ie_sortable e) = true.

Definition open_fit (bs : gmap fpath (DirectIndexBucket * bool)) : Prop := ∀ p b, bs !! p = Some b → fits p (FileBucket b.1).

Lemma open_bucket_fits p bs d d' b : tidy d → open_fit bs → open_bucket p bs d = (d', Ok b) →
  d' = d ∧ fits p (FileBucket b.1).
Proof.
  intros Hd Hb. unfold open_bucket. destruct (bs !! p) as [x|] eqn:E; [intros [= <- <-]; eauto|].
  unfold mbind, D_bind, read_direct_index_bucket_path, look, mbind, D_bind, dfail, mret, D_ret. rewrite tidy_fits in Hd.
  destruct (files d !! p) as [[]|] eqn:Ef; cbn; intros Eo; simplify_eq; (split; [done|]).
  - exact (Hd _ _ Ef).
  - intros k e. cbn. by rewrite lookup_empty.
Qed.

Lemma fold_buckets_fits f keys bs d d' bs' : tidy d →
  (∀ bs k d d' bs', tidy d → open_fit bs → f bs k d = (d', Ok bs') → d' = d ∧ open_fit bs') →
  open_fit bs → fold_buckets f keys bs d = (d', Ok bs') → d' = d ∧ open_fit bs'.
Proof.
  intros Hd Hf. revert bs. induction keys as [|k keys IH]; intros bs Hb; cbn [fold_buckets]; [by intros [= <- <-]|].
  unfold mbind, D_bind. destruct (f bs k d) as [d1 [bs1|e]] eqn:E; [|done]. destruct (Hf _ _ _ _ _ Hd Hb E) as [-> Hb1]. by apply IH.
Qed.

Lemma open_fit_insert p b bs : open_fit bs → fits p (FileBucket b.1) → open_fit (<[p := b]> bs).
Proof. intros Hb Hp q x [[<- <-]|[_ Hq]]%lookup_insert_Some; [done|by apply Hb]. Qed.

Lemma tidies_index p mode : keyed_tx (pl_transaction p) → tidies (materialize_direct_index_changes store p mode).
Proof.
  intros Ht d d' u Hd. unfold materialize_direct_index_changes, mbind, D_bind.
  destruct (fold_buckets remove_from_bucket _ _ d) as [d1 [bs1|e]] eqn:E1; [|done].
  assert (d1 = d ∧ open_fit bs1) as [-> Hb1].
  { eapply fold_buckets_fits; [done| | |exact E1].
    - intros bs k d2 d3 bs' H2 Hbs. unfold remove_from_bucket, mbind, D_bind.
      destruct (open_bucket _ bs d2) as [d4 [b|e]] eqn:E; [|done]. destruct (open_bucket_fits _ _ _ _ _ H2 Hbs E) as [-> Hf].
      intros [= <- <-]. split; [done|]. apply open_fit_insert; [done|]. case_decide; [|done]. cbn.
      intros k' e' [_ ?]%lookup_delete_Some. by apply Hf.
    - intros q b Hq. by rewrite lookup_empty in Hq. }
  destruct (fold_buckets (insert_into_bucket _) _ _ d) as [d1 [bs2|e]] eqn:E2; [|done].
  assert (d1 = d ∧ open_fit bs2) as [-> Hb2].
  { eapply fold_buckets_fits; [done| |exact Hb1|exact E2]. intros bs k d2 d3 bs' H2 Hbs. unfold insert_into_bucket, mbind, D_bind.
    destruct (tx_direct_indexes (pl_transaction p) !! k) as [entry|] eqn:Ek; [|by intros [= <- <-]].
    destruct (open_bucket _ bs d2) as [d4 [b|e]] eqn:E; [|done]. destruct (open_bucket_fits _ _ _ _ _ H2 Hbs E) as [-> Hf].
    intros [= <- <-]. split; [done|]. apply open_fit_insert; [done|]. case_decide; [done|]. cbn.
    intros k' e' [[<- <-]|[_ ?]]%lookup_insert_Some; [|by apply Hf]. split; [done|by apply Ht]. }
  apply tidies_for_each; [|done]. apply Forall_forall. intros [q [b changed]] Hq.
  rewrite merge_sort_Permutation, elem_of_map_to_list in Hq. specialize (Hb2 _ _ Hq). cbn [write_bucket].
  destruct changed; [|apply tidies_ret]. cbn [negb]. case_decide; [|by apply tidies_write].
  apply tidies_bind; [apply tidies_look|]. intros []; [|apply tidies_ret]. apply tidies_bind; [apply tidies_remove|intros; apply tidies_ret].
Qed.

Lemma tidies_materialize p mode : keyed_tx (pl_transaction p) → tidies (materialize_commit_payload_with_mode store p mode).
Proof.
  intros Ht. unfold materialize_commit_payload_with_mode.
  repeat (apply tidies_bind; [|intros _]); try (apply tidies_for_each, Forall_forall; intros x _).
  all: try (apply tidies_write; cbn; done).
  - by apply tidies_index.
  - apply tidies_bind; [apply tidies_remove|intros; apply tidies_ret].
Qed.

Lemma removals_read l d : (collect_removals l d).1 = d.
Proof.
  induction l as [|x l IH]; [done|]. cbn [collect_removals].
  unfold mbind, D_bind, manifest_removals, load_node_index_manifest, look, mbind, D_bind.
  destruct (files d !! node_index_manifest_path x.1) as [[]|]; cbn; try done; by destruct (collect_removals l d) as [? []].
Qed.

Lemma tidies_payload t : tidies (build_commit_payload t).
Proof.
  unfold build_commit_payload. apply tidies_bind; [|intros; apply tidies_ret].
  intros d d' a Hd E. pose proof (removals_read (btree_list (tx_node_indexes t)) d) as Er. rewrite E in Er. cbn in Er. by subst.
Qed.

Lemma payload_transaction t d d' p : build_commit_payload t d = (d', Ok p) → pl_transaction p = t.
Proof.
  unfold build_commit_payload, mbind, D_bind. destruct (collect_removals _ d) as [d1 [r|e]]; [|done]. by intros [= _ <-].
Qed.

Lemma tidies_prune : tidies (prune_journal store).
Proof.
  unfold prune_journal. destruct (durability store); try apply tidies_ret.
  all: apply tidies_bind; [|intros; apply tidies_ret]; unfold prune_journal_with_report; apply tidies_bind; [apply tidies_look|]; intros names.
  all: case_match; [apply tidies_ret|]; apply tidies_bind; [|intros; apply tidies_ret].
  all: apply tidies_for_each, Forall_forall; intros q _; apply tidies_ignore, remove_keeps.
Qed.

(** A commit that succeeds leaves a store that can be scanned. *)
Lemma tidies_commit t : keyed_tx t → tidies (apply_transaction store t).
Proof.
  intros Ht. unfold apply_transaction. apply tidies_then; [apply tidies_payload|]. intros d0 d1 p <-%payload_transaction.
  apply tidies_then.
  { unfold write_pending_commit. apply tidies_bind; [by apply tidies_write|intros; apply tidies_ret]. }
  intros d2 d3 pending Hp. apply tidies_bind; [by apply tidies_materialize|]. intros _.
  apply tidies_bind; [|intros _; apply tidies_prune]. apply tidies_rename; [|done].
  unfold write_pending_commit, mbind, D_bind in Hp. destruct (write_file _ _ _ _ d2) as [d4 [[]|e]]; [|done]. by injection Hp as _ <-.
Qed.

(** The stores made by commits from an empty one. *)
Inductive committed_store : Disk → Prop :=
  | store_empty d : files d = ∅ → committed_store d
  | store_commit d d' t : committed_store d → keyed_tx t → apply_transaction store t d = (d', Ok tt) → committed_store d'.

Lemma committed_tidy d : committed_store d → tidy d.
Proof.
  induction 1 as [d E|d d' t _ IH Ht E]; [|by eapply tidies_commit]. rewrite tidy_fits, E. intros p c. by rewrite lookup_empty.
Qed.

Lemma tidy_scannable d p : tidy d → placed d ∧ only_buckets d p.
Proof. intros [Hp Ho]. split; [done|]. intros q (c & r & ->)%inside_inv Hq. by apply Ho. Qed.
End tidy.

(** * Ranks *)

(** An entry carries the rank of its value. *)
Definition ranked (e : DirectScalarIndexEntry) : Prop := sortable_scalar_key (ie_value e) = Some (ie_sortable e).

Lemma hex_width_free w n : (0 ≤ n < 16 ^ Z.of_nat w)%Z → free_of "/" (hex_width w n) = true.
Proof.
  revert n. induction w as [|w IH]; intros n Hn; [done|]. cbn [hex_width free_of].
  rewrite Nat2Z.inj_succ, Z.pow_succ_r in Hn by lia. set (p := (16 ^ Z.of_nat w)%Z) in *.
  assert (0 < p)%Z by (apply Z.pow_pos_nonneg; lia).
  rewrite IH by (apply Z.mod_pos_bound; lia). rewrite andb_true_r. apply bool_decide_eq_true_2, hex_digit_free.
  split; [apply Z.div_pos; lia|apply Z.div_lt_upper_bound; lia].
Qed.

(** Numbers a rank keeps in order: finite doubles other than negative zero. *)
Definition sane (v : json) : bool :=
  match v with
  | JNumber n => is_f64 (as_f64 n) && match as_f64 n with SpecFloat.S754_zero s => negb s | _ => true end
  | _ => true
  end.

Lemma compare_prefix p s t : String.compare (p +:+ s) (p +:+ t) = String.compare s t.
Proof.
  induction p as [|a p IH]; [done|]. rewrite !str_app_cons. cbn [String.compare]. unfold Ascii.compare. by rewrite N.compare_refl.
Qed.

(** The ranks of two comparable values compare as the values do. *)
Lemma rank_compare v w k k' c : sane v = true → sane w = true → compare_json_values v w = Some c →
  sortable_scalar_key v = Some k → sortable_scalar_key w = Some k' → String.compare k k' = c.
Proof.
  intros Hv Hw Hc Hk Hk'. destruct v as [|b|n|s|l|o], w as [|b'|n'|s'|l'|o']; cbn [compare_json_values] in Hc; try discriminate Hc;
    apply (inj Some) in Hk as <-; apply (inj Some) in Hk' as <-.
  - injection Hc as <-. done.
  - injection Hc as <-. by destruct b, b'.
  - cbn [sane] in Hv, Hw. apply andb_true_iff in Hv as [Fv Zv], Hw as [Fw Zw].
    rewrite compare_prefix, hex_width_compare by (by apply sortable_bits_width).
    destruct (both_zero (as_f64 n) (as_f64 n')) eqn:Ez; [|rewrite (sortable_bits_compare _ _ Fv Fw Ez) in Hc; by apply (inj Some) in Hc].
    destruct (as_f64 n) as [[]| | |], (as_f64 n') as [[]| | |]; try discriminate; apply (inj Some) in Hc as <-; apply Z.compare_refl.
  - rewrite compare_prefix, encode_component_order. by apply (inj Some) in Hc.
Qed.

Lemma comparable_ranked v w c : compare_json_values v w = Some c → is_Some (sortable_scalar_key v) ∧ is_Some (sortable_scalar_key w).
Proof. destruct v, w; cbn [compare_json_values sortable_scalar_key]; intros E; try discriminate E; eauto. Qed.

(** Equal values have the same rank. *)
Lemma rank_equal v w k : sane v = true → sane w = true → json_eqb v w = true →
  sortable_scalar_key v = Some k → sortable_scalar_key w = Some k.
Proof.
  intros Hv Hw He Hk. destruct v as [|b|n|s|l|o], w as [|b'|n'|s'|l'|o']; try discriminate He; try done.
  - cbn in He. by apply eqb_prop in He as ->.
  - rewrite <-Hk. cbn [sane json_eqb sortable_scalar_key] in *. apply andb_true_iff in Hv as [Fv Zv], Hw as [Fw Zw].
    destruct n as [a|a|f], n' as [b|b|g]; try discriminate He; cbn [number_eqb] in He.
    + by apply Z.eqb_eq in He as ->.
    + by apply Z.eqb_eq in He as ->.
    + unfold SpecFloat.SFeqb in He. destruct (SpecFloat.SFcompare f g) as [[]|] eqn:E; try discriminate He. cbn [as_f64] in *.
      destruct (both_zero f g) eqn:Ez.
      { destruct f as [[]| | |], g as [[]| | |]; done. }
      rewrite (sortable_bits_compare _ _ Fv Fw Ez) in E. apply (inj Some), Z.compare_eq_iff in E. by rewrite E.
  - cbn in He. apply bool_decide_eq_true in He. by subst.
Qed.

Section built.
Context `{StoreEnv}.

Lemma rank_free v k : sane v = true → sortable_scalar_key v = Some k → free_of "/" k = true.
Proof.
  intros Hv. destruct v as [|b|n|s|l|o]; cbn [sortable_scalar_key sane] in *; intros Hk; try discriminate Hk; apply (inj Some) in Hk as <-.
  - done.
  - by destruct b.
  - apply andb_true_iff in Hv as [Fv _]. rewrite free_of_app. apply (hex_width_free 16). by apply sortable_bits_width.
  - rewrite free_of_app, encode_free. done.
Qed.

Definition fragment_ranked (fr : DirectScalarIndexFragment) : Prop := sortable_scalar_key (fr_value fr) = Some (fr_sortable fr).

Lemma fields_ranked collect n l r : (∀ t r, collect t = Some r → Forall fragment_ranked r.1) →
  fields_of collect n l = Some r → Forall fragment_ranked r.1.
Proof.
  intros Hc. revert r. induction l as [|[f st] l IH]; intros r; cbn [fields_of]; [by intros [= <-]|].
  intros ([here cyc] & E1 & E2)%bind_Some. apply bind_Some in E2 as ([more cyc'] & E2 & [= <-]). cbn [fst].
  apply Forall_app. split; [|exact (IH _ E2)]. destruct (value st); try (injection E1 as <- <-; try constructor).
  - unfold scalar_fragment. destruct (stored_scalar _ _) as [shown|]; [|constructor].
    destruct (sortable_scalar_key shown) as [k|] eqn:Ek; repeat constructor. done.
  - apply bind_Some in E1 as ([child c] & E1 & [= <- <-]). specialize (Hc _ _ E1). cbn in Hc.
    change (map (extend_fragment f) child) with (extend_fragment f <$> child).
    apply Forall_fmap. eapply Forall_impl; [exact Hc|]. done.
Qed.

Lemma fragments_ranked nodes fuel V n r : fragments_of nodes fuel V n = Some r → Forall fragment_ranked r.1.
Proof.
  revert V n r. induction fuel as [|fuel IH]; intros V n r; cbn [fragments_of]; [done|]. case_decide; [by intros [= <-]|].
  destruct (nodes !! n) as [st|]; [|by intros [= <-]]. apply fields_ranked. intros t r'. apply IH.
Qed.

Lemma index_fragments_ranked n l k e : Forall fragment_ranked l → index_fragments n l !! k = Some e → ranked e.
Proof.
  intros Hl. unfold index_fragments.
  assert (∀ m : gmap string DirectScalarIndexEntry, map_Forall (λ _, ranked) m → map_Forall (λ _, ranked) (foldl
    (λ m fr, <[direct_index_key (fr_path fr) (fr_sortable fr) n := mkIndexEntry n (fr_path fr) (fr_value fr) (fr_sortable fr)]> m) m l)) as Hm.
  { induction Hl as [|fr l Hfr Hl IH]; intros m Hm; [done|]. cbn. apply IH. apply map_Forall_insert_2; done. }
  intros Hk. by apply (Hm ∅ (map_Forall_empty _) k e).
Qed.

Lemma node_index_ranked nodes n k e : node_index nodes n !! k = Some e → ranked e.
Proof.
  unfold node_index. apply index_fragments_ranked. destruct (fragments_of nodes (fragment_fuel nodes) ∅ n) as [r|] eqn:E; [|constructor].
  by apply fragments_ranked in E.
Qed.

(** The index of a transaction that the database builds is keyed by its entries' parts,
when its numbers are. *)
Lemma built_keyed i m nodes :
  (∀ k e, tx_direct_indexes (build_storage_transaction i m nodes) !! k = Some e → sane (ie_value e) = true) →
  keyed_tx (build_storage_transaction i m nodes).
Proof.
  intros Hs k e Hk. destruct (storage_index_exact i m nodes) as [_ He]. destruct (proj1 (He k e) Hk) as (n & _ & Hn).
  destruct (node_index_key _ _ _ _ Hn) as [<- ->]. split; [done|]. eapply rank_free; [by eapply Hs|]. by eapply node_index_ranked.
Qed.
End built.
