(* ===== verification/Traversal.v ===== *)
(** Graph traversal ([traverse_at] and its helpers in [src/src/db.rs], the
specifications of [src/src/traversal.rs]): breadth- or depth-first over the
relationship index, with depth and result limits, and what a result that calls
itself complete promises. *)
From stdpp Require Import base gmap sets list strings sorting.
From Stdlib Require Import ZArith Lia.
From S2P Require Import Prelude Clock Value Crdt Merge OpQueue RelIndex Paths Records Input Inner Read View Query.

Inductive TraversalDirection := Outbound | Inbound | Both.
Inductive TraversalStrategy := Bfs | Dfs.

Record TraversalSpec := mkTraversal {
  direction : TraversalDirection;
  strategy : TraversalStrategy;
  max_depth : nat;
  trav_limit : option nat;
  edge_fields : option (list string);
  follow_links : bool;
  follow_sets : bool;
  include_start : bool;
  include_values : bool;
  trav_filters : list QueryFilter;
  fetch_missing : bool;
  max_fetches : nat
}.

Definition traversal_default : TraversalSpec :=
  mkTraversal Outbound Bfs 1 (Some 1024) None true true false false [] true 64.

Record TraversalEntry := mkTravEntry {
  trav_node : NodeId;
  trav_depth : nat;
  trav_path : list NodeId;
  trav_via : option TraversalEdge;
  trav_value : option json
}.

Record TraversalResult := mkTravResult {
  trav_entries : list TraversalEntry;
  complete : bool;
  timed_out : bool;
  depth_limit_reached : bool;
  result_limit_reached : bool;
  fetched : nat;
  trav_missing : list NodeId;
  denied : list NodeId
}.

Record TraversalFrame := mkFrame {
  frame_node : NodeId;
  frame_depth : nat;
  frame_path : list NodeId;
  frame_via : option TraversalEdge
}.

(** The variables of the loop of [traverse_at]. *)
Record Progress := mkProgress {
  p_entries : list TraversalEntry;
  p_visited : gset string;
  p_missing : gset string;
  p_depth_limit : bool;
  p_result_limit : bool
}.

Section traversal.
Context `{Cod : Codec, En : Env}.

(** * One node *)

Definition resolve_traversal_starts (a : NodeId) (segs : list string) : M (list NodeId * list NodeId) :=
  c ← resolve_cursor a segs;
  match c with
  | Some (CNode node) => mret ([node], [])
  | Some (CField node field) => gets (λ i,
      match field_of i node field with
      | Some (FLink target) => ([target], [])
      | Some (FSet set) => (btree_keys (members set), [])
      | Some (FScalar _) | Some (FBytes _) | Some (FBlob _) | None => ([], [])
      end)
  | None => mret ([], [a])
  end.

(** The test of [edges.retain]. *)
Definition edge_allowed (spec : TraversalSpec) (e : TraversalEdge) : bool :=
  match edge_fields spec with Some fs => bool_decide (edge_field e ∈ fs) | None => true end
  && match edge_kind e with Link => follow_links spec | SetMember => follow_sets spec end.

Definition is_outbound (d : TraversalDirection) : bool := match d with Inbound => false | _ => true end.
Definition is_inbound (d : TraversalDirection) : bool := match d with Outbound => false | _ => true end.

(** The edges read off the index; sorting and [dedup] leave each edge once, in
order, which is what listing the set does. *)
Definition index_edges (idx : RelationshipIndex) (spec : TraversalSpec) (node : NodeId) : list TraversalEdge :=
  let out := if is_outbound (direction spec) then default ∅ (outbound idx !! node) else ∅ in
  let inn := if is_inbound (direction spec) then default ∅ (inbound idx !! node) else ∅ in
  filter (λ e, edge_allowed spec e = true) (edge_elems (out ∪ inn)).

Definition traversal_edges (node : NodeId) (spec : TraversalSpec) : M (list TraversalEdge) :=
  _ ← maybe_load_node node;
  _ ← modify flush_pending_relationship_index;
  gets (λ i, index_edges (relationship_index i) spec node).

Definition materialize_field_shallow (node field : string) (fv : FieldValue) : json :=
  match fv with
  | FScalar v => materialize_scalar (node +:+ "/" +:+ field) v
  | FBytes b => bytes_marker_value b
  | FBlob r => blob_marker_value r
  | FLink target => link_marker_value target
  | FSet set => JObject [("$set", JArray (link_marker_value <$> btree_keys (members set)))]
  end.

Definition materialize_node_shallow (node : NodeId) : M (option json) :=
  loaded ← maybe_load_node node;
  if negb loaded then mret None
  else gets (λ i,
    match nodes i !! node with
    | None => None
    | Some state => Some (node_object (id state)
        ((λ p, (p.1, materialize_field_shallow node p.1 (value p.2))) <$> btree_list (fields state)))
    end).

Definition traversal_node_match_and_value (node : NodeId) (spec : TraversalSpec) : M (bool * option json) :=
  let needs_value := include_values spec || match trav_filters spec with [] => false | _ => true end in
  if negb needs_value then mret (true, None)
  else
    v ← materialize_node_shallow node;
    mret match v with
         | None => (false, None)
         | Some v => (forallb (matches_filter (mkEntry node v)) (trav_filters spec),
                      if include_values spec then Some v else None)
         end.

(** * The loop *)

(** The frames the [for edge in edges] loop pushes. *)
Definition next_frames (frame : TraversalFrame) (visited : gset string) (edges : list TraversalEdge)
    : list TraversalFrame :=
  mbind (λ e,
    let next := if decide (edge_source e = frame_node frame) then edge_target e else edge_source e in
    if decide (next ∈ visited) then []
    else [mkFrame next (S (frame_depth frame)) (frame_path frame ++ [next]) (Some e)]) edges.

(** The frontier with the next frame first: a queue for [Bfs], a stack for [Dfs]. *)
Definition push_frames (s : TraversalStrategy) (rest pushed : list TraversalFrame) : list TraversalFrame :=
  match s with Bfs => rest ++ pushed | Dfs => reverse pushed ++ rest end.

(** The [if should_emit] block for a node that is new and loaded; [inl] breaks. *)
Definition emit (spec : TraversalSpec) (frame : TraversalFrame) (p : Progress) : M (Progress + Progress) :=
  if negb ((0 <? frame_depth frame) || include_start spec) then mret (inr p)
  else
    mv ← traversal_node_match_and_value (frame_node frame) spec;
    mret (if negb mv.1 then inr p
          else if match trav_limit spec with Some l => l <=? length (p_entries p) | None => false end
          then inl (mkProgress (p_entries p) (p_visited p) (p_missing p) (p_depth_limit p) true)
          else inr (mkProgress
                 (p_entries p ++ [mkTravEntry (frame_node frame) (frame_depth frame) (frame_path frame)
                                    (frame_via frame) mv.2])
                 (p_visited p) (p_missing p) (p_depth_limit p) (p_result_limit p))).

(** The rest of the iteration: the frames to push, or the depth limit. *)
Definition expand (spec : TraversalSpec) (frame : TraversalFrame) (p : Progress)
    : M (Progress * list TraversalFrame) :=
  edges ← traversal_edges (frame_node frame) spec;
  mret (if max_depth spec <=? frame_depth frame
        then (mkProgress (p_entries p) (p_visited p) (p_missing p)
                (p_depth_limit p || match edges with [] => false | _ => true end) (p_result_limit p), [])
        else (p, next_frames frame (p_visited p) edges)).

(** The loop: [fuel] bounds the nodes expanded. *)
Fixpoint traverse_loop (fuel : nat) (spec : TraversalSpec)
    : list TraversalFrame → Progress → Inner → Inner * option (result Progress) :=
  fix next frontier p i {struct frontier} :=
    match frontier with
    | [] => (i, Some (Ok p))
    | frame :: rest =>
        let node := frame_node frame in
        if decide (node ∈ p_visited p) then next rest p i
        else
          let p := mkProgress (p_entries p) ({[node]} ∪ p_visited p) (p_missing p)
                     (p_depth_limit p) (p_result_limit p) in
          match maybe_load_node node i with
          | (i, Err e) => (i, Some (Err e))
          | (i, Ok false) =>
              next rest (mkProgress (p_entries p) (p_visited p) ({[node]} ∪ p_missing p)
                           (p_depth_limit p) (p_result_limit p)) i
          | (i, Ok true) =>
              match fuel with
              | O => (i, None)
              | S fuel =>
                  match emit spec frame p i with
                  | (i, Err e) => (i, Some (Err e))
                  | (i, Ok (inl p)) => (i, Some (Ok p))
                  | (i, Ok (inr p)) =>
                      match expand spec frame p i with
                      | (i, Err e) => (i, Some (Err e))
                      | (i, Ok (p, pushed)) =>
                          traverse_loop fuel spec (push_frames (strategy spec) rest pushed) p i
                      end
                  end
              end
          end
    end.

(** The result the loop's variables give. *)
Definition traversal_result (p : Progress) : TraversalResult :=
  let missing := btree_elems (p_missing p) in
  mkTravResult (p_entries p)
    (match missing with [] => true | _ => false end && negb (p_depth_limit p) && negb (p_result_limit p))
    false (p_depth_limit p) (p_result_limit p) 0 missing [].

(** The frontier the loop starts from: a stack is popped from its end. *)
Definition start_frames (s : TraversalStrategy) (starts : list NodeId) : list TraversalFrame :=
  push_frames s [] ((λ n, mkFrame n 0 [n] None) <$> starts).

(** [Inner::traverse_at]. *)
Definition traverse_inner (a : NodeId) (segs : list string) (spec : TraversalSpec) (i : Inner)
    : Inner * option (result TraversalResult) :=
  match resolve_traversal_starts a segs i with
  | (i, Err e) => (i, Some (Err e))
  | (i, Ok (starts, missing)) =>
      match traverse_loop (size (universe i)) spec (start_frames (strategy spec) starts)
              (mkProgress [] ∅ (list_to_set missing) false false) i with
      | (i, None) => (i, None)
      | (i, Some (Err e)) => (i, Some (Err e))
      | (i, Some (Ok p)) => (i, Some (Ok (traversal_result p)))
      end
  end.

(** * Reserving fetches *)

Fixpoint reserve_node_fetches (ns : list NodeId) (max : nat) (reserved : list NodeId) (i : Inner)
    : Inner * list NodeId :=
  match ns with
  | [] => (i, reserved)
  | n :: rest =>
      if max <=? length reserved then (i, reserved)
      else
        let i := journal_scheduled_node_fetch n i in
        if decide (n ∈ scheduled_node_fetches i) then reserve_node_fetches rest max reserved i
        else reserve_node_fetches rest max (reserved ++ [n])
               (set_scheduled_node_fetches ({[n]} ∪ scheduled_node_fetches i) i)
  end.

Definition release_reserved_node_fetches (ns : list NodeId) (i : Inner) : Inner :=
  foldl (λ i n, let i := journal_scheduled_node_fetch n i in
           set_scheduled_node_fetches (scheduled_node_fetches i ∖ {[n]}) i) i ns.

(** [Primadb::traverse_at]: [schedulers] says whether a fetch scheduler is
registered; the missing nodes it is asked for are returned with the result. *)
Definition traverse_at (schedulers : bool) (a : NodeId) (segs : list string) (spec : TraversalSpec) (i : Inner)
    : Inner * option (result (TraversalResult * list NodeId)) :=
  match traverse_inner a segs spec i with
  | (i, None) => (i, None)
  | (i, Some (Err e)) => (i, Some (Err e))
  | (i, Some (Ok r)) =>
      let '(i, candidates) :=
        if fetch_missing spec && (0 <? max_fetches spec)
        then reserve_node_fetches (trav_missing r) (max_fetches spec) [] i else (i, []) in
      match candidates with
      | [] => (i, Some (Ok (r, [])))
      | _ =>
          if schedulers
          then (i, Some (Ok (mkTravResult (trav_entries r) (complete r) (timed_out r) (depth_limit_reached r)
                   (result_limit_reached r) (length candidates) (trav_missing r) (denied r), candidates)))
          else (release_reserved_node_fetches candidates i, Some (Ok (r, [])))
      end
  end.
End traversal.

(** * A database in memory

Without a storage engine and outside a transaction a traversal changes nothing:
it walks the graph of the relationship index. *)
Section memory.
Context `{Cod : Codec, En : Env} (Hno : storage_engine = None).
Context (i : Inner) (Hj : transaction_journal i = None).
Context (spec : TraversalSpec) (starts : list NodeId).

Definition present (n : NodeId) : Prop := is_Some (nodes i !! n).
Definition edges_at (n : NodeId) : list TraversalEdge := index_edges (relationship_index i) spec n.
Definition across (n : NodeId) (e : TraversalEdge) : NodeId :=
  if decide (edge_source e = n) then edge_target e else edge_source e.

(** One step of the walk: a present node to the other end of one of its edges. *)
Definition walk (n m : NodeId) : Prop := present n ∧ ∃ e, e ∈ edges_at n ∧ across n e = m.
Definition reached (n : NodeId) : Prop := ∃ s, s ∈ starts ∧ rtc walk s n.

(** What the filters make of a node. *)
Definition shown (n : NodeId) : bool * option json :=
  match (traversal_node_match_and_value n spec i).2 with Ok mv => mv | Err _ => (false, None) end.

Lemma load_memory n : maybe_load_node n i = (i, Ok (bool_decide (present n))).
Proof.
  unfold maybe_load_node, present. rewrite Hno. destruct (nodes i !! n) as [st|].
  - rewrite orb_true_r. by rewrite bool_decide_true.
  - assert (bool_decide (is_Some (@None NodeState)) = false) as -> by (apply bool_decide_false; by intros [x Hx]).
    by case_bool_decide.
Qed.

Lemma edges_memory n : traversal_edges n spec i = (i, Ok (edges_at n)).
Proof.
  unfold traversal_edges, mbind, M_bind, modify, gets. rewrite load_memory.
  unfold flush_pending_relationship_index. by rewrite Hj.
Qed.

Lemma match_memory n : traversal_node_match_and_value n spec i = (i, Ok (shown n)).
Proof.
  unfold shown. unfold traversal_node_match_and_value, materialize_node_shallow, mbind, M_bind, gets, mret, M_ret.
  cbv zeta. destruct (negb (include_values spec || _)); [done|]. rewrite load_memory. by case_bool_decide.
Qed.

(** A frame the loop may hold: a start, or a step from a valid frame. *)
Inductive frame_valid : TraversalFrame → Prop :=
  | frame_start s : s ∈ starts → frame_valid (mkFrame s 0 [s] None)
  | frame_next fr e :
      frame_valid fr → present (frame_node fr) → e ∈ edges_at (frame_node fr) →
      frame_depth fr < max_depth spec →
      frame_valid (mkFrame (across (frame_node fr) e) (S (frame_depth fr))
                     (frame_path fr ++ [across (frame_node fr) e]) (Some e)).

Lemma frame_valid_reached fr : frame_valid fr → reached (frame_node fr).
Proof.
  induction 1 as [s Hs|fr e _ (s & Hs & Hr) Hp He _]; [by exists s|].
  exists s. split; [done|]. simpl. eapply rtc_r; [done|]. split; [done|]. by exists e.
Qed.

(** What holds of the entries at every point. *)
Record entries_ok (p : Progress) : Prop := {
  ok_valid : ∀ en, en ∈ p_entries p →
    frame_valid (mkFrame (trav_node en) (trav_depth en) (trav_path en) (trav_via en)) ∧
    present (trav_node en) ∧ shown (trav_node en) = (true, trav_value en) ∧
    (0 < trav_depth en ∨ include_start spec = true);
  ok_nodup : NoDup (trav_node <$> p_entries p);
  ok_visited : ∀ n, n ∈ trav_node <$> p_entries p → n ∈ p_visited p;
  ok_limit : ∀ l, trav_limit spec = Some l → length (p_entries p) ≤ l
}.

(** What holds of the visited nodes while the frontier is [F]. *)
Record search_ok (p : Progress) (F : list TraversalFrame) : Prop := {
  so_frames : Forall frame_valid F;
  so_starts : ∀ s, s ∈ starts → s ∈ p_visited p ∨ s ∈ frame_node <$> F;
  so_reached : ∀ n, n ∈ p_visited p → reached n;
  so_closed : ∀ n m, n ∈ p_visited p → walk n m →
    m ∈ p_visited p ∨ m ∈ frame_node <$> F ∨ p_depth_limit p = true;
  so_missing : ∀ n, n ∈ p_visited p → ¬ present n → n ∈ p_missing p;
  so_emitted : ∀ n, n ∈ p_visited p → present n → (n ∉ starts ∨ include_start spec = true) →
    (shown n).1 = true → n ∈ trav_node <$> p_entries p
}.

Lemma elem_of_push_frames s rest pushed fr : fr ∈ push_frames s rest pushed ↔ fr ∈ rest ∨ fr ∈ pushed.
Proof. destruct s; simpl; rewrite elem_of_app, ?elem_of_reverse; tauto. Qed.

Lemma frames_of (F : list TraversalFrame) n : n ∈ frame_node <$> F ↔ ∃ fr, fr ∈ F ∧ frame_node fr = n.
Proof. rewrite list_elem_of_fmap. naive_solver. Qed.

Lemma elem_of_next_frames fr V es fr' :
  fr' ∈ next_frames fr V es ↔ ∃ e, e ∈ es ∧ across (frame_node fr) e ∉ V ∧
    fr' = mkFrame (across (frame_node fr) e) (S (frame_depth fr))
            (frame_path fr ++ [across (frame_node fr) e]) (Some e).
Proof.
  unfold next_frames. rewrite list_elem_of_bind. split.
  - intros (e & He & Hin). cbv beta zeta in He. fold (across (frame_node fr) e) in He.
    destruct (decide (across (frame_node fr) e ∈ V)) as [Hv|Hv]; [by apply not_elem_of_nil in He|].
    apply list_elem_of_singleton in He as ->. by exists e.
  - intros (e & He & Hv & ->). exists e. split; [|done]. cbv beta zeta. fold (across (frame_node fr) e).
    rewrite decide_False by done. by apply list_elem_of_singleton.
Qed.

(** The progress after marking a node as visited. *)
Definition visited_with (n : NodeId) (p : Progress) : Progress :=
  mkProgress (p_entries p) ({[n]} ∪ p_visited p) (p_missing p) (p_depth_limit p) (p_result_limit p).

Lemma entries_ok_visited n p : entries_ok p → entries_ok (visited_with n p).
Proof. intros [H1 H2 H3 H4]. split; simpl; [done..| |done]. intros m Hm. set_solver. Qed.

Lemma search_skip p fr F : search_ok p (fr :: F) → frame_node fr ∈ p_visited p → search_ok p F.
Proof.
  intros [H1 H2 H3 H4 H5 H6] Hv. split; [by apply Forall_cons in H1 as [_ ?]| |done| |done|done].
  - intros s Hs. destruct (H2 s Hs) as [?|Hin]; [by left|].
    rewrite fmap_cons, elem_of_cons in Hin. destruct Hin as [->|?]; auto.
  - intros n m Hn Hw. destruct (H4 n m Hn Hw) as [?|[Hin|?]]; [by left| |by auto].
    rewrite fmap_cons, elem_of_cons in Hin. destruct Hin as [->|?]; auto.
Qed.

Lemma search_absent p fr F :
  search_ok p (fr :: F) → ¬ present (frame_node fr) →
  search_ok (mkProgress (p_entries p) ({[frame_node fr]} ∪ p_visited p) ({[frame_node fr]} ∪ p_missing p)
               (p_depth_limit p) (p_result_limit p)) F.
Proof.
  intros [H1 H2 H3 H4 H5 H6] Hp. apply Forall_cons in H1 as [Hfr H1]. split; simpl; [done|..].
  - intros s Hs. destruct (H2 s Hs) as [?|Hin]; [set_solver|].
    rewrite fmap_cons, elem_of_cons in Hin. destruct Hin; set_solver.
  - intros n [->%elem_of_singleton|Hn]%elem_of_union; [by apply frame_valid_reached|by apply H3].
  - intros n m [->%elem_of_singleton|Hn]%elem_of_union Hw; [by destruct Hw as [? _]|].
    destruct (H4 n m Hn Hw) as [?|[Hin|?]]; [set_solver| |by auto].
    rewrite fmap_cons, elem_of_cons in Hin. destruct Hin; set_solver.
  - intros n [->%elem_of_singleton|Hn]%elem_of_union Hpn; [set_solver|]. apply elem_of_union_r. by apply H5.
  - intros n [->%elem_of_singleton|Hn]%elem_of_union Hpn; [done|by apply H6].
Qed.

(** A node that is new and present: what [emit] and [expand] do. *)
Lemma emit_memory fr p :
  entries_ok p → frame_valid fr → present (frame_node fr) →
  frame_node fr ∉ p_visited p → p_result_limit p = false →
  match emit spec fr (visited_with (frame_node fr) p) i with
  | (i', Ok (inl p')) => i' = i ∧ entries_ok p' ∧ p_result_limit p' = true
  | (i', Ok (inr p')) => i' = i ∧ entries_ok p' ∧
      p' = mkProgress (p_entries p') ({[frame_node fr]} ∪ p_visited p) (p_missing p) (p_depth_limit p) false ∧
      (∀ n, n ∈ trav_node <$> p_entries p → n ∈ trav_node <$> p_entries p') ∧
      (frame_node fr ∉ starts ∨ include_start spec = true → (shown (frame_node fr)).1 = true →
         frame_node fr ∈ trav_node <$> p_entries p')
  | (_, Err _) => False
  end.
Proof.
  intros Hok Hfr Hp Hv Hlim. pose proof (entries_ok_visited (frame_node fr) p Hok) as Hok'.
  unfold emit. destruct ((0 <? frame_depth fr) || include_start spec) eqn:Hs; cbn [negb].
  2:{ unfold mret, M_ret. split_and!; [done|done|by rewrite <-Hlim|done|].
      apply orb_false_iff in Hs as [Hd Hi]. intros [Hns|Hi']; [|congruence].
      exfalso. apply Hns. apply Nat.ltb_ge in Hd. destruct Hfr; simpl in *; [done|lia]. }
  unfold mbind, M_bind, mret, M_ret. rewrite match_memory. destruct (shown (frame_node fr)) as [b v] eqn:Hsh.
  cbn [fst snd]. destruct b; cbn [negb]; [|split_and!; [done|done|by rewrite <-Hlim|done|done]].
  destruct (match trav_limit spec with Some _ => _ | None => _ end) eqn:Hl; simpl.
  { split_and!; [done| |done]. by destruct Hok'. }
  split_and!; [done| |by rewrite Hlim|..].
  - destruct Hok as [H1 H2 H3 H4]. split; simpl.
    + intros en [Hen| ->%list_elem_of_singleton]%elem_of_app; [by apply H1|]. simpl.
      destruct fr as [n d pa vi]. simpl in *. split_and!; [done..|].
      apply orb_true_iff in Hs as [Hd%Nat.ltb_lt|?]; auto.
    + rewrite fmap_app. apply NoDup_app. split_and!; [done| |apply NoDup_singleton].
      intros n Hn Hn2. simpl in Hn2. apply list_elem_of_singleton in Hn2 as ->. by apply Hv, H3.
    + intros n. rewrite fmap_app, elem_of_app. intros [Hn|Hn%list_elem_of_singleton]; [set_solver|]. simpl in Hn. set_solver.
    + intros l Hl'. rewrite Hl' in Hl. apply Nat.leb_gt in Hl. rewrite length_app. simpl. simpl in Hl. lia.
  - intros n Hn. rewrite fmap_app, elem_of_app. by left.
  - intros _ _. rewrite fmap_app, elem_of_app. right. by apply list_elem_of_singleton.
Qed.

Lemma expand_memory fr F p p' :
  search_ok p (fr :: F) → present (frame_node fr) → entries_ok p' →
  p' = mkProgress (p_entries p') ({[frame_node fr]} ∪ p_visited p) (p_missing p) (p_depth_limit p) false →
  (∀ n, n ∈ trav_node <$> p_entries p → n ∈ trav_node <$> p_entries p') →
  (frame_node fr ∉ starts ∨ include_start spec = true → (shown (frame_node fr)).1 = true →
     frame_node fr ∈ trav_node <$> p_entries p') →
  match expand spec fr p' i with
  | (i', Ok (p'', pushed)) => i' = i ∧ entries_ok p'' ∧ p_visited p'' = {[frame_node fr]} ∪ p_visited p ∧
      p_result_limit p'' = false ∧ search_ok p'' (push_frames (strategy spec) F pushed)
  | (_, Err _) => False
  end.
Proof.
  intros [H1 H2 H3 H4 H5 H6] Hp Hok Hp' Hkeep Hnew. apply Forall_cons in H1 as [Hfr H1].
  unfold expand, mbind, M_bind, mret, M_ret. rewrite edges_memory.
  destruct (max_depth spec <=? frame_depth fr) eqn:Hd.
  - split_and!; [done|by destruct Hok|by rewrite Hp'|by rewrite Hp'|]. rewrite Hp'. split; simpl.
    + destruct (strategy spec); simpl; by rewrite ?app_nil_r.
    + intros s Hs. rewrite frames_of. setoid_rewrite elem_of_push_frames.
      destruct (H2 s Hs) as [?|Hin]; [set_solver|]. rewrite fmap_cons, elem_of_cons, frames_of in Hin. set_solver.
    + intros n [->%elem_of_singleton|Hn]%elem_of_union; [by apply frame_valid_reached|by apply H3].
    + intros n m [->%elem_of_singleton|Hn]%elem_of_union Hw.
      * right. right. destruct Hw as (_ & e & He & _). destruct (edges_at (frame_node fr)); [by apply not_elem_of_nil in He|].
        apply orb_true_r.
      * rewrite frames_of. setoid_rewrite elem_of_push_frames.
        destruct (H4 n m Hn Hw) as [?|[Hin|Hdl]]; [set_solver| |by rewrite Hdl; auto].
        rewrite fmap_cons, elem_of_cons, frames_of in Hin. set_solver.
    + intros n [->%elem_of_singleton|Hn]%elem_of_union Hpn; [done|by apply H5].
    + intros n [->%elem_of_singleton|Hn]%elem_of_union Hpn Hs Hsh; [by apply Hnew|]. apply Hkeep. by apply H6.
  - apply Nat.leb_gt in Hd. split_and!; [done|done|by rewrite Hp'|by rewrite Hp'|]. rewrite Hp'. split; simpl.
    + apply Forall_forall. intros fr' [Hin|Hin]%elem_of_push_frames; [rewrite Forall_forall in H1; by apply H1|].
      apply elem_of_next_frames in Hin as (e & He & _ & ->). by apply frame_next.
    + intros s Hs. rewrite frames_of. setoid_rewrite elem_of_push_frames.
      destruct (H2 s Hs) as [?|Hin]; [set_solver|]. rewrite fmap_cons, elem_of_cons, frames_of in Hin. set_solver.
    + intros n [->%elem_of_singleton|Hn]%elem_of_union; [by apply frame_valid_reached|by apply H3].
    + intros n m Hn Hw. rewrite frames_of. setoid_rewrite elem_of_push_frames.
      apply elem_of_union in Hn as [->%elem_of_singleton|Hn].
      * destruct Hw as (_ & e & He & <-).
        destruct (decide (across (frame_node fr) e ∈ {[frame_node fr]} ∪ p_visited p)) as [Hin|Hin]; [by left|].
        right. left. eexists. split; [right; apply elem_of_next_frames; by exists e|done].
      * destruct (H4 n m Hn Hw) as [?|[Hin|Hdl]]; [set_solver| |by auto].
        rewrite fmap_cons, elem_of_cons, frames_of in Hin. set_solver.
    + intros n [->%elem_of_singleton|Hn]%elem_of_union Hpn; [done|by apply H5].
    + intros n [->%elem_of_singleton|Hn]%elem_of_union Hpn Hs Hsh; [by apply Hnew|]. apply Hkeep. by apply H6.
Qed.

(** What the loop ends with. *)
Definition outcome_ok (p : Progress) : Prop :=
  entries_ok p ∧ (p_result_limit p = false → search_ok p []).

Lemma traverse_loop_memory fuel F p :
  entries_ok p → search_ok p F → p_result_limit p = false →
  size (dom (nodes i) ∖ p_visited p) ≤ fuel →
  ∃ p', traverse_loop fuel spec F p i = (i, Some (Ok p')) ∧ outcome_ok p'.
Proof.
  revert F p. induction fuel as [|fuel IHfuel]; intros F; induction F as [|fr F IHF];
    intros p Hok Hs Hlim Hf; (try by exists p; split; [|by split]);
    cbn [traverse_loop]; (case_decide as Hv; [by apply IHF; [|eapply search_skip| |]|]);
    rewrite load_memory; (case_bool_decide as Hp;
      [|apply IHF; [by destruct (entries_ok_visited (frame_node fr) p Hok); split|exact (search_absent p fr F Hs Hp)|done|
          cbn [p_visited]; etrans; [|exact Hf]; apply subseteq_size; set_solver]]).
  - exfalso. assert (frame_node fr ∈ dom (nodes i) ∖ p_visited p) as Hin.
    { apply elem_of_difference. split; [by apply elem_of_dom|done]. }
    apply Nat.le_0_r, size_empty_iff in Hf. set_solver.
  - assert (frame_valid fr) as Hfr by (destruct Hs as [HF _ _ _ _ _]; by apply Forall_cons in HF as [? _]).
    pose proof (emit_memory fr p Hok Hfr Hp Hv Hlim) as He. fold (visited_with (frame_node fr) p).
    destruct (emit spec fr _ i) as [i1 [[p1|p1]|e]]; [|clear IHF|done].
    + destruct He as (-> & H1 & H2). exists p1. split; [done|]. split; [done|]. by rewrite H2.
    + destruct He as (-> & H1 & H2 & H3 & H4).
      pose proof (expand_memory fr F p p1 Hs Hp H1 H2 H3 H4) as Hx.
      destruct (expand spec fr p1 i) as [i2 [[p2 pushed]|e]]; [|done].
      destruct Hx as (-> & H5 & H6 & H7 & H8). apply IHfuel; [done..|]. rewrite H6.
      assert (size (dom (nodes i) ∖ ({[frame_node fr]} ∪ p_visited p)) < size (dom (nodes i) ∖ p_visited p)); [|lia].
      apply subset_size. apply elem_of_dom in Hp. clear -Hp Hv. set_solver.
Qed.

(** The walk on the graph itself: along an allowed edge, forwards or backwards
as the direction says. *)
Definition graph_walk (n m : NodeId) : Prop :=
  present n ∧ ∃ e, graph_edge (nodes i) e ∧ edge_allowed spec e = true ∧
    ((is_outbound (direction spec) = true ∧ edge_source e = n ∧ edge_target e = m) ∨
     (is_inbound (direction spec) = true ∧ edge_target e = n ∧ edge_source e = m)).

Lemma elem_of_edges_at n e :
  index_of (nodes i) (relationship_index i) →
  e ∈ edges_at n ↔ graph_edge (nodes i) e ∧ edge_allowed spec e = true ∧
    ((is_outbound (direction spec) = true ∧ edge_source e = n) ∨
     (is_inbound (direction spec) = true ∧ edge_target e = n)).
Proof.
  intros [(Ho & Hi & Hio) Hg]. unfold edges_at, index_edges.
  rewrite list_elem_of_filter, elem_of_edge_elems, elem_of_union.
  assert (e ∈ default ∅ (outbound (relationship_index i) !! n) ↔ edge_source e = n ∧ graph_edge (nodes i) e) as H1.
  { rewrite <-Hg. unfold out_has. split; [|by intros [-> ?]]. intros He.
    destruct (outbound (relationship_index i) !! n) as [E|] eqn:HE; [|by apply not_elem_of_empty in He].
    destruct (Ho n E HE) as [_ Hk]. rewrite (Hk e He), HE. done. }
  assert (e ∈ default ∅ (inbound (relationship_index i) !! n) ↔ edge_target e = n ∧ graph_edge (nodes i) e) as H2.
  { rewrite <-Hg, Hio. unfold in_has. split; [|by intros [-> ?]]. intros He.
    destruct (inbound (relationship_index i) !! n) as [E|] eqn:HE; [|by apply not_elem_of_empty in He].
    destruct (Hi n E HE) as [_ Hk]. rewrite (Hk e He), HE. done. }
  destruct (is_outbound (direction spec)), (is_inbound (direction spec)); rewrite ?H1, ?H2, ?elem_of_empty; naive_solver.
Qed.

Lemma walk_graph n m : index_of (nodes i) (relationship_index i) → walk n m ↔ graph_walk n m.
Proof.
  intros Hidx. unfold walk, graph_walk, across. apply and_iff_compat_l. split.
  - intros (e & He%elem_of_edges_at & Hm); [|done]. destruct He as (H1 & H2 & H3). exists e. split_and!; [done..|].
    case_decide; naive_solver congruence.
  - intros (e & H1 & H2 & H3). exists e. rewrite elem_of_edges_at by done. split; [naive_solver|].
    case_decide; naive_solver congruence.
Qed.

Lemma frame_valid_shape fr :
  frame_valid fr → length (frame_path fr) = S (frame_depth fr) ∧ last (frame_path fr) = Some (frame_node fr) ∧
    frame_depth fr ≤ max_depth spec ∧ ∃ s, head (frame_path fr) = Some s ∧ s ∈ starts.
Proof.
  induction 1 as [s Hs|fr e _ (H1 & H2 & H3 & s & H4 & H5) Hp He Hd]; simpl.
  - split_and!; [done..|lia|]. by exists s.
  - rewrite length_app, last_snoc. simpl. split_and!; [lia|done|lia|]. exists s. split; [|done].
    destruct (frame_path fr); [done|by simpl in *].
Qed.

Lemma traverse_loop_start missing :
  ∃ p, traverse_loop (size (universe i)) spec (start_frames (strategy spec) starts)
         (mkProgress [] ∅ missing false false) i = (i, Some (Ok p)) ∧ outcome_ok p.
Proof.
  apply traverse_loop_memory; [..|done|].
  - split; simpl; [intros ? Hn|constructor|intros ? Hn|lia]; by apply not_elem_of_nil in Hn.
  - split; simpl; try (intros ?; set_solver).
    + apply Forall_forall. intros fr [Hn|Hin]%elem_of_push_frames; [by apply not_elem_of_nil in Hn|].
      apply list_elem_of_fmap in Hin as (s & -> & Hs). by apply frame_start.
    + intros s Hs. right. apply frames_of. exists (mkFrame s 0 [s] None). split; [|done]. apply elem_of_push_frames. right.
      apply list_elem_of_fmap. by exists s.
  - unfold universe. rewrite Hno. apply subseteq_size. set_solver.
Qed.

(** What a result says of the graph. *)
Record result_ok (r : TraversalResult) : Prop := {
  ro_entry : ∀ en, en ∈ trav_entries r →
    present (trav_node en) ∧ reached (trav_node en) ∧ shown (trav_node en) = (true, trav_value en) ∧
    trav_depth en ≤ max_depth spec ∧ length (trav_path en) = S (trav_depth en) ∧
    last (trav_path en) = Some (trav_node en);
  ro_once : NoDup (trav_node <$> trav_entries r);
  ro_limit : ∀ l, trav_limit spec = Some l → length (trav_entries r) ≤ l;
  ro_complete : complete r = true → ∀ n, reached n → present n ∧
    (n ∉ starts ∨ include_start spec = true → (shown n).1 = true → n ∈ trav_node <$> trav_entries r)
}.

Lemma outcome_result p : outcome_ok p → result_ok (traversal_result p).
Proof.
  intros [[H1 H2 H3 H4] Hs]. split; simpl; [|done|done|].
  - intros en Hen. destruct (H1 en Hen) as (Hfr & Hp & Hsh & _).
    destruct (frame_valid_shape _ Hfr) as (Hl & Hla & Hd & _). pose proof (frame_valid_reached _ Hfr). done.
  - intros [[Hm Hd]%andb_true_iff Hr]%andb_true_iff.
    apply negb_true_iff in Hd, Hr. destruct (Hs Hr) as [_ Hst _ Hcl Hmi Hem].
    assert (∀ n, n ∈ p_visited p → present n) as Hpres.
    { intros n Hn. destruct (decide (present n)) as [?|Hp]; [done|]. exfalso.
      pose proof (proj2 (elem_of_btree_elems _ n) (Hmi n Hn Hp)) as Hin.
      destruct (btree_elems (p_missing p)); [by apply not_elem_of_nil in Hin|done]. }
    intros n (s & Hs' & Hr'). assert (n ∈ p_visited p) as Hn; [|by eauto].
    assert (s ∈ p_visited p) as Hsv by (destruct (Hst s Hs') as [?|?%not_elem_of_nil]; done).
    clear Hs'. induction Hr' as [|x y z Hxy _ IH]; [done|]. apply IH.
    destruct (Hcl x y Hsv Hxy) as [?|[?%not_elem_of_nil|?]]; [done..|congruence].
Qed.
End memory.

Section memory_resolve.
Context `{Cod : Codec, En : Env} (Hno : storage_engine = None) (i : Inner).

Lemma resolve_path_memory n segs : (resolve_path n segs i).1 = i.
Proof.
  revert n. induction segs as [|s segs IH]; intros n; [done|]. cbn [resolve_path]. unfold mbind, M_bind, gets.
  rewrite (load_memory Hno). case_bool_decide; [|done]. cbn [negb].
  destruct (field_of i n s) as [[]|]; solve [done|apply IH].
Qed.

Lemma resolve_starts_memory a segs : (resolve_traversal_starts a segs i).1 = i.
Proof.
  assert ((resolve_cursor a segs i).1 = i) as Hc.
  { unfold resolve_cursor, mbind, M_bind. destruct segs as [|s segs]; rewrite (load_memory Hno);
      case_bool_decide; try done. cbn [negb].
    pose proof (resolve_path_memory a (removelast (s :: segs))) as Hp.
    destruct (resolve_path _ _ i) as [i1 [[n|]|e]]; simpl in Hp; subst i1; [|done..].
    rewrite (load_memory Hno). by case_bool_decide. }
  unfold resolve_traversal_starts, mbind, M_bind, gets.
  destruct (resolve_cursor a segs i) as [i1 [[[n|n f]|]|e]]; simpl in Hc; subst i1; done.
Qed.

(** C13: what a traversal of a database in memory returns, breadth- or
depth-first, in any direction.  It ends, changes nothing, and fails only where
resolving the path does.  Each entry is a present node, reached from a start by
a path of allowed edges no longer than the depth limit, listed once, passing the
filters, and there are at most as many as the limit.  And when the result calls
itself complete, every node reachable along the graph's links and memberships
is present, and is listed if it passes the filters and the start may be. *)
Theorem traversal_sound_complete a segs spec :
  transaction_journal i = None → index_of (nodes i) (relationship_index i) →
  match resolve_traversal_starts a segs i with
  | (_, Err e) => traverse_inner a segs spec i = (i, Some (Err e))
  | (_, Ok (starts, _)) => ∃ r, traverse_inner a segs spec i = (i, Some (Ok r)) ∧
      result_ok i spec starts r ∧
      ∀ n, reached i spec starts n ↔ ∃ s, s ∈ starts ∧ rtc (graph_walk i spec) s n
  end.
Proof.
  intros Hj Hidx. unfold traverse_inner. pose proof (resolve_starts_memory a segs) as Hs.
  destruct (resolve_traversal_starts a segs i) as [i1 [[starts missing]|e]]; simpl in Hs; subst i1; [|done].
  destruct (traverse_loop_start Hno i Hj spec starts (list_to_set missing)) as (p & Hp & Hok).
  rewrite Hp. eexists. split; [done|]. split; [by apply outcome_result|].
  intros n. unfold reached. apply exist_proper. intros s. apply and_iff_compat_l.
  split; (induction 1; [done|]); (eapply rtc_l; [|done]); by apply walk_graph.
Qed.
End memory_resolve.
