(* ===== verification/InnerWf.v ===== *)
(** Invariants of the database state: the well-formedness every operation keeps
([inner_wf]) and the relation between a running transaction and the state it
started from ([jrel]), with the closure of both under the operations of
[Inner.v] and [Read.v].  The automation is the [safe] hint database. *)
From stdpp Require Import base gmap sets list strings sorting.
From Stdlib Require Import ZArith Lia.
From S2P Require Import Prelude Clock Value Crdt Merge OpQueue RelIndex Paths Records Input Inner Read.

(** * Invariants *)

(** Sources whose index entries a transaction has not refreshed yet. *)
Definition rel_pending (i : Inner) : gset string :=
  match transaction_journal i with Some j => j_rel_pending j | None => ∅ end.

(** Well-formedness, up to the index entries of the sources in [X]. *)
Record wf_but (X : gset string) (i : Inner) : Prop := {
  wf_pending : queue_wf (pending_ops i);
  wf_unflushed : queue_wf (unflushed_ops i);
  wf_nodes : graph_wf (nodes i);
  wf_overlay : overlay_keyed (overlay_entries (overlay i));
  wf_index : index_wf (relationship_index i);
  wf_edges : ∀ e, edge_source e ∉ rel_pending i → edge_source e ∉ X →
    out_has (relationship_index i) e ↔ graph_edge (nodes i) e
}.

(** Both queues are indexed exactly, nodes and overlay entries are filed under
their own names, and the relationship index is the graph's relationships. *)
Definition inner_wf (i : Inner) : Prop := wf_but ∅ i.

(** The journal remembers [old], having seen it become [now]. *)
Definition kept {V} (saved : gmap string (option V)) (now old : gmap string V) : Prop :=
  ∀ n, match saved !! n with Some prev => old !! n = prev | None => now !! n = old !! n end.

Definition kept_set (saved : gmap string bool) (now old : gset string) : Prop :=
  ∀ n, match saved !! n with Some b => bool_decide (n ∈ old) = b | None => n ∈ now ↔ n ∈ old end.

Record jlog (i0 i : Inner) (j : TransactionJournal) : Prop := {
  jl_clock : j_clock j = clock i0;
  jl_nodes : kept (j_nodes j) (nodes i) (nodes i0);
  jl_overlay : j_overlay j = overlay i0;
  jl_pending : undo_inv (pending_ops i0) (pending_ops i, j_pending j);
  jl_unflushed : undo_inv (unflushed_ops i0) (unflushed_ops i, j_unflushed j);
  jl_missing : kept_set (j_missing j) (missing_nodes i) (missing_nodes i0);
  jl_scheduled : kept_set (j_scheduled j) (scheduled_node_fetches i) (scheduled_node_fetches i0);
  jl_sources : j_rel_pending j ⊆ j_rel_sources j;
  jl_edges : ∀ e, edge_source e ∉ j_rel_sources j →
    out_has (relationship_index i) e ↔ out_has (relationship_index i0) e;
  jl_policies : scope_policies i = scope_policies i0;
  jl_limit : max_pending_ops i = max_pending_ops i0
}.

(** A transaction that began at [i0] has reached [i]; or none is running. *)
Definition jrel (o : option Inner) (i : Inner) : Prop :=
  match o with
  | Some i0 => ∃ j, transaction_journal i = Some j ∧ jlog i0 i j
  | None => transaction_journal i = None
  end.

(** A step that keeps the state well formed and, inside a transaction, undoable. *)
Definition safe (f : Inner → Inner) : Prop :=
  ∀ i, inner_wf i → inner_wf (f i) ∧ ∀ i0, jrel i0 i → jrel i0 (f i).

Definition safeM {A} (m : M A) : Prop := safe (λ i, (m i).1).

(** A step that does so whatever part of the index is out of date. *)
Definition clear (f : Inner → Inner) : Prop :=
  ∀ X i, wf_but X i → wf_but X (f i) ∧ ∀ i0, jrel i0 i → jrel i0 (f i).

Lemma clear_safe f : clear f → safe f.
Proof. intros Hf i. apply Hf. Qed.

Create HintDb safe.

(** The case of [jrel] outside a transaction. *)
Ltac idle :=
  let Hn := fresh "Hn" in
  intros Hn; unfold jrel in *; simpl in *; first [done|congruence|by rewrite ?Hn].

(** * Composition *)

Lemma safe_id : safe (λ i, i).
Proof. intros i Hi. eauto. Qed.

Lemma safe_comp f g : safe f → safe g → safe (λ i, g (f i)).
Proof. intros Hf Hg i Hi. destruct (Hf i Hi) as [H1 H2], (Hg (f i) H1) as [H3 H4]. eauto. Qed.

Lemma safeM_ret {A} (a : A) : safeM (mret a).
Proof. apply safe_id. Qed.

Lemma safeM_throw {A} e : safeM (throw (A := A) e).
Proof. apply safe_id. Qed.

Lemma safeM_lift {A} (r : result A) : safeM (lift r).
Proof. apply safe_id. Qed.

Lemma safeM_gets {A} (f : Inner → A) : safeM (gets f).
Proof. apply safe_id. Qed.

Lemma safeM_modify f : safe f → safeM (modify f).
Proof. done. Qed.

Lemma safeM_bind {A B} (m : M A) (f : A → M B) :
  safeM m → (∀ a, safeM (f a)) → safeM (m ≫= f).
Proof.
  intros Hm Hf i Hi. destruct (Hm i Hi) as [H1 H2].
  unfold mbind, M_bind. destruct (m i) as [i' [a|e]]; simpl in *; [|done].
  destruct (Hf a i' H1) as [H3 H4]. eauto.
Qed.

#[export] Hint Resolve safe_id safeM_ret safeM_throw safeM_lift safeM_gets safeM_modify safeM_bind : safe.

(** Resolve the monadic structure, case analysis included. *)
Ltac safe_step :=
  match goal with
  | |- safeM (_ ≫= _) => apply safeM_bind; [|intros]
  | |- safeM (match ?x with _ => _ end) => destruct x
  | |- safeM (if ?x then _ else _) => destruct x
  | |- safeM (let '(_, _) := ?x in _) => destruct x
  | |- _ => progress eauto with safe
  end.
Ltac safe_auto := repeat (cbv zeta; safe_step).

(** * Journal primitives *)

Ltac unfold_inner := unfold set_clock, set_nodes, set_overlay, set_pending_ops, set_unflushed_ops,
  set_missing_nodes, set_relationship_index, set_scheduled_node_fetches, set_scope_policies,
  set_max_pending_ops, set_transaction_journal, set_ticks, rel_pending in *.

(** [n]'s current state is in the journal, if there is one. *)
Definition node_journaled (n : string) (i : Inner) : Prop :=
  match transaction_journal i with Some j => is_Some (j_nodes j !! n) | None => True end.

Lemma journal_node_spec n i :
  ∃ j, journal_node n i = set_transaction_journal j i ∧ node_journaled n (journal_node n i) ∧
    (rel_pending (journal_node n i) = rel_pending i) ∧
    (transaction_journal i = None → j = None).
Proof.
  unfold journal_node, node_journaled, rel_pending. destruct (transaction_journal i) as [j|] eqn:E.
  - case_decide as Hd.
    + exists (Some j). split_and!; [by destruct i; simpl in *; subst|by rewrite E|by rewrite E|done].
    + eexists. split_and!; [done| |done|done]. simpl. rewrite lookup_insert_eq. eauto.
  - exists None. split_and!; [by destruct i; simpl in *; subst|by rewrite E|by rewrite E|done].
Qed.

Lemma journal_node_wf X n i : wf_but X i → wf_but X (journal_node n i).
Proof.
  intros Hi. destruct (journal_node_spec n i) as (j & E & _ & Hp & _).
  split; intros; rewrite ?Hp in *; rewrite E in *; simpl in *; by apply Hi.
Qed.

Lemma kept_insert {V} (saved : gmap string (option V)) now old n :
  kept saved now old → saved !! n = None → kept (<[n := now !! n]> saved) now old.
Proof.
  intros Hk Hn m. destruct (decide (n = m)) as [->|Hne].
  - rewrite lookup_insert_eq. specialize (Hk m). by rewrite Hn in Hk.
  - rewrite lookup_insert_ne by done. apply Hk.
Qed.

Lemma kept_set_insert saved now old n :
  kept_set saved now old → saved !! n = None →
  kept_set (<[n := bool_decide (n ∈ now)]> saved) now old.
Proof.
  intros Hk Hn m. destruct (decide (n = m)) as [->|Hne].
  - rewrite lookup_insert_eq. specialize (Hk m). rewrite Hn in Hk. by apply bool_decide_ext.
  - rewrite lookup_insert_ne by done. apply Hk.
Qed.

Lemma journal_node_jrel n i0 i : jrel i0 i → jrel i0 (journal_node n i).
Proof.
  unfold journal_node. destruct i0 as [i0|]; [|idle].
  intros (j & Ej & Hj). rewrite Ej. case_decide as Hd; [by exists j|].
  eexists. split; [done|]. destruct Hj. split; simpl; try done.
  apply kept_insert; [done|]. by apply eq_None_not_Some.
Qed.

Lemma journal_node_safe n : safe (journal_node n).
Proof. intros i Hi. split; [by apply journal_node_wf|]. intros. by apply journal_node_jrel. Qed.

Lemma journal_missing_clear n : clear (journal_missing_node n).
Proof.
  intros X i Hi. unfold journal_missing_node. destruct (transaction_journal i) as [j|] eqn:E; [|eauto].
  case_decide as Hd; [eauto|]. split.
  - destruct Hi as [H1 H2 H3 H4 H5 H6]. unfold rel_pending in H6. rewrite E in H6. by split.
  - intros [i0|]; [|idle]. intros (j' & Ej & Hj). simplify_eq/=. eexists. split; [done|]. destruct Hj. split; simpl; try done.
    apply kept_set_insert; [done|]. by apply eq_None_not_Some.
Qed.

Lemma journal_scheduled_clear n : clear (journal_scheduled_node_fetch n).
Proof.
  intros X i Hi. unfold journal_scheduled_node_fetch. destruct (transaction_journal i) as [j|] eqn:E; [|eauto].
  case_decide as Hd; [eauto|]. split.
  - destruct Hi as [H1 H2 H3 H4 H5 H6]. unfold rel_pending in H6. rewrite E in H6. by split.
  - intros [i0|]; [|idle]. intros (j' & Ej & Hj). simplify_eq/=. eexists. split; [done|]. destruct Hj. split; simpl; try done.
    apply kept_set_insert; [done|]. by apply eq_None_not_Some.
Qed.

(** * Steps that touch one part of the state *)

Lemma set_clock_safe f : safe (λ i, set_clock (f i) i).
Proof.
  intros i Hi. split; [by destruct Hi; split|]. intros [i0|]; [|idle]. intros (j & Ej & []). by exists j; split; [|split].
Qed.

Lemma set_ticks_safe f : safe (λ i, set_ticks (f i) i).
Proof.
  intros i Hi. split; [by destruct Hi; split|]. intros [i0|]; [|idle]. intros (j & Ej & []). by exists j; split; [|split].
Qed.

(** Recording whether a node was missing, then changing that. *)
Definition missing_journaled (n : string) (i : Inner) : Prop :=
  match transaction_journal i with Some j => is_Some (j_missing j !! n) | None => True end.

Lemma journal_missing_journaled n i : missing_journaled n (journal_missing_node n i).
Proof.
  unfold journal_missing_node, missing_journaled. destruct (transaction_journal i) as [j|] eqn:E.
  - case_decide; simpl; [by rewrite E|]. rewrite lookup_insert_eq. eauto.
  - by rewrite E.
Qed.

Lemma set_missing_clear n (f : Inner → gset string) :
  (∀ i m, m ≠ n → m ∈ f i ↔ m ∈ missing_nodes i) →
  clear (λ i, let i' := journal_missing_node n i in set_missing_nodes (f i') i').
Proof.
  intros Hf. cbv zeta. intros X i Hi. destruct (journal_missing_clear n X i Hi) as [Hi' Hj'].
  pose proof (journal_missing_journaled n i) as Hn. set (i' := journal_missing_node n i) in *. split.
  - by destruct Hi'; split.
  - intros [i0|] Hj; [|by apply (Hj' None)]. destruct (Hj' (Some i0) Hj) as (j & Ej & []). exists j. split; [done|]. split; try done.
    intros m. unfold missing_journaled in Hn. rewrite Ej in Hn. specialize (jl_missing0 m).
    destruct (j_missing j !! m) eqn:Em; [done|]. simpl. rewrite Hf; [done|].
    intros ->. rewrite Em in Hn. by destruct Hn.
Qed.

Lemma journal_queue_push_unflushed op :
  safe (λ i, let i' := journal_operation_queue Unflushed op i in
             set_unflushed_ops (push (unflushed_ops i') op) i').
Proof.
  cbv zeta. intros i Hi. unfold journal_operation_queue.
  destruct (transaction_journal i) as [j|] eqn:Ej; split.
  - destruct Hi as [H1 H2 H3 H4 H5 H6]. unfold rel_pending in H6. rewrite Ej in H6.
    split; simpl; try done. by apply push_wf.
  - intros [i0|]; [|idle]. intros (j' & Ej' & Hj). simplify_eq/=. eexists. split; [done|]. destruct Hj. split; simpl; try done.
    by apply (undo_inv_push _ (unflushed_ops i, j_unflushed j)).
  - destruct Hi as [H1 H2 H3 H4 H5 H6]. split; try done. by apply push_wf.
  - intros [i0|]; [|idle]. intros (j' & Ej' & _). congruence.
Qed.

Lemma journal_queue_push_pending op :
  safe (λ i, let i' := journal_operation_queue Pending op i in
             set_pending_ops (push (pending_ops i') op) i').
Proof.
  cbv zeta. intros i Hi. unfold journal_operation_queue.
  destruct (transaction_journal i) as [j|] eqn:Ej; split.
  - destruct Hi as [H1 H2 H3 H4 H5 H6]. unfold rel_pending in H6. rewrite Ej in H6.
    split; simpl; try done. by apply push_wf.
  - intros [i0|]; [|idle]. intros (j' & Ej' & Hj). simplify_eq/=. eexists. split; [done|]. destruct Hj. split; simpl; try done.
    by apply (undo_inv_push _ (pending_ops i, j_pending j)).
  - destruct Hi as [H1 H2 H3 H4 H5 H6]. split; try done. by apply push_wf.
  - intros [i0|]; [|idle]. intros (j' & Ej' & _). congruence.
Qed.

(** * The overlay *)

Lemma record_entry_key state e key :
  record_entry_from_node_state state = Some e → record_key_from_node_state state = Some key →
  entry_key e = key.
Proof.
  unfold record_entry_from_node_state. intros He Hk. rewrite Hk in He.
  destruct (fields state !! "value") as [f|]; [|done]. by destruct (value f); simplify_eq.
Qed.

Lemma refresh_keyed nodes o n :
  overlay_keyed (overlay_entries o) →
  overlay_keyed (overlay_entries (refresh_record_overlay nodes o n)).
Proof.
  intros Ho. unfold refresh_record_overlay. destruct (is_record_node_id n); [|done].
  set (o' := match overlay_node_keys o !! n with Some _ => _ | None => _ end).
  assert (overlay_keyed (overlay_entries o')) as Ho'.
  { unfold o'. destruct (overlay_node_keys o !! n); [|done].
    intros k e He. simpl in He. apply lookup_delete_Some in He as [_ He]. by apply Ho. }
  destruct (nodes !! n) as [st|]; [|done].
  destruct (record_key_from_node_state st) as [key|] eqn:Ek; [|done].
  intros k e. simpl. rewrite lookup_insert_Some. intros [[<- He]|[_ He]]; [|by apply Ho'].
  by eapply record_entry_key.
Qed.

Lemma set_overlay_clear f :
  (∀ i, overlay_keyed (overlay_entries (overlay i)) → overlay_keyed (overlay_entries (f i))) →
  clear (λ i, set_overlay (f i) i).
Proof.
  intros Hf X i Hi. split.
  - destruct Hi; split; try done. simpl. by apply Hf.
  - intros [i0|]; [|idle]. intros (j & Ej & []). by exists j; split; [|split].
Qed.

(** * The graph and its index *)

Lemma set_nodes_wf X n g i :
  wf_but X i → graph_wf g → (∀ k, k ≠ n → g !! k = nodes i !! k) → wf_but ({[n]} ∪ X) (set_nodes g i).
Proof.
  intros [] Hg Hsame. split; try done. simpl. intros e Hp HX. rewrite wf_edges0 by set_solver.
  unfold graph_edge. rewrite Hsame by set_solver. done.
Qed.

Lemma set_nodes_jrel n g i0 i :
  jrel i0 i → node_journaled n i → (∀ k, k ≠ n → g !! k = nodes i !! k) → jrel i0 (set_nodes g i).
Proof.
  destruct i0 as [i0|]; [|done].
  intros (j & Ej & []) Hn Hsame. exists j. split; [done|]. split; try done. simpl.
  unfold node_journaled in Hn. rewrite Ej in Hn. intros k. specialize (jl_nodes0 k).
  destruct (j_nodes j !! k) eqn:Ek; [done|]. rewrite Hsame; [done|].
  intros ->. rewrite Ek in Hn. by destruct Hn.
Qed.

Lemma reindex_wf_but X n i :
  wf_but X i → wf_but (X ∖ {[n]}) (reindex_node_relationships n i).
Proof.
  intros Hi. apply (journal_node_wf _ n) in Hi. unfold reindex_node_relationships.
  set (i' := journal_node n i) in *. destruct Hi. split; try done; simpl.
  - by apply reindex_wf.
  - intros e Hp HX. rewrite reindex_has by done. case_decide; [done|]. apply wf_edges0; [done|set_solver].
Qed.

Lemma request_reindex_wf X n i :
  wf_but X i → wf_but (X ∖ {[n]}) (request_reindex_node_relationships n i).
Proof.
  intros Hi. unfold request_reindex_node_relationships.
  destruct (transaction_journal i) as [j|] eqn:Ej; [|by apply reindex_wf_but].
  destruct Hi. split; try done. simpl. intros e Hp HX. apply wf_edges0; [|set_solver].
  unfold rel_pending. rewrite Ej. set_solver.
Qed.

Lemma request_reindex_jrel n i0 i : jrel i0 i → jrel i0 (request_reindex_node_relationships n i).
Proof.
  unfold request_reindex_node_relationships. destruct i0 as [i0|].
  2: { intros Hn. simpl in Hn. rewrite Hn. exact (journal_node_jrel n None i Hn). }
  intros (j & Ej & []). rewrite Ej.
  eexists. split; [done|]. split; simpl; try done; [set_solver|]. intros e He. apply jl_edges0. set_solver.
Qed.

(** Change one journaled node, then refresh its index entries. *)
Lemma update_node_safe n (g : Inner → gmap string NodeState) (f : Inner → Inner) :
  (∀ i, graph_wf (nodes i) → graph_wf (g i)) →
  (∀ i k, k ≠ n → g i !! k = nodes i !! k) → clear f →
  safe (λ i, let i1 := journal_node n i in
             request_reindex_node_relationships n (f (set_nodes (g i1) i1))).
Proof.
  intros Hg Hsame Hf. cbv zeta. intros i Hi.
  destruct (journal_node_spec n i) as (j & E & Hn & _).
  pose proof (journal_node_wf _ n i Hi) as Hi1. set (i1 := journal_node n i) in *.
  assert (wf_but ({[n]} ∪ ∅) (set_nodes (g i1) i1)) as Hi2.
  { apply set_nodes_wf; [done|apply Hg; apply Hi1|apply Hsame]. }
  destruct (Hf _ _ Hi2) as [Hi3 Hj3]. split.
  - unfold inner_wf. replace (∅ : gset string) with (({[n]} ∪ ∅) ∖ {[n]} : gset string) by set_solver.
    by apply request_reindex_wf.
  - intros i0 Hj. apply request_reindex_jrel, Hj3, set_nodes_jrel with n; [|done|apply Hsame].
    by apply journal_node_jrel.
Qed.

Lemma apply_action_wf op g : graph_wf g → graph_wf (apply_action op g).1.
Proof. apply (apply_all_wf g [op]). Qed.

Lemma apply_action_other op g k : k ≠ operation_source_node op → (apply_action op g).1 !! k = g !! k.
Proof. intros Hk. unfold apply_action. simpl. by apply lookup_insert_ne. Qed.

Lemma apply_action_rejected op g :
  (apply_action op g).2 = false →
  (apply_action op g).1 = <[operation_source_node op := node_entry (operation_source_node op) g]> g.
Proof.
  unfold apply_action. simpl. intros Hr. f_equal. revert Hr. unfold_apply.
  destruct (action op); repeat case_match; done.
Qed.

(** Creating a node adds no relationship. *)
Lemma entry_edges g n e : graph_edge (<[n := node_entry n g]> g) e ↔ graph_edge g e.
Proof.
  unfold graph_edge. destruct (decide (n = edge_source e)) as [->|Hne]; [|by rewrite lookup_insert_ne].
  rewrite lookup_insert_eq. unfold node_entry. destruct (g !! edge_source e) as [st|]; [done|]. simpl.
  split; [|by intros (? & ? & _)]. intros (st & [= <-] & He). by apply not_elem_of_nil in He.
Qed.

Lemma entry_wf g n : graph_wf g → graph_wf (<[n := node_entry n g]> g).
Proof.
  intros Hg k st. rewrite lookup_insert_Some. intros [[<- <-]|[_ ?]]; [|by apply Hg].
  unfold node_entry. destruct (g !! n) eqn:E; [by apply Hg|done].
Qed.

Lemma set_nodes_entry n i :
  inner_wf i → node_journaled n i →
  let i' := set_nodes (<[n := node_entry n (nodes i)]> (nodes i)) i in
  inner_wf i' ∧ ∀ i0, jrel i0 i → jrel i0 i'.
Proof.
  intros Hi Hn. split.
  - destruct Hi. split; try done; simpl; [by apply entry_wf|]. intros e Hp HX. rewrite entry_edges.
    by apply wf_edges0.
  - intros i0 Hj. apply set_nodes_jrel with n; [done|done|]. intros k Hk. by apply lookup_insert_ne.
Qed.

Lemma apply_operation_safe op origin : safe (λ i, (apply_operation_internal op origin i).1).
Proof.
  intros i Hi. unfold apply_operation_internal.
  destruct (bool_decide (origin = Local) && _); [by apply safe_id|].
  destruct (bool_decide (origin = Remote) && _); [by apply safe_id|]. cbv zeta.
  set (n := operation_source_node op).
  destruct (set_clock_safe (λ i, observe (op_revision op) (clock i)) i Hi) as [Hc Hcj].
  set (ic := set_clock _ i) in *.
  destruct (apply_action op (nodes (journal_node n ic))).2 eqn:Hacc.
  - pose proof (update_node_safe n (λ i, (apply_action op (nodes i)).1)
      _ (λ i, apply_action_wf op (nodes i)) (λ i k, apply_action_other op (nodes i) k)
      (set_overlay_clear (λ i, refresh_record_overlay (nodes i) (overlay i) n)
         (λ i, refresh_keyed (nodes i) (overlay i) n)) ic Hc) as [Hu Huj]. cbv zeta in Hu, Huj.
    set (iu := request_reindex_node_relationships n _) in *.
    destruct (journal_queue_push_unflushed op iu Hu) as [Hq Hqj]. cbv zeta in Hq, Hqj.
    set (iq := set_unflushed_ops _ _) in *.
    destruct (bool_decide (origin = Local)); simpl; [|split; eauto].
    destruct (journal_queue_push_pending op iq Hq) as [Hp Hpj]. split; eauto.
  - rewrite apply_action_rejected by done. simpl.
    destruct (journal_node_spec n ic) as (_ & _ & Hn & _).
    destruct (set_nodes_entry n (journal_node n ic)) as [H1 H2]; [by apply journal_node_wf|done|].
    split; eauto using journal_node_jrel.
Qed.
#[export] Hint Resolve apply_operation_safe : safe.

(** * Loading, creating and writing nodes *)

Lemma merge_node_state_other g st k : k ≠ id st → merge_node_state g st !! k = g !! k.
Proof. intros Hk. unfold merge_node_state. by apply lookup_insert_ne. Qed.

Lemma merge_node_state_wf g st : graph_wf g → graph_wf (merge_node_state g st).
Proof.
  intros Hg k st'. unfold merge_node_state. rewrite lookup_insert_Some. intros [[<- <-]|[_ ?]]; [|by apply Hg].
  rewrite merge_into_id. unfold node_entry. destruct (g !! id st) eqn:E; [by apply Hg|done].
Qed.

Section env.
Context `{HC : Codec, HE : Env, HL : !EnvLaws}.

Lemma maybe_load_node_safe n : safeM (maybe_load_node n).
Proof.
  intros i Hi. unfold maybe_load_node. cbv zeta.
  destruct (match nodes i !! n with Some _ => _ | None => _ end); [by apply safe_id|].
  case_bool_decide; [by apply safe_id|].
  destruct storage_engine as [engine|] eqn:Ee; [|by apply safe_id].
  destruct (get_node engine n) as [[st|]|e] eqn:Eg; [| |by apply safe_id].
  - pose proof (stored_under_id engine n st Ee Eg) as Hid.
    apply (update_node_safe n (λ i, merge_node_state (nodes i) st)
      (λ i, let i' := journal_missing_node n i in set_missing_nodes (missing_nodes i' ∖ {[n]}) i')); [| | |done].
    + intros j. apply merge_node_state_wf.
    + intros j k Hk. apply merge_node_state_other. congruence.
    + apply (set_missing_clear n (λ i, missing_nodes i ∖ {[n]})). set_solver.
  - case_decide; [by apply safe_id|].
    apply (clear_safe _ (set_missing_clear n (λ i, {[n]} ∪ missing_nodes i) ltac:(set_solver)) i Hi).
Qed.

Lemma journal_missing_keeps n m i : node_journaled n i → node_journaled n (journal_missing_node m i).
Proof.
  unfold node_journaled, journal_missing_node. destruct (transaction_journal i) as [j|] eqn:E.
  - case_decide; simpl; by rewrite ?E.
  - by rewrite E.
Qed.

Lemma ensure_node_safe n : safe (ensure_node n).
Proof.
  intros i Hi. unfold ensure_node. cbv zeta. destruct (journal_node_spec n i) as (_ & _ & Hn & _).
  destruct (journal_node_safe n i Hi) as [H1 H1j]. set (i1 := journal_node n i) in *.
  pose proof (journal_missing_keeps n n i1 Hn) as Hn2.
  destruct (set_missing_clear n (λ i, missing_nodes i ∖ {[n]}) ltac:(set_solver) _ i1 H1) as [H2 H2j].
  cbv zeta in H2, H2j. set (i2 := set_missing_nodes _ _) in *.
  destruct (set_nodes_entry n i2 H2) as [H3 H3j]; [done|]. split; eauto.
Qed.

Lemma write_local_safe ns a : safe (write_local ns a).
Proof.
  intros i Hi. unfold write_local, local_operation.
  destruct (next_revision (now_millis (ticks i)) (clock i)) as [rev c].
  destruct (next_op_id ns c) as [op_id c'].
  destruct (set_ticks_safe (λ i, S (ticks i)) i Hi) as [H1 H1j].
  destruct (set_clock_safe (λ _, c') _ H1) as [H2 H2j].
  destruct (apply_operation_safe (mkOp op_id (actor c') rev a) Local _ H2) as [H3 H3j]. split; eauto.
Qed.

Lemma set_field_safe n f v : safe (set_field n f v).
Proof. apply write_local_safe. Qed.
Lemma delete_field_safe n f : safe (delete_field n f).
Proof. apply write_local_safe. Qed.
Lemma add_set_member_safe n f m : safe (add_set_member n f m).
Proof. apply write_local_safe. Qed.
Lemma remove_member_safe n f m : safe (remove_member_from_set n f m).
Proof. apply write_local_safe. Qed.

Lemma fresh_node_id_safe hint : safeM (fresh_node_id hint).
Proof.
  intros i Hi. unfold fresh_node_id. destruct (next_node_id hint (clock i)) as [n c]. simpl.
  by apply (set_clock_safe (λ _, c)).
Qed.

Lemma check_write_safe a segs : safeM (check_write_allowed a segs).
Proof. apply safe_id. Qed.

#[local] Hint Resolve maybe_load_node_safe ensure_node_safe set_field_safe delete_field_safe
  add_set_member_safe remove_member_safe fresh_node_id_safe check_write_safe : safe.

Lemma ensure_path_safe segs n : safeM (ensure_path n segs).
Proof. revert n. induction segs as [|s segs IH]; intros n; simpl; safe_auto. Qed.

Lemma resolve_path_safe segs n : safeM (resolve_path n segs).
Proof. revert n. induction segs as [|s segs IH]; intros n; simpl; safe_auto. Qed.
#[local] Hint Resolve ensure_path_safe resolve_path_safe : safe.

Lemma ensure_field_cursor_safe a segs : safeM (ensure_field_cursor a segs).
Proof. unfold ensure_field_cursor. safe_auto. Qed.

Lemma resolve_cursor_safe a segs : safeM (resolve_cursor a segs).
Proof. unfold resolve_cursor. safe_auto. Qed.
#[local] Hint Resolve ensure_field_cursor_safe resolve_cursor_safe : safe.

Lemma safeM_ext {A} (m m' : M A) : (∀ i, m i = m' i) → safeM m' → safeM m.
Proof. intros Heq Hm i. rewrite Heq. apply Hm. Qed.

Lemma write_fields_safe o n p :
  (∀ k x, (k, x) ∈ o → ∀ n f p, safeM (write_value_to_field x n f p)) → safeM (write_fields o n p).
Proof.
  induction o as [|[k x] o IH]; intros Hx; cbn [write_fields]; [apply safeM_ret|].
  apply safeM_bind; [eapply Hx; left|]. intros. apply IH. intros. eapply Hx. by right.
Qed.

Lemma parse_members_object items p ms o :
  parse_members items p = Ok ms → MObject o ∈ ms → JObject o ∈ items.
Proof.
  revert ms. induction items as [|x items IH]; intros ms; simpl; [by intros [= <-] ?%not_elem_of_nil|].
  destruct x as [| | | | |o']; try done. destruct (parse_members items p) as [ms'|]; [|done]. intros [= <-].
  intros [Ho|Ho]%elem_of_cons; [|right; by eapply IH]. destruct (parse_link_marker o'); simplify_eq. left.
Qed.

Lemma write_members_safe f p ms k ids :
  (∀ o, MObject o ∈ ms → ∀ n p, safeM (write_fields o n p)) → safeM (write_members f p ms k ids).
Proof.
  revert k ids. induction ms as [|[t|o] ms IH]; intros k ids Ho; cbn [write_members]; [apply safeM_ret|..].
  - apply IH. intros. apply Ho. by right.
  - unfold write_object_to_node. safe_auto; [apply Ho; left|]. apply IH. intros. apply Ho. by right.
Qed.

(** Writing a value, by induction on its size. *)
Lemma write_value_safe v n f p : safeM (write_value_to_field v n f p).
Proof.
  remember (json_size v) as size eqn:Es. revert v Es n f p.
  induction size as [size IH] using lt_wf_ind. intros v -> n f p.
  assert (∀ o, json_size (JObject o) ≤ json_size v → ∀ n p, safeM (write_fields o n p)) as Hfields.
  { intros o Ho n' p'. apply write_fields_safe. intros k x Hx. eapply IH; [|done].
    eapply Nat.lt_le_trans; [by eapply json_size_field|done]. }
  apply (safeM_ext _ (lift (parse_input v p) ≫= write_parsed n f p)); [intros i; apply write_value_eq|].
  pose proof (parse_input_container v p) as Hc. destruct (parse_input v p) as [parsed|e] eqn:Hp; [|apply safe_id].
  change (safeM (write_parsed n f p parsed)). unfold write_parsed, write_object_to_node.
  destruct parsed as [s|b|r|t|ms|o]; safe_auto.
  - destruct Hc as [items ->]. apply write_members_safe. intros o Ho. apply Hfields.
    simpl in Hp. destruct (parse_members items p) as [ms'|] eqn:Em; simplify_eq.
    apply (parse_members_object _ _ _ _ Em), json_size_item in Ho. simpl in *. lia.
  - subst v. by apply Hfields.
Qed.
#[local] Hint Resolve write_value_safe : safe.

Lemma write_object_safe n o p : safeM (write_object_to_node n o p).
Proof. unfold write_object_to_node. safe_auto. apply write_fields_safe. intros. apply write_value_safe. Qed.
#[local] Hint Resolve write_object_safe : safe.

(** * The write operations *)

Lemma put_json_safe a segs v : safeM (put_json_inner a segs v).
Proof. unfold put_json_inner. safe_auto. Qed.

Lemma field_cursor_safe a segs : safeM (field_cursor a segs).
Proof. unfold field_cursor. safe_auto. Qed.
#[local] Hint Resolve field_cursor_safe : safe.

Lemma unset_safe a segs : safeM (unset_inner a segs).
Proof. unfold unset_inner. safe_auto. Qed.

Lemma set_json_safe a segs v : safeM (set_json_inner a segs v).
Proof. unfold set_json_inner, add_member_to_set. safe_auto. Qed.

Lemma remove_json_safe a segs v : safeM (remove_json_inner a segs v).
Proof. unfold remove_json_inner. safe_auto. Qed.

Lemma put_record_safe key v : safeM (put_record_inner key v).
Proof. unfold put_record_inner. safe_auto. Qed.

Lemma delete_record_safe key : safeM (delete_record_inner key).
Proof. unfold delete_record_inner. safe_auto. Qed.

Lemma record_entry_safe key : safeM (record_entry_from_inner key).
Proof. unfold record_entry_from_inner. safe_auto. Qed.
#[local] Hint Resolve record_entry_safe : safe.

Lemma record_precondition_safe p : safeM (assert_record_precondition p).
Proof. unfold assert_record_precondition. safe_auto. Qed.

(** * Reads *)

Definition safeR {A} (f : Inner → Inner * A) : Prop := safe (λ i, (f i).1).

Lemma thread_safe {A B} (f : A → Inner → Inner * option B) l :
  (∀ a, safeR (f a)) → safeR (thread f l).
Proof.
  intros Hf. induction l as [|a l IH]; [apply safe_id|]. intros i Hi. cbn [thread].
  destruct (Hf a i Hi) as [H1 H1j]. destruct (f a i) as [i1 [b|]]; simpl in *; [|done].
  destruct (IH i1 H1) as [H2 H2j]. destruct (thread f l i1) as [i2 [bs|]]; simpl in *; split; eauto.
Qed.

Lemma materialize_node_safe fuel n visited : safeR (materialize_node fuel n visited).
Proof.
  revert n visited. induction fuel as [|fuel IH]; intros n visited; [apply safe_id|].
  intros i Hi. cbn [materialize_node]. case_decide; [by apply safe_id|]. cbv zeta.
  destruct (maybe_load_node_safe n i Hi) as [H1 H1j]. set (i1 := (maybe_load_node n i).1) in *.
  destruct (nodes i1 !! n) as [st|]; [|simpl; split; eauto].
  match goal with |- context [thread ?g (btree_list (fields st)) i1] =>
    assert (safeR (thread g (btree_list (fields st)))) as Ht end.
  { apply thread_safe. intros [k fs] i2 Hi2. simpl. destruct (value fs); simpl; try by apply safe_id.
    - by apply IH.
    - by apply (thread_safe (λ m, materialize_node fuel m ({[n]} ∪ visited))). }
  destruct (Ht i1 H1) as [H2 H2j]. destruct (thread _ _ i1) as [i2 [kvs|]]; simpl in *; split; eauto.
Qed.

Lemma materialize_field_safe fuel n f fv : safeR (materialize_field fuel n f fv).
Proof.
  destruct fv; simpl; try apply safe_id; [apply materialize_node_safe|].
  intros i Hi. simpl. apply (thread_safe (λ m, materialize_node fuel m ∅)); [|done].
  intros m. apply materialize_node_safe.
Qed.

Lemma embed_safe {A} (f : Inner → Inner * A) : safeR f → safeM (embed f).
Proof. done. Qed.

Lemma materialize_safe a segs : safeM (materialize_inner a segs).
Proof.
  unfold materialize_inner. safe_auto; apply embed_safe.
  - intros i Hi. by apply materialize_node_safe.
  - intros i Hi. destruct (field_of i node field); [by apply materialize_field_safe|by apply safe_id].
Qed.

Lemma path_exists_safe a segs : safeM (path_exists_inner a segs).
Proof. unfold path_exists_inner. safe_auto. Qed.

Lemma revision_at_safe a segs : safeM (revision_at_inner a segs).
Proof. unfold revision_at_inner. safe_auto. Qed.
End env.

#[export] Hint Resolve maybe_load_node_safe ensure_node_safe set_field_safe delete_field_safe
  add_set_member_safe remove_member_safe fresh_node_id_safe check_write_safe ensure_path_safe
  resolve_path_safe ensure_field_cursor_safe resolve_cursor_safe write_value_safe write_object_safe
  put_json_safe field_cursor_safe unset_safe set_json_safe remove_json_safe put_record_safe
  delete_record_safe record_entry_safe record_precondition_safe materialize_safe path_exists_safe
  revision_at_safe : safe.
