(* ===== verification/Tx.v ===== *)
(** Local transactions ([run_local_transaction_in_scope], [TransactionJournal],
[TransactionChain] and [apply_record_batch] of [src/src/db.rs]): a body of steps
runs under a journal, which is dropped on success and replayed backwards on
failure. *)
From stdpp Require Import base gmap sets list strings sorting.
From Stdlib Require Import ZArith Lia.
From S2P Require Import Prelude Clock Value Crdt Merge OpQueue RelIndex Paths Records Input Inner Read InnerWf.

(** * Begin and restore *)

(** [TransactionJournal::begin]. *)
Definition journal_begin (i : Inner) : TransactionJournal :=
  mkJournal (clock i) ∅ (overlay i) (undo_new (queue_len (pending_ops i)))
    (undo_new (queue_len (unflushed_ops i))) ∅ ∅ ∅ ∅.

Definition restore_node (g : gmap string NodeState) (p : string * option NodeState)
    : gmap string NodeState :=
  match p.2 with Some state => <[p.1 := state]> g | None => delete p.1 g end.

(** [restore_set_membership]. *)
Definition restore_set_membership (s : gset string) (p : string * bool) : gset string :=
  if p.2 then {[p.1]} ∪ s else s ∖ {[p.1]}.

(** [TransactionJournal::restore], on a state whose journal was taken. *)
Definition journal_restore (j : TransactionJournal) (i : Inner) : Inner :=
  let i := set_clock (j_clock j) i in
  let i := set_pending_ops (undo_restore (j_pending j) (pending_ops i)) i in
  let i := set_unflushed_ops (undo_restore (j_unflushed j) (unflushed_ops i)) i in
  let i := set_nodes (foldl restore_node (nodes i) (btree_list (j_nodes j))) i in
  let i := set_missing_nodes
             (foldl restore_set_membership (missing_nodes i) (btree_list (j_missing j))) i in
  let i := set_scheduled_node_fetches
             (foldl restore_set_membership (scheduled_node_fetches i) (btree_list (j_scheduled j))) i in
  let i := foldl (λ i node, reindex_node_relationships node i) i (btree_elems (j_rel_sources j)) in
  set_overlay (j_overlay j) i.

(** * What changed *)

Record ChangeImpact := mkImpact {
  data_changed : bool;
  full_refresh : bool;
  touched_paths : list string;
  records_changed : bool;
  touched_record_keys : list string
}.

Definition operation_is_record_op (op : Operation) : bool :=
  is_record_node_id (operation_source_node op).

Definition operation_touched_record_key (op : Operation) (nodes : gmap string NodeState)
    : option string :=
  let from_node :=
    let node := operation_source_node op in
    if is_record_node_id node then nodes !! node ≫= record_key_from_node_state else None in
  match action op with
  | SetField node field (OScalar (JString key)) =>
      if is_record_node_id node && bool_decide (field = "key") then Some key else from_node
  | _ => from_node
  end.

(** [ChangeImpact::from_ops]. *)
Definition impact_from_ops (ops : list Operation) (nodes : gmap string NodeState) : ChangeImpact :=
  let record_ops := filter (λ op, operation_is_record_op op = true) ops in
  let keys := (λ op, operation_touched_record_key op nodes) <$> record_ops in
  mkImpact (negb (bool_decide (ops = []))) false
    (btree_elems (list_to_set (operation_touched_path <$> ops)))
    (negb (bool_decide (record_ops = [])))
    (if forallb (λ k, bool_decide (is_Some k)) keys
     then btree_elems (list_to_set (omap Datatypes.id keys)) else []).

Definition impact_is_empty (c : ChangeImpact) : bool :=
  negb (data_changed c) && negb (full_refresh c) && bool_decide (touched_paths c = [])
  && negb (records_changed c) && bool_decide (touched_record_keys c = []).

(** * Running a transaction *)

(** The part of [run_local_transaction_in_scope] under the lock.  The body gives
its value and the member ids it created; a missing journal is the source's
[expect]. *)
Definition run_local_transaction {A} (body : M (A * list string)) (i : Inner)
    : Inner * result (A * list string * nat * ChangeImpact) :=
  let i := set_transaction_journal (Some (journal_begin i)) i in
  let start_unflushed_len := queue_len (unflushed_ops i) in
  match body i with
  | (i, Ok (a, member_ids)) =>
      let ops := drop start_unflushed_len (operations (unflushed_ops i)) in
      let i := flush_pending_relationship_index i in
      let i := set_transaction_journal None i in
      (i, Ok (a, member_ids, length ops, impact_from_ops ops (nodes i)))
  | (i, Err e) =>
      match transaction_journal i with
      | Some rollback => (journal_restore rollback (set_transaction_journal None i), Err e)
      | None => (i, Err (Message "local transaction journal missing"))
      end
  end.

Section env.
Context `{HC : Codec, HE : Env}.

Definition conflict (message : string) : PrimadbError := TransactionConflict message.

(** [f64 + f64] and [Number::from_f64]. *)
Definition f64_add (x y : SpecFloat.spec_float) : SpecFloat.spec_float := SpecFloat.SFadd 53 1024 x y.

Definition number_from_f64 (f : SpecFloat.spec_float) : option number :=
  match f with
  | SpecFloat.S754_infinity _ | SpecFloat.S754_nan => None
  | _ => Some (Float f)
  end.

(** [TransactionChain::increment]. *)
Definition increment (a : string) (segs : list string) (by_ : SpecFloat.spec_float)
    : M SpecFloat.spec_float :=
  current ← materialize_inner a segs;
  base ← match current with
         | Some (JNumber n) => mret (as_f64 n)
         | Some _ => throw (conflict ("`" +:+ display_path a segs +:+ "` is not numeric"))
         | None => mret (SpecFloat.S754_zero false)
         end;
  let next := f64_add base by_ in
  match number_from_f64 next with
  | None => throw (conflict ("increment produced a non-finite value at `" +:+ display_path a segs +:+ "`"))
  | Some n => _ ← put_json_inner a segs (JNumber n); mret next
  end.

Definition assert_exists (a : string) (segs : list string) : M unit :=
  found ← path_exists_inner a segs;
  if found : bool then mret tt
  else throw (conflict ("expected `" +:+ display_path a segs +:+ "` to exist")).

Definition assert_absent (a : string) (segs : list string) : M unit :=
  found ← path_exists_inner a segs;
  if found : bool then throw (conflict ("expected `" +:+ display_path a segs +:+ "` to be absent"))
  else mret tt.

Definition assert_value (a : string) (segs : list string) (expected : json) : M unit :=
  current ← materialize_inner a segs;
  match current with
  | Some v =>
      if json_eqb v expected then mret tt
      else throw (conflict ("expected `" +:+ display_path a segs +:+ "` to equal `"
                              +:+ json_display expected +:+ "`"))
  | None => throw (conflict ("expected `" +:+ display_path a segs +:+ "` to equal `"
                               +:+ json_display expected +:+ "`"))
  end.

Definition assert_revision (a : string) (segs : list string) (expected : option VersionMarker)
    : M unit :=
  current ← revision_at_inner a segs;
  if bool_decide (current = expected) then mret tt
  else throw (conflict ("revision conflict at `" +:+ display_path a segs +:+ "`")).

(** One step of [apply_transaction_steps]: the member ids it records. *)
Definition apply_step (scope_root : option string) (step : TransactionStep) : M (list string) :=
  let '(a, segs) := scoped_anchor_segments scope_root (anchor (transaction_step_path step))
                      (segments (transaction_step_path step)) in
  match step with
  | SPut _ v => _ ← put_json_inner a segs v; mret []
  | SUnset _ => _ ← unset_inner a segs; mret []
  | SSet _ v => member_id ← set_json_inner a segs v; mret [member_id]
  | SRemove _ v => _ ← remove_json_inner a segs v; mret []
  | SAssertExists _ => _ ← assert_exists a segs; mret []
  | SAssertAbsent _ => _ ← assert_absent a segs; mret []
  | SAssertValue _ v => _ ← assert_value a segs v; mret []
  | SAssertRevision _ r => _ ← assert_revision a segs r; mret []
  | SIncrement _ b => _ ← increment a segs b; mret []
  end.

Fixpoint apply_transaction_steps (scope_root : option string) (steps : list TransactionStep)
    (member_ids : list string) : M (unit * list string) :=
  match steps with
  | [] => mret (tt, member_ids)
  | step :: rest =>
      ids ← apply_step scope_root step;
      apply_transaction_steps scope_root rest (member_ids ++ ids)
  end.

(** The transaction of [Primadb::apply_transaction_steps]. *)
Definition run_transaction_steps (scope_root : option string) (steps : list TransactionStep)
    (i : Inner) : Inner * result (unit * list string * nat * ChangeImpact) :=
  match validate_transaction_scopes (scope_policies i) scope_root steps with
  | Err e => (i, Err e)
  | Ok _ => run_local_transaction (apply_transaction_steps scope_root steps []) i
  end.

(** * Record batches *)

Inductive RecordMutation :=
  | MPut (key : string) (v : RecordValue)
  | MDelete (key : string)
  | MDeleteRange (scan : RecordScan).

Record RecordBatch := mkBatch {
  preconditions : list RecordPrecondition;
  mutations : list RecordMutation
}.

Record RecordBatchReport := mkReport {
  r_preconditions : nat;
  r_puts : nat;
  r_deletes : nat;
  r_range_deletes : nat
}.

(** [collect_record_entries_for_scan_locked]; a stored record is a stored node. *)
Definition collect_locked (scan : RecordScan) : M (list RecordEntry) := λ i,
  let fuel := match storage_engine with Some e => S (size (stored_ids e)) | None => 0 end in
  match collect_record_entries_for_scan fuel (overlay_entries (overlay i)) scan
          (scan_record_entries <$> storage_engine) with
  | Some r => (i, r)
  | None => (i, Err (Message "record scan did not end"))
  end.

Fixpoint each {A} (f : A → M unit) (l : list A) : M unit :=
  match l with [] => mret tt | a :: rest => _ ← f a; each f rest end.

Definition apply_mutation (m : RecordMutation) (r : RecordBatchReport) : M RecordBatchReport :=
  match m with
  | MPut key v =>
      _ ← put_record_inner key v;
      mret (mkReport (r_preconditions r) (S (r_puts r)) (r_deletes r) (r_range_deletes r))
  | MDelete key =>
      _ ← delete_record_inner key;
      mret (mkReport (r_preconditions r) (r_puts r) (S (r_deletes r)) (r_range_deletes r))
  | MDeleteRange scan =>
      entries ← collect_locked scan;
      _ ← each (λ e, delete_record_inner (entry_key e)) entries;
      mret (mkReport (r_preconditions r) (r_puts r) (r_deletes r + length entries)
              (r_range_deletes r + length entries))
  end.

Fixpoint apply_mutations (ms : list RecordMutation) (r : RecordBatchReport) : M RecordBatchReport :=
  match ms with
  | [] => mret r
  | m :: rest => r ← apply_mutation m r; apply_mutations rest r
  end.

(** The transaction of [Primadb::apply_record_batch]. *)
Definition record_batch (b : RecordBatch) : M (RecordBatchReport * list string) :=
  _ ← each assert_record_precondition (preconditions b);
  r ← apply_mutations (mutations b) (mkReport (length (preconditions b)) 0 0 0);
  mret (r, []).

Definition apply_record_batch (b : RecordBatch) (i : Inner)
    : Inner * result (RecordBatchReport * list string * nat * ChangeImpact) :=
  run_local_transaction (record_batch b) i.
End env.

(** * Restoring *)

Lemma restore_nodes_lookup l g n :
  NoDup l.*1 →
  foldl restore_node g l !! n =
  match list_to_map (M := gmap string _) l !! n with Some prev => prev | None => g !! n end.
Proof.
  revert g. induction l as [|[m prev] l IH]; intros g Hnd; [done|].
  apply NoDup_cons in Hnd as [Hm Hnd]. cbn [foldl]. rewrite IH by done.
  change (list_to_map ((m, prev) :: l)) with (<[m := prev]> (list_to_map l : gmap string (option NodeState))).
  unfold restore_node. simpl. destruct (decide (m = n)) as [->|Hne].
  - rewrite lookup_insert_eq, not_elem_of_list_to_map_1 by done.
    destruct prev; [apply lookup_insert_eq|apply lookup_delete_eq].
  - rewrite (lookup_insert_ne _ m n) by done.
    destruct prev; [by rewrite lookup_insert_ne|by rewrite lookup_delete_ne].
Qed.

Lemma restore_nodes_kept saved now old :
  kept saved now old → foldl restore_node now (btree_list saved) = old.
Proof.
  intros Hk. apply map_eq. intros n. rewrite restore_nodes_lookup by apply btree_keys_NoDup.
  rewrite btree_list_to_map. specialize (Hk n). by destruct (saved !! n).
Qed.

Lemma restore_membership_elem l s n :
  NoDup l.*1 →
  n ∈ foldl restore_set_membership s l ↔
  match list_to_map (M := gmap string _) l !! n with Some b => b = true | None => n ∈ s end.
Proof.
  revert s. induction l as [|[m b] l IH]; intros s Hnd; [done|].
  apply NoDup_cons in Hnd as [Hm Hnd]. cbn [foldl]. rewrite IH by done.
  change (list_to_map ((m, b) :: l)) with (<[m := b]> (list_to_map l : gmap string bool)).
  unfold restore_set_membership. simpl. destruct (decide (m = n)) as [->|Hne].
  - rewrite lookup_insert_eq, not_elem_of_list_to_map_1 by done. destruct b; set_solver.
  - rewrite (lookup_insert_ne _ m n) by done.
    destruct (list_to_map l !! n); [done|]. destruct b; set_solver.
Qed.

Lemma restore_membership_kept saved now old :
  kept_set saved now old → foldl restore_set_membership now (btree_list saved) = old.
Proof.
  intros Hk. apply set_eq. intros n. rewrite restore_membership_elem by apply btree_keys_NoDup.
  rewrite btree_list_to_map. specialize (Hk n). destruct (saved !! n); [|done].
  subst. apply bool_decide_eq_true.
Qed.

(** Outside a transaction, reindexing changes the index alone. *)
Lemma reindexes_outside l i :
  transaction_journal i = None →
  foldl (λ i node, reindex_node_relationships node i) i l =
  set_relationship_index (foldl (reindex (nodes i)) (relationship_index i) l) i.
Proof.
  revert i. induction l as [|n l IH]; intros i Hi; [by destruct i|]. cbn [foldl].
  assert (reindex_node_relationships n i =
    set_relationship_index (reindex (nodes i) (relationship_index i) n) i) as ->.
  { unfold reindex_node_relationships, journal_node. by rewrite Hi. }
  by rewrite IH.
Qed.

Lemma inner_ext (x y : Inner) :
  clock x = clock y → nodes x = nodes y → overlay x = overlay y → pending_ops x = pending_ops y →
  unflushed_ops x = unflushed_ops y → missing_nodes x = missing_nodes y →
  relationship_index x = relationship_index y → scheduled_node_fetches x = scheduled_node_fetches y →
  scope_policies x = scope_policies y → max_pending_ops x = max_pending_ops y →
  transaction_journal x = transaction_journal y → ticks x = ticks y → x = y.
Proof. destruct x, y. simpl. congruence. Qed.

(** Replaying the journal gives back the state the transaction began in; only
the count of clock readings goes on. *)
Lemma journal_restores i0 i j :
  inner_wf i0 → transaction_journal i0 = None → index_wf (relationship_index i) → jlog i0 i j →
  journal_restore j (set_transaction_journal None i) = set_ticks (ticks i) i0.
Proof.
  intros Hwf Hnone Hidx Hj. pose proof (jl_edges _ _ _ Hj) as Hedges. destruct Hj.
  unfold journal_restore. cbv zeta.
  rewrite reindexes_outside by done.
  assert (nodes i0 = foldl restore_node (nodes i) (btree_list (j_nodes j))) as Hnodes.
  { symmetry. by apply restore_nodes_kept. }
  apply inner_ext; simpl; try done.
  - by apply (undo_restores (pending_ops i0) (pending_ops i, j_pending j)); [apply Hwf|].
  - by apply (undo_restores (unflushed_ops i0) (unflushed_ops i, j_unflushed j)); [apply Hwf|].
  - by apply restore_membership_kept.
  - rewrite <-Hnodes.
    pose proof (λ e, reindex_all_has (nodes i0) _ (btree_elems (j_rel_sources j)) e Hidx) as Hre.
    apply index_ext; [apply (Hre (mkEdge "" "" "" Link))|apply Hwf|].
    intros e. rewrite (proj2 (Hre e)). pose proof (wf_edges _ _ Hwf e) as He.
    unfold rel_pending in He. rewrite Hnone in He. specialize (He ltac:(set_solver) ltac:(set_solver)).
    case_decide as Hs; [by rewrite He|]. apply Hedges. by rewrite elem_of_btree_elems in Hs.
  - by apply restore_membership_kept.
Qed.

(** * Beginning and committing *)

Lemma begin_wf i : inner_wf i → transaction_journal i = None →
  inner_wf (set_transaction_journal (Some (journal_begin i)) i).
Proof.
  intros Hi Hn. pose proof (wf_edges _ _ Hi) as He. destruct Hi. split; try done. simpl.
  intros e _ HX. apply He; [|done]. unfold rel_pending. rewrite Hn. set_solver.
Qed.

Lemma begin_jrel i : inner_wf i → jrel (Some i) (set_transaction_journal (Some (journal_begin i)) i).
Proof.
  intros []. eexists. split; [done|].
  split; simpl; first [done|by apply undo_inv_new|intros n; by rewrite lookup_empty].
Qed.

Lemma reindexes_wf l X i :
  wf_but X i → wf_but (X ∖ list_to_set l) (foldl (λ i node, reindex_node_relationships node i) i l).
Proof.
  revert X i. induction l as [|n l IH]; intros X i Hi; simpl.
  - by replace (X ∖ ∅) with X by set_solver.
  - replace (X ∖ ({[n]} ∪ list_to_set l)) with ((X ∖ {[n]}) ∖ list_to_set l) by set_solver.
    apply IH. by apply reindex_wf_but.
Qed.

Lemma wf_but_pending i :
  inner_wf i → ∀ j, transaction_journal i = Some j →
  wf_but (j_rel_pending j) (set_transaction_journal (Some (mkJournal (j_clock j) (j_nodes j)
    (j_overlay j) (j_pending j) (j_unflushed j) (j_missing j) (j_scheduled j) (j_rel_sources j) ∅)) i).
Proof.
  intros Hi j Hj. pose proof (wf_edges _ _ Hi) as He. destruct Hi. split; try done. simpl.
  intros e _ HX. apply He; [|set_solver].
  unfold rel_pending. by rewrite Hj.
Qed.

Lemma flush_wf i : inner_wf i → inner_wf (flush_pending_relationship_index i).
Proof.
  intros Hi. unfold flush_pending_relationship_index.
  destruct (transaction_journal i) as [j|] eqn:Ej; [|done].
  pose proof (wf_but_pending i Hi j Ej) as Hj.
  apply (reindexes_wf (btree_elems (j_rel_pending j))) in Hj.
  assert (j_rel_pending j ∖ list_to_set (btree_elems (j_rel_pending j)) = ∅) as E; [|by rewrite E in Hj].
  apply set_eq. intros n. rewrite elem_of_difference, elem_of_list_to_set, elem_of_btree_elems. set_solver.
Qed.

(** No pending reindex is left after a flush. *)
Lemma reindex_pending n i : rel_pending (reindex_node_relationships n i) = rel_pending i.
Proof. destruct (journal_node_spec n i) as (j & _ & _ & Hp & _). by rewrite <-Hp. Qed.

Lemma flush_pending i : rel_pending (flush_pending_relationship_index i) = ∅.
Proof.
  unfold flush_pending_relationship_index. destruct (transaction_journal i) as [j|] eqn:Ej.
  - assert (∀ l k, rel_pending (foldl (λ i node, reindex_node_relationships node i) k l) = rel_pending k) as Hl.
    { induction l as [|n l IH]; intros k; [done|]. cbn [foldl]. by rewrite IH, reindex_pending. }
    by rewrite Hl.
  - unfold rel_pending. by rewrite Ej.
Qed.

Lemma commit_wf i :
  inner_wf i → inner_wf (set_transaction_journal None (flush_pending_relationship_index i)).
Proof.
  intros Hi. pose proof (flush_wf i Hi) as [w1 w2 w3 w4 w5 w6]. split; try done.
  simpl. intros e _. apply w6. rewrite flush_pending. set_solver.
Qed.

(** * A transaction either commits or changes nothing *)

Lemma transaction_outcome {A} (body : M (A * list string)) i :
  safeM body → inner_wf i → transaction_journal i = None →
  match run_local_transaction body i with
  | (i', Ok _) => inner_wf i' ∧ transaction_journal i' = None
  | (i', Err e) => i' = set_ticks (ticks i') i ∧
      ∃ i'', body (set_transaction_journal (Some (journal_begin i)) i) = (i'', Err e)
  end.
Proof.
  intros Hbody Hi Hn. unfold run_local_transaction. cbv zeta.
  set (i1 := set_transaction_journal _ i).
  destruct (Hbody i1 (begin_wf i Hi Hn)) as [H1 H1j]. specialize (H1j (Some i) (begin_jrel i Hi)).
  destruct (body i1) as [i2 [[a ids]|e]]; simpl in *.
  - split; [by apply commit_wf|done].
  - destruct H1j as (j & Ej & Hj). rewrite Ej.
    rewrite (journal_restores i i2 j Hi Hn (wf_index _ _ H1) Hj).
    split; [by destruct i|]. by exists i2.
Qed.

(** * Transaction bodies are safe *)

Section safety.
Context `{HC : Codec, HE : Env, HL : !EnvLaws}.

Lemma increment_safe a segs b : safeM (increment a segs b).
Proof. unfold increment. safe_auto. Qed.

Lemma apply_step_safe scope step : safeM (apply_step scope step).
Proof.
  unfold apply_step, assert_exists, assert_absent, assert_value, assert_revision.
  destruct (scoped_anchor_segments _ _ _) as [a segs]. pose proof increment_safe. safe_auto.
Qed.

Lemma apply_transaction_steps_safe scope steps ids : safeM (apply_transaction_steps scope steps ids).
Proof.
  revert ids. induction steps as [|step steps IH]; intros ids; cbn [apply_transaction_steps]; [apply safeM_ret|].
  apply safeM_bind; [apply apply_step_safe|]. intros. apply IH.
Qed.

Lemma each_safe {A} (f : A → M unit) l : (∀ a, safeM (f a)) → safeM (each f l).
Proof. intros Hf. induction l; cbn [each]; [apply safeM_ret|]. apply safeM_bind; auto. Qed.

Lemma collect_locked_safe scan : safeM (collect_locked scan).
Proof.
  intros i Hi. unfold collect_locked. destruct (collect_record_entries_for_scan _ _ _ _); by apply safe_id.
Qed.

Lemma apply_mutations_safe ms r : safeM (apply_mutations ms r).
Proof.
  pose proof collect_locked_safe. revert r. induction ms as [|m ms IH]; intros r; cbn [apply_mutations]; [apply safeM_ret|].
  apply safeM_bind; [|intros; apply IH]. unfold apply_mutation. safe_auto.
  apply each_safe. intros. apply delete_record_safe.
Qed.

Lemma record_batch_safe b : safeM (record_batch b).
Proof.
  unfold record_batch. apply safeM_bind; [apply each_safe, record_precondition_safe|]. intros.
  apply safeM_bind; [apply apply_mutations_safe|]. intros. apply safeM_ret.
Qed.

(** * Theorems *)

(** C3: transactions are atomic.  From any well-formed state, a transaction of
steps either commits, leaving a well-formed state with no journal, or fails and
leaves exactly the state it started from: clock, graph, overlay, both queues with
their indices, missing and scheduled nodes and the relationship index.  Only the
count of wall-clock readings differs. *)
Theorem transaction_steps_atomic scope steps i :
  inner_wf i → transaction_journal i = None →
  match run_transaction_steps scope steps i with
  | (i', Ok _) => inner_wf i' ∧ transaction_journal i' = None
  | (i', Err _) => i' = set_ticks (ticks i') i
  end.
Proof.
  intros Hi Hn. unfold run_transaction_steps.
  destruct (validate_transaction_scopes _ _ _); [|by destruct i].
  pose proof (transaction_outcome _ i (apply_transaction_steps_safe scope steps []) Hi Hn) as Ho.
  destruct (run_local_transaction _ i) as [i' [|]]; [done|]. apply Ho.
Qed.


(** The bound [collect_locked] puts on the scan loop is enough for a store that
keeps its promise and stores a node per record. *)
Lemma collect_locked_ends e `{!RecordStore (scan_record_entries e)} scan i :
  storage_engine = Some e → size stored ≤ size (stored_ids e) →
  ∃ entries, collect_locked scan i = (i, Ok entries).
Proof.
  intros He Hs. unfold collect_locked, collect_record_entries_for_scan. rewrite He.
  cbn [fmap option_fmap option_map]. destruct (limit scan) as [lim|] eqn:Hl.
  - destruct (collect_pages_prefix (scan_record_entries e) (overlay_entries (overlay i)) scan lim
      (pred (page_limit_of lim)) (S (size (stored_ids e))) (with_limit scan (Some (page_limit_of lim))) 0)
      as (k & Hk & _); [simpl; unfold page_limit_of; do 2 f_equal; lia|done|..].
    { pose proof (selected_length stored scan). rewrite drop_0. lia. }
    assert (S (pred (page_limit_of lim)) = page_limit_of lim) as Hp by (unfold page_limit_of; lia).
    rewrite Hp in Hk. change (take 0 _) with (@nil RecordEntry) in Hk. rewrite Hk. eauto.
  - rewrite source_spec. eauto.
Qed.
End safety.
