(* ===== verification/Db.v ===== *)
(** The database as its callers see it ([Primadb] of [src/src/db.rs]): creation,
local writes, remote operations, snapshots in and out, queue hand-over, and the
invariant of every reachable state. *)
From stdpp Require Import base gmap sets list strings sorting.
From Stdlib Require Import ZArith Lia.
From S2P Require Import Prelude Clock Value Crdt Merge OpQueue RelIndex Paths Records Keys Engine Input Inner Read View Query Traversal InnerWf Tx.

(** [DatabaseSnapshot]; the provisional transactions it also carries are not modelled. *)
Record DatabaseSnapshot := mkSnapshot {
  snap_clock : HybridClock;
  snap_nodes : gmap string NodeState;
  snap_pending_ops : list Operation;
  snap_scope_policies : gmap string ScopePolicy
}.

(** [Primadb::with_replica_id], [now] being the clock reading. *)
Definition with_replica_id (replica_id : string) (now : Z) (max_ops : nat) : Inner :=
  mkInner (with_actor replica_id now) ∅ overlay_empty queue_default queue_default ∅ index_default ∅ ∅
    max_ops None 0.

Definition rebuild_relationship_index (i : Inner) : Inner :=
  foldl (λ i node, reindex_node_relationships node i)
    (set_relationship_index index_default i) (btree_keys (nodes i)).

(** The critical section of [Primadb::load_snapshot]. *)
Definition load_snapshot (s : DatabaseSnapshot) (i : Inner) : Inner :=
  let i := set_clock (snap_clock s) i in
  let i := set_nodes (snap_nodes s) i in
  let i := set_overlay (rebuild_record_overlay (nodes i)) i in
  let i := set_pending_ops (from_operations (snap_pending_ops s)) i in
  let i := set_scope_policies (snap_scope_policies s) i in
  let i := set_unflushed_ops queue_default i in
  let i := set_missing_nodes ∅ i in
  let i := set_scheduled_node_fetches ∅ i in
  rebuild_relationship_index i.

(** [Primadb::load_persisted_snapshot]. *)
Definition load_persisted_snapshot (s : DatabaseSnapshot) (i : Inner) : Inner :=
  let local_actor := actor (clock i) in
  let keep_pending := bool_decide (actor (snap_clock s) = local_actor) in
  let i := set_clock (rebased_with_actor local_actor (snap_clock s)) i in
  let i := set_nodes (snap_nodes s) i in
  let i := set_overlay (rebuild_record_overlay (nodes i)) i in
  let i := set_pending_ops
             (if keep_pending then from_operations (snap_pending_ops s) else queue_default) i in
  let i := set_scope_policies (snap_scope_policies s) i in
  let i := set_unflushed_ops queue_default i in
  let i := set_missing_nodes ∅ i in
  let i := set_scheduled_node_fetches ∅ i in
  rebuild_relationship_index i.

(** [merge_snapshot_into_inner]. *)
Definition merge_snapshot_into_inner (s : DatabaseSnapshot) (i : Inner) : Inner :=
  let i := foldl (λ i p, set_nodes (merge_node_state (nodes i) p.2)
                           (set_clock (observe_node_state (clock i) p.2) i))
             i (btree_list (snap_nodes s)) in
  let i := set_scope_policies (snap_scope_policies s ∪ scope_policies i) i in
  let i := set_missing_nodes ∅ i in
  let i := set_scheduled_node_fetches ∅ i in
  let i := rebuild_relationship_index i in
  set_overlay (rebuild_record_overlay (nodes i)) i.

(** [Primadb::apply_operations]: the state and the number applied. *)
Fixpoint apply_operations (ops : list Operation) (i : Inner) : Inner * nat :=
  match ops with
  | [] => (i, 0)
  | op :: rest =>
      let r := apply_operation_internal op Remote i in
      let r' := apply_operations rest r.1 in
      (r'.1, if r.2 then S r'.2 else r'.2)
  end.

(** The critical section of [Primadb::apply_node_state], and whether the node changed. *)
Definition apply_node_state (node : NodeState) (i : Inner) : Inner * bool :=
  let before := nodes i !! id node in
  let i := set_clock (observe_node_state (clock i) node) i in
  let i := set_nodes (merge_node_state (nodes i) node) i in
  let i := set_overlay (refresh_record_overlay (nodes i) (overlay i) (id node)) i in
  let i := set_missing_nodes (missing_nodes i ∖ {[id node]}) i in
  let i := set_scheduled_node_fetches (scheduled_node_fetches i ∖ {[id node]}) i in
  let i := reindex_node_relationships (id node) i in
  (i, negb (bool_decide (nodes i !! id node = before))).

(** * Attaching storage *)

(** [Primadb::attach_incremental_store] up to the write-back that follows. *)
Definition attach_incremental_store (metadata : option StorageMetadata) (i : Inner) : Inner :=
  match metadata with
  | Some m =>
      mkInner (meta_clock m) ∅ overlay_empty (from_operations (meta_pending_ops m)) queue_default ∅
        index_default ∅ (meta_scope_policies m) (max_pending_ops i) (transaction_journal i) (ticks i)
  | None =>
      set_missing_nodes ∅ (set_scheduled_node_fetches ∅ (set_relationship_index index_default i))
  end.

(** [drain_pending_operations], [requeue_pending_operations]. *)
Definition drain_pending_operations (i : Inner) : Inner * list Operation :=
  (set_pending_ops queue_default i, operations (pending_ops i)).

Definition requeue_pending_operations (ops : list Operation) (i : Inner) : Inner :=
  set_pending_ops (foldl push (pending_ops i) ops) i.

(** [mark_durable_operations_flushed]. *)
Definition mark_durable_operations_flushed (ops : list Operation) (i : Inner) : Inner :=
  if bool_decide (ops = []) then i
  else
    let saved := length ops in
    if (queue_len (unflushed_ops i) <? saved)
       || negb (bool_decide (take saved (operations (unflushed_ops i)) = ops)) then i
    else set_unflushed_ops (drain_prefix (unflushed_ops i) saved) i.

(** * Snapshots of a root *)

(** The targets [collect_snapshot_root_closure] pushes for a node, in order. *)
Definition node_targets (nodes : gmap string NodeState) (n : NodeId) : list NodeId :=
  match nodes !! n with Some state => edge_target <$> node_edges n state | None => [] end.

(** Its [while let Some(node_id) = pending.pop()] loop; the head of the list is
the top of the stack. *)
Fixpoint closure_loop (fuel : nat) (nodes : gmap string NodeState) (pending : list NodeId)
    (reachable : gset string) : option (gset string) :=
  match fuel with
  | O => None
  | S fuel =>
      match pending with
      | [] => Some reachable
      | n :: pending =>
          if decide (n ∈ reachable) then closure_loop fuel nodes pending reachable
          else closure_loop fuel nodes (reverse (node_targets nodes n) ++ pending) ({[n]} ∪ reachable)
      end
  end.

Definition root_nodes (nodes : gmap string NodeState) (root : string) : list NodeId :=
  filter (λ n, node_matches_root n root = true) (btree_keys nodes).

(** Each iteration pops one entry, and each node is expanded once. *)
Definition closure_fuel (nodes : gmap string NodeState) (root : string) : nat :=
  S (length (root_nodes nodes root)
     + sum_list_with (λ n, length (node_targets nodes n)) (btree_keys nodes)).

Definition collect_snapshot_root_closure (nodes : gmap string NodeState) (root : string)
    : option (gset string) :=
  closure_loop (closure_fuel nodes root) nodes (reverse (root_nodes nodes root)) ∅.

Definition operation_matches_snapshot_nodes (op : Operation) (s : gset string) : bool :=
  bool_decide (operation_source_node op ∈ s).

(** [Primadb::snapshot_for_root] without a storage engine. *)
Definition snapshot_for_root (root : option string) (i : Inner) : option DatabaseSnapshot :=
  match root with
  | None => Some (mkSnapshot (clock i) (nodes i) (operations (pending_ops i)) (scope_policies i))
  | Some root =>
      reachable ← collect_snapshot_root_closure (nodes i) root;
      Some (mkSnapshot (clock i) (filter (λ p, p.1 ∈ reachable) (nodes i))
              (filter (λ op, operation_matches_snapshot_nodes op reachable = true)
                 (operations (pending_ops i)))
              (filter (λ p, node_matches_root p.1 root = true) (scope_policies i)))
  end.

(** * Closure *)

(** The nodes a root's snapshot must hold. *)
Inductive reaches (nodes : gmap string NodeState) (root : string) : NodeId → Prop :=
  | reaches_root n : is_Some (nodes !! n) → node_matches_root n root = true → reaches nodes root n
  | reaches_edge n m : reaches nodes root n → m ∈ node_targets nodes n → reaches nodes root m.

Section closure.
Context (nodes : gmap string NodeState) (root : string).

Definition closure_inv (pending : list NodeId) (reachable : gset string) : Prop :=
  (∀ n, n ∈ pending ∨ n ∈ reachable → reaches nodes root n) ∧
  (∀ n, n ∈ root_nodes nodes root → n ∈ pending ∨ n ∈ reachable) ∧
  (∀ n m, n ∈ reachable → m ∈ node_targets nodes n → m ∈ pending ∨ m ∈ reachable).

Lemma elem_of_root_nodes n :
  n ∈ root_nodes nodes root ↔ node_matches_root n root = true ∧ is_Some (nodes !! n).
Proof. unfold root_nodes. by rewrite list_elem_of_filter, elem_of_btree_keys. Qed.

Lemma closure_inv_init : closure_inv (reverse (root_nodes nodes root)) ∅.
Proof.
  split_and!; [|set_solver|set_solver].
  intros n [Hn|Hn]; [|set_solver]. apply elem_of_reverse, elem_of_root_nodes in Hn as [? ?]. by constructor.
Qed.

Lemma closure_inv_done reachable n : closure_inv [] reachable → n ∈ reachable ↔ reaches nodes root n.
Proof.
  intros (H1 & H2 & H3). split; [by intros; apply H1; right|]. intros Hr.
  induction Hr as [n Hn Hm|n m _ IH Hm].
  - destruct (H2 n) as [H|H]; [by apply elem_of_root_nodes|by apply not_elem_of_nil in H|done].
  - destruct (H3 n m IH Hm) as [H|H]; [by apply not_elem_of_nil in H|done].
Qed.

Lemma closure_loop_sound fuel pending reachable result :
  closure_inv pending reachable → closure_loop fuel nodes pending reachable = Some result →
  ∀ n, n ∈ result ↔ reaches nodes root n.
Proof.
  revert pending reachable. induction fuel as [|fuel IH]; intros pending reachable Hi; [done|].
  cbn [closure_loop]. destruct pending as [|n pending]; [intros [= <-] n; by apply closure_inv_done|].
  destruct Hi as (H1 & H2 & H3). case_decide as Hn; apply IH.
  - split_and!; [set_solver|set_solver|]. intros a b Ha Hb. destruct (H3 a b Ha Hb); set_solver.
  - split_and!.
    + intros a. rewrite elem_of_app, elem_of_reverse. intros [[Ha|Ha]|Ha]; [|apply H1; set_solver..].
      apply reaches_edge with n; [apply H1; set_solver|done].
    + intros a Ha. destruct (H2 a Ha); set_solver.
    + intros a b Ha Hb. rewrite elem_of_app, elem_of_reverse.
      apply elem_of_union in Ha as [->%elem_of_singleton|Ha]; [by auto|].
      destruct (H3 a b Ha Hb); set_solver.
Qed.

(** Targets of the nodes not expanded yet. *)
Definition unexpanded (reachable : gset string) : nat :=
  sum_list_with (λ n, if decide (n ∈ reachable) then 0 else length (node_targets nodes n)) (btree_keys nodes).

Lemma unexpanded_empty :
  unexpanded ∅ = sum_list_with (λ n, length (node_targets nodes n)) (btree_keys nodes).
Proof.
  unfold unexpanded. induction (btree_keys nodes) as [|x l IH]; [done|]. cbn [sum_list_with].
  rewrite IH, decide_False by set_solver. done.
Qed.

Lemma unexpanded_expand n reachable :
  n ∉ reachable →
  unexpanded ({[n]} ∪ reachable) + length (node_targets nodes n) ≤ unexpanded reachable.
Proof.
  intros Hn. unfold unexpanded. pose proof (btree_keys_NoDup nodes) as Hnd.
  assert (n ∉ btree_keys nodes → node_targets nodes n = []) as Habs.
  { intros Habs. unfold node_targets. destruct (nodes !! n) eqn:E; [|done].
    destruct Habs. apply elem_of_btree_keys. eauto. }
  assert (∀ l, NoDup l →
    sum_list_with (λ k, if decide (k ∈ {[n]} ∪ reachable) then 0 else length (node_targets nodes k)) l
    + (if decide (n ∈ l) then length (node_targets nodes n) else 0) ≤
    sum_list_with (λ k, if decide (k ∈ reachable) then 0 else length (node_targets nodes k)) l) as Hl.
  { clear Hnd. induction l as [|k l IH]; intros Hnd; [cbn; case_decide as H; [by apply not_elem_of_nil in H|lia]|].
    apply NoDup_cons in Hnd as [Hk Hnd]. specialize (IH Hnd). cbn [sum_list_with].
    destruct (decide (k = n)) as [->|Hkn].
    - rewrite (decide_True (P := n ∈ {[n]} ∪ reachable)) by set_solver.
      rewrite (decide_False (P := n ∈ reachable)) by done.
      rewrite (decide_True (P := n ∈ n :: l)) by left.
      rewrite (decide_False (P := n ∈ l)) in IH by done. lia.
    - replace (if decide (k ∈ {[n]} ∪ reachable) then 0 else length (node_targets nodes k))
        with (if decide (k ∈ reachable) then 0 else length (node_targets nodes k)).
      2: { repeat case_decide; set_solver. }
      destruct (decide (n ∈ l)) as [Hin|Hin].
      + rewrite (decide_True (P := n ∈ k :: l)) by (by right). lia.
      + rewrite (decide_False (P := n ∈ k :: l)) by set_solver. lia. }
  specialize (Hl _ Hnd). destruct (decide (n ∈ btree_keys nodes)) as [Hin|Hin]; [done|].
  rewrite (Habs Hin). simpl. lia.
Qed.

Lemma closure_loop_total fuel pending reachable :
  length pending + unexpanded reachable < fuel →
  is_Some (closure_loop fuel nodes pending reachable).
Proof.
  revert pending reachable. induction fuel as [|fuel IH]; intros pending reachable Hf; [lia|].
  cbn [closure_loop]. destruct pending as [|n pending]; [eauto|]. simpl in Hf. case_decide as Hn.
  - apply IH. lia.
  - apply IH. rewrite length_app, length_reverse. pose proof (unexpanded_expand n reachable Hn). lia.
Qed.
End closure.

(** * Reachable states *)

Lemma rebuild_outside i :
  transaction_journal i = None →
  rebuild_relationship_index i = set_relationship_index (rebuild_index (nodes i)) i.
Proof. intros Hn. unfold rebuild_relationship_index. by rewrite reindexes_outside. Qed.

Lemma rebuild_overlay_keyed nodes : overlay_keyed (overlay_entries (rebuild_record_overlay nodes)).
Proof.
  unfold rebuild_record_overlay. generalize (filter (λ n, is_record_node_id n = true) (btree_keys nodes)).
  assert (∀ l o, overlay_keyed (overlay_entries o) →
    overlay_keyed (overlay_entries (foldl (refresh_record_overlay nodes) o l))) as Hl.
  { induction l as [|n l IH]; intros o Ho; [done|]. apply IH. by apply refresh_keyed. }
  intros l. by apply Hl.
Qed.

(** A state whose index was just rebuilt. *)
Lemma rebuilt_wf i i' :
  transaction_journal i = None → graph_wf (nodes i) →
  queue_wf (pending_ops i) → queue_wf (unflushed_ops i) →
  i' = set_overlay (rebuild_record_overlay (nodes i)) (rebuild_relationship_index i) →
  inner_wf i' ∧ transaction_journal i' = None.
Proof.
  intros Hn Hg Hp Hu ->. rewrite rebuild_outside by done. destruct (rebuild_index_of (nodes i)) as [Hidx He].
  split; [|done]. split; try done. simpl. apply rebuild_overlay_keyed.
Qed.

Definition idle_wf (i : Inner) : Prop := inner_wf i ∧ transaction_journal i = None.

Lemma with_replica_id_wf r now max_ops : idle_wf (with_replica_id r now max_ops).
Proof.
  split; [|done]. split; simpl; [apply queue_default_wf..|done|done|apply index_default_wf|].
  intros e _ _. unfold out_has, graph_edge. simpl. rewrite !lookup_empty. set_solver.
Qed.

Lemma attach_wf m i : idle_wf i → idle_wf (attach_incremental_store (Some m) i).
Proof.
  intros [_ Hn]. split; [|done].
  split; simpl; [apply from_operations_wf|apply queue_default_wf|done|done|apply index_default_wf|].
  intros e _ _. unfold out_has, graph_edge. simpl. rewrite !lookup_empty. set_solver.
Qed.

Lemma load_snapshot_wf s i : idle_wf i → graph_wf (snap_nodes s) → idle_wf (load_snapshot s i).
Proof.
  intros [Hi Hn] Hs. unfold load_snapshot. cbv zeta.
  match goal with |- idle_wf (rebuild_relationship_index ?k) => apply (rebuilt_wf k) end; simpl; try done.
  - apply from_operations_wf.
  - apply queue_default_wf.
  - by rewrite rebuild_outside.
Qed.

Lemma load_persisted_wf s i : idle_wf i → graph_wf (snap_nodes s) → idle_wf (load_persisted_snapshot s i).
Proof.
  intros [Hi Hn] Hs. unfold load_persisted_snapshot. cbv zeta.
  match goal with |- idle_wf (rebuild_relationship_index ?k) => apply (rebuilt_wf k) end; simpl; try done.
  - case_bool_decide; [apply from_operations_wf|apply queue_default_wf].
  - apply queue_default_wf.
  - by rewrite rebuild_outside.
Qed.

Lemma merge_snapshot_wf s i : idle_wf i → idle_wf (merge_snapshot_into_inner s i).
Proof.
  intros [Hi Hn]. unfold merge_snapshot_into_inner. cbv zeta.
  set (i1 := foldl _ i (btree_list (snap_nodes s))).
  assert (transaction_journal i1 = None ∧ graph_wf (nodes i1) ∧ queue_wf (pending_ops i1) ∧
          queue_wf (unflushed_ops i1)) as (Hn1 & Hg1 & Hp1 & Hu1).
  { assert (graph_wf (nodes i) ∧ queue_wf (pending_ops i) ∧ queue_wf (unflushed_ops i)) as (Hg & Hp & Hu) by (by destruct Hi).
    clear Hi. subst i1. revert i Hn Hg Hp Hu. induction (btree_list (snap_nodes s)) as [|p l IH]; intros i Hn Hg Hp Hu; [done|].
    cbn [foldl]. apply IH; try done. by apply merge_node_state_wf. }
  match goal with |- idle_wf (set_overlay _ (rebuild_relationship_index ?k)) => apply (rebuilt_wf k) end; try done.
  by rewrite rebuild_outside.
Qed.

Lemma apply_operations_wf ops i : idle_wf i → idle_wf (apply_operations ops i).1.
Proof.
  revert i. induction ops as [|op ops IH]; intros i Hi; [done|]. cbn [apply_operations fst]. apply IH.
  destruct Hi as [Hi Hn]. destruct (apply_operation_safe op Remote i Hi) as [H1 H2]. split; [done|].
  by apply (H2 None).
Qed.

Lemma queue_pushes_wf ops q : queue_wf q → queue_wf (foldl push q ops).
Proof. revert q. induction ops as [|op ops IH]; intros q Hq; [done|]. simpl. by apply IH, push_wf. Qed.

Lemma set_pending_wf q i : idle_wf i → queue_wf q → idle_wf (set_pending_ops q i).
Proof. intros [[] Hn] Hq. split; [|done]. by split. Qed.

Lemma mark_flushed_wf ops i : idle_wf i → idle_wf (mark_durable_operations_flushed ops i).
Proof.
  intros Hi. unfold mark_durable_operations_flushed. case_bool_decide; [done|].
  destruct (_ || _); [done|]. destruct Hi as [[] Hn]. split; [|done]. split; try done. by apply drain_prefix_wf.
Qed.

Section reach.
Context `{HC : Codec, HE : Env, HL : !EnvLaws}.

(** What a caller can do to the state, one lock at a time. *)
Inductive db_step (i : Inner) : Inner → Prop :=
  | step_put a segs v : db_step i (put_json_inner a segs v i).1
  | step_unset a segs : db_step i (unset_inner a segs i).1
  | step_set a segs v : db_step i (set_json_inner a segs v i).1
  | step_remove a segs v : db_step i (remove_json_inner a segs v i).1
  | step_read a segs : db_step i (materialize_inner a segs i).1
  | step_transaction scope steps : db_step i (run_transaction_steps scope steps i).1
  | step_batch b : db_step i (apply_record_batch b i).1
  | step_remote ops : db_step i (apply_operations ops i).1
  | step_load s : graph_wf (snap_nodes s) → db_step i (load_snapshot s i)
  | step_load_persisted s : graph_wf (snap_nodes s) → db_step i (load_persisted_snapshot s i)
  | step_attach m : db_step i (attach_incremental_store (Some m) i)
  | step_merge s : db_step i (merge_snapshot_into_inner s i)
  | step_node node : db_step i (apply_node_state node i).1
  | step_drain : db_step i (drain_pending_operations i).1
  | step_requeue ops : db_step i (requeue_pending_operations ops i)
  | step_flushed ops : db_step i (mark_durable_operations_flushed ops i).

Lemma apply_node_wf node i : idle_wf i → idle_wf (apply_node_state node i).1.
Proof.
  intros [Hi Hn]. unfold apply_node_state. cbv zeta. set (n := id node).
  set (i1 := set_nodes (merge_node_state (nodes i) node) (set_clock (observe_node_state (clock i) node) i)).
  assert (wf_but ({[n]} ∪ ∅) i1) as Hi1.
  { apply set_nodes_wf; [by destruct Hi; split|apply merge_node_state_wf, Hi|]. intros k Hk.
    unfold merge_node_state. by apply lookup_insert_ne. }
  set (i2 := set_scheduled_node_fetches _ _).
  assert (wf_but ({[n]} ∪ ∅) i2) as Hi2 by (destruct Hi1; split; try done; simpl; by apply refresh_keyed).
  split; [|unfold reindex_node_relationships, journal_node; simpl; by rewrite Hn].
  unfold inner_wf. replace (∅ : gset string) with (({[n]} ∪ ∅) ∖ {[n]} : gset string) by set_solver.
  by apply reindex_wf_but.
Qed.

Lemma safeM_idle {A} (m : M A) i : safeM m → idle_wf i → idle_wf (m i).1.
Proof. intros Hm [Hi Hn]. destruct (Hm i Hi) as [H1 H2]. split; [done|]. by apply (H2 None). Qed.

Lemma transaction_idle {A} (body : M (A * list string)) i :
  safeM body → idle_wf i → idle_wf (run_local_transaction body i).1.
Proof.
  intros Hb [Hi Hn]. pose proof (transaction_outcome body i Hb Hi Hn) as Ho.
  destruct (run_local_transaction body i) as [i' [|e]]; [done|]. simpl. destruct Ho as [-> _].
  split; [by destruct Hi; split|done].
Qed.

Lemma db_step_wf i i' : db_step i i' → idle_wf i → idle_wf i'.
Proof.
  intros Hs Hi. destruct Hs; try (apply safeM_idle; [solve [auto with safe]|exact Hi]).
  - unfold run_transaction_steps. destruct (validate_transaction_scopes (scope_policies i) scope steps); [|exact Hi].
    apply transaction_idle; [apply apply_transaction_steps_safe|done].
  - apply transaction_idle; [apply record_batch_safe|done].
  - by apply apply_operations_wf.
  - by apply load_snapshot_wf.
  - by apply load_persisted_wf.
  - by apply attach_wf.
  - by apply merge_snapshot_wf.
  - by apply apply_node_wf.
  - apply set_pending_wf; [done|apply queue_default_wf].
  - apply set_pending_wf; [done|]. apply queue_pushes_wf. apply Hi.
  - by apply mark_flushed_wf.
Qed.

Lemma idle_index i : idle_wf i → index_of (nodes i) (relationship_index i).
Proof.
  intros [Hi Hn]. pose proof (wf_edges _ _ Hi) as He. destruct Hi. split; [done|].
  intros e. apply He; unfold rel_pending; rewrite ?Hn; set_solver.
Qed.

End reach.


(** * Concrete runs *)

Definition demo_env : Env := {|
  now_millis n := (1000 + Z.of_nat n)%Z;
  blake3_hex key := key;
  storage_engine := None;
  materialize_scalar _ v := v;
  json_display _ := "expected"
|}.

Lemma demo_env_laws : @EnvLaws demo_env.
Proof. split; intros e n st He; done. Qed.

Definition demo_db : Inner := with_replica_id "r1" 1000 100.

Abbreviation dput := (@put_json_inner demo_codec demo_env).
Abbreviation dread := (@materialize_inner demo_codec demo_env).

Lemma transaction_steps_atomic_witness :
  let steps := [SPut (mkPath "user" ["name"]) (JString "ada");
                SSet (mkPath "user" ["friends"]) (JObject [("name", JString "bob")]);
                SAssertAbsent (mkPath "user" ["name"])] in
  let r := @run_transaction_steps demo_codec demo_env None steps demo_db in
  r.2 = Err (TransactionConflict "expected `user.name` to be absent") ∧
  r.1 = set_ticks 3 demo_db.
Proof.
  intros steps r. split; [by vm_compute|].
  pose proof (@transaction_steps_atomic demo_codec demo_env demo_env_laws None steps demo_db
    (proj1 (with_replica_id_wf _ _ _)) eq_refl) as Ho. fold r in Ho.
  assert (ticks r.1 = 3) as Ht by (by vm_compute).
  assert (is_ok r.2 = false) as He by (by vm_compute).
  clearbody r. destruct r as [i' [x|e]]; [done|]. simpl in *. by rewrite Ht in Ho.
Defined.



(** Ada is her own best friend: the read follows the link once and then refers
back. *)
Lemma materialize_terminates_witness :
  let i1 := (dput "user" [] (JObject [("best", JObject [("$link", JString "user")])]) demo_db).1 in
  (dread "user" [] i1).2 = Ok (Some (JObject [("$id", JString "user"); ("best", JObject [("$ref", JString "user")])])) ∧
  ∃ i' v, dread "user" [] i1 = (i', Ok (Some v)).
Proof.
  intros i1. split; [by vm_compute|].
  pose proof (@materialize_terminates demo_codec demo_env demo_env_laws "user" [] i1) as Ht.
  assert ((@resolve_cursor demo_env "user" [] i1).2 = Ok (Some (CNode "user"))) as Hr by (by vm_compute).
  clearbody i1. destruct (@resolve_cursor demo_env "user" [] i1) as [i2 c]. simpl in Hr. subst c.
  destruct Ht as (i' & v & Hd & _). eauto.
Defined.

(** * A database on storage *)

(** The stored nodes: Ada, who has a name, and Bob, whose friend is Ada. *)
Definition disk_marker : VersionMarker := mkMarker (mkRevision 10 0 "r0") "r0:put:0".

Definition disk_nodes : gmap string NodeState :=
  {[ "ada" := mkNode "ada" {[ "name" := mkField (FScalar (JString "Ada")) disk_marker ]} ∅;
     "bob" := mkNode "bob" {[ "friend" := mkField (FLink "ada") disk_marker ]} ∅ ]}.

Definition disk_env : Env := {|
  now_millis n := (1000 + Z.of_nat n)%Z;
  blake3_hex key := key;
  storage_engine := Some (mkEngine (λ n, Ok (disk_nodes !! n)) (λ _, Ok None) (dom disk_nodes));
  materialize_scalar _ v := v;
  json_display _ := "expected"
|}.

Lemma disk_env_laws : @EnvLaws disk_env.
Proof.
  split; intros e n st He Hg; injection He as <-; injection Hg as Hg.
  - assert (map_Forall (λ k st, id st = k) disk_nodes) as Hid.
    { apply (bool_decide_unpack (map_Forall (λ k st, id st = k) disk_nodes)). by vm_compute. }
    by apply Hid.
  - by apply elem_of_dom.
Qed.

Lemma reads_do_not_interfere_witness :
  let read := @materialize_inner demo_codec disk_env in
  (read "bob" [] demo_db).2 = Ok (Some (JObject [("$id", JString "bob");
     ("friend", JObject [("$id", JString "ada"); ("name", JString "Ada")])])) ∧
  size (nodes (read "bob" [] demo_db).1) = 2 ∧
  (read "ada" ["name"] (read "bob" [] demo_db).1).2 = (read "ada" ["name"] demo_db).2.
Proof.
  intros read. split_and!; [by vm_compute..|].
  apply (@reads_do_not_interfere demo_codec disk_env disk_env_laws "bob" [] "ada" ["name"] demo_db).
Defined.

(** * What the runs show *)

Abbreviation kput := (@put_json_inner demo_codec disk_env).
Abbreviation kread := (@materialize_inner demo_codec disk_env).

(** The nodes and the flag of a traversal's result. *)
Definition found (r : Inner * option (result TraversalResult)) : option (list NodeId * bool) :=
  match r.2 with Some (Ok t) => Some (trav_node <$> trav_entries t, complete t) | _ => None end.

Definition towards (d : TraversalDirection) : TraversalSpec :=
  mkTraversal d Bfs 5 None None true true false false [] true 64.

Section demo_query.
#[local] Existing Instance demo_codec.
#[local] Existing Instance demo_env.
#[local] Existing Instance demo_env_laws.


(** Ada's town and friend, and the friend's town, are two steps away at most. *)
Lemma traversal_sound_complete_witness :
  let i1 := (dput "ada" [] (JObject [("town", JObject [("$link", JString "london")]);
                                     ("best", JObject [("$link", JString "bob")])]) demo_db).1 in
  let i2 := (dput "bob" [] (JObject [("town", JObject [("$link", JString "paris")])]) i1).1 in
  let i := (dput "paris" [] (JObject []) (dput "london" [] (JObject []) i2).1).1 in
  found (traverse_inner "ada" [] (towards Outbound) i) = Some (["bob"; "london"; "paris"], true) ∧
  ∃ r, traverse_inner "ada" [] (towards Outbound) i = (i, Some (Ok r)) ∧ result_ok i (towards Outbound) ["ada"] r.
Proof.
  intros i1 i2 i. split; [by vm_compute|].
  assert (idle_wf i) as Hi.
  { apply (db_step_wf _ _ (step_put _ "paris" [] (JObject []))), (db_step_wf _ _ (step_put _ "london" [] (JObject []))).
    eapply db_step_wf; [apply step_put|]. eapply db_step_wf; [apply step_put|]. apply with_replica_id_wf. }
  pose proof (traversal_sound_complete (eq_refl : storage_engine = None) i "ada" [] (towards Outbound)
    (proj2 Hi) (idle_index i Hi)) as Ht.
  assert ((resolve_traversal_starts "ada" [] i).2 = Ok (["ada"], [])) as Hs by (by vm_compute).
  clearbody i. destruct (resolve_traversal_starts "ada" [] i) as [i' o]. simpl in Hs. subst o.
  destruct Ht as (r & Hr & Hok & _). by exists r.
Defined.
End demo_query.

(** A node put back under another name answers to the old one.  Reads show a
node's name under [$id], and a write stores that entry like any other field: Ada
copied to [eve] is shown as [ada], while a query still compares her [$id] with
the real name. *)
Lemma copied_node_identity :
  let i1 := (dput "ada" [] (JObject [("age", JNumber (PosInt 36))]) demo_db).1 in
  ∃ v, (dread "ada" [] i1).2 = Ok (Some v) ∧
  let i2 := (dput "people" [] (JObject [("eve", v)]) i1).1 in
  (dread "people" ["eve"] i2).2 = Ok (Some v) ∧
  v = JObject [("$id", JString "ada"); ("age", JNumber (PosInt 36))] ∧
  (@query_at demo_codec demo_env "people" [] (mkQuery [FEq "$id" (JString "ada")] None None 0) i2).2 = Ok [] ∧
  (@query_at demo_codec demo_env "people" [] (mkQuery [FEq "age" (JNumber (PosInt 36))] None None 0) i2).2 =
    Ok [mkEntry "eve" v].
Proof.
  eexists. split; [by vm_compute|]. split_and!; by vm_compute.
Qed.

(** What a database with only part of its nodes in memory gets wrong.  A
write at the root of a stored node that is not loaded starts from an empty node,
so the stored fields are no longer read; a traversal against the links says it is
complete although the stored node that has the link was never looked at; and
attaching an empty store to a database that has nodes forgets all their edges,
again with a traversal that says it is complete. *)
Lemma partly_loaded_hazards :
  (kread "ada" ["name"] demo_db).2 = Ok (Some (JString "Ada")) ∧
  (kread "ada" ["name"] (kput "ada" [] (JObject [("age", JNumber (PosInt 36))]) demo_db).1).2 = Ok None ∧
  found (@traverse_inner demo_codec disk_env "ada" [] (towards Inbound) demo_db) = Some ([], true) ∧
  found (@traverse_inner demo_codec disk_env "ada" [] (towards Inbound) (kread "bob" [] demo_db).1) =
    Some (["bob"], true) ∧
  let i := (dput "eve" [] (JObject [("town", JObject [("name", JString "London")])]) demo_db).1 in
  found (@traverse_inner demo_codec demo_env "eve" [] (towards Outbound) i) = Some (["eve/town"], true) ∧
  found (@traverse_inner demo_codec disk_env "eve" [] (towards Outbound) (attach_incremental_store None i)) =
    Some ([], true).
Proof. split_and!; by vm_compute. Qed.

(** A single write is neither all-or-nothing nor certain.  A write that is
refused half-way keeps the fields written before the refusal, and once the
pending queue is full a write reports success and changes nothing. *)
Lemma local_write_hazards :
  let v := JObject [("age", JNumber (PosInt 36)); ("pets", JArray [JObject []])] in
  (dput "ada" [] v demo_db).2 = Err (ArrayOfObjectsUnsupported "ada.pets") ∧
  (dread "ada" ["age"] (dput "ada" [] v demo_db).1).2 = Ok (Some (JNumber (PosInt 36))) ∧
  let full := with_replica_id "r1" 1000 1 in
  let i := (dput "ada" [] (JObject [("age", JNumber (PosInt 36)); ("town", JString "London")]) full).1 in
  (dput "ada" [] (JObject [("age", JNumber (PosInt 36)); ("town", JString "London")]) full).2 = Ok tt ∧
  (dread "ada" ["age"] i).2 = Ok (Some (JNumber (PosInt 36))) ∧ (dread "ada" ["town"] i).2 = Ok None.
Proof. split_and!; by vm_compute. Qed.
