(* ===== verification/IndexQuery.v ===== *)
(** Queries answered from the scalar index of the storage engine
([query_with_storage_indexes] of [src/src/db.rs]): which members of a set the index lets
through, in which order they are examined and when the scan may stop; and that the answer
is the one of a query without the index. *)
From stdpp Require Import base gmap sets list strings sorting.
From Stdlib Require Import ZArith Lia.
From Stdlib Require SpecFloat.
From S2P Require Import Prelude Clock Value TopK Crdt Merge OpQueue RelIndex Paths Records Keys Engine Segment Input Inner Read View Query IndexScan Recovery Db.

(** * Which filters an index answers *)

Definition is_direct_index_path (p : string) : bool := negb (bool_decide (p = "" ∨ p = "$key" ∨ p = "$value")).

Definition indexed_filter_path (f : QueryFilter) : option string :=
  if is_direct_index_path (filter_path f) then Some (filter_path f) else None.

Definition indexed_order_path (o : QueryOrder) : option string :=
  if is_direct_index_path (order_path o) then Some (order_path o) else None.

Definition build_index_filter_groups (spec : QuerySpec) : gmap string (list QueryFilter) :=
  foldl (λ groups f,
    match indexed_filter_path f with
    | Some p => <[p := default [] (groups !! p) ++ [f]]> groups
    | None => groups
    end) ∅ (query_filters spec).

Definition no_scan (limit : option nat) : DirectIndexScan := mkIndexScan None None None None None None limit 0 None.

Definition raise (current : option string) (key : string) : option string :=
  Some (match current with Some c => omax c key | None => key end).
Definition lower (current : option string) (key : string) : option string :=
  Some (match current with Some c => if ltb key c then key else c | None => key end).

(** One filter of [build_direct_index_scan]. *)
Definition narrow_scan (s : DirectIndexScan) (f : QueryFilter) : DirectIndexScan :=
  let '(mkIndexScan exact prefix start_at start_after end_at end_before limit offset ids) := s in
  match f with
  | FEq _ v =>
      match sortable_scalar_key v with
      | Some key => mkIndexScan (Some key) prefix start_at start_after end_at end_before limit offset ids
      | None => s
      end
  | FGt _ v =>
      match sortable_scalar_key v with
      | Some key => mkIndexScan exact prefix start_at (raise start_after key) end_at end_before limit offset ids
      | None => s
      end
  | FGte _ v =>
      match sortable_scalar_key v with
      | Some key => mkIndexScan exact prefix (raise start_at key) start_after end_at end_before limit offset ids
      | None => s
      end
  | FLt _ v =>
      match sortable_scalar_key v with
      | Some key => mkIndexScan exact prefix start_at start_after end_at (lower end_before key) limit offset ids
      | None => s
      end
  | FLte _ v =>
      match sortable_scalar_key v with
      | Some key => mkIndexScan exact prefix start_at start_after (lower end_at key) end_before limit offset ids
      | None => s
      end
  | FPrefix _ s' => mkIndexScan exact (Some ("s_" +:+ encode_component s')) start_at start_after end_at end_before limit offset ids
  | FNe _ _ | FContains _ _ | FExists _ => s
  end.

Definition build_direct_index_scan (filters : list QueryFilter) (limit : option nat) : DirectIndexScan :=
  foldl narrow_scan (no_scan limit) filters.

Definition with_candidates (ids : gset string) (s : DirectIndexScan) : DirectIndexScan :=
  mkIndexScan (exact_sortable_key s) (prefix_sortable_key s) (ds_start_at s) (ds_start_after s) (ds_end_at s)
    (ds_end_before s) (ds_limit s) (ds_offset s) (Some ids).

Definition can_early_stop_index_query (spec : QuerySpec) : bool :=
  bool_decide (is_Some (query_order spec ≫= indexed_order_path)) &&
  forallb (λ f, bool_decide (is_Some (indexed_filter_path f))) (query_filters spec).

Definition filter_matches_index_entry (f : QueryFilter) (v : json) : bool :=
  match f with
  | FEq _ e => json_eqb v e
  | FNe _ e => negb (json_eqb v e)
  | FGt _ e => match compare_json_values v e with Some Gt => true | _ => false end
  | FGte _ e => match compare_json_values v e with Some (Gt | Eq) => true | _ => false end
  | FLt _ e => match compare_json_values v e with Some Lt => true | _ => false end
  | FLte _ e => match compare_json_values v e with Some (Lt | Eq) => true | _ => false end
  | FPrefix _ e => match as_str v with Some c => starts_with c e | None => false end
  | FContains _ e => match as_str v with Some c => contains_str c e | None => false end
  | FExists _ => true
  end.

(** * The query *)

Section query.
Context `{Cod : Codec, En : Env}.

(** [IncrementalStore::scan_direct_index_entries] of the engine. *)
Variable scan_index : string → QueryDirection → DirectIndexScan → result (list DirectScalarIndexEntry).

(** The loop over the filter groups; [None] when no member is left, which ends the query. *)
Fixpoint narrow_ids (all : gset string) (groups : list (string * list QueryFilter)) (eligible : gset string)
    : result (option (gset string)) :=
  match groups with
  | [] => Ok (Some eligible)
  | (p, filters) :: rest =>
      entries ← scan_index p Asc (with_candidates all (build_direct_index_scan filters None));
      let matched : gset string := list_to_set (ie_node <$>
        filter (λ e, forallb (λ f, filter_matches_index_entry f (ie_value e)) filters = true) entries) in
      let eligible := eligible ∩ matched in
      if decide (eligible = ∅) then Ok None else narrow_ids all rest eligible
  end.

Definition candidate_of (m : string) : QueryCandidate := mkCandidate m (QNode m).

(** The loop over the ordered entries. *)
Fixpoint ordered_candidates (target : option nat) (entries : list DirectScalarIndexEntry) (seen : gset string)
    (out : list QueryCandidate) : list QueryCandidate :=
  match entries with
  | [] => out
  | e :: rest =>
      if decide (ie_node e ∈ seen) then ordered_candidates target rest seen out
      else
        let out := out ++ [candidate_of (ie_node e)] in
        if match target with Some n => n <=? length out | None => false end then out
        else ordered_candidates target rest ({[ie_node e]} ∪ seen) out
  end.

Definition target_count (spec : QuerySpec) : option nat :=
  match query_limit spec with
  | Some limit =>
      if can_early_stop_index_query spec
      then Some (Z.to_nat (sat_add u64_max (Z.of_nat (query_offset spec)) (Z.of_nat limit))) else None
  | None => None
  end.

(** The candidates of a set's members, [None] where the filters leave none. *)
Definition index_candidates (all : gset string) (spec : QuerySpec) : result (option (list QueryCandidate)) :=
  let groups := build_index_filter_groups spec in
  left ← narrow_ids all (btree_list groups) all;
  match left with
  | None => Ok None
  | Some eligible =>
      match query_order spec ≫= indexed_order_path with
      | Some p =>
          let direction := match query_order spec with Some o => order_direction o | None => Asc end in
          let target := target_count spec in
          entries ← scan_index p direction
            (with_candidates eligible (build_direct_index_scan (default [] (groups !! p)) target));
          Ok (Some (ordered_candidates target entries ∅ []))
      | None => Ok (Some (candidate_of <$> btree_elems eligible))
      end
  end.

Definition query_with_storage_indexes (a : NodeId) (segs : list string) (spec : QuerySpec)
    : M (option (list MapEntry)) :=
  match storage_engine with
  | None => mret None
  | Some _ =>
      c ← resolve_cursor a segs;
      match c with
      | Some (CField node field) =>
          value ← gets (λ i, field_of i node field);
          match value with
          | Some (FSet set) =>
              if bool_decide (build_index_filter_groups spec = ∅) && bool_decide (query_order spec ≫= indexed_order_path = None)
              then mret None
              else
                cs ← lift (index_candidates (dom (members set)) spec);
                match cs with
                | None => mret (Some [])
                | Some cs => entries ← embed (evaluate_query_candidates cs spec); mret (Some entries)
                end
          | _ => mret None
          end
      | _ => mret None
      end
  end.

(** [Primadb::query_at]: the index answers where it can. *)
Definition indexed_query_at (a : NodeId) (segs : list string) (spec : QuerySpec) : M (list MapEntry) :=
  answer ← query_with_storage_indexes a segs spec;
  match answer with
  | Some entries => mret entries
  | None => query_at a segs spec
  end.
End query.

(** * What a scan lets through *)

Lemma index_filter_value f v : filter_matches_index_entry f v = matches_filter_value (Some v) f.
Proof. by destruct f. Qed.

(** Every bound of a scan holds of a rank. *)
Definition admits (s : DirectIndexScan) (k : string) : Prop :=
  (∀ x, exact_sortable_key s = Some x → k = x) ∧ (∀ x, prefix_sortable_key s = Some x → starts_with k x = true) ∧
  (∀ x, ds_start_at s = Some x → ole x k) ∧ (∀ x, ds_start_after s = Some x → olt x k) ∧
  (∀ x, ds_end_at s = Some x → ole k x) ∧ (∀ x, ds_end_before s = Some x → olt k x).

Lemma admits_matches s k : admits s k → matches_sortable_key s k = true.
Proof.
  intros (H1 & H2 & H3 & H4 & H5 & H6). unfold matches_sortable_key.
  destruct (exact_sortable_key s) as [x|]; [apply bool_decide_eq_true_2; auto|].
  rewrite !andb_true_iff. split_and!.
  - destruct (prefix_sortable_key s); auto.
  - destruct (ds_start_at s) as [x|]; [|done]. apply negb_true_iff. specialize (H3 _ eq_refl). ord.
  - destruct (ds_start_after s) as [x|]; [|done]. apply negb_true_iff. specialize (H4 _ eq_refl). ord.
  - destruct (ds_end_at s) as [x|]; [|done]. apply negb_true_iff. specialize (H5 _ eq_refl). ord.
  - destruct (ds_end_before s) as [x|]; [|done]. apply negb_true_iff. specialize (H6 _ eq_refl). ord.
Qed.

Lemma raise_spec (P : string → Prop) o key x : (∀ y, o = Some y → P y) → P key → raise o key = Some x → P x.
Proof. intros Ho Hk. unfold raise, omax. destruct o as [y|]; intros [= <-]; [|done]. case_match; auto. Qed.

Lemma lower_spec (P : string → Prop) o key x : (∀ y, o = Some y → P y) → P key → lower o key = Some x → P x.
Proof. intros Ho Hk. unfold lower. destruct o as [y|]; intros [= <-]; [|done]. case_match; auto. Qed.

Lemma encode_app s t : encode_component (s +:+ t) = encode_component s +:+ encode_component t.
Proof. induction s as [|b s IH]; [done|]. rewrite str_app_cons. cbn [encode_component]. by rewrite IH, str_app_assoc. Qed.

Definition filter_value (f : QueryFilter) : option json :=
  match f with
  | FEq _ v | FNe _ v | FGt _ v | FGte _ v | FLt _ v | FLte _ v => Some v
  | FPrefix _ _ | FContains _ _ | FExists _ => None
  end.

Definition sane_filter (f : QueryFilter) : bool := match filter_value f with Some v => sane v | None => true end.

(** A filter that a value passes keeps a scan open for the value's rank. *)
Lemma narrow_admits s f v k : sane v = true → sane_filter f = true → sortable_scalar_key v = Some k →
  matches_filter_value (Some v) f = true → admits s k → admits (narrow_scan s f) k.
Proof.
  intros Hv Hf Hk Hm Ha. destruct s as [ex pre sa sf ea eb lim off ids]. destruct Ha as (H1 & H2 & H3 & H4 & H5 & H6). cbn in H1, H2, H3, H4, H5, H6.
  assert (∀ e, matches_filter_value (Some v) f = true → filter_value f = Some e → sane e = true) as He.
  { intros e _ E. unfold sane_filter in Hf. by rewrite E in Hf. }
  assert (∀ e ke c, filter_value f = Some e → sortable_scalar_key e = Some ke → compare_json_values v e = Some c → cmp k ke = c) as Hc.
  { intros e ke c E Ek Ec. exact (rank_compare v e k ke c Hv (He e Hm E) Ec Hk Ek). }
  destruct f as [p e|p e|p e|p e|p e|p e|p e|p e|p]; cbn [narrow_scan matches_filter_value mbind option_bind] in *; try done.
  - destruct (sortable_scalar_key e) as [ke|] eqn:Ek; [|done]. split_and!; cbn; try done. intros x [= <-].
    pose proof (rank_equal v e k Hv (He e Hm eq_refl) Hm Hk) as E. congruence.
  - destruct (sortable_scalar_key e) as [ke|] eqn:Ek; [|done]. destruct (compare_json_values v e) as [[]|] eqn:Ec; try done.
    split_and!; cbn; try done. intros x. apply (raise_spec (λ y, olt y k)); [done|]. apply olt_gt. by eapply Hc.
  - destruct (sortable_scalar_key e) as [ke|] eqn:Ek; [|done].
    assert (ole ke k) as Ho by (apply not_olt; unfold olt; destruct (compare_json_values v e) as [[]|] eqn:Ec; try done; by rewrite (Hc _ _ _ eq_refl Ek Ec)).
    split_and!; cbn; try done. intros x. by apply (raise_spec (λ y, ole y k)).
  - destruct (sortable_scalar_key e) as [ke|] eqn:Ek; [|done]. destruct (compare_json_values v e) as [[]|] eqn:Ec; try done.
    split_and!; cbn; try done. intros x. apply (lower_spec (λ y, olt k y)); [done|]. by eapply Hc.
  - destruct (sortable_scalar_key e) as [ke|] eqn:Ek; [|done].
    assert (ole k ke) as Ho by (unfold ole; destruct (compare_json_values v e) as [[]|] eqn:Ec; try done; by rewrite (Hc _ _ _ eq_refl Ek Ec)).
    split_and!; cbn; try done. intros x. by apply (lower_spec (λ y, ole k y)).
  - split_and!; cbn; try done. intros x [= <-]. destruct v as [| | |c| |]; try done. cbn [as_str] in Hm.
    apply (inj Some) in Hk as <-. apply starts_with_spec in Hm as [r ->]. apply starts_with_spec. exists (encode_component r).
    by rewrite encode_app, str_app_assoc.
Qed.

Lemma scan_admits fs v k limit : sane v = true → Forall (λ f, sane_filter f = true ∧ matches_filter_value (Some v) f = true) fs →
  sortable_scalar_key v = Some k → matches_sortable_key (build_direct_index_scan fs limit) k = true.
Proof.
  intros Hv Hf Hk. apply admits_matches. unfold build_direct_index_scan.
  assert (admits (no_scan limit) k) as H0 by done. revert H0. generalize (no_scan limit).
  induction Hf as [|f fs [Hs Hm] Hfs IH]; intros s Ha; [done|]. cbn. by apply IH, (narrow_admits _ _ v).
Qed.

(** Nothing else of a scan is changed by the filters. *)
Lemma scan_window fs limit : ds_limit (build_direct_index_scan fs limit) = limit ∧ ds_offset (build_direct_index_scan fs limit) = 0.
Proof.
  unfold build_direct_index_scan. assert (∀ s, ds_limit (foldl narrow_scan s fs) = ds_limit s ∧ ds_offset (foldl narrow_scan s fs) = ds_offset s) as Hs; [|apply Hs].
  induction fs as [|f fs IH]; intros s; [done|]. cbn. destruct (IH (narrow_scan s f)) as [-> ->]. destruct s, f; cbn; repeat case_match; done.
Qed.

Lemma group_spec spec p : is_direct_index_path p = true →
  default [] (build_index_filter_groups spec !! p) = filter (λ f, filter_path f = p) (query_filters spec).
Proof.
  intros Hp. unfold build_index_filter_groups.
  assert (∀ fs (m : gmap string (list QueryFilter)), default [] (foldl (λ groups f,
    match indexed_filter_path f with Some p => <[p := default [] (groups !! p) ++ [f]]> groups | None => groups end) m fs !! p) =
    default [] (m !! p) ++ filter (λ f, filter_path f = p) fs) as Hg; [|by rewrite Hg, lookup_empty].
  induction fs as [|f fs IH]; intros m; [by rewrite app_nil_r|]. cbn [foldl]. rewrite IH, filter_cons. unfold indexed_filter_path.
  destruct (decide (filter_path f = p)) as [<-|Hne].
  - rewrite Hp, lookup_insert_eq. cbn. by rewrite <-app_assoc.
  - destruct (is_direct_index_path (filter_path f)); [|done]. rewrite lookup_insert_ne by done. done.
Qed.

Lemma group_inv spec p fs : build_index_filter_groups spec !! p = Some fs →
  is_direct_index_path p = true ∧ fs ≠ [] ∧ fs = filter (λ f, filter_path f = p) (query_filters spec).
Proof.
  intros Hp. assert (is_direct_index_path p = true ∧ fs ≠ []) as [Hd Hn].
  { revert p fs Hp. unfold build_index_filter_groups.
    assert (∀ fs (m : gmap string (list QueryFilter)), map_Forall (λ p x, is_direct_index_path p = true ∧ x ≠ []) m →
      map_Forall (λ p x, is_direct_index_path p = true ∧ x ≠ []) (foldl (λ groups f,
        match indexed_filter_path f with Some p => <[p := default [] (groups !! p) ++ [f]]> groups | None => groups end) m fs)) as Hg.
    { induction fs as [|f fs IH]; intros m Hm; [done|]. cbn. apply IH. unfold indexed_filter_path. destruct (is_direct_index_path (filter_path f)) eqn:E; [|done].
      apply map_Forall_insert_2; [|done]. split; [done|]. by destruct (default [] _). }
    intros p fs. apply (Hg _ ∅), map_Forall_empty. }
  split_and!; [done..|]. rewrite <-group_spec, Hp by done. done.
Qed.

(** * The answer is the one without the index *)

(** Pairs of a rank and a key, by rank in a direction and then by key. *)
Definition directed_cmp (dir : QueryDirection) (p q : string * string) : comparison :=
  match dir with Asc => cmp p q | Desc => cmp (Down p.1, p.2) (Down q.1, q.2) end.

#[local] Program Instance directed_ord (dir : QueryDirection) : TotalOrd (string * string) := {| cmp := directed_cmp dir |}.
Next Obligation.
  intros [] [a b] [a' b']; unfold directed_cmp; rewrite cmp_eq; [done|]. cbn. naive_solver.
Qed.
Next Obligation. intros [] p q; apply cmp_opp. Qed.
Next Obligation. intros [] p q r; unfold directed_cmp; apply cmp_lt_trans. Qed.

Lemma compare_self v k : sane v = true → sortable_scalar_key v = Some k → compare_json_values v v = Some Eq.
Proof.
  intros Hv Hk. destruct v as [|[]|n|s|l|o]; try done; cbn [compare_json_values sane] in *; [|by rewrite string_compare_refl].
  apply andb_true_iff in Hv as [Hf _]. destruct (both_zero (as_f64 n) (as_f64 n)) eqn:E.
  - by destruct (as_f64 n).
  - by rewrite (sortable_bits_compare _ _ Hf Hf E), Z.compare_refl.
Qed.

Lemma window_of_prefix {A} spec limit (l : list A) : query_limit spec = Some limit →
  query_window spec (take (Z.to_nat (sat_add u64_max (Z.of_nat (query_offset spec)) (Z.of_nat limit))) l) = query_window spec l.
Proof.
  intros Hl. unfold query_window. rewrite Hl, length_take. set (n := Z.to_nat (sat_add _ (Z.of_nat (query_offset spec)) _)).
  assert (n <= query_offset spec + limit) as Hn by (unfold n, sat_add; lia).
  assert (∀ o : nat, o <= query_offset spec → Z.to_nat (sat_add u64_max (Z.of_nat o) (Z.of_nat limit)) <= n) as Hm by (intros o Ho; unfold n, sat_add; lia).
  destruct (decide (length l <= n)) as [Hs|Hs].
  - rewrite (take_ge l n) by done. by replace (n `min` length l) with (length l) by lia.
  - replace (n `min` length l) with n by lia. destruct (decide (query_offset spec <= n)) as [Ho|Ho].
    + replace (query_offset spec `min` n) with (query_offset spec) by lia.
      replace (query_offset spec `min` length l) with (query_offset spec) by lia. fold n.
      replace (n `min` n) with n by lia. replace (n `min` length l) with n by lia.
      by rewrite skipn_firstn_comm, take_take, Nat.min_id.
    + rewrite (drop_ge (take n l)) by (rewrite length_take; lia). rewrite take_nil.
      specialize (Hm (query_offset spec `min` length l) ltac:(lia)).
      replace (_ - (query_offset spec `min` length l)) with 0 by lia. done.
Qed.

Lemma sorted_keep {A} (R : relation A) (P : A → Prop) `{∀ x, Decision (P x)} l : StronglySorted R l → StronglySorted R (filter P l).
Proof.
  induction 1 as [|x l Hl IH Hx]; [constructor|]. rewrite filter_cons. case_decide; [|done]. constructor; [done|].
  rewrite Forall_forall in *. intros y [_ Hy]%list_elem_of_filter. by apply Hx.
Qed.

Lemma keep_all {A} (P : A → Prop) `{∀ x, Decision (P x)} (l : list A) : (∀ x, x ∈ l → P x) → filter P l = l.
Proof.
  induction l as [|x l IH]; intros Hl; [done|]. rewrite filter_cons, decide_True by (apply Hl; set_solver). f_equal. apply IH. set_solver.
Qed.

Lemma keep_none {A} (P : A → Prop) `{∀ x, Decision (P x)} (l : list A) : (∀ x, x ∈ l → ¬ P x) → filter P l = [].
Proof.
  induction l as [|x l IH]; intros Hl; [done|]. rewrite filter_cons, decide_False by (apply Hl; set_solver). apply IH. set_solver.
Qed.

Section answer.
Variable scan_index : string → QueryDirection → DirectIndexScan → result (list DirectScalarIndexEntry).
Variable index : DirectScalarIndexEntry → Prop.
Context (spec : QuerySpec) (ms : list string) (J : string → json).

Definition shown (m p : string) : option json := query_value_parts m (J m) p.
Definition passing (m : string) : Prop := passes spec m (J m) = true.

(** The paths the query looks up in the index. *)
Definition asked (p : string) : Prop :=
  is_direct_index_path p = true ∧ (p ∈ filter_path <$> query_filters spec ∨ order_path <$> query_order spec = Some p).

(** The engine answers a scan with a window of its entries. *)
Definition scans_index : Prop :=
  ∀ p dir scan, ∃ l, scan_index p dir scan = Ok l ∧ ranked_window index p dir scan l.

(** The index describes the members: an entry is the value the member shows at its path, and
every value that has a rank has an entry. *)
Definition index_describes : Prop :=
  (∀ e, index e → ie_node e ∈ ms → asked (ie_path e) → shown (ie_node e) (ie_path e) = Some (ie_value e) ∧ ranked e) ∧
  (∀ m p v k, m ∈ ms → asked p → shown m p = Some v → sortable_scalar_key v = Some k → index (mkIndexEntry m p v k)).

(** The members that pass have a scalar at every path asked, and no number is a negative zero. *)
Definition indexable : Prop :=
  Forall (λ f, sane_filter f = true) (query_filters spec) ∧
  ∀ m p, m ∈ ms → passing m → asked p → ∃ v k, shown m p = Some v ∧ sortable_scalar_key v = Some k ∧ sane v = true.

(** The values members are ordered by can be compared, and differ where a limit may cut
between them. *)
Definition orderable : Prop :=
  ∀ o m m', query_order spec = Some o → is_direct_index_path (order_path o) = true → m ∈ ms → m' ∈ ms →
    passing m → passing m' → m ≠ m' →
    ∃ v v' c, shown m (order_path o) = Some v ∧ shown m' (order_path o) = Some v' ∧
      compare_json_values v v' = Some c ∧ (query_limit spec = None ∨ c ≠ Eq).

Context (Hscan : scans_index) (Hindex : index_describes) (Hable : indexable).

#[local] Instance passing_dec m : Decision (passing m).
Proof. unfold passing. apply _. Defined.

Lemma passing_filter m f : passing m → f ∈ query_filters spec → matches_filter_value (shown m (filter_path f)) f = true.
Proof. unfold passing, passes. rewrite forallb_forall. intros Hp Hf%list_elem_of_In. exact (Hp _ Hf). Qed.

(** The entry of a member that passes, and that the group of its path lets it through. *)
Lemma passing_entry m p limit : m ∈ ms → passing m → asked p → ∃ e, index e ∧ ie_node e = m ∧ ie_path e = p ∧
  shown m p = Some (ie_value e) ∧ sortable_scalar_key (ie_value e) = Some (ie_sortable e) ∧
  matches_sortable_key (build_direct_index_scan (filter (λ f, filter_path f = p) (query_filters spec)) limit) (ie_sortable e) = true ∧
  ∀ f, f ∈ query_filters spec → filter_path f = p → filter_matches_index_entry f (ie_value e) = true.
Proof using Hindex Hable.
  intros Hm Hp Ha. destruct Hable as [Hsf Hv]. destruct (Hv m p Hm Hp Ha) as (v & k & Es & Ek & Hs). exists (mkIndexEntry m p v k). cbn.
  assert (∀ f, f ∈ query_filters spec → filter_path f = p → matches_filter_value (Some v) f = true) as Hf.
  { intros f Hf <-. rewrite <-Es. by apply passing_filter. }
  split_and!; try done.
  - by apply (proj2 Hindex).
  - apply (scan_admits _ v); [done| |done]. apply Forall_forall. intros f [Ef Hin]%list_elem_of_filter. split; [|by apply Hf].
    rewrite Forall_forall in Hsf. by apply Hsf.

Qed.

Lemma scan_all p dir scan : ds_limit scan = None → ds_offset scan = 0 →
  ∃ l, scan_index p dir scan = Ok l ∧ NoDup l ∧ (∀ e, e ∈ l ↔ index e ∧ selected_entry p scan e = true) ∧ StronglySorted (rank_le dir) l.
Proof using Hscan.
  intros Hl Ho. destruct (Hscan p dir scan) as (l & El & full & Hn & He & Hs & E). rewrite Hl, Ho, drop_0 in E. cbn in E. subst l. eauto 10.
Qed.

Lemma selected_iff p ids s e :
  selected_entry p (with_candidates ids s) e = true ↔ ie_path e = p ∧ matches_sortable_key s (ie_sortable e) = true ∧ ie_node e ∈ ids.
Proof.
  unfold selected_entry, with_candidates, matches_candidate. cbn. rewrite !andb_true_iff, !bool_decide_eq_true. unfold matches_sortable_key. cbn. tauto.
Qed.

Definition matched_by (g : string * list QueryFilter) (m : string) : Prop :=
  ∃ e, index e ∧ ie_node e = m ∧ ie_path e = g.1 ∧ ∀ f, f ∈ g.2 → filter_matches_index_entry f (ie_value e) = true.

Lemma group_asked p fs : build_index_filter_groups spec !! p = Some fs → asked p.
Proof using Type.
  intros (Hp & Hn & ->)%group_inv. split; [done|]. left. apply list_elem_of_fmap.
  destruct (filter (λ f, filter_path f = p) (query_filters spec)) as [|f l] eqn:E; [done|]. exists f.
  assert (f ∈ filter (λ f, filter_path f = p) (query_filters spec)) as Hf by (rewrite E; apply elem_of_cons; by left).
  apply list_elem_of_filter in Hf as [<- Hf]. done.
Qed.

Lemma narrow_spec groups eligible :
  (∀ g, g ∈ groups → build_index_filter_groups spec !! g.1 = Some g.2) → eligible ⊆ list_to_set ms →
  ∃ r, narrow_ids scan_index (list_to_set ms) groups eligible = Ok r ∧
    match r with
    | None => ∀ m, m ∈ eligible → ¬ passing m
    | Some kept => kept ⊆ eligible ∧ (∀ m, m ∈ eligible → passing m → m ∈ kept) ∧ ∀ m g, m ∈ kept → g ∈ groups → matched_by g m
    end.
Proof using Hscan Hindex Hable.
  revert eligible. induction groups as [|[p fs] groups IH]; intros eligible Hg Hel; cbn [narrow_ids].
  { eexists. split; [reflexivity|]. set_solver. }
  pose proof (Hg (p, fs) ltac:(set_solver)) as Hp. cbn in Hp. pose proof (group_asked p fs Hp) as Ha. destruct (group_inv _ _ _ Hp) as (_ & _ & Efs).
  destruct (scan_window fs None) as [Hl Ho].
  destruct (scan_all p Asc (with_candidates (list_to_set ms) (build_direct_index_scan fs None)) Hl Ho) as (l & -> & _ & He & _).
  cbn [mbind result_bind]. set (kept := eligible ∩ _).
  assert (∀ m, m ∈ kept ↔ m ∈ eligible ∧ ∃ e, e ∈ l ∧ ie_node e = m ∧ ∀ f, f ∈ fs → filter_matches_index_entry f (ie_value e) = true) as Hleft.
  { intros m. unfold kept. rewrite elem_of_intersection, elem_of_list_to_set, list_elem_of_fmap. setoid_rewrite list_elem_of_filter.
    setoid_rewrite forallb_forall. setoid_rewrite <-list_elem_of_In. naive_solver. }
  assert (∀ m, m ∈ eligible → passing m → m ∈ kept) as Hkeep.
  { intros m Hm Hpass. apply Hleft. split; [done|]. assert (m ∈ ms) as Hin by set_solver.
    destruct (passing_entry m p None Hin Hpass Ha) as (e & Hi & En & Ep & _ & _ & Hk & Hf). rewrite <-Efs in Hk. exists e. split_and!; [|done|].
    - apply He. split; [done|]. apply selected_iff. split_and!; [done|done|]. rewrite En. set_solver.
    - intros f Hf'. rewrite Efs in Hf'. apply list_elem_of_filter in Hf' as [? ?]. by apply Hf. }
  case_decide as Eempty.
  { eexists. split; [reflexivity|]. cbn. intros m Hm Hpass. specialize (Hkeep m Hm Hpass). set_solver. }
  destruct (IH kept) as (r & -> & Hr); [set_solver|set_solver|]. exists r. split; [done|]. destruct r as [r|].
  - destruct Hr as (H1 & H2 & H3). split_and!; [set_solver|auto|]. intros m g Hm [->|Hin]%elem_of_cons; [|by apply H3].
    apply H1, Hleft in Hm as [_ (e & He' & En & Hf)]. apply He in He' as [Hi (Ep & _ & _)%selected_iff]. exists e. done.
  - intros m Hm Hpass. eapply Hr; [|done]. by apply Hkeep.
Qed.

(** Where every filter is indexed, the members left are those that pass. *)
Lemma left_passes (kept : gset string) : can_early_stop_index_query spec = true → kept ⊆ list_to_set ms →
  (∀ m g, m ∈ kept → g ∈ btree_list (build_index_filter_groups spec) → matched_by g m) → ∀ m, m ∈ kept → passing m.
Proof using Hindex.
  clear Hscan Hable. unfold can_early_stop_index_query. rewrite andb_true_iff, forallb_forall. intros [_ Hall] Hms' Hg m Hm. unfold passing, passes.
  apply forallb_forall. intros f Hf. specialize (Hall f Hf). rewrite bool_decide_eq_true in Hall. apply list_elem_of_In in Hf.
  assert (is_direct_index_path (filter_path f) = true) as Hd.
  { unfold indexed_filter_path in Hall. destruct (is_direct_index_path _); [done|]. by destruct Hall. }
  pose proof (group_spec spec (filter_path f) Hd) as Hgr.
  destruct (build_index_filter_groups spec !! filter_path f) as [fs|] eqn:E.
  - destruct (Hg m (filter_path f, fs) Hm) as (e & Hi & En & Ep & Hmatch); [by apply elem_of_btree_list|]. cbn in *.
    destruct (proj1 Hindex e Hi) as [Hs _]; [set_solver|rewrite Ep; by eapply group_asked|].
    assert (f ∈ fs) as Hin by (rewrite Hgr; apply list_elem_of_filter; done).
    specialize (Hmatch f Hin). rewrite index_filter_value, <-Hs, Ep, En in Hmatch. exact Hmatch.
  - assert (f ∈ filter (λ f0, filter_path f0 = filter_path f) (query_filters spec)) as Hin by (by apply list_elem_of_filter).
    rewrite <-Hgr in Hin. cbn in Hin. by apply not_elem_of_nil in Hin.
Qed.

Context (Horder : orderable) (Hms : NoDup ms) (Hsorted : StronglySorted String.le ms).

Definition evaluated (m : string) : EvaluatedQueryCandidate := evaluated_with spec (candidate_of m) (J m).

(** The reference on a list of members. *)
Definition reference (l : list string) : list MapEntry :=
  entry_of <$> query_window spec (sort_evaluated spec (evaluated <$> filter passing l)).

Lemma reference_eq l : query_reference spec ((λ m, (candidate_of m, J m)) <$> l) = reference l.
Proof using Type.
  clear. unfold query_reference, reference. do 3 f_equal. induction l as [|m l IH]; [done|]. rewrite fmap_cons, !filter_cons. cbn [fst snd cand_key candidate_of].
  destruct (decide (passing m)) as [Hp|Hp]; [rewrite decide_True by exact Hp|rewrite decide_False by exact Hp; done].
  by rewrite !fmap_cons, IH.
Qed.

(** The rank a member is ordered by. *)
Definition rank_of (p m : string) : string := default "" (shown m p ≫= sortable_scalar_key).
Definition order_key (p m : string) : string * string := (rank_of p m, m).

Definition order_le (o : QueryOrder) : relation string :=
  by_key_le (H := directed_ord (order_direction o)) (order_key (order_path o)).

#[local] Instance order_le_dec o : RelDecision (order_le o).
Proof. apply by_key_le_dec. Defined.

Lemma order_asked o : query_order spec = Some o → is_direct_index_path (order_path o) = true → asked (order_path o).
Proof using Type. intros Ho Hp. split; [done|]. right. by rewrite Ho. Qed.

(** Evaluated members compare by the rank of the value they are ordered by. *)
Lemma evaluated_order o m m' : query_order spec = Some o → is_direct_index_path (order_path o) = true →
  m ∈ ms → m' ∈ ms → passing m → passing m' → ev_le o (evaluated m) (evaluated m') ↔ order_le o m m'.
Proof using Hable Horder.
  intros Ho Hd Hm Hm' Hp Hp'. destruct Hable as [_ Hv]. pose proof (order_asked o Ho Hd) as Ha.
  destruct (Hv m _ Hm Hp Ha) as (v & k & Es & Ek & Hs), (Hv m' _ Hm' Hp' Ha) as (v' & k' & Es' & Ek' & Hs').
  assert (∃ c, compare_json_values v v' = Some c) as [c Ec].
  { destruct (decide (m = m')) as [<-|Hne]; [|destruct (Horder o m m') as (w & w' & c & E & E' & Ec & _); try done; naive_solver].
    rewrite Es in Es'. injection Es' as <-. eexists. by eapply compare_self. }
  unfold ev_le, order_le, by_key_le, ole. cbn [cmp directed_ord]. unfold evaluated, evaluated_with, compare_evaluated_candidates. rewrite Ho.
  cbn [order_value candidate cand_key candidate_of]. fold (shown m (order_path o)). fold (shown m' (order_path o)). rewrite Es, Es', Ec. cbn [default].
  unfold order_key, rank_of. rewrite Es, Es'. cbn [mbind option_bind]. rewrite Ek, Ek'. cbn [default].
  rewrite <-(rank_compare v v' k k' c Hs Hs' Ec Ek Ek').
  destruct (order_direction o); cbn; [done|]. by rewrite (String.compare_antisym k' k).
Qed.

Definition evaluated_le (o : QueryOrder) : relation string := λ m m', ev_le o (evaluated m) (evaluated m').

#[local] Instance evaluated_le_dec o : RelDecision (evaluated_le o).
Proof. intros m m'. unfold evaluated_le. apply _. Defined.

Lemma sort_members o l : query_order spec = Some o → is_direct_index_path (order_path o) = true →
  l ⊆ ms → Forall passing l → sort_evaluated spec (evaluated <$> l) = evaluated <$> merge_sort (order_le o) l.
Proof using Hable Horder.
  intros Ho Hd Hl Hp. unfold sort_evaluated. rewrite Ho. rewrite Forall_forall in Hp.
  rewrite (merge_sort_fmap evaluated (evaluated_le o) (ev_le o)) by done. f_equal.
  apply (merge_sort_ext _ _ l); [|done]. intros m m' Hm Hm'. apply evaluated_order; auto.
Qed.

Lemma order_sorted_unique o l k : NoDup l → StronglySorted (order_le o) l → StronglySorted (order_le o) k → l ≡ₚ k → l = k.
Proof using Type.
  clear. intros Hn. apply sorted_by_key_unique. by apply (NoDup_fmap_2_strong (order_key (order_path o)) l); [intros ? ? _ _ [= _ ->]|].
Qed.

Lemma order_sort_sorted o l : StronglySorted (order_le o) (merge_sort (order_le o) l).
Proof using Type. apply (StronglySorted_merge_sort (order_le o)). Qed.

Lemma order_sort_perm o l k : NoDup l → l ≡ₚ k → merge_sort (order_le o) l = merge_sort (order_le o) k.
Proof using Type.
  clear. intros Hn Hp. apply (order_sorted_unique o); [by rewrite merge_sort_Permutation|apply order_sort_sorted..|].
  by rewrite !merge_sort_Permutation.
Qed.

Lemma order_sort_id o l : NoDup l → StronglySorted (order_le o) l → merge_sort (order_le o) l = l.
Proof using Type.
  clear. intros Hn Hs. symmetry. apply (order_sorted_unique o); [done|done|apply order_sort_sorted|by rewrite merge_sort_Permutation].
Qed.

(** * The candidates the index gives *)

Lemma filter_reorder l : NoDup l → l ⊆ ms → (∀ m, m ∈ ms → passing m → m ∈ l) → filter passing l ≡ₚ filter passing ms.
Proof using Hms.
  clear scan_index Hscan Hindex Hable Horder Hsorted. intros Hn Hl Hp. apply NoDup_Permutation; [by apply NoDup_filter..|]. intros m. rewrite !list_elem_of_filter. set_solver.
Qed.

Lemma unordered_reference (kept : gset string) : kept ⊆ list_to_set ms → (∀ m, m ∈ ms → passing m → m ∈ kept) →
  reference (btree_elems kept) = reference ms.
Proof using Hms Hsorted.
  intros Hk Hp. unfold reference. do 4 f_equal. assert (∀ m, m ∈ btree_elems kept ↔ m ∈ kept) as He by apply elem_of_btree_elems.
  assert (NoDup (btree_elems kept)) as Hn by (unfold btree_elems; rewrite merge_sort_Permutation; apply NoDup_elements).
  apply (StronglySorted_unique String.le).
  - apply sorted_keep. apply (StronglySorted_merge_sort String.le).
  - by apply sorted_keep.
  - apply filter_reorder; [done| |]; clear -He Hk Hp; set_solver.
Qed.

Lemma ordered_candidates_all target entries seen out : NoDup (ie_node <$> entries) →
  (∀ e, e ∈ entries → ie_node e ∉ seen) → (∀ n, target = Some n → length out + length entries <= n) →
  ordered_candidates target entries seen out = out ++ (candidate_of <$> (ie_node <$> entries)).
Proof using Type.
  clear. revert seen out. induction entries as [|e entries IH]; intros seen out Hn Hs Ht; cbn [ordered_candidates]; [by rewrite app_nil_r|].
  apply NoDup_cons in Hn as [Hne Hn]. rewrite decide_False by (apply Hs; set_solver). cbn [length] in Ht.
  destruct (match target with Some n => _ | None => _ end) eqn:E.
  - destruct target as [n|]; [|done]. apply Nat.leb_le in E. rewrite length_app in E. cbn in E. specialize (Ht n eq_refl).
    destruct entries; [done|cbn in *; lia].
  - rewrite IH; [by rewrite <-app_assoc|done| |].
    + intros x Hx. rewrite not_elem_of_union, not_elem_of_singleton. split; [|apply Hs; set_solver].
      intros Hx'. apply Hne. rewrite <-Hx'. apply list_elem_of_fmap. eauto.
    + intros n Hn'. specialize (Ht n Hn'). rewrite length_app. cbn. lia.
Qed.

(** An entry is determined by its member and its path. *)
Lemma entry_unique p l : asked p → (∀ e, e ∈ l → index e ∧ ie_path e = p ∧ ie_node e ∈ ms) → NoDup l → NoDup (ie_node <$> l).
Proof using Hindex.
  clear scan_index Hscan Hable Horder Hms Hsorted. intros Ha Hl Hn. apply NoDup_fmap_2_strong; [|done]. intros e e' He He' En.
  destruct (Hl e He) as (Hi & Hp & Hm), (Hl e' He') as (Hi' & Hp' & Hm').
  destruct (proj1 Hindex e Hi Hm) as [Es Er]; [by rewrite Hp|]. destruct (proj1 Hindex e' Hi' Hm') as [Es' Er']; [by rewrite Hp'|].
  unfold ranked in *. destruct e as [n q v k], e' as [n' q' v' k']. cbn in *. subst. rewrite Es in Es'. injection Es' as <-. rewrite Er in Er'. by injection Er' as <-.
Qed.

Lemma entry_rank e : index e → ie_node e ∈ ms → asked (ie_path e) → rank_of (ie_path e) (ie_node e) = ie_sortable e.
Proof using Hindex.
  intros Hi Hm Ha. destruct (proj1 Hindex e Hi Hm Ha) as [Es Er]. unfold rank_of, ranked in *. rewrite Es. cbn. by rewrite Er.
Qed.

Lemma sorted_take {A} (R : relation A) n l : StronglySorted R l → StronglySorted R (take n l).
Proof using Type. clear. intros Hl. rewrite <-(take_drop n l) in Hl. by eapply StronglySorted_app_1_l. Qed.

(** Entries by rank, none equal, are members in the order asked for. *)
Lemma entries_ordered o l : query_order spec = Some o → is_direct_index_path (order_path o) = true → query_limit spec ≠ None →
  (∀ e, e ∈ l → index e ∧ ie_path e = order_path o ∧ ie_node e ∈ ms ∧ passing (ie_node e)) → NoDup (ie_node <$> l) →
  StronglySorted (rank_le (order_direction o)) l → StronglySorted (order_le o) (ie_node <$> l).
Proof using Hindex Hable Horder.
  clear scan_index Hscan Hms Hsorted. intros Ho Hd Hlim Hl Hn Hs. pose proof (order_asked o Ho Hd) as Ha. induction Hs as [|e l Hs IH Hx]; [constructor|]. rewrite fmap_cons in *.
  apply NoDup_cons in Hn as [Hne Hn]. constructor; [apply IH; [|done]; intros x Hx'; apply Hl; set_solver|].
  apply Forall_fmap, Forall_forall. intros x Hin. cbn. rewrite Forall_forall in Hx. specialize (Hx x Hin).
  destruct (Hl e ltac:(set_solver)) as (Hi & Hp & Hm & Hpass), (Hl x ltac:(set_solver)) as (Hi' & Hp' & Hm' & Hpass').
  assert (ie_node e ≠ ie_node x) as Hdiff by (intros E; apply Hne; rewrite E; apply list_elem_of_fmap; eauto).
  assert (ie_sortable e ≠ ie_sortable x) as Hrank.
  { intros E. destruct (Horder o _ _ Ho Hd Hm Hm' Hpass Hpass' Hdiff) as (v & v' & c & Es & Es' & Ec & [?|Hc]); [done|].
    destruct (proj1 Hindex e Hi Hm) as [F Er]; [by rewrite Hp|]. destruct (proj1 Hindex x Hi' Hm') as [F' Er']; [by rewrite Hp'|].
    rewrite Hp in F. rewrite Hp' in F'. rewrite Es in F. rewrite Es' in F'. injection F as ->. injection F' as ->. unfold ranked in *.
    destruct (proj2 Hable _ _ Hm Hpass Ha) as (w & k & G & _ & Sw), (proj2 Hable _ _ Hm' Hpass' Ha) as (w' & k' & G' & _ & Sw').
    rewrite Es in G. rewrite Es' in G'. injection G as <-. injection G' as <-.
    pose proof (rank_compare _ _ _ _ _ Sw Sw' Ec Er Er') as Hcmp. rewrite E, string_compare_refl in Hcmp. congruence. }
  pose proof (entry_rank e Hi Hm ltac:(by rewrite Hp)) as R1. pose proof (entry_rank x Hi' Hm' ltac:(by rewrite Hp')) as R2. rewrite Hp in R1. rewrite Hp' in R2.
  unfold order_le, by_key_le, ole, order_key. cbn [cmp directed_ord]. rewrite R1, R2. unfold rank_le, ole in Hx. unfold directed_cmp.
  destruct (order_direction o); cbn in *.
  - destruct (String.compare (ie_sortable e) (ie_sortable x)) eqn:E; try done. by apply String.compare_eq_iff in E.
  - destruct (String.compare (ie_sortable x) (ie_sortable e)) eqn:E; try done. by apply String.compare_eq_iff in E.
Qed.

(** The candidates of an ordered index, where all of the members left are scanned. *)
Lemma ordered_reference_all o (kept : gset string) : query_order spec = Some o → is_direct_index_path (order_path o) = true →
  target_count spec = None → kept ⊆ list_to_set ms → (∀ m, m ∈ ms → passing m → m ∈ kept) →
  ∃ l, scan_index (order_path o) (order_direction o) (with_candidates kept
      (build_direct_index_scan (default [] (build_index_filter_groups spec !! order_path o)) None)) = Ok l ∧
    ∃ k, ordered_candidates None l ∅ [] = candidate_of <$> k ∧ reference k = reference ms.
Proof using Hscan Hindex Hable Horder Hms.
  clear Hsorted. intros Ho Hd Ht Hk Hp. pose proof (order_asked o Ho Hd) as Ha. rewrite group_spec by done.
  set (fs := filter _ (query_filters spec)). destruct (scan_window fs None) as [Hl Hof].
  destruct (scan_all (order_path o) (order_direction o) (with_candidates kept (build_direct_index_scan fs None)) Hl Hof) as (l & -> & Hn & He & _).
  exists l. split; [done|]. exists (ie_node <$> l).
  assert (∀ e, e ∈ l → index e ∧ ie_path e = order_path o ∧ ie_node e ∈ ms) as Hin.
  { intros e [Hi (? & _ & Hkept)%selected_iff]%He. split_and!; [done..|]. by apply Hk, elem_of_list_to_set in Hkept. }
  pose proof (entry_unique _ l Ha Hin Hn) as Hnn. split; [by apply ordered_candidates_all|].
  unfold reference. assert (filter passing (ie_node <$> l) ≡ₚ filter passing ms) as Hperm.
  { apply filter_reorder; [done| |].
    - intros m (e & -> & Hx)%list_elem_of_fmap. by apply Hin.
    - intros m Hm Hpass. destruct (passing_entry m (order_path o) None Hm Hpass Ha) as (e & Hi & En & Ep & _ & _ & Hkey & _).
      apply list_elem_of_fmap. exists e. split; [done|]. apply He. split; [done|]. apply selected_iff. split_and!; [done|done|].
      rewrite En. by apply Hp. }
  rewrite !(sort_members o) by (done || (apply Forall_forall; by intros ? [? _]%list_elem_of_filter) || (intros ? [_ ?]%list_elem_of_filter; done)
    || (intros m [_ (e & -> & Hx)%list_elem_of_fmap]%list_elem_of_filter; by apply Hin)).
  do 3 f_equal. apply order_sort_perm; [by apply NoDup_filter|done].
Qed.

(** The candidates of an ordered index, where the scan stops at the last one asked for. *)
Lemma ordered_reference_prefix o limit (kept : gset string) : query_order spec = Some o → is_direct_index_path (order_path o) = true →
  query_limit spec = Some limit → can_early_stop_index_query spec = true → kept ⊆ list_to_set ms → (∀ m, m ∈ ms → passing m → m ∈ kept) →
  (∀ m, m ∈ kept → passing m) →
  ∃ l, scan_index (order_path o) (order_direction o) (with_candidates kept
      (build_direct_index_scan (default [] (build_index_filter_groups spec !! order_path o)) (target_count spec))) = Ok l ∧
    ∃ k, ordered_candidates (target_count spec) l ∅ [] = candidate_of <$> k ∧ reference k = reference ms.
Proof using Hscan Hindex Hable Horder Hms.
  clear Hsorted. intros Ho Hd Hlim Hstop Hk Hp Hpass. pose proof (order_asked o Ho Hd) as Ha. rewrite group_spec by done.
  set (fs := filter _ (query_filters spec)). set (n := Z.to_nat (sat_add u64_max (Z.of_nat (query_offset spec)) (Z.of_nat limit))).
  assert (target_count spec = Some n) as -> by (unfold target_count; by rewrite Hlim, Hstop).
  destruct (scan_window fs (Some n)) as [Hl Hof].
  destruct (Hscan (order_path o) (order_direction o) (with_candidates kept (build_direct_index_scan fs (Some n)))) as (l & El & full & Hn & He & Hs & E).
  cbn [with_candidates ds_limit ds_offset] in E. rewrite Hl, Hof, drop_0 in E. cbn in E. exists l. split; [done|]. exists (ie_node <$> l).
  assert (∀ e, e ∈ full → index e ∧ ie_path e = order_path o ∧ ie_node e ∈ ms ∧ passing (ie_node e)) as Hin.
  { intros e [Hi (? & _ & Hkept)%selected_iff]%He. split_and!; [done|done| |by apply Hpass]. by apply Hk, elem_of_list_to_set in Hkept. }
  assert (NoDup (ie_node <$> full)) as Hnn by (eapply entry_unique; [exact Ha| |done]; intros e Hx; by destruct (Hin e Hx) as (? & ? & ? & _)).
  assert (StronglySorted (order_le o) (ie_node <$> full)) as Hos by (apply entries_ordered; try done; by rewrite Hlim).
  subst l. split.
  { apply ordered_candidates_all; [|done|intros ? [= <-]; rewrite length_take; cbn; lia].
    rewrite fmap_take. eapply sublist_NoDup; [exact Hnn|apply sublist_take]. }
  unfold reference. rewrite fmap_take. set (L := ie_node <$> full) in *.
  assert (∀ m, m ∈ L → m ∈ ms ∧ passing m) as HL by (intros m (e & -> & Hx)%list_elem_of_fmap; by destruct (Hin e Hx) as (_ & _ & ? & ?)).
  assert (filter passing ms ≡ₚ L) as Hperm.
  { apply NoDup_Permutation; [by apply NoDup_filter|done|]. intros m. rewrite list_elem_of_filter. split; [|intros Hm; by destruct (HL m Hm)].
    intros [Hpm Hm]. destruct (passing_entry m (order_path o) (Some n) Hm Hpm Ha) as (e & Hi & En & Ep & _ & _ & Hkey & _).
    apply list_elem_of_fmap. exists e. split; [done|]. apply He. split; [done|]. apply selected_iff. split_and!; [done|done|]. rewrite En. by apply Hp. }
  assert (∀ m, m ∈ take n L → m ∈ L) as Htake by (intros m Hm; rewrite <-(take_drop n L); apply elem_of_app; by left).
  assert (filter passing (take n L) = take n L) as ->.
  { apply keep_all. intros m Hm. apply HL. by apply Htake. }
  rewrite !(sort_members o) by (done || (apply Forall_forall; by intros ? [? _]%list_elem_of_filter) || (intros ? [_ ?]%list_elem_of_filter; done)
    || (intros m Hm; by apply HL, Htake) || (apply Forall_forall; intros m Hm; by apply HL, Htake)).
  assert (NoDup (filter passing ms)) as Hnf by (by apply NoDup_filter).
  rewrite (order_sort_perm o _ L Hnf Hperm), (order_sort_id o L Hnn Hos).
  rewrite (order_sort_id o (take n L)) by (first [by apply sorted_take|eapply sublist_NoDup; [exact Hnn|apply sublist_take]]).
  rewrite fmap_take. f_equal. unfold n. by apply window_of_prefix.
Qed.

Lemma index_candidates_spec :
  ∃ r, index_candidates scan_index (list_to_set ms) spec = Ok r ∧
    match r with
    | None => reference ms = []
    | Some cs => ∃ k, cs = candidate_of <$> k ∧ reference k = reference ms
    end.
Proof using Hscan Hindex Hable Horder Hms Hsorted.
  unfold index_candidates. destruct (narrow_spec (btree_list (build_index_filter_groups spec)) (list_to_set ms)) as (r & -> & Hr).
  { intros [p fs] Hg%elem_of_btree_list. done. }
  { done. }
  cbn [mbind result_bind]. destruct r as [kept|].
  2: { eexists. split; [reflexivity|]. unfold reference. rewrite keep_none; [unfold sort_evaluated; destruct (query_order spec); cbn; unfold query_window; rewrite drop_nil, take_nil; done|].
       intros m Hm. apply Hr. by apply elem_of_list_to_set. }
  destruct Hr as (Hk & Hkeep & Hg). assert (∀ m, m ∈ ms → passing m → m ∈ kept) as Hp by (intros m Hm; by apply Hkeep, elem_of_list_to_set).
  destruct (query_order spec) as [o|] eqn:Ho; cbn [mbind option_bind].
  2: { eexists. split; [reflexivity|]. cbn. exists (btree_elems kept). split; [done|]. by apply unordered_reference. }
  unfold indexed_order_path. destruct (is_direct_index_path (order_path o)) eqn:Hd.
  2: { eexists. split; [reflexivity|]. cbn. exists (btree_elems kept). split; [done|]. by apply unordered_reference. }
  destruct (target_count spec) as [n|] eqn:Ht.
  - assert (∃ limit, query_limit spec = Some limit ∧ can_early_stop_index_query spec = true) as (limit & Hlim & Hstop).
    { unfold target_count in Ht. destruct (query_limit spec) as [limit|]; [|done]. destruct (can_early_stop_index_query spec); [eauto|done]. }
    destruct (ordered_reference_prefix o limit kept Ho Hd Hlim Hstop Hk Hp) as (l & El & k & Ek & Er); [by apply left_passes|].
    rewrite Ht in El, Ek. rewrite El. cbn [mbind result_bind]. eexists. split; [reflexivity|]. cbn. eauto.
  - destruct (ordered_reference_all o kept Ho Hd Ht Hk Hp) as (l & El & k & Ek & Er). rewrite El. cbn [mbind result_bind]. eexists. split; [reflexivity|]. cbn. eauto.
Qed.
End answer.

(** * Queries with and without the index *)

Section equivalence.
Context `{Cod : Codec, En : Env, Laws : !EnvLaws}.
Variable scan_index : string → QueryDirection → DirectIndexScan → result (list DirectScalarIndexEntry).
Variable index : DirectScalarIndexEntry → Prop.

(** The value of a member, as a query shows it. *)
Definition member_json (i : Inner) (m : string) : json := cand_json (read_fuel i) (view i) (candidate_of m).

(** What the index must be like for the set a path leads to. *)
Definition index_serves (a : NodeId) (segs : list string) (spec : QuerySpec) (i : Inner) : Prop :=
  ∀ node field set, view_cursor (view i) a segs = Ok (Some (CField node field)) →
    ((view i node).1 ≫= λ st, value <$> fields st !! field) = Some (FSet set) →
    let ms := btree_keys (members set) in
    index_describes index spec ms (member_json i) ∧ indexable spec ms (member_json i) ∧ orderable spec ms (member_json i).

Lemma members_of (set : SetState) : dom (members set) = list_to_set (btree_keys (members set)).
Proof. apply set_eq. intros m. by rewrite elem_of_list_to_set, elem_of_btree_keys, elem_of_dom. Qed.

(** C12: queries answered from the storage index.  Where the index describes the members of the
set asked, with a scalar at every path the query looks up in the members that pass, and
members are ordered by comparable values that differ where a limit may cut, narrowing the
members by index scans, ordering them by rank and stopping early changes no answer. *)
Theorem indexed_query_equivalent a segs spec i :
  view_wf (view i) → scans_index scan_index index → index_serves a segs spec i →
  (indexed_query_at scan_index a segs spec i).2 = (query_at a segs spec i).2.
Proof.
  intros Hwf Hscan Hserves. pose proof (shows_view i) as Hi. rewrite (query_at_shows _ _ _ a segs spec i Hwf Hi).
  unfold indexed_query_at, query_with_storage_indexes, mbind, M_bind. destruct storage_engine as [engine|]; [|by apply (query_at_shows _ _ _ a segs spec i Hwf Hi)].
  destruct (resolve_cursor_pure _ _ _ a segs i Hi) as [H1 H2].
  destruct (resolve_cursor a segs i) as [i1 [c|e]]; cbn [fst snd] in *; [|by rewrite <-H1].
  assert ((query_at a segs spec i1).2 = match view_cursor (view i) a segs with Err e => Err e | Ok c => _ end) as Hplain
    by exact (query_at_shows _ _ _ a segs spec i1 Hwf H2).
  destruct c as [[node|node field]|]; unfold mret, M_ret, gets; cbn [fst snd]; try exact Hplain.
  assert (field_of i1 node field = ((view i node).1 ≫= λ st, value <$> fields st !! field)) as Hf.
  { unfold field_of. rewrite (proj2 (proj2 H2) node) by (rewrite <-H1; cbn; set_solver). done. }
  rewrite Hf. destruct ((view i node).1 ≫= λ st, value <$> fields st !! field) as [[| | | |set]|] eqn:Ev; try exact Hplain.
  destruct (bool_decide _ && bool_decide _); [exact Hplain|]. unfold lift.
  symmetry in H1. destruct (Hserves node field set H1 Ev) as (Hd & Ha & Ho).
  destruct (index_candidates_spec scan_index index spec (btree_keys (members set)) (member_json i) Hscan Hd Ha Ho) as (r & Er & Hr);
    [apply btree_keys_NoDup|apply btree_keys_sorted|].
  rewrite members_of, Er. rewrite H1. cbn [view_candidates]. rewrite Ev.
  assert (query_reference spec ((λ k, (k, cand_json (S (size (universe i))) (view i) k)) <$> ((λ m, mkCandidate m (QNode m)) <$> btree_keys (members set))) =
    reference spec (member_json i) (btree_keys (members set))) as Href.
  { rewrite <-reference_eq, <-list_fmap_compose. done. }
  destruct r as [cs|]; cbn [fst snd].
  - destruct Hr as (k & -> & Hr). unfold embed. cbn [fst snd]. f_equal.
    rewrite (evaluate_candidates_spec _ _ _ spec _ i1 Hwf) with (2 := H2); [|apply Forall_fmap, Forall_forall; done].
    rewrite Href, <-Hr, <-reference_eq, <-list_fmap_compose. done.
  - rewrite Href, Hr. done.
Qed.
End equivalence.

(** * Deciding that an index serves a query *)

Section check.
Context (entries : list DirectScalarIndexEntry) (spec : QuerySpec) (ms : list string) (J : string → json).

Definition asked_paths : list string :=
  filter (λ p, is_direct_index_path p = true)
    ((filter_path <$> query_filters spec) ++ match query_order spec with Some o => [order_path o] | None => [] end).

Definition describes_check : bool :=
  forallb (λ e, negb (bool_decide (ie_node e ∈ ms) && bool_decide (ie_path e ∈ asked_paths)) ||
    bool_decide (query_value_parts (ie_node e) (J (ie_node e)) (ie_path e) = Some (ie_value e)) &&
    bool_decide (sortable_scalar_key (ie_value e) = Some (ie_sortable e))) entries &&
  forallb (λ m, forallb (λ p,
    match query_value_parts m (J m) p with
    | Some v =>
        match sortable_scalar_key v with Some k => bool_decide (mkIndexEntry m p v k ∈ entries) | None => true end
    | None => true
    end) asked_paths) ms.

Definition indexable_check : bool :=
  forallb sane_filter (query_filters spec) &&
  forallb (λ m, negb (passes spec m (J m)) || forallb (λ p,
    match query_value_parts m (J m) p with
    | Some v => bool_decide (is_Some (sortable_scalar_key v)) && sane v
    | None => false
    end) asked_paths) ms.

Definition orderable_check : bool :=
  match query_order spec with
  | None => true
  | Some o =>
      forallb (λ m, forallb (λ m', bool_decide (m = m') || negb (passes spec m (J m)) || negb (passes spec m' (J m')) ||
        match query_value_parts m (J m) (order_path o), query_value_parts m' (J m') (order_path o) with
        | Some v, Some v' =>
            match compare_json_values v v' with
            | Some Eq => bool_decide (query_limit spec = None)
            | Some _ => true
            | None => false
            end
        | _, _ => false
        end) ms) ms
  end.

Lemma asked_listed p : asked spec p ↔ p ∈ asked_paths.
Proof.
  unfold asked, asked_paths. rewrite list_elem_of_filter, elem_of_app. apply and_iff_compat_l, or_iff_compat_l.
  destruct (query_order spec) as [o|]; cbn; [rewrite list_elem_of_singleton; naive_solver|]. split; [done|]. by intros ?%not_elem_of_nil.
Qed.

Ltac checked := repeat match goal with
  | H : _ && _ = true |- _ => apply andb_true_iff in H as [? ?]
  | H : bool_decide _ = true |- _ => apply bool_decide_eq_true in H
  | H : forallb _ _ = true |- _ => rewrite forallb_forall in H
  end.

Lemma checks_serve (index : DirectScalarIndexEntry → Prop) : (∀ e, index e ↔ e ∈ entries) →
  describes_check && indexable_check && orderable_check = true →
  index_describes index spec ms J ∧ indexable spec ms J ∧ orderable spec ms J.
Proof.
  intros Hi H. unfold describes_check, indexable_check in H. rewrite !andb_true_iff, !forallb_forall in H. destruct H as [[[H2 H4] [Hf H3]] H0]. unfold index_describes, indexable, shown, passing. split_and!.
  - intros e He%Hi%list_elem_of_In Hm Ha%asked_listed. specialize (H2 _ He). rewrite orb_true_iff in H2.
    destruct H2 as [Hn|Hn]; [|by checked]. rewrite !bool_decide_eq_true_2 in Hn by done. done.
  - intros m p v k Hm%list_elem_of_In Ha%asked_listed%list_elem_of_In Es Ek. apply Hi. specialize (H4 _ Hm). checked. specialize (H4 _ Ha). cbn in H4. rewrite Es, Ek in H4. by checked.
  - apply Forall_forall. intros f Hin%list_elem_of_In. auto.
  - intros m p Hm%list_elem_of_In Hp Ha%asked_listed%list_elem_of_In. specialize (H3 _ Hm). rewrite Hp in H3. cbn in H3. checked. specialize (H3 _ Ha). cbn in H3.
    destruct (query_value_parts m (J m) p) as [v|]; [|done]. rewrite andb_true_iff, bool_decide_eq_true in H3. destruct H3 as [[k Hk] Hsane]. eauto 10.
  - intros o m m' Ho _ Hm%list_elem_of_In Hm'%list_elem_of_In Hp Hp' Hne. unfold orderable_check in H0. rewrite Ho in H0. checked. specialize (H0 _ Hm). checked. specialize (H0 _ Hm').
    cbn in H0. rewrite bool_decide_eq_false_2, Hp, Hp' in H0 by done. cbn in H0. unfold shown.
    destruct (query_value_parts m (J m) (order_path o)) as [v|]; [|done]. destruct (query_value_parts m' (J m') (order_path o)) as [v'|]; [|done].
    destruct (compare_json_values v v') as [[]|] eqn:E; try done; exists v, v'; eexists; split_and!; eauto. checked. auto.
Qed.
End check.

(** * A shelf of books *)

Module Shelf.
#[local] Existing Instance demo_codec.
#[local] Existing Instance Run.env.
#[local] Existing Instance Run.senv.

Definition marker : VersionMarker := mkMarker (mkRevision 5 0 "a") "op1".
Definition scalar (v : json) : FieldState := mkField (FScalar v) marker.
Definition num (n : Z) : json := JNumber (PosInt n).

Definition book (n title : string) (rank : option json) : NodeState :=
  mkNode n (<["title" := scalar (JString title)]> (match rank with Some r => {["rank" := scalar r]} | None => ∅ end)) ∅.

Definition shelf (books : list NodeState) : gmap string NodeState :=
  <["lib" := mkNode "lib" {["books" := mkField (FSet (mkSet marker (list_to_map ((λ b, (id b, marker)) <$> books)) ∅)) marker]} ∅]>
    (list_to_map ((λ b, (id b, b)) <$> books)).

(** The database in memory, its store after one commit, and the engine over it. *)
Definition loaded (books : list NodeState) : Inner := set_nodes (shelf books) demo_db.
Definition commit (books : list NodeState) : Disk * result unit :=
  apply_transaction Run.store (build_storage_transaction 1 (Run.meta 2) (shelf books)) (mkDisk ∅ 0 None).
Definition scan_of (d : Disk) (p : string) (dir : QueryDirection) (scan : DirectIndexScan)
    : result (list DirectScalarIndexEntry) := (scan_direct_index_entries [] p dir scan d).2.
Definition engine (books : list NodeState) : StorageEngine :=
  mkEngine (λ n, Ok (shelf books !! n)) (λ _, Ok None) (dom (shelf books)).
Definition env (books : list NodeState) : Env := {|
  now_millis n := (1000 + Z.of_nat n)%Z;
  blake3_hex key := key;
  storage_engine := Some (engine books);
  materialize_scalar _ v := v;
  json_display _ := "expected"
|}.

Definition keys_of (r : result (list MapEntry)) : option (list string) :=
  match r with Ok l => Some (map_key <$> l) | Err _ => None end.

(** The same query with the index and without it. *)
Definition with_index (books : list NodeState) (spec : QuerySpec) : option (list string) :=
  keys_of (@indexed_query_at demo_codec (env books) (scan_of (commit books).1) "lib" ["books"] spec (loaded books)).2.
Definition without_index (books : list NodeState) (spec : QuerySpec) : option (list string) :=
  keys_of (@query_at demo_codec (env books) "lib" ["books"] spec (loaded books)).2.

Definition good_node (n : string) (st : NodeState) : bool :=
  bool_decide (id st = n) && bool_decide (fields st !! "$id" = None) && negb (node_state_is_empty st).

Definition good (books : list NodeState) : bool := forallb (λ e, good_node e.1 e.2) (map_to_list (shelf books)).

Lemma good_lookup books n st : good books = true → shelf books !! n = Some st →
  id st = n ∧ fields st !! "$id" = None ∧ node_state_is_empty st = false.
Proof.
  unfold good, good_node. rewrite forallb_forall. intros Hg Hn%elem_of_map_to_list%list_elem_of_In. specialize (Hg _ Hn). cbn in Hg.
  rewrite !andb_true_iff, !bool_decide_eq_true, negb_true_iff in Hg. naive_solver.
Qed.

Lemma laws books : good books = true → @EnvLaws (env books).
Proof.
  intros Hg. split; cbn; intros e n st [= <-]; cbn; intros [= Hn].
  - by apply (good_lookup books n st).
  - apply elem_of_dom. eauto.
Qed.

Lemma shelf_view books : good books = true → view_wf (@view (env books) (loaded books)).
Proof.
  intros Hg n. pose proof (@view_cases (env books) (laws books Hg) (loaded books) n) as ->. cbn [nodes loaded set_nodes].
  destruct (shelf books !! n) as [st|] eqn:E.
  - destruct (good_lookup books n st Hg E) as (Hid & Hf & He). rewrite He. cbn. split; [by eauto|]. by intros ? [= <-].
  - cbn. rewrite E. by case_bool_decide.
Qed.

(** The entries of a store's index. *)
Definition entries_of (d : Disk) : list DirectScalarIndexEntry :=
  map_to_list (files d) ≫= λ f, match f.2 with FileBucket b => (map_to_list b).*2 | _ => [] end.

Lemma elem_entries_of d e : stored_entry d e ↔ e ∈ entries_of d.
Proof.
  unfold stored_entry, entries_of. rewrite list_elem_of_bind. split.
  - intros (p & b & k & Hp & Hk). exists (p, FileBucket b). split; [|by apply elem_of_map_to_list]. cbn. apply list_elem_of_fmap.
    exists (k, e). split; [done|by apply elem_of_map_to_list].
  - intros ([p c] & He & Hp%elem_of_map_to_list). destruct c; cbn in He; try by apply not_elem_of_nil in He.
    apply list_elem_of_fmap in He as ([k x] & -> & Hk%elem_of_map_to_list). eauto.
Qed.

Lemma commit_scans books : (commit books).2 = Ok tt →
  forallb (λ e, sane (ie_value e)) (map_to_list (tx_direct_indexes (build_storage_transaction 1 (Run.meta 2) (shelf books)))).*2 = true →
  scans_index (scan_of (commit books).1) (stored_entry (commit books).1).
Proof.
  intros Hok Hs p dir scan. assert (tidy (commit books).1) as Ht.
  { apply (committed_tidy Run.store). eapply (store_commit _ (mkDisk ∅ 0 None)); [by apply store_empty| |].
    - apply (built_keyed 1 (Run.meta 2) (shelf books)). intros k e Hk. rewrite forallb_forall in Hs. apply Hs, list_elem_of_In, list_elem_of_fmap.
      exists (k, e). split; [done|by apply elem_of_map_to_list].
    - unfold commit in *. rewrite <-Hok. apply surjective_pairing. }
  destruct (tidy_scannable _ p Ht) as [Hp Ho]. destruct (scan_direct_index_exact [] p dir scan _ Hp Ho) as (l & El & Hw).
  exists l. unfold scan_of. rewrite El. done.
Qed.

Definition ranked_books : list NodeState :=
  [book "b1" "Emma" (Some (num 30)); book "b2" "Ulysses" (Some (num 10)); book "b3" "Evelina" (Some (num 20)); book "b4" "Dracula" (Some (num 40))].

(** The first two books from rank 20 on. *)
Definition ascending : QuerySpec := mkQuery [FGte "rank" (num 20)] (Some (mkOrder "rank" Asc)) (Some 2) 0.

Definition book_set : SetState :=
  mkSet marker (list_to_map ((λ b, (id b, marker)) <$> ranked_books)) ∅.

Lemma at_books : view_cursor (@view (env ranked_books) (loaded ranked_books)) "lib" ["books"] = Ok (Some (CField "lib" "books")).
Proof. vm_cast_no_check (eq_refl (Ok (Some (CField "lib" "books")) : result (option Cursor))). Qed.

Lemma books_set : ((@view (env ranked_books) (loaded ranked_books) "lib").1 ≫= λ st, value <$> fields st !! "books") = Some (FSet book_set).
Proof. vm_cast_no_check (eq_refl (Some (FSet book_set))). Qed.

Lemma books_members : btree_keys (members book_set) = ["b1"; "b2"; "b3"; "b4"].
Proof. by vm_compute. Qed.

Lemma indexed_query_equivalent_witness :
  with_index ranked_books ascending = Some ["b3"; "b1"] ∧
  (@indexed_query_at demo_codec (env ranked_books) (scan_of (commit ranked_books).1) "lib" ["books"] ascending (loaded ranked_books)).2 =
  (@query_at demo_codec (env ranked_books) "lib" ["books"] ascending (loaded ranked_books)).2.
Proof.
  split; [by vm_compute|].
  assert (good ranked_books = true) as Hg by (by vm_compute).
  apply (@indexed_query_equivalent demo_codec (env ranked_books) (laws _ Hg) _ (stored_entry (commit ranked_books).1)).
  - by apply shelf_view.
  - apply commit_scans; by vm_compute.
  - intros node field set Hc Hf. cbv zeta.
    rewrite at_books in Hc. injection Hc as <- <-. rewrite books_set in Hf. injection Hf as <-. rewrite books_members.
    apply (checks_serve (entries_of (commit ranked_books).1)); [apply elem_entries_of|by vm_compute].
Defined.

(** * Where the index changes the answer *)

Definition ordered (dir : QueryDirection) (limit : option nat) : QuerySpec := mkQuery [] (Some (mkOrder "rank" dir)) limit 0.

(** A member without the field a query orders by is listed by a query that does not use the
index and left out by one that does. *)
Lemma index_drops_unordered :
  let books := [book "b1" "Emma" (Some (num 30)); book "b2" "Ulysses" None] in
  without_index books (ordered Asc None) = Some ["b2"; "b1"] ∧ with_index books (ordered Asc None) = Some ["b1"].
Proof. by vm_compute. Qed.

(** Among equal values a descending query takes the first key, the index the last. *)
Lemma index_descending_ties :
  let books := [book "b1" "Emma" (Some (num 30)); book "b2" "Ulysses" (Some (num 30))] in
  without_index books (ordered Desc (Some 1)) = Some ["b1"] ∧ with_index books (ordered Desc (Some 1)) = Some ["b2"].
Proof. by vm_compute. Qed.

(** A value that is not a scalar passes an existence filter, but has no index entry. *)
Lemma index_misses_arrays :
  let books := [book "b1" "Emma" (Some (JArray [num 1]))] in
  let spec := mkQuery [FExists "rank"] None None 0 in
  without_index books spec = Some ["b1"] ∧ with_index books spec = Some [].
Proof. by vm_compute. Qed.

(** The two zeros are equal, but have different ranks. *)
Lemma index_separates_zeros :
  let zero s := JNumber (Float (SpecFloat.S754_zero s)) in
  let books := [book "b1" "Emma" (Some (zero true))] in
  let spec := mkQuery [FEq "rank" (zero false)] None None 0 in
  without_index books spec = Some ["b1"] ∧ with_index books spec = Some [].
Proof. by vm_compute. Qed.

(** A temporary file that a failed write left in the index makes every query of its path fail. *)
Lemma leftover_temp_fails_query :
  let d := (commit ranked_books).1 in
  let temp := direct_index_root "rank" ++ ["v_x"; "v_y.json.tmp-7-0-9"] in
  let d' := mkDisk (<[temp := FileOther ""]> (files d)) (temp_counter d) None in
  keys_of (@indexed_query_at demo_codec (env ranked_books) (scan_of d') "lib" ["books"] (mkQuery [FExists "rank"] None None 0) (loaded ranked_books)).2 = None.
Proof. by vm_compute. Qed.
End Shelf.
