(* ===== verification/Blob.v ===== *)
(** Blob storage ([src/src/blob.rs], and its uses in [src/src/db.rs]): content-addressed
bytes in memory or in files, behind one interface.

The hash of the content and the JSON text of a reference are parameters.  The file store
acts on directories of files; a call is a list of changes, and a crash leaves those of a
prefix of it. *)
From stdpp Require Import base gmap sets list strings.
From Stdlib Require Import ZArith Lia.
From S2P Require Import Prelude Clock Value Crdt Merge OpQueue RelIndex Paths Records Keys Engine Segment Input Inner Read View Query Traversal InnerWf Tx Db.

Record StoredBlob := mkBlob { blob_reference : BlobRef; blob_data : list Z }.

Class BlobEnv := {
  blake3_hex : list Z → string;
  ref_text : BlobRef → result string;
  text_ref : string → result BlobRef
}.

(** The digest is printed in hexadecimal, and what serde prints parses to the same. *)
Class BlobLaws `{BlobEnv} := {
  hex_plain : ∀ d, free_of ":"%char (blake3_hex d) = true ∧ free_of "_"%char (blake3_hex d) = true;
  ref_prints : ∀ r, ∃ t, ref_text r = Ok t ∧ text_ref t = Ok r
}.

(** * The interface *)

Class BlobStore (T : Type) := {
  put_blob : list Z → option string → T → T * result BlobRef;
  get_blob : string → T → T * result (option StoredBlob);
  delete_unreferenced : gset string → T → T * result nat
}.

Definition has_blob `{BlobStore T} (id : string) (s : T) : T * result bool :=
  let '(s, r) := get_blob id s in
  (s, match r with Ok (Some _) => Ok true | Ok None => Ok false | Err e => Err e end).

Section references.
Context `{BlobEnv}.

Definition blob_ref_for_data (d : list Z) (mt : option string) : BlobRef :=
  mkBlobRef ("blake3:" +:+ blake3_hex d) (Z.of_nat (length d)) mt.

(** The ids the stores give out. *)
Definition content_id (id : string) : Prop := ∃ d, id = "blake3:" +:+ blake3_hex d.
End references.

(** What the database relies on: a store is a map from ids to blobs. *)
Class BlobStoreLaws (T : Type) `{BlobStore T, BlobEnv} := {
  holds : T → gmap string StoredBlob → Prop;
  put_holds : ∀ s m d mt, holds s m →
    let r := blob_ref_for_data d mt in
    ∃ s', put_blob d mt s = (s', Ok r) ∧ holds s' (<[blob_id r := mkBlob r d]> m);
  get_holds : ∀ s m id, holds s m → content_id id → ∃ s', get_blob id s = (s', Ok (m !! id)) ∧ holds s' m;
  delete_holds : ∀ s m live, holds s m →
    ∃ s', delete_unreferenced live s = (s', Ok (size m - size (filter (λ p, p.1 ∈ live) m))) ∧ holds s' (filter (λ p, p.1 ∈ live) m)
}.

(** * In memory *)

Section memory.
Context `{BlobEnv}.

Definition MemoryBlobStore : Type := gmap string StoredBlob.

Definition memory_put (d : list Z) (mt : option string) (s : MemoryBlobStore) : MemoryBlobStore * result BlobRef :=
  let r := blob_ref_for_data d mt in
  (<[blob_id r := mkBlob r d]> s, Ok r).

Definition memory_delete (live : gset string) (s : MemoryBlobStore) : MemoryBlobStore * result nat :=
  let s' := filter (λ p, p.1 ∈ live) s in
  (s', Ok (size s - size s')).

#[export] Instance memory_store : BlobStore MemoryBlobStore :=
  {| put_blob := memory_put; get_blob := λ id s, (s, Ok (s !! id)); delete_unreferenced := memory_delete |}.

#[export] Program Instance memory_laws : BlobStoreLaws MemoryBlobStore := {| holds := λ s m, s = m |}.
Next Obligation. intros s m d mt ->. cbn. eauto. Qed.
Next Obligation. intros s m id -> _. cbn. eauto. Qed.
Next Obligation. intros s m live ->. cbn. eauto. Qed.
End memory.

(** * In files *)

Fixpoint replace_char (a b : Ascii.ascii) (s : string) : string :=
  match s with
  | EmptyString => ""
  | String c s => String (if decide (c = a) then b else c) (replace_char a b s)
  end.

(** What a file of a blob's directory holds. *)
Inductive blob_file := FileText (t : string) | FileBytes (d : list Z).

Record FileBlobStore := mkFileStore {
  fb_durability : SegmentDurability;
  fb_dirs : gmap string (gmap string blob_file);
  fb_counter : Z
}.

Definition set_dirs (ds : gmap string (gmap string blob_file)) (s : FileBlobStore) : FileBlobStore :=
  mkFileStore (fb_durability s) ds (fb_counter s).

(** Changes of the file system: a directory made, a file emptied or created, a file
written, a file renamed within its directory. *)
Inductive change :=
  | MakeDir (dir : string)
  | CreateFile (dir name : string)
  | WriteAll (dir name : string) (c : blob_file)
  | Rename (dir name name' : string).

Definition in_dir (dir : string) (f : gmap string blob_file → gmap string blob_file) (ds : gmap string (gmap string blob_file)) :=
  <[dir := f (default ∅ (ds !! dir))]> ds.

Definition do_change (c : change) (ds : gmap string (gmap string blob_file)) : gmap string (gmap string blob_file) :=
  match c with
  | MakeDir dir => in_dir dir (λ fs, fs) ds
  | CreateFile dir name => in_dir dir (insert name (FileBytes [])) ds
  | WriteAll dir name c => in_dir dir (insert name c) ds
  | Rename dir name name' =>
      in_dir dir (λ fs, match fs !! name with Some c => <[name' := c]> (delete name fs) | None => fs end) ds
  end.

Definition do_changes (cs : list change) (ds : gmap string (gmap string blob_file)) := foldl (λ ds c, do_change c ds) ds cs.

Definition blob_dir (id : string) : string := replace_char ":" "_" id.

(** [temp_path_for]: the process, the time and the counter. *)
Definition temp_name (stamp : Z → string) (counter : Z) (name : string) : string := name +:+ ".tmp-" +:+ stamp counter.

Definition write_file_changes (stamp : Z → string) (du : SegmentDurability) (counter : Z) (dir name : string) (c : blob_file) : list change :=
  match du with
  | Relaxed => [MakeDir dir; CreateFile dir name; WriteAll dir name c]
  | _ =>
      let temp := temp_name stamp counter name in
      [MakeDir dir; CreateFile dir temp; WriteAll dir temp c; Rename dir temp name]
  end.

Section files.
Context `{BlobEnv} (stamp : Z → string).

(** The changes of [put_blob], in order. *)
Definition data_changes (s : FileBlobStore) (r : BlobRef) (d : list Z) : list change :=
  let dir := blob_dir (blob_id r) in
  MakeDir dir :: write_file_changes stamp (fb_durability s) (fb_counter s) dir "data.bin" (FileBytes d).

Definition put_changes (s : FileBlobStore) (r : BlobRef) (t : string) (d : list Z) : list change :=
  data_changes s r d
  ++ write_file_changes stamp (fb_durability s) (fb_counter s + 1) (blob_dir (blob_id r)) "meta.json" (FileText t).

Definition file_put (d : list Z) (mt : option string) (s : FileBlobStore) : FileBlobStore * result BlobRef :=
  let r := blob_ref_for_data d mt in
  match ref_text r with
  | Err e => (mkFileStore (fb_durability s) (do_changes (data_changes s r d) (fb_dirs s)) (fb_counter s + 1), Err e)
  | Ok t => (mkFileStore (fb_durability s) (do_changes (put_changes s r t d) (fb_dirs s)) (fb_counter s + 2), Ok r)
  end.

Definition file_bytes (f : blob_file) : list Z :=
  match f with FileBytes d => d | FileText t => (λ a, Z.of_N (Ascii.N_of_ascii a)) <$> String.list_ascii_of_string t end.

Definition read_dir (id : string) (dir : gmap string blob_file) : result (option StoredBlob) :=
  match dir !! "meta.json", dir !! "data.bin" with
  | Some m, Some d =>
      match (match m with FileText t => text_ref t | FileBytes _ => Err (Serde "not a reference") end) with
      | Err e => Err e
      | Ok r =>
          if negb (bool_decide (blob_bytes r = Z.of_nat (length (file_bytes d))))
          then Err (Message ("blob `" +:+ id +:+ "` metadata length " +:+ dec (blob_bytes r) +:+ " does not match stored bytes "
                              +:+ dec (Z.of_nat (length (file_bytes d)))))
          else Ok (Some (mkBlob r (file_bytes d)))
      end
  | _, _ => Ok None
  end.

Definition file_get (id : string) (s : FileBlobStore) : FileBlobStore * result (option StoredBlob) :=
  (s, read_dir id (default ∅ (fb_dirs s !! blob_dir id))).

Definition file_delete (live : gset string) (s : FileBlobStore) : FileBlobStore * result nat :=
  let kept := filter (λ p, replace_char "_" ":" p.1 ∈ live) (fb_dirs s) in
  (set_dirs kept s, Ok (size (fb_dirs s) - size kept)).

#[export] Instance file_store : BlobStore FileBlobStore :=
  {| put_blob := file_put; get_blob := file_get; delete_unreferenced := file_delete |}.
End files.

(** ** The directory of one blob *)

Section directory.
Context `{BL : BlobLaws} (stamp : Z → string).

Definition dir_change (c : change) (fs : gmap string blob_file) : gmap string blob_file :=
  match c with
  | MakeDir _ => fs
  | CreateFile _ name => <[name := FileBytes []]> fs
  | WriteAll _ name c => <[name := c]> fs
  | Rename _ name name' => match fs !! name with Some c => <[name' := c]> (delete name fs) | None => fs end
  end.

Definition change_dir (c : change) : string :=
  match c with MakeDir d | CreateFile d _ | WriteAll d _ _ | Rename d _ _ => d end.

Lemma do_change_dir c ds : do_change c ds = in_dir (change_dir c) (dir_change c) ds.
Proof. by destruct c. Qed.

Lemma do_changes_dir dir cs ds :
  (∀ c, c ∈ cs → change_dir c = dir) → cs ≠ [] →
  do_changes cs ds = <[dir := foldl (λ fs c, dir_change c fs) (default ∅ (ds !! dir)) cs]> ds.
Proof.
  unfold do_changes. revert ds. induction cs as [|c cs IH]; intros ds Hc Hne; [done|]. simpl. rewrite do_change_dir, (Hc c) by (by left).
  destruct cs as [|c' cs]; [done|]. rewrite IH; [|intros; apply Hc; by right|done]. unfold in_dir. by rewrite lookup_insert_eq, insert_insert_eq.
Qed.

Lemma do_changes_lookup dir cs ds :
  (∀ c, c ∈ cs → change_dir c = dir) →
  default ∅ (do_changes cs ds !! dir) = foldl (λ fs c, dir_change c fs) (default ∅ (ds !! dir)) cs ∧
  ∀ dir', dir' ≠ dir → do_changes cs ds !! dir' = ds !! dir'.
Proof.
  intros Hc. destruct cs as [|c cs]; [done|]. rewrite (do_changes_dir dir) by done.
  split; [by rewrite lookup_insert_eq|]. intros dir' Hne. by rewrite lookup_insert_ne.
Qed.

Lemma put_changes_dir s r t d c : c ∈ put_changes stamp s r t d → change_dir c = blob_dir (blob_id r).
Proof.
  unfold put_changes, data_changes, write_file_changes. rewrite list_elem_of_In.
  destruct (fb_durability s); simpl; intros Hc; repeat destruct Hc as [<-|Hc]; done.
Qed.

(** The two files that are read. *)
Definition shown (fs : gmap string blob_file) : option blob_file * option blob_file := (fs !! "meta.json", fs !! "data.bin").

Lemma temp_data_ne n : temp_name stamp n "data.bin" ≠ "meta.json" ∧ temp_name stamp n "data.bin" ≠ "data.bin".
Proof. by split. Qed.

Lemma temp_meta_ne n : temp_name stamp n "meta.json" ≠ "meta.json" ∧ temp_name stamp n "meta.json" ≠ "data.bin".
Proof. by split. Qed.

(** The files of a blob's directory after each prefix of a [put_blob] that renames. *)
Lemma put_prefix s r t d k fs :
  fb_durability s ≠ Relaxed →
  let fs' := foldl (λ fs c, dir_change c fs) fs (take k (put_changes stamp s r t d)) in
  shown fs' = shown fs ∨ shown fs' = (fs !! "meta.json", Some (FileBytes d)) ∨ shown fs' = (Some (FileText t), Some (FileBytes d)).
Proof.
  intros Hd. pose proof (temp_data_ne (fb_counter s)) as [H1 H2]. pose proof (temp_meta_ne (fb_counter s + 1)) as [H3 H4].
  assert ("meta.json" ≠ "data.bin") as H5 by done.
  unfold put_changes, data_changes, write_file_changes. set (dir := blob_dir (blob_id r)).
  set (t1 := temp_name stamp (fb_counter s) "data.bin") in *. set (t2 := temp_name stamp (fb_counter s + 1) "meta.json") in *.
  unfold shown. destruct (fb_durability s); [done| |];
    (do 10 try destruct k as [|k]; cbn [app take foldl dir_change];
     repeat (rewrite lookup_insert_eq || (rewrite lookup_insert_ne by done) || (rewrite lookup_delete_ne by done) || (progress cbv beta iota)); auto).
Qed.

Lemma put_finished s r t d fs :
  shown (foldl (λ fs c, dir_change c fs) fs (put_changes stamp s r t d)) = (Some (FileText t), Some (FileBytes d)).
Proof.
  pose proof (temp_data_ne (fb_counter s)) as [H1 H2]. pose proof (temp_meta_ne (fb_counter s + 1)) as [H3 H4].
  assert ("meta.json" ≠ "data.bin") as H5 by done.
  unfold put_changes, data_changes, write_file_changes. set (dir := blob_dir (blob_id r)).
  set (t1 := temp_name stamp (fb_counter s) "data.bin") in *. set (t2 := temp_name stamp (fb_counter s + 1) "meta.json") in *.
  unfold shown. destruct (fb_durability s); cbn [app foldl dir_change];
    repeat (rewrite lookup_insert_eq || (rewrite lookup_insert_ne by done) || (rewrite lookup_delete_ne by done) || (progress cbv beta iota)); auto.
Qed.

Lemma read_shown id fs m d r :
  shown fs = (Some (FileText m), Some (FileBytes d)) → text_ref m = Ok r → blob_bytes r = Z.of_nat (length d) →
  read_dir id fs = Ok (Some (mkBlob r d)).
Proof.
  unfold shown, read_dir. intros [= -> ->] -> Hl. cbn [file_bytes]. rewrite bool_decide_eq_true_2 by done. done.
Qed.

(** A directory that a blob's calls may have left: a reference of the content's length, if
any, and the content, if any. *)
Definition left_behind (d : list Z) (fs : gmap string blob_file) : Prop :=
  (fs !! "meta.json" = None ∨ ∃ t r, fs !! "meta.json" = Some (FileText t) ∧ text_ref t = Ok r ∧ blob_bytes r = Z.of_nat (length d)) ∧
  (fs !! "data.bin" = None ∨ fs !! "data.bin" = Some (FileBytes d)).

Lemma read_left id d fs : left_behind d fs → read_dir id fs = Ok None ∨ ∃ r, read_dir id fs = Ok (Some (mkBlob r d)).
Proof.
  intros [[Hm|(t & r & Hm & Ht & Hr)] Hd]; [left; unfold read_dir; by rewrite Hm|]. destruct Hd as [Hd|Hd]; [left; unfold read_dir; by rewrite Hm, Hd|].
  right. exists r. eapply read_shown; [|done|done]. unfold shown. by rewrite Hm, Hd.
Qed.

(** Storing a blob in files is atomic when files are renamed into place: stop after any
number of the changes [put_blob] makes, in a directory that earlier calls for the same
content may have left half-done, and every other blob reads as before, while this one
reads, without error, as nothing only if it did before, and otherwise with its content. *)
Lemma put_atomic s d mt t k :
  let r := blob_ref_for_data d mt in
  let dir := blob_dir (blob_id r) in
  let fs := default ∅ (fb_dirs s !! dir) in
  let crashed := set_dirs (do_changes (take k (put_changes stamp s r t d)) (fb_dirs s)) s in
  fb_durability s ≠ Relaxed → ref_text r = Ok t → left_behind d fs →
  (∀ id, blob_dir id ≠ dir → file_get id crashed = (crashed, (file_get id s).2)) ∧
  ∃ o, file_get (blob_id r) crashed = (crashed, Ok o) ∧
    (o = None → (file_get (blob_id r) s).2 = Ok None) ∧ (∀ b, o = Some b → blob_data b = d).
Proof.
  intros r dir fs crashed Hd Ht Hl.
  destruct (do_changes_lookup dir (take k (put_changes stamp s r t d)) (fb_dirs s)) as [Hdir Hother].
  { intros c Hc%subseteq_take. by apply (put_changes_dir s r t d). }
  split; [intros id Hid; unfold file_get; cbn [fst snd crashed set_dirs fb_dirs]; by rewrite Hother|].
  unfold file_get. cbn [snd]. fold dir fs. change (fb_dirs crashed) with (do_changes (take k (put_changes stamp s r t d)) (fb_dirs s)). rewrite Hdir. fold fs.
  assert (text_ref t = Ok r) as Hr by (destruct (ref_prints r) as (t' & E1 & E2); congruence).
  destruct (put_prefix s r t d k fs Hd) as [E|[E|E]].
  - assert (∀ id, read_dir id (foldl (λ fs c, dir_change c fs) fs (take k (put_changes stamp s r t d))) = read_dir id fs) as Hsame
      by (intros id; unfold read_dir, shown in *; injection E as -> ->; done).
    rewrite Hsame. destruct (read_left (blob_id r) d fs Hl) as [->|[r' ->]]; eexists; (split; [reflexivity|]); [done|]. split; [done|]. by intros b [= <-].
  - destruct Hl as [[Hm|(t0 & r0 & Hm & Ht0 & Hr0)] Hdat]; rewrite Hm in E.
    + exists None. split; [unfold read_dir, shown in *; injection E as E1 _; by rewrite E1|]. split; [|done]. intros _. unfold read_dir. by rewrite Hm.
    + rewrite (read_shown _ _ _ _ _ E Ht0 Hr0). eexists. split; [reflexivity|]. split; [done|]. by intros b [= <-].
  - rewrite (read_shown _ _ _ _ _ E Hr eq_refl). eexists. split; [reflexivity|]. split; [done|]. by intros b [= <-].
Qed.
End directory.

(** ** The file store keeps the interface's promise *)

Lemma replace_free a b s : free_of a s = true → replace_char a b s = s.
Proof.
  induction s as [|c s IH]; [done|]. cbn [free_of replace_char]. intros [Hc Hs]%andb_true_iff. apply bool_decide_eq_true in Hc.
  by rewrite decide_False, IH.
Qed.

Lemma replace_app a b s t : replace_char a b (s +:+ t) = replace_char a b s +:+ replace_char a b t.
Proof. induction s as [|c s IH]; [done|]. rewrite str_app_cons. cbn [replace_char]. by rewrite IH. Qed.

Lemma size_image {A B} (m : gmap string A) (n : gmap string B) (f : string → string) :
  (∀ k, is_Some (n !! k) ↔ ∃ j, is_Some (m !! j) ∧ k = f j) →
  (∀ i j, is_Some (m !! i) → is_Some (m !! j) → f i = f j → i = j) → size n = size m.
Proof.
  intros Hn Hf. rewrite <-!size_dom. unfold size, set_size. simpl. rewrite <-(length_fmap f (elements (dom m))).
  apply Permutation_length, NoDup_Permutation.
  - apply NoDup_elements.
  - apply NoDup_fmap_2_strong; [|apply NoDup_elements]. intros i j Hi Hj. rewrite elem_of_elements, elem_of_dom in Hi, Hj. auto.
  - intros k. rewrite elem_of_elements, elem_of_dom, Hn, list_elem_of_fmap. setoid_rewrite elem_of_elements. setoid_rewrite elem_of_dom. naive_solver.
Qed.

Section file_laws.
Context `{BL : BlobLaws} (stamp : Z → string).

Lemma blob_dir_content d : blob_dir ("blake3:" +:+ blake3_hex d) = "blake3_" +:+ blake3_hex d.
Proof. unfold blob_dir. rewrite replace_app, (replace_free _ _ (blake3_hex d)) by apply hex_plain. done. Qed.

Lemma blob_dir_back id : content_id id → replace_char "_" ":" (blob_dir id) = id.
Proof.
  intros [d ->]. rewrite blob_dir_content, replace_app, (replace_free _ _ (blake3_hex d)) by apply hex_plain. done.
Qed.

Lemma blob_dir_inj i j : content_id i → content_id j → blob_dir i = blob_dir j → i = j.
Proof. intros Hi Hj E. by rewrite <-(blob_dir_back i), <-(blob_dir_back j), E. Qed.

Definition files_hold (s : FileBlobStore) (m : gmap string StoredBlob) : Prop :=
  (∀ id, is_Some (m !! id) → content_id id) ∧
  (∀ dir, is_Some (fb_dirs s !! dir) ↔ ∃ id, is_Some (m !! id) ∧ dir = blob_dir id) ∧
  (∀ id b, m !! id = Some b → ∃ fs t, fb_dirs s !! blob_dir id = Some fs ∧
     shown fs = (Some (FileText t), Some (FileBytes (blob_data b))) ∧ text_ref t = Ok (blob_reference b) ∧
     blob_bytes (blob_reference b) = Z.of_nat (length (blob_data b))).

Lemma file_put_holds s m d mt :
  files_hold s m → let r := blob_ref_for_data d mt in
  ∃ s', file_put stamp d mt s = (s', Ok r) ∧ files_hold s' (<[blob_id r := mkBlob r d]> m).
Proof.
  intros (Hc & Hd & Hm) r. unfold file_put. fold r. destruct (ref_prints r) as (t & Et & Etr). rewrite Et. eexists. split; [reflexivity|].
  assert (content_id (blob_id r)) as Hr by (by exists d).
  rewrite (do_changes_dir (blob_dir (blob_id r))); [|intros c; by apply put_changes_dir|by unfold put_changes, data_changes].
  set (fs' := foldl _ _ _). split; [|split]; cbn [fb_dirs].
  - intros id. rewrite lookup_insert_is_Some. intros [<-|[_ Hid]]; auto.
  - intros dir. rewrite lookup_insert_is_Some, Hd. setoid_rewrite lookup_insert_is_Some. split.
    + intros [<-|[Hne (id & Hid & ->)]]; [by eauto|]. exists id. split; [|done]. right. split; [intros E; apply Hne; by rewrite E|done].
    + intros (id & [<-|[Hne Hid]] & ->); [by left|]. right. split; [|by eauto]. intros E. apply Hne. by apply blob_dir_inj; auto.
  - intros id b. rewrite lookup_insert_Some. intros [[<- <-]|[Hne Hb]].
    + exists fs', t. rewrite lookup_insert_eq. split; [done|]. split; [apply put_finished|]. done.
    + destruct (Hm id b Hb) as (fs & t' & Hfs & Hs). exists fs, t'. rewrite lookup_insert_ne; [done|].
      intros E. apply Hne, blob_dir_inj; eauto.
Qed.

Lemma file_get_holds s m id : files_hold s m → content_id id → file_get id s = (s, Ok (m !! id)).
Proof.
  intros (Hc & Hd & Hm) Hid. unfold file_get. f_equal. destruct (m !! id) as [b|] eqn:E.
  - destruct (Hm id b E) as (fs & t & -> & Hs & Ht & Hl). simpl. rewrite (read_shown _ _ _ _ _ Hs Ht Hl). by destruct b.
  - destruct (fb_dirs s !! blob_dir id) as [fs|] eqn:Ef; [|done]. exfalso.
    assert (is_Some (fb_dirs s !! blob_dir id)) as (id' & Hid' & Edir)%Hd by eauto.
    apply blob_dir_inj in Edir as ->; eauto. rewrite E in Hid'. by destruct Hid'.
Qed.

Lemma file_delete_holds s m live :
  files_hold s m → ∃ s', file_delete live s = (s', Ok (size m - size (filter (λ p, p.1 ∈ live) m))) ∧ files_hold s' (filter (λ p, p.1 ∈ live) m).
Proof.
  intros (Hc & Hd & Hm). unfold file_delete. set (kept := filter _ (fb_dirs s)). set (m' := filter _ m).
  assert (∀ id, is_Some (m' !! id) ↔ is_Some (m !! id) ∧ id ∈ live) as Hm'.
  { intros id. unfold m', is_Some. setoid_rewrite map_lookup_filter_Some. naive_solver. }
  assert (∀ dir, is_Some (kept !! dir) ↔ ∃ id, is_Some (m' !! id) ∧ dir = blob_dir id) as Hk.
  { intros dir. unfold kept. transitivity (is_Some (fb_dirs s !! dir) ∧ replace_char "_" ":" dir ∈ live).
    { unfold is_Some. setoid_rewrite map_lookup_filter_Some. naive_solver. }
    rewrite Hd. setoid_rewrite Hm'. split.
    - intros [(id & Hid & ->) Hl]. rewrite blob_dir_back in Hl by auto. eauto.
    - intros (id & [Hid Hl] & ->). rewrite blob_dir_back by auto. eauto. }
  eexists. split; [f_equal; f_equal; f_equal; apply size_image with blob_dir|].
  - done.
  - intros i j Hi Hj. apply blob_dir_inj; auto.
  - done.
  - intros i j [Hi _]%Hm' [Hj _]%Hm'. apply blob_dir_inj; auto.
  - split; [intros id [Hid _]%Hm'; auto|]. split; [done|]. intros id b Hb. apply map_lookup_filter_Some in Hb as [Hb Hl].
    destruct (Hm id b Hb) as (fs & t & Hfs & Hs). exists fs, t. split; [|done]. cbn [fb_dirs set_dirs]. apply map_lookup_filter_Some. split; [done|].
    cbn [fst]. rewrite blob_dir_back by eauto. done.
Qed.

#[export] Program Instance file_laws : @BlobStoreLaws FileBlobStore (file_store stamp) _ := {| holds := files_hold |}.
Next Obligation. intros. by apply file_put_holds. Qed.
Next Obligation. intros s m id Hs Hid. exists s. split; [by apply file_get_holds|done]. Qed.
Next Obligation. intros. by apply file_delete_holds. Qed.
End file_laws.

(** * The database's blobs *)

Section host.
Context `{BL : BlobLaws} {T : Type} `{BS : !BlobStore T} `{BSL : !BlobStoreLaws T}.

Definition store_blob (d : list Z) (mt : option string) (h : option T) : option T * result BlobRef :=
  match h with
  | None => (h, Err BlobStoreUnavailable)
  | Some s => let '(s, r) := put_blob d mt s in (Some s, r)
  end.

Definition db_get_blob (id : string) (h : option T) : option T * result (option StoredBlob) :=
  match h with
  | None => (h, Err BlobStoreUnavailable)
  | Some s => let '(s, r) := get_blob id s in (Some s, r)
  end.

Definition db_has_blob (id : string) (h : option T) : option T * result bool :=
  match h with
  | None => (h, Err BlobStoreUnavailable)
  | Some s => let '(s, r) := has_blob id s in (Some s, r)
  end.

Definition field_blob (f : FieldState) : list string := match value f with FBlob r => [blob_id r] | _ => [] end.

Definition referenced_blob_ids (nodes : gmap NodeId NodeState) : gset string :=
  list_to_set ((btree_list nodes).*2 ≫= λ n, (btree_list (fields n)).*2 ≫= field_blob).

(** The blobs of [vacuum_storage]. *)
Definition vacuum_blobs (nodes : gmap NodeId NodeState) (h : option T) : option T * result nat :=
  match h with
  | None => (h, Ok 0)
  | Some s => let '(s, r) := delete_unreferenced (referenced_blob_ids nodes) s in (Some s, r)
  end.

Lemma elem_of_referenced nodes id :
  id ∈ referenced_blob_ids nodes ↔
  ∃ k n g f r, nodes !! k = Some n ∧ fields n !! g = Some f ∧ value f = FBlob r ∧ blob_id r = id.
Proof.
  unfold referenced_blob_ids. rewrite elem_of_list_to_set, list_elem_of_bind. setoid_rewrite list_elem_of_bind. split.
  - intros (n & (f & Hid & Hf) & Hn). apply list_elem_of_fmap in Hn as ([k n'] & -> & Hn%elem_of_btree_list).
    apply list_elem_of_fmap in Hf as ([g f'] & -> & Hf%elem_of_btree_list). cbn [snd] in *. unfold field_blob in Hid.
    destruct (value f') as [| |r| |] eqn:E; try (by apply not_elem_of_nil in Hid). apply list_elem_of_singleton in Hid as ->. naive_solver.
  - intros (k & n & g & f & r & Hn & Hf & Hv & <-). exists n. split; [|apply list_elem_of_fmap; exists (k, n); by rewrite elem_of_btree_list].
    exists f. split; [unfold field_blob; rewrite Hv; by left|]. apply list_elem_of_fmap. exists (g, f). by rewrite elem_of_btree_list.
Qed.

(** What may happen to a store while a blob is referenced. *)
Inductive host_step (id : string) : option T → option T → Prop :=
  | hs_store d mt h : host_step id h (store_blob d mt h).1
  | hs_get i h : content_id i → host_step id h (db_get_blob i h).1
  | hs_vacuum nodes h : id ∈ referenced_blob_ids nodes → host_step id h (vacuum_blobs nodes h).1.

Definition kept_blob (id : string) (d : list Z) (h : option T) : Prop :=
  ∃ s m r, h = Some s ∧ holds s m ∧ m !! id = Some (mkBlob r d) ∧ blob_id r = id ∧ blob_bytes r = Z.of_nat (length d).

Lemma kept_step d h h' :
  let id := "blake3:" +:+ blake3_hex d in
  (∀ d', blake3_hex d' = blake3_hex d → d' = d) → host_step id h h' → kept_blob id d h → kept_blob id d h'.
Proof.
  intros id Hinj Hs (s & m & r & -> & Hm & Hid & Hr & Hl). inversion Hs as [d' mt h0|i h0 Hi|nodes h0 Hin]; subst.
  - destruct (put_holds s m d' mt Hm) as (s' & E & Hs'). cbn. rewrite E. cbn [fst]. unfold kept_blob.
    destruct (decide (blob_id (blob_ref_for_data d' mt) = id)) as [Ei|Ei].
    + assert (d' = d) as -> by (unfold id in Ei; cbn in Ei; apply Hinj; by injection Ei).
      eexists s', _, (blob_ref_for_data d mt). split; [done|]. split; [exact Hs'|]. rewrite Ei, lookup_insert_eq. done.
    + eexists s', _, r. split; [done|]. split; [exact Hs'|]. rewrite lookup_insert_ne by done. done.
  - destruct (get_holds s m i Hm Hi) as (s' & E & Hs'). cbn. rewrite E. cbn [fst]. exists s', m, r. done.
  - destruct (delete_holds s m (referenced_blob_ids nodes) Hm) as (s' & E & Hs'). cbn. rewrite E. cbn [fst].
    eexists s', _, r. split; [done|]. split; [exact Hs'|]. split; [|done]. apply map_lookup_filter_Some. done.
Qed.

End host.

(** * Concrete blobs *)

Module Drawer.
(** A reference as the bits of its number among all references. *)
#[global] Instance BlobRef_countable : Countable BlobRef.
Proof.
  refine (inj_countable' (λ r, (blob_id r, blob_bytes r, media_type r)) (λ p, mkBlobRef p.1.1 p.1.2 p.2) _). by intros [].
Defined.

Fixpoint pos_text (p : positive) : string :=
  match p with xH => "" | xO p => String "0" (pos_text p) | xI p => String "1" (pos_text p) end.

Fixpoint text_pos (s : string) : positive :=
  match s with EmptyString => xH | String c s => if decide (c = "0"%char) then xO (text_pos s) else xI (text_pos s) end.

Lemma text_pos_back p : text_pos (pos_text p) = p.
Proof.
  induction p as [p IH|p IH|]; [| |done]; cbn [pos_text text_pos]; [rewrite decide_False by done|rewrite decide_True by done]; by rewrite IH.
Qed.

#[export] Instance bits : BlobEnv := {|
  blake3_hex := λ d, if bool_decide (d = [7%Z; 8%Z]) then "78" else "0";
  ref_text := λ r, Ok (pos_text (encode r));
  text_ref := λ t, match decode (text_pos t) with Some r => Ok r | None => Err (Serde "not a reference") end |}.

#[export] Instance bits_laws : BlobLaws.
Proof.
  split.
  - intros d. cbn. by case_bool_decide.
  - intros r. exists (pos_text (encode r)). split; [done|]. cbn [text_ref bits]. rewrite text_pos_back, decode_encode. done.
Qed.

Definition stamp (n : Z) : string := "1-" +:+ hex n.
#[export] Instance drawer : BlobStore FileBlobStore := file_store stamp.

Definition empty : FileBlobStore := mkFileStore Full ∅ 0.

Lemma empty_holds : files_hold empty ∅.
Proof.
  split; [intros id [b Hb]; by rewrite lookup_empty in Hb|]. split.
  - intros dir. cbn. rewrite lookup_empty. split; [by intros []|]. intros (id & [b Hb] & _). by rewrite lookup_empty in Hb.
  - intros id b Hb. by rewrite lookup_empty in Hb.
Qed.

Definition photo : BlobRef := blob_ref_for_data [7%Z; 8%Z] (Some "image/png").

Definition holding (v : FieldValue) : gmap NodeId NodeState :=
  {[ "album" := mkNode "album" {[ "cover" := mkField v (mkMarker (mkRevision 1 1 "r") "o") ]} ∅ ]}.


(** The photo's bytes are written and the machine stops before the reference is. *)
Lemma put_atomic_witness :
  let crashed := set_dirs (do_changes (take 5 (put_changes stamp empty photo (pos_text (encode photo)) [7%Z; 8%Z])) ∅) empty in
  (file_get (blob_id photo) crashed).2 = Ok None ∧
  ∃ o, file_get (blob_id photo) crashed = (crashed, Ok o) ∧ ∀ b, o = Some b → blob_data b = [7%Z; 8%Z].
Proof.
  split; [vm_compute; reflexivity|].
  destruct (put_atomic stamp empty [7%Z; 8%Z] (Some "image/png") (pos_text (encode photo)) 5) as (_ & o & E & _ & Hd).
  - discriminate.
  - reflexivity.
  - split; left; apply lookup_empty.
  - exists o. exact (conj E Hd).
Defined.

(** A reference that is signed is not counted, and its blob is deleted. *)
Lemma signed_reference_uncounted :
  referenced_blob_ids (holding (FBlob photo)) = {[ blob_id photo ]} ∧ referenced_blob_ids (holding (FScalar (JString "SEA"))) = ∅.
Proof. by vm_compute. Qed.
End Drawer.
