(* ===== verification/SessionAuth.v ===== *)
(** Session authentication ([src/src/session_auth.rs] and the handlers of
[src/src/native_sync.rs]): a challenge, the signed answer, its verification, and the
book-keeping of challenges and verified identities.

Signatures are a parameter: a key pair signs a transcript, and a public key, which
is checked to be one, verifies it. *)
From stdpp Require Import base gmap sets list strings.
From Stdlib Require Import ZArith Lia.
From S2P Require Import Prelude Clock Value.

Record SessionAuthConfig := mkAuthConfig {
  require_authenticated_peers : bool;
  trusted_public_keys : list string;
  trusted_aliases : list string;
  challenge_timeout_ms : Z;
  session_ttl_ms : Z;
  allow_unauthenticated_presence : bool
}.

Record PresenceIdentity := mkPresenceIdentity {
  public_key : string;
  alias : option string;
  key_scheme : string;
  session_id : string;
  claims : gmap string string;
  pi_issued : Z;
  pi_expires : option Z
}.

Inductive IdentityTrust := Verified | TrustedPublicKey | TrustedAlias.

Record VerifiedIdentity := mkVerified {
  vi_public_key : string;
  vi_alias : option string;
  vi_peer : string;
  vi_replica : string;
  vi_transport : string;
  vi_session : string;
  vi_claims : gmap string string;
  vi_issued : Z;
  vi_expires : option Z;
  vi_trust : IdentityTrust
}.

Record AuthChallenge := mkChallenge {
  challenge_id : string;
  nonce : string;
  issuer_peer : string;
  issuer_replica : string;
  target_peer : string;
  target_replica : string;
  ch_transport : string;
  issuer_session : string;
  target_session : string;
  ch_issued : Z;
  ch_expires : Z
}.

Record AuthTranscript := mkTranscript {
  protocol_version : Z;
  tr_challenge : string;
  tr_issuer_peer : string;
  tr_issuer_replica : string;
  tr_responder_peer : string;
  tr_responder_replica : string;
  tr_issuer_session : string;
  tr_responder_session : string;
  issuer_nonce : string;
  responder_nonce : string;
  tr_transport : string;
  responder_public_key : string;
  responder_alias : option string;
  tr_claims : gmap string string;
  tr_issued : Z;
  tr_expires : Z
}.

Record AuthResponse := mkAuthResponse {
  ar_challenge : string;
  responder_peer : string;
  responder_replica : string;
  responder_identity : PresenceIdentity;
  ar_nonce : string;
  transcript : AuthTranscript;
  signer : string;
  signature : string
}.

#[global] Instance AuthTranscript_eq_dec : EqDecision AuthTranscript.
Proof. solve_decision. Defined.

(** The signature scheme on serialized transcripts. *)
Class Signatures := {
  Identity : Type;
  public_key_base64 : Identity → string;
  sign_transcript : Identity → AuthTranscript → string;
  verify_transcript : string → string → AuthTranscript → result unit
}.

Class SignatureLaws `{Signatures} := {
  sign_verifies : ∀ k t, verify_transcript (public_key_base64 k) (sign_transcript k t) t = Ok tt
}.

Section auth.
Context `{Signatures}.

Definition crypto_error (message : string) : PrimadbError := Crypto message.

(** [now] stands for the reading of the clock, [id] and [token] for the random
challenge id and nonce. *)
Definition create_auth_challenge (now : Z) (id token issuer_peer issuer_replica issuer_session
    target_peer target_replica : string) (target : PresenceIdentity) (transport : string)
    (config : SessionAuthConfig) : AuthChallenge :=
  mkChallenge (issuer_peer +:+ "/challenge/" +:+ id) token issuer_peer issuer_replica target_peer
    target_replica transport issuer_session (session_id target) now
    (sat_add u64_max now (Z.max (challenge_timeout_ms config) 1)).

Definition challenge_is_expired (now : Z) (c : AuthChallenge) : bool := (ch_expires c <? now)%Z.

(** The two readings of the clock are [now] and [now']. *)
Definition sign_auth_response (now now' : Z) (token : string) (identity : Identity)
    (name : option string) (cl : gmap string string) (c : AuthChallenge)
    (peer replica session : string) (config : SessionAuthConfig) : result AuthResponse :=
  if challenge_is_expired now c then Err (crypto_error "session auth challenge has expired")
  else
    let key := public_key_base64 identity in
    let t := mkTranscript 1 (challenge_id c) (issuer_peer c) (issuer_replica c) peer replica
               (issuer_session c) session (nonce c) token (ch_transport c) key name cl now'
               (sat_add u64_max now' (Z.max (session_ttl_ms config) 1)) in
    Ok (mkAuthResponse (challenge_id c) peer replica
          (mkPresenceIdentity key name "ed25519" session cl now' (Some (tr_expires t)))
          token t key (sign_transcript identity t)).

Definition resolve_trust (identity : PresenceIdentity) (config : SessionAuthConfig)
    : result IdentityTrust :=
  if bool_decide (public_key identity ∈ trusted_public_keys config) then Ok TrustedPublicKey
  else if match alias identity with
          | Some name => bool_decide (name ∈ trusted_aliases config)
          | None => false
          end then Ok TrustedAlias
  else if bool_decide (trusted_public_keys config = []) && bool_decide (trusted_aliases config = [])
  then Ok Verified
  else Err (crypto_error "verified session identity is not trusted by this transport").

Definition expected_transcript (c : AuthChallenge) (r : AuthResponse) : AuthTranscript :=
  mkTranscript 1 (challenge_id c) (issuer_peer c) (issuer_replica c) (responder_peer r)
    (responder_replica r) (issuer_session c) (target_session c) (nonce c) (ar_nonce r)
    (ch_transport c) (public_key (responder_identity r)) (alias (responder_identity r))
    (claims (responder_identity r)) (tr_issued (transcript r)) (tr_expires (transcript r)).

Definition verify_auth_response (now now' : Z) (c : AuthChallenge) (r : AuthResponse)
    (config : SessionAuthConfig) : result VerifiedIdentity :=
  if challenge_is_expired now c then Err (crypto_error "session auth challenge has expired")
  else if negb (bool_decide (ar_challenge r = challenge_id c))
  then Err (crypto_error "session auth response challenge id mismatch")
  else if negb (bool_decide (responder_peer r = target_peer c)) || negb (bool_decide (responder_replica r = target_replica c))
  then Err (crypto_error "session auth response peer identity mismatch")
  else if negb (bool_decide (signer r = public_key (responder_identity r)))
  then Err (crypto_error "session auth response signer does not match advertised public key")
  else if negb (bool_decide (transcript r = expected_transcript c r))
  then Err (crypto_error "session auth response transcript mismatch")
  else if (tr_expires (transcript r) <? now')%Z
  then Err (crypto_error "session auth response has already expired")
  else match verify_transcript (signer r) (signature r) (transcript r) with
       | Err e => Err e
       | Ok _ =>
           match resolve_trust (responder_identity r) config with
           | Err e => Err e
           | Ok trust =>
               let i := responder_identity r in
               Ok (mkVerified (public_key i) (alias i) (responder_peer r) (responder_replica r)
                     (ch_transport c) (session_id i) (claims i) (tr_issued (transcript r))
                     (Some (tr_expires (transcript r))) trust)
           end
       end.

(** * What verification establishes *)

(** The rule of [resolve_trust]. *)
Definition trusted (i : PresenceIdentity) (config : SessionAuthConfig) (t : IdentityTrust) : Prop :=
  match t with
  | TrustedPublicKey => public_key i ∈ trusted_public_keys config
  | TrustedAlias =>
      public_key i ∉ trusted_public_keys config ∧ ∃ name, alias i = Some name ∧ name ∈ trusted_aliases config
  | Verified => trusted_public_keys config = [] ∧ trusted_aliases config = []
  end.

Lemma resolve_trust_spec i config t : resolve_trust i config = Ok t ↔ trusted i config t.
Proof.
  unfold resolve_trust, trusted. case_bool_decide as Hk.
  - split; [intros [= <-]; done|]. destruct t; [|done|].
    + intros [E _]. rewrite E in Hk. by apply not_elem_of_nil in Hk.
    + by intros [? _].
  - destruct (match alias i with Some _ => _ | None => _ end) eqn:Ha.
    + assert (∃ name, alias i = Some name ∧ name ∈ trusted_aliases config) as Hn.
      { destruct (alias i) as [name|]; [|done]. apply bool_decide_eq_true in Ha. eauto. }
      split; [intros [= <-]; done|]. destruct t; [|done|done].
      intros [_ E]. destruct Hn as (name & _ & Hn). rewrite E in Hn. by apply not_elem_of_nil in Hn.
    + assert (¬ ∃ name, alias i = Some name ∧ name ∈ trusted_aliases config) as Hn.
      { intros (name & E & Hin). rewrite E in Ha. by apply bool_decide_eq_false in Ha. }
      destruct (bool_decide (trusted_public_keys config = [])) eqn:E1; simpl; [destruct (bool_decide (trusted_aliases config = [])) eqn:E2; simpl|].
      * apply bool_decide_eq_true in E1, E2. split; [intros [= <-]; done|]. destruct t; [done| |]; [by intros ?|by intros [_ ?]].
      * apply bool_decide_eq_false in E2. split; [done|]. destruct t; [by intros [_ ?]|by intros ?|by intros [_ ?]].
      * apply bool_decide_eq_false in E1. split; [done|]. destruct t; [by intros [? _]|by intros ?|by intros [_ ?]].
Qed.


Context {Laws : SignatureLaws}.

(** An answer signed for a challenge verifies.  When the challenged peer signs in
time, with the session it announced, and the verifier's trust lists admit its key
or alias, the verifier records that key, alias and claims for that peer. *)
Lemma sign_then_verify t1 t2 t3 t4 token k name cl c config config' r trust :
  sign_auth_response t1 t2 token k name cl c (target_peer c) (target_replica c) (target_session c) config = Ok r →
  (t3 ≤ ch_expires c)%Z → (t4 ≤ sat_add u64_max t2 (Z.max (session_ttl_ms config) 1))%Z →
  trusted (responder_identity r) config' trust →
  verify_auth_response t3 t4 c r config' =
    Ok (mkVerified (public_key_base64 k) name (target_peer c) (target_replica c) (ch_transport c) (target_session c) cl t2
          (Some (sat_add u64_max t2 (Z.max (session_ttl_ms config) 1))) trust).
Proof.
  unfold sign_auth_response. destruct (challenge_is_expired t1 c); [done|]. cbv zeta. intros [= <-] H3 H4 Ht.
  unfold verify_auth_response, challenge_is_expired. cbn [ar_challenge responder_peer responder_replica signer responder_identity public_key transcript tr_expires tr_issued signature session_id alias claims] in *.
  rewrite (proj2 (Z.ltb_ge _ _) H3), !bool_decide_eq_true_2 by done. simpl.
  rewrite (proj2 (Z.ltb_ge _ _) H4), sign_verifies. apply resolve_trust_spec in Ht. by rewrite Ht.
Qed.

(** The session that is recorded is the one of the advertised identity, which the
transcript does not cover: it can be replaced on the way. *)
Definition with_session (r : AuthResponse) (session : string) : AuthResponse :=
  let i := responder_identity r in
  mkAuthResponse (ar_challenge r) (responder_peer r) (responder_replica r)
    (mkPresenceIdentity (public_key i) (alias i) (key_scheme i) session (claims i) (pi_issued i) (pi_expires i))
    (ar_nonce r) (transcript r) (signer r) (signature r).

Lemma recorded_session_unsigned now now' c r config v session :
  verify_auth_response now now' c r config = Ok v →
  ∃ v', verify_auth_response now now' c (with_session r session) config = Ok v' ∧ vi_session v' = session ∧
        vi_public_key v' = vi_public_key v.
Proof.
  unfold verify_auth_response. cbn [with_session ar_challenge responder_peer responder_replica signer responder_identity public_key transcript tr_expires tr_issued signature session_id alias claims].
  assert (expected_transcript c (with_session r session) = expected_transcript c r) as -> by done.
  assert (resolve_trust (mkPresenceIdentity (public_key (responder_identity r)) (alias (responder_identity r)) (key_scheme (responder_identity r)) session (claims (responder_identity r)) (pi_issued (responder_identity r)) (pi_expires (responder_identity r))) config = resolve_trust (responder_identity r) config) as -> by done.
  repeat (case_match; try done). intros [= <-]. eexists. split; [done|]. done.
Qed.
End auth.

(** * A concrete exchange *)

Module Handshake.
(** A scheme that signs by naming the key. *)
Definition toy : Signatures := {|
  Identity := string;
  public_key_base64 k := k;
  sign_transcript k t := k +:+ ":" +:+ tr_challenge t;
  verify_transcript key s t :=
    if bool_decide (s = key +:+ ":" +:+ tr_challenge t) then Ok tt else Err (Crypto "bad signature")
|}.

Lemma toy_laws : @SignatureLaws toy.
Proof. split. intros k t. simpl. by rewrite bool_decide_eq_true_2. Qed.
#[local] Existing Instance toy.
#[local] Existing Instance toy_laws.

Definition config : SessionAuthConfig := mkAuthConfig true [] ["alice"] 10000 300000 true.
Definition announced : PresenceIdentity := mkPresenceIdentity "key-a" (Some "alice") "ed25519" "s2" ∅ 0 None.
Definition challenge : AuthChallenge :=
  create_auth_challenge 1000 "x" "n1" "peer-b" "rb" "s1" "peer-a" "ra" announced "relay" config.

Definition answer (key : string) : result AuthResponse :=
  sign_auth_response 1500 1500 "n2" key (Some "alice") ∅ challenge "peer-a" "ra" "s2" config.

Lemma sign_then_verify_witness :
  match answer "key-a" with
  | Ok r => verify_auth_response 2000 2000 challenge r config =
              Ok (mkVerified "key-a" (Some "alice") "peer-a" "ra" "relay" "s2" ∅ 1500 (Some 301500%Z) TrustedAlias)
  | Err _ => False
  end.
Proof.
  exact (sign_then_verify 1500 1500 2000 2000 "n2" "key-a" (Some "alice") ∅ challenge config config _ TrustedAlias
    eq_refl ltac:(by vm_compute) ltac:(by vm_compute) ltac:(split; [by apply not_elem_of_nil|]; exists "alice"; split; [done|by left])).
Defined.

(** A trusted alias is only claimed: any key may answer under it. *)
Lemma alias_trust_is_claimed :
  match answer "mallory" with
  | Ok r => match verify_auth_response 2000 2000 challenge r config with
            | Ok v => vi_trust v = TrustedAlias
            | Err _ => False
            end
  | Err _ => False
  end.
Proof. by vm_compute. Qed.
End Handshake.
