(* ===== verification/Protocol.v ===== *)
(** Requests between peers and their chunked answers ([src/src/sync.rs], the chunking
of [src/src/db.rs] and the reassembly of [src/src/native_sync.rs]).

The vector and text searches a request can carry and their results are passed
through unread, and so are the options and the report of a transaction; their types
are those of [Wire]. *)
From stdpp Require Import base gmap sets list strings sorting.
From Stdlib Require Import ZArith Lia.
From S2P Require Import Prelude Clock Value Crdt Merge OpQueue RelIndex Paths Records Keys Engine Input Inner Read View Query Traversal InnerWf Tx Db.

Class Wire := {
  VectorRequest : Type;
  VectorSearchResult : Type;
  TextQuery : Type;
  TextSearchResult : Type;
  TransactionOptions : Type;
  TransactionReport : Type
}.

Record LexEntry := mkLexEntry { lex_path : string; lex_key : string; lex_value : json }.

Record LexSpec := mkLex {
  lex_prefix : option string;
  lex_start_at : option string;
  lex_start_after : option string;
  lex_end_at : option string;
  lex_end_before : option string;
  lex_reverse : bool;
  lex_limit : option nat;
  lex_depth : nat;
  lex_follow_links : bool
}.

Definition u32_width : Z := 2 ^ 32.

Section protocol.
Context `{Wire}.

(** * Messages *)

Inductive TextSearchSource :=
  | TSCollection (collection : string)
  | TSGraphQuery (path : RemotePath) (spec : QuerySpec)
  | TSRecords (scan : RecordScan).

Inductive PullRequestKind :=
  | PGet (path : RemotePath)
  | PMap (path : RemotePath)
  | PQuery (path : RemotePath) (spec : QuerySpec)
  | PLex (path : RemotePath) (spec : LexSpec)
  | PRecords (scan : RecordScan)
  | PVectorSearch (collection : string) (query : VectorRequest)
  | PTextSearch (source : TextSearchSource) (query : TextQuery)
  | PNode (id : NodeId)
  | PSnapshot (root : option string)
  | PTransaction (scope : string) (steps : list TransactionStep) (options : TransactionOptions).

Record PullRequest := mkPullRequest {
  request_id : string;
  pull_kind : PullRequestKind
}.

Record PullChunk := mkChunk { chunk_index : Z; chunk_total : Z }.

Inductive PullResponseBody :=
  | BGet (value : option json)
  | BMap (entries : list MapEntry)
  | BQuery (entries : list MapEntry)
  | BLex (entries : list LexEntry)
  | BRecords (entries : list RecordEntry) (cursor : option string)
  | BVectorSearch (result : VectorSearchResult)
  | BTextSearch (result : TextSearchResult)
  | BNode (node : option NodeState)
  | BSnapshot (clock : option HybridClock) (nodes : gmap string NodeState)
      (pending : list Operation) (policies : gmap string ScopePolicy)
  | BTransaction (report : TransactionReport)
  | BError (message : string).

Record PullResponse := mkResponse {
  response_id : string;
  response_chunk : PullChunk;
  response_done : bool;
  response_body : PullResponseBody
}.

Inductive WatchRequestKind :=
  | WSubscribe (request : PullRequestKind)
  | WCancel.

Record WatchRequest := mkWatchRequest { watch_id : string; watch_kind : WatchRequestKind }.

Record WatchEvent := mkWatchEvent {
  event_watch : string;
  event_sequence : Z;
  event_initial : bool;
  event_chunk : PullChunk;
  event_done : bool;
  event_body : PullResponseBody
}.

Inductive RemoteResult :=
  | RGet (value : option json)
  | RMap (entries : list MapEntry)
  | RQuery (entries : list MapEntry)
  | RLex (entries : list LexEntry)
  | RRecords (result : RecordScanResult)
  | RVectorSearch (result : VectorSearchResult)
  | RTextSearch (result : TextSearchResult)
  | RNode (node : option NodeState)
  | RSnapshot (snapshot : DatabaseSnapshot)
  | RTransaction (report : TransactionReport).

Definition interest_path (k : PullRequestKind) : option string :=
  match k with
  | PGet p | PMap p | PQuery p _ | PLex p _ => Some (path p)
  | PRecords _ => None
  | PVectorSearch collection _ => Some ("__primadb_vectors/" +:+ collection)
  | PTextSearch source _ =>
      Some match source with
           | TSCollection collection => "__primadb_text/" +:+ collection
           | TSGraphQuery p _ => path p
           | TSRecords scan => default "__primadb_records" (prefix scan)
           end
  | PNode id => Some id
  | PSnapshot root => root
  | PTransaction scope _ _ => Some scope
  end.

(** * Chunks *)

(** [Vec::chunks], which [par_chunks] computes in parallel. *)
Fixpoint chunks_of {A} (fuel n : nat) (l : list A) : list (list A) :=
  match fuel, l with
  | _, [] | O, _ => []
  | S fuel, _ => take n l :: chunks_of fuel n (drop n l)
  end.

Definition chunk_vec {A} (l : list A) (size : nat) : list (list A) :=
  match l with [] => [] | _ => chunks_of (length l) (max size 1) l end.

(** [chunk_btree_map_serial]: one map is filled entry by entry and handed over
whenever the count of entries is a multiple of the size. *)
Fixpoint fill_chunks {V} (size index : nat) (current : gmap string V) (l : list (string * V))
    : list (gmap string V) :=
  match l with
  | [] => if decide (current = ∅) then [] else [current]
  | (k, v) :: rest =>
      let current := <[k := v]> current in
      if (S index) mod size =? 0 then current :: fill_chunks size (S index) ∅ rest
      else fill_chunks size (S index) current rest
  end.

Definition PARALLEL_CHUNK_MIN_LEN : nat := 512.

Definition chunk_btree_map {V} (m : gmap string V) (size : nat) : list (gmap string V) :=
  if decide (m = ∅) then []
  else if PARALLEL_CHUNK_MIN_LEN <=? length (btree_list m) then
    list_to_map <$> chunks_of (length (btree_list m)) (max size 1) (btree_list m)
  else fill_chunks (max size 1) 0 ∅ (btree_list m).

(** [index as u32]. *)
Definition as_u32 (n : nat) : Z := (Z.of_nat n mod u32_width)%Z.

Definition single (request : string) (body : PullResponseBody) : list PullResponse :=
  [mkResponse request (mkChunk 0 1) true body].

Definition number_chunks {A} (request : string) (total : nat) (body : nat → A → PullResponseBody)
    (chunks : list A) : list PullResponse :=
  imap (λ index chunk,
    mkResponse request (mkChunk (as_u32 index) (as_u32 total)) (S index =? total) (body index chunk)) chunks.

Definition build_map_chunk_responses (request : string) (entries : list MapEntry) (size : nat)
    : list PullResponse :=
  match chunk_vec entries size with
  | [] => single request (BMap [])
  | chunks => number_chunks request (length chunks) (λ _, BMap) chunks
  end.

Definition build_query_chunk_responses (request : string) (entries : list MapEntry) (size : nat)
    : list PullResponse :=
  match chunk_vec entries size with
  | [] => single request (BQuery [])
  | chunks => number_chunks request (length chunks) (λ _, BQuery) chunks
  end.

Definition build_lex_chunk_responses (request : string) (entries : list LexEntry) (size : nat)
    : list PullResponse :=
  match chunk_vec entries size with
  | [] => single request (BLex [])
  | chunks => number_chunks request (length chunks) (λ _, BLex) chunks
  end.

Definition build_record_chunk_responses (request : string) (r : RecordScanResult) (size : nat)
    : list PullResponse :=
  match chunk_vec (scan_entries r) size with
  | [] => single request (BRecords [] (next_cursor r))
  | chunks =>
      number_chunks request (length chunks)
        (λ index entries, BRecords entries (if S index =? length chunks then next_cursor r else None)) chunks
  end.

Record ChunkLimits := mkChunkLimits {
  max_query_entries_per_chunk : nat;
  max_snapshot_nodes_per_chunk : nat;
  max_snapshot_ops_per_chunk : nat
}.

Definition build_snapshot_responses (request : string) (s : DatabaseSnapshot) (limits : ChunkLimits)
    : list PullResponse :=
  let node_chunks := chunk_btree_map (snap_nodes s) (max (max_snapshot_nodes_per_chunk limits) 1) in
  let op_chunks := chunk_vec (snap_pending_ops s) (max (max_snapshot_ops_per_chunk limits) 1) in
  let total := max (max (length node_chunks) (length op_chunks)) 1 in
  number_chunks request total
    (λ index _, BSnapshot (if index =? 0 then Some (snap_clock s) else None)
       (default ∅ (node_chunks !! index)) (default [] (op_chunks !! index))
       (if index =? 0 then snap_scope_policies s else ∅))
    (seq 0 total).

Definition build_pull_responses (request : string) (result : RemoteResult) (limits : ChunkLimits)
    : list PullResponse :=
  let size := max (max_query_entries_per_chunk limits) 1 in
  match result with
  | RGet v => single request (BGet v)
  | RMap entries => build_map_chunk_responses request entries size
  | RQuery entries => build_query_chunk_responses request entries size
  | RLex entries => build_lex_chunk_responses request entries size
  | RRecords r => build_record_chunk_responses request r size
  | RVectorSearch r => single request (BVectorSearch r)
  | RTextSearch r => single request (BTextSearch r)
  | RNode n => single request (BNode n)
  | RSnapshot s => build_snapshot_responses request s limits
  | RTransaction r => single request (BTransaction r)
  end.

(** [Primadb::chunk_watch_result]. *)
Definition chunk_watch_result (watch : string) (sequence : Z) (initial : bool) (result : RemoteResult)
    (limits : ChunkLimits) : list WatchEvent :=
  (λ r, mkWatchEvent watch sequence initial (response_chunk r) (response_done r) (response_body r)) <$>
    build_pull_responses watch result limits.

Definition error_pull_response (request message : string) : PullResponse :=
  mkResponse request (mkChunk 0 1) true (BError message).

Definition error_watch_event (watch : string) (sequence : Z) (initial : bool) (message : string)
    : WatchEvent :=
  mkWatchEvent watch sequence initial (mkChunk 0 1) true (BError message).

(** * Reassembly *)

Inductive PullAccumulator :=
  | AGet (value : option json)
  | AMap (entries : list MapEntry)
  | AQuery (entries : list MapEntry)
  | ALex (entries : list LexEntry)
  | ARecords (entries : list RecordEntry) (cursor : option string)
  | AVectorSearch (result : option VectorSearchResult)
  | ATextSearch (result : option TextSearchResult)
  | ANode (node : option NodeState)
  | ASnapshot (clock : option HybridClock) (nodes : gmap string NodeState)
      (pending : list Operation) (policies : gmap string ScopePolicy)
  | ATransaction (report : option TransactionReport).

Definition accumulator_new (k : PullRequestKind) : PullAccumulator :=
  match k with
  | PGet _ => AGet None
  | PMap _ => AMap []
  | PQuery _ _ => AQuery []
  | PLex _ _ => ALex []
  | PRecords _ => ARecords [] None
  | PVectorSearch _ _ => AVectorSearch None
  | PTextSearch _ _ => ATextSearch None
  | PNode _ => ANode None
  | PSnapshot _ => ASnapshot None ∅ [] ∅
  | PTransaction _ _ _ => ATransaction None
  end.

(** The accumulator after a body, and the message of an error body. *)
Definition apply_response_body (acc : PullAccumulator) (body : PullResponseBody)
    : PullAccumulator * option string :=
  match body with
  | BGet v => (AGet v, None)
  | BMap entries => (match acc with AMap current => AMap (current ++ entries) | _ => acc end, None)
  | BQuery entries => (match acc with AQuery current => AQuery (current ++ entries) | _ => acc end, None)
  | BLex entries => (match acc with ALex current => ALex (current ++ entries) | _ => acc end, None)
  | BRecords entries cursor =>
      (match acc with
       | ARecords current old => ARecords (current ++ entries) (match cursor with Some _ => cursor | None => old end)
       | _ => acc
       end, None)
  | BVectorSearch r => (AVectorSearch (Some r), None)
  | BTextSearch r => (ATextSearch (Some r), None)
  | BNode n => (ANode n, None)
  | BSnapshot clock nodes pending policies =>
      (match acc with
       | ASnapshot c n p s =>
           ASnapshot (match c with None => clock | Some _ => c end) (nodes ∪ n) (p ++ pending) (policies ∪ s)
       | _ => acc
       end, None)
  | BTransaction r => (ATransaction (Some r), None)
  | BError message => (acc, Some message)
  end.

Definition into_result (acc : PullAccumulator) : result RemoteResult :=
  match acc with
  | AGet v => Ok (RGet v)
  | AMap entries => Ok (RMap entries)
  | AQuery entries => Ok (RQuery entries)
  | ALex entries => Ok (RLex entries)
  | ARecords entries cursor => Ok (RRecords (mkScanResult entries cursor))
  | AVectorSearch (Some r) => Ok (RVectorSearch r)
  | AVectorSearch None => Err (Message "vector search response completed without a result")
  | ATextSearch (Some r) => Ok (RTextSearch r)
  | ATextSearch None => Err (Message "text search response completed without a result")
  | ANode n => Ok (RNode n)
  | ASnapshot (Some clock) nodes pending policies => Ok (RSnapshot (mkSnapshot clock nodes pending policies))
  | ASnapshot None _ _ _ => Err (Message "snapshot response completed without a clock")
  | ATransaction (Some r) => Ok (RTransaction r)
  | ATransaction None => Err (Message "transaction response completed without a report")
  end.

Definition is_final (r : PullResponse) : bool :=
  response_done r || (chunk_total (response_chunk r) <=? sat_add (u32_width - 1) (chunk_index (response_chunk r)) 1)%Z.

(** The pending requests, and what their senders were given: a result or an error
message, once each. *)
Record Requests := mkRequests {
  pending_requests : gmap string PullAccumulator;
  answered : list (string * (RemoteResult + string))
}.

(** [accept_pull_response]. *)
Definition accept_pull_response (s : Requests) (r : PullResponse) : Requests * result unit :=
  let id := response_id r in
  match pending_requests s !! id with
  | None => (s, Ok tt)
  | Some acc =>
      let '(acc, failure) := apply_response_body acc (response_body r) in
      match failure with
      | Some message =>
          (mkRequests (delete id (pending_requests s)) (answered s ++ [(id, inr message)]), Ok tt)
      | None =>
          if is_final r then
            match into_result acc with
            | Ok v => (mkRequests (delete id (pending_requests s)) (answered s ++ [(id, inl v)]), Ok tt)
            | Err e => (mkRequests (delete id (pending_requests s)) (answered s), Err e)
            end
          else (mkRequests (<[id := acc]> (pending_requests s)) (answered s), Ok tt)
      end
  end.

Definition accept_responses (s : Requests) (rs : list PullResponse) : Requests :=
  foldl (λ s r, (accept_pull_response s r).1) s rs.

(** * Chunking keeps everything, in order *)

Lemma chunks_of_concat {A} fuel n (l : list A) : 0 < n → length l ≤ fuel → concat (chunks_of fuel n l) = l.
Proof.
  intros Hn. revert l. induction fuel as [|fuel IH]; intros [|x l] Hl; simpl in Hl; [done|lia|done|].
  cbn [chunks_of concat]. rewrite IH; [apply take_drop|]. rewrite length_drop. simpl. lia.
Qed.

Lemma chunks_of_fuel {A} fuel fuel' n (l : list A) :
  0 < n → length l ≤ fuel → length l ≤ fuel' → chunks_of fuel n l = chunks_of fuel' n l.
Proof.
  intros Hn. revert fuel' l. induction fuel as [|fuel IH]; intros [|fuel'] [|x l] H1 H2; simpl in *; try done; try lia.
  f_equal. apply IH; rewrite length_drop; simpl; lia.
Qed.

Lemma chunk_vec_concat {A} (l : list A) size : concat (chunk_vec l size) = l.
Proof. unfold chunk_vec. destruct l as [|x l]; [done|]. apply chunks_of_concat; [lia|done]. Qed.

Lemma chunk_vec_nil {A} (l : list A) size : chunk_vec l size = [] → l = [].
Proof. intros Hc. rewrite <-(chunk_vec_concat l size), Hc. done. Qed.

Lemma mod_succ index size : 0 < size →
  S index mod size = if S (index mod size) =? size then 0 else S (index mod size).
Proof.
  intros Hs. pose proof (Nat.div_mod_eq index size). assert (index mod size < size) by (apply Nat.mod_upper_bound; lia).
  destruct (S (index mod size) =? size) eqn:E; [apply Nat.eqb_eq in E|apply Nat.eqb_neq in E]; symmetry.
  - apply (Nat.mod_unique _ _ (S (index / size))); lia.
  - apply (Nat.mod_unique _ _ (index / size)); lia.
Qed.

(** The serial loop gives the chunks of the list of entries, as the parallel one
does. *)
Lemma fill_chunks_spec {V} size (pre l : list (string * V)) index :
  0 < size → NoDup (pre ++ l).*1 → length pre = index mod size →
  fill_chunks size index (list_to_map pre) l = list_to_map <$> chunks_of (length (pre ++ l)) size (pre ++ l).
Proof.
  intros Hs. revert pre index. induction l as [|[k v] l IH]; intros pre index Hnd Hlen.
  - rewrite app_nil_r. cbn [fill_chunks]. destruct pre as [|x pre]; [by rewrite decide_True|].
    assert (length (x :: pre) < size) by (rewrite Hlen; apply Nat.mod_upper_bound; lia).
    rewrite decide_False.
    + cbn [length chunks_of]. rewrite drop_ge by (simpl in *; lia). rewrite take_ge by (simpl in *; lia).
      by destruct (length pre).
    + intros E. apply (f_equal (lookup x.1)) in E. destruct x as [k v]. simpl in E. by rewrite lookup_insert_eq, lookup_empty in E.
  - cbn [fill_chunks]. assert (length pre < size) as Hlt by (rewrite Hlen; apply Nat.mod_upper_bound; lia).
    assert (<[k := v]> (list_to_map pre) =@{gmap string V} list_to_map (pre ++ [(k, v)])) as ->.
    { rewrite list_to_map_snoc; [done|]. rewrite fmap_app, NoDup_app in Hnd. destruct Hnd as (_ & Hd & _).
      intros Hin. apply (Hd k Hin). by left. }
    assert (pre ++ (k, v) :: l = (pre ++ [(k, v)]) ++ l) as Ea by (by rewrite <-app_assoc).
    destruct (S index mod size =? 0) eqn:E.
    + apply Nat.eqb_eq in E. assert (length (pre ++ [(k, v)]) = size) as Hfull.
      { rewrite length_app, Hlen. simpl. rewrite mod_succ in E by done.
        destruct (_ =? size) eqn:E'; [apply Nat.eqb_eq in E'; lia|done]. }
      change ∅ with (list_to_map (M := gmap string V) (@nil (string * V))).
      rewrite (IH []); [|by rewrite Ea, fmap_app, NoDup_app in Hnd; naive_solver|by rewrite E].
      rewrite Ea. remember (pre ++ [(k, v)]) as b eqn:Eb. destruct b as [|y b]; [simpl in Hfull; lia|].
      change (length ((y :: b) ++ l)) with (S (length (b ++ l))).
      change (chunks_of (S (length (b ++ l))) size ((y :: b) ++ l)) with
        (take size ((y :: b) ++ l) :: chunks_of (length (b ++ l)) size (drop size ((y :: b) ++ l))).
      rewrite fmap_cons. f_equal.
      * by rewrite (take_app_length' (y :: b) l size).
      * rewrite (drop_app_length' (y :: b) l size) by done. simpl. f_equal. apply chunks_of_fuel; [done|done|]. rewrite length_app. lia.
    + apply Nat.eqb_neq in E. rewrite Ea in Hnd |- *. apply IH; [done|]. rewrite length_app, Hlen. simpl.
      rewrite mod_succ in E |- * by done. destruct (_ =? size); [done|lia].
Qed.

Lemma chunk_btree_map_spec {V} (m : gmap string V) size :
  chunk_btree_map m size = list_to_map <$> chunk_vec (btree_list m) size.
Proof.
  unfold chunk_btree_map, chunk_vec. destruct (decide (m = ∅)) as [->|Hm]; [done|].
  assert (btree_list m ≠ []) as Hne.
  { intros E. apply Hm. rewrite <-(btree_list_to_map m), E. done. }
  assert (fill_chunks (max size 1) 0 ∅ (btree_list m) =
    list_to_map <$> chunks_of (length (btree_list m)) (max size 1) (btree_list m)) as ->.
  { apply (fill_chunks_spec (max size 1) [] (btree_list m) 0); [lia|apply btree_keys_NoDup|].
    by rewrite Nat.Div0.mod_0_l. }
  destruct (btree_list m); [done|]. by destruct (_ <=? _).
Qed.

(** * Reassembly gives the result back *)

(** What the answers of one request make of its state. *)
Definition request_view (id : string) (s : Requests) : option PullAccumulator * list (string * (RemoteResult + string)) :=
  (pending_requests s !! id, filter (λ a, a.1 = id) (answered s)).

Lemma accept_other id s r : response_id r ≠ id → request_view id (accept_pull_response s r).1 = request_view id s.
Proof.
  intros Hne. unfold request_view, accept_pull_response.
  destruct (pending_requests s !! response_id r) as [acc|]; [|done].
  destruct (apply_response_body acc (response_body r)) as [acc' [m|]].
  - simpl. by rewrite lookup_delete_ne, filter_app, filter_cons_False, filter_nil, app_nil_r by done.
  - destruct (is_final r); [destruct (into_result acc')|]; simpl.
    + by rewrite lookup_delete_ne, filter_app, filter_cons_False, filter_nil, app_nil_r by done.
    + by rewrite lookup_delete_ne.
    + by rewrite lookup_insert_ne.
Qed.

Lemma accept_same id s s' r : response_id r = id → request_view id s = request_view id s' →
  request_view id (accept_pull_response s r).1 = request_view id (accept_pull_response s' r).1.
Proof.
  unfold request_view. intros <- [= Hp Ha]. unfold accept_pull_response. rewrite <-Hp.
  destruct (pending_requests s !! response_id r) as [acc|] eqn:E; [|simpl; by rewrite E, <-Hp, Ha].
  destruct (apply_response_body acc (response_body r)) as [acc' [m|]]; simpl.
  - by rewrite !lookup_delete_eq, !filter_app, Ha.
  - destruct (is_final r); [destruct (into_result acc')|]; simpl;
      rewrite ?lookup_delete_eq, ?lookup_insert_eq, ?filter_app; by rewrite Ha.
Qed.

(** The answers of other requests may arrive in between. *)
Lemma accept_interleaved id rs s s' : request_view id s = request_view id s' →
  request_view id (accept_responses s rs) =
  request_view id (accept_responses s' (filter (λ r, response_id r = id) rs)).
Proof.
  revert s s'. induction rs as [|r rs IH]; intros s s' Hv; [done|]. cbn [accept_responses foldl]. rewrite filter_cons.
  destruct (decide (response_id r = id)) as [E|E].
  - cbn [accept_responses foldl]. apply IH. by apply accept_same.
  - apply IH. by rewrite accept_other.
Qed.

Definition absorb (acc : PullAccumulator) (bodies : list PullResponseBody) : PullAccumulator :=
  foldl (λ acc body, (apply_response_body acc body).1) acc bodies.

Definition no_error (body : PullResponseBody) : Prop := match body with BError _ => False | _ => True end.

Lemma no_error_body acc body : no_error body → (apply_response_body acc body).2 = None.
Proof. by destruct body. Qed.

(** Numbered chunks are final exactly at the last one. *)
Lemma accept_numbered {A} id total (body : nat → A → PullResponseBody) (cs : list A) from s acc v :
  pending_requests s !! id = Some acc → cs ≠ [] → from + length cs = total → (Z.of_nat total < u32_width)%Z →
  (∀ i c, no_error (body i c)) →
  into_result (absorb acc (imap (λ i, body (from + i)) cs)) = Ok v →
  accept_responses s (imap (λ i c, mkResponse id (mkChunk (as_u32 (from + i)) (as_u32 total)) (S (from + i) =? total)
    (body (from + i) c)) cs) =
  mkRequests (delete id (pending_requests s)) (answered s ++ [(id, inl v)]).
Proof.
  intros Hp Hne Ht Hw Hb. revert from s acc Hp Hne Ht. induction cs as [|c cs IH]; intros from s acc Hp Hne Ht Hv; [done|].
  cbn [imap accept_responses foldl]. rewrite Nat.add_0_r. unfold accept_pull_response at 2. cbn [response_id response_body].
  rewrite Hp. cbn [imap] in Hv. rewrite Nat.add_0_r in Hv. unfold absorb in Hv. cbn [foldl] in Hv.
  pose proof (no_error_body acc (body from c) (Hb from c)) as Hn.
  destruct (apply_response_body acc (body from c)) as [acc' o]. simpl in Hn, Hv. subst o.
  assert (is_final (mkResponse id (mkChunk (as_u32 from) (as_u32 total)) (S from =? total) (body from c)) =
    bool_decide (cs = [])) as ->.
  { unfold is_final, as_u32, sat_add. cbn [response_done response_chunk chunk_index chunk_total].
    rewrite !Z.mod_small by (simpl in Ht; lia). simpl in Ht. destruct cs as [|c' cs].
    - rewrite bool_decide_eq_true_2 by done. simpl in Ht. by rewrite (proj2 (Nat.eqb_eq (S from) total)) by lia.
    - rewrite bool_decide_eq_false_2 by done. simpl in Ht. rewrite (proj2 (Nat.eqb_neq (S from) total)) by lia.
      apply Z.leb_gt. unfold u32_width in *. lia. }
  destruct cs as [|c' cs].
  - rewrite bool_decide_eq_true_2 by done. simpl in Hv |- *. by rewrite Hv.
  - rewrite bool_decide_eq_false_2 by done.
    set (s1 := mkRequests (<[id := acc']> (pending_requests s)) (answered s)).
    assert (∀ {X} (f : nat → A → X), imap (f ∘ S) (c' :: cs) = imap (λ i, f (S i)) (c' :: cs)) as Himap by done.
    rewrite Himap in Hv |- *.
    assert (∀ i, from + S i = S from + i) as Hadd by (intros; lia).
    rewrite (imap_ext _ (λ i c, mkResponse id (mkChunk (as_u32 (S from + i)) (as_u32 total)) (S (S from + i) =? total) (body (S from + i) c)))
      by (intros i x _; by rewrite Hadd).
    rewrite (imap_ext _ (λ i, body (S from + i))) in Hv by (intros i x _; by rewrite Hadd).
    etrans; [exact (IH (S from) s1 acc' (lookup_insert_eq _ _ _) ltac:(done) ltac:(simpl in *; lia) Hv)|].
    unfold s1. simpl. by rewrite delete_insert_eq.
Qed.

Lemma absorb_cons acc b bs : absorb acc (b :: bs) = absorb (apply_response_body acc b).1 bs.
Proof. done. Qed.

Lemma absorb_lists {A} (acc : list A → PullAccumulator) (body : list A → PullResponseBody) :
  (∀ cur entries, (apply_response_body (acc cur) (body entries)).1 = acc (cur ++ entries)) →
  ∀ cs cur, absorb (acc cur) (imap (λ _, body) cs) = acc (cur ++ concat cs).
Proof.
  intros Hb. induction cs as [|c cs IH]; intros cur; [by rewrite app_nil_r|].
  change (imap (λ _, body) (c :: cs)) with (body c :: imap (λ _, body) cs). by rewrite absorb_cons, Hb, IH, <-app_assoc.
Qed.

Lemma absorb_records total cursor cs from cur old :
  cs ≠ [] → from + length cs = total →
  absorb (ARecords cur old) (imap (λ i e, BRecords e (if S (from + i) =? total then cursor else None)) cs) =
  ARecords (cur ++ concat cs) (match cursor with Some _ => cursor | None => old end).
Proof.
  revert from cur. induction cs as [|c cs IH]; intros from cur Hne Ht; [done|]. cbn [imap]. rewrite absorb_cons, Nat.add_0_r.
  cbn [apply_response_body fst]. simpl in Ht. destruct cs as [|c' cs].
  - rewrite (proj2 (Nat.eqb_eq (S from) total)) by (simpl in Ht; lia). simpl. by rewrite app_nil_r.
  - rewrite (proj2 (Nat.eqb_neq (S from) total)) by (simpl in Ht; lia).
    rewrite (imap_ext _ (λ i e, BRecords e (if S (S from + i) =? total then cursor else None)))
      by (intros i x _; simpl; by rewrite Nat.add_succ_r).
    rewrite IH by (simpl in *; lia || done). by rewrite <-app_assoc.
Qed.

Definition snapshot_body (s : DatabaseSnapshot) (nc : list (gmap string NodeState)) (oc : list (list Operation))
    (index : nat) : PullResponseBody :=
  BSnapshot (if index =? 0 then Some (snap_clock s) else None) (default ∅ (nc !! index)) (default [] (oc !! index))
    (if index =? 0 then snap_scope_policies s else ∅).

Definition join_nodes (acc : gmap string NodeState) (cs : list (gmap string NodeState)) : gmap string NodeState :=
  foldl (λ n c, c ∪ n) acc cs.

Lemma drop_default {A} (d : A) (l : list A) i :
  drop i l = (if decide (i < length l) then [default d (l !! i)] else []) ++ drop (S i) l.
Proof.
  case_decide as Hi; [|by rewrite !drop_ge by lia]. destruct (lookup_lt_is_Some_2 l i Hi) as [x Hx].
  rewrite Hx. simpl. by apply drop_S.
Qed.

Lemma absorb_snapshot_rest s nc oc count from clk n p pol :
  0 < from → length nc ≤ from + count → length oc ≤ from + count →
  absorb (ASnapshot (Some clk) n p pol) (imap (λ i _, snapshot_body s nc oc (from + i)) (seq 0 count)) =
  ASnapshot (Some clk) (join_nodes n (drop from nc)) (p ++ concat (drop from oc)) pol.
Proof.
  intros Hf. revert from n p Hf.
  assert (∀ count (l : list nat) from n p, length l = count → 0 < from → length nc ≤ from + count → length oc ≤ from + count →
    absorb (ASnapshot (Some clk) n p pol) (imap (λ i _, snapshot_body s nc oc (from + i)) l) =
    ASnapshot (Some clk) (join_nodes n (drop from nc)) (p ++ concat (drop from oc)) pol) as Hl; [|].
  2: { intros from n p Hf H1 H2. apply (Hl count); [by rewrite length_seq|done..]. }
  clear count. induction count as [|count IH]; intros [|x l] from n p Hlen Hf Hn Ho; simpl in Hlen; try lia.
  - rewrite !drop_ge by lia. by rewrite app_nil_r.
  - cbn [imap]. rewrite absorb_cons, Nat.add_0_r. unfold snapshot_body at 1. rewrite (proj2 (Nat.eqb_neq from 0)) by lia.
    cbn [apply_response_body fst]. rewrite (imap_ext _ (λ i _, snapshot_body s nc oc (S from + i)))
      by (intros i y _; simpl; by rewrite Nat.add_succ_r).
    rewrite (left_id_L ∅ (∪) pol). rewrite (IH l) by lia.
    rewrite (drop_default ∅ nc from), (drop_default [] oc from). unfold join_nodes. f_equal.
    + case_decide; [done|]. rewrite (lookup_ge_None_2 nc from) by lia. simpl. by rewrite left_id_L by apply _.
    + rewrite <-app_assoc. case_decide; simpl; [done|]. by rewrite (lookup_ge_None_2 oc from) by lia.
Qed.

Lemma join_nodes_chunks (cs : list (list (string * NodeState))) (acc : list (string * NodeState)) :
  NoDup (acc ++ concat cs).*1 →
  join_nodes (list_to_map acc) (list_to_map <$> cs) = list_to_map (acc ++ concat cs).
Proof.
  revert acc. induction cs as [|c cs IH]; intros acc Hnd; [by rewrite app_nil_r|]. cbn [concat fmap list_fmap join_nodes foldl] in *.
  rewrite app_assoc in Hnd |- *. rewrite <-IH by done. unfold join_nodes. f_equal. rewrite list_to_map_app.
  apply map_union_comm. rewrite fmap_app in Hnd. apply NoDup_app in Hnd as [Hnd _]. rewrite fmap_app, NoDup_app in Hnd.
  destruct Hnd as (_ & Hd & _). apply map_disjoint_spec. intros k v w Hv%elem_of_list_to_map_2 Hw%elem_of_list_to_map_2.
  apply (Hd k); apply list_elem_of_fmap; [by exists (k, w)|by exists (k, v)].
Qed.

(** A result answers the kind of request it was asked for. *)
Definition answers (k : PullRequestKind) (r : RemoteResult) : bool :=
  match k, r with
  | PGet _, RGet _ | PMap _, RMap _ | PQuery _ _, RQuery _ | PLex _ _, RLex _ | PRecords _, RRecords _
  | PVectorSearch _ _, RVectorSearch _ | PTextSearch _ _, RTextSearch _ | PNode _, RNode _
  | PSnapshot _, RSnapshot _ | PTransaction _ _ _, RTransaction _ => true
  | _, _ => false
  end.

(** The state once a request was answered with [v]. *)
Abbreviation answered_with id s v :=
  (mkRequests (delete id (pending_requests s)) (answered s ++ [(id, inl v)])).

Lemma accept_chunks {A} id (body : nat → A → PullResponseBody) (cs : list A) s acc v :
  pending_requests s !! id = Some acc → cs ≠ [] → (Z.of_nat (length cs) < u32_width)%Z → (∀ i c, no_error (body i c)) →
  into_result (absorb acc (imap body cs)) = Ok v →
  accept_responses s (number_chunks id (length cs) body cs) = answered_with id s v.
Proof. intros Hp Hne Hw Hb Hv. by apply (accept_numbered id (length cs) body cs 0 s acc v). Qed.

Lemma accept_single id body s acc v :
  pending_requests s !! id = Some acc → no_error body → into_result (absorb acc [body]) = Ok v →
  accept_responses s (single id body) = answered_with id s v.
Proof. intros Hp Hb Hv. by apply (accept_chunks id (λ _ _, body) [tt] s acc v). Qed.

(** A list in chunks, whatever the bodies are called. *)
Lemma accept_list {A} id (acc : list A → PullAccumulator) (body : list A → PullResponseBody) s entries size v :
  pending_requests s !! id = Some (acc []) → (∀ c, no_error (body c)) →
  (∀ cur entries, (apply_response_body (acc cur) (body entries)).1 = acc (cur ++ entries)) →
  into_result (acc entries) = Ok v →
  let rs := match chunk_vec entries size with
            | [] => single id (body [])
            | chunks => number_chunks id (length chunks) (λ _, body) chunks
            end in
  (Z.of_nat (length rs) < u32_width)%Z → accept_responses s rs = answered_with id s v.
Proof.
  intros Hp Hn Hb Hv. cbv zeta. destruct (chunk_vec entries size) as [|c cs] eqn:E; intros Hw.
  - apply chunk_vec_nil in E. subst. eapply accept_single; [done..|]. unfold absorb. simpl. by rewrite Hb.
  - unfold number_chunks in Hw. rewrite length_imap in Hw.
    apply (accept_chunks id (λ _, body) (c :: cs) s (acc [])); [done..|]. rewrite (absorb_lists acc body Hb).
    by rewrite <-E, chunk_vec_concat.
Qed.

Lemma accept_snapshot id snap limits s :
  pending_requests s !! id = Some (ASnapshot None ∅ [] ∅) →
  (Z.of_nat (length (build_snapshot_responses id snap limits)) < u32_width)%Z →
  accept_responses s (build_snapshot_responses id snap limits) = answered_with id s (RSnapshot snap).
Proof.
  intros Hp Hw. unfold build_snapshot_responses in *. cbv zeta in *.
  set (nc := chunk_btree_map _ _) in *. set (oc := chunk_vec _ _) in *. set (total := max (max _ _) 1) in *.
  unfold number_chunks in Hw. rewrite length_imap, length_seq in Hw.
  assert (total = length (seq 0 total)) as Hlen by (by rewrite length_seq).
  assert (seq 0 total = 0 :: seq 1 (pred total)) as Hseq by (destruct total eqn:E; [lia|done]).
  rewrite Hlen at 1. apply (accept_chunks id (λ index _, snapshot_body snap nc oc index) (seq 0 total) s (ASnapshot None ∅ [] ∅));
    [done|by rewrite Hseq|by rewrite <-Hlen|done|].
  rewrite Hseq. cbn [imap]. rewrite absorb_cons. unfold snapshot_body at 1. cbn [Nat.eqb apply_response_body fst].
  rewrite !(right_id_L ∅ (∪)). rewrite app_nil_l.
  assert (∀ (f : nat → PullResponseBody) (l : list nat), imap (λ i _, f i) l = f <$> seq 0 (length l)) as Hconst.
  { clear. intros f l. revert f. induction l as [|x l IH]; intros f; [done|]. cbn [imap length seq]. rewrite fmap_cons. f_equal.
    rewrite <-seq_shift, <-list_fmap_compose. apply (IH (f ∘ S)). }
  assert (imap ((λ index _, snapshot_body snap nc oc index) ∘ S) (seq 1 (pred total)) =
          imap (λ i _, snapshot_body snap nc oc (1 + i)) (seq 0 (pred total))) as ->.
  { etrans; [apply (Hconst (λ i, snapshot_body snap nc oc (S i)))|]. symmetry.
    etrans; [apply (Hconst (λ i, snapshot_body snap nc oc (S i)))|]. by rewrite !length_seq. }
  rewrite absorb_snapshot_rest by lia. cbn [into_result].
  assert (join_nodes (default ∅ (nc !! 0)) (drop 1 nc) = snap_nodes snap) as ->.
  { unfold nc. rewrite chunk_btree_map_spec.
    assert (∀ cs : list (list (string * NodeState)), NoDup (concat cs).*1 →
      join_nodes (default ∅ ((list_to_map <$> cs) !! 0)) (drop 1 (list_to_map <$> cs)) = list_to_map (concat cs)) as Hj.
    { intros [|c cs] Hnd; [done|]. simpl. rewrite drop_0. by apply join_nodes_chunks. }
    rewrite Hj; rewrite chunk_vec_concat; [apply btree_list_to_map|apply btree_keys_NoDup]. }
  assert (default [] (oc !! 0) ++ concat (drop 1 oc) = snap_pending_ops snap) as ->.
  { rewrite <-(chunk_vec_concat (snap_pending_ops snap) (max (max_snapshot_ops_per_chunk limits) 1)). fold oc.
    destruct oc; [done|]. simpl. by rewrite drop_0. }
  by destruct snap.
Qed.

(** C34: a result that is cut into numbered chunks is put together again.  Whatever
the limits, and whatever answers to other requests arrive in between, a pending
request whose chunks arrive in order is answered exactly once, at its last chunk,
with the result that was sent. *)
Theorem chunk_roundtrip limits k result id s rs :
  answers k result = true → pending_requests s !! id = Some (accumulator_new k) →
  (Z.of_nat (length (build_pull_responses id result limits)) < u32_width)%Z →
  filter (λ r, response_id r = id) rs = build_pull_responses id result limits →
  let s' := accept_responses s rs in
  pending_requests s' !! id = None ∧
  filter (λ a, a.1 = id) (answered s') = filter (λ a, a.1 = id) (answered s) ++ [(id, inl result)].
Proof.
  intros Hk Hp Hw Hrs. pose proof (accept_interleaved id rs s s eq_refl) as Hv. rewrite Hrs in Hv.
  assert (accept_responses s (build_pull_responses id result limits) = answered_with id s result) as Ha.
  { clear Hv Hrs. destruct k, result; simpl in Hk; try done; simpl in Hp;
      try (by eapply accept_single; [exact Hp|done|done]).
    - by apply (accept_list id AMap BMap).
    - by apply (accept_list id AQuery BQuery).
    - by apply (accept_list id ALex BLex).
    - cbn [build_pull_responses] in *. unfold build_record_chunk_responses in *.
      destruct (chunk_vec (scan_entries result) _) as [|c cs] eqn:E.
      + apply chunk_vec_nil in E. eapply accept_single; [exact Hp|done|]. destruct result as [es c]. simpl in *. subst. by destruct c.
      + unfold number_chunks in Hw. rewrite length_imap in Hw. eapply accept_chunks; [exact Hp|done|done|done|].
        rewrite (absorb_records (length (c :: cs)) (next_cursor result) (c :: cs) 0) by done.
        rewrite app_nil_l, <-E, chunk_vec_concat. destruct result as [es [cu|]]; done.
    - by apply accept_snapshot. }
  rewrite Ha in Hv. unfold request_view in Hv. simpl in Hv. injection Hv as H1 H2. rewrite lookup_delete_eq in H1. split; [done|].
  rewrite H2. by rewrite filter_app, filter_cons_True, filter_nil.
Qed.
End protocol.

(** * A concrete exchange *)

Module Exchange.
Definition unit_wire : Wire := {|
  VectorRequest := unit; VectorSearchResult := unit; TextQuery := unit; TextSearchResult := unit;
  TransactionOptions := unit; TransactionReport := unit
|}.
#[local] Existing Instance unit_wire.

Definition entries : list MapEntry :=
  [mkEntry "a" (JBool true); mkEntry "b" JNull; mkEntry "c" (JString "x")].

Definition limits : ChunkLimits := mkChunkLimits 2 1 1.

Definition asked : Requests := mkRequests {[ "r/1" := AMap []; "r/2" := AGet None ]} [].

Definition arriving : list PullResponse :=
  match build_pull_responses "r/1" (RMap entries) limits with
  | [x; y] => [x; mkResponse "r/2" (mkChunk 0 1) true (BGet None); y]
  | l => l
  end.

Lemma chunk_roundtrip_witness :
  length (build_pull_responses "r/1" (RMap entries) limits) = 2 ∧
  pending_requests (accept_responses asked arriving) !! "r/1" = None ∧
  filter (λ a, a.1 = "r/1") (answered (accept_responses asked arriving)) = [("r/1", inl (RMap entries))].
Proof.
  split; [by vm_compute|].
  exact (chunk_roundtrip limits (PMap (mkPath "x" [])) (RMap entries) "r/1" asked arriving eq_refl eq_refl eq_refl eq_refl).
Defined.

(** A chunk that is lost is not missed: the last one completes the request. *)
Lemma lost_chunk_unnoticed :
  answered (accept_responses asked (drop 1 (build_pull_responses "r/1" (RMap entries) limits))) =
    [("r/1", inl (RMap [mkEntry "c" (JString "x")]))].
Proof. by vm_compute. Qed.
End Exchange.
