(* ===== verification/Change.v ===== *)
(** What a change touches ([ChangeImpact] and [ChangeEvent] of [src/src/db.rs]), and which
watches it concerns: those of the database itself, and those that peers hold over a
relay ([incoming_watch_overlaps_event] of [src/src/native_sync.rs]). *)
From stdpp Require Import base gmap sets list strings sorting.
From Stdlib Require Import ZArith Lia.
From S2P Require Import Prelude Clock Value Crdt Paths Records Keys Engine Input Inner Query Tx Db Protocol.

(** * Events *)

(** The fields of an event after the first two are those of the impact it is made of. *)
Record ChangeEvent := mkChangeEvent {
  ev_revision : Z;
  ev_pending_ops : nat;
  impact : ChangeImpact
}.

(** A [BTreeSet] of the strings, listed. *)
Definition sorted_set (l : list string) : list string := btree_elems (list_to_set l : gset string).

Definition pending_only : ChangeImpact := mkImpact false false [] false [].

Definition impact_full_refresh : ChangeImpact := mkImpact true true [] false [].

Definition merge_lists (a b : list string) : list string :=
  if bool_decide (b = []) then a else sorted_set (a ++ b).

Definition event_merge (a b : ChangeEvent) : ChangeEvent :=
  let x := impact a in
  let y := impact b in
  mkChangeEvent (Z.max (ev_revision a) (ev_revision b)) (ev_pending_ops b)
    (mkImpact (data_changed x || data_changed y) (full_refresh x || full_refresh y)
       (merge_lists (touched_paths x) (touched_paths y))
       (records_changed x || records_changed y)
       (merge_lists (touched_record_keys x) (touched_record_keys y))).

(** * Watches *)

Definition watch_change_overlaps (path : string) (e : ChangeEvent) : bool :=
  full_refresh (impact e) || existsb (path_overlaps path) (touched_paths (impact e)).

(** The test on keys that record, vector and text watches share. *)
Definition keys_concern (concerned : string → bool) (e : ChangeEvent) : bool :=
  records_changed (impact e) && (bool_decide (touched_record_keys (impact e) = []) || existsb concerned (touched_record_keys (impact e))).

Definition record_watch_change_overlaps (scan : RecordScan) (e : ChangeEvent) : bool :=
  full_refresh (impact e) || keys_concern (matches_key scan) e.

Definition VECTOR_RECORD_PREFIX : string := "__primadb_vectors".
Definition TEXT_RECORD_PREFIX : string := "__primadb_text".

Definition collection_from_record_key (kind key : string) : option string :=
  suffix ← strip_prefix kind key ≫= strip_prefix "/";
  encoded ← head (split_on "/"%char suffix);
  match decode_component encoded with Ok c => Some c | Err _ => None end.

Definition vector_collection_from_record_key (key : string) : option string :=
  collection_from_record_key VECTOR_RECORD_PREFIX key.

Definition text_collection_from_record_key (key : string) : option string :=
  collection_from_record_key TEXT_RECORD_PREFIX key.

Definition text_collection_docs_prefix (collection : string) : string :=
  TEXT_RECORD_PREFIX +:+ "/" +:+ encode_component collection +:+ "/docs/".

Definition text_document_key (collection id : string) : string :=
  text_collection_docs_prefix collection +:+ encode_component id.

Definition vector_watch_change_overlaps (collection : string) (e : ChangeEvent) : bool :=
  full_refresh (impact e) || keys_concern (λ k, bool_decide (vector_collection_from_record_key k = Some collection)) e.

Definition text_collection_watch_overlaps (collection : string) (e : ChangeEvent) : bool :=
  full_refresh (impact e) || keys_concern (λ k, bool_decide (text_collection_from_record_key k = Some collection)) e.

Definition text_watch_change_overlaps (src : TextSearchSource) (e : ChangeEvent) : bool :=
  match src with
  | TSCollection c => text_collection_watch_overlaps c e
  | TSGraphQuery p _ => watch_change_overlaps (path p) e
  | TSRecords scan => record_watch_change_overlaps scan e
  end.

(** [incoming_watch_overlaps_event], on the request of a watch and its interest. *)
Definition incoming_watch_overlaps_event `{Wire} (k : PullRequestKind) (interest : option string) (e : ChangeEvent) : bool :=
  if full_refresh (impact e) then true
  else
    match k with
    | PRecords scan => keys_concern (matches_key scan) e
    | PVectorSearch collection _ =>
        keys_concern (λ k, bool_decide (vector_collection_from_record_key k = Some collection)) e
    | _ =>
        full_refresh (impact e)
        || match interest with Some p => existsb (path_overlaps p) (touched_paths (impact e)) | None => true end
    end.

(** * Paths overlap when one is an ancestor of the other *)

Lemma join_split s : join "/" (split_on "/"%char s) = s.
Proof.
  induction s as [|b s IH]; [done|]. cbn [split_on]. destruct (split_on_cons "/"%char s) as (p & ps & E).
  rewrite E in *. case_decide as Hb.
  - subst b. change (join "/" ("" :: p :: ps)) with ("" +:+ "/" +:+ join "/" (p :: ps)). by rewrite IH.
  - destruct ps as [|q ps]; cbn [join] in *; [by rewrite IH|]. rewrite str_app_cons. by f_equal.
Qed.

Lemma join_app a rest : a ≠ [] → rest ≠ [] → join "/" (a ++ rest) = join "/" a +:+ "/" +:+ join "/" rest.
Proof.
  intros Ha Hr. induction a as [|x a IH]; [done|]. destruct a as [|y a]; [by destruct rest|].
  cbn [app join] in *. rewrite IH by done. by rewrite !str_app_assoc.
Qed.

(** One path lies strictly under the other. *)
Lemma below_segments a b :
  strictly_below b a = true ↔ ∃ rest, rest ≠ [] ∧ split_on "/"%char b = split_on "/"%char a ++ rest.
Proof.
  rewrite strictly_below_spec. split.
  - intros [t ->]. exists (split_on "/"%char t). split; [|apply split_on_app].
    by destruct (split_on_cons "/"%char t) as (p & ps & ->).
  - intros (rest & Hr & E). apply (f_equal (join "/")) in E. rewrite join_app, !join_split in E; [eauto|..|done].
    by destruct (split_on_cons "/"%char a) as (p & ps & ->).
Qed.

(** A change at one path concerns a watch at another ([path_overlaps], and its copy
[paths_overlap] for relayed watches) exactly when the segments of one are a prefix of
the segments of the other: a common prefix of the text that ends inside a segment does
not count. *)
Lemma path_overlaps_segments left right :
  path_overlaps left right = true ↔
  split_on "/"%char left `prefix_of` split_on "/"%char right ∨ split_on "/"%char right `prefix_of` split_on "/"%char left.
Proof.
  unfold path_overlaps. rewrite !orb_true_iff, bool_decide_eq_true, !below_segments. split.
  - intros [[->|(r & _ & ->)]|(r & _ & ->)]; [by left|right|left]; by apply prefix_app_r.
  - intros [[[|x r] E]|[[|x r] E]].
    + left. left. rewrite app_nil_r in E. by rewrite <-(join_split left), <-(join_split right), E.
    + right. by exists (x :: r).
    + left. left. rewrite app_nil_r in E. by rewrite <-(join_split left), <-(join_split right), E.
    + left. right. by exists (x :: r).
Qed.

(** * Merged events *)

Lemma existsb_sorted_set f l : existsb f (sorted_set l) = existsb f l.
Proof.
  apply eq_true_iff_eq. rewrite !existsb_exists. unfold sorted_set.
  split; intros (x & Hx & Hf); exists x; (split; [|done]); revert Hx;
    rewrite <-!list_elem_of_In, elem_of_btree_elems, elem_of_list_to_set; done.
Qed.

Lemma merge_lists_existsb f a b : existsb f (merge_lists a b) = existsb f a || existsb f b.
Proof.
  unfold merge_lists. case_bool_decide as E; [subst b; by rewrite orb_false_r|]. by rewrite existsb_sorted_set, existsb_app.
Qed.

Lemma merge_lists_nil a b : merge_lists a b = [] ↔ a = [] ∧ b = [].
Proof.
  unfold merge_lists. case_bool_decide as E; [naive_solver|]. split; [|naive_solver]. intros Hn. destruct E.
  destruct b as [|x b]; [done|]. exfalso. apply (not_elem_of_nil x). rewrite <-Hn. unfold sorted_set.
  rewrite elem_of_btree_elems, elem_of_list_to_set. set_solver.
Qed.

(** An event that names the records it touched. *)
Definition keys_known (e : ChangeEvent) : Prop := touched_record_keys (impact e) = [] ↔ records_changed (impact e) = false.

Lemma keys_concern_merge f a b : keys_known a → keys_known b →
  keys_concern f (event_merge a b) = keys_concern f a || keys_concern f b.
Proof.
  intros Ha Hb. unfold keys_concern, event_merge. cbn [impact records_changed touched_record_keys]. rewrite merge_lists_existsb.
  assert (∀ e, keys_known e → records_changed (impact e) && (bool_decide (touched_record_keys (impact e) = []) || existsb f (touched_record_keys (impact e)))
    = existsb f (touched_record_keys (impact e))) as Hk.
  { intros e He. destruct (records_changed (impact e)) eqn:E; cbn [andb].
    - rewrite bool_decide_eq_false_2; [done|]. intros Hn%He. congruence.
    - by rewrite (proj2 He E). }
  rewrite !Hk by done. destruct (records_changed (impact a)) eqn:Ea; cbn [orb andb].
  - rewrite bool_decide_eq_false_2; [done|]. intros [Hn _]%merge_lists_nil. apply Ha in Hn. congruence.
  - destruct (records_changed (impact b)) eqn:Eb; cbn [andb].
    + rewrite bool_decide_eq_false_2; [done|]. intros [_ Hn]%merge_lists_nil. apply Hb in Hn. congruence.
    + by rewrite (proj2 Ha Ea), (proj2 Hb Eb).
Qed.

(** The events that wait while one is handled are merged into it ([event_merge]); when
each names the records it touched, every watch (of a path, a record scan, a vector or
text collection, or one a peer holds over the relay) is concerned by the merged event
exactly when one of the two concerns it. *)
Lemma merged_event_overlaps `{Wire} a b : keys_known a → keys_known b →
  (∀ p, watch_change_overlaps p (event_merge a b) = watch_change_overlaps p a || watch_change_overlaps p b) ∧
  (∀ scan, record_watch_change_overlaps scan (event_merge a b) =
     record_watch_change_overlaps scan a || record_watch_change_overlaps scan b) ∧
  (∀ src, text_watch_change_overlaps src (event_merge a b) = text_watch_change_overlaps src a || text_watch_change_overlaps src b) ∧
  (∀ k i, incoming_watch_overlaps_event k i (event_merge a b) =
     incoming_watch_overlaps_event k i a || incoming_watch_overlaps_event k i b).
Proof.
  intros Ha Hb.
  assert (∀ p, watch_change_overlaps p (event_merge a b) = watch_change_overlaps p a || watch_change_overlaps p b) as Hp.
  { intros p. unfold watch_change_overlaps. cbn [event_merge impact full_refresh touched_paths]. rewrite merge_lists_existsb.
    destruct (full_refresh (impact a)), (full_refresh (impact b)), (existsb _ _), (existsb _ _); done. }
  assert (∀ f, full_refresh (impact (event_merge a b)) || keys_concern f (event_merge a b) =
    (full_refresh (impact a) || keys_concern f a) || (full_refresh (impact b) || keys_concern f b)) as Hk.
  { intros f. rewrite keys_concern_merge by done. cbn [event_merge impact full_refresh].
    destruct (full_refresh (impact a)), (full_refresh (impact b)), (keys_concern f a), (keys_concern f b); done. }
  split_and!; [done|intros; apply Hk|intros []; [apply Hk|apply Hp|apply Hk]|].
  intros k i. unfold incoming_watch_overlaps_event. cbn [event_merge impact full_refresh touched_paths].
  destruct (full_refresh (impact a)), (full_refresh (impact b)); cbn [orb]; rewrite ?orb_true_r; [done..|].
  destruct k, i; rewrite ?keys_concern_merge, ?merge_lists_existsb by done; done.
Qed.

(** An event that could not name a record it touched concerns every record watch; merged
with one that can, it no longer does. *)
Lemma merge_hides_change :
  let unnamed := mkChangeEvent 1 0 (mkImpact true false ["record:1/value"] true []) in
  let named := mkChangeEvent 2 0 (mkImpact true false ["record:2/value"] true ["b"]) in
  let scan := mkScan (Some "a") None None None None false None None in
  record_watch_change_overlaps scan unnamed = true ∧ record_watch_change_overlaps scan (event_merge unnamed named) = false.
Proof. split; reflexivity. Qed.

(** A batch of operations whose records all have a key makes such an event. *)
Lemma impact_keys_known rev n ops ns :
  (∀ op, op ∈ ops → operation_is_record_op op = true → is_Some (operation_touched_record_key op ns)) →
  keys_known (mkChangeEvent rev n (impact_from_ops ops ns)).
Proof.
  intros Hall. unfold keys_known. cbn [impact impact_from_ops records_changed touched_record_keys].
  set (records := filter _ ops).
  assert (∀ op, op ∈ records → is_Some (operation_touched_record_key op ns)) as Hr.
  { intros op [Hk Hop]%list_elem_of_filter. by apply Hall. }
  assert (forallb (λ k, bool_decide (is_Some k)) ((λ op, operation_touched_record_key op ns) <$> records) = true) as ->.
  { apply forallb_forall. intros k [op [-> Hop]]%list_elem_of_In%list_elem_of_fmap. apply bool_decide_eq_true_2. by apply Hr. }
  rewrite negb_false_iff, bool_decide_eq_true. destruct records as [|op records]; [done|]. split; [|done].
  destruct (Hr op) as [key Hkey]; [set_solver|]. intros Hn. exfalso. apply (not_elem_of_nil key). rewrite <-Hn.
  rewrite elem_of_btree_elems, elem_of_list_to_set. rewrite fmap_cons, Hkey. simpl. set_solver.
Qed.

Module Watching.
Definition touch (rev : Z) (key : string) : ChangeEvent :=
  mkChangeEvent rev 0 (mkImpact true false [record_node_id (λ k, k) key +:+ "/value"] true [key]).

Lemma merged_event_overlaps_witness :
  keys_known (touch 1 "a/1") ∧ keys_known (touch 2 "b/1") ∧
  record_watch_change_overlaps (mkScan (Some "b/") None None None None false None None) (event_merge (touch 1 "a/1") (touch 2 "b/1")) = true.
Proof.
  assert (keys_known (touch 1 "a/1")) as Ha by done. assert (keys_known (touch 2 "b/1")) as Hb by done.
  split_and!; [done..|].
  destruct (merged_event_overlaps (H := Protocol.Exchange.unit_wire) _ _ Ha Hb) as (_ & Hr & _). rewrite Hr. reflexivity.
Defined.

(** A watch that a peer holds on a text collection waits for a change at the collection's
path, but writing a document touches the path of a record's node: the peer's watch is
not concerned, the database's own watch of that collection is. *)
Lemma text_watch_never_updated q :
  let w := Protocol.Exchange.unit_wire in
  let k := PTextSearch (H := w) (TSCollection "notes") q in
  let e := touch 1 (text_document_key "notes" "d1") in
  text_watch_change_overlaps (TSCollection "notes") e = true ∧ incoming_watch_overlaps_event k (interest_path k) e = false.
Proof. split; reflexivity. Qed.
End Watching.
