(* ===== verification/Vector.v ===== *)
(** Vector collections ([src/src/vector.rs] and their records in [src/src/db.rs]): the
records a vector is stored in, their assembly into a collection, exact search, and the
files of a collection's cache.  The default features are modelled, which search exactly
whatever backend a collection names. *)
From stdpp Require Import base gmap sets list strings sorting.
From Stdlib Require Import ZArith Lia.
From S2P Require Import Prelude Clock Value F32 TopK Records Keys Paths Segment Cells Recovery Inner Tx Protocol Change.

Definition VECTOR_ENCODING_F32_LE : string := "f32_le".
Definition VECTOR_CACHE_FORMAT_VERSION : Z := 1.
Definition DEFAULT_VECTOR_CHUNK_BYTES : Z := 65536.

Definition ascii_bytes (s : string) : list Z := (λ a, Z.of_N (Ascii.N_of_ascii a)) <$> String.list_ascii_of_string s.

(** [b"PRIMADB_VECTOR_CHUNK_V1\n"]. *)
Definition CHUNK_MAGIC : list Z := ascii_bytes "PRIMADB_VECTOR_CHUNK_V1" ++ [10%Z].

Inductive VectorMetric := Cosine | L2 | Dot.
Inductive VectorBackendKind := BExact | BEdgevec.

Record VectorHnswConfig := mkHnsw {
  hnsw_m : option Z;
  ef_construction : option Z;
  ef_search : option Z;
  tombstone_rebuild_ratio : option spec_float
}.

(** [VectorCollectionConfig]; [chunking] has the one field [chunk_bytes]. *)
Record VectorCollectionConfig := mkVectorConfig {
  v_dim : Z;
  v_metric : VectorMetric;
  v_backend : option VectorBackendKind;
  v_hnsw : option VectorHnswConfig;
  chunk_bytes : Z
}.

Record VectorItemMeta := mkItemMeta {
  vm_id : string;
  vm_write_id : string;
  vm_dim : Z;
  vm_encoding : string;
  vm_byte_length : Z;
  vm_checksum : string;
  vm_chunk_count : Z;
  vm_metadata : option json;
  vm_deleted : bool;
  vm_updated_at : option string
}.

Record VectorChunkHeader := mkChunkHeader {
  vh_write_id : string;
  vh_chunk_index : Z;
  vh_chunk_count : Z;
  vh_byte_offset : Z;
  vh_checksum : string
}.

Inductive VectorManagerState := VReady | VCatchingUp | VRebuilding | VStale | VFailed.

#[global] Instance VectorMetric_eq_dec : EqDecision VectorMetric.
Proof. solve_decision. Defined.
#[global] Instance VectorBackendKind_eq_dec : EqDecision VectorBackendKind.
Proof. solve_decision. Defined.
#[global] Instance VectorManagerState_eq_dec : EqDecision VectorManagerState.
Proof. solve_decision. Defined.

Record VectorCacheEntry := mkVectorEntry {
  ve_vector : list f32;
  ve_metadata : option json;
  ve_write_id : string;
  ve_checksum : string
}.

Record VectorCollectionCache := mkVectorCache {
  vc_config : VectorCollectionConfig;
  vc_entries : gmap string VectorCacheEntry;
  vc_deleted_count : Z;
  vc_incomplete_count : Z;
  vc_state : VectorManagerState;
  vc_dirty : bool;
  vc_source_hash : string
}.

Record VectorCacheKeyRecord := mkCacheKey {
  ck_id : string;
  ck_write_id : string;
  ck_checksum : string
}.

Record VectorCacheManifest := mkVectorManifest {
  mf_collection : string;
  mf_dim : Z;
  mf_metric : VectorMetric;
  mf_vector_count : Z;
  mf_deleted_count : Z;
  mf_incomplete_count : Z;
  mf_record_prefix : string;
  mf_source_revision : option Z;
  mf_source_hash : string;
  mf_source_hash_mode : string;
  mf_backend : VectorBackendKind;
  mf_backend_version : string;
  mf_cache_format_version : Z;
  mf_manager_state : VectorManagerState;
  mf_created_at : string
}.

Record VectorCacheFiles := mkVectorFiles {
  vf_manifest : VectorCacheManifest;
  vectors_f32 : list Z;
  keys_bin : list Z;
  metadata_bin : list Z;
  backend_edgevec : option (list Z)
}.

(** Serialization and hashing, outside the repository: [serde_json] on the structures
above and the hash of [blake3]. *)
Class VectorWireFormat := {
  blake3_bytes : list Z → string;
  header_to_vec : VectorChunkHeader → result (list Z);
  header_from_slice : list Z → result VectorChunkHeader;
  meta_to_value : VectorItemMeta → result json;
  meta_from_value : json → result VectorItemMeta;
  config_to_value : VectorCollectionConfig → result json;
  config_from_value : json → result VectorCollectionConfig;
  keys_to_vec : list VectorCacheKeyRecord → result (list Z);
  keys_from_slice : list Z → result (list VectorCacheKeyRecord);
  metadata_to_vec : list (option json) → result (list Z);
  metadata_from_slice : list Z → result (list (option json));
  record_value_to_vec : RecordValue → result (list Z)
}.

(** What is written is read back. *)
Class VectorWireLaws `{VectorWireFormat} : Prop := {
  header_back : ∀ h b, header_to_vec h = Ok b → header_from_slice b = Ok h;
  meta_back : ∀ m j, meta_to_value m = Ok j → meta_from_value j = Ok m;
  keys_back : ∀ l b, keys_to_vec l = Ok b → keys_from_slice b = Ok l;
  metadata_back : ∀ l b, metadata_to_vec l = Ok b → metadata_from_slice b = Ok l
}.

(** * Keys of the records *)

Definition vector_collection_meta_key (collection : string) : string :=
  VECTOR_RECORD_PREFIX +:+ "/" +:+ encode_component collection +:+ "/meta".

Definition vector_collection_items_prefix (collection : string) : string :=
  VECTOR_RECORD_PREFIX +:+ "/" +:+ encode_component collection +:+ "/items/".

Definition vector_item_meta_key (collection id : string) : string :=
  vector_collection_items_prefix collection +:+ encode_component id +:+ "/meta".

Definition vector_item_chunks_prefix (collection id : string) : string :=
  vector_collection_items_prefix collection +:+ encode_component id +:+ "/chunks/".

Definition vector_item_chunk_key (collection id : string) (chunk_index : Z) : string :=
  vector_item_chunks_prefix collection id +:+ dec chunk_index.

Definition vector_item_id_from_record_key (collection key : string) : option string :=
  suffix ← strip_prefix (vector_collection_items_prefix collection) key;
  encoded ← head (split_on "/"%char suffix);
  match decode_component encoded with Ok c => Some c | Err _ => None end.

(** * Validation *)

Definition validate_collection_config (c : VectorCollectionConfig) : result unit :=
  if (v_dim c =? 0)%Z then Err (Message "vector collection dimension must be greater than zero")
  else if (chunk_bytes c =? 0)%Z then Err (Message "vector chunkBytes must be greater than zero")
  else Ok tt.

Definition len {A} (l : list A) : Z := Z.of_nat (length l).

Definition validate_vector (v : list f32) (dim : Z) : result unit :=
  if negb (len v =? dim)%Z
  then Err (Message ("vector dimension mismatch: expected " +:+ dec dim +:+ ", got " +:+ dec (len v)))
  else if existsb (λ x, negb (is_finite x)) v then Err (Message "vectors must contain only finite f32 values")
  else Ok tt.

(** * Bytes *)

Definition encode_f32_le (v : list f32) : list Z := v ≫= to_le_bytes.

(** [chunks_exact(4)] and its remainder. *)
Fixpoint decode_quads (b : list Z) : option (list f32) :=
  match b with
  | [] => Some []
  | b0 :: b1 :: b2 :: b3 :: rest => cons (from_le_bytes b0 b1 b2 b3) <$> decode_quads rest
  | _ => None
  end.

Definition decode_f32_le (b : list Z) : result (list f32) :=
  match decode_quads b with
  | Some v => Ok v
  | None => Err (Message "f32_le vector bytes length is not divisible by four")
  end.

(** [slice::chunks]: pieces of [n] bytes, the last one shorter.  As many steps as there
are bytes are enough. *)
Fixpoint pieces_of (fuel n : nat) (b : list Z) : list (list Z) :=
  match fuel, b with
  | S fuel, _ :: _ => take n b :: pieces_of fuel n (drop n b)
  | _, _ => []
  end.

Definition pieces (n : nat) (b : list Z) : list (list Z) := pieces_of (length b) n b.

Section wire.
Context `{VectorWireFormat}.

Definition checksum_bytes (b : list Z) : string := "blake3:" +:+ blake3_bytes b.

Definition encode_vector_chunk (header : VectorChunkHeader) (payload : list Z) : result BinaryBytes :=
  header_json ← header_to_vec header;
  if (2 ^ 32 <=? len header_json)%Z then Err (Message "vector chunk header is too large to encode")
  else Ok (mkBytes (CHUNK_MAGIC ++ to_le_bytes (len header_json) ++ header_json ++ payload)).

Definition decode_vector_chunk (b : list Z) : result (VectorChunkHeader * list Z) :=
  if negb (bool_decide (CHUNK_MAGIC `prefix_of` b)) then Err (Message "vector chunk has an invalid header")
  else
    let offset := length CHUNK_MAGIC in
    match drop offset b with
    | b0 :: b1 :: b2 :: b3 :: rest =>
        let header_len := from_le_bytes b0 b1 b2 b3 in
        if (len rest <? header_len)%Z then Err (Message "vector chunk header length exceeds payload length")
        else
          header ← header_from_slice (take (Z.to_nat header_len) rest);
          Ok (header, drop (Z.to_nat header_len) rest)
    | _ => Err (Message "vector chunk is shorter than its header length")
    end.

(** [records_source_hash]: what is hashed, in the order of the keys. *)
Definition source_bytes (e : RecordEntry) : list Z :=
  ascii_bytes (entry_key e) ++ [0%Z]
  ++ (match record_value_to_vec (entry_value e) with Ok b => b | Err _ => [] end) ++ [255%Z].

Definition records_source_hash (entries : list RecordEntry) : string :=
  "blake3:" +:+ blake3_bytes (merge_sort entry_le entries ≫= source_bytes).

(** * Records read *)

Definition item_meta_from_record (e : RecordEntry) : result VectorItemMeta :=
  match entry_value e with
  | RJson v => meta_from_value v
  | _ => Err (Message ("vector item meta record `" +:+ entry_key e +:+ "` is not JSON"))
  end.

Definition collection_config_from_record (e : RecordEntry) : result VectorCollectionConfig :=
  match entry_value e with
  | RJson v =>
      config ← config_from_value v;
      _ ← validate_collection_config config;
      Ok config
  | _ => Err (Message ("vector collection meta record `" +:+ entry_key e +:+ "` is not JSON"))
  end.

Definition chunk_from_record (e : RecordEntry) : result (VectorChunkHeader * list Z) :=
  match entry_value e with
  | RBytes b => decode_vector_chunk (bytes_of b)
  | _ => Err (Message ("vector chunk record `" +:+ entry_key e +:+ "` is not bytes"))
  end.

(** * Records written *)

Definition chunk_mutation (collection id write_id : string) (size count index : Z) (chunk : list Z) : result RecordMutation :=
  bytes ← encode_vector_chunk (mkChunkHeader write_id index count (index * size) (checksum_bytes chunk)) chunk;
  Ok (MPut (vector_item_chunk_key collection id index) (RBytes bytes)).

Fixpoint chunk_mutations (collection id write_id : string) (size count index : Z) (chunks : list (list Z))
    : result (list RecordMutation) :=
  match chunks with
  | [] => Ok []
  | chunk :: rest =>
      m ← chunk_mutation collection id write_id size count index chunk;
      ms ← chunk_mutations collection id write_id size count (index + 1) rest;
      Ok (m :: ms)
  end.

(** [bytes.len().div_ceil(chunk_size).max(1)]. *)
Definition chunk_count_of (bytes : list Z) (size : Z) : Z := Z.max ((len bytes + size - 1) / size) 1.

Definition item_meta (config : VectorCollectionConfig) (id write_id : string) (bytes : list Z) (metadata : option json)
    (now : Z) : VectorItemMeta :=
  mkItemMeta id write_id (v_dim config) VECTOR_ENCODING_F32_LE (len bytes) (checksum_bytes bytes)
    (chunk_count_of bytes (Z.max (chunk_bytes config) 1)) metadata false (Some (dec now)).

(** The mutations of [put_vector]. *)
Definition vector_mutations (config : VectorCollectionConfig) (collection id write_id : string) (v : list f32)
    (metadata : option json) (now : Z) : result (list RecordMutation) :=
  let bytes := encode_f32_le v in
  let size := Z.max (chunk_bytes config) 1 in
  meta ← meta_to_value (item_meta config id write_id bytes metadata now);
  chunks ← chunk_mutations collection id write_id size (chunk_count_of bytes size) 0 (pieces (Z.to_nat size) bytes);
  Ok (MDeleteRange (mkScan (Some (vector_item_chunks_prefix collection id)) None None None None false None None)
      :: MPut (vector_item_meta_key collection id) (RJson meta) :: chunks).

(** The mutations of [delete_vector]. *)
Definition deletion_meta (config : VectorCollectionConfig) (id write_id : string) (now : Z) : VectorItemMeta :=
  mkItemMeta id write_id (v_dim config) VECTOR_ENCODING_F32_LE 0 (checksum_bytes []) 0 None true (Some (dec now)).

Definition deletion_mutations (config : VectorCollectionConfig) (collection id write_id : string) (now : Z)
    : result (list RecordMutation) :=
  meta ← meta_to_value (deletion_meta config id write_id now);
  Ok [MPut (vector_item_meta_key collection id) (RJson meta);
      MDeleteRange (mkScan (Some (vector_item_chunks_prefix collection id)) None None None None false None None)].

(** * Assembly *)

Record PendingVectorItem := mkPending {
  pv_meta : option VectorItemMeta;
  pv_chunks : gmap Z (VectorChunkHeader * list Z);
  pv_malformed : bool
}.

Definition pending_default : PendingVectorItem := mkPending None ∅ false.

(** A record of an item, by what its key says it is. *)
Definition note_record (e : RecordEntry) (item : PendingVectorItem) : PendingVectorItem :=
  if ends_with (entry_key e) "/meta" then
    match item_meta_from_record e with
    | Ok meta => mkPending (Some meta) (pv_chunks item) (pv_malformed item)
    | Err _ => mkPending (pv_meta item) (pv_chunks item) true
    end
  else if contains_str (entry_key e) "/chunks/" then
    match chunk_from_record e with
    | Ok (header, payload) =>
        mkPending (pv_meta item) (<[vh_chunk_index header := (header, payload)]> (pv_chunks item)) (pv_malformed item)
    | Err _ => mkPending (pv_meta item) (pv_chunks item) true
    end
  else item.

Definition gather_record (collection : string) (items : gmap string PendingVectorItem) (e : RecordEntry)
    : gmap string PendingVectorItem :=
  match vector_item_id_from_record_key collection (entry_key e) with
  | None => items
  | Some id => <[id := note_record e (default pending_default (items !! id))]> items
  end.

Definition gather_items (collection : string) (records : list RecordEntry) : gmap string PendingVectorItem :=
  foldl (gather_record collection) ∅ records.

(** The [for] over the indices of the chunks: every step that goes on has met a chunk of
its own, so the number of chunks at hand bounds the steps. *)
Fixpoint join_payloads (fuel : nat) (meta : VectorItemMeta) (chunks : gmap Z (VectorChunkHeader * list Z)) (index : Z)
    (bytes : list Z) : result (list Z) :=
  if (vm_chunk_count meta <=? index)%Z then Ok bytes
  else
    match fuel with
    | O => Err (Message "missing vector chunk")
    | S fuel =>
        match chunks !! index with
        | None => Err (Message "missing vector chunk")
        | Some (header, payload) =>
            if negb (bool_decide (vh_write_id header = vm_write_id meta)) || negb (vh_chunk_index header =? index)%Z
               || negb (vh_chunk_count header =? vm_chunk_count meta)%Z || negb (vh_byte_offset header =? len bytes)%Z
               || negb (bool_decide (vh_checksum header = checksum_bytes payload))
            then Err (Message "vector chunk header mismatch")
            else join_payloads fuel meta chunks (index + 1) (bytes ++ payload)
        end
    end.

Definition assemble_complete_vector_item (config : VectorCollectionConfig) (meta : VectorItemMeta)
    (chunks : gmap Z (VectorChunkHeader * list Z)) : result VectorCacheEntry :=
  if negb (vm_dim meta =? v_dim config)%Z || negb (bool_decide (vm_encoding meta = VECTOR_ENCODING_F32_LE))
     || (vm_chunk_count meta =? 0)%Z || negb (vm_byte_length meta =? Z.min u64_max (v_dim config * 4))%Z
  then Err (Message "vector item metadata is incomplete")
  else
    bytes ← join_payloads (size chunks) meta chunks 0 [];
    if negb (len bytes =? vm_byte_length meta)%Z || negb (bool_decide (checksum_bytes bytes = vm_checksum meta))
    then Err (Message "vector checksum mismatch")
    else
      v ← decode_f32_le bytes;
      _ ← validate_vector v (v_dim config);
      Ok (mkVectorEntry v (vm_metadata meta) (vm_write_id meta) (vm_checksum meta)).

Definition empty_cache (config : VectorCollectionConfig) : VectorCollectionCache :=
  mkVectorCache config ∅ 0 0 VReady false "".

Definition count_incomplete (c : VectorCollectionCache) : VectorCollectionCache :=
  mkVectorCache (vc_config c) (vc_entries c) (vc_deleted_count c) (sat_add u64_max (vc_incomplete_count c) 1) (vc_state c)
    (vc_dirty c) (vc_source_hash c).
Definition count_deleted (c : VectorCollectionCache) : VectorCollectionCache :=
  mkVectorCache (vc_config c) (vc_entries c) (sat_add u64_max (vc_deleted_count c) 1) (vc_incomplete_count c) (vc_state c)
    (vc_dirty c) (vc_source_hash c).
Definition add_entry (id : string) (e : VectorCacheEntry) (c : VectorCollectionCache) : VectorCollectionCache :=
  mkVectorCache (vc_config c) (<[id := e]> (vc_entries c)) (vc_deleted_count c) (vc_incomplete_count c) (vc_state c)
    (vc_dirty c) (vc_source_hash c).

(** What becomes of one item. *)
Definition settle_item (config : VectorCollectionConfig) (c : VectorCollectionCache) (p : string * PendingVectorItem)
    : VectorCollectionCache :=
  match pv_meta p.2 with
  | None => count_incomplete c
  | Some meta =>
      if pv_malformed p.2 || negb (bool_decide (vm_id meta = p.1)) then count_incomplete c
      else if vm_deleted meta then count_deleted c
      else
        match assemble_complete_vector_item config meta (pv_chunks p.2) with
        | Ok e => add_entry (vm_id meta) e c
        | Err _ => count_incomplete c
        end
  end.

Definition assemble_vector_collection_cache (collection : string) (config : VectorCollectionConfig)
    (records : list RecordEntry) (source_hash : string) : VectorCollectionCache :=
  foldl (settle_item config) (mkVectorCache config ∅ 0 0 VReady false source_hash)
    (btree_list (gather_items collection records)).

(** * Search *)

Record VectorMetadataFilter := mkMetadataFilter {
  vf_eq : gmap string json;
  vf_prefix : gmap string string;
  vf_exists : list string
}.

Record VectorFilter := mkVectorFilter {
  id_prefix : option string;
  vf_ids : list string;
  vf_metadata : option VectorMetadataFilter
}.

Inductive VectorStalePolicy := FallbackExact | AllowStale | StaleError.

#[global] Instance VectorStalePolicy_eq_dec : EqDecision VectorStalePolicy.
Proof. solve_decision. Defined.

Record VectorSearchSpec := mkVectorSpec {
  vs_limit : nat;
  vs_ef : option nat;
  vs_filter : option VectorFilter;
  include_vector : bool;
  vs_include_metadata : bool;
  vs_exact : bool;
  vs_stale_policy : VectorStalePolicy
}.

Record VectorMatch := mkVectorMatch {
  vmatch_id : string;
  vmatch_distance : f32;
  vmatch_metadata : option json;
  vmatch_vector : option (list f32)
}.

Record VectorResult := mkVectorResult {
  vr_matches : list VectorMatch;
  vr_exact : bool;
  vr_backend : VectorBackendKind;
  vr_state : VectorManagerState;
  vr_stale : bool;
  approximate_reason : option string
}.

Definition validate_search_spec (spec : VectorSearchSpec) : result unit :=
  if vs_limit spec =? 0 then Err (Message "vector search limit must be greater than zero") else Ok tt.

Definition metadata_filter_matches (object : list (string * json)) (f : VectorMetadataFilter) : bool :=
  forallb (λ p, match obj_get p.1 object with Some v => json_eqb v p.2 | None => false end) (btree_list (vf_eq f))
  && forallb (λ p, match obj_get p.1 object with Some (JString v) => starts_with v p.2 | _ => false end) (btree_list (vf_prefix f))
  && forallb (λ key, match obj_get key object with Some _ => true | None => false end) (vf_exists f).

(** [vector_filter_matches] on the filter [prepare_vector_filter] prepares: an empty list of
ids does not restrict. *)
Definition vector_filter_matches (id : string) (metadata : option json) (filter : option VectorFilter) : bool :=
  match filter with
  | None => true
  | Some f =>
      if match id_prefix f with Some p => negb (starts_with id p) | None => false end then false
      else if negb (bool_decide (vf_ids f = [])) && negb (bool_decide (id ∈ vf_ids f)) then false
      else
        match vf_metadata f with
        | None => true
        | Some mf => match metadata with Some (JObject object) => metadata_filter_matches object mf | _ => false end
        end
  end.

Section search.
Context `{Platform}.

Definition cosine_step (acc : f32 * f32 * f32) (p : f32 * f32) : f32 * f32 * f32 :=
  let '(dot, left_norm, right_norm) := acc in
  (f32_add dot (f32_mul p.1 p.2), f32_add left_norm (f32_mul p.1 p.1), f32_add right_norm (f32_mul p.2 p.2)).

Definition vector_distance (metric : VectorMetric) (query v : list f32) : f32 :=
  match metric with
  | L2 =>
      f32_sqrt (f32_sum ((λ p, let delta := f32_sub p.1 p.2 in f32_mul delta delta) <$> zip query v))
  | Dot => f32_neg (f32_sum ((λ p, f32_mul p.1 p.2) <$> zip query v))
  | Cosine =>
      let '(dot, left_norm, right_norm) := foldl cosine_step (f32_zero, f32_zero, f32_zero) (zip query v) in
      if f32_eq left_norm f32_zero || f32_eq right_norm f32_zero then f32_one
      else f32_sub f32_one (f32_div dot (f32_mul (f32_sqrt left_norm) (f32_sqrt right_norm)))
  end.

Record ExactCandidate := mkExact {
  cand_id : string;
  cand_entry : VectorCacheEntry;
  cand_distance : f32
}.

(** [Ord for ExactCandidate]: the distance, then the id. *)
Definition candidate_key (c : ExactCandidate) : Z * string := (total_key (cand_distance c), cand_id c).

Definition candidates_of (cache : VectorCollectionCache) (query : list f32) (filter : option VectorFilter)
    : list ExactCandidate :=
  (λ p, mkExact p.1 p.2 (vector_distance (v_metric (vc_config cache)) query (ve_vector p.2))) <$>
    List.filter (λ p, vector_filter_matches p.1 (ve_metadata p.2) filter) (btree_list (vc_entries cache)).

Definition match_of (spec : VectorSearchSpec) (c : ExactCandidate) : VectorMatch :=
  mkVectorMatch (cand_id c) (cand_distance c)
    (if vs_include_metadata spec then ve_metadata (cand_entry c) else None)
    (if include_vector spec then Some (ve_vector (cand_entry c)) else None).

Definition exact_search (cache : VectorCollectionCache) (query : list f32) (spec : VectorSearchSpec) : result VectorResult :=
  _ ← validate_vector query (v_dim (vc_config cache));
  _ ← validate_search_spec spec;
  let best := select_top candidate_key (vs_limit spec) (candidates_of cache query (vs_filter spec)) in
  Ok (mkVectorResult (match_of spec <$> merge_sort (by_key_le candidate_key) best) true BExact (vc_state cache)
        (negb (bool_decide (vc_state cache = VReady))) None).

(** Without the feature [vector-edgevec] every way leads to the exact search. *)
Definition search_vector_collection (cache : VectorCollectionCache) (query : list f32) (spec : VectorSearchSpec)
    : result VectorResult :=
  exact_search cache query spec.
End search.

(** * Files of the cache *)

Definition vector_backend_version (kind : VectorBackendKind) : string :=
  match kind with BExact => "primadb-exact-v1" | BEdgevec => "primadb-edgevec-unavailable-v1" end.

Definition cache_key (p : string * VectorCacheEntry) : VectorCacheKeyRecord :=
  mkCacheKey p.1 (ve_write_id p.2) (ve_checksum p.2).

Definition edgevec_stub : list Z := ascii_bytes (
  "{" +:+ String (Ascii.ascii_of_N 34) "kind" +:+ String (Ascii.ascii_of_N 34) ":" +:+ String (Ascii.ascii_of_N 34) "edgevec"
  +:+ String (Ascii.ascii_of_N 34) "," +:+ String (Ascii.ascii_of_N 34) "cacheOnly" +:+ String (Ascii.ascii_of_N 34) ":true,"
  +:+ String (Ascii.ascii_of_N 34) "formatVersion" +:+ String (Ascii.ascii_of_N 34) ":1}").

(** [build_vector_cache_files]; the entries do not change while it runs. *)
Definition build_vector_cache_files (collection : string) (cache : VectorCollectionCache) (created_at : string)
    : result VectorCacheFiles :=
  let items := btree_list (vc_entries cache) in
  let backend := default BExact (v_backend (vc_config cache)) in
  let manifest :=
    mkVectorManifest collection (v_dim (vc_config cache)) (v_metric (vc_config cache)) (len items)
      (vc_deleted_count cache) (vc_incomplete_count cache) (vector_collection_items_prefix collection) None
      (vc_source_hash cache) "rebuild_scan" backend (vector_backend_version backend) VECTOR_CACHE_FORMAT_VERSION
      VReady created_at in
  keys ← keys_to_vec (cache_key <$> items);
  metadata ← metadata_to_vec ((λ p, ve_metadata p.2) <$> items);
  Ok (mkVectorFiles manifest (items ≫= λ p, encode_f32_le (ve_vector p.2)) keys metadata
        (match backend with BEdgevec => Some edgevec_stub | BExact => None end)).

(** The loop over the keys: the bytes of the vectors not yet read, and their metadata. *)
Fixpoint restore_entries (dim : Z) (keys : list VectorCacheKeyRecord) (metadata : list (option json)) (bytes : list Z)
    (entries : gmap string VectorCacheEntry) : result (gmap string VectorCacheEntry) :=
  match keys, metadata with
  | key :: keys, m :: metadata =>
      let vector_bytes := take (Z.to_nat (dim * 4)) bytes in
      if negb (bool_decide (checksum_bytes vector_bytes = ck_checksum key))
      then Err (Message ("vector cache checksum mismatch for `" +:+ ck_id key +:+ "`"))
      else
        v ← decode_f32_le vector_bytes;
        _ ← validate_vector v dim;
        restore_entries dim keys metadata (drop (Z.to_nat (dim * 4)) bytes)
          (<[ck_id key := mkVectorEntry v m (ck_write_id key) (ck_checksum key)]> entries)
  | _, _ => Ok entries
  end.

Definition checked_mul (m x y : Z) : option Z := if (x * y <=? m)%Z then Some (x * y)%Z else None.

Definition collection_cache_from_cache_files (config : VectorCollectionConfig) (files : VectorCacheFiles)
    (expected_source_hash : string) : result VectorCollectionCache :=
  let manifest := vf_manifest files in
  if negb (mf_cache_format_version manifest =? VECTOR_CACHE_FORMAT_VERSION)%Z
  then Err (Message ("vector cache format mismatch: expected " +:+ dec VECTOR_CACHE_FORMAT_VERSION +:+ ", got "
              +:+ dec (mf_cache_format_version manifest)))
  else if negb (mf_dim manifest =? v_dim config)%Z || negb (bool_decide (mf_metric manifest = v_metric config))
  then Err (Message "vector cache manifest does not match collection config")
  else if negb (bool_decide (mf_source_hash manifest = expected_source_hash))
  then Err (Message "vector cache source hash does not match authoritative records")
  else if negb (bool_decide (mf_backend_version manifest = vector_backend_version (mf_backend manifest)))
  then Err (Message "vector cache backend version does not match this build")
  else
    keys ← keys_from_slice (keys_bin files);
    metadata ← metadata_from_slice (metadata_bin files);
    if negb (len keys =? mf_vector_count manifest)%Z || negb (len metadata =? mf_vector_count manifest)%Z
    then Err (Message "vector cache side tables have inconsistent lengths")
    else
      match checked_mul u64_max (mf_vector_count manifest) (mf_dim manifest) ≫= λ n, checked_mul u64_max n 4 with
      | None => Err (Message "vector cache byte length overflow")
      | Some expected =>
          if negb (len (vectors_f32 files) =? expected)%Z
          then Err (Message ("vector cache vector slab has wrong byte length: expected " +:+ dec expected
                      +:+ ", got " +:+ dec (len (vectors_f32 files))))
          else
            entries ← restore_entries (mf_dim manifest) keys metadata (vectors_f32 files) ∅;
            Ok (mkVectorCache config entries (mf_deleted_count manifest) (mf_incomplete_count manifest) VReady false
                  (mf_source_hash manifest))
      end.
End wire.

(** * The database's calls *)

Section calls.
Context `{VectorWireFormat, Codec, Env}.

Definition get_record (key : string) : M (option RecordEntry) := record_entry_from_inner key.

Definition commit_records (ms : list RecordMutation) : M unit := λ i,
  let r := apply_record_batch (mkBatch [] ms) i in (r.1, match r.2 with Ok _ => Ok tt | Err e => Err e end).

Definition put_record (key : string) (v : RecordValue) : M unit := commit_records [MPut key v].
Definition delete_record (key : string) : M unit := commit_records [MDelete key].

(** A reading of the wall clock. *)
Definition read_millis : M Z := λ i, (set_ticks (S (ticks i)) i, Ok (now_millis (ticks i))).

Definition next_vector_write_id : M string := λ i,
  let '(op_id, c) := next_op_id "vector-write" (clock i) in
  (set_clock c i, Ok (actor (clock i) +:+ ":" +:+ op_id)).

Definition create_vector_collection (name : string) (config : VectorCollectionConfig) : M unit :=
  let config :=
    if (chunk_bytes config =? 0)%Z
    then mkVectorConfig (v_dim config) (v_metric config) (v_backend config) (v_hnsw config) DEFAULT_VECTOR_CHUNK_BYTES
    else config in
  _ ← lift (validate_collection_config config);
  v ← lift (config_to_value config);
  put_record (vector_collection_meta_key name) (RJson v).

Definition vector_collection_config (collection : string) : M VectorCollectionConfig :=
  e ← get_record (vector_collection_meta_key collection);
  match e with
  | None => throw (Message ("vector collection `" +:+ collection +:+ "` does not exist"))
  | Some e => lift (collection_config_from_record e)
  end.

Definition put_vector (collection id : string) (v : list f32) (metadata : option json) : M unit :=
  config ← vector_collection_config collection;
  _ ← lift (validate_vector v (v_dim config));
  write_id ← next_vector_write_id;
  now ← read_millis;
  ms ← lift (vector_mutations config collection id write_id v metadata now);
  commit_records ms.

Definition delete_vector (collection id : string) : M unit :=
  config ← vector_collection_config collection;
  write_id ← next_vector_write_id;
  now ← read_millis;
  ms ← lift (deletion_mutations config collection id write_id now);
  commit_records ms.
End calls.

(** * Laws of the bytes *)

Lemma decode_encode_f32 v : Forall is_f32 v → decode_f32_le (encode_f32_le v) = Ok v.
Proof.
  intros Hv. unfold decode_f32_le. enough (decode_quads (encode_f32_le v) = Some v) as -> by done.
  induction Hv as [|x v Hx Hv IH]; [done|]. unfold encode_f32_le in *. rewrite bind_cons.
  destruct (le_bytes_roundtrip x Hx) as (b0 & b1 & b2 & b3 & -> & E). cbn [app decode_quads]. by rewrite IH, E.
Qed.

Lemma encode_f32_length v : length (encode_f32_le v) = 4 * length v.
Proof. unfold encode_f32_le. induction v as [|x v IH]; [done|]. rewrite bind_cons, length_app, IH. simpl. lia. Qed.

Lemma pieces_of_concat fuel n b : 0 < n → length b ≤ fuel → concat (pieces_of fuel n b) = b.
Proof.
  revert b. induction fuel as [|f IH]; intros b Hn Hl; [by destruct b; simpl in *; [|lia]|].
  destruct b as [|x b]; [done|]. cbn [pieces_of concat]. rewrite IH; [apply take_drop|done|].
  rewrite length_drop. simpl in *. lia.
Qed.

Lemma pieces_concat n b : 0 < n → concat (pieces n b) = b.
Proof. intros. by apply pieces_of_concat. Qed.

(** Every piece but the last has the full size. *)
Lemma pieces_of_offset fuel n b k : 0 < n → length b ≤ fuel → k < length (pieces_of fuel n b) →
  length (concat (take k (pieces_of fuel n b))) = k * n.
Proof.
  revert b k. induction fuel as [|f IH]; intros b k Hn Hl Hk; [simpl in Hk; lia|].
  destruct b as [|x b]; [simpl in Hk; lia|]. cbn [pieces_of] in Hk |- *. destruct k as [|k]; [done|].
  cbn [take concat]. rewrite length_app. simpl in Hk.
  assert (drop n (x :: b) ≠ []) as Hd by (intros Hd; rewrite Hd in Hk; destruct f; simpl in Hk; lia).
  assert (n < length (x :: b)).
  { apply Nat.nle_gt. intros ?. apply Hd. by apply drop_ge. }
  rewrite length_take, IH; [lia|done|rewrite length_drop; simpl in *; lia|lia].
Qed.

Lemma pieces_of_length fuel n b : 0 < n → length b ≤ fuel →
  Z.of_nat (length (pieces_of fuel n b)) = ((Z.of_nat (length b) + Z.of_nat n - 1) / Z.of_nat n)%Z.
Proof.
  revert b. induction fuel as [|f IH]; intros b Hn Hl.
  - destruct b; [|simpl in Hl; lia]. simpl. rewrite Z.div_small; lia.
  - destruct b as [|x b]; [simpl; rewrite Z.div_small; lia|]. cbn [pieces_of].
    change (Z.of_nat (S (length (pieces_of f n (drop n (x :: b))))) = (Z.of_nat (length (x :: b)) + Z.of_nat n - 1) / Z.of_nat n)%Z.
    rewrite Nat2Z.inj_succ, IH; [|done|rewrite length_drop; simpl in *; lia]. rewrite length_drop.
    assert (0 < length (x :: b)) as Hpos by (simpl; lia). revert Hpos. generalize (length (x :: b)) as m. intros m Hpos.
    assert (((Z.of_nat m + Z.of_nat n - 1) / Z.of_nat n = 1 + (Z.of_nat m - 1) / Z.of_nat n)%Z) as ->.
    { rewrite <-Z.div_add_l by lia. f_equal. lia. }
    destruct (Nat.le_gt_cases m n) as [Hle|Hgt].
    + replace (m - n) with 0 by lia. rewrite !Z.div_small by lia. lia.
    + rewrite Nat2Z.inj_sub by lia. replace (Z.of_nat m - Z.of_nat n + Z.of_nat n - 1)%Z with (Z.of_nat m - 1)%Z by lia. lia.
Qed.

Lemma ok_inj {A} (a b : A) : Ok a = Ok b → a = b.
Proof. congruence. Qed.

Section laws.
Context `{VectorWireFormat, !VectorWireLaws}.

Lemma chunk_roundtrip_bytes h p b : encode_vector_chunk h p = Ok b → decode_vector_chunk (bytes_of b) = Ok (h, p).
Proof.
  unfold encode_vector_chunk. destruct (header_to_vec h) as [j|] eqn:Ej; [|done]. cbn [mbind result_bind].
  destruct (Z.leb_spec (2 ^ 32) (len j)) as [|Hj]; [done|]. intros <-%ok_inj. cbn [bytes_of]. unfold decode_vector_chunk.
  rewrite bool_decide_eq_true_2 by (by eexists). cbn [negb]. cbv zeta. rewrite drop_app_length.
  destruct (le_bytes_roundtrip (len j)) as (b0 & b1 & b2 & b3 & Eb & Er); [unfold is_f32, len in *; lia|].
  rewrite Eb. cbn [app]. rewrite Er. destruct (Z.ltb_spec (len (j ++ p)) (len j)) as [Hc|_].
  { unfold len in Hc. rewrite length_app in Hc. lia. }
  unfold len. rewrite Nat2Z.id, take_app_length, drop_app_length, (header_back _ _ Ej). done.
Qed.

(** * Keys of an item *)

Lemma encode_free_of_slash s : free_of "/" (encode_component s) = true.
Proof.
  induction s as [|b s IH]; [done|]. cbn [encode_component]. rewrite free_of_app, IH, andb_true_r.
  unfold hex_byte. destruct b as [[] [] [] [] [] [] [] []]; reflexivity.
Qed.

Lemma item_id_of_key collection id rest : valid_utf8 id = true →
  vector_item_id_from_record_key collection (vector_collection_items_prefix collection +:+ encode_component id +:+ "/" +:+ rest) =
    Some id.
Proof.
  intros Hid. unfold vector_item_id_from_record_key. rewrite (proj2 (strip_prefix_Some _ _ _) eq_refl). cbn [mbind option_bind].
  change ("/" +:+ rest) with (String "/" rest). rewrite split_on_app, (split_on_free _ _ (encode_free_of_slash id)). simpl.
  by rewrite component_roundtrip, Hid.
Qed.

Lemma meta_key_item collection id : valid_utf8 id = true →
  vector_item_id_from_record_key collection (vector_item_meta_key collection id) = Some id.
Proof. apply (item_id_of_key collection id "meta"). Qed.

Lemma chunk_key_item collection id k : valid_utf8 id = true →
  vector_item_id_from_record_key collection (vector_item_chunk_key collection id k) = Some id.
Proof.
  intros Hid. unfold vector_item_chunk_key, vector_item_chunks_prefix. rewrite !str_app_assoc.
  change ("/chunks/" +:+ dec k) with ("/" +:+ ("chunks/" +:+ dec k)). by apply item_id_of_key.
Qed.

Lemma meta_key_ends collection id : ends_with (vector_item_meta_key collection id) "/meta" = true.
Proof. unfold ends_with, vector_item_meta_key. by rewrite <-str_app_assoc, strip_suffix_app. Qed.

Lemma strip_suffix_Some p s r : strip_suffix p s = Some r → s = r +:+ p.
Proof.
  revert r. induction s as [|b s IH]; intros r; cbn [strip_suffix]; case_decide as E.
  - by intros [= <-].
  - done.
  - by intros [= <-].
  - destruct (strip_suffix p s) as [r'|]; [|done]. intros [= <-]. rewrite str_app_cons. f_equal. by apply IH.
Qed.

Lemma chunk_key_kind collection id k :
  ends_with (vector_item_chunk_key collection id k) "/meta" = false ∧
  contains_str (vector_item_chunk_key collection id k) "/chunks/" = true.
Proof.
  unfold vector_item_chunk_key, vector_item_chunks_prefix. split.
  - unfold ends_with. destruct (strip_suffix _ _) as [r|] eqn:E; [|done]. apply strip_suffix_Some in E.
    apply (f_equal last_char) in E. destruct (dec_last k) as (d & Hd & Hr).
    assert (dec k ≠ "") by (intros Hn; by rewrite Hn in Hd).
    rewrite !last_char_app, Hd in E by done. injection E as E. apply (f_equal Ascii.N_of_ascii) in E.
    pose proof (dec_digit_spec d Hr) as Hs. rewrite E in Hs. assert (Z.of_N (Ascii.N_of_ascii "a") = 97%Z) by done. lia.
  - rewrite <-str_app_assoc, str_app_assoc. apply contains_str_app.
Qed.

(** * Gathering *)

Definition of_item (collection id : string) (e : RecordEntry) : bool :=
  bool_decide (vector_item_id_from_record_key collection (entry_key e) = Some id).

Definition noted (records : list RecordEntry) : PendingVectorItem :=
  foldl (λ item e, note_record e item) pending_default records.

Lemma gather_lookup collection id records :
  gather_items collection records !! id =
  match List.filter (of_item collection id) records with [] => None | l => Some (noted l) end.
Proof.
  unfold gather_items.
  assert (∀ l items, foldl (gather_record collection) items l !! id =
    match List.filter (of_item collection id) l with
    | [] => items !! id
    | k => Some (foldl (λ item e, note_record e item) (default pending_default (items !! id)) k)
    end) as Hl.
  { clear records. induction l as [|e l IH]; intros items; [done|]. cbn [foldl List.filter]. rewrite IH. unfold gather_record, of_item.
    destruct (vector_item_id_from_record_key collection (entry_key e)) as [n|] eqn:E; cbn [bool_decide].
    - destruct (decide (n = id)) as [->|Hn].
      + rewrite bool_decide_eq_true_2 by done. rewrite lookup_insert_eq. by destruct (List.filter _ _).
      + rewrite bool_decide_eq_false_2 by congruence. by rewrite lookup_insert_ne by done.
    - by rewrite bool_decide_eq_false_2 by done. }
  rewrite Hl. by destruct (List.filter _ _).
Qed.

(** The items are settled one by one. *)
Definition item_entry (config : VectorCollectionConfig) (id : string) (item : PendingVectorItem) : option VectorCacheEntry :=
  meta ← pv_meta item;
  if pv_malformed item || negb (bool_decide (vm_id meta = id)) || vm_deleted meta then None
  else match assemble_complete_vector_item config meta (pv_chunks item) with Ok e => Some e | Err _ => None end.

Lemma settle_item_entries config c p id :
  vc_entries (settle_item config c p) !! id =
  if bool_decide (p.1 = id) then match item_entry config id p.2 with Some e => Some e | None => vc_entries c !! id end
  else vc_entries c !! id.
Proof.
  destruct p as [n item]. unfold settle_item, item_entry. cbn [fst snd]. destruct (pv_meta item) as [meta|]; [|by case_bool_decide].
  cbn [mbind option_bind].
  destruct (decide (vm_id meta = n)) as [E|E].
  - rewrite (bool_decide_eq_true_2 (vm_id meta = n)) by done. cbn [negb]. rewrite orb_false_r.
    case_bool_decide as Hn; [subst n; rewrite <-Hn in *; rewrite (bool_decide_eq_true_2 (vm_id meta = vm_id meta)) by done|];
      cbn [negb]; rewrite ?orb_false_r;
      (destruct (pv_malformed item); [done|]); (destruct (vm_deleted meta); [done|]); cbn [orb];
      (destruct (assemble_complete_vector_item config meta (pv_chunks item)) as [e|err]; [|done]); cbn [vc_entries add_entry].
    + by rewrite lookup_insert_eq.
    + by rewrite lookup_insert_ne by congruence.
  - rewrite (bool_decide_eq_false_2 (vm_id meta = n)) by done. rewrite orb_true_r. case_bool_decide as Hn; [|done].
    subst n. rewrite bool_decide_eq_false_2 by done. by rewrite orb_true_r.
Qed.

Lemma assemble_entries collection config records h id :
  vc_entries (assemble_vector_collection_cache collection config records h) !! id =
  item ← gather_items collection records !! id; item_entry config id item.
Proof.
  unfold assemble_vector_collection_cache. set (g := gather_items collection records).
  assert (∀ l c, NoDup l.*1 → vc_entries (foldl (settle_item config) c l) !! id =
    match list_to_map (M := gmap string _) l !! id ≫= item_entry config id with Some e => Some e | None => vc_entries c !! id end) as Hl.
  { induction l as [|[n item] l IH]; intros c Hnd; [done|]. apply NoDup_cons in Hnd as [Hn Hnd]. cbn [foldl].
    rewrite IH by done. rewrite settle_item_entries. cbn [fst snd].
    change (list_to_map ((n, item) :: l)) with (<[n := item]> (list_to_map l : gmap string PendingVectorItem)).
    case_bool_decide as E.
    - subst n. rewrite lookup_insert_eq, not_elem_of_list_to_map_1 by done. done.
    - by rewrite lookup_insert_ne by done. }
  rewrite Hl by apply btree_keys_NoDup. rewrite btree_list_to_map. cbn [vc_entries]. rewrite lookup_empty. by destruct (_ ≫= _).
Qed.

(** * What is served is whole *)

Lemma noted_snoc l e : noted (l ++ [e]) = note_record e (noted l).
Proof. unfold noted. by rewrite foldl_app. Qed.

Lemma noted_from l :
  (∀ m, pv_meta (noted l) = Some m → ∃ r, r ∈ l ∧ item_meta_from_record r = Ok m) ∧
  (∀ k h p, pv_chunks (noted l) !! k = Some (h, p) → vh_chunk_index h = k ∧ ∃ r, r ∈ l ∧ chunk_from_record r = Ok (h, p)).
Proof.
  induction l as [|e l [IHm IHc]] using rev_ind; [split; [done|intros k h p Hk; exact (False_ind _ (lookup_empty_Some k (h, p) Hk))]|].
  rewrite noted_snoc. unfold note_record.
  assert (∀ m, pv_meta (noted l) = Some m → ∃ r, r ∈ l ++ [e] ∧ item_meta_from_record r = Ok m) as Hm
    by (intros m Em; destruct (IHm m Em) as (r & Hr & ?); exists r; split; [set_solver|done]).
  assert (∀ k h p, pv_chunks (noted l) !! k = Some (h, p) →
    vh_chunk_index h = k ∧ ∃ r, r ∈ l ++ [e] ∧ chunk_from_record r = Ok (h, p)) as Hc
    by (intros k h p Ek; destruct (IHc k h p Ek) as (? & r & Hr & ?); split; [done|]; exists r; split; [set_solver|done]).
  destruct (ends_with _ _); [|destruct (contains_str _ _); [|done]].
  - destruct (item_meta_from_record e) as [m0|err] eqn:E; cbn [pv_meta pv_chunks]; [|done]. split; [|done].
    intros m [= <-]. exists e. split; [set_solver|done].
  - destruct (chunk_from_record e) as [[h0 p0]|err] eqn:E; cbn [pv_meta pv_chunks]; [|done]. split; [done|].
    intros k h p [[<- [= <- <-]]|[_ Hk]]%lookup_insert_Some; [|by apply Hc]. split; [done|]. exists e. split; [set_solver|done].
Qed.

Lemma join_payloads_spec fuel meta chunks index bytes out :
  join_payloads fuel meta chunks index bytes = Ok out →
  ∃ ps, out = bytes ++ concat ps ∧ (len ps = Z.max 0 (vm_chunk_count meta - index))%Z ∧
    ∀ j p, ps !! j = Some p → ∃ h, chunks !! (index + Z.of_nat j)%Z = Some (h, p) ∧
      vh_write_id h = vm_write_id meta ∧ vh_checksum h = checksum_bytes p.
Proof.
  revert index bytes. induction fuel as [|fuel IH]; intros index bytes; cbn [join_payloads];
    destruct (Z.leb_spec (vm_chunk_count meta) index) as [Hle|Hgt].
  1, 3: intros <-%ok_inj; exists []; rewrite app_nil_r; split_and!; [done|unfold len; simpl; lia|done].
  { done. }
  destruct (chunks !! index) as [[h p]|] eqn:Ec; [|done].
  destruct (negb _ || _ || _ || _ || _) eqn:Eb; [done|]. rewrite !orb_false_iff, !negb_false_iff, !bool_decide_eq_true, !Z.eqb_eq in Eb.
  destruct Eb as [[[[Hw Hi] _] _] Hck]. intros (ps & -> & Hlen & Hps)%IH. exists (p :: ps).
  split_and!; [by rewrite <-app_assoc|unfold len in *; simpl; lia|].
  intros [|j] q Hq.
  - injection Hq as <-. exists h. rewrite Z.add_0_r. done.
  - destruct (Hps j q Hq) as (h' & Hc & Hr). exists h'. split; [|done]. rewrite <-Hc. f_equal. lia.
Qed.

(** C33: A vector that a collection serves is whole: its metadata record belongs to it and is
not a deletion, its chunks are all there, all of them from the write that the metadata
names, and together they have the checksum it states and decode to the vector served.
Records of different writes, which replication may mix, are never put together. *)
Theorem vector_whole collection config records h id e :
  vc_entries (assemble_vector_collection_cache collection config records h) !! id = Some e →
  ∃ r m ps, r ∈ records ∧ item_meta_from_record r = Ok m ∧ vm_id m = id ∧ vm_deleted m = false ∧
    len ps = Z.max 0 (vm_chunk_count m) ∧
    (∀ k p, ps !! k = Some p → ∃ r' h', r' ∈ records ∧ of_item collection id r' = true ∧
      chunk_from_record r' = Ok (h', p) ∧ vh_write_id h' = vm_write_id m ∧ vh_chunk_index h' = Z.of_nat k) ∧
    checksum_bytes (concat ps) = vm_checksum m ∧ decode_f32_le (concat ps) = Ok (ve_vector e) ∧
    validate_vector (ve_vector e) (v_dim config) = Ok tt ∧
    ve_metadata e = vm_metadata m ∧ ve_write_id e = vm_write_id m ∧ ve_checksum e = vm_checksum m.
Proof.
  rewrite assemble_entries, gather_lookup. set (l := List.filter (of_item collection id) records). intros He.
  assert (item_entry config id (noted l) = Some e) as Hi by (by destruct l). clear He. revert Hi.
  assert (∀ r, r ∈ l → r ∈ records ∧ of_item collection id r = true) as Hl
    by (intros r; unfold l; rewrite !list_elem_of_In; apply filter_In).
  destruct (noted_from l) as [Hm Hc]. unfold item_entry. destruct (pv_meta (noted l)) as [m|]; [|done]. cbn [mbind option_bind].
  destruct (_ || _) eqn:Eb; [done|]. rewrite !orb_false_iff, negb_false_iff, bool_decide_eq_true in Eb. destruct Eb as [[_ Hid] Hdel].
  destruct (Hm m eq_refl) as (r & Hr & Hrm). unfold assemble_complete_vector_item.
  destruct (_ || (vm_chunk_count m =? 0)%Z || _) eqn:Eb; [done|].
  rewrite !orb_false_iff, !negb_false_iff, Z.eqb_neq in Eb. destruct Eb as [[[_ _] Hcount] _].
  destruct (join_payloads _ m _ 0 []) as [bytes|] eqn:Ej; [|done]. cbn [mbind result_bind].
  destruct (_ || _) eqn:Eb; [done|]. rewrite orb_false_iff, !negb_false_iff, bool_decide_eq_true in Eb. destruct Eb as [_ Hck].
  destruct (decode_f32_le bytes) as [v|] eqn:Ed; [|done]. cbn [mbind result_bind].
  destruct (validate_vector v (v_dim config)) as [[]|] eqn:Ev; [|done]. cbn [mbind result_bind]. intros [= <-].
  apply join_payloads_spec in Ej as (ps & Eb & Hlen & Hps). rewrite app_nil_l in Eb. subst bytes.
  exists r, m, ps. cbn [ve_vector ve_metadata ve_write_id ve_checksum]. split_and!; try done; [by apply Hl| |].
  - rewrite Hlen. f_equal. lia.
  - intros k p Hk. destruct (Hps k p Hk) as (h' & Hch & Hw & _). apply Hc in Hch as (Hix & r' & Hr' & Hf).
    exists r', h'. destruct (Hl r' Hr'). by split_and!.
Qed.

(** * What is put is served *)

Definition put_entries (ms : list RecordMutation) : list RecordEntry :=
  omap (λ m, match m with MPut k v => Some (mkRecordEntry k v) | _ => None end) ms.

(** The record of one chunk. *)
Definition chunk_header (w : string) (size count : Z) (k : nat) (p : list Z) : VectorChunkHeader :=
  mkChunkHeader w (Z.of_nat k) count (Z.of_nat k * size) (checksum_bytes p).

Definition is_chunk (collection id w : string) (size count : Z) (k : nat) (p : list Z) (e : RecordEntry) : Prop :=
  ∃ b, encode_vector_chunk (chunk_header w size count k p) p = Ok b ∧
    e = mkRecordEntry (vector_item_chunk_key collection id (Z.of_nat k)) (RBytes b).

Lemma chunk_mutations_spec collection id w size count from ps ms :
  chunk_mutations collection id w size count (Z.of_nat from) ps = Ok ms →
  Forall2 (λ '(k, p) e, is_chunk collection id w size count k p e) (zip (seq from (length ps)) ps) (put_entries ms).
Proof.
  revert from ms. induction ps as [|p ps IH]; intros from ms; [by intros <-%ok_inj; constructor|]. cbn [chunk_mutations].
  unfold chunk_mutation. destruct (encode_vector_chunk _ p) as [b|] eqn:Eb; [|done]. cbn [mbind result_bind].
  replace (Z.of_nat from + 1)%Z with (Z.of_nat (S from)) by lia.
  destruct (chunk_mutations _ _ _ _ _ (Z.of_nat (S from)) ps) as [rest|] eqn:Er; [|done]. cbn [mbind result_bind].
  intros <-%ok_inj. cbn [length seq zip_with]. constructor; [|by apply IH]. by exists b.
Qed.

Lemma note_chunk collection id w size count k p e item :
  is_chunk collection id w size count k p e →
  note_record e item = mkPending (pv_meta item)
    (<[Z.of_nat k := (chunk_header w size count k p, p)]> (pv_chunks item)) (pv_malformed item).
Proof.
  intros (b & Hb & ->). unfold note_record. cbn [entry_key].
  destruct (chunk_key_kind collection id (Z.of_nat k)) as [-> ->]. unfold chunk_from_record. cbn [entry_value].
  by rewrite (chunk_roundtrip_bytes _ _ _ Hb).
Qed.

Lemma note_meta collection id m j item : meta_to_value m = Ok j →
  note_record (mkRecordEntry (vector_item_meta_key collection id) (RJson j)) item =
    mkPending (Some m) (pv_chunks item) (pv_malformed item).
Proof.
  intros Hj. unfold note_record. cbn [entry_key]. rewrite meta_key_ends. unfold item_meta_from_record. cbn [entry_value].
  by rewrite (meta_back _ _ Hj).
Qed.

(** The records of a write, in any order, give its metadata and its chunks. *)
Lemma noted_write collection id w size count m j (ps : list (list Z)) l : meta_to_value m = Ok j →
  (∀ e, e ∈ l → e = mkRecordEntry (vector_item_meta_key collection id) (RJson j) ∨
     ∃ k p, ps !! k = Some p ∧ is_chunk collection id w size count k p e) →
  pv_malformed (noted l) = false ∧
  (mkRecordEntry (vector_item_meta_key collection id) (RJson j) ∈ l → pv_meta (noted l) = Some m) ∧
  (∀ k p, ps !! k = Some p → (∃ e, e ∈ l ∧ is_chunk collection id w size count k p e) →
     pv_chunks (noted l) !! Z.of_nat k = Some (chunk_header w size count k p, p)).
Proof.
  intros Hj. induction l as [|e l IH] using rev_ind; intros Hl.
  { split_and!; [done|by intros ?%not_elem_of_nil|by intros k p _ (e & ?%not_elem_of_nil & _)]. }
  destruct IH as (Hb & Hm & Hc); [intros e' He'; apply Hl; set_solver|]. rewrite noted_snoc.
  destruct (Hl e) as [->|(k0 & p0 & Hk0 & He)]; [set_solver| |].
  - rewrite (note_meta collection id m j) by done. cbn [pv_malformed pv_meta pv_chunks]. split_and!; [done|done|].
    intros k p Hk (e & He & Hch). apply (Hc k p Hk). exists e. split; [|done].
    apply elem_of_app in He as [|He]; [done|]. apply list_elem_of_singleton in He as ->.
    by destruct Hch as (b & _ & [=]).
  - rewrite (note_chunk collection id w size count k0 p0) by done. cbn [pv_malformed pv_meta pv_chunks]. split_and!; [done| |].
    + intros He'. apply Hm. apply elem_of_app in He' as [|He']; [done|]. apply list_elem_of_singleton in He'. subst e.
      by destruct He as (b & _ & [=]).
    + intros k p Hk (e' & He' & Hch). destruct (decide (k = k0)) as [->|Hne].
      * rewrite lookup_insert_eq. by simplify_eq.
      * rewrite lookup_insert_ne by lia. apply (Hc k p Hk). exists e'. split; [|done].
        apply elem_of_app in He' as [|He']; [done|]. apply list_elem_of_singleton in He' as ->.
        destruct He as (b & Hb0 & ->), Hch as (b' & Hb' & [= _ ->]). apply chunk_roundtrip_bytes in Hb0, Hb'.
        rewrite Hb0 in Hb'. apply (f_equal (λ r, match r with Ok q => vh_chunk_index q.1 | Err _ => 0%Z end)) in Hb'.
        cbn [vh_chunk_index chunk_header fst] in Hb'. exfalso. lia.
Qed.

Lemma join_write w size count meta (ps : list (list Z)) chunks :
  vm_write_id meta = w → vm_chunk_count meta = count → count = len ps →
  (∀ k p, ps !! k = Some p → chunks !! Z.of_nat k = Some (chunk_header w size count k p, p)) →
  (∀ k, k < length ps → len (concat (take k ps)) = (Z.of_nat k * size)%Z) →
  ∀ fuel k, k ≤ length ps → length ps ≤ k + fuel →
  join_payloads fuel meta chunks (Z.of_nat k) (concat (take k ps)) = Ok (concat ps).
Proof.
  intros Hw Hcount Hlen Hc Hoff fuel. unfold len in Hlen. induction fuel as [|fuel IH]; intros k Hk Hf; cbn [join_payloads].
  { rewrite (proj2 (Z.leb_le _ _)) by lia. by rewrite take_ge by lia. }
  destruct (Z.leb_spec (vm_chunk_count meta) (Z.of_nat k)) as [Hle|Hgt]; [by rewrite take_ge by lia|].
  destruct (lookup_lt_is_Some_2 ps k ltac:(lia)) as [p Hp]. rewrite (Hc k p Hp). unfold chunk_header.
  cbn [vh_write_id vh_chunk_index vh_chunk_count vh_byte_offset vh_checksum].
  rewrite (Hoff k) by (by apply lookup_lt_Some in Hp). rewrite Hw, Hcount, !bool_decide_eq_true_2, !Z.eqb_refl by done.
  cbn [negb orb]. replace (Z.of_nat k + 1)%Z with (Z.of_nat (S k)) by lia.
  replace (concat (take k ps) ++ p) with (concat (take (S k) ps)); [apply IH; lia|].
  rewrite (take_S_r _ _ _ Hp), concat_app. simpl. by rewrite app_nil_r.
Qed.

Lemma chunks_enough (ps : list (list Z)) (chunks : gmap Z (VectorChunkHeader * list Z)) :
  (∀ k, k < length ps → is_Some (chunks !! Z.of_nat k)) → length ps ≤ size chunks.
Proof.
  intros Hc. rewrite <-size_dom. transitivity (size (list_to_set (Z.of_nat <$> seq 0 (length ps)) : gset Z)).
  - rewrite size_list_to_set; [by rewrite length_fmap, length_seq|]. apply NoDup_fmap; [apply _|apply NoDup_seq].
  - apply subseteq_size. intros z Hz. apply elem_of_list_to_set, list_elem_of_fmap in Hz as (k & -> & Hk).
    apply elem_of_seq in Hk. apply elem_of_dom, Hc. lia.
Qed.

(** The number of chunks that is stated is the number of pieces there are. *)
Lemma chunk_count_pieces (bytes : list Z) (size : Z) : (0 < size)%Z → bytes ≠ [] →
  chunk_count_of bytes size = len (pieces (Z.to_nat size) bytes) ∧ (0 < len (pieces (Z.to_nat size) bytes))%Z.
Proof.
  intros Hs Hb. assert (len (pieces (Z.to_nat size) bytes) = (len bytes + size - 1) / size)%Z as E.
  { unfold len, pieces. rewrite pieces_of_length by lia. by rewrite Z2Nat.id by lia. }
  assert (0 < len bytes)%Z by (destruct bytes; [done|unfold len; simpl; lia]).
  assert (0 < (len bytes + size - 1) / size)%Z by (apply Z.div_str_pos; lia).
  unfold chunk_count_of. rewrite E. lia.
Qed.

(** The records written are the metadata and the chunks of the pieces. *)
Lemma written_records collection id w size count ps cs :
  Forall2 (λ '(k, p) e, is_chunk collection id w size count k p e) (zip (seq 0 (length ps)) ps) (put_entries cs) →
  (∀ k p, ps !! k = Some p → ∃ e, e ∈ put_entries cs ∧ is_chunk collection id w size count k p e) ∧
  (∀ e, e ∈ put_entries cs → ∃ k p, ps !! k = Some p ∧ is_chunk collection id w size count k p e).
Proof.
  intros Hc. split.
  - intros k p Hk. assert (zip (seq 0 (length ps)) ps !! k = Some (k, p)) as Hz.
    { rewrite lookup_zip_with, Hk, lookup_seq_lt; [done|by apply lookup_lt_Some in Hk]. }
    destruct (Forall2_lookup_l _ _ _ _ _ Hc Hz) as (e & He & Hch). exists e. split; [|done]. by eapply list_elem_of_lookup_2.
  - intros e He. apply list_elem_of_lookup in He as [k Hk]. destruct (Forall2_lookup_r _ _ _ _ _ Hc Hk) as ([k' p] & Hz & Hch).
    exists k', p. split; [|done]. apply lookup_zip_with_Some in Hz as (k1 & p1 & [= -> ->] & Hs & Hp).
    apply lookup_seq in Hs as [-> _]. done.
Qed.

(** A pending item with the metadata and the chunks of a write is the vector written. *)
Lemma item_entry_write config id w v metadata now item :
  let bytes := encode_f32_le v in
  let size := Z.max (chunk_bytes config) 1 in
  let ps := pieces (Z.to_nat size) bytes in
  Forall is_f32 v → validate_collection_config config = Ok tt → validate_vector v (v_dim config) = Ok tt →
  (len bytes ≤ u64_max)%Z →
  pv_malformed item = false → pv_meta item = Some (item_meta config id w bytes metadata now) →
  (∀ k p, ps !! k = Some p → pv_chunks item !! Z.of_nat k = Some (chunk_header w size (chunk_count_of bytes size) k p, p)) →
  item_entry config id item = Some (mkVectorEntry v metadata w (checksum_bytes bytes)).
Proof.
  intros bytes size ps Hv Hconfig Hvalid Hmax Hmal Hmeta Hall.
  assert (len v = v_dim config) as Hdim.
  { unfold validate_vector in Hvalid. destruct (Z.eqb_spec (len v) (v_dim config)); [done|discriminate Hvalid]. }
  assert (v_dim config ≠ 0%Z) as Hdim0 by (unfold validate_collection_config in Hconfig; destruct (Z.eqb_spec (v_dim config) 0); done).
  assert (len bytes = v_dim config * 4)%Z as Hbytes by (unfold bytes, len in *; rewrite encode_f32_length; lia).
  destruct (chunk_count_pieces bytes size) as [Hcount Hpos]; [lia|intros E; rewrite E in Hbytes; unfold len in *; simpl in *; lia|].
  unfold item_entry. rewrite Hmeta, Hmal. cbn [mbind option_bind vm_id vm_deleted item_meta].
  rewrite bool_decide_eq_true_2 by done. cbn [negb orb].
  unfold assemble_complete_vector_item. cbn [vm_dim vm_encoding vm_chunk_count vm_byte_length item_meta].
  rewrite Z.eqb_refl, bool_decide_eq_true_2 by done. fold size.
  rewrite (proj2 (Z.eqb_neq (chunk_count_of bytes size) 0)) by lia. rewrite <-Hbytes, Z.min_r, Z.eqb_refl by done. cbn [negb orb].
  change 0%Z with (Z.of_nat 0). change (@nil Z) with (concat (take 0 ps)).
  rewrite (join_write w size (chunk_count_of bytes size)) with (ps := ps); [|done|done|done|done| |lia|].
  2: { intros k Hk. unfold len. unfold ps, pieces. rewrite pieces_of_offset by (done || lia). lia. }
  2: { apply chunks_enough. intros k Hk. destruct (lookup_lt_is_Some_2 ps k Hk) as [p Hp]. eauto. }
  cbn [mbind result_bind]. unfold ps. rewrite pieces_concat by lia. rewrite Z.eqb_refl.
  cbn [vm_checksum vm_metadata vm_write_id item_meta]. rewrite bool_decide_eq_true_2 by done. cbn [negb orb].
  unfold bytes. rewrite decode_encode_f32 by done. cbn [mbind result_bind]. by rewrite Hvalid.
Qed.

(** What [put_vector] writes is what the collection serves: when the records of an item
are those of one write, in whatever order they come and whatever else is stored, its
entry is the vector that was put, with its metadata, its write id and its checksum. *)
Lemma vector_roundtrip collection config id w v metadata now ms records h :
  Forall is_f32 v → validate_collection_config config = Ok tt → validate_vector v (v_dim config) = Ok tt →
  (len (encode_f32_le v) ≤ u64_max)%Z →
  vector_mutations config collection id w v metadata now = Ok ms →
  List.filter (of_item collection id) records ≡ₚ put_entries ms →
  vc_entries (assemble_vector_collection_cache collection config records h) !! id =
    Some (mkVectorEntry v metadata w (checksum_bytes (encode_f32_le v))).
Proof.
  intros Hv Hconfig Hvalid Hmax Hms Hrec. rewrite assemble_entries, gather_lookup. revert Hrec.
  generalize (List.filter (of_item collection id) records) as l. intros l Hl.
  unfold vector_mutations in Hms. set (m := item_meta config id w (encode_f32_le v) metadata now) in *.
  destruct (meta_to_value m) as [j|] eqn:Ej; [|done]. cbn [mbind result_bind] in Hms.
  destruct (chunk_mutations _ _ _ _ _ 0 _) as [cs|] eqn:Ec; [|done]. cbn [mbind result_bind] in Hms. apply ok_inj in Hms as <-.
  apply (chunk_mutations_spec _ _ _ _ _ 0), written_records in Ec as [Hin Hof].
  change (put_entries _) with (mkRecordEntry (vector_item_meta_key collection id) (RJson j) :: put_entries cs) in Hl.
  destruct (noted_write collection id w (Z.max (chunk_bytes config) 1)
    (chunk_count_of (encode_f32_le v) (Z.max (chunk_bytes config) 1)) m j
    (pieces (Z.to_nat (Z.max (chunk_bytes config) 1)) (encode_f32_le v)) l Ej) as (Hmal & Hmeta & Hchunks).
  { intros e He. rewrite Hl in He. apply elem_of_cons in He as [->|He]; [by left|right]. exact (Hof e He). }
  enough (item_entry config id (noted l) = Some (mkVectorEntry v metadata w (checksum_bytes (encode_f32_le v)))) as <-.
  { destruct l; [by apply Permutation_nil_cons in Hl|done]. }
  apply item_entry_write with now; try done; [apply Hmeta; rewrite Hl; left|].
  intros k p Hk. apply (Hchunks k p Hk). destruct (Hin k p Hk) as (e & He & Hch). exists e. split; [|done]. rewrite Hl. by right.
Qed.
(** * Search against sorting *)

Section search_laws.
Context `{Platform}.

Lemma candidates_keys cache query filter : NoDup (candidate_key <$> candidates_of cache query filter).
Proof.
  apply (NoDup_fmap_1 snd). rewrite <-list_fmap_compose. unfold candidates_of. rewrite <-list_fmap_compose.
  apply (sublist_NoDup _ (fst <$> btree_list (vc_entries cache))); [apply btree_keys_NoDup|].
  induction (btree_list (vc_entries cache)) as [|p l IH]; [done|]. cbn [List.filter].
  destruct (vector_filter_matches _ _ _); rewrite ?fmap_cons; [by apply sublist_skip|by apply sublist_cons].
Qed.

(** Exact search keeps the best matches in a bounded heap, and finds what sorting all
entries that pass the filter by distance, then by id, and keeping the first [limit]
would find, in that order.  A query of the wrong length or with a value that is no
number, and a limit of zero, are errors. *)
Lemma exact_search_reference cache query spec :
  exact_search cache query spec =
  _ ← validate_vector query (v_dim (vc_config cache));
  _ ← validate_search_spec spec;
  Ok (mkVectorResult
        (match_of spec <$> take (vs_limit spec) (merge_sort (by_key_le candidate_key) (candidates_of cache query (vs_filter spec))))
        true BExact (vc_state cache) (negb (bool_decide (vc_state cache = VReady))) None).
Proof.
  unfold exact_search. destruct (validate_vector _ _) as [[]|]; [|done]. cbn [mbind result_bind].
  unfold validate_search_spec. destruct (Nat.eqb_spec (vs_limit spec) 0) as [|Hl]; [done|]. cbn [mbind result_bind].
  by rewrite select_top_sorted by (lia || apply candidates_keys).
Qed.
End search_laws.

(** * The files of a cache *)

Definition entry_valid (dim : Z) (e : VectorCacheEntry) : Prop :=
  Forall is_f32 (ve_vector e) ∧ validate_vector (ve_vector e) dim = Ok tt ∧
  ve_checksum e = checksum_bytes (encode_f32_le (ve_vector e)).

Lemma len_fmap {A B} (f : A → B) l : len (f <$> l) = len l.
Proof. unfold len. by rewrite length_fmap. Qed.

Lemma validate_length v dim : validate_vector v dim = Ok tt → len v = dim.
Proof. unfold validate_vector. by destruct (Z.eqb_spec (len v) dim). Qed.

Lemma restore_written dim l acc : Forall (λ p, entry_valid dim p.2) l → NoDup l.*1 →
  restore_entries dim (cache_key <$> l) ((λ p, ve_metadata p.2) <$> l) (l ≫= λ p, encode_f32_le (ve_vector p.2)) acc =
    Ok (list_to_map l ∪ acc).
Proof.
  intros Hl. revert acc. induction Hl as [|[id e] l (Hf & Hv & Hc) Hl IH]; intros acc Hnd.
  { simpl. by rewrite (left_id_L ∅ (∪)). }
  cbn [snd] in Hf, Hv, Hc. apply NoDup_cons in Hnd as [Hn Hnd]. rewrite !fmap_cons, bind_cons. cbn [restore_entries fst snd].
  assert (Z.to_nat (dim * 4) = length (encode_f32_le (ve_vector e))) as El.
  { rewrite encode_f32_length. pose proof (validate_length _ _ Hv). unfold len in *. lia. }
  rewrite El, take_app_length, drop_app_length. unfold cache_key. cbn [ck_id ck_write_id ck_checksum fst snd].
  rewrite bool_decide_eq_true_2 by done. cbn [negb]. rewrite decode_encode_f32 by done. cbn [mbind result_bind]. rewrite Hv.
  cbn [mbind result_bind]. fold (cache_key <$> l). rewrite IH by done. f_equal.
  change (list_to_map ((id, e) :: l)) with (<[id := e]> (list_to_map l : gmap string VectorCacheEntry)).
  rewrite <-insert_union_r by (by apply not_elem_of_list_to_map_1). rewrite insert_union_l. by destruct e.
Qed.

(** Writing the files of a collection's cache and reading them back, while the records have
the same hash, gives the cache. *)
Lemma cache_files_roundtrip collection cache created_at files :
  map_Forall (λ _ e, entry_valid (v_dim (vc_config cache)) e) (vc_entries cache) →
  (0 ≤ v_dim (vc_config cache))%Z → (Z.of_nat (size (vc_entries cache)) * v_dim (vc_config cache) * 4 ≤ u64_max)%Z →
  build_vector_cache_files collection cache created_at = Ok files →
  collection_cache_from_cache_files (vc_config cache) files (vc_source_hash cache) =
    Ok (mkVectorCache (vc_config cache) (vc_entries cache) (vc_deleted_count cache) (vc_incomplete_count cache) VReady false
          (vc_source_hash cache)).
Proof.
  intros Hv Hdim Hmax. unfold build_vector_cache_files. set (l := btree_list (vc_entries cache)).
  assert (len l = Z.of_nat (size (vc_entries cache))) as Hlen.
  { unfold len, l. rewrite btree_list_perm. by rewrite length_map_to_list. }
  assert (Forall (λ p, entry_valid (v_dim (vc_config cache)) p.2) l) as Hl.
  { apply Forall_forall. intros [id e] He. apply elem_of_btree_list in He. exact (Hv id e He). }
  destruct (keys_to_vec _) as [keys|] eqn:Ek; [|done]. cbn [mbind result_bind].
  destruct (metadata_to_vec _) as [md|] eqn:Em; [|done]. cbn [mbind result_bind]. intros <-%ok_inj.
  unfold collection_cache_from_cache_files. cbn [vf_manifest mf_cache_format_version mf_dim mf_metric mf_source_hash mf_backend_version
    mf_backend mf_vector_count mf_deleted_count mf_incomplete_count keys_bin metadata_bin vectors_f32].
  rewrite !Z.eqb_refl, !bool_decide_eq_true_2 by done. cbn [negb orb]. rewrite (keys_back _ _ Ek), (metadata_back _ _ Em).
  cbn [mbind result_bind]. rewrite !len_fmap, !Z.eqb_refl. cbn [negb orb].
  unfold checked_mul. rewrite (proj2 (Z.leb_le (len l * _) _)) by lia. cbn [mbind option_bind]. rewrite (proj2 (Z.leb_le _ _)) by lia.
  assert (len (l ≫= λ p, encode_f32_le (ve_vector p.2)) = len l * v_dim (vc_config cache) * 4)%Z as Hbytes.
  { clear -Hl. induction Hl as [|p l (_ & Hv & _) _ IH]; [done|]. apply validate_length in Hv. unfold len in *.
    rewrite bind_cons, length_app, encode_f32_length. simpl. lia. }
  rewrite Hbytes, Z.eqb_refl. cbn [negb]. rewrite restore_written; [|done|apply btree_keys_NoDup]. cbn [mbind result_bind].
  unfold l. by rewrite btree_list_to_map, (right_id_L ∅ (∪)).
Qed.
End laws.

(** * A collection *)

Module Shelf.
Definition text_of (b : list Z) : string := String.string_of_list_ascii ((λ z, Ascii.ascii_of_N (Z.to_N z)) <$> b).

Lemma text_of_bytes s : text_of (ascii_bytes s) = s.
Proof.
  unfold text_of, ascii_bytes. rewrite <-list_fmap_compose. rewrite <-(String.string_of_list_ascii_of_string s) at 2. f_equal.
  induction (String.list_ascii_of_string s) as [|a l IH]; [done|]. rewrite fmap_cons, IH. f_equal. simpl.
  by rewrite N2Z.id, Ascii.ascii_N_embedding.
Qed.

(** A plain format: the numbers, the length of the first text, both texts. *)
Definition header_bytes (h : VectorChunkHeader) : list Z :=
  [vh_chunk_index h; vh_chunk_count h; vh_byte_offset h; len (ascii_bytes (vh_write_id h))]
  ++ ascii_bytes (vh_write_id h) ++ ascii_bytes (vh_checksum h).

Definition bytes_header (b : list Z) : result VectorChunkHeader :=
  match b with
  | i :: c :: o :: n :: rest => Ok (mkChunkHeader (text_of (take (Z.to_nat n) rest)) i c o (text_of (drop (Z.to_nat n) rest)))
  | _ => Err (Serde "short header")
  end.

Definition opt_json (o : option json) : json := match o with Some j => JArray [j] | None => JNull end.
Definition json_opt (j : json) : option json := match j with JArray [j] => Some j | _ => None end.

Definition meta_json (m : VectorItemMeta) : json :=
  JArray [JString (vm_id m); JString (vm_write_id m); JNumber (PosInt (vm_dim m)); JString (vm_encoding m);
          JNumber (PosInt (vm_byte_length m)); JString (vm_checksum m); JNumber (PosInt (vm_chunk_count m));
          opt_json (vm_metadata m); JBool (vm_deleted m); opt_json (JString <$> vm_updated_at m)].

Definition json_meta (j : json) : result VectorItemMeta :=
  match j with
  | JArray [JString i; JString w; JNumber (PosInt d); JString e; JNumber (PosInt l); JString c; JNumber (PosInt n); md; JBool b; u] =>
      Ok (mkItemMeta i w d e l c n (json_opt md) b (match json_opt u with Some (JString s) => Some s | _ => None end))
  | _ => Err (Serde "not an item")
  end.

#[export] Instance plain : VectorWireFormat := {|
  blake3_bytes := λ b, dec (foldr Z.add 0%Z b);
  header_to_vec := λ h, Ok (header_bytes h);
  header_from_slice := bytes_header;
  meta_to_value := λ m, Ok (meta_json m);
  meta_from_value := json_meta;
  config_to_value := λ c, Ok (JNumber (PosInt (v_dim c)));
  config_from_value := λ j, match j with JNumber (PosInt d) => Ok (mkVectorConfig d L2 None None 4) | _ => Err (Serde "not a config") end;
  keys_to_vec := λ l, match l with [] => Ok [] | _ => Err (Serde "no table") end;
  keys_from_slice := λ _, Ok [];
  metadata_to_vec := λ l, match l with [] => Ok [] | _ => Err (Serde "no table") end;
  metadata_from_slice := λ _, Ok [];
  record_value_to_vec := λ _, Ok []
|}.

#[export] Instance plain_laws : VectorWireLaws.
Proof.
  split.
  - intros h b <-%ok_inj. simpl. unfold header_bytes, bytes_header. cbn [app]. unfold len. rewrite Nat2Z.id, take_app_length, drop_app_length.
    rewrite !text_of_bytes. by destruct h.
  - intros m j <-%ok_inj. simpl. unfold json_meta, meta_json. destruct m as [? ? ? ? ? ? ? [] ? []]; done.
  - intros [|k l] b; [by intros <-%ok_inj|done].
  - intros [|k l] b; [by intros <-%ok_inj|done].
Qed.

Definition square : VectorCollectionConfig := mkVectorConfig 2 L2 None None 4.
Definition point : list f32 := [f32_one; f32_half].
Definition other : list f32 := [f32_half; f32_half].

Definition written (w : string) (v : list f32) : list RecordMutation :=
  match vector_mutations square "c" "p" w v (Some (JString "note")) 5 with Ok ms => ms | Err _ => [] end.

Definition shelf : list RecordEntry := mkRecordEntry "other/key" (RJson JNull) :: reverse (put_entries (written "r:1" point)).

Lemma vector_roundtrip_witness :
  vc_entries (assemble_vector_collection_cache "c" square shelf "h") !! "p" =
    Some (mkVectorEntry point (Some (JString "note")) "r:1" (checksum_bytes (encode_f32_le point))).
Proof.
  apply (vector_roundtrip "c" square "p" "r:1" point (Some (JString "note")) 5 (written "r:1" point) shelf "h").
  - unfold point, f32_one, f32_half, is_f32. repeat constructor; lia.
  - done.
  - by vm_compute.
  - by vm_compute.
  - by vm_compute.
  - assert (List.filter (of_item "c" "p") shelf = reverse (put_entries (written "r:1" point))) as -> by (by vm_compute).
    apply reverse_Permutation.
Defined.

Lemma vector_whole_witness :
  ∃ m, vm_write_id m = "r:1" ∧ vm_chunk_count m = 2%Z.
Proof.
  destruct (vector_whole "c" square shelf "h" "p" (mkVectorEntry point (Some (JString "note")) "r:1" (checksum_bytes (encode_f32_le point))))
    as (r & m & ps & Hr & Hm & _ & _ & _ & _ & _ & _ & _ & _ & Hw & _); [by vm_compute|].
  exists m. split; [exact (eq_sym Hw)|].
  assert (Forall (λ r, match item_meta_from_record r with Ok m => vm_chunk_count m = 2%Z | Err _ => True end) shelf) as Hs
    by (repeat constructor).
  rewrite Forall_forall in Hs. specialize (Hs r Hr). rewrite Hm in Hs. exact Hs.
Defined.

(** Two writes of one vector, by replicas that do not know of each other, are merged record
by record.  When the metadata of one meets a chunk of the other, the vector is served by
neither replica until it is written again. *)
Definition mixed : list RecordEntry :=
  take 2 (put_entries (written "r:1" point)) ++ drop 2 (put_entries (written "s:1" other)).

Lemma concurrent_writes_unreadable :
  let c := assemble_vector_collection_cache "c" square mixed "h" in
  vc_entries c = ∅ ∧ vc_incomplete_count c = 1%Z.
Proof. by vm_compute. Qed.
End Shelf.
