(* ===== verification/Scan.v ===== *)
(** Listing the children of a path ([map_at], [scan_at] of [src/src/db.rs]) and the
lexical scan with its selection of keys, against what reading the children answers. *)
From stdpp Require Import base gmap sets list strings sorting.
From Stdlib Require Import ZArith Lia.
From S2P Require Import Prelude Clock Value Crdt Merge OpQueue RelIndex Paths Records Keys Engine Input Inner Read View Query Traversal InnerWf Tx Db SessionAuth Protocol.

Section scan.
Context `{Codec, Env}.

(** A listing that ran within its fuel; it always does ([map_at_view]). *)
Definition listed {A} (r : Inner * option (list A)) : Inner * list A := (r.1, default [] r.2).

(** The loop over a node's fields in [map_node]. *)
Definition map_field (node : NodeId) (p : string * FieldState) (i : Inner) : Inner * option MapEntry :=
  let r := materialize_field (read_fuel i) node p.1 (value p.2) i in
  (r.1, mkEntry p.1 <$> r.2).

Definition map_node (node : NodeId) (i : Inner) : Inner * option (list MapEntry) :=
  let i := (maybe_load_node node i).1 in
  match nodes i !! node with
  | Some state => thread (map_field node) (btree_list (fields state)) i
  | None => (i, Some [])
  end.

Definition map_member (m : NodeId) (i : Inner) : Inner * option MapEntry :=
  let r := materialize_node (read_fuel i) m ∅ i in
  (r.1, mkEntry m <$> r.2).

Definition map_at (a : NodeId) (segs : list string) : M (list MapEntry) :=
  c ← resolve_cursor a segs;
  match c with
  | Some (CNode node) => embed (λ i, listed (map_node node i))
  | Some (CField node field) => embed (λ i,
      match field_of i node field with
      | None => (i, [])
      | Some (FLink target) => listed (map_node target i)
      | Some (FSet set) => listed (thread map_member (btree_keys (members set)) i)
      | Some (FScalar _) | Some (FBytes _) | Some (FBlob _) => (i, [])
      end)
  | None => mret []
  end.

Definition lex_key_matches (key : string) (spec : LexSpec) : bool :=
  if (match lex_prefix spec with Some p => negb (starts_with key p) | None => false end) then false
  else if (match lex_start_at spec with Some s => ltb key s | None => false end) then false
  else if (match lex_start_after spec with Some s => leb key s | None => false end) then false
  else if (match lex_end_at spec with Some e => ltb e key | None => false end) then false
  else if (match lex_end_before spec with Some e => leb e key | None => false end) then false
  else true.

Definition lex_child_path (base key : string) : string :=
  if decide (base = "") then key else base +:+ "." +:+ key.

(** An entry and what the scan finds below it. *)
Definition lex_item (path key : string) (r : Inner * option json)
    (below : Inner → Inner * option (list LexEntry)) : Inner * option (list LexEntry) :=
  match r with
  | (i, None) => (i, None)
  | (i, Some v) =>
      let s := below i in (s.1, cons (mkLexEntry path key v) <$> s.2)
  end.

Definition concat_items (r : Inner * option (list (list LexEntry))) : Inner * option (list LexEntry) :=
  (r.1, (λ ls, List.concat ls) <$> r.2).

(** [collect_lex_from_node]; [more] is [remaining_depth - 1]. *)
Fixpoint collect_lex_from_node (spec : LexSpec) (more : nat) (node : NodeId) (base : string) (i : Inner)
    : Inner * option (list LexEntry) :=
  let i := (maybe_load_node node i).1 in
  match nodes i !! node with
  | None => (i, Some [])
  | Some state =>
      concat_items (thread (λ p i,
        if negb (lex_key_matches p.1 spec) then (i, Some [])
        else
          let path := lex_child_path base p.1 in
          lex_item path p.1 (materialize_field (read_fuel i) node p.1 (value p.2) i) (λ i,
            match more with
            | O => (i, Some [])
            | S more =>
                if negb (lex_follow_links spec) then (i, Some [])
                else
                  match value p.2 with
                  | FLink target => collect_lex_from_node spec more target path i
                  | FSet set =>
                      concat_items (thread (λ m, collect_lex_from_node spec more m (path +:+ "." +:+ m))
                        (btree_keys (members set)) i)
                  | FScalar _ | FBytes _ | FBlob _ => (i, Some [])
                  end
            end)) (btree_list (fields state)) i)
  end.

Definition collect_lex_from_field (spec : LexSpec) (more : nat) (node field base : string) (i : Inner)
    : Inner * option (list LexEntry) :=
  let i := (maybe_load_node node i).1 in
  match field_of i node field with
  | None => (i, Some [])
  | Some (FLink target) => collect_lex_from_node spec more target base i
  | Some (FSet set) =>
      concat_items (thread (λ m i,
        if negb (lex_key_matches m spec) then (i, Some [])
        else
          let path := lex_child_path base m in
          lex_item path m (materialize_node (read_fuel i) m ∅ i) (λ i,
            match more with
            | O => (i, Some [])
            | S more =>
                if lex_follow_links spec then collect_lex_from_node spec more m path i else (i, Some [])
            end)) (btree_keys (members set)) i)
  | Some (FScalar _) | Some (FBytes _) | Some (FBlob _) => (i, Some [])
  end.

Definition lex_window (spec : LexSpec) (l : list LexEntry) : list LexEntry :=
  let l := if lex_reverse spec then reverse l else l in
  match lex_limit spec with Some n => take n l | None => l end.

Definition scan_at (a : NodeId) (segs : list string) (spec : LexSpec) : M (list LexEntry) :=
  c ← resolve_cursor a segs;
  let more := max (lex_depth spec) 1 - 1 in
  l ← match c with
      | Some (CNode node) => embed (λ i, listed (collect_lex_from_node spec more node (display_path a segs) i))
      | Some (CField node field) =>
          embed (λ i, listed (collect_lex_from_field spec more node field (display_path a segs) i))
      | None => mret []
      end;
  mret (lex_window spec l).

Context `{Laws : !EnvLaws}.

(** * Listings of a view *)

Abbreviation nodeview := (NodeId → option NodeState * result bool).

Definition view_child (U : nat) (v : nodeview) (n f : string) (fv : FieldValue) : option json :=
  view_field (λ m, view_json U v m ∅) n f fv.

Definition view_map_node (U : nat) (v : nodeview) (n : NodeId) : option (list MapEntry) :=
  match (v n).1 with
  | Some state => mapM (λ p, mkEntry p.1 <$> view_child U v n p.1 (value p.2)) (btree_list (fields state))
  | None => Some []
  end.

(** The entries behind a field. *)
Definition view_map_field (U : nat) (v : nodeview) (fv : option FieldValue) : option (list MapEntry) :=
  match fv with
  | Some (FLink target) => view_map_node U v target
  | Some (FSet set) => mapM (λ m, mkEntry m <$> view_json U v m ∅) (btree_keys (members set))
  | _ => Some []
  end.

Lemma reads_fmap {B C} U K v (f : Inner → Inner * option B) o (g : B → C) :
  reads U K v f o → reads U K v (λ i, ((f i).1, g <$> (f i).2)) (g <$> o).
Proof. intros Hf i Hi. destruct (Hf i Hi) as [<- H2]. done. Qed.

Lemma map_field_reads U K v n p :
  reads U K v (map_field n p) (mkEntry p.1 <$> view_child (S (size U)) v n p.1 (value p.2)).
Proof.
  intros i Hi. unfold map_field. rewrite (shows_fuel U K v i Hi).
  destruct (materialize_field_reads U K (S (size U)) n p.1 (value p.2) v i Hi) as [H1 H2]. simpl. by rewrite H1.
Qed.

Lemma map_node_reads U K v n : reads U K v (map_node n) (view_map_node (S (size U)) v n).
Proof.
  intros i Hi. unfold map_node, view_map_node. cbv zeta. rewrite (shows_nodes U K v n i Hi).
  pose proof (shows_load_keep U K v n i Hi) as H1. destruct (v n).1 as [state|]; [|done].
  apply (thread_reads U K v (map_field n)); [|done]. intros p _. apply map_field_reads.
Qed.

Lemma map_member_reads U K v m : reads U K v (map_member m) (mkEntry m <$> view_json (S (size U)) v m ∅).
Proof.
  intros i Hi. unfold map_member. rewrite (shows_fuel U K v i Hi).
  destruct (materialize_reads U K (S (size U)) m ∅ v i Hi) as [H1 H2]. cbn [fst snd]. by rewrite H1.
Qed.

Definition view_map (U : nat) (v : nodeview) (a : NodeId) (segs : list string) : result (list MapEntry) :=
  match view_cursor v a segs with
  | Err e => Err e
  | Ok None => Ok []
  | Ok (Some (CNode n)) => Ok (default [] (view_map_node U v n))
  | Ok (Some (CField n f)) =>
      Ok (default [] (view_map_field U v ((v n).1 ≫= λ st, value <$> fields st !! f)))
  end.

Lemma listed_reads {A} U K v (f : Inner → Inner * option (list A)) o :
  reads U K v f o → reads U K v (λ i, listed (f i)) (default [] o).
Proof. intros Hf i Hi. destruct (Hf i Hi) as [<- H2]. done. Qed.

(** The field a cursor names, once resolved. *)
Lemma field_of_shows U K v i n f :
  shows U ({[n]} ∪ K) v i → field_of i n f = (v n).1 ≫= λ st, value <$> fields st !! f.
Proof. intros Hi. unfold field_of. rewrite (proj2 (proj2 Hi) n) by set_solver. by destruct (v n).1. Qed.

Lemma map_at_pure U K v a segs : pureM U K v (map_at a segs) (view_map (S (size U)) v a segs).
Proof.
  intros i Hi. unfold map_at, view_map, mbind, M_bind.
  destruct (resolve_cursor_pure U K v a segs i Hi) as [H1 H2]. rewrite <-H1 in *.
  pose proof (shows_weaken U _ K v _ (union_subseteq_r _ _) H2) as HK.
  destruct (resolve_cursor a segs i) as [i1 [[[n|n f]|]|e]]; cbn [fst snd cursor_nodes] in *; [..|done|done]; unfold embed.
  - destruct (listed_reads U K v _ _ (map_node_reads U K v n) i1 HK) as [H3 H4]. cbv zeta. cbn [fst snd]. by rewrite H3.
  - rewrite (field_of_shows U K v i1 n f H2). unfold mbind, option_bind. destruct (v n).1 as [st|]; [|done].
    destruct (value <$> fields st !! f) as [[| | |target|set]|]; cbv zeta; cbn [fst snd view_map_field]; try done.
    + destruct (listed_reads U K v _ _ (map_node_reads U K v target) i1 HK) as [H3 H4]. by rewrite H3.
    + destruct (listed_reads U K v _ _ (thread_reads U K v map_member _ (btree_keys (members set)) (λ m _, map_member_reads U K v m)) i1 HK) as [H3 H4].
      by rewrite H3.
Qed.

(** * Scans of a view *)

(** The entries of a listing that a scan selects, under their paths. *)
Definition lex_select (spec : LexSpec) (base : string) (l : list MapEntry) : list LexEntry :=
  (λ e, mkLexEntry (lex_child_path base (map_key e)) (map_key e) (map_value e))
    <$> filter (λ e, lex_key_matches (map_key e) spec = true) l.

Definition view_lex (U : nat) (v : nodeview) (a : NodeId) (segs : list string) (spec : LexSpec) : result (list LexEntry) :=
  match view_map U v a segs with
  | Err e => Err e
  | Ok l => Ok (lex_window spec (lex_select spec (display_path a segs) l))
  end.

(** The scan of one child, when nothing below it is followed. *)
Definition lex_leaf (spec : LexSpec) (base key : string) (o : option json) : option (list LexEntry) :=
  if lex_key_matches key spec then (λ x, [mkLexEntry (lex_child_path base key) key x]) <$> o else Some [].

Lemma mapM_leaf {A} (key : A → string) (g : A → option json) spec base l :
  (∀ a, a ∈ l → is_Some (g a)) →
  (λ ls, List.concat ls) <$> mapM (λ a, lex_leaf spec base (key a) (g a)) l =
  lex_select spec base <$> mapM (λ a, mkEntry (key a) <$> g a) l.
Proof.
  unfold lex_select.
  induction l as [|a l IH]; intros Hg; [done|]. simpl in *.
  destruct (Hg a (list_elem_of_here _ _)) as [x Hx]. rewrite Hx. simpl.
  specialize (IH (λ a' Ha', Hg a' (list_elem_of_further _ _ _ Ha'))).
  assert (lex_leaf spec base (key a) (Some x) = Some (if lex_key_matches (key a) spec
    then [mkLexEntry (lex_child_path base (key a)) (key a) x] else [])) as -> by (unfold lex_leaf; by destruct (lex_key_matches _ _)).
  destruct (lex_key_matches (key a) spec) eqn:Hm; simpl;
    destruct (mapM (λ a, lex_leaf spec base (key a) (g a)) l); destruct (mapM (λ a, mkEntry (key a) <$> g a) l); simpl in *; try done.
  - rewrite filter_cons_True by done. injection IH as IH. f_equal. simpl. by f_equal.
  - rewrite filter_cons_False by (simpl; by rewrite Hm). done.
Qed.

Definition stays (spec : LexSpec) (more : nat) : Prop := more = 0 ∨ lex_follow_links spec = false.

Lemma lex_item_leaf U K v spec base key (f : Inner → Inner * option json) o below :
  reads U K v f o → (∀ i, below i = (i, Some [])) →
  reads U K v (λ i, if negb (lex_key_matches key spec) then (i, Some [])
                    else lex_item (lex_child_path base key) key (f i) below) (lex_leaf spec base key o).
Proof.
  intros Hf Hb i Hi. unfold lex_leaf. destruct (lex_key_matches key spec); [|done]. cbn [negb].
  destruct (Hf i Hi) as [<- H2]. unfold lex_item. destruct (f i) as [i1 [x|]]; [|done]. cbn [fst snd] in *. rewrite Hb. done.
Qed.

Lemma collect_node_reads U K v spec more n base i :
  stays spec more → shows U K v i →
  (collect_lex_from_node spec more n base i).2 =
    lex_select spec base <$> view_map_node (S (size U)) v n ∧
  shows U K v (collect_lex_from_node spec more n base i).1.
Proof.
  intros Hs Hi. destruct more; cbn [collect_lex_from_node]; cbv zeta; unfold view_map_node;
  rewrite (shows_nodes U K v n i Hi); pose proof (shows_load_keep U K v n i Hi) as H1;
  (destruct (v n).1 as [state|]; [|done]);
  match goal with |- context [concat_items (thread ?f ?l ?i1)] =>
    destruct (thread_reads U K v f (λ p, lex_leaf spec base p.1 (view_child (S (size U)) v n p.1 (value p.2))) l) with (i := i1) as [H2 H3] end;
  try done.
  - intros p _ j Hj. cbv zeta. rewrite (shows_fuel U K v j Hj).
    by apply (lex_item_leaf U K v spec base p.1 _ _ _ (materialize_field_reads U K _ n p.1 (value p.2) v)).
  - split; [|exact H3]. etransitivity; [exact (f_equal (fmap (λ ls, List.concat ls)) H2)|].
    apply mapM_leaf. intros p _. by eapply view_field_some.
  - intros p _ j Hj. cbv zeta. rewrite (shows_fuel U K v j Hj).
    apply (lex_item_leaf U K v spec base p.1 _ _ _ (materialize_field_reads U K _ n p.1 (value p.2) v)); [|done].
    intros i'. by destruct Hs as [?| ->].
  - split; [|exact H3]. etransitivity; [exact (f_equal (fmap (λ ls, List.concat ls)) H2)|].
    apply mapM_leaf. intros p _. by eapply view_field_some.
Qed.

Lemma collect_field_reads U K v spec more n f base i :
  stays spec more → shows U ({[n]} ∪ K) v i →
  (collect_lex_from_field spec more n f base i).2 =
    lex_select spec base <$> view_map_field (S (size U)) v ((v n).1 ≫= λ st, value <$> fields st !! f) ∧
  shows U K v (collect_lex_from_field spec more n f base i).1.
Proof.
  intros Hs Hi. unfold collect_lex_from_field. cbv zeta.
  pose proof (shows_load_keep U _ v n i Hi) as H1. rewrite (field_of_shows U K v _ n f H1).
  pose proof (shows_weaken U _ K v _ (union_subseteq_r _ _) H1) as HK. set (i1 := (maybe_load_node n i).1) in *.
  destruct ((v n).1 ≫= (λ st, value <$> fields st !! f)) as [[| | |target|set]|]; cbn [view_map_field]; try done.
  { by apply collect_node_reads. }
  match goal with |- context [concat_items (thread ?g ?l i1)] =>
    destruct (thread_reads U K v g (λ m, lex_leaf spec base m (view_json (S (size U)) v m ∅)) l) with (i := i1) as [H2 H3] end; [|done|].
  - intros m _ j Hj. cbv zeta. rewrite (shows_fuel U K v j Hj).
    apply (lex_item_leaf U K v spec base m _ _ _ (materialize_reads U K _ m ∅ v)); [|done].
    intros i'. destruct more; [done|]. by destruct Hs as [?| ->].
  - split; [|exact H3]. etransitivity; [exact (f_equal (fmap (λ ls, List.concat ls)) H2)|].
    apply (mapM_leaf (λ m, m)). intros m _. by eapply view_json_some.
Qed.

Lemma scan_at_pure U K v a segs spec :
  lex_depth spec ≤ 1 ∨ lex_follow_links spec = false →
  pureM U K v (scan_at a segs spec) (view_lex (S (size U)) v a segs spec).
Proof.
  intros Hs i Hi. assert (stays spec (max (lex_depth spec) 1 - 1)) as Hst by (destruct Hs; [left; lia|by right]).
  unfold scan_at, view_lex, view_map, mbind, M_bind.
  destruct (resolve_cursor_pure U K v a segs i Hi) as [H1 H2]. rewrite <-H1 in *.
  pose proof (shows_weaken U _ K v _ (union_subseteq_r _ _) H2) as HK.
  destruct (resolve_cursor a segs i) as [i1 [[[n|n f]|]|e]]; cbn [fst snd cursor_nodes] in *.
  - unfold embed, listed. cbv zeta. cbn [fst snd].
    destruct (collect_node_reads U K v spec _ n (display_path a segs) i1 Hst HK) as [H3 H4]. split; [|exact H4]. rewrite H3.
    by destruct (view_map_node _ v n).
  - unfold embed, listed. cbv zeta. cbn [fst snd].
    destruct (collect_field_reads U K v spec _ n f (display_path a segs) i1 Hst H2) as [H3 H4]. split; [|exact H4]. rewrite H3. unfold mbind.
    by destruct (view_map_field _ v _).
  - split; [|done]. unfold lex_select. by destruct (lex_reverse spec) eqn:E; unfold mret, M_ret, lex_window; simpl; rewrite ?E; destruct (lex_limit spec); rewrite ?take_nil.
  - done.
Qed.

(** * Children *)

(** The node whose fields a path lists. *)
Definition container (v : nodeview) (a : NodeId) (segs : list string) : option NodeId :=
  match view_cursor v a segs with
  | Ok (Some (CNode n)) => Some n
  | Ok (Some (CField n f)) =>
      match (v n).1 ≫= λ st, value <$> fields st !! f with Some (FLink t) => Some t | _ => None end
  | _ => None
  end.

Lemma view_field_loaded i n st f fs : view i n = (Some st, (view i n).2) → fields st !! f = Some fs → (view i n).2 = Ok true.
Proof.
  rewrite view_cases. intros Hv Hf.
  assert (node_state_is_empty st = false) as He.
  { unfold node_state_is_empty. rewrite bool_decide_eq_false_2; [done|]. intros E. by rewrite E in Hf. }
  destruct (nodes i !! n) as [s|]; [destruct (node_state_is_empty s) eqn:Es|]; cbn [negb orb] in *;
    repeat case_match; simplify_eq/=; try done; congruence.
Qed.

Lemma view_path_snoc v a segs f :
  view_path v a (segs ++ [f]) =
  match view_path v a segs with
  | Ok (Some c) => view_path v c [f]
  | r => r
  end.
Proof.
  revert a. induction segs as [|s segs IH]; intros a; [done|]. cbn [app view_path].
  destruct (v a).2 as [[|]|]; try done. destruct ((v a).1 ≫= λ st, value <$> fields st !! s) as [[| | |t|set]|]; done.
Qed.

(** Where the last segment of a path is looked up. *)
Lemma view_cursor_child v a segs k :
  view_cursor v a (segs ++ [k]) =
  match (v a).2, view_path v a segs with
  | Err e, _ => Err e
  | Ok false, _ => Ok None
  | Ok true, Err e => Err e
  | Ok true, Ok None => Ok None
  | Ok true, Ok (Some c) =>
      match (v c).2 with Err e => Err e | Ok loaded => Ok (if loaded then Some (CField c k) else None) end
  end.
Proof.
  unfold view_cursor. rewrite removelast_last, last_snoc. destruct (v a).2 as [[|]|]; try done. by destruct segs.
Qed.

Lemma container_path v a segs :
  (v a).2 = Ok true →
  match view_path v a segs with
  | Ok (Some c) => container v a segs = Some c ∨ container v a segs = None ∧ (v c).2 ≠ Ok true
  | _ => container v a segs = None
  end.
Proof.
  intros Ha. destruct segs as [|f segs _] using rev_ind; [left; unfold container, view_cursor; by rewrite Ha|].
  unfold container. rewrite view_cursor_child, view_path_snoc, Ha.
  destruct (view_path v a segs) as [[c|]|]; try done. cbn [view_path].
  destruct (v c).2 as [[|]|]; try done.
  destruct ((v c).1 ≫= λ st, value <$> fields st !! f) as [[| | |t|set]|]; try done. by left.
Qed.

(** Reading a child is reading a field of the node that the path lists. *)
Lemma view_read_child U i a segs k x :
  let v := view i in
  view_read U v a (segs ++ [k]) = Ok (Some x) ↔
  ∃ n st fs, container v a segs = Some n ∧ (v n).1 = Some st ∧ fields st !! k = Some fs ∧
    view_child U v n k (value fs) = Some x.
Proof.
  intros v. unfold view_read. rewrite view_cursor_child.
  assert (∀ n st fs, (v n).1 = Some st → fields st !! k = Some fs → (v n).2 = Ok true) as Hload.
  { intros n st fs Hn Hf. eapply view_field_loaded; [|exact Hf]. fold v. rewrite <-Hn. by destruct (v n). }
  clearbody v.
  destruct ((v a).2) as [[|]|e] eqn:Ha.
  - pose proof (container_path v a segs Ha) as Hc. destruct (view_path v a segs) as [[c|]|e].
    + destruct (v c).2 as [[|]|e] eqn:Hc2.
      * destruct Hc as [Hc|[_ ?]]; [|done]. destruct (v c).1 as [st|] eqn:Hst; simpl.
        -- destruct (fields st !! k) as [fs|] eqn:Hf; simpl; [|naive_solver].
           split; [intros [= Hx]; by exists c, st, fs|]. intros (n & st' & fs' & E1 & E2 & E3 & E4).
           assert (n = c) as -> by congruence. assert (st' = st) as -> by congruence. assert (fs' = fs) as -> by congruence.
           unfold view_child in E4. by rewrite E4.
        -- split; [done|]. intros (n & st & fs & ? & ? & _). congruence.
      * split; [done|]. intros (n & st & fs & E1 & E2 & E3 & _). pose proof (Hload _ _ _ E2 E3). destruct Hc as [Hc|[Hc _]]; congruence.
      * split; [done|]. intros (n & st & fs & E1 & E2 & E3 & _). pose proof (Hload _ _ _ E2 E3). destruct Hc as [Hc|[Hc _]]; congruence.
    + split; [done|]. intros (n & ? & ? & E & _). congruence.
    + split; [done|]. intros (n & ? & ? & E & _). congruence.
  - split; [done|]. intros (n & st & fs & E & _). unfold container, view_cursor in E. by rewrite Ha in E.
  - split; [done|]. intros (n & st & fs & E & _). unfold container, view_cursor in E. by rewrite Ha in E.
Qed.

(** The entries of a node are its fields, in the order of their names. *)
Lemma view_map_node_spec U K v i n :
  shows U K v i →
  ∃ l, view_map_node (S (size U)) v n = Some l ∧
    map_key <$> l = match (v n).1 with Some st => btree_keys (fields st) | None => [] end ∧
    ∀ k x, mkEntry k x ∈ l ↔ ∃ st fs, (v n).1 = Some st ∧ fields st !! k = Some fs ∧
      view_child (S (size U)) v n k (value fs) = Some x.
Proof.
  intros Hi. unfold view_map_node. destruct (v n).1 as [st|]; [|exists []; split_and!; [done|done|set_solver]].
  set (g := λ p : string * FieldState, mkEntry p.1 <$> view_child (S (size U)) v n p.1 (value p.2)).
  assert (is_Some (mapM g (btree_list (fields st)))) as [l Hl].
  { apply mapM_is_Some, Forall_forall. intros p _. apply fmap_is_Some. by eapply view_field_some. }
  exists l. split; [done|]. pose proof (proj1 (mapM_Some _ _ _) Hl) as Hf. split.
  - unfold btree_keys. clear Hl. induction Hf as [|p e ps l Hp _ IH]; [done|]. rewrite !fmap_cons, IH. f_equal.
    unfold g in Hp. apply fmap_Some in Hp as (x & _ & ->). done.
  - intros k x. split.
    + intros (j & Hj)%list_elem_of_lookup. destruct (Forall2_lookup_r _ _ _ _ _ Hf Hj) as ([f fs] & Hin & Hx).
      apply list_elem_of_lookup_2, elem_of_btree_list in Hin. apply fmap_Some in Hx as (y & Hy & [= -> ->]). eauto.
    + intros (st' & fs & [= <-] & Hin & Hx). apply elem_of_btree_list, list_elem_of_lookup in Hin as [j Hj].
      destruct (Forall2_lookup_l _ _ _ _ _ Hf Hj) as (e & He & Hg). unfold g in Hg. simpl in Hg. rewrite Hx in Hg.
      injection Hg as <-. by eapply list_elem_of_lookup_2.
Qed.

(** Whether a path names a set. *)
Definition names_set (a : NodeId) (segs : list string) (i : Inner) : bool :=
  match resolve_cursor a segs i with
  | (i, Ok (Some (CField n f))) => match field_of i n f with Some (FSet _) => true | _ => false end
  | _ => false
  end.

Lemma children_of_node i a segs n :
  container (view i) a segs = Some n →
  let l := default [] (view_map_node (S (size (universe i))) (view i) n) in
  StronglySorted String.le (map_key <$> l) ∧ NoDup (map_key <$> l) ∧
  ∀ k x, mkEntry k x ∈ l ↔ (materialize_inner a (segs ++ [k]) i).2 = Ok (Some x).
Proof.
  intros Hn. destruct (view_map_node_spec (universe i) ∅ (view i) i n (shows_view i)) as (l & Hl & Hk & Hin).
  rewrite Hl. cbv zeta. change (default [] (Some l)) with l. rewrite Hk. split_and!.
  - destruct (view i n).1; [apply btree_keys_sorted|constructor].
  - destruct (view i n).1; [apply btree_keys_NoDup|constructor].
  - intros k x. destruct (materialize_inner_pure (universe i) ∅ (view i) a (segs ++ [k]) i (shows_view i)) as [-> _].
    rewrite (view_read_child _ i a segs k x), Hin. split; [intros (st & fs & ?); by exists n, st, fs|].
    intros (n' & st & fs & E & ?). assert (n' = n) as -> by congruence. by exists st, fs.
Qed.

Lemma children_of_none i a segs k x :
  container (view i) a segs = None →
  mkEntry k x ∈ [] ↔ (materialize_inner a (segs ++ [k]) i).2 = Ok (Some x).
Proof.
  intros Hn. destruct (materialize_inner_pure (universe i) ∅ (view i) a (segs ++ [k]) i (shows_view i)) as [-> _].
  rewrite (view_read_child _ i a segs k x). split; [by intros ?%not_elem_of_nil|]. intros (n & ? & ? & E & _). congruence.
Qed.

Lemma set_listing U K v i set :
  shows U K v i →
  ∃ l, mapM (λ m, mkEntry m <$> view_json (S (size U)) v m ∅) (btree_keys (members set)) = Some l ∧
    map_key <$> l = btree_keys (members set).
Proof.
  intros Hi. assert (is_Some (mapM (λ m, mkEntry m <$> view_json (S (size U)) v m ∅) (btree_keys (members set)))) as [l Hl].
  { apply mapM_is_Some, Forall_forall. intros m _. apply fmap_is_Some. by eapply view_json_some. }
  exists l. split; [done|]. apply mapM_Some in Hl. induction Hl as [|m e ms l Hm _ IH]; [done|].
  rewrite fmap_cons, IH. f_equal. by apply fmap_Some in Hm as (x & _ & ->).
Qed.


(** A lexical scan that does not follow links is the listing of the path, cut to
the keys between the bounds and with the prefix asked for, each under its full path,
reversed and limited as asked; it fails where the listing fails. *)
Lemma scan_selects_map a segs spec i :
  lex_depth spec ≤ 1 ∨ lex_follow_links spec = false →
  (scan_at a segs spec i).2 =
  match (map_at a segs i).2 with
  | Err e => Err e
  | Ok l => Ok (lex_window spec (lex_select spec (display_path a segs) l))
  end.
Proof.
  intros Hs. destruct (scan_at_pure (universe i) ∅ (view i) a segs spec Hs i (shows_view i)) as [-> _].
  by destruct (map_at_pure (universe i) ∅ (view i) a segs i (shows_view i)) as [-> _].
Qed.
End scan.

(** * A listing from storage *)

Module Listing.
#[local] Existing Instances demo_codec disk_env disk_env_laws.

Definition friends : LexSpec := mkLex (Some "f") None None None None false (Some 1) 1 false.


Lemma scan_selects_map_witness :
  (scan_at "bob" [] friends demo_db).2 =
  Ok [mkLexEntry "bob.friend" "friend" (JObject [("$id", JString "ada"); ("name", JString "Ada")])].
Proof.
  rewrite (scan_selects_map "bob" [] friends demo_db); [by vm_compute|]. left. simpl. lia.
Defined.
End Listing.
