(* ===== verification/Router.v ===== *)
(** Route envelopes and the router of a peer ([src/src/router.rs]).

The hash of a payload's serialization and the wall clock are parameters. *)
From stdpp Require Import base gmap sets list strings sorting.
From Stdlib Require Import ZArith Lia.
From S2P Require Import Prelude Clock Value Crdt Merge OpQueue RelIndex Paths Records Keys Engine Input Inner Read View Query Traversal InnerWf Tx Db SessionAuth Protocol.

Inductive RouteTarget :=
  | Broadcast
  | ToPeer (peer : string)
  | ToTopic (topic : string).

Record PeerPresence := mkPresence {
  peer_id : string;
  replica_id : string;
  transport : string;
  identity : option PresenceIdentity;
  capabilities : list string;
  topics : list string;
  peer_metadata : gmap string string
}.

Record PeerRecommendation := mkRecommendation {
  rec_peer : PeerPresence;
  relay_urls : list string;
  score : Z;
  discovered_at_millis : Z
}.

(** [ApplicationRouteMessage] of [src/src/app_route.rs]. *)
Record ApplicationRouteMessage := mkApplication {
  app_namespace : string;
  app_protocol : string;
  app_topic : option string;
  app_body : json;
  app_metadata : gmap string json
}.

Section types.
Context `{Wire}.

Inductive RouteBatchItem :=
  | IApplication (message : ApplicationRouteMessage)
  | ISync (encoding : string) (payload : json)
  | IPresence (peer : PeerPresence)
  | ISignal (room : string) (payload : json)
  | ISnapshotRequest (root : option string)
  | ISnapshotResponse (root : option string) (snapshot : DatabaseSnapshot)
  | IPullRequest (request : PullRequest)
  | IPullResponse (response : PullResponse)
  | IWatchRequest (request : WatchRequest)
  | IWatchEvent (event : WatchEvent)
  | IPeerExchange (peers : list PeerRecommendation)
  | IAuthChallenge (challenge : AuthChallenge)
  | IAuthResponse (response : AuthResponse).

(** A payload is one of the items or a batch of them; the other constructors of
[RoutePayload] repeat those of [RouteBatchItem]. *)
Inductive RoutePayload :=
  | Single (item : RouteBatchItem)
  | Batch (items : list RouteBatchItem).

Definition from_batch_item (item : RouteBatchItem) : RoutePayload := Single item.

Record RouteEnvelope := mkEnvelope {
  route_id : string;
  from : string;
  channel : string;
  target : RouteTarget;
  ttl : Z;
  hops : Z;
  issued_at_millis : Z;
  reply_to : option string;
  content_hash : option string;
  seen_by : list string;
  payload : RoutePayload
}.
End types.

Class RouteEnv `{Wire} := {
  route_now : Z;
  stable_content_hash : RoutePayload → option string
}.

Record RouterConfig := mkRouterConfig {
  config_peer_id : string;
  default_channel : string;
  default_ttl : Z;
  max_seen_routes : nat
}.

Record Router := mkRouter {
  config : RouterConfig;
  next_route_seq : Z;
  seen_routes : gmap string Z;
  seen_content : gmap string Z;
  peers : gmap string PeerPresence;
  delivered_routes : Z;
  forwarded_routes : Z;
  duplicate_routes : Z
}.

Record RouteDecision `{Wire} := mkDecision {
  deliver : bool;
  forward : option RouteEnvelope;
  duplicate : bool
}.

(** * Operations *)

Definition router_new (c : RouterConfig) : Router := mkRouter c 0 ∅ ∅ ∅ 0 0 0.

Definition known_peers (r : Router) : list PeerPresence := (btree_list (peers r)).*2.

Definition forget_peer (r : Router) (peer : string) : Router :=
  mkRouter (config r) (next_route_seq r) (seen_routes r) (seen_content r) (delete peer (peers r))
    (delivered_routes r) (forwarded_routes r) (duplicate_routes r).

Definition update_peer_presence (ps : gmap string PeerPresence) (p : PeerPresence)
    : gmap string PeerPresence :=
  if bool_decide (peer_metadata p !! "state" = Some "offline") then delete (peer_id p) ps
  else <[peer_id p := p]> ps.

(** The loop of [trim_seen_cache]; each turn removes an entry. *)
Fixpoint trim_loop (fuel : nat) (seen : gmap string Z) (max : nat) : gmap string Z :=
  match fuel with
  | O => seen
  | S fuel =>
      if max <? size seen then
        match btree_keys seen with
        | oldest :: _ => trim_loop fuel (delete oldest seen) max
        | [] => seen
        end
      else seen
  end.

Definition trim_seen_cache (seen : gmap string Z) (max : nat) : gmap string Z :=
  trim_loop (size seen) seen max.

Section router.
Context `{RouteEnv}.

Definition dedupe_key (e : RouteEnvelope) : option string :=
  (λ h, from e +:+ ":" +:+ default "" (reply_to e) +:+ ":" +:+ h) <$> content_hash e.

Definition matches_target (peer chan : string) (e : RouteEnvelope) : bool :=
  match target e with
  | Broadcast => bool_decide (channel e = chan)
  | ToPeer t => bool_decide (t = peer)
  | ToTopic topic => bool_decide (channel e = topic) || bool_decide (topic = chan)
  end.

(** Whether [accept] has met a route: its own name among those that saw it, its id, or
its content from the same sender. *)
Definition already_seen (r : Router) (e : RouteEnvelope) : bool :=
  bool_decide (config_peer_id (config r) ∈ seen_by e)
  || bool_decide (is_Some (seen_routes r !! route_id e))
  || match dedupe_key e with Some k => bool_decide (is_Some (seen_content r !! k)) | None => false end.

Definition accept (r : Router) (e : RouteEnvelope) : Router * RouteDecision :=
  let me := config_peer_id (config r) in
  let max := max_seen_routes (config r) in
  if already_seen r e then
    (mkRouter (config r) (next_route_seq r) (seen_routes r) (seen_content r) (peers r)
       (delivered_routes r) (forwarded_routes r) (sat_add u64_max (duplicate_routes r) 1),
     mkDecision _ false None true)
  else
    let routes := trim_seen_cache (<[route_id e := route_now]> (seen_routes r)) max in
    let content :=
      match dedupe_key e with
      | Some k => trim_seen_cache (<[k := route_now]> (seen_content r)) max
      | None => seen_content r
      end in
    let ps := match payload e with Single (IPresence p) => update_peer_presence (peers r) p | _ => peers r end in
    let deliver := matches_target me (default_channel (config r)) e in
    let forward :=
      if (1 <? ttl e)%Z then
        Some (mkEnvelope (route_id e) (from e) (channel e) (target e) (sat_sub (ttl e) 1)
                (sat_add u8_max (hops e) 1) (issued_at_millis e) (reply_to e) (content_hash e)
                (if bool_decide (me ∈ seen_by e) then seen_by e else seen_by e ++ [me]) (payload e))
      else None in
    (mkRouter (config r) (next_route_seq r) routes content ps
       (if deliver then sat_add u64_max (delivered_routes r) 1 else delivered_routes r)
       (match forward with Some _ => sat_add u64_max (forwarded_routes r) 1 | None => forwarded_routes r end)
       (duplicate_routes r),
     mkDecision _ deliver forward false).

Definition wrap_payload (r : Router) (p : RoutePayload) (t : RouteTarget) (reply : option string)
    : Router * RouteEnvelope :=
  let seq := sat_add u64_max (next_route_seq r) 1 in
  let me := config_peer_id (config r) in
  (mkRouter (config r) seq (seen_routes r) (seen_content r) (peers r) (delivered_routes r)
     (forwarded_routes r) (duplicate_routes r),
   mkEnvelope (me +:+ "/route/" +:+ hex seq) me (default_channel (config r)) t
     (default_ttl (config r)) 0 route_now reply (stable_content_hash p) [me] p).

Definition without_hash (e : RouteEnvelope) : RouteEnvelope :=
  mkEnvelope (route_id e) (from e) (channel e) (target e) (ttl e) (hops e) (issued_at_millis e)
    (reply_to e) None (seen_by e) (payload e).

(** The wrappers of the single payloads; the requests and events of a watch carry no
hash. *)
Definition wrap_sync (r : Router) (encoding : string) (p : json) (t : RouteTarget) : Router * RouteEnvelope :=
  wrap_payload r (Single (ISync encoding p)) t None.

Definition wrap_signal (r : Router) (room : string) (p : json) (t : RouteTarget) : Router * RouteEnvelope :=
  wrap_payload r (Single (ISignal room p)) t None.

Definition wrap_application (r : Router) (m : ApplicationRouteMessage) (t : RouteTarget) (reply : option string)
    : Router * RouteEnvelope :=
  wrap_payload r (Single (IApplication m)) t reply.

Definition wrap_pull_request (r : Router) (q : PullRequest) (t : RouteTarget) : Router * RouteEnvelope :=
  wrap_payload r (Single (IPullRequest q)) t None.

Definition wrap_pull_response (r : Router) (x : PullResponse) (t : RouteTarget) (reply : option string)
    : Router * RouteEnvelope :=
  wrap_payload r (Single (IPullResponse x)) t reply.

Definition peer_exchange (r : Router) (ps : list PeerRecommendation) (t : RouteTarget) (reply : option string)
    : Router * RouteEnvelope :=
  wrap_payload r (Single (IPeerExchange ps)) t reply.

Definition auth_challenge (r : Router) (c : AuthChallenge) (t : RouteTarget) : Router * RouteEnvelope :=
  wrap_payload r (Single (IAuthChallenge c)) t None.

Definition auth_response (r : Router) (x : AuthResponse) (t : RouteTarget) : Router * RouteEnvelope :=
  wrap_payload r (Single (IAuthResponse x)) t None.

Definition snapshot_request (r : Router) (root : option string) (t : RouteTarget) : Router * RouteEnvelope :=
  wrap_payload r (Single (ISnapshotRequest root)) t None.

Definition snapshot_response (r : Router) (root : option string) (s : DatabaseSnapshot) (t : RouteTarget)
    : Router * RouteEnvelope :=
  wrap_payload r (Single (ISnapshotResponse root s)) t None.

Definition wrap_watch_request (r : Router) (q : WatchRequest) (t : RouteTarget) (reply : option string)
    : Router * RouteEnvelope :=
  let w := wrap_payload r (Single (IWatchRequest q)) t reply in (w.1, without_hash w.2).

Definition wrap_watch_event (r : Router) (ev : WatchEvent) (t : RouteTarget) (reply : option string)
    : Router * RouteEnvelope :=
  let w := wrap_payload r (Single (IWatchEvent ev)) t reply in (w.1, without_hash w.2).

Definition wrap_batch (r : Router) (items : list RouteBatchItem) (t : RouteTarget) (reply : option string)
    : Router * RouteEnvelope :=
  wrap_payload r (Batch items) t reply.

Definition wrap_batch_item (r : Router) (item : RouteBatchItem) (t : RouteTarget) (reply : option string)
    : Router * RouteEnvelope :=
  wrap_payload r (from_batch_item item) t reply.

Definition presence (r : Router) (replica kind : string) (caps tops : list string) : Router * RouteEnvelope :=
  wrap_payload r (Single (IPresence (mkPresence (config_peer_id (config r)) replica kind None caps tops ∅)))
    Broadcast None.

(** [pack_batch_routes] of [src/src/native_sync.rs]. *)
Fixpoint pack_chunks (r : Router) (t : RouteTarget) (reply : option string)
    (chunks : list (list RouteBatchItem)) : Router * list RouteEnvelope :=
  match chunks with
  | [] => (r, [])
  | c :: rest =>
      let '(r, e) := match c with [item] => wrap_batch_item r item t reply | _ => wrap_batch r c t reply end in
      let '(r, es) := pack_chunks r t reply rest in
      (r, e :: es)
  end.

Definition pack_batch_routes (r : Router) (t : RouteTarget) (reply : option string)
    (items : list RouteBatchItem) (size : nat) : Router * list RouteEnvelope :=
  pack_chunks r t reply (chunks_of (length items) (max size 1) items).

(** * The caches *)

Lemma trim_loop_small fuel seen max : size seen ≤ max → trim_loop fuel seen max = seen.
Proof. intros Hs. destruct fuel; [done|]. cbn [trim_loop]. by rewrite (proj2 (Nat.ltb_ge _ _) Hs). Qed.

Lemma trim_loop_spec fuel seen max :
  size seen ≤ fuel → size (trim_loop fuel seen max) ≤ max ∧ trim_loop fuel seen max ⊆ seen.
Proof.
  revert seen. induction fuel as [|fuel IH]; intros seen Hs; cbn [trim_loop]; [split; [lia|done]|].
  destruct (max <? size seen) eqn:E; [|apply Nat.ltb_ge in E; done]. apply Nat.ltb_lt in E.
  destruct (btree_keys seen) as [|k ks] eqn:Ek.
  - assert (seen = ∅) as ->; [|by rewrite map_size_empty in E; lia]. apply map_eq. intros k. rewrite lookup_empty.
    destruct (seen !! k) eqn:Hk; [|done]. assert (k ∈ btree_keys seen) as Hin by (apply elem_of_btree_keys; eauto).
    rewrite Ek in Hin. by apply not_elem_of_nil in Hin.
  - assert (is_Some (seen !! k)) as [v Hv] by (apply elem_of_btree_keys; rewrite Ek; by left).
    destruct (IH (delete k seen)) as [H1 H2]; [rewrite map_size_delete_Some by eauto; lia|].
    split; [done|]. etrans; [exact H2|apply delete_subseteq].
Qed.

Lemma trim_spec seen max : size (trim_seen_cache seen max) ≤ max ∧ trim_seen_cache seen max ⊆ seen.
Proof. by apply trim_loop_spec. Qed.

Lemma trim_small seen max : size seen ≤ max → trim_seen_cache seen max = seen.
Proof. apply trim_loop_small. Qed.

Definition router_bounded (r : Router) : Prop :=
  size (seen_routes r) ≤ max_seen_routes (config r) ∧ size (seen_content r) ≤ max_seen_routes (config r).

Fixpoint accept_all (r : Router) (es : list RouteEnvelope) : Router * list RouteDecision :=
  match es with
  | [] => (r, [])
  | e :: es =>
      let '(r, d) := accept r e in
      let '(r, ds) := accept_all r es in
      (r, d :: ds)
  end.

(** C37: a router's memory is bounded: however many routes it is offered, neither of its
two caches ever holds more entries than configured. *)
Theorem router_memory_bounded c es : router_bounded (accept_all (router_new c) es).1.
Proof.
  assert (router_bounded (router_new c)) as Hr by (split; simpl; rewrite map_size_empty; lia).
  revert Hr. generalize (router_new c) as r. induction es as [|e es IH]; intros r Hr; [done|]. cbn [accept_all].
  assert (router_bounded (accept r e).1) as Hr'.
  { unfold accept. destruct (already_seen r e); [done|]. split; simpl; [apply trim_spec|].
    destruct (dedupe_key e); [apply trim_spec|apply Hr]. }
  destruct (accept r e) as [r' d]. simpl in Hr'. specialize (IH r' Hr'). by destruct (accept_all r' es).
Qed.

(** * A router that forgets nothing *)

(** The ids and contents it accepted. *)
Record Memory := mkMemory { mem_routes : gset string; mem_content : gset string }.

Definition remembers (me : string) (m : Memory) (e : RouteEnvelope) : bool :=
  bool_decide (me ∈ seen_by e) || bool_decide (route_id e ∈ mem_routes m)
  || match dedupe_key e with Some k => bool_decide (k ∈ mem_content m) | None => false end.

Definition remember (m : Memory) (e : RouteEnvelope) : Memory :=
  mkMemory ({[route_id e]} ∪ mem_routes m)
    (match dedupe_key e with Some k => {[k]} ∪ mem_content m | None => mem_content m end).

(** For each route, whether it is delivered. *)
Fixpoint deliveries (c : RouterConfig) (m : Memory) (es : list RouteEnvelope) : list bool :=
  match es with
  | [] => []
  | e :: es =>
      if remembers (config_peer_id c) m e then false :: deliveries c m es
      else matches_target (config_peer_id c) (default_channel c) e :: deliveries c (remember m e) es
  end.

Definition recalls (r : Router) (m : Memory) : Prop :=
  dom (seen_routes r) = mem_routes m ∧ dom (seen_content r) = mem_content m.

Lemma recalls_seen r m e : recalls r m → already_seen r e = remembers (config_peer_id (config r)) m e.
Proof.
  intros [H1 H2]. unfold already_seen, remembers. rewrite <-H1, <-H2. f_equal.
  - f_equal. apply bool_decide_ext. by rewrite elem_of_dom.
  - destruct (dedupe_key e); [|done]. apply bool_decide_ext. by rewrite elem_of_dom.
Qed.

Lemma accept_config r e : config (accept r e).1 = config r.
Proof. unfold accept. by destruct (already_seen r e). Qed.

Lemma recalls_accept r m e n :
  recalls r m → already_seen r e = false → size (mem_routes m) ≤ n → size (mem_content m) ≤ n →
  S n ≤ max_seen_routes (config r) →
  recalls (accept r e).1 (remember m e) ∧ size (mem_routes (remember m e)) ≤ S n ∧ size (mem_content (remember m e)) ≤ S n.
Proof.
  intros [H1 H2] Hs Hn1 Hn2 Hmax.
  assert (∀ (s : gmap string Z) k v, size (dom s) ≤ n →
    dom (trim_seen_cache (<[k := v]> s) (max_seen_routes (config r))) = {[k]} ∪ dom s) as Htrim.
  { intros s k v Hsz. rewrite trim_small; [apply dom_insert_L|]. rewrite size_dom in Hsz. rewrite map_size_insert. destruct (s !! k); simpl in *; lia. }
  assert (∀ (X : gset string) k, size X ≤ n → size ({[k]} ∪ X) ≤ S n) as Hsize.
  { intros X k HX. rewrite size_union_alt, size_singleton. assert (size (X ∖ {[k]}) ≤ size X) by (apply subseteq_size; set_solver). lia. }
  unfold accept. rewrite Hs. unfold recalls, remember. simpl. destruct (dedupe_key e) as [k|]; simpl.
  - rewrite !Htrim by (by rewrite ?H1, ?H2). rewrite H1, H2. split_and!; [done|done|by apply Hsize|by apply Hsize].
  - rewrite !Htrim by (by rewrite ?H1, ?H2). rewrite H1. split_and!; [done|done|by apply Hsize|lia].
Qed.

(** While no more routes were offered than a router may remember, it delivers what a
router that forgets nothing delivers: a route is delivered when it is addressed to
this peer, has not passed through it, and neither its id nor its content, from the
same sender in answer to the same route, was accepted before. *)
Lemma router_delivers_once c es :
  length es ≤ max_seen_routes c →
  deliver <$> (accept_all (router_new c) es).2 = deliveries c (mkMemory ∅ ∅) es.
Proof.
  assert (∀ es r m n, recalls r m → size (mem_routes m) ≤ n → size (mem_content m) ≤ n →
    n + length es ≤ max_seen_routes (config r) → deliver <$> (accept_all r es).2 = deliveries (config r) m es) as Hes.
  { clear. induction es as [|e es IH]; intros r m n Hm H1 H2 Hn; [done|]. cbn [accept_all deliveries]. simpl in Hn.
    rewrite <-(recalls_seen r m e Hm). pose proof (accept_config r e) as Hc. destruct (already_seen r e) eqn:Hs.
    - assert (recalls (accept r e).1 m) as Hr' by (unfold accept; by rewrite Hs).
      assert ((accept r e).2 = mkDecision _ false None true) as Hd by (unfold accept; by rewrite Hs).
      destruct (accept r e) as [r' d]. simpl in *. subst d. specialize (IH r' m n Hr' H1 H2). rewrite Hc in IH.
      destruct (accept_all r' es). simpl in *. f_equal. apply IH. lia.
    - destruct (recalls_accept r m e n Hm Hs H1 H2 ltac:(lia)) as (Hr' & H1' & H2').
      assert (deliver (accept r e).2 = matches_target (config_peer_id (config r)) (default_channel (config r)) e) as Hd
        by (unfold accept; by rewrite Hs).
      destruct (accept r e) as [r' d]. simpl in *. specialize (IH r' (remember m e) (S n) Hr' H1' H2'). rewrite Hc in IH.
      destruct (accept_all r' es). simpl in *. f_equal; [done|]. apply IH. lia. }
  intros Hl. apply (Hes es (router_new c) _ 0); [by split; apply dom_empty_L|by simpl..|done].
Qed.
End router.

(** * Sample routes *)

Module Sample.
#[export] Existing Instance Exchange.unit_wire.

(** A hash that tells the payloads below apart. *)
Definition item_hash (i : RouteBatchItem) : option string :=
  match i with
  | ISync e _ => Some ("sync " +:+ e)
  | IPresence p => Some ("presence " +:+ peer_id p +:+ default "" (peer_metadata p !! "state") +:+ String.concat "," (capabilities p))
  | ISnapshotRequest r => Some ("snapshot " +:+ default "" r)
  | IWatchRequest _ => Some "watch"
  | _ => None
  end.

Definition env : RouteEnv :=
  {| route_now := 1000; stable_content_hash := λ p, match p with Single i => item_hash i | Batch l => Some (hex (Z.of_nat (length l))) end |}.
#[export] Existing Instance env.

Definition a : Router := router_new (mkRouterConfig "a" "primadb-sync" 6 4).
Definition b : Router := router_new (mkRouterConfig "b" "primadb-sync" 6 4).

(** An operation batch sent again, in a new route because no acknowledgement came, has the
same content hash: the receiver refuses it as a duplicate, so nothing acknowledges it. *)
Definition first_try : Router * RouteEnvelope := wrap_sync a "message 1" JNull Broadcast.
Definition second_try : Router * RouteEnvelope := wrap_sync first_try.1 "message 1" JNull Broadcast.

Lemma retry_refused :
  route_id first_try.2 ≠ route_id second_try.2 ∧
  duplicate <$> (accept_all b [first_try.2; second_try.2]).2 = [false; true].
Proof. vm_compute. done. Qed.

Lemma router_delivers_once_witness :
  deliver <$> (accept_all b [first_try.2; second_try.2]).2 = [true; false].
Proof.
  etransitivity; [apply (router_delivers_once (config b) [first_try.2; second_try.2]); simpl; lia|].
  vm_compute. reflexivity.
Defined.

(** The caches evict the smallest id and not the oldest entry: with room for two, the id
of a third route that sorts first is forgotten as it is recorded, and the route is
delivered again. *)
Definition small : Router := router_new (mkRouterConfig "c" "primadb-sync" 6 2).
Definition route (id : string) : RouteEnvelope :=
  mkEnvelope id "a" "primadb-sync" Broadcast 6 0 1000 None None ["a"] (Single (ISync id JNull)).

Lemma evicts_newest :
  deliver <$> (accept_all small [route "x/2"; route "x/3"; route "x/1"; route "x/1"]).2 = [true; true; true; true] ∧
  seen_routes (accept_all small [route "x/2"; route "x/3"; route "x/1"]).1 !! "x/1" = None.
Proof. vm_compute. done. Qed.
End Sample.
