(* ===== verification/AppRoute.v ===== *)
(** Application messages and their bus ([src/src/app_route.rs]): filters, bounded
queues, publication.

A subscription's channel is a number; its queue holds at most the bus's capacity, and
once its receiver is closed nothing more is sent while what is queued can be read. *)
From stdpp Require Import base gmap sets list strings sorting.
From Stdlib Require Import ZArith Lia.
From S2P Require Import Prelude Clock Value Crdt Merge OpQueue RelIndex Paths Records Keys Engine Input Inner Read View Query Traversal InnerWf Tx Db SessionAuth Protocol Router.

(** [RouteTransportKind] of [src/src/transport.rs]. *)
Inductive RouteTransportKind := WebSocket | Moq | WebRtc | BroadcastChannel | InMemory.

Definition transport_as_str (t : RouteTransportKind) : string :=
  match t with
  | WebSocket => "websocket"
  | Moq => "moq"
  | WebRtc => "webrtc"
  | BroadcastChannel => "broadcast_channel"
  | InMemory => "in_memory"
  end.

Inductive ApplicationRouteAuthStatus :=
  | AuthUnknown | NotRequired | Unauthenticated | Authenticated | RequiredButMissing.

Record ApplicationRouteContext := mkContext {
  source_peer_id : string;
  context_transport : RouteTransportKind;
  underlay_id : option string;
  direct : bool;
  relay_routed : bool;
  gateway_routed : bool;
  gateway_peer_id : option string;
  auth_status : ApplicationRouteAuthStatus;
  provenance : list string
}.

Record ApplicationRouteEvent := mkAppEvent {
  app_route_id : string;
  app_from : string;
  app_channel : string;
  app_target : RouteTarget;
  app_issued : Z;
  app_received : Z;
  app_transport : RouteTransportKind;
  app_identity : option VerifiedIdentity;
  app_context : ApplicationRouteContext;
  app_message : ApplicationRouteMessage
}.

Record ApplicationRouteFilter := mkFilter {
  filter_namespace : option string;
  filter_protocol : option string;
  filter_topic : option string
}.

Definition context_new (peer : string) (t : RouteTransportKind) : ApplicationRouteContext :=
  mkContext peer t None false false false None AuthUnknown [].

Definition with_verified_identity (peer : string) (t : RouteTransportKind) (who : option VerifiedIdentity) (required : bool)
    : ApplicationRouteContext :=
  mkContext peer t None false false false None
    (match who with Some _ => Authenticated | None => if required then RequiredButMissing else NotRequired end) [].

Definition none_or {A} (o : option A) (f : A → bool) : bool := match o with Some a => f a | None => true end.

Definition filter_matches (f : ApplicationRouteFilter) (m : ApplicationRouteMessage) : bool :=
  none_or (filter_namespace f) (λ n, bool_decide (n = app_namespace m))
  && none_or (filter_protocol f) (λ p, bool_decide (p = app_protocol m))
  && none_or (filter_topic f) (λ t, bool_decide (app_topic m = Some t)).

Record Channel := mkChannel { queued : list ApplicationRouteEvent; closed : bool }.

Record ApplicationRouteBus := mkBus {
  capacity : nat;
  subscribers : list (ApplicationRouteFilter * nat);
  channels : gmap nat Channel;
  next_channel : nat
}.

Definition bus_new (cap : nat) : ApplicationRouteBus := mkBus (max cap 1) [] ∅ 0.

Definition subscribe (f : ApplicationRouteFilter) (b : ApplicationRouteBus) : ApplicationRouteBus * nat :=
  (mkBus (capacity b) (subscribers b ++ [(f, next_channel b)]) (<[next_channel b := mkChannel [] false]> (channels b))
     (S (next_channel b)), next_channel b).

(** [sender.is_closed()] and [sender.try_send(..)]. *)
Definition is_closed (b : gmap nat Channel) (c : nat) : bool := match b !! c with Some ch => closed ch | None => true end.

Definition try_send (cap : nat) (e : ApplicationRouteEvent) (c : nat) (chs : gmap nat Channel) : gmap nat Channel * bool :=
  match chs !! c with
  | Some ch =>
      if closed ch || (cap <=? length (queued ch)) then (chs, false)
      else (<[c := mkChannel (queued ch ++ [e]) false]> chs, true)
  | None => (chs, false)
  end.

Fixpoint publish_to (cap : nat) (e : ApplicationRouteEvent) (subs : list (ApplicationRouteFilter * nat)) (chs : gmap nat Channel)
    (delivered : nat) : gmap nat Channel * nat :=
  match subs with
  | [] => (chs, delivered)
  | (f, c) :: subs =>
      if filter_matches f (app_message e) then
        let '(chs, sent) := try_send cap e c chs in
        publish_to cap e subs chs (if sent then S delivered else delivered)
      else publish_to cap e subs chs delivered
  end.

Definition publish (e : ApplicationRouteEvent) (b : ApplicationRouteBus) : ApplicationRouteBus * nat :=
  let live := filter (λ s, is_closed (channels b) s.2 = false) (subscribers b) in
  let '(chs, n) := publish_to (capacity b) e live (channels b) 0 in
  (mkBus (capacity b) live chs (next_channel b), n).

Definition with_channels (chs : gmap nat Channel) (b : ApplicationRouteBus) : ApplicationRouteBus :=
  mkBus (capacity b) (subscribers b) chs (next_channel b).

Definition try_recv (c : nat) (b : ApplicationRouteBus) : ApplicationRouteBus * option ApplicationRouteEvent :=
  match channels b !! c with
  | Some (mkChannel (e :: q) z) => (with_channels (<[c := mkChannel q z]> (channels b)) b, Some e)
  | _ => (b, None)
  end.

Definition drain (c : nat) (b : ApplicationRouteBus) : ApplicationRouteBus * list ApplicationRouteEvent :=
  match channels b !! c with
  | Some ch => (with_channels (<[c := mkChannel [] (closed ch)]> (channels b)) b, queued ch)
  | None => (b, [])
  end.

Definition close (c : nat) (b : ApplicationRouteBus) : ApplicationRouteBus :=
  match channels b !! c with
  | Some ch => with_channels (<[c := mkChannel (queued ch) true]> (channels b)) b
  | None => b
  end.

(** * What subscribers receive *)

(** Every subscriber has its own channel, and no queue is over the capacity. *)
Definition bus_wf (b : ApplicationRouteBus) : Prop :=
  NoDup (subscribers b).*2 ∧ (∀ c, c ∈ (subscribers b).*2 → is_Some (channels b !! c)) ∧
  (∀ c ch, channels b !! c = Some ch → length (queued ch) ≤ capacity b ∧ c < next_channel b) ∧
  0 < capacity b.

Inductive bus_step (b : ApplicationRouteBus) : ApplicationRouteBus → Prop :=
  | bus_subscribe f : bus_step b (subscribe f b).1
  | bus_publish e : bus_step b (publish e b).1
  | bus_recv c : bus_step b (try_recv c b).1
  | bus_drain c : bus_step b (drain c b).1
  | bus_close c : bus_step b (close c b).

(** A channel after an event that its filter admits or not. *)
Definition offered (cap : nat) (f : ApplicationRouteFilter) (e : ApplicationRouteEvent) (ch : Channel) : Channel :=
  if filter_matches f (app_message e) && negb (closed ch) && (length (queued ch) <? cap)
  then mkChannel (queued ch ++ [e]) false else ch.

Lemma try_send_spec cap e c chs c' :
  (try_send cap e c chs).1 !! c' =
  if decide (c' = c) then
    (λ ch, if negb (closed ch) && (length (queued ch) <? cap) then mkChannel (queued ch ++ [e]) false else ch) <$> chs !! c
  else chs !! c'.
Proof.
  unfold try_send. destruct (chs !! c) as [[q z]|] eqn:E; simpl; [|case_decide; by subst].
  destruct z; simpl; [case_decide; [by subst|done]|]. rewrite Nat.ltb_antisym.
  destruct (cap <=? length q); simpl; (case_decide; [subst|]); by rewrite ?lookup_insert_eq, ?lookup_insert_ne.
Qed.

(** The filter of the subscriber on a channel. *)
Fixpoint filter_for (subs : list (ApplicationRouteFilter * nat)) (c : nat) : option ApplicationRouteFilter :=
  match subs with
  | [] => None
  | (f, c') :: subs => if decide (c' = c) then Some f else filter_for subs c
  end.

Lemma filter_for_None subs c : c ∉ subs.*2 → filter_for subs c = None.
Proof.
  induction subs as [|[f c'] subs IH]; intros Hc; [done|]. rewrite fmap_cons in Hc. cbn [filter_for]. cbn [snd] in Hc.
  rewrite decide_False by set_solver. apply IH. set_solver.
Qed.

Lemma filter_for_Some subs c f : filter_for subs c = Some f → c ∈ subs.*2.
Proof.
  induction subs as [|[g c'] subs IH]; [done|]. cbn [filter_for]. rewrite fmap_cons. cbn [snd]. case_decide; [subst; by left|].
  intros Hf. right. by apply IH.
Qed.

(** Dropping closed subscribers keeps the filter of an open one. *)
Lemma filter_for_live subs chs c f :
  is_closed chs c = false → filter_for subs c = Some f →
  filter_for (filter (λ s, is_closed chs s.2 = false) subs) c = Some f.
Proof.
  intros Ho. induction subs as [|[g c'] subs IH]; [done|]. cbn [filter_for]. rewrite filter_cons. cbn [snd].
  destruct (decide (c' = c)) as [->|Hne].
  - rewrite decide_True by done. cbn [filter_for]. by rewrite decide_True.
  - intros Hf. case_decide; [cbn [filter_for]; rewrite decide_False by done|]; by apply IH.
Qed.

Lemma publish_to_spec cap e subs chs n c :
  NoDup subs.*2 →
  (publish_to cap e subs chs n).1 !! c =
  match filter_for subs c with Some f => offered cap f e <$> chs !! c | None => chs !! c end.
Proof.
  revert chs n. induction subs as [|[f c'] subs IH]; intros chs n Hnd; [done|].
  rewrite fmap_cons in Hnd. cbn [snd] in Hnd. apply NoDup_cons in Hnd as [Hc' Hnd]. cbn [publish_to filter_for].
  destruct (filter_matches f (app_message e)) eqn:Ef.
  - pose proof (try_send_spec cap e c' chs c) as Hs. destruct (try_send cap e c' chs) as [chs' sent]. cbn [fst] in Hs.
    rewrite IH, Hs by done. case_decide as E; [subst c'|rewrite decide_False by done; done].
    rewrite (filter_for_None subs c), decide_True by done. unfold offered. by rewrite Ef.
  - rewrite IH by done. case_decide; [subst c'|done]. rewrite (filter_for_None subs c) by done. unfold offered. rewrite Ef. by destruct (chs !! c).
Qed.

Lemma publish_channel e b c :
  bus_wf b →
  channels (publish e b).1 !! c =
  match filter_for (filter (λ s, is_closed (channels b) s.2 = false) (subscribers b)) c with
  | Some f => offered (capacity b) f e <$> channels b !! c
  | None => channels b !! c
  end.
Proof.
  intros (Hnd & _). unfold publish. rewrite <-publish_to_spec with (n := 0).
  - by destruct (publish_to _ _ _ _ _).
  - eapply sublist_NoDup; [exact Hnd|]. apply fmap_sublist, sublist_filter.
Qed.

Lemma bus_set_wf b c ch ch' :
  bus_wf b → channels b !! c = Some ch → length (queued ch') ≤ length (queued ch) →
  bus_wf (with_channels (<[c := ch']> (channels b)) b).
Proof.
  intros (Hnd & Hc & Hl & Hp) Hch Hle. split_and!; cbn [with_channels subscribers channels capacity next_channel]; [done| | |done].
  - intros d Hd. destruct (decide (d = c)) as [->|]; [rewrite lookup_insert_eq; eauto|]. rewrite lookup_insert_ne by done. by apply Hc.
  - intros d x. destruct (Hl c ch Hch). rewrite lookup_insert_Some. intros [[<- <-]|[_ Hx]]; [lia|by apply Hl].
Qed.

Lemma bus_step_wf b b' : bus_step b b' → bus_wf b → bus_wf b'.
Proof.
  intros Hs Hw. destruct Hs as [f|e|c|c|c].
  - destruct Hw as (Hnd & Hc & Hl & Hp). unfold subscribe. cbn [fst]. split_and!; cbn [subscribers channels capacity next_channel]; [| | |done].
    + rewrite fmap_app. apply NoDup_app. split_and!; [done| |apply NoDup_singleton]. intros c Hin Hin'. apply list_elem_of_singleton in Hin' as ->.
      destruct (Hc _ Hin) as [ch Hch]. apply Hl in Hch. simpl in Hch. lia.
    + intros c. rewrite fmap_app, elem_of_app. intros [Hin|Hin].
      * destruct (decide (c = next_channel b)) as [->|]; [rewrite lookup_insert_eq; eauto|]. rewrite lookup_insert_ne by done. by apply Hc.
      * apply list_elem_of_singleton in Hin as ->. rewrite lookup_insert_eq. eauto.
    + intros c ch. rewrite lookup_insert_Some. intros [[<- <-]|[_ Hch]]; [simpl; lia|]. apply Hl in Hch. lia.
  - pose proof (publish_channel e b) as Hpub. destruct Hw as (Hnd & Hc & Hl & Hp).
    assert (capacity (publish e b).1 = capacity b ∧ next_channel (publish e b).1 = next_channel b ∧
      subscribers (publish e b).1 = filter (λ s, is_closed (channels b) s.2 = false) (subscribers b)) as (E1 & E2 & E3)
      by (unfold publish; by destruct (publish_to _ _ _ _ _)).
    unfold bus_wf. rewrite E1, E2, E3. split_and!; [| | |done].
    + eapply sublist_NoDup; [exact Hnd|]. apply fmap_sublist, sublist_filter.
    + intros c Hin. rewrite Hpub by done. assert (c ∈ (subscribers b).*2) as Hin'.
      { apply list_elem_of_fmap in Hin as (s & -> & [_ Hs]%list_elem_of_filter). by apply list_elem_of_fmap_2. }
      destruct (Hc c Hin') as [ch ->]. destruct (filter_for _ c); eauto.
    + intros c ch. rewrite Hpub by done. destruct (channels b !! c) as [ch0|] eqn:E; [|by destruct (filter_for _ c)].
      destruct (Hl c ch0 E) as [Hlen Hlt]. destruct (filter_for _ c) as [f|]; simpl; intros [= <-]; [|done]. split; [|done].
      unfold offered. destruct (filter_matches f (app_message e) && negb (closed ch0)); simpl; [|done].
      destruct (length (queued ch0) <? capacity b) eqn:El; [|done]. apply Nat.ltb_lt in El. simpl. rewrite length_app. simpl. lia.
  - unfold try_recv. destruct (channels b !! c) as [[[|e q] z]|] eqn:E; [done| |done]. eapply bus_set_wf; [done..|simpl; lia].
  - unfold drain. destruct (channels b !! c) as [ch|] eqn:E; [|done]. eapply bus_set_wf; [done..|simpl; lia].
  - unfold close. destruct (channels b !! c) as [ch|] eqn:E; [|done]. eapply bus_set_wf; [done..|simpl; lia].
Qed.

Lemma bus_step_capacity b b' : bus_step b b' → capacity b' = capacity b.
Proof.
  intros [f|e|c|c|c]; [done|unfold publish; by destruct (publish_to _ _ _ _ _)|..]; unfold try_recv, drain, close;
    destruct (channels b !! c) as [[[] ?]|]; done.
Qed.

Lemma bus_new_wf cap : bus_wf (bus_new cap).
Proof. split_and!; simpl; [constructor|set_solver|intros ? ? ?; by rewrite lookup_empty in *|lia]. Qed.

(** Whatever subscriptions, receptions and closings went before, a subscriber that
is open receives of the events published, in order, those its filter admits, as many
as its queue has room for; and no queue ever exceeds the capacity of the bus. *)
Lemma bus_delivers cap b c f ch es :
  rtc bus_step (bus_new cap) b → filter_for (subscribers b) c = Some f → channels b !! c = Some ch → closed ch = false →
  let b' := foldl (λ b e, (publish e b).1) b es in
  channels b' !! c =
    Some (mkChannel (take (max cap 1) (queued ch ++ filter (λ e, filter_matches f (app_message e) = true) es)) false) ∧
  ∀ c ch, channels b' !! c = Some ch → length (queued ch) ≤ max cap 1.
Proof.
  intros Hr Hf Hch Ho b'.
  assert (bus_wf b ∧ capacity b = max cap 1) as [Hw Hcap].
  { remember (bus_new cap) as b0 eqn:E0. assert (bus_wf b0 ∧ capacity b0 = max cap 1) as H0 by (subst; split; [apply bus_new_wf|done]).
    clear E0 Hf Hch. induction Hr as [|x y z Hxy _ IH]; [done|]. apply IH. destruct H0 as [Hx Hc]. split; [by eapply bus_step_wf|].
    by rewrite <-Hc, (bus_step_capacity x y Hxy). }
  clear Hr. subst b'. revert b ch Hf Hch Ho Hw Hcap. induction es as [|e es IH]; intros b ch Hf Hch Ho Hw Hcap.
  - simpl. rewrite app_nil_r. destruct Hw as (_ & _ & Hl & _). destruct (Hl c ch Hch) as [Hlen _]. rewrite Hcap in Hlen.
    rewrite take_ge by done. split; [destruct ch; simpl in *; by subst|]. intros d x Hx. rewrite <-Hcap. by destruct (Hl d x Hx).
  - cbn [foldl]. assert (is_closed (channels b) c = false) as Hopen by (unfold is_closed; by rewrite Hch).
    pose proof (filter_for_live _ _ _ _ Hopen Hf) as Hf'.
    pose proof (publish_channel e b c Hw) as Hpub. rewrite Hf', Hch in Hpub. simpl in Hpub.
    assert (subscribers (publish e b).1 = filter (λ s, is_closed (channels b) s.2 = false) (subscribers b)) as Hsub
      by (unfold publish; by destruct (publish_to _ _ _ _ _)).
    destruct Hw as (Hnd & Hc & Hl & Hp). destruct (Hl c ch Hch) as [Hlen _].
    destruct (IH (publish e b).1 (offered (capacity b) f e ch)) as [IH1 IH2].
    + by rewrite Hsub.
    + done.
    + unfold offered. by destruct (_ && _).
    + eapply bus_step_wf; [apply bus_publish|by split_and!].
    + rewrite (bus_step_capacity b _ (bus_publish b e)). done.
    + split; [|exact IH2]. rewrite IH1. f_equal. f_equal. rewrite <-Hcap in *. unfold offered. rewrite filter_cons.
      destruct (filter_matches f (app_message e)); [rewrite decide_True by done|by rewrite decide_False]. rewrite Ho. simpl.
      destruct (length (queued ch) <? capacity b) eqn:El; simpl; [by rewrite <-app_assoc|]. apply Nat.ltb_ge in El.
      assert (length (queued ch) = capacity b) as El' by lia. rewrite !take_app_le by lia. done.
Qed.

(** * Two subscribers *)

Module Board.
Definition note (t : string) : ApplicationRouteEvent :=
  mkAppEvent "r" "a" "c" Broadcast 0 0 InMemory None (context_new "a" InMemory) (mkApplication "app" "v1" (Some t) JNull ∅).

Definition board : ApplicationRouteBus := (subscribe (mkFilter None None None) (subscribe (mkFilter None None (Some "x")) (bus_new 2)).1).1.

Lemma bus_delivers_witness :
  channels (foldl (λ b e, (publish e b).1) board [note "x"; note "y"; note "x"; note "x"]) !! 0 = Some (mkChannel [note "x"; note "x"] false).
Proof.
  refine (proj1 (bus_delivers 2 board 0 (mkFilter None None (Some "x")) (mkChannel [] false) [note "x"; note "y"; note "x"; note "x"] _ _ _ _)).
  - eapply rtc_l; [apply bus_subscribe|]. eapply rtc_l; [apply bus_subscribe|]. apply rtc_refl.
  - reflexivity.
  - reflexivity.
  - reflexivity.
Defined.
End Board.
