(* ===== verification/Serve.v ===== *)
(** Answering the requests of other peers: the hooks an application installs
([src/src/hooks.rs]) and the serving of requests ([execute_pull_request_kind] and its
callers in [src/src/db.rs]), for a database without a storage engine.

The vector and text searches and the options of transactions are services of other
components; they are parameters ([Services]), as is the application's [NetworkHooks]
and the parsing of requests and results from JSON ([HookCodec]). *)
From stdpp Require Import base gmap sets list strings sorting.
From Stdlib Require Import ZArith Lia.
From S2P Require Import Prelude Clock Value Crdt Merge OpQueue RelIndex Paths Records Keys Engine Input Inner Read View Query Traversal InnerWf Tx Db SessionAuth Protocol Scan Router.

(** * Hooks *)

Inductive HookTransport := Relay | Mesh.

Inductive HookDecision (A : Type) :=
  | Allow (value : A)
  | Deny (message : string).
#[global] Arguments Allow {_} _.
#[global] Arguments Deny {_} _.

Record ConnectHookContext := mkConnect {
  connect_peer : PeerPresence;
  connect_transport : HookTransport;
  connect_relay_url : option string;
  connect_identity : option VerifiedIdentity
}.

Section hooks.
Context `{Wire}.

Record ServeRequestContext := mkServeRequest {
  srq_peer : string;
  srq_transport : HookTransport;
  srq_request_id : option string;
  srq_watch_id : option string;
  srq_request : PullRequestKind;
  srq_identity : option VerifiedIdentity
}.

Record ServeResultContext := mkServeResult {
  srs_peer : string;
  srs_transport : HookTransport;
  srs_request_id : option string;
  srs_watch_id : option string;
  srs_request : PullRequestKind;
  srs_initial : bool;
  srs_identity : option VerifiedIdentity
}.

(** The trait [NetworkHooks]. *)
Record NetworkHooks := mkHooks {
  on_connect : ConnectHookContext → HookDecision unit;
  on_pull : ServeRequestContext → HookDecision PullRequestKind;
  on_watch : ServeRequestContext → HookDecision PullRequestKind;
  on_serve_result : ServeResultContext → RemoteResult → HookDecision RemoteResult
}.

(** Its default methods. *)
Definition default_hooks : NetworkHooks :=
  mkHooks (λ _, Allow tt) (λ c, Allow (srq_request c)) (λ c, Allow (srq_request c)) (λ _ r, Allow r).
End hooks.

(** * Decisions given as JSON *)

Record HookWrapper := mkWrapper {
  wrapper_allow : bool;
  wrapper_message : option string;
  wrapper_request : option json;
  wrapper_result : option json
}.

Definition wrapper_keys : list string := ["allow"; "message"; "request"; "result"].

Definition json_as_bool (v : json) : option bool := match v with JBool b => Some b | _ => None end.

Definition hook_wrapper_from_json (v : json) : option HookWrapper :=
  match v with
  | JObject o =>
      if negb (existsb (λ k, bool_decide (is_Some (obj_get k o))) wrapper_keys) then None
      else Some (mkWrapper (default true (obj_get "allow" o ≫= json_as_bool)) (obj_get "message" o ≫= as_str)
                   (obj_get "request" o) (obj_get "result" o))
  | _ => None
  end.

Definition invalid_hook_value : string :=
  "invalid network hook return value: expected boolean, string, or decision object".

Definition parse_void_hook_json (response : option json) (default_message : string) : HookDecision unit :=
  match response with
  | None | Some JNull => Allow tt
  | Some (JBool allow) => if allow then Allow tt else Deny default_message
  | Some (JString message) => Deny message
  | Some (JObject o) =>
      match hook_wrapper_from_json (JObject o) with
      | Some w => if negb (wrapper_allow w) then Deny (default default_message (wrapper_message w)) else Allow tt
      | None => Deny invalid_hook_value
      end
  | Some _ => Deny invalid_hook_value
  end.

(** [serde_json::from_value] at the two types, with the error's text. *)
Class HookCodec `{Wire} := {
  request_from_value : json → PullRequestKind + string;
  result_from_value : json → RemoteResult + string
}.

Definition parsed {A} (r : A + string) : HookDecision A := match r with inl a => Allow a | inr e => Deny e end.

Section parsing.
Context `{HookCodec}.

Definition parse_request_hook_json (response : option json) (default_request : PullRequestKind) (default_message : string)
    : HookDecision PullRequestKind :=
  match response with
  | None | Some JNull => Allow default_request
  | Some (JBool allow) => if allow then Allow default_request else Deny default_message
  | Some (JString message) => Deny message
  | Some (JObject o) =>
      match hook_wrapper_from_json (JObject o) with
      | Some w =>
          if negb (wrapper_allow w) then Deny (default default_message (wrapper_message w))
          else match wrapper_request w with
               | Some request => parsed (request_from_value request)
               | None => Allow default_request
               end
      | None => parsed (request_from_value (JObject o))
      end
  | Some v => parsed (request_from_value v)
  end.

Definition parse_result_hook_json (response : option json) (default_result : RemoteResult) (default_message : string)
    : HookDecision RemoteResult :=
  match response with
  | None | Some JNull => Allow default_result
  | Some (JBool allow) => if allow then Allow default_result else Deny default_message
  | Some (JString message) => Deny message
  | Some (JObject o) =>
      match hook_wrapper_from_json (JObject o) with
      | Some w =>
          if negb (wrapper_allow w) then Deny (default default_message (wrapper_message w))
          else match wrapper_result w with
               | Some result => parsed (result_from_value result)
               | None => Allow default_result
               end
      | None => parsed (result_from_value (JObject o))
      end
  | Some v => parsed (result_from_value v)
  end.

(** A result whose own JSON has a member [result], as those of record scans and of the
searches do, is never read as that result: its member is read in its place. *)
Lemma own_result_shadowed o v r m :
  obj_get "result" o = Some v → obj_get "allow" o = None →
  parse_result_hook_json (Some (JObject o)) r m = parsed (result_from_value v).
Proof.
  intros Hv Ha. cbn [parse_result_hook_json hook_wrapper_from_json].
  assert (existsb (λ k, bool_decide (is_Some (obj_get k o))) wrapper_keys = true) as ->.
  { apply existsb_exists. exists "result". split; [simpl; tauto|]. rewrite Hv. by apply bool_decide_eq_true_2. }
  cbn [negb]. rewrite Ha, Hv. done.
Qed.

(** An object that means to refuse but does not say so with a boolean is an approval. *)
Lemma refusal_without_boolean m :
  parse_void_hook_json (Some (JObject [("allow", JString "false")])) m = Allow tt ∧
  parse_void_hook_json (Some (JObject [("message", JString "peer is blocked")])) m = Allow tt.
Proof. done. Qed.
End parsing.

(** * Serving *)

Class Services `{Wire} := {
  search_vectors : string → VectorRequest → M VectorSearchResult;
  text_search : TextSearchSource → TextQuery → M TextSearchResult;
  scope_transaction : string → list TransactionStep → TransactionOptions → M TransactionReport
}.

Section serve.
Context `{Codec, Env, W : !Wire, S : !Services}.

Definition node_state (n : NodeId) : M (option NodeState) :=
  loaded ← maybe_load_node n;
  if loaded : bool then gets (λ i, nodes i !! n) else mret None.

(** Scans in memory need no fuel, and the closure of a root ends within its bound. *)
Definition serve_records (scan : RecordScan) : M RecordScanResult := λ i,
  match scan_records 0 (overlay_entries (overlay i)) scan None with
  | Some r => (i, r)
  | None => (i, Ok (mkScanResult [] None))
  end.

Definition serve_snapshot (root : option string) : M DatabaseSnapshot := λ i,
  match snapshot_for_root root i with
  | Some s => (i, Ok s)
  | None => (i, Ok (mkSnapshot (clock i) ∅ [] ∅))
  end.

Definition execute_pull_request_kind (k : PullRequestKind) : M RemoteResult :=
  match k with
  | PGet p => v ← materialize_inner (anchor p) (segments p); mret (RGet v)
  | PMap p => l ← map_at (anchor p) (segments p); mret (RMap l)
  | PQuery p spec => l ← query_at (anchor p) (segments p) spec; mret (RQuery l)
  | PLex p spec => l ← scan_at (anchor p) (segments p) spec; mret (RLex l)
  | PRecords scan => r ← serve_records scan; mret (RRecords r)
  | PVectorSearch c q => r ← search_vectors c q; mret (RVectorSearch r)
  | PTextSearch src q => r ← text_search src q; mret (RTextSearch r)
  | PNode n => st ← node_state n; mret (RNode st)
  | PSnapshot root => s ← serve_snapshot root; mret (RSnapshot s)
  | PTransaction scope steps options => r ← scope_transaction scope steps options; mret (RTransaction r)
  end.

Context (hooks : option NetworkHooks).

Definition allow_peer_connection (c : ConnectHookContext) : HookDecision unit :=
  match hooks with Some h => on_connect h c | None => Allow tt end.

Definition authorize_pull_request_for_peer (peer : string) (t : HookTransport) (request : option string)
    (k : PullRequestKind) (who : option VerifiedIdentity) : HookDecision PullRequestKind :=
  match hooks with
  | Some h => on_pull h (mkServeRequest peer t request None k who)
  | None => Allow k
  end.

Definition authorize_watch_request_for_peer (peer : string) (t : HookTransport) (watch : string)
    (k : PullRequestKind) (who : option VerifiedIdentity) : HookDecision PullRequestKind :=
  match hooks with
  | Some h => on_watch h (mkServeRequest peer t None (Some watch) k who)
  | None => Allow k
  end.

Definition filter_served_result_for_peer (peer : string) (t : HookTransport) (request watch : option string)
    (k : PullRequestKind) (initial : bool) (r : RemoteResult) (who : option VerifiedIdentity)
    : HookDecision RemoteResult :=
  match hooks with
  | Some h => on_serve_result h (mkServeResult peer t request watch k initial who) r
  | None => Allow r
  end.

Definition serve_pull_request_for_peer (peer : string) (t : HookTransport) (request : string) (k : PullRequestKind)
    (who : option VerifiedIdentity) : M (HookDecision RemoteResult) :=
  match authorize_pull_request_for_peer peer t (Some request) k who with
  | Deny m => mret (Deny m)
  | Allow k =>
      r ← execute_pull_request_kind k;
      mret (filter_served_result_for_peer peer t (Some request) None k true r who)
  end.

Definition serve_watch_result_for_peer (peer : string) (t : HookTransport) (watch : string) (k : PullRequestKind)
    (initial : bool) (who : option VerifiedIdentity) : M (HookDecision RemoteResult) :=
  r ← execute_pull_request_kind k;
  mret (filter_served_result_for_peer peer t None (Some watch) k initial r who).
End serve.

(** * Serving a read changes nothing that is shown *)

Section pure.
Context `{Codec, Env, W : !Wire, S : !Services, Laws : !EnvLaws}.

Definition keeps {A} (f : Inner → Inner * A) : Prop :=
  ∀ U K v i, shows U K v i → shows U K v (f i).1.

Lemma keeps_bind {A B} (m : M A) (k : A → M B) : keeps m → (∀ a, keeps (k a)) → keeps (mbind k m).
Proof.
  intros Hm Hk U K v i Hi. unfold mbind, M_bind. specialize (Hm U K v i Hi).
  destruct (m i) as [i1 [a|e]]; [by apply Hk|done].
Qed.

Lemma keeps_ret {A} (a : A) : keeps (mret (M := M) a).
Proof. by intros U K v i Hi. Qed.

Lemma keeps_embed {A} (f : Inner → Inner * A) : keeps f → keeps (embed f).
Proof. intros Hf U K v i Hi. exact (Hf U K v i Hi). Qed.

Lemma keeps_listed {A} (f : Inner → Inner * option (list A)) : keeps f → keeps (λ i, listed (f i)).
Proof. intros Hf U K v i Hi. exact (Hf U K v i Hi). Qed.

Lemma keeps_load n : keeps (maybe_load_node n).
Proof. intros U K v i Hi. by apply shows_load_keep. Qed.

Lemma keeps_cursor a segs : keeps (resolve_cursor a segs).
Proof.
  intros U K v i Hi. destruct (resolve_cursor_pure U K v a segs i Hi) as [_ H1].
  eapply shows_weaken, H1. apply union_subseteq_r.
Qed.

Lemma keeps_thread {A B} (f : A → Inner → Inner * option B) l : (∀ a, keeps (f a)) → keeps (thread f l).
Proof.
  intros Hf U K v. induction l as [|a l IH]; intros i Hi; [done|]. cbn [thread]. specialize (Hf a U K v i Hi).
  destruct (f a i) as [i1 [b|]]; [|done]. cbn [fst] in Hf. specialize (IH i1 Hf). by destruct (thread f l i1) as [i2 [bs|]].
Qed.

Lemma keeps_node fuel n visited : keeps (materialize_node fuel n visited).
Proof. intros U K v i Hi. by apply (materialize_reads U K fuel n visited v). Qed.

Lemma keeps_field fuel n f fv : keeps (materialize_field fuel n f fv).
Proof. intros U K v i Hi. by apply (materialize_field_reads U K fuel n f fv v). Qed.

Lemma keeps_lex_item path key (r : Inner → Inner * option json) below :
  keeps r → keeps below → keeps (λ i, lex_item path key (r i) below).
Proof.
  intros Hr Hb U K v i Hi. specialize (Hr U K v i Hi). unfold lex_item. destruct (r i) as [i1 [x|]]; [|done].
  exact (Hb U K v i1 Hr).
Qed.

Lemma keeps_items {A} spec (key : A → string) base (r : A → Inner → Inner * option json) (below : A → Inner → Inner * option (list LexEntry)) l :
  (∀ a, keeps (r a)) → (∀ a, keeps (below a)) →
  keeps (λ i, concat_items (thread (λ a i,
    if negb (lex_key_matches (key a) spec) then (i, Some [])
    else lex_item (lex_child_path base (key a)) (key a) (r a i) (below a)) l i)).
Proof.
  intros Hr Hb U K v i Hi. unfold concat_items. cbn [fst]. apply keeps_thread; [|done]. intros a U' K' v' j Hj.
  destruct (negb _); [done|]. by apply (keeps_lex_item _ _ (r a)).
Qed.

Lemma keeps_collect spec more n base : keeps (collect_lex_from_node spec more n base).
Proof.
  revert n base. induction more as [|more IH]; intros n base U K v i Hi; cbn [collect_lex_from_node]; cbv zeta;
    pose proof (keeps_load n U K v i Hi) as H1; (destruct (nodes _ !! n) as [st|]; [|exact H1]).
  - apply (keeps_items spec fst base (λ p j, materialize_field (read_fuel j) n p.1 (value p.2) j) (λ _ j, (j, Some []))); [| |exact H1].
    + intros p U2 K2 v2 i2 Hi2. by apply keeps_field.
    + by intros p U2 K2 v2 i2 Hi2.
  - apply (keeps_items spec fst base (λ p j, materialize_field (read_fuel j) n p.1 (value p.2) j) (λ p j, _)); [| |exact H1].
    + intros p U2 K2 v2 i2 Hi2. by apply keeps_field.
    + intros p U2 K2 v2 i2 Hi2. destruct (negb (lex_follow_links spec)); [exact Hi2|].
      destruct (value p.2) as [| | |target|set]; [exact Hi2..|by apply IH|].
      unfold concat_items. cbn [fst]. apply keeps_thread; [|done]. intros m. apply IH.
Qed.

Lemma keeps_collect_field spec more n f base : keeps (collect_lex_from_field spec more n f base).
Proof.
  intros U K v i Hi. unfold collect_lex_from_field. cbv zeta. pose proof (keeps_load n U K v i Hi) as H1.
  destruct (field_of _ n f) as [[| | |target|set]|]; try done; [by apply keeps_collect|].
  apply (keeps_items spec (λ m, m) base (λ m j, materialize_node (read_fuel j) m ∅ j) (λ m j, _)); [| |exact H1].
  - intros m U2 K2 v2 i2 Hi2. by apply keeps_node.
  - intros m U2 K2 v2 i2 Hi2. destruct more; [exact Hi2|]. destruct (lex_follow_links spec); [by apply keeps_collect|exact Hi2].
Qed.

Lemma keeps_candidate c : keeps (materialize_query_candidate c).
Proof.
  intros U K v i Hi. unfold materialize_query_candidate. destruct (cand_source c) as [n|n f]; cbv zeta.
  - by apply keeps_node.
  - destruct (field_of i n f) as [fv|]; [|done]. by apply keeps_field.
Qed.

Lemma keeps_full ev : keeps (full_value_of ev).
Proof.
  intros U K v i Hi. unfold full_value_of. destruct (full_value ev); [done|]. cbv zeta. cbn [fst]. by apply keeps_candidate.
Qed.

Lemma keeps_value c p : keeps (query_candidate_value c p).
Proof. intros U K v i Hi. by apply query_candidate_keeps. Qed.

Lemma keeps_filters fs ev : keeps (check_filters fs ev).
Proof.
  revert ev. induction fs as [|f fs IH]; intros ev U K v i Hi; [done|]. cbn [check_filters].
  pose proof (keeps_value (candidate ev) (query_value_path (filter_path f)) U K v i Hi) as H1.
  destruct (query_candidate_value _ _ i) as [i1 [x|]]; cbn [fst] in H1.
  - destruct (matches_filter_value x f); [by apply IH|done].
  - pose proof (keeps_full ev U K v i1 H1) as H2. destruct (full_value_of ev i1) as [i2 [ev2 full]]. cbn [fst] in H2.
    destruct (matches_filter_parts _ _ _); [by apply IH|done].
Qed.

Lemma keeps_evaluate c spec : keeps (evaluate_query_candidate c spec).
Proof.
  intros U K v i Hi. unfold evaluate_query_candidate.
  pose proof (keeps_filters (query_filters spec) (mkEvaluated c None None) U K v i Hi) as H1.
  destruct (check_filters _ _ i) as [i1 [ev|]]; [|done]. cbn [fst] in H1. destruct (query_order spec) as [order|]; [|done].
  pose proof (keeps_value (candidate ev) (query_value_path (order_path order)) U K v i1 H1) as H2.
  destruct (query_candidate_value _ _ i1) as [i2 [x|]]; [done|]. cbn [fst] in H2.
  pose proof (keeps_full ev U K v i2 H2) as H3. by destruct (full_value_of ev i2) as [i3 [ev3 full]].
Qed.

Lemma keeps_query_at a segs spec : keeps (query_at a segs spec).
Proof.
  assert (∀ cs, keeps (evaluate_all cs spec)) as Hall.
  { induction cs as [|c cs IH]; intros U K v i Hi; [done|]. cbn [evaluate_all]. pose proof (keeps_evaluate c spec U K v i Hi) as H1.
    destruct (evaluate_query_candidate c spec i) as [i1 r]. cbn [fst] in H1. specialize (IH U K v i1 H1). by destruct (evaluate_all cs spec i1). }
  assert (∀ evs, keeps (finish evs)) as Hfin.
  { induction evs as [|ev evs IH]; intros U K v i Hi; [done|]. cbn [finish]. pose proof (keeps_full ev U K v i Hi) as H1.
    destruct (full_value_of ev i) as [i1 [ev1 full]]. cbn [fst] in H1. specialize (IH U K v i1 H1). by destruct (finish evs i1). }
  assert (∀ n, keeps (node_candidates n)) as Hnc by (intros n U K v i Hi; by apply keeps_load).
  apply keeps_bind; [apply keeps_cursor|]. intros c. apply keeps_bind.
  - destruct c as [[n|n f]|]; [apply keeps_embed, Hnc|apply keeps_embed|apply keeps_ret].
    intros U K v i Hi. cbn [query_candidates]. cbv zeta. pose proof (keeps_load n U K v i Hi) as H1.
    destruct (field_of _ n f) as [[]|]; try done. by apply Hnc.
  - intros cs. apply keeps_embed. intros U K v i Hi. unfold evaluate_query_candidates.
    specialize (Hall cs U K v i Hi). destruct (evaluate_all cs spec i) as [i1 evs]. by apply Hfin.
Qed.

Lemma keeps_map_at a segs : keeps (map_at a segs).
Proof. intros U K v i Hi. by apply map_at_pure. Qed.

Lemma keeps_scan_at a segs spec : keeps (scan_at a segs spec).
Proof.
  apply keeps_bind; [apply keeps_cursor|]. intros c. apply keeps_bind; [|intros; apply keeps_ret].
  destruct c as [[n|n f]|]; [apply keeps_embed, keeps_listed, keeps_collect|apply keeps_embed, keeps_listed, keeps_collect_field|apply keeps_ret].
Qed.

(** The requests answered by reading alone. *)
Definition is_read (k : PullRequestKind) : bool :=
  match k with PVectorSearch _ _ | PTextSearch _ _ | PTransaction _ _ _ => false | _ => true end.

Lemma keeps_execute k : is_read k = true → keeps (execute_pull_request_kind k).
Proof.
  destruct k as [p|p|p spec|p spec|scan|c q|src q|n|root|sc st op]; try done; intros _;
    (apply keeps_bind; [|intros; apply keeps_ret]).
  - intros U K v i Hi. by apply materialize_inner_pure.
  - apply keeps_map_at.
  - apply keeps_query_at.
  - apply keeps_scan_at.
  - intros U K v i Hi. unfold serve_records. by destruct (scan_records _ _ _ _).
  - apply keeps_bind; [apply keeps_load|]. intros [|]; [|apply keeps_ret]. by intros U K v i Hi.
  - intros U K v i Hi. unfold serve_snapshot. by destruct (snapshot_for_root _ _).
Qed.

End pure.

(** * A peer reads *)

Module Reading.
#[local] Existing Instances demo_codec disk_env disk_env_laws Exchange.unit_wire.

Definition no_services : Services :=
  {| search_vectors := λ _ _ i, (i, Ok tt); text_search := λ _ _ i, (i, Ok tt); scope_transaction := λ _ _ _ i, (i, Ok tt) |}.
#[local] Existing Instance no_services.

(** Hooks that refuse one peer and narrow every request to one node. *)
Definition guard : NetworkHooks :=
  mkHooks (λ _, Allow tt) (λ c, if decide (srq_peer c = "mallory") then Deny "no" else Allow (PGet (mkPath "bob" [])))
    (λ c, Allow (srq_request c)) (λ _ r, Allow r).

End Reading.
