(* ===== verification/Watch.v ===== *)
(** Subscriptions of a database ([subscribe_to] and its variants, [notify_subscribers] and
its variants, [finalize_change] of [src/src/db.rs]).

The five kinds of watch differ in what they ask, which events concern them and how the
answer is computed; the rest of their code is the same and is modelled once, by a
section with those as parameters.  The receiving end of a channel stays with the
subscriber when the database forgets the watcher, so channels are kept apart from
watchers, under the same number. *)
From stdpp Require Import base gmap sets list strings sorting.
From Stdlib Require Import ZArith Lia.
From S2P Require Import Prelude Clock Value Crdt Merge OpQueue RelIndex Paths Records Keys Engine Input Inner Read View Query Traversal InnerWf Tx Db SessionAuth Protocol Change Scan Router Serve.

(** * Channels *)

(** A bounded channel; [force_send] makes room by dropping the oldest item. *)
Record Chan (A : Type) := mkChan { chan_queue : list A; chan_closed : bool }.
#[global] Arguments mkChan {_} _ _.
#[global] Arguments chan_queue {_} _.
#[global] Arguments chan_closed {_} _.

Definition LOCAL_WATCH_QUEUE_CAPACITY : nat := 64.

Definition send_watch_update {A} (a : A) (c : Chan A) : option (Chan A) :=
  if chan_closed c then None
  else Some (mkChan (drop (S (length (chan_queue c)) - LOCAL_WATCH_QUEUE_CAPACITY) (chan_queue c ++ [a])) false).

Definition take_update {A} (c : Chan A) : Chan A * option A :=
  match chan_queue c with
  | [] => (c, None)
  | a :: q => (mkChan q (chan_closed c), Some a)
  end.

(** * Watchers of one kind *)

Record Watch (Q : Type) := mkWatch { w_query : Q; w_hash : option string }.
#[global] Arguments mkWatch {_} _ _.
#[global] Arguments w_query {_} _.
#[global] Arguments w_hash {_} _.

Record Subs (Q A : Type) := mkSubs {
  watchers : gmap Z (Watch Q);
  channels : gmap Z (Chan A);
  next_subscription_id : Z
}.
#[global] Arguments mkSubs {_ _} _ _ _.
#[global] Arguments watchers {_ _} _.
#[global] Arguments channels {_ _} _.
#[global] Arguments next_subscription_id {_ _} _.

(** A [BTreeMap] with numeric keys, in key order. *)
Definition id_le {V} (x y : Z * V) : Prop := (x.1 ≤ y.1)%Z.
#[global] Instance id_le_dec {V} : RelDecision (@id_le V).
Proof. intros x y. unfold id_le. apply _. Defined.
Definition by_id {V} (m : gmap Z V) : list (Z * V) := merge_sort id_le (map_to_list m).

Section kind.
Context {Q A : Type}.
Context (overlaps : Q → ChangeEvent → bool) (compute : Q → M A) (hash : A → option string)
  (refresh : Q → A → Q) (same : Q → Q → bool).

Definition subs_new : Subs Q A := mkSubs ∅ ∅ 0.

(** [subscribe_to]: the answer is computed, the watcher recorded and the answer sent. *)
Definition subscribe (start : A → Q) (first : M A) (s : Subs Q A) : M (Subs Q A * Z) :=
  a ← first;
  let id := sat_add u64_max (next_subscription_id s) 1 in
  mret (mkSubs (<[id := mkWatch (start a) (hash a)]> (watchers s)) (<[id := mkChan [a] false]> (channels s)) id, id).

(** The subscription is dropped: the watcher is removed, and with it the sender. *)
Definition unsubscribe (id : Z) (s : Subs Q A) : Subs Q A :=
  mkSubs (delete id (watchers s)) (alter (λ c, mkChan (chan_queue c) true) id (channels s)) (next_subscription_id s).

(** The receiver closes its channel; the database notices when it next sends. *)
Definition hang_up (id : Z) (s : Subs Q A) : Subs Q A :=
  mkSubs (watchers s) (alter (λ c, mkChan (chan_queue c) true) id (channels s)) (next_subscription_id s).

Definition receive (id : Z) (s : Subs Q A) : Subs Q A * option A :=
  match channels s !! id with
  | Some c => let r := take_update c in (mkSubs (watchers s) (<[id := r.1]> (channels s)) (next_subscription_id s), r.2)
  | None => (s, None)
  end.

(** The variables of the loop: the answers computed so far, by the serialized question,
the channels, the watchers found closed, and what is to be recorded. *)
Record Round := mkRound {
  r_cache : list (Q * A);
  r_channels : gmap Z (Chan A);
  r_stale : list Z;
  r_updates : list (Z * option string * Q)
}.

Definition cached (cache : list (Q * A)) (q : Q) : option A := snd <$> List.find (λ p, same p.1 q) cache.

Definition answer (cache : list (Q * A)) (q : Q) : M (A * list (Q * A)) :=
  match cached cache q with
  | Some a => mret (a, cache)
  | None => a ← compute q; mret (a, (q, a) :: cache)
  end.

(** What the loop does with the answer for a watcher. *)
Definition deliver_answer (w : Z * Watch Q) (a : A) (cache : list (Q * A)) (r : Round) : Round :=
  if bool_decide (hash a = w_hash w.2) then mkRound cache (r_channels r) (r_stale r) (r_updates r)
  else
    match r_channels r !! w.1 ≫= send_watch_update a with
    | None => mkRound cache (r_channels r) (r_stale r ++ [w.1]) (r_updates r)
    | Some c =>
        mkRound cache (<[w.1 := c]> (r_channels r)) (r_stale r) (r_updates r ++ [(w.1, hash a, refresh (w_query w.2) a)])
    end.

Fixpoint visits (e : ChangeEvent) (ws : list (Z * Watch Q)) (r : Round) (i : Inner) : Inner * Round * result unit :=
  match ws with
  | [] => (i, r, Ok tt)
  | w :: ws =>
      if negb (overlaps (w_query w.2) e) then visits e ws r i
      else
        match answer (r_cache r) (w_query w.2) i with
        | (i, Ok (a, cache)) => visits e ws (deliver_answer w a cache r) i
        | (i, Err err) => (i, r, Err err)
        end
  end.

Definition record_updates (us : list (Z * option string * Q)) (ws : gmap Z (Watch Q)) : gmap Z (Watch Q) :=
  foldl (λ ws u, alter (λ _, mkWatch u.2 u.1.2) u.1.1 ws) ws us.

Definition drop_stale (ids : list Z) (ws : gmap Z (Watch Q)) : gmap Z (Watch Q) := foldl (λ ws id, delete id ws) ws ids.

(** [notify_subscribers].  When an answer fails, what was sent stays sent and nothing is
recorded. *)
Definition notify (e : ChangeEvent) (s : Subs Q A) (i : Inner) : Inner * Subs Q A * result unit :=
  match visits e (by_id (watchers s)) (mkRound [] (channels s) [] []) i with
  | (i, r, Ok _) =>
      (i, mkSubs (drop_stale (r_stale r) (record_updates (r_updates r) (watchers s))) (r_channels r) (next_subscription_id s), Ok tt)
  | (i, r, Err err) => (i, mkSubs (watchers s) (r_channels r) (next_subscription_id s), Err err)
  end.

(** * What a subscriber is told *)

(** The watcher and channel of a subscriber after an event, given the answer. *)
Definition told (e : ChangeEvent) (a : A) (w : Watch Q) (c : option (Chan A)) : option (Watch Q) * option (Chan A) :=
  if negb (overlaps (w_query w) e) then (Some w, c)
  else if bool_decide (hash a = w_hash w) then (Some w, c)
  else
    match c ≫= send_watch_update a with
    | None => (None, c)
    | Some c => (Some (mkWatch (refresh (w_query w) a) (hash a)), Some c)
    end.

(** The answers of a set of states that answering does not leave. *)
Context (holds : Inner → Prop) (value : Q → A).
Hypothesis compute_stable : ∀ q i, holds i → (compute q i).2 = Ok (value q) ∧ holds (compute q i).1.
Hypothesis same_value : ∀ p q, same p q = true → value p = value q.

Definition cache_right (cache : list (Q * A)) : Prop := ∀ p, p ∈ cache → p.2 = value p.1.

Lemma answer_right cache q i : cache_right cache → holds i →
  ∃ cache' i', answer cache q i = (i', Ok (value q, cache')) ∧ cache_right cache' ∧ holds i'.
Proof.
  intros Hc Hi. unfold answer. destruct (cached cache q) as [a|] eqn:E.
  - unfold cached in E. destruct (List.find _ cache) as [p|] eqn:Ef; [|done]. simplify_eq/=.
    apply find_some in Ef as [Hp Hs]. exists cache, i. rewrite (Hc p) by (by apply list_elem_of_In).
    by rewrite (same_value _ _ Hs).
  - unfold mbind, M_bind. destruct (compute_stable q i Hi) as [H1 H2]. destruct (compute q i) as [i1 r]. cbn [fst snd] in *.
    subst r. exists ((q, value q) :: cache), i1. split_and!; [done| |done]. intros p [->|Hp]%elem_of_cons; [done|by apply Hc].
Qed.

Lemma drop_stale_lookup ids ws k : drop_stale ids ws !! k = if decide (k ∈ ids) then None else ws !! k.
Proof.
  revert ws. induction ids as [|x ids IH]; intros ws; [done|]. cbn [drop_stale foldl]. fold (drop_stale ids (delete x ws)). rewrite IH.
  destruct (decide (x = k)) as [->|Hne].
  - rewrite lookup_delete_eq. rewrite (decide_True (P := k ∈ k :: ids)) by set_solver. by case_decide.
  - rewrite lookup_delete_ne by done. destruct (decide (k ∈ ids)), (decide (k ∈ x :: ids)); set_solver.
Qed.

Lemma record_updates_snoc us u ws :
  record_updates (us ++ [u]) ws = alter (λ _, mkWatch u.2 u.1.2) u.1.1 (record_updates us ws).
Proof. unfold record_updates. by rewrite foldl_app. Qed.

(** The loop's variables after the watchers [seen], for a database that had [ws0] and
[cs0]. *)
Definition round_right (e : ChangeEvent) (ws0 : gmap Z (Watch Q)) (cs0 : gmap Z (Chan A)) (seen : list Z) (r : Round) : Prop :=
  cache_right (r_cache r) ∧
  ∀ k,
    if decide (k ∈ seen) then
      ∃ w, ws0 !! k = Some w ∧
        ((if decide (k ∈ r_stale r) then None else record_updates (r_updates r) ws0 !! k), r_channels r !! k) =
        told e (value (w_query w)) w (cs0 !! k)
    else k ∉ r_stale r ∧ record_updates (r_updates r) ws0 !! k = ws0 !! k ∧ r_channels r !! k = cs0 !! k.

Lemma round_new e ws0 cs0 : round_right e ws0 cs0 [] (mkRound [] cs0 [] []).
Proof. split; [intros p Hp; by apply not_elem_of_nil in Hp|]. intros k. rewrite decide_False by apply not_elem_of_nil. set_solver. Qed.

(** A watcher that is not told anything. *)
Lemma round_skip e ws0 cs0 seen r k w cache :
  round_right e ws0 cs0 seen r → k ∉ seen → ws0 !! k = Some w → cache_right cache →
  told e (value (w_query w)) w (cs0 !! k) = (Some w, cs0 !! k) →
  round_right e ws0 cs0 (seen ++ [k]) (mkRound cache (r_channels r) (r_stale r) (r_updates r)).
Proof.
  intros [_ Hr] Hk Hw Hc Ht. split; [done|]. intros j. specialize (Hr j). destruct (decide (j = k)) as [->|Hne].
  - rewrite decide_True by set_solver. rewrite decide_False in Hr by done. destruct Hr as (Hs & Hu & Hch). exists w. split; [done|].
    cbn [r_stale r_updates r_channels]. by rewrite decide_False, Hu, Hch, Hw.
  - destruct (decide (j ∈ seen)); [rewrite decide_True by set_solver|rewrite decide_False by set_solver]; exact Hr.
Qed.

Lemma round_deliver e ws0 cs0 seen r k w cache :
  round_right e ws0 cs0 seen r → k ∉ seen → ws0 !! k = Some w → cache_right cache → overlaps (w_query w) e = true →
  round_right e ws0 cs0 (seen ++ [k]) (deliver_answer (k, w) (value (w_query w)) cache r).
Proof.
  intros Hr Hk Hw Hc Ho. unfold deliver_answer. cbn [fst snd]. case_bool_decide as Hh.
  { apply (round_skip e ws0 cs0 seen r k w cache); try done. unfold told. by rewrite Ho, bool_decide_eq_true_2. }
  destruct Hr as [_ Hr]. pose proof (Hr k) as Hrk. rewrite decide_False in Hrk by done. destruct Hrk as (Hs & Hu & Hch).
  rewrite Hch. assert (told e (value (w_query w)) w (cs0 !! k) =
    match cs0 !! k ≫= send_watch_update (value (w_query w)) with
    | None => (None, cs0 !! k) | Some c => (Some (mkWatch (refresh (w_query w) (value (w_query w))) (hash (value (w_query w)))), Some c) end) as Ht.
  { unfold told. rewrite Ho. cbn [negb]. by rewrite bool_decide_eq_false_2. }
  destruct (cs0 !! k ≫= send_watch_update _) as [c|] eqn:Ec; (split; [done|]); intros j; specialize (Hr j);
    cbn [r_stale r_updates r_channels]; rewrite ?record_updates_snoc; cbn [fst snd]; (destruct (decide (j = k)) as [->|Hne]).
  - rewrite decide_True by set_solver. exists w. split; [done|]. by rewrite decide_False, lookup_alter_eq, Hu, Hw, lookup_insert_eq.
  - rewrite lookup_alter_ne, lookup_insert_ne by done.
    destruct (decide (j ∈ seen)); [rewrite decide_True by set_solver|rewrite decide_False by set_solver]; exact Hr.
  - rewrite decide_True by set_solver. exists w. split; [done|]. rewrite decide_True by set_solver. by rewrite Hch.
  - destruct (decide (j ∈ seen)); [rewrite decide_True by set_solver|rewrite decide_False by set_solver].
    + destruct Hr as (w' & Hw' & Hr). exists w'. split; [done|]. rewrite <-Hr. f_equal. by repeat case_decide; set_solver.
    + set_solver.
Qed.

Lemma visits_right e ws0 cs0 ws seen r i :
  NoDup (seen ++ ws.*1) → (∀ k w, (k, w) ∈ ws → ws0 !! k = Some w) → holds i → round_right e ws0 cs0 seen r →
  ∃ i' r', visits e ws r i = (i', r', Ok tt) ∧ holds i' ∧ round_right e ws0 cs0 (seen ++ ws.*1) r'.
Proof.
  revert seen r i. induction ws as [|[k w] ws IH]; intros seen r i Hnd Hws Hi Hr.
  { exists i, r. rewrite app_nil_r. done. }
  rewrite fmap_cons in *. cbn [fst] in *. assert (seen ++ k :: ws.*1 = (seen ++ [k]) ++ ws.*1) as Es by by rewrite <-app_assoc.
  rewrite Es in *. assert (k ∉ seen) as Hk.
  { apply NoDup_app in Hnd as (Hnd & _). apply NoDup_app in Hnd as (_ & Hd & _). intros Hin. specialize (Hd k Hin). set_solver. }
  assert (ws0 !! k = Some w) as Hw by (apply Hws; set_solver). assert (∀ k w, (k, w) ∈ ws → ws0 !! k = Some w) as Hws' by set_solver.
  cbn [visits fst snd]. destruct (overlaps (w_query w) e) eqn:Ho; cbn [negb].
  - destruct (answer_right (r_cache r) (w_query w) i) as (cache & i1 & -> & Hc & Hi1); [apply Hr|done|].
    apply IH; [done..|]. by apply round_deliver.
  - apply IH; [done..|]. destruct r as [c ch st us]. apply (round_skip e ws0 cs0 seen (mkRound c ch st us) k w c); try done; [apply Hr|].
    unfold told. by rewrite Ho.
Qed.

(** What [notify] does: every watcher is told, on its own, what the answer to its question
is; the cache, the deferred updates and the order of the loop make no difference. *)
Lemma notify_told e s i : holds i →
  ∃ i' s', notify e s i = (i', s', Ok tt) ∧ holds i' ∧
  ∀ k, match watchers s !! k with
       | Some w => (watchers s' !! k, channels s' !! k) = told e (value (w_query w)) w (channels s !! k)
       | None => watchers s' !! k = None ∧ channels s' !! k = channels s !! k
       end.
Proof.
  intros Hi. assert (by_id (watchers s) ≡ₚ map_to_list (watchers s)) as Hp by apply merge_sort_Permutation.
  destruct (visits_right e (watchers s) (channels s) (by_id (watchers s)) [] (mkRound [] (channels s) [] []) i)
    as (i' & r & E & Hi' & Hr).
  - cbn [app]. rewrite Hp. apply NoDup_fst_map_to_list.
  - intros k w Hin. rewrite Hp in Hin. by apply elem_of_map_to_list.
  - done.
  - apply round_new.
  - unfold notify. rewrite E. eexists _, _. split; [done|]. split; [done|]. intros k. cbn [watchers channels].
    destruct Hr as [_ Hr]. specialize (Hr k). cbn [app] in Hr. rewrite drop_stale_lookup.
    assert (k ∈ (by_id (watchers s)).*1 ↔ is_Some (watchers s !! k)) as Hin.
    { rewrite Hp, list_elem_of_fmap. split.
      - intros ([k' w] & -> & Hin%elem_of_map_to_list). by exists w.
      - intros [w Hw]. exists (k, w). split; [done|]. by apply elem_of_map_to_list. }
    destruct (watchers s !! k) as [w|] eqn:Ew.
    + rewrite decide_True in Hr by (apply Hin; eauto). destruct Hr as (w' & [= ->] & Hr). exact Hr.
    + rewrite decide_False in Hr by (rewrite Hin; by intros []). destruct Hr as (Hs & Hu & Hc).
      by rewrite decide_False, Hu.
Qed.
End kind.

(** * The kinds of watch *)

Section kinds.
Context `{HC : Codec, HE : Env, W : !Wire, Sv : !Services}.

(** ** Paths *)

Record PathQuery := mkPathQuery { pq_anchor : NodeId; pq_segments : list string }.

#[global] Instance PathQuery_eq_dec : EqDecision PathQuery.
Proof. solve_decision. Defined.

Definition path_overlap (q : PathQuery) (e : ChangeEvent) : bool :=
  full_refresh (impact e) || watch_change_overlaps (watch_path_key (pq_anchor q) (pq_segments q)) e.

(** A read that fails is shown as an absent value. *)
Definition read_or_none (q : PathQuery) : M (option json) := λ i,
  match materialize_inner (pq_anchor q) (pq_segments q) i with
  | (i, Ok v) => (i, Ok v)
  | (i, Err _) => (i, Ok None)
  end.

Context (value_hash : option json → option string).

Definition subscribe_to (a : NodeId) (segs : list string) (s : Subs PathQuery (option json)) : M (Subs PathQuery (option json) * Z) :=
  _ ← resolve_cursor a segs;
  subscribe value_hash (λ _, mkPathQuery a segs) (materialize_inner a segs) s.

Definition notify_subscribers : ChangeEvent → Subs PathQuery (option json) → Inner → Inner * Subs PathQuery (option json) * result unit :=
  notify path_overlap read_or_none value_hash (λ q _, q) (λ p q, bool_decide (p = q)).

(** ** Record scans *)

Context (scan_hash : RecordScanResult → option string).

Definition subscribe_to_records (scan : RecordScan) (s : Subs RecordScan RecordScanResult) : M (Subs RecordScan RecordScanResult * Z) :=
  subscribe scan_hash (λ _, scan) (serve_records scan) s.

Definition notify_record_subscribers : ChangeEvent → Subs RecordScan RecordScanResult → Inner → Inner * Subs RecordScan RecordScanResult * result unit :=
  notify record_watch_change_overlaps serve_records scan_hash (λ q _, q) (λ p q, bool_decide (p = q)).

(** ** Traversals *)

Record TraversalQuery := mkTraversalQuery {
  tq_anchor : NodeId;
  tq_segments : list string;
  tq_spec : TraversalSpec;
  tq_dependencies : list string
}.

Definition traversal_dependency_paths (a : NodeId) (segs : list string) (r : TraversalResult) : list string :=
  sorted_set (watch_path_key a segs ::
    concat ((λ en, trav_node en :: match trav_via en with
                                   | Some ed => [edge_source ed; edge_source ed +:+ "/" +:+ edge_field ed; edge_target ed]
                                   | None => []
                                   end) <$> trav_entries r) ++ trav_missing r ++ denied r).

Definition traversal_watch_change_overlaps (q : TraversalQuery) (e : ChangeEvent) : bool :=
  full_refresh (impact e) || existsb (λ p, watch_change_overlaps p e) (tq_dependencies q).

(** The loop of a traversal ends, see [Traversal]; the nodes it asks a scheduler for are
not part of the answer. *)
Definition traverse (schedulers : bool) (q : TraversalQuery) : M TraversalResult := λ i,
  match traverse_at schedulers (tq_anchor q) (tq_segments q) (tq_spec q) i with
  | (i, Some (Ok (r, _))) => (i, Ok r)
  | (i, Some (Err e)) => (i, Err e)
  | (i, None) => (i, Ok (mkTravResult [] false false false false 0 [] []))
  end.

Context (traversal_hash : TraversalResult → option string) (schedulers : bool) `{EqDecision TraversalSpec}.

Definition with_dependencies (q : TraversalQuery) (r : TraversalResult) : TraversalQuery :=
  mkTraversalQuery (tq_anchor q) (tq_segments q) (tq_spec q) (traversal_dependency_paths (tq_anchor q) (tq_segments q) r).

Definition subscribe_to_traversal (a : NodeId) (segs : list string) (spec : TraversalSpec) (s : Subs TraversalQuery TraversalResult)
    : M (Subs TraversalQuery TraversalResult * Z) :=
  let q := mkTraversalQuery a segs spec [] in
  subscribe traversal_hash (with_dependencies q) (traverse schedulers q) s.

Definition same_traversal (p q : TraversalQuery) : bool :=
  bool_decide (tq_anchor p = tq_anchor q ∧ tq_segments p = tq_segments q ∧ tq_spec p = tq_spec q).

Definition notify_traversal_subscribers : ChangeEvent → Subs TraversalQuery TraversalResult → Inner →
    Inner * Subs TraversalQuery TraversalResult * result unit :=
  notify traversal_watch_change_overlaps (traverse schedulers) traversal_hash with_dependencies same_traversal.

(** ** Searches *)

Record VectorWatchQuery := mkVectorWatch { vw_collection : string; vw_request : VectorRequest }.
Record TextWatchQuery := mkTextWatch { tw_source : TextSearchSource; tw_query : TextQuery }.

Context (vector_hash : VectorSearchResult → option string) (text_hash : TextSearchResult → option string)
  (same_vector : VectorWatchQuery → VectorWatchQuery → bool) (same_text : TextWatchQuery → TextWatchQuery → bool).

Definition subscribe_to_vector_search (q : VectorWatchQuery) (s : Subs VectorWatchQuery VectorSearchResult) :=
  subscribe vector_hash (λ _, q) (search_vectors (vw_collection q) (vw_request q)) s.

Definition notify_vector_subscribers : ChangeEvent → Subs VectorWatchQuery VectorSearchResult → Inner →
    Inner * Subs VectorWatchQuery VectorSearchResult * result unit :=
  notify (λ q, vector_watch_change_overlaps (vw_collection q)) (λ q, search_vectors (vw_collection q) (vw_request q))
    vector_hash (λ q _, q) same_vector.

Definition subscribe_to_text_search (q : TextWatchQuery) (s : Subs TextWatchQuery TextSearchResult) :=
  subscribe text_hash (λ _, q) (text_search (tw_source q) (tw_query q)) s.

Definition notify_text_subscribers : ChangeEvent → Subs TextWatchQuery TextSearchResult → Inner →
    Inner * Subs TextWatchQuery TextSearchResult * result unit :=
  notify (λ q, text_watch_change_overlaps (tw_source q)) (λ q, text_search (tw_source q) (tw_query q))
    text_hash (λ q _, q) same_text.

(** ** Changes *)

Definition event_sent (e : ChangeEvent) (cs : gmap Z (Chan ChangeEvent)) (id : Z) : option (Chan ChangeEvent) :=
  cs !! id ≫= send_watch_update e.

Definition notify_change_subscribers (e : ChangeEvent) (pending : nat) (s : Subs unit ChangeEvent) : Subs unit ChangeEvent :=
  let e := mkChangeEvent (ev_revision e) pending (impact e) in
  mkSubs (filter (λ w, is_Some (event_sent e (channels s) w.1)) (watchers s))
    (map_imap (λ id c, Some (if decide (is_Some (watchers s !! id)) then default c (send_watch_update e c) else c)) (channels s))
    (next_subscription_id s).

Definition subscribe_changes (revision : Z) (pending : nat) (s : Subs unit ChangeEvent) : Subs unit ChangeEvent * Z :=
  let id := sat_add u64_max (next_subscription_id s) 1 in
  (mkSubs (<[id := mkWatch tt None]> (watchers s))
     (<[id := mkChan [mkChangeEvent revision pending (mkImpact false false [] false [])] false]> (channels s)) id, id).

(** * After a change *)

Record Notifier := mkNotifier {
  change_revision : Z;
  path_subs : Subs PathQuery (option json);
  traversal_subs : Subs TraversalQuery TraversalResult;
  record_subs : Subs RecordScan RecordScanResult;
  vector_subs : Subs VectorWatchQuery VectorSearchResult;
  text_subs : Subs TextWatchQuery TextSearchResult;
  change_subs : Subs unit ChangeEvent
}.

(** The notification of the watchers of data, in the order of the source; a failure leaves
the later kinds as they are. *)
Definition notify_data (e : ChangeEvent) (n : Notifier) (i : Inner) : Inner * Notifier * result unit :=
  let '(i, ps, r) := notify_subscribers e (path_subs n) i in
  let n := mkNotifier (change_revision n) ps (traversal_subs n) (record_subs n) (vector_subs n) (text_subs n) (change_subs n) in
  match r with Err err => (i, n, Err err) | Ok _ =>
  let '(i, ts, r) := notify_traversal_subscribers e (traversal_subs n) i in
  let n := mkNotifier (change_revision n) ps ts (record_subs n) (vector_subs n) (text_subs n) (change_subs n) in
  match r with Err err => (i, n, Err err) | Ok _ =>
  let '(i, rs, r) := notify_record_subscribers e (record_subs n) i in
  let n := mkNotifier (change_revision n) ps ts rs (vector_subs n) (text_subs n) (change_subs n) in
  match r with Err err => (i, n, Err err) | Ok _ =>
  let '(i, vs, r) := notify_vector_subscribers e (vector_subs n) i in
  let n := mkNotifier (change_revision n) ps ts rs vs (text_subs n) (change_subs n) in
  match r with Err err => (i, n, Err err) | Ok _ =>
  let '(i, xs, r) := notify_text_subscribers e (text_subs n) i in
  (i, mkNotifier (change_revision n) ps ts rs vs xs (change_subs n), r)
  end end end end.

(** [finalize_change]: [persist] is [persist_if_needed], see [Persist]. *)
Definition finalize_change (persist : Inner → Inner * result unit) (m : ChangeImpact) (n : Notifier) (i : Inner)
    : Inner * Notifier * result unit :=
  let rev := sat_add u64_max (change_revision n) 1 in
  let e := mkChangeEvent rev (queue_len (pending_ops i)) m in
  let n := mkNotifier rev (path_subs n) (traversal_subs n) (record_subs n) (vector_subs n) (text_subs n) (change_subs n) in
  match persist i with
  | (i, Err err) => (i, n, Err err)
  | (i, Ok _) =>
      let '(i, n, r) := if data_changed m then notify_data e n i else (i, n, Ok tt) in
      match r with
      | Err err => (i, n, Err err)
      | Ok _ =>
          (i, mkNotifier (change_revision n) (path_subs n) (traversal_subs n) (record_subs n) (vector_subs n) (text_subs n)
                (notify_change_subscribers e (queue_len (pending_ops i)) (change_subs n)), Ok tt)
      end
  end.
End kinds.

(** * Subscribers of paths *)

Section paths.
Context `{HC : Codec, HE : Env, Laws : !EnvLaws} (value_hash : option json → option string).

Definition read_now (q : PathQuery) (i : Inner) : option json :=
  match (materialize_inner (pq_anchor q) (pq_segments q) i).2 with Ok v => v | Err _ => None end.

Lemma read_stable i q j : shows (universe i) ∅ (view i) j →
  (read_or_none q j).2 = Ok (read_now q i) ∧ shows (universe i) ∅ (view i) (read_or_none q j).1.
Proof.
  intros Hj. unfold read_or_none, read_now.
  destruct (materialize_inner_pure (universe i) ∅ (view i) (pq_anchor q) (pq_segments q) j Hj) as [H1 H2].
  destruct (materialize_inner_pure (universe i) ∅ (view i) (pq_anchor q) (pq_segments q) i (shows_view i)) as [-> _].
  destruct (materialize_inner _ _ j) as [j1 [v|err]]; cbn [fst snd] in *; by rewrite <-H1.
Qed.

(** Each subscriber on its own. *)
Lemma notify_paths_told e s i :
  ∃ i' s', notify_subscribers value_hash e s i = (i', s', Ok tt) ∧ (∀ n, view i' n = view i n) ∧
  ∀ k, match watchers s !! k with
       | Some w => (watchers s' !! k, channels s' !! k) =
                   told path_overlap value_hash (λ q _, q) e (read_now (w_query w) i) w (channels s !! k)
       | None => watchers s' !! k = None ∧ channels s' !! k = channels s !! k
       end.
Proof.
  destruct (notify_told path_overlap read_or_none value_hash (λ q _, q) (λ p q, bool_decide (p = q))
    (shows (universe i) ∅ (view i)) (λ q, read_now q i) (read_stable i)) with e s i as (i' & s' & E & Hi & Hk).
  - intros p q ->%bool_decide_eq_true. done.
  - apply shows_view.
  - exists i', s'. split_and!; [exact E|apply Hi|exact Hk].
Qed.

(** Notifying the subscribers of paths after a change succeeds, changes nothing that
reads show, and tells each subscriber on its own: one whose path overlaps the change
and whose value has a new hash gets the value now read at its path as its newest
update (or is forgotten when it closed its channel), the others nothing.  Computing
shared answers once, and recording the hashes after the loop, make no difference. *)
Lemma subscribers_told e s i :
  ∃ i' s', notify_subscribers value_hash e s i = (i', s', Ok tt) ∧ (∀ n, view i' n = view i n) ∧
  ∀ k, match watchers s !! k with
       | Some w => (watchers s' !! k, channels s' !! k) =
                   told path_overlap value_hash (λ q _, q) e (read_now (w_query w) i) w (channels s !! k)
       | None => watchers s' !! k = None ∧ channels s' !! k = channels s !! k
       end.
Proof. apply notify_paths_told. Qed.

(** What a database and its subscribers of paths do. *)
Inductive path_step : Inner * Subs PathQuery (option json) → Inner * Subs PathQuery (option json) → Prop :=
  | ps_subscribe a segs i s i' r : subscribe_to value_hash a segs s i = (i', Ok r) → path_step (i, s) (i', r.1)
  | ps_notify e i s i' s' r : notify_subscribers value_hash e s i = (i', s', r) → path_step (i, s) (i', s')
  | ps_receive id i s : path_step (i, s) (i, (receive id s).1)
  | ps_unsubscribe id i s : path_step (i, s) (i, unsubscribe id s)
  | ps_hang_up id i s : path_step (i, s) (i, hang_up id s)
  | ps_change i s i' : path_step (i, s) (i', s).

(** The newest update that waits in a channel is the one whose hash is recorded. *)
Definition newest_recorded (s : Subs PathQuery (option json)) : Prop :=
  ∀ k w c a, watchers s !! k = Some w → channels s !! k = Some c → last (chan_queue c) = Some a → value_hash a = w_hash w.

Lemma send_last {A} (a : A) c c' : send_watch_update a c = Some c' → last (chan_queue c') = Some a.
Proof.
  unfold send_watch_update. destruct (chan_closed c); [done|]. intros [= <-]. cbn [chan_queue].
  rewrite drop_app_le; [by rewrite last_snoc|]. unfold LOCAL_WATCH_QUEUE_CAPACITY. lia.
Qed.

Lemma told_newest e a w c : (∀ x ch, c = Some ch → last (chan_queue ch) = Some x → value_hash x = w_hash w) →
  ∀ w' c' x, told path_overlap value_hash (λ q _, q) e a w c = (Some w', Some c') → last (chan_queue c') = Some x →
  value_hash x = w_hash w'.
Proof.
  intros Hc w' c' x. unfold told. destruct (negb _); [intros [= <- ->]; by apply Hc|]. case_bool_decide; [intros [= <- ->]; by apply Hc|].
  destruct c as [ch|]; [|done]. cbn. destruct (send_watch_update a ch) as [ch'|] eqn:E; [|done]. intros [= <- <-].
  rewrite (send_last _ _ _ E). by intros [= ->].
Qed.

Lemma path_step_newest x y : path_step x y → newest_recorded x.2 → newest_recorded y.2.
Proof.
  intros Hstep Hx. destruct Hstep as [a segs i s i' r E|e i s i' s' r E|id i s|id i s|id i s|i s i']; cbn [snd] in *.
  - unfold subscribe_to, subscribe, mbind, M_bind in E. destruct (resolve_cursor a segs i) as [i1 [cu|?]]; [|done].
    destruct (materialize_inner a segs i1) as [i2 [v|?]]; [|done]. injection E as <- <-. intros k w c x. cbn [fst watchers channels].
    rewrite !lookup_insert_Some. intros [[<- <-]|[Hk Hw]] [[? <-]|[Hk' Hc]]; simplify_eq/=; [by intros [= ->]|by eauto].
  - destruct (notify_paths_told e s i) as (i1 & s1 & E1 & _ & Hk). rewrite E in E1. simplify_eq. intros k w' c' x Hw' Hc' Hl.
    specialize (Hk k). destruct (watchers s !! k) as [w|] eqn:Ew; [|naive_solver]. rewrite Hw', Hc' in Hk.
    eapply told_newest; [|by rewrite <-Hk|exact Hl]. intros y ch Hch Hy. by eapply Hx.
  - unfold receive. destruct (channels s !! id) as [c|] eqn:Ec; [|done]. intros k w c' x Hw. cbn [fst watchers channels] in *.
    rewrite lookup_insert_Some. intros [[<- <-]|[_ Hc]]; [|exact (Hx _ _ _ _ Hw Hc)]. unfold take_update. destruct (chan_queue c) as [|y q] eqn:Eq; cbn [fst chan_queue].
    + rewrite Eq. done.
    + intros Hl. apply (Hx _ _ _ _ Hw Ec). rewrite Eq. destruct q; [done|]. exact Hl.
  - intros k w c x. cbn [watchers channels unsubscribe]. intros [_ Hw]%lookup_delete_Some. rewrite lookup_alter_Some.
    intros [(<- & c0 & Hc & ->)|[_ Hc]]; exact (Hx _ _ _ _ Hw Hc).
  - intros k w c x Hw. cbn [channels hang_up]. rewrite lookup_alter_Some.
    intros [(<- & c0 & Hc & ->)|[_ Hc]]; exact (Hx _ _ _ _ Hw Hc).
  - done.
Qed.

End paths.

(** * Concrete subscribers *)

Module Desk.
#[local] Existing Instances demo_codec demo_env.

Definition name_of (v : option json) : option string :=
  match v with Some (JObject l) => match obj_get "name" l with Some (JString s) => Some s | _ => None end | _ => None end.

Definition put (n : string) (v : json) (i : Inner) : Inner := (put_json_inner n [] v i).1.
Definition named (s : string) : json := JObject [("name", JString s)].

Definition people : Inner :=
  put "ada" (JObject [("name", JString "Ada"); ("friend", JObject [("$link", JString "bob")])]) (put "bob" (named "Bob") demo_db).

Definition ada : PathQuery := mkPathQuery "ada" [].
Definition touching (p : string) : ChangeEvent := mkChangeEvent 1 0 (mkImpact true false [p] false []).

Definition watching : Subs PathQuery (option json) :=
  match subscribe_to name_of "ada" [] subs_new people with (_, Ok r) => r.1 | _ => subs_new end.
Definition renamed : Inner := put "ada" (named "Ada L.") people.

Definition updated : Subs PathQuery (option json) := (notify_subscribers name_of (touching "ada/name") watching renamed).1.2.


(** The subscriber of "ada" is told of its new name. *)
Lemma subscribers_told_witness :
  ∃ w, watchers watching !! 1%Z = Some w ∧
  (watchers updated !! 1%Z, channels updated !! 1%Z) =
    told path_overlap name_of (λ q _, q) (touching "ada/name") (read_now (w_query w) renamed) w (channels watching !! 1%Z).
Proof.
  destruct (subscribers_told (Laws := demo_env_laws) name_of (touching "ada/name") watching renamed) as (i' & s' & E & _ & Hk).
  specialize (Hk 1%Z). destruct (watchers watching !! 1%Z) as [w|] eqn:Ew; [|by vm_compute in Ew].
  exists w. split; [exact eq_refl|]. unfold updated. rewrite E. exact Hk.
Defined.

(** What is read at a path follows links, but a change of a node that is linked to touches
only that node's path: the value at "ada" is another one, and its subscribers are not
concerned. *)
Lemma linked_change_unnoticed :
  let i := put "bob" (named "Robert") people in
  read_now ada i ≠ read_now ada people ∧ path_overlap ada (touching "bob/name") = false.
Proof. split; [by vm_compute|done]. Qed.

(** The queue of a subscriber of changes is bounded like those of values, but an event is
not a newest state: the oldest is dropped, and no later one says what it touched. *)
Lemma change_event_evicted :
  let start := (subscribe_changes 0 0 subs_new).1 in
  let event n := touching ("n" +:+ hex n) in
  let after := foldl (λ s n, notify_change_subscribers (event n) 0 s) start (Z.of_nat <$> seq 1 65) in
  match channels after !! 1%Z with
  | Some c => length (chan_queue c) = 64 ∧ forallb (λ e, negb (watch_change_overlaps "n1" e)) (chan_queue c) = true
  | None => False
  end.
Proof. by vm_compute. Qed.

(** A traversal of inbound edges depends on the paths of the nodes it found, but a new edge
touches the path of its source, which it has not. *)
Definition inbound : TraversalSpec := mkTraversal Inbound Bfs 1 None None true true false false [] false 0.
Definition found (i : Inner) : list NodeId :=
  match traverse false (mkTraversalQuery "bob" [] inbound []) i with (_, Ok r) => trav_node <$> trav_entries r | _ => [] end.
Definition asks : list string :=
  match traverse false (mkTraversalQuery "bob" [] inbound []) people with (_, Ok r) => traversal_dependency_paths "bob" [] r | _ => [] end.

Lemma inbound_edge_unnoticed :
  let i := put "eve" (JObject [("friend", JObject [("$link", JString "bob")])]) people in
  found people = ["ada"] ∧ found i = ["ada"; "eve"] ∧
  traversal_watch_change_overlaps (mkTraversalQuery "bob" [] inbound asks) (touching "eve/friend") = false.
Proof. by vm_compute. Qed.
End Desk.
