(* ===== verification/Relay.v ===== *)
(** The relay between sessions ([RouteRelayCore] of [src/src/transport.rs]).

A session's handle is what messages for it are given to.  The counter of the relay's
own routes, a global of the source, is a field of the relay. *)
From stdpp Require Import base gmap sets list strings sorting.
From Stdlib Require Import ZArith Lia.
From S2P Require Import Prelude Clock Value Crdt Merge OpQueue RelIndex Paths Records Keys Engine Segment Input Inner Read View Query Traversal InnerWf Tx Db SessionAuth Protocol Router.

(** * [str::trim] and the urls of a peer *)

(** The encodings of the characters with the Unicode property [White_Space]. *)
Definition bytes (l : list nat) : string := foldr (λ n s, String (Ascii.ascii_of_nat n) s) "" l.

Definition white_space : list string :=
  bytes <$> ([[9]; [10]; [11]; [12]; [13]; [32]; [194; 133]; [194; 160]; [225; 154; 128]] ++
    ((λ n, [226; 128; n]) <$> (seq 128 11 ++ [168; 169; 175])) ++ [[226; 129; 159]; [227; 128; 128]]).

Definition first_some {A B} (f : A → option B) (l : list A) : option B := head (omap f l).

Fixpoint trim_start (fuel : nat) (s : string) : string :=
  match fuel with
  | O => s
  | S f => match first_some (λ w, strip_prefix w s) white_space with Some t => trim_start f t | None => s end
  end.

Fixpoint trim_end (fuel : nat) (s : string) : string :=
  match fuel with
  | O => s
  | S f => match first_some (λ w, strip_suffix w s) white_space with Some t => trim_end f t | None => s end
  end.

(** Each turn removes a byte, so the length is fuel enough. *)
Definition str_trim (s : string) : string :=
  let t := trim_start (String.length s) s in trim_end (String.length t) t.

Definition relay_urls_of (p : PeerPresence) : list string :=
  match peer_metadata p !! "relay_url" with
  | Some v => filter (λ u, u ≠ "") (str_trim <$> split_on "," v)
  | None => []
  end.

Definition recommendation_score (p : PeerPresence) : Z :=
  50 + Z.of_nat (min (length (capabilities p)) 8) * 10 + Z.of_nat (min (length (topics p)) 8) * 5.

(** * The relay *)

Section relay.
Context `{RouteEnv} {T : Type}.

Record PresenceRecord := mkPresenceRecord { pr_peer : PeerPresence; pr_route : RouteEnvelope }.

Record RouteRelaySession := mkSession { handle : T; session_presence : option PresenceRecord }.

Record RouteRelayForward := mkForward {
  bootstrap : option RouteEnvelope;
  recipients : list T;
  fwd_route : option RouteEnvelope
}.

Record RouteRelayCore := mkRelay {
  relay_peer_id : string;
  relay_max_seen : nat;
  sessions : gmap Z RouteRelaySession;
  peer_index : gmap string Z;
  relay_routes : gmap string Z;
  relay_content : gmap string Z;
  relay_counter : Z
}.

(** [fetch_add] wraps. *)
Definition next_relay_id (n : Z) : Z := (n + 1) mod (u64_max + 1).

Definition relay_new (peer : string) (max_seen : nat) : RouteRelayCore :=
  mkRelay peer (max max_seen 1) ∅ ∅ ∅ ∅ 1.

(** The sessions in the order of their numbers. *)
Definition session_le (x y : Z * RouteRelaySession) : Prop := (x.1 ≤ y.1)%Z.

#[local] Instance session_le_dec : RelDecision session_le.
Proof. intros x y. unfold session_le. apply _. Defined.

Definition session_list (r : RouteRelayCore) : list (Z * RouteRelaySession) :=
  merge_sort session_le (map_to_list (sessions r)).

Definition insert_session (r : RouteRelayCore) (sid : Z) (h : T) : RouteRelayCore :=
  mkRelay (relay_peer_id r) (relay_max_seen r) (<[sid := mkSession h None]> (sessions r)) (peer_index r)
    (relay_routes r) (relay_content r) (relay_counter r).

Definition session_handle (r : RouteRelayCore) (sid : Z) : option T := handle <$> sessions r !! sid.

Definition session_handles_except (r : RouteRelayCore) (sid : Z) : list T :=
  (λ e, handle e.2) <$> filter (λ e, e.1 ≠ sid) (session_list r).

(** The test of each session for a broadcast on a channel and for a topic. *)
Definition hears_channel (chan : string) (s : RouteRelaySession) : bool :=
  match session_presence s with Some p => bool_decide (channel (pr_route p) = chan) | None => true end.

Definition hears_topic (topic : string) (s : RouteRelaySession) : bool :=
  match session_presence s with
  | Some p => bool_decide (topic ∈ topics (pr_peer p)) || bool_decide (channel (pr_route p) = topic)
  | None => false
  end.

Definition collect_route_recipients (r : RouteRelayCore) (sender : Z) (e : RouteEnvelope) : list T :=
  match target e with
  | ToPeer p =>
      match peer_index r !! p with
      | Some sid => if bool_decide (sid = sender) then [] else option_list (handle <$> sessions r !! sid)
      | None => []
      end
  | Broadcast =>
      (λ s, handle s.2) <$> filter (λ s, s.1 ≠ sender ∧ hears_channel (channel e) s.2 = true) (session_list r)
  | ToTopic topic =>
      (λ s, handle s.2) <$> filter (λ s, s.1 ≠ sender ∧ hears_topic topic s.2 = true) (session_list r)
  end.

Definition collect_peer_recommendations (r : RouteRelayCore) (exclude : Z) : list PeerRecommendation :=
  omap (λ s, if bool_decide (s.1 = exclude) then None
             else (λ p, mkRecommendation (pr_peer p) (relay_urls_of (pr_peer p))
                          (recommendation_score (pr_peer p)) route_now) <$> session_presence s.2)
    (session_list r).

(** The bootstrap route, and the counter after it. *)
Definition build_bootstrap_route (r : RouteRelayCore) (chan peer : string) (existing : list RouteEnvelope)
    (recommendations : list PeerRecommendation) : option RouteEnvelope * Z :=
  let items :=
    omap (λ e, match payload e with Single (IPresence p) => Some (IPresence p) | _ => None end) existing ++
    (match recommendations with [] => [] | _ => [IPeerExchange recommendations] end) in
  match items with
  | [] => (None, relay_counter r)
  | _ =>
      (Some (mkEnvelope (relay_peer_id r +:+ "/bootstrap/" +:+ hex (relay_counter r)) (relay_peer_id r) chan
               (ToPeer peer) 1 0 route_now None (stable_content_hash (Batch items)) [relay_peer_id r] (Batch items)),
       next_relay_id (relay_counter r))
  end.

Definition relay_seen (r : RouteRelayCore) (e : RouteEnvelope) : bool :=
  bool_decide (relay_peer_id r ∈ seen_by e)
  || bool_decide (is_Some (relay_routes r !! route_id e))
  || match dedupe_key e with Some k => bool_decide (is_Some (relay_content r !! k)) | None => false end.

(** The route as it leaves the relay. *)
Definition stamped (r : RouteRelayCore) (e : RouteEnvelope) : RouteEnvelope :=
  mkEnvelope (route_id e) (from e) (channel e) (target e) (ttl e) (hops e) (issued_at_millis e) (reply_to e)
    (match content_hash e with None => stable_content_hash (payload e) | h => h end)
    (if bool_decide (relay_peer_id r ∈ seen_by e) then seen_by e else seen_by e ++ [relay_peer_id r]) (payload e).

(** What a presence changes: the index, the session and the bootstrap answer. *)
Definition register_presence (r : RouteRelayCore) (sid : Z) (p : PeerPresence) (e : RouteEnvelope)
    : RouteRelayCore * option RouteEnvelope :=
  let existing := omap (λ s, if bool_decide (s.1 = sid) then None else pr_route <$> session_presence s.2)
                    (session_list r) in
  let '(boot, counter) :=
    build_bootstrap_route r (channel e) (peer_id p) existing (collect_peer_recommendations r sid) in
  let index :=
    match sessions r !! sid ≫= session_presence with
    | Some previous => delete (peer_id (pr_peer previous)) (peer_index r)
    | None => peer_index r
    end in
  (mkRelay (relay_peer_id r) (relay_max_seen r)
     (match sessions r !! sid with
      | Some s => <[sid := mkSession (handle s) (Some (mkPresenceRecord p e))]> (sessions r)
      | None => sessions r
      end)
     (<[peer_id p := sid]> index) (relay_routes r) (relay_content r) counter, boot).

Definition forward_route (r : RouteRelayCore) (sid : Z) (e : RouteEnvelope) : RouteRelayCore * RouteRelayForward :=
  if relay_seen r e then (r, mkForward None [] None)
  else
    let r := mkRelay (relay_peer_id r) (relay_max_seen r) (sessions r) (peer_index r)
               (trim_seen_cache (<[route_id e := route_now]> (relay_routes r)) (relay_max_seen r))
               (match dedupe_key e with
                | Some k => trim_seen_cache (<[k := route_now]> (relay_content r)) (relay_max_seen r)
                | None => relay_content r
                end) (relay_counter r) in
    let e := stamped r e in
    let '(r, boot) :=
      match payload e with
      | Single (IPresence p) => register_presence r sid p e
      | _ => (r, None)
      end in
    (r, mkForward boot (collect_route_recipients r sid e) (Some e)).

Definition disconnect_session (r : RouteRelayCore) (sid : Z) : RouteRelayCore * option RouteRelayForward :=
  match sessions r !! sid with
  | None => (r, None)
  | Some s =>
      let rest := delete sid (sessions r) in
      match session_presence s with
      | None =>
          (mkRelay (relay_peer_id r) (relay_max_seen r) rest (peer_index r) (relay_routes r) (relay_content r)
             (relay_counter r), None)
      | Some p =>
          let gone := mkPresence (peer_id (pr_peer p)) (replica_id (pr_peer p)) (transport (pr_peer p))
                        (identity (pr_peer p)) (capabilities (pr_peer p)) (topics (pr_peer p))
                        (<["state" := "offline"]> (peer_metadata (pr_peer p))) in
          let number := relay_counter r in
          let r := mkRelay (relay_peer_id r) (relay_max_seen r) rest (delete (peer_id (pr_peer p)) (peer_index r))
                     (relay_routes r) (relay_content r) (next_relay_id (relay_counter r)) in
          let e := mkEnvelope (relay_peer_id r +:+ "/disconnect/" +:+ hex number) (relay_peer_id r)
                     (channel (pr_route p)) Broadcast 1 0 route_now None
                     (stable_content_hash (Single (IPresence gone))) [relay_peer_id r] (Single (IPresence gone)) in
          (r, Some (mkForward None (collect_route_recipients r sid e) (Some e)))
      end
  end.

(** * Who is handed a route *)

(** What the sessions of a relay can do: a new one connects, a connected one sends, one
disconnects. *)
Inductive relay_step (r : RouteRelayCore) : RouteRelayCore → Prop :=
  | relay_connect sid h : sessions r !! sid = None → relay_step r (insert_session r sid h)
  | relay_send sid e : is_Some (sessions r !! sid) → relay_step r (forward_route r sid e).1
  | relay_leave sid : relay_step r (disconnect_session r sid).1.

(** A session announced a peer. *)
Definition announces (s : RouteRelaySession) (p : string) : Prop :=
  ∃ pr, session_presence s = Some pr ∧ peer_id (pr_peer pr) = p.

Record relay_wf (r : RouteRelayCore) : Prop := {
  wf_index : ∀ p sid, peer_index r !! p = Some sid → ∃ s, sessions r !! sid = Some s ∧ announces s p;
  wf_routes : size (relay_routes r) ≤ relay_max_seen r;
  wf_content : size (relay_content r) ≤ relay_max_seen r
}.

Lemma register_wf r sid p e : relay_wf r → is_Some (sessions r !! sid) → relay_wf (register_presence r sid p e).1.
Proof.
  intros [Hi Hr Hc] [s Hs]. unfold register_presence.
  destruct (build_bootstrap_route _ _ _ _ _) as [boot counter]. rewrite Hs. simpl. split; simpl; [|done|done].
  intros q k. destruct (decide (q = peer_id p)) as [->|Hq].
  - rewrite lookup_insert_eq. intros [= <-]. rewrite lookup_insert_eq. eexists. split; [done|]. by eexists.
  - rewrite lookup_insert_ne by done. intros Hk.
    assert (peer_index r !! q = Some k ∧ (k = sid → False)) as [Hk' Hne].
    { destruct (session_presence s) as [pr|] eqn:E; simpl in Hk.
      - destruct (decide (q = peer_id (pr_peer pr))) as [->|Hq']; [by rewrite lookup_delete_eq in Hk|].
        rewrite lookup_delete_ne in Hk by done. split; [done|]. intros ->. destruct (Hi q sid Hk) as (s' & Hs' & pr' & E' & Hp').
        rewrite Hs in Hs'. injection Hs' as <-. rewrite E in E'. injection E' as <-. done.
      - split; [done|]. intros ->. destruct (Hi q sid Hk) as (s' & Hs' & pr' & E' & _). congruence. }
    destruct (Hi q k Hk') as (s' & Hs' & Ha). exists s'. split; [|done]. rewrite lookup_insert_ne by naive_solver. done.
Qed.

Lemma forward_wf r sid e : relay_wf r → is_Some (sessions r !! sid) → relay_wf (forward_route r sid e).1.
Proof.
  intros Hw Hs. unfold forward_route. destruct (relay_seen r e); [done|]. cbv zeta.
  set (r1 := mkRelay _ _ _ _ _ _ _). assert (relay_wf r1) as Hw1.
  { destruct Hw as [Hi Hr Hc]. split; simpl; [done|apply trim_spec|]. destruct (dedupe_key e); [apply trim_spec|done]. }
  destruct (payload (stamped r1 e)) as [[]|]; simpl; try done.
  pose proof (register_wf r1 sid peer (stamped r1 e) Hw1 Hs) as Hreg. by destruct (register_presence r1 sid peer (stamped r1 e)).
Qed.

Lemma disconnect_wf r sid : relay_wf r → relay_wf (disconnect_session r sid).1.
Proof.
  intros [Hi Hr Hc]. unfold disconnect_session. destruct (sessions r !! sid) as [s|] eqn:Hs; [|by split].
  destruct (session_presence s) as [pr|] eqn:Hp; split; simpl; try done.
  - intros q k. destruct (decide (q = peer_id (pr_peer pr))) as [->|Hq]; [by rewrite lookup_delete_eq|].
    rewrite lookup_delete_ne by done. intros Hk. destruct (Hi q k Hk) as (s' & Hs' & Ha). exists s'. split; [|done].
    rewrite lookup_delete_ne; [done|]. intros ->. rewrite Hs in Hs'. injection Hs' as <-.
    destruct Ha as (pr' & E & Hq'). rewrite Hp in E. injection E as <-. congruence.
  - intros q k Hk. destruct (Hi q k Hk) as (s' & Hs' & Ha). exists s'. split; [|done].
    rewrite lookup_delete_ne; [done|]. intros ->. rewrite Hs in Hs'. injection Hs' as <-.
    destruct Ha as (pr' & E & _). congruence.
Qed.

Lemma relay_step_wf r r' : relay_step r r' → relay_wf r → relay_wf r'.
Proof.
  intros Hs Hw. destruct Hs as [sid h Hn|sid e Hs|sid]; [|by apply forward_wf|by apply disconnect_wf].
  destruct Hw as [Hi Hr Hc]. split; simpl; [|done|done]. intros p k Hk. destruct (Hi p k Hk) as (s & Hs & Ha).
  exists s. split; [|done]. rewrite lookup_insert_ne; [done|]. intros ->. congruence.
Qed.

Lemma relay_new_wf p n : relay_wf (relay_new p n).
Proof. split; simpl; [intros ? ? ?; by rewrite lookup_empty in *|rewrite map_size_empty; lia..]. Qed.

Lemma forward_sessions r sid e s k :
  sessions (forward_route r sid e).1 !! k = Some s → k ≠ sid → sessions r !! k = Some s.
Proof.
  intros Hs Hk. revert Hs. unfold forward_route. destruct (relay_seen r e); [done|]. cbv zeta. set (r1 := mkRelay _ _ _ _ _ _ _).
  destruct (payload (stamped r1 e)) as [[]|]; simpl; try done.
  unfold register_presence. destruct (build_bootstrap_route _ _ _ _ _) as [boot counter]. simpl.
  destruct (sessions r !! sid); [|done]. by rewrite lookup_insert_ne.
Qed.

(** A route addressed to a peer reaches only that peer.  Whatever the sessions of
a relay did before, a route sent to a peer is handed to at most one session, not the
sender's own, one that is connected and whose last announcement named that peer; and
the relay's two caches never hold more than configured. *)
Lemma relay_addresses_peer name max_seen r sid e p :
  rtc relay_step (relay_new name max_seen) r → is_Some (sessions r !! sid) → target e = ToPeer p →
  let r' := (forward_route r sid e).1 in
  (∀ h, h ∈ recipients (forward_route r sid e).2 →
     recipients (forward_route r sid e).2 = [h] ∧
     ∃ k s, k ≠ sid ∧ sessions r !! k = Some s ∧ handle s = h ∧ announces s p) ∧
  size (relay_routes r') ≤ relay_max_seen r' ∧ size (relay_content r') ≤ relay_max_seen r'.
Proof.
  intros Hreach Hsid Ht r'. assert (relay_wf r) as Hw.
  { remember (relay_new name max_seen) as r0 eqn:E. assert (relay_wf r0) as Hnew by (subst; apply relay_new_wf). clear E.
    induction Hreach as [|x y z Hxy _ IH]; [done|]. apply IH; [done|..]. by eapply relay_step_wf. }
  pose proof (forward_wf r sid e Hw Hsid) as Hw'. fold r' in Hw'. split; [|by destruct Hw']. intros h Hh.
  assert (∃ k, peer_index r' !! p = Some k ∧ k ≠ sid ∧
    recipients (forward_route r sid e).2 = option_list (handle <$> sessions r' !! k)) as (k & Hk & Hne & Hrec).
  { revert Hh. unfold r', forward_route. destruct (relay_seen r e); [by intros ?%not_elem_of_nil|]. cbv zeta. set (r1 := mkRelay _ _ _ _ _ _ _).
    assert (target (stamped r1 e) = ToPeer p) as Ht' by done.
    destruct (match payload (stamped r1 e) with Single (IPresence p0) => _ | _ => (r1, None) end) as [r2 boot]. cbn [fst snd recipients].
    unfold collect_route_recipients. rewrite Ht'. destruct (peer_index r2 !! p) as [k|]; [|by intros ?%not_elem_of_nil].
    case_bool_decide; [by intros ?%not_elem_of_nil|]. eauto. }
  destruct (wf_index _ Hw' p k Hk) as (s & Hs & Ha). rewrite Hs in Hrec. simpl in Hrec. rewrite Hrec in Hh.
  apply list_elem_of_singleton in Hh as ->. split; [done|]. exists k, s. split_and!; [done| |done|done].
  by eapply forward_sessions.
Qed.
End relay.
#[global] Arguments RouteRelayCore {_} _.
#[global] Arguments RouteRelayForward {_} _.
#[global] Arguments RouteRelaySession {_} _.

(** * Two sessions of a relay *)

Module Crowd.
Import Sample.

Definition started : RouteRelayCore nat := insert_session (insert_session (relay_new "relay" 8) 1 10) 2 20.
Definition announce : RouteEnvelope := (presence a "ra" "websocket" [] []).2.
Definition crowd : RouteRelayCore nat := (forward_route started 1 announce).1.
Definition to_a : RouteEnvelope := (wrap_sync b "op" JNull (ToPeer "a")).2.

Lemma crowd_reachable : rtc relay_step (relay_new "relay" 8) crowd.
Proof.
  eapply rtc_l; [apply (relay_connect _ 1 10); vm_compute; reflexivity|].
  eapply rtc_l; [apply (relay_connect _ 2 20); vm_compute; reflexivity|].
  eapply rtc_l; [apply (relay_send _ 1 announce); vm_compute; eauto|]. apply rtc_refl.
Qed.

Lemma relay_addresses_peer_witness :
  recipients (forward_route crowd 2 to_a).2 = [10] ∧
  ∃ k s, k ≠ 2%Z ∧ sessions crowd !! k = Some s ∧ handle s = 10 ∧ announces s "a".
Proof.
  destruct (relay_addresses_peer "relay" 8 crowd 2 to_a "a" crowd_reachable) as [Hr _].
  - vm_compute. eauto.
  - reflexivity.
  - apply Hr. vm_compute. left.
Defined.
End Crowd.
