(* ===== verification/Text.v ===== *)
(** Full-text search ([src/src/text_search.rs] and its calls in [src/src/db.rs]): the
analyzer, the inverted index of a collection with its dense postings, ranking by BM25,
search over candidates, and the files of a collection's cache. *)
From stdpp Require Import base gmap sets list strings sorting.
From Stdlib Require Import ZArith Lia.
From S2P Require Import Prelude Clock Value F32 TopK Records Keys Paths Segment Inner Query Tx Protocol Change Relay Vector.

Definition TEXT_CACHE_FORMAT_VERSION : Z := 1.

(** What the standard library knows of Unicode: lower case, and which characters (given by
their UTF-8 bytes) are letters or digits. *)
Class Unicode := {
  to_lowercase : string → string;
  is_alphanumeric : string → bool
}.

(** * Configuration and documents *)

(** [TextAnalyzerConfig]; its [kind] has one value. *)
Record TextAnalyzerConfig := mkAnalyzer {
  lowercase : bool;
  unicode_normalization : option string;
  stopwords : option string;
  stemming : option string;
  analyzer_version : Z
}.

Record TextFieldConfig := mkTextField {
  tf_name : string;
  tf_weight : f32;
  tf_indexed : bool;
  tf_stored : bool
}.

Record TextCollectionConfig := mkTextConfig {
  tc_fields : list TextFieldConfig;
  analyzer : TextAnalyzerConfig;
  k1 : f32;
  bm_b : f32;
  tc_metadata : gmap string json
}.

Record TextDocument := mkDocument {
  doc_id : string;
  doc_fields : gmap string string;
  doc_metadata : gmap string json
}.

Inductive SearchStalePolicy := SAllow | SRefresh | SReject.
Inductive TextCandidatePolicy := RejectPaginatedQuery | AllowPreselectedCandidates.
Inductive TextIndexState := TReady | TRebuilding | TStale | TFailed.
Inductive TextScoreScope := ScopeCollection | ScopeCandidateSet | ScopePeerLocal.

#[global] Instance SearchStalePolicy_eq_dec : EqDecision SearchStalePolicy.
Proof. solve_decision. Defined.
#[global] Instance TextCandidatePolicy_eq_dec : EqDecision TextCandidatePolicy.
Proof. solve_decision. Defined.
#[global] Instance TextIndexState_eq_dec : EqDecision TextIndexState.
Proof. solve_decision. Defined.
#[global] Instance TextAnalyzerConfig_eq_dec : EqDecision TextAnalyzerConfig.
Proof. solve_decision. Defined.
#[global] Instance TextFieldConfig_eq_dec : EqDecision TextFieldConfig.
Proof. solve_decision. Defined.
#[global] Instance TextCollectionConfig_eq_dec : EqDecision TextCollectionConfig.
Proof. solve_decision. Defined.
#[global] Instance TextDocument_eq_dec : EqDecision TextDocument.
Proof. solve_decision. Defined.

Record TextSearchSpec := mkTextSpec {
  ts_limit : option nat;
  ts_offset : option nat;
  ts_fields : option (list string);
  ts_include_metadata : bool;
  include_snippets : bool;
  explain : bool;
  ts_exact : bool;
  ts_stale_policy : SearchStalePolicy;
  candidate_limit : option nat;
  candidate_policy : TextCandidatePolicy
}.

Inductive TextSearchSourceSummary :=
  | SumCollection (collection : string)
  | SumGraphQuery (path : RemotePath)
  | SumRecords (prefix : option string).

Record TextFieldHit := mkHit {
  hit_field : string;
  hit_terms : list string;
  hit_score : f32
}.

Record TextSnippet := mkSnippet { snippet_field : string; snippet_text : string }.

Record TextSearchMatch := mkTextMatch {
  tm_id : string;
  tm_score : f32;
  field_hits : list TextFieldHit;
  tm_metadata : option (gmap string json);
  snippets : option (list TextSnippet);
  explanation : option string
}.

(** [TextSearchResult]; its [backend] has one value, and [exact] is always set. *)
Record TextResult := mkTextResult {
  tr_source : TextSearchSourceSummary;
  tr_query : string;
  tr_matches : list TextSearchMatch;
  tr_stale : bool;
  candidate_count : nat;
  searched_count : nat;
  truncated_candidates : bool;
  score_scope : TextScoreScope
}.

Record DensePosting := mkPosting {
  doc_index : nat;
  field_index : nat;
  term_frequency : nat
}.

Record TextIndex := mkTextIndex {
  postings : gmap string (gmap string (gmap string nat));
  doc_field_lengths : gmap string (gmap string nat);
  doc_lengths : gmap string nat;
  doc_terms : gmap string (gmap string (gset string));
  term_doc_freq : gmap string nat;
  total_terms : nat;
  dense_doc_ids : list string;
  dense_doc_lengths : list nat;
  dense_field_names : list string;
  dense_postings : gmap string (list DensePosting)
}.

Definition index_default : TextIndex := mkTextIndex ∅ ∅ ∅ ∅ ∅ 0 [] [] [] ∅.

Record TextCollectionCache := mkTextCache {
  tcc_config : TextCollectionConfig;
  documents : gmap string TextDocument;
  tcc_deleted_count : nat;
  tcc_state : TextIndexState;
  tcc_dirty : bool;
  tcc_source_hash : string;
  index : TextIndex
}.

Record TextCandidate := mkTextCandidate {
  tcand_id : string;
  tcand_fields : gmap string string;
  tcand_metadata : gmap string json
}.

(** The defaults of the configuration: [k1] is 1.2 and [b] is 0.75. *)
Definition analyzer_default : TextAnalyzerConfig := mkAnalyzer true None None None 1.
Definition default_k1 : f32 := 1067030938.
Definition default_b : f32 := 1061158912.

(** * Validation *)

Definition field_problem (f : TextFieldConfig) : option PrimadbError :=
  if bool_decide (str_trim (tf_name f) = "") then Some (Message "text collection field names must not be empty")
  else if negb (is_finite (tf_weight f) && f32_le f32_zero (tf_weight f))
  then Some (Message ("text field `" +:+ tf_name f +:+ "` weight must be finite and non-negative"))
  else None.

Definition validate_text_collection_config (c : TextCollectionConfig) : result unit :=
  if negb (is_finite (k1 c) && f32_lt f32_zero (k1 c))
  then Err (Message "text collection k1 must be finite and greater than zero")
  else if negb (is_finite (bm_b c) && (f32_le f32_zero (bm_b c) && f32_le (bm_b c) f32_one))
  then Err (Message "text collection b must be finite and between 0 and 1")
  else
    match head (omap field_problem (tc_fields c)) with
    | Some e => Err e
    | None =>
        if (analyzer_version (analyzer c) =? 0)%Z then Err (Message "text analyzer version must be greater than zero")
        else Ok tt
    end.

Definition validate_text_search_spec (spec : TextSearchSpec) : result unit :=
  if bool_decide (ts_limit spec = Some 0) then Err (Message "text search limit must be greater than zero")
  else if bool_decide (candidate_limit spec = Some 0) then Err (Message "text search candidateLimit must be greater than zero")
  else Ok tt.

Section analysis.
Context `{Unicode}.

(** * The analyzer *)

(** The loop over the characters, [current] being the token being read. *)
Fixpoint tokens_of (cs : list string) (current : string) : list string :=
  match cs with
  | [] => if decide (current = "") then [] else [current]
  | c :: cs =>
      if is_alphanumeric c || bool_decide (c = "_") then tokens_of cs (current +:+ c)
      else if decide (current = "") then tokens_of cs "" else current :: tokens_of cs ""
  end.

Definition analyze_text (config : TextAnalyzerConfig) (input : string) : list string :=
  tokens_of (chars (if lowercase config then to_lowercase input else input)) "".

Definition indexed_field_names_for_fields (config : TextCollectionConfig) (fields : gmap string string) : list string :=
  match tc_fields config with
  | [] => btree_keys fields
  | fs => tf_name <$> List.filter (λ f, tf_indexed f && bool_decide (is_Some (fields !! tf_name f))) fs
  end.

Definition indexed_field_names (config : TextCollectionConfig) (d : TextDocument) : list string :=
  indexed_field_names_for_fields config (doc_fields d).

(** * The index *)

(** [*map.entry(term).or_default().entry(doc).or_default().entry(field).or_default() += 1]. *)
Definition bump_posting (doc field : string) (m : gmap string (gmap string (gmap string nat))) (term : string)
    : gmap string (gmap string (gmap string nat)) :=
  let docs := default ∅ (m !! term) in
  let fields := default ∅ (docs !! doc) in
  <[term := <[doc := <[field := S (default 0 (fields !! field))]> fields]> docs]> m.

Definition bump (m : gmap string nat) (k : string) : gmap string nat := <[k := S (default 0 (m !! k))]> m.

(** One field of a document: the index, and the terms of the document so far. *)
Definition index_field (config : TextCollectionConfig) (d : TextDocument) (acc : TextIndex * gset string) (field : string)
    : TextIndex * gset string :=
  match doc_fields d !! field with
  | None => acc
  | Some text =>
      match analyze_text (analyzer config) text with
      | [] => acc
      | tokens =>
          let i := acc.1 in
          let id := doc_id d in
          (mkTextIndex (foldl (bump_posting id field) (postings i) tokens)
             (<[id := <[field := length tokens]> (default ∅ (doc_field_lengths i !! id))]> (doc_field_lengths i))
             (<[id := default 0 (doc_lengths i !! id) + length tokens]> (doc_lengths i))
             (<[id := <[field := list_to_set tokens]> (default ∅ (doc_terms i !! id))]> (doc_terms i))
             (term_doc_freq i) (total_terms i + length tokens)
             (dense_doc_ids i) (dense_doc_lengths i) (dense_field_names i) (dense_postings i),
           acc.2 ∪ list_to_set tokens)
      end
  end.

Definition index_document (config : TextCollectionConfig) (i : TextIndex) (d : TextDocument) : TextIndex :=
  let '(i, terms) := foldl (index_field config d) (i, ∅) (indexed_field_names config d) in
  mkTextIndex (postings i) (doc_field_lengths i) (doc_lengths i) (doc_terms i)
    (foldl bump (term_doc_freq i) (btree_elems terms)) (total_terms i)
    (dense_doc_ids i) (dense_doc_lengths i) (dense_field_names i) (dense_postings i).

(** The position of each name, [enumerate] collected into a map. *)
Definition position_of (names : list string) (name : string) : option nat :=
  fst <$> list_find (λ n, n = name) names.

Definition dense_of (doc_ids field_names : list string) (docs : gmap string (gmap string nat)) : list DensePosting :=
  btree_list docs ≫= λ p, omap (λ q,
    d ← position_of doc_ids p.1; f ← position_of field_names q.1; Some (mkPosting d f q.2)) (btree_list p.2).

Definition rebuild_dense_text_index (i : TextIndex) : TextIndex :=
  let doc_ids := btree_keys (doc_lengths i) in
  let field_names := btree_elems (list_to_set (btree_list (postings i) ≫= λ p, btree_list p.2 ≫= λ q, btree_keys q.2)) in
  mkTextIndex (postings i) (doc_field_lengths i) (doc_lengths i) (doc_terms i) (term_doc_freq i) (total_terms i)
    doc_ids (btree_list (doc_lengths i)).*2 field_names (dense_of doc_ids field_names <$> postings i).

Definition build_text_index (config : TextCollectionConfig) (docs : list TextDocument) : TextIndex :=
  rebuild_dense_text_index (foldl (index_document config) index_default docs).

Definition rebuild_text_index (c : TextCollectionCache) : result TextCollectionCache :=
  _ ← validate_text_collection_config (tcc_config c);
  Ok (mkTextCache (tcc_config c) (documents c) (tcc_deleted_count c) TReady false (tcc_source_hash c)
        (build_text_index (tcc_config c) (btree_list (documents c)).*2)).

Definition from_documents (config : TextCollectionConfig) (docs : gmap string TextDocument) (source_hash : string)
    : result TextCollectionCache :=
  _ ← validate_text_collection_config config;
  rebuild_text_index (mkTextCache config docs 0 TReady false source_hash index_default).
End analysis.

(** * Ranking *)

Section ranking.
Context `{Unicode, Platform}.

Definition field_weights (config : TextCollectionConfig) : gmap string f32 :=
  foldl (λ m f, <[tf_name f := tf_weight f]> m) ∅ (tc_fields config).

(** The weight of a rare term. *)
Definition idf_of (doc_count df : f32) : f32 :=
  f32_ln (f32_add (f32_div (f32_add (f32_sub doc_count df) f32_half) (f32_add df f32_half)) f32_one).

(** The score of a term in a field, in the order of the source's operations. *)
Definition bm25 (config : TextCollectionConfig) (idf tf doc_len avg_doc_len weight : f32) : f32 :=
  let numerator := f32_mul tf (f32_add (k1 config) f32_one) in
  let denominator :=
    f32_add tf (f32_mul (k1 config)
      (f32_add (f32_sub f32_one (bm_b config)) (f32_div (f32_mul (bm_b config) doc_len) avg_doc_len))) in
  f32_mul (f32_div (f32_mul idf numerator) denominator) weight.

Section scores.
Context {K : Type} `{Countable K}.

Abbreviation Scores := (gmap K (f32 * gmap string TextFieldHit)).

(** [scores.entry(doc).or_insert_with(..)] and the hit of the field. *)
Definition add_score (doc : K) (field term : string) (score : f32) (s : Scores) : Scores :=
  let '(total, hits) := default (f32_zero, ∅) (s !! doc) in
  let hit := default (mkHit field [] f32_zero) (hits !! field) in
  <[doc := (f32_add total score,
            <[field := mkHit (hit_field hit) (hit_terms hit ++ [term]) (f32_add (hit_score hit) score)]> hits)]> s.

(** An occurrence of a term: the document, the field, how often, and how long the document
is.  The body of the loops over postings, which the three scorers share. *)
Definition occurrence : Type := K * string * nat * nat.

Definition score_occurrence (config : TextCollectionConfig) (spec : TextSearchSpec) (avg_doc_len idf : f32) (term : string)
    (s : Scores) (o : occurrence) : Scores :=
  let '(doc, field, tf, doc_len) := o in
  if match ts_fields spec with Some fs => negb (bool_decide (field ∈ fs)) | None => false end then s
  else
    let weight := default f32_one (field_weights config !! field) in
    if f32_eq weight f32_zero then s
    else add_score doc field term (bm25 config idf (f32_of_usize tf) (f32_of_usize doc_len) avg_doc_len weight) s.

(** The loop over the terms of the query: a term no document holds is passed over. *)
Definition score_term (config : TextCollectionConfig) (spec : TextSearchSpec) (doc_count total : nat) (df : string → nat)
    (occurrences : string → list occurrence) (s : Scores) (term : string) : Scores :=
  let avg_doc_len := f32_div (f32_of_usize total) (f32_max (f32_of_usize doc_count) f32_one) in
  if f32_le (f32_of_usize (df term)) f32_zero then s
  else
    foldl (score_occurrence config spec avg_doc_len (idf_of (f32_of_usize doc_count) (f32_of_usize (df term))) term) s
      (occurrences term).

Definition score_terms (config : TextCollectionConfig) (spec : TextSearchSpec) (doc_count total : nat) (df : string → nat)
    (occurrences : string → list occurrence) (terms : list string) : Scores :=
  foldl (score_term config spec doc_count total df occurrences) ∅ terms.
End scores.

(** A [BTreeMap<usize, V>] in the order of its keys. *)
Definition nat_key_le {V} (p q : nat * V) : Prop := p.1 ≤ q.1.

#[global] Instance nat_key_le_dec {V} : RelDecision (@nat_key_le V).
Proof. intros p q. unfold nat_key_le. apply _. Defined.

Definition nat_btree_list {V} (m : gmap nat V) : list (nat * V) := merge_sort nat_key_le (map_to_list m).

(** [Ord for DenseWorstScore]: the lower score is the greater, then the later index. *)
Definition worst_key (c : nat * f32) : Z * Z := ((- total_key c.2)%Z, Z.of_nat c.1).

Definition select_top_score_indices (scores : gmap nat (f32 * gmap string TextFieldHit)) (max_matches : option nat) : gset nat :=
  match max_matches with
  | None => dom scores
  | Some bound =>
      list_to_set (fst <$> select_top worst_key bound
        (omap (λ p, if f32_le p.2.1 f32_zero then None else Some (p.1, p.2.1)) (nat_btree_list scores)))
  end.

Definition snippets_for_fields (fields : gmap string string) (spec : TextSearchSpec) : list TextSnippet :=
  (λ p, mkSnippet p.1 (Prelude.join "" (take 240 (chars p.2)))) <$>
    take 3 (List.filter (λ p, match ts_fields spec with Some fs => bool_decide (p.1 ∈ fs) | None => true end) (btree_list fields)).

Definition explanation_text : string :=
  "exact BM25 over PrimaDB text index; scores are scoped by result scoreScope".

Definition match_for (spec : TextSearchSpec) (d : TextDocument) (p : f32 * gmap string TextFieldHit) : TextSearchMatch :=
  mkTextMatch (doc_id d) p.1 (btree_list p.2).*2 (if ts_include_metadata spec then Some (doc_metadata d) else None)
    (if include_snippets spec then Some (snippets_for_fields (doc_fields d) spec) else None)
    (if explain spec then Some explanation_text else None).

(** [right.score.total_cmp(&left.score).then_with(|| left.id.cmp(&right.id))]. *)
Definition match_key (m : TextSearchMatch) : Z * string := ((- total_key (tm_score m))%Z, tm_id m).

(** [offset + limit], saturating; no limit, or a sum that reaches [usize::MAX], takes all. *)
Definition max_matches_of (spec : TextSearchSpec) : option nat :=
  match ts_limit spec with
  | None => None
  | Some limit =>
      if (Z.of_nat (default 0%nat (ts_offset spec)) + Z.of_nat limit <? u64_max)%Z then Some (default 0 (ts_offset spec) + limit)
      else None
  end.

Definition build_top_matches_dense (scores : gmap nat (f32 * gmap string TextFieldHit)) (docs : nat → option TextDocument)
    (spec : TextSearchSpec) : list TextSearchMatch :=
  let selected := select_top_score_indices scores (max_matches_of spec) in
  merge_sort (by_key_le match_key)
    (omap (λ p,
       if negb (bool_decide (p.1 ∈ selected)) || f32_le p.2.1 f32_zero then None
       else d ← docs p.1; Some (match_for spec d p.2)) (nat_btree_list scores)).

Definition paginate_matches (matches : list TextSearchMatch) (spec : TextSearchSpec) : list TextSearchMatch :=
  let rest := drop (default 0 (ts_offset spec)) matches in
  match ts_limit spec with Some limit => take limit rest | None => rest end.

(** The set of the terms, in order. *)
Definition term_set (terms : list string) : list string := btree_elems (list_to_set terms).

(** [score_index]; a posting of a document with no terms is passed over. *)
Definition index_occurrences (i : TextIndex) (term : string) : list (occurrence (K := nat)) :=
  List.filter (λ o, negb (f32_le (f32_of_usize o.2) f32_zero))
    ((λ p, (doc_index p, nth (field_index p) (dense_field_names i) "", term_frequency p, nth (doc_index p) (dense_doc_lengths i) 0))
       <$> default [] (dense_postings i !! term)).

Definition score_index (c : TextCollectionCache) (query_terms : list string) (spec : TextSearchSpec) : list TextSearchMatch :=
  let i := index c in
  if bool_decide (query_terms = []) || bool_decide (dense_doc_ids i = []) then []
  else
    build_top_matches_dense
      (score_terms (tcc_config c) spec (length (dense_doc_ids i)) (total_terms i) (λ t, default 0 (term_doc_freq i !! t))
         (index_occurrences i) (term_set query_terms))
      (λ k, dense_doc_ids i !! k ≫= λ id, documents c !! id) spec.

Definition search_text_collection (collection : string) (c : TextCollectionCache) (query : string) (spec : TextSearchSpec)
    : result TextResult :=
  _ ← validate_text_search_spec spec;
  Ok (mkTextResult (SumCollection collection) query
        (paginate_matches (score_index c (analyze_text (analyzer (tcc_config c)) query) spec) spec)
        (negb (bool_decide (tcc_state c = TReady)) || tcc_dirty c) (size (documents c)) (size (doc_lengths (index c))) false
        ScopeCollection).

(** * Candidates *)

(** [extract_json_text_fields] and what it reads. *)
Fixpoint collect_string_leaves (v : json) (path : string) (out : gmap string string) {struct v} : gmap string string :=
  match v with
  | JString text => <[path := text]> out
  | JArray items =>
      (fix go (items : list json) (n : nat) (out : gmap string string) : gmap string string :=
         match items with
         | [] => out
         | x :: items => go items (S n) (collect_string_leaves x (path +:+ "." +:+ dec (Z.of_nat n)) out)
         end) items 0 out
  | JObject entries =>
      (fix go (entries : list (string * json)) (out : gmap string string) : gmap string string :=
         match entries with
         | [] => out
         | (k, x) :: entries =>
             go entries (collect_string_leaves x (if decide (path = "$value") then k else path +:+ "." +:+ k) out)
         end) entries out
  | _ => out
  end.

Fixpoint json_steps (v : json) (segments : list string) : option json :=
  match segments with
  | [] => Some v
  | s :: segments =>
      match v with
      | JObject entries => x ← obj_get s entries; json_steps x segments
      | JArray items => n ← parse_u64 s; x ← items !! Z.to_nat n; json_steps x segments
      | _ => None
      end
  end.

Definition json_path_value (v : json) (path : string) : option json :=
  if decide (path = "") then Some v
  else if decide (path = "$value") then Some v
  else json_steps v (split_on "."%char path).

Definition json_value_text (v : json) : option string :=
  match v with
  | JString s => Some s
  | JObject _ | JArray _ =>
      match btree_list (collect_string_leaves v "$value" ∅) with
      | [] => None
      | l => Some (Prelude.join " " l.*2)
      end
  | _ => None
  end.

Definition extract_json_text_fields (v : json) (fields : option (list string)) : gmap string string :=
  match fields with
  | Some fs =>
      foldl (λ out f, match json_path_value v f ≫= json_value_text with Some t => <[f := t]> out | None => out end) ∅ fs
  | None => collect_string_leaves v "$value" ∅
  end.

Definition candidate_from (fields : option (list string)) (id : string) (v : json) : option TextCandidate :=
  let extracted := extract_json_text_fields v fields in
  if decide (extracted = ∅) then None else Some (mkTextCandidate id extracted ∅).

Definition text_candidates_from_map_entries (entries : list MapEntry) (fields : option (list string)) : list TextCandidate :=
  omap (λ e, candidate_from fields (map_key e) (map_value e)) entries.

Definition text_candidates_from_record_entries (entries : list RecordEntry) (fields : option (list string))
    : list TextCandidate :=
  omap (λ e, match entry_value e with RJson v => candidate_from fields (entry_key e) v | _ => None end) entries.

Definition document_of (c : TextCandidate) : TextDocument := mkDocument (tcand_id c) (tcand_fields c) (tcand_metadata c).

Definition fields_for_candidate_documents (cs : list TextCandidate) : TextCollectionConfig :=
  mkTextConfig
    ((λ name, mkTextField name f32_one true true) <$> btree_elems (list_to_set (cs ≫= λ c, btree_keys (tcand_fields c))))
    analyzer_default default_k1 default_b ∅.

(** ** Scoring candidates without an index *)

Record OneShot := mkOneShot {
  document_lengths : list nat;
  os_doc_freq : gmap string nat;
  os_postings : gmap string (list DensePosting);
  os_total_terms : nat;
  os_searched_count : nat
}.

Definition push_posting (doc field : nat) (m : gmap string (list DensePosting)) (p : string * nat) : gmap string (list DensePosting) :=
  <[p.1 := default [] (m !! p.1) ++ [mkPosting doc field p.2]]> m.

(** How often each term of the query occurs. *)
Definition frequencies (query_terms tokens : list string) : gmap string nat :=
  foldl bump ∅ (List.filter (λ t, bool_decide (t ∈ query_terms)) tokens).

(** One field: the length of the document so far, its terms, and the postings. *)
Definition one_shot_field (config : TextCollectionConfig) (query_terms field_names : list string) (doc : nat)
    (fields : gmap string string) (acc : nat * gset string * gmap string (list DensePosting)) (field : string)
    : nat * gset string * gmap string (list DensePosting) :=
  let '(length_, terms, ps) := acc in
  match fields !! field with
  | None => acc
  | Some text =>
      let tokens := analyze_text (analyzer config) text in
      let freqs := btree_list (frequencies query_terms tokens) in
      match position_of field_names field with
      | None => (length_ + length tokens, terms, ps)
      | Some f => (length_ + length tokens, terms ∪ list_to_set freqs.*1, foldl (push_posting doc f) ps freqs)
      end
  end.

Definition one_shot_document (config : TextCollectionConfig) (query_terms field_names : list string) (s : OneShot)
    (c : TextCandidate) : OneShot :=
  let '(length_, terms, ps) :=
    foldl (one_shot_field config query_terms field_names (length (document_lengths s)) (tcand_fields c)) (0, ∅, os_postings s)
      (indexed_field_names_for_fields config (tcand_fields c)) in
  let lengths := document_lengths s ++ [length_] in
  if length_ =? 0 then mkOneShot lengths (os_doc_freq s) ps (os_total_terms s) (os_searched_count s)
  else mkOneShot lengths (foldl bump (os_doc_freq s) (btree_elems terms)) ps (os_total_terms s + length_) (S (os_searched_count s)).

Definition one_shot_occurrences (field_names : list string) (s : OneShot) (term : string) : list (occurrence (K := nat)) :=
  (λ p, (doc_index p, nth (field_index p) field_names "", term_frequency p, nth (doc_index p) (document_lengths s) 0))
    <$> default [] (os_postings s !! term).

Definition score_one_shot_candidates (cs : list TextCandidate) (config : TextCollectionConfig) (query_terms : list string)
    (spec : TextSearchSpec) : list TextSearchMatch * nat :=
  let query_terms := term_set query_terms in
  let field_names := btree_elems (list_to_set (cs ≫= λ c, btree_keys (tcand_fields c))) in
  let s := foldl (one_shot_document config query_terms field_names) (mkOneShot [] ∅ ∅ 0 0) cs in
  if os_searched_count s =? 0 then ([], 0)
  else
    (build_top_matches_dense
       (score_terms config spec (os_searched_count s) (os_total_terms s) (λ t, default 0 (os_doc_freq s !! t))
          (one_shot_occurrences field_names s) query_terms)
       (λ k, document_of <$> cs !! k) spec, os_searched_count s).

(** A later candidate takes the place of an earlier one with its id. *)
Definition keep_candidate (kept : list TextCandidate) (c : TextCandidate) : list TextCandidate :=
  match list_find (λ x, tcand_id x = tcand_id c) kept with
  | Some (position, _) => <[position := c]> kept
  | None => kept ++ [c]
  end.

Definition candidate_le (x y : TextCandidate) : Prop := String.le (tcand_id x) (tcand_id y).

#[global] Instance candidate_le_dec : RelDecision candidate_le.
Proof. intros x y. unfold candidate_le. apply _. Defined.

Definition distinct_candidates (spec : TextSearchSpec) (cs : list TextCandidate) : list TextCandidate :=
  merge_sort candidate_le (foldl keep_candidate []
    (match candidate_limit spec with Some n => take n cs | None => cs end)).

Definition search_text_candidates (source : TextSearchSourceSummary) (query : string) (spec : TextSearchSpec)
    (cs : list TextCandidate) (truncated : bool) (scope : TextScoreScope) : result TextResult :=
  _ ← validate_text_search_spec spec;
  let kept := distinct_candidates spec cs in
  let config := fields_for_candidate_documents kept in
  let r := score_one_shot_candidates kept config (analyze_text (analyzer config) query) spec in
  Ok (mkTextResult source query (paginate_matches r.1 spec) false (length cs) r.2
        (truncated || match candidate_limit spec with Some n => n <? length cs | None => false end) scope).

(** * The reference

[reference_one_shot_matches], which the tests of [text_search.rs] compare the two
searches with: documents and terms are scanned, nothing is indexed, and all matches are
sorted before a page is cut. *)

Definition matching_field (config : TextCollectionConfig) (query_terms : list string) (d : TextDocument)
    (acc : nat * gset string * gmap string (gmap string nat)) (field : string) : nat * gset string * gmap string (gmap string nat) :=
  let '(doc_len, terms, fields) := acc in
  match doc_fields d !! field with
  | None => acc
  | Some text =>
      let tokens := analyze_text (analyzer config) text in
      let freqs := frequencies query_terms tokens in
      (doc_len + length tokens,
       terms ∪ list_to_set (List.filter (λ t, bool_decide (t ∈ query_terms)) tokens),
       if decide (freqs = ∅) then fields else <[field := freqs]> fields)
  end.

Record Stats := mkStats {
  document_stats : list (TextDocument * nat * gmap string (gmap string nat));
  st_doc_freq : gmap string nat;
  st_total : nat
}.

Definition document_stat (config : TextCollectionConfig) (query_terms : list string) (s : Stats) (d : TextDocument) : Stats :=
  let '(doc_len, terms, fields) := foldl (matching_field config query_terms d) (0, ∅, ∅) (indexed_field_names config d) in
  if doc_len =? 0 then s
  else
    mkStats (document_stats s ++ [(d, doc_len, fields)]) (foldl bump (st_doc_freq s) (btree_elems terms))
      (st_total s + doc_len).

Definition stat_occurrences (s : Stats) (term : string) : list (occurrence (K := string)) :=
  document_stats s ≫= λ '(d, doc_len, fields),
    omap (λ p, tf ← p.2 !! term; Some (doc_id d, p.1, tf, doc_len)) (btree_list fields).

Definition reference_matches (docs : list TextDocument) (spec : TextSearchSpec)
    (scores : gmap string (f32 * gmap string TextFieldHit)) : list TextSearchMatch :=
  let by_id : gmap string TextDocument := foldl (λ m d, <[doc_id d := d]> m) ∅ docs in
  merge_sort (by_key_le match_key)
    (omap (λ p, if f32_le p.2.1 f32_zero then None else d ← by_id !! p.1; Some (match_for spec d p.2)) (btree_list scores)).

Definition reference_one_shot_matches (docs : list TextDocument) (config : TextCollectionConfig) (query : string)
    (spec : TextSearchSpec) : list TextSearchMatch * nat :=
  let query_terms := term_set (analyze_text (analyzer config) query) in
  let s := foldl (document_stat config query_terms) (mkStats [] ∅ 0) docs in
  let doc_count := length (document_stats s) in
  if doc_count =? 0 then ([], 0)
  else
    (paginate_matches
       (reference_matches docs spec
          (score_terms config spec doc_count (st_total s) (λ t, default 0 (st_doc_freq s !! t)) (stat_occurrences s) query_terms))
       spec, doc_count).

Definition reference_candidate_matches (cs : list TextCandidate) (config : TextCollectionConfig) (query : string)
    (spec : TextSearchSpec) : list TextSearchMatch * nat :=
  let docs : gmap string TextDocument :=
    foldl (λ m c, <[tcand_id c := document_of c]> m) ∅ (match candidate_limit spec with Some n => take n cs | None => cs end) in
  reference_one_shot_matches (btree_list docs).*2 config query spec.
End ranking.
