(* ===== verification/TextRank.v ===== *)
(** The two text searches agree with the reference they are tested against: postings,
positions and the bounded heap change nothing. *)
From stdpp Require Import base gmap sets list strings sorting.
From Stdlib Require Import ZArith Lia.
From S2P Require Import Prelude Clock Value F32 TopK Records Keys Paths Segment Inner Query Tx Protocol Change Relay Vector Text.

(** * Maps in the order of a list *)

Definition str_sorted (l : list string) : Prop := StronglySorted olt l.

Lemma str_sorted_NoDup l : str_sorted l → NoDup l.
Proof.
  induction 1 as [|x l Hl IH Hx]; constructor; [|done]. intros Hin. rewrite Forall_forall in Hx. apply (olt_irrefl x), Hx, Hin.
Qed.

Lemma str_sorted_unique l k : str_sorted l → str_sorted k → (∀ x, x ∈ l ↔ x ∈ k) → l = k.
Proof.
  intros Hl Hk Heq. eapply StronglySorted_unique_strong; [|done|done|].
  - intros x y _ _ Hxy Hyx. exfalso. ord.
  - apply NoDup_Permutation; auto using str_sorted_NoDup.
Qed.

Lemma keys_sorted {V} (m : gmap string V) : str_sorted (btree_keys m).
Proof.
  unfold str_sorted, btree_keys. pose proof (btree_keys_NoDup m) as Hnd. unfold btree_keys in Hnd.
  assert (StronglySorted key_le (btree_list m)) as Hs.
  { apply Sorted_StronglySorted; [|apply btree_list_sorted]. intros p q r. unfold key_le. apply (transitivity (R := String.le)). }
  induction Hs as [|p l Hs IH Hp]; [constructor|]. rewrite fmap_cons in *. apply NoDup_cons in Hnd as [Hn Hnd].
  constructor; [auto|]. apply Forall_forall. rewrite Forall_forall in Hp. intros k Hk. apply list_elem_of_fmap in Hk as (q & -> & Hq).
  specialize (Hp q Hq). unfold key_le in Hp. apply string_le_ole, ole_iff in Hp as [|E]; [done|].
  destruct Hn. rewrite E. by apply list_elem_of_fmap_2.
Qed.

Lemma elems_sorted (s : gset string) : str_sorted (btree_elems s).
Proof.
  unfold str_sorted, btree_elems. assert (NoDup (merge_sort String.le (elements s))) as Hnd
    by (rewrite merge_sort_Permutation; apply NoDup_elements).
  assert (StronglySorted String.le (merge_sort String.le (elements s))) as Hs by (apply StronglySorted_merge_sort; apply _).
  induction Hs as [|x l Hs IH Hx]; [constructor|]. apply NoDup_cons in Hnd as [Hn Hnd]. constructor; [auto|].
  apply Forall_forall. rewrite Forall_forall in Hx. intros y Hy. specialize (Hx y Hy). apply string_le_ole, ole_iff in Hx as [|E]; [done|congruence].
Qed.

Lemma filter_str_sorted (f : string → bool) l : str_sorted l → str_sorted (List.filter f l).
Proof.
  induction 1 as [|x l Hl IH Hx]; [constructor|]. cbn [List.filter]. destruct (f x); [|done].
  constructor; [done|]. apply Forall_forall. rewrite Forall_forall in Hx. intros y Hy. apply Hx.
  apply list_elem_of_In, filter_In in Hy as [Hy _]. by apply list_elem_of_In.
Qed.

(** The entries of a map, listed along any ordered list that has its keys. *)
Lemma btree_list_along {V} (m : gmap string V) l :
  str_sorted l → (∀ k, is_Some (m !! k) → k ∈ l) → btree_list m = omap (λ k, pair k <$> m !! k) l.
Proof.
  intros Hl Hdom. assert ((btree_list m).*1 = List.filter (λ k, bool_decide (is_Some (m !! k))) l) as Hkeys.
  { apply str_sorted_unique.
    - apply keys_sorted.
    - by apply filter_str_sorted.
    - intros k. fold (btree_keys m). rewrite elem_of_btree_keys, list_elem_of_In, filter_In, <-list_elem_of_In, bool_decide_eq_true. naive_solver. }
  assert (∀ q : list (string * V), (∀ p, p ∈ q → m !! p.1 = Some p.2) → q = omap (λ k, pair k <$> m !! k) q.*1) as Hq.
  { induction q as [|[k v] q IH]; intros Hq; [done|]. pose proof (Hq (k, v) ltac:(left)) as Hk. cbn [fst snd] in Hk.
    rewrite fmap_cons. cbn [omap list_omap fst]. rewrite Hk. cbn. f_equal. apply IH. intros p Hp. apply Hq. by right. }
  rewrite (Hq (btree_list m)) by (intros [k v] Hp; by apply elem_of_btree_list in Hp). rewrite Hkeys.
  clear. induction l as [|x l IH]; [done|]. cbn [List.filter omap list_omap]. destruct (m !! x) as [v|] eqn:E.
  - rewrite bool_decide_eq_true_2 by eauto. cbn. rewrite E. cbn. by rewrite IH.
  - rewrite bool_decide_eq_false_2 by (intros [? ?]; congruence). cbn. exact IH.
Qed.

Lemma btree_elems_along s l : str_sorted l → (∀ k, k ∈ s → k ∈ l) → btree_elems s = List.filter (λ k, bool_decide (k ∈ s)) l.
Proof.
  intros Hl Hs. apply str_sorted_unique; [apply elems_sorted| |].
  - by apply filter_str_sorted.
  - intros k. rewrite elem_of_btree_elems, list_elem_of_In, filter_In, <-list_elem_of_In, bool_decide_eq_true. naive_solver.
Qed.

(** * Counting *)

Definition count (t : string) (l : list string) : nat := length (List.filter (λ x, bool_decide (x = t)) l).

Lemma count_pos t l : 0 < count t l ↔ t ∈ l.
Proof.
  unfold count. induction l as [|x l IH]; [rewrite elem_of_nil; simpl; lia|]. cbn [List.filter]. rewrite elem_of_cons.
  case_bool_decide; simpl; naive_solver lia.
Qed.

Lemma count_zero t l : count t l = 0 ↔ t ∉ l.
Proof. rewrite <-count_pos. lia. Qed.

Lemma bump_all m l t :
  foldl bump m l !! t = if count t l =? 0 then m !! t else Some (default 0 (m !! t) + count t l).
Proof.
  revert m. induction l as [|x l IH]; intros m; [done|]. cbn [foldl]. rewrite IH. unfold count. cbn [List.filter]. fold (count t l).
  unfold bump. case_bool_decide as E.
  - subst x. rewrite lookup_insert_eq. cbn [length Nat.eqb]. destruct (Nat.eqb_spec (count t l) 0) as [H0|H0]; simpl; f_equal.
    + fold (count t l). lia.
    + fold (count t l). lia.
  - fold (count t l). by rewrite lookup_insert_ne by done.
Qed.

Lemma frequencies_lookup q l t :
  frequencies q l !! t = if bool_decide (t ∈ q) && negb (count t l =? 0) then Some (count t l) else None.
Proof.
  unfold frequencies. rewrite bump_all, lookup_empty. cbn [default].
  assert (count t (List.filter (λ t, bool_decide (t ∈ q)) l) = if bool_decide (t ∈ q) then count t l else 0) as ->.
  { unfold count. induction l as [|x l IH]; [by destruct (bool_decide _)|]. cbn [List.filter].
    destruct (bool_decide (x ∈ q)) eqn:Eq; cbn [List.filter]; destruct (bool_decide (x = t)) eqn:Ex; cbn [length]; rewrite IH; try done.
    - apply bool_decide_eq_true in Ex as ->. by rewrite Eq.
    - apply bool_decide_eq_true in Ex as ->. by rewrite Eq. }
  destruct (bool_decide (t ∈ q)); [|done]. cbn [andb]. by destruct (Nat.eqb_spec (count t l) 0).
Qed.

Lemma omap_omap {A B C} (h : A → option B) (g : B → option C) (l : list A) : omap g (omap h l) = omap (λ x, h x ≫= g) l.
Proof. induction l as [|x l IH]; [done|]. cbn [omap list_omap]. destruct (h x); cbn; by rewrite IH. Qed.

Lemma omap_ext_in {A B} (g h : A → option B) (l : list A) : (∀ x, x ∈ l → g x = h x) → omap g l = omap h l.
Proof.
  induction l as [|x l IH]; intros Hl; [done|]. cbn [omap list_omap]. rewrite (Hl x) by left.
  rewrite IH by (intros y Hy; apply Hl; by right). done.
Qed.

(** * What the scans of a document find *)

Section documents.
Context `{Unicode} (config : TextCollectionConfig).
Implicit Types (d : TextDocument) (f t : string) (fs : list string).

Definition toks d f : list string :=
  match doc_fields d !! f with Some text => analyze_text (analyzer config) text | None => [] end.

Definition field_list d : list string := indexed_field_names config d.
Definition terms_in d fs : nat := sum_list ((λ f, length (toks d f)) <$> fs).
Definition dlen d : nat := terms_in d (field_list d).
Definition sorted_fields d : list string := btree_elems (list_to_set (field_list d)).
Definition holds d t : bool := existsb (λ f, bool_decide (t ∈ toks d f)) (field_list d).

(** The documents that have any term: those that are searched. *)
Definition searched (docs : list TextDocument) : list TextDocument := List.filter (λ d, negb (dlen d =? 0)) docs.
Definition all_terms (docs : list TextDocument) : nat := sum_list (dlen <$> docs).
Definition df (docs : list TextDocument) t : nat := length (List.filter (λ d, holds d t) docs).

(** The occurrences of a term, document by document and field by field, in order. *)
Definition doc_occurrences {K} (key : TextDocument → K) t d : list (occurrence (K := K)) :=
  omap (λ f, if count t (toks d f) =? 0 then None else Some (key d, f, count t (toks d f), dlen d)) (sorted_fields d).

Definition occurrences {K} (key : TextDocument → K) (docs : list TextDocument) t : list (occurrence (K := K)) :=
  docs ≫= doc_occurrences key t.

Lemma holds_spec d t : holds d t = true ↔ ∃ f, f ∈ field_list d ∧ t ∈ toks d f.
Proof.
  unfold holds. rewrite existsb_exists. setoid_rewrite bool_decide_eq_true. setoid_rewrite <-list_elem_of_In. done.
Qed.

Lemma dlen_zero d : dlen d = 0 ↔ ∀ f, f ∈ field_list d → toks d f = [].
Proof.
  unfold dlen, terms_in. induction (field_list d) as [|f fs IH]; [simpl; split; [by intros _ f ?%not_elem_of_nil|done]|].
  rewrite fmap_cons. cbn [sum_list foldr]. setoid_rewrite elem_of_cons. split.
  - intros E f' [->|Hf]; [apply length_zero_iff_nil; simpl in E; lia|]. apply IH; [simpl in E; lia|done].
  - intros Hf. simpl. rewrite (Hf f) by (by left). simpl. apply IH. auto.
Qed.

Lemma holds_nothing d t : dlen d = 0 → holds d t = false.
Proof.
  intros Hd. apply not_true_iff_false. rewrite holds_spec. intros (f & Hf & Ht). rewrite (proj1 (dlen_zero d) Hd f Hf) in Ht.
  by apply not_elem_of_nil in Ht.
Qed.

Lemma elem_of_sorted_fields d f : f ∈ sorted_fields d ↔ f ∈ field_list d.
Proof. unfold sorted_fields. by rewrite elem_of_btree_elems, elem_of_list_to_set. Qed.

Lemma empty_occurrences {K} (key : TextDocument → K) d t : dlen d = 0 → doc_occurrences key t d = [].
Proof.
  intros Hd. unfold doc_occurrences. assert (Forall (λ f, toks d f = []) (sorted_fields d)) as Hf.
  { apply Forall_forall. intros f Hf. apply (proj1 (dlen_zero d) Hd). by apply elem_of_sorted_fields. }
  induction Hf as [|f fs E _ IH]; [done|]. cbn [omap list_omap]. by rewrite E.
Qed.

Lemma searched_occurrences {K} (key : TextDocument → K) docs t : occurrences key (searched docs) t = occurrences key docs t.
Proof.
  unfold occurrences, searched. induction docs as [|d docs IH]; [done|]. cbn [List.filter]. rewrite bind_cons.
  destruct (Nat.eqb_spec (dlen d) 0) as [E|E]; cbn [negb]; [by rewrite empty_occurrences|]. by rewrite bind_cons, IH.
Qed.

(** ** The reference *)

Lemma matching_fold q d fs n T M :
  let r := foldl (matching_field config q d) (n, T, M) fs in
  r.1.1 = n + terms_in d fs ∧
  (∀ t, t ∈ r.1.2 ↔ t ∈ T ∨ t ∈ q ∧ ∃ f, f ∈ fs ∧ t ∈ toks d f) ∧
  (∀ f, r.2 !! f = if bool_decide (f ∈ fs) && negb (bool_decide (frequencies q (toks d f) = ∅))
                   then Some (frequencies q (toks d f)) else M !! f).
Proof.
  revert n T M. induction fs as [|g fs IH]; intros n T M; cbn [foldl].
  { unfold terms_in. simpl. split_and!; [lia|intros t; split; [by left|intros [|(_ & f & ?%not_elem_of_nil & _)]; done]|].
    done. }
  assert (matching_field config q d (n, T, M) g =
    (n + length (toks d g), T ∪ list_to_set (List.filter (λ t, bool_decide (t ∈ q)) (toks d g)),
     if decide (frequencies q (toks d g) = ∅) then M else <[g := frequencies q (toks d g)]> M)) as ->.
  { unfold matching_field, toks. destruct (doc_fields d !! g); [done|]. cbn [length List.filter list_to_set].
    change (frequencies q []) with (∅ : gmap string nat). rewrite decide_True by done. rewrite (right_id_L ∅ (∪)). by rewrite Nat.add_0_r. }
  destruct (IH (n + length (toks d g)) (T ∪ list_to_set (List.filter (λ t, bool_decide (t ∈ q)) (toks d g)))
    (if decide (frequencies q (toks d g) = ∅) then M else <[g := frequencies q (toks d g)]> M)) as (H1 & H2 & H3).
  split_and!.
  - rewrite H1. unfold terms_in. rewrite fmap_cons. simpl. lia.
  - intros t. rewrite H2, elem_of_union, elem_of_list_to_set, list_elem_of_In, filter_In, <-list_elem_of_In, bool_decide_eq_true.
    setoid_rewrite elem_of_cons. naive_solver.
  - intros f. rewrite H3. destruct (decide (f = g)) as [->|Hne].
    + rewrite (bool_decide_eq_true_2 (g ∈ g :: fs)) by left. cbn [andb].
      case_decide as E; [rewrite (bool_decide_eq_true_2 _ E); by rewrite andb_false_r|].
      rewrite (bool_decide_eq_false_2 _ E), andb_true_r. cbn [negb]. rewrite lookup_insert_eq. by destruct (bool_decide _).
    + assert (bool_decide (f ∈ g :: fs) = bool_decide (f ∈ fs)) as -> by (apply bool_decide_ext; rewrite elem_of_cons; naive_solver).
      destruct (_ && _); [done|]. case_decide; [done|]. by rewrite lookup_insert_ne.
Qed.

Definition found q d : nat * gset string * gmap string (gmap string nat) :=
  foldl (matching_field config q d) (0, ∅, ∅) (field_list d).

Lemma found_spec q d :
  (found q d).1.1 = dlen d ∧ (∀ t, t ∈ (found q d).1.2 ↔ t ∈ q ∧ holds d t = true) ∧
  (∀ f, (found q d).2 !! f = if bool_decide (f ∈ field_list d) && negb (bool_decide (frequencies q (toks d f) = ∅))
                             then Some (frequencies q (toks d f)) else None).
Proof.
  destruct (matching_fold q d (field_list d) 0 ∅ ∅) as (H1 & H2 & H3). fold (found q d) in *. split_and!.
  - exact H1.
  - intros t. rewrite H2, holds_spec. set_solver.
  - intros f. by rewrite H3, lookup_empty.
Qed.

Lemma found_occurrences q d t : t ∈ q →
  omap (λ p, tf ← p.2 !! t; Some (doc_id d, p.1, tf, dlen d)) (btree_list (found q d).2) = doc_occurrences doc_id t d.
Proof.
  intros Ht. destruct (found_spec q d) as (_ & _ & HF). rewrite (btree_list_along _ (sorted_fields d)).
  2: apply elems_sorted.
  2: { intros f [v Hv]. rewrite HF in Hv. apply elem_of_sorted_fields. destruct (bool_decide (f ∈ field_list d)) eqn:E; [|done].
       by apply bool_decide_eq_true in E. }
  rewrite omap_omap. apply omap_ext_in. intros f Hf%elem_of_sorted_fields. rewrite HF, bool_decide_eq_true_2 by done. cbn [andb].
  pose proof (frequencies_lookup q (toks d f) t) as Hfreq. rewrite bool_decide_eq_true_2 in Hfreq by done. cbn [andb] in Hfreq.
  case_bool_decide as E; cbn.
  - rewrite E, lookup_empty in Hfreq. by destruct (count t (toks d f) =? 0).
  - rewrite Hfreq. by destruct (count t (toks d f) =? 0).
Qed.

Lemma count_elems t (T : gset string) : count t (btree_elems T) = if bool_decide (t ∈ T) then 1 else 0.
Proof.
  assert (count t (btree_elems T) ≤ 1) as Hle.
  { pose proof (str_sorted_NoDup _ (elems_sorted T)) as Hnd. induction Hnd as [|x l Hx Hnd IH]; [unfold count; simpl; lia|]. unfold count in *.
    cbn [List.filter]. case_bool_decide as E; [|done]. subst x. simpl. apply count_zero in Hx. unfold count in Hx. lia. }
  pose proof (count_pos t (btree_elems T)) as Hp. rewrite elem_of_btree_elems in Hp. case_bool_decide; [|apply count_zero; by rewrite elem_of_btree_elems].
  assert (0 < count t (btree_elems T)) by by apply Hp. lia.
Qed.

Lemma bump_set m (T : gset string) t :
  default 0 (foldl bump m (btree_elems T) !! t) = default 0 (m !! t) + if bool_decide (t ∈ T) then 1 else 0.
Proof. rewrite bump_all, count_elems. case_bool_decide; simpl; [done|lia]. Qed.

Lemma searched_snoc docs d : searched (docs ++ [d]) = searched docs ++ if dlen d =? 0 then [] else [d].
Proof. unfold searched. rewrite List.filter_app. cbn [List.filter]. by destruct (dlen d =? 0). Qed.

Lemma all_terms_snoc docs d : all_terms (docs ++ [d]) = all_terms docs + dlen d.
Proof. unfold all_terms. rewrite fmap_app. induction (dlen <$> docs) as [|n l IH]; simpl in *; lia. Qed.

Lemma df_snoc docs d t : df (docs ++ [d]) t = df docs t + if holds d t then 1 else 0.
Proof. unfold df. rewrite List.filter_app, length_app. cbn [List.filter]. by destruct (holds d t). Qed.

Lemma stats_fold q docs :
  let s := foldl (document_stat config q) (mkStats [] ∅ 0) docs in
  document_stats s = (λ d, (d, dlen d, (found q d).2)) <$> searched docs ∧ st_total s = all_terms docs ∧
  (∀ t, t ∈ q → default 0 (st_doc_freq s !! t) = df docs t).
Proof.
  induction docs as [|d docs (H1 & H2 & H3)] using rev_ind; [done|]. rewrite foldl_app. cbn [foldl].
  set (s := foldl _ _ docs) in *. unfold document_stat. fold (field_list d). fold (found q d).
  destruct (found_spec q d) as (F1 & F2 & _). destruct (found q d) as [[n T] M] eqn:Ef. cbn [fst snd] in *. subst n.
  rewrite searched_snoc, all_terms_snoc. destruct (Nat.eqb_spec (dlen d) 0) as [E|E].
  - rewrite E, app_nil_r, Nat.add_0_r. split_and!; [done|done|]. intros t Ht. rewrite df_snoc, (holds_nothing d t E), Nat.add_0_r. auto.
  - cbn [document_stats st_total st_doc_freq]. rewrite fmap_app, H1, H2. split_and!; [|done|].
    + f_equal. cbn. by rewrite Ef.
    + intros t Ht. rewrite bump_set, H3, df_snoc by done. f_equal. assert (bool_decide (t ∈ T) = holds d t) as ->; [|done].
      apply eq_true_iff_eq. rewrite bool_decide_eq_true, F2. tauto.
Qed.

Lemma stats_occurrences q docs t : t ∈ q →
  stat_occurrences (foldl (document_stat config q) (mkStats [] ∅ 0) docs) t = occurrences doc_id docs t.
Proof.
  intros Ht. unfold stat_occurrences. destruct (stats_fold q docs) as (-> & _ & _). rewrite <-searched_occurrences.
  unfold occurrences. induction (searched docs) as [|d ds IH]; [done|]. rewrite fmap_cons, !bind_cons, IH. f_equal. by apply found_occurrences.
Qed.

(** ** The index *)

(** The frequency of a term in a field of a document. *)
Definition posting (m : gmap string (gmap string (gmap string nat))) t (id : string) f : option nat :=
  m !! t ≫= λ docs, docs !! id ≫= λ fields, fields !! f.

Lemma bump_posting_at id f m t t' id' f' :
  posting (bump_posting id f m t) t' id' f' =
  if bool_decide (t' = t ∧ id' = id ∧ f' = f) then Some (S (default 0 (posting m t id f))) else posting m t' id' f'.
Proof.
  unfold posting, bump_posting. destruct (decide (t' = t)) as [->|Ht].
  2: { rewrite lookup_insert_ne by done. rewrite bool_decide_eq_false_2 by tauto. done. }
  rewrite lookup_insert_eq. cbn [mbind option_bind]. destruct (decide (id' = id)) as [->|Hid].
  2: { rewrite lookup_insert_ne by done. rewrite bool_decide_eq_false_2 by tauto. destruct (m !! t); cbn; [done|by rewrite lookup_empty]. }
  rewrite lookup_insert_eq. cbn [mbind option_bind]. destruct (decide (f' = f)) as [->|Hf].
  - rewrite lookup_insert_eq, bool_decide_eq_true_2 by done. f_equal. f_equal. destruct (m !! t) as [docs|]; cbn; [|done].
    by destruct (docs !! id).
  - rewrite lookup_insert_ne by done. rewrite bool_decide_eq_false_2 by tauto. destruct (m !! t) as [docs|]; cbn.
    + destruct (docs !! id); cbn; [done|by rewrite lookup_empty].
    + by rewrite lookup_empty; cbn; rewrite lookup_empty.
Qed.

Lemma bump_postings id f m l t' id' f' :
  posting (foldl (bump_posting id f) m l) t' id' f' =
  if bool_decide (id' = id ∧ f' = f) && negb (count t' l =? 0) then Some (default 0 (posting m t' id f) + count t' l)
  else posting m t' id' f'.
Proof.
  revert m. induction l as [|t l IH]; intros m; [by rewrite andb_false_r|]. cbn [foldl]. rewrite IH, !bump_posting_at.
  unfold count at 3 4. cbn [List.filter]. destruct (decide (t = t')) as [->|Hne].
  - rewrite (bool_decide_eq_true_2 (t' = t')) by done. cbn [length Nat.eqb negb]. fold (count t' l). rewrite andb_true_r.
    rewrite (bool_decide_eq_true_2 (t' = t' ∧ id = id ∧ f = f)) by done. cbn [default].
    destruct (decide (id' = id ∧ f' = f)) as [E|E].
    + rewrite (bool_decide_eq_true_2 _ E). destruct E as [-> ->]. rewrite (bool_decide_eq_true_2 (t' = t' ∧ id = id ∧ f = f)) by done.
      destruct (Nat.eqb_spec (count t' l) 0) as [E|E]; cbn; f_equal; lia.
    + rewrite (bool_decide_eq_false_2 _ E). cbn [andb]. rewrite bool_decide_eq_false_2 by tauto. done.
  - rewrite (bool_decide_eq_false_2 (t = t')) by done. fold (count t' l).
    by rewrite !(bool_decide_eq_false_2 (t' = t ∧ _)) by naive_solver.
Qed.

Lemma index_field_step d i T g :
  ∃ i', index_field config d (i, T) g = (i', T ∪ list_to_set (toks d g)) ∧
    (∀ t id f, posting (postings i') t id f =
      if bool_decide (id = doc_id d ∧ f = g) && negb (count t (toks d g) =? 0)
      then Some (default 0 (posting (postings i) t (doc_id d) g) + count t (toks d g)) else posting (postings i) t id f) ∧
    (∀ id, doc_lengths i' !! id = if bool_decide (id = doc_id d) && negb (length (toks d g) =? 0)
      then Some (default 0 (doc_lengths i !! id) + length (toks d g)) else doc_lengths i !! id) ∧
    total_terms i' = total_terms i + length (toks d g) ∧ term_doc_freq i' = term_doc_freq i.
Proof.
  assert (T ∪ list_to_set [] = T) as Hnil by apply (right_id_L ∅ (∪)).
  unfold index_field, toks. destruct (doc_fields d !! g) as [text|].
  2: { exists i. rewrite Hnil, Nat.add_0_r. split_and!; [done|intros; by rewrite andb_false_r|intros; by rewrite andb_false_r|done|done]. }
  cbn [fst snd]. set (l := analyze_text (analyzer config) text). destruct l as [|x l'] eqn:El.
  { exists i. rewrite Hnil, Nat.add_0_r. split_and!; [done|intros; by rewrite andb_false_r|intros; by rewrite andb_false_r|done|done]. }
  rewrite <-El. eexists. split; [done|]. cbn [postings doc_lengths total_terms term_doc_freq]. split_and!; [|  |done|done].
  - intros t id f. rewrite bump_postings. done.
  - intros id. rewrite El. cbn [length Nat.eqb negb]. rewrite andb_true_r. case_bool_decide as E; [subst id; by rewrite lookup_insert_eq|].
    by rewrite lookup_insert_ne.
Qed.

Lemma index_fields d fs i T : NoDup fs →
  let r := foldl (index_field config d) (i, T) fs in
  (∀ t id f, posting (postings r.1) t id f =
     if bool_decide (id = doc_id d ∧ f ∈ fs) && negb (count t (toks d f) =? 0)
     then Some (default 0 (posting (postings i) t id f) + count t (toks d f)) else posting (postings i) t id f) ∧
  (∀ id, doc_lengths r.1 !! id =
     if bool_decide (id = doc_id d) && negb (terms_in d fs =? 0) then Some (default 0 (doc_lengths i !! id) + terms_in d fs)
     else doc_lengths i !! id) ∧
  total_terms r.1 = total_terms i + terms_in d fs ∧ term_doc_freq r.1 = term_doc_freq i ∧
  (∀ t, t ∈ r.2 ↔ t ∈ T ∨ ∃ f, f ∈ fs ∧ t ∈ toks d f).
Proof.
  intros Hnd. revert i T. induction Hnd as [|g fs Hg Hnd IH]; intros i T; cbn [foldl].
  { unfold terms_in. simpl. split_and!; [| |lia|done|].
    - intros t id f. rewrite bool_decide_eq_false_2; [done|]. intros [_ ?%not_elem_of_nil]. done.
    - intros id. by rewrite andb_false_r.
    - intros t. split; [by left|]. intros [|(f & ?%not_elem_of_nil & _)]; done. }
  destruct (index_field_step d i T g) as (i' & Ei & Hp & Hl & Ht & Hf).
  rewrite Ei. destruct (IH i' (T ∪ list_to_set (toks d g))) as (I1 & I2 & I3 & I4 & I5).
  assert (terms_in d (g :: fs) = length (toks d g) + terms_in d fs) as Esum by done.
  split_and!.
  - intros t id f. rewrite I1, !Hp. destruct (decide (id = doc_id d)) as [->|Hid].
    2: { rewrite !bool_decide_eq_false_2 by tauto. done. }
    destruct (decide (f = g)) as [->|Hfg].
    + rewrite (bool_decide_eq_false_2 (doc_id d = doc_id d ∧ g ∈ fs)) by tauto. cbn [andb].
      rewrite (bool_decide_eq_true_2 (doc_id d = doc_id d ∧ g = g)), (bool_decide_eq_true_2 (doc_id d = doc_id d ∧ g ∈ g :: fs)) by (split; [done|left] || done).
      done.
    + rewrite !(bool_decide_eq_false_2 (doc_id d = doc_id d ∧ f = g)) by tauto. cbn [andb].
      rewrite (bool_decide_ext (doc_id d = doc_id d ∧ f ∈ g :: fs) (doc_id d = doc_id d ∧ f ∈ fs)) by (rewrite elem_of_cons; tauto). done.
  - intros id. rewrite I2, !Hl, Esum. case_bool_decide as E; [|done]. cbn [andb].
    destruct (Nat.eqb_spec (length (toks d g)) 0) as [E0|E0], (Nat.eqb_spec (terms_in d fs) 0) as [E1|E1]; cbn [negb].
    + by rewrite E0, E1.
    + rewrite E0. by destruct (Nat.eqb_spec (0 + terms_in d fs) 0).
    + rewrite E1. destruct (Nat.eqb_spec (length (toks d g) + 0) 0); [lia|]. cbn [negb]. by rewrite Nat.add_0_r.
    + destruct (Nat.eqb_spec (length (toks d g) + terms_in d fs) 0); [lia|]. cbn [negb default]. f_equal. cbn. lia.
  - rewrite I3, Ht, Esum. lia.
  - by rewrite I4.
  - intros t. rewrite I5, elem_of_union, elem_of_list_to_set. setoid_rewrite elem_of_cons. naive_solver.
Qed.

Lemma ex_old docs d (Q : TextDocument → Prop) : ¬ Q d → (∃ d', d' ∈ docs ++ [d] ∧ Q d') ↔ ∃ d', d' ∈ docs ∧ Q d'.
Proof.
  intros Hd. split; intros (d' & Hin & HQ); exists d'; (split; [|done]).
  - apply elem_of_app in Hin as [Hin| ->%list_elem_of_singleton]; done.
  - apply elem_of_app. by left.
Qed.

Lemma ex_new docs d (Q : TextDocument → Prop) : (∀ d', d' ∈ docs → ¬ Q d') → (∃ d', d' ∈ docs ++ [d] ∧ Q d') ↔ Q d.
Proof.
  intros Hd. split.
  - intros (d' & [Hin| ->%list_elem_of_singleton]%elem_of_app & HQ); [by apply Hd in Hin|done].
  - intros HQ. exists d. split; [apply elem_of_app; right; by left|done].
Qed.

Definition indexed (docs : list TextDocument) : TextIndex := foldl (index_document config) index_default docs.

Lemma indexed_spec docs : NoDup (doc_id <$> docs) → (∀ d, d ∈ docs → NoDup (field_list d)) →
  (∀ t id f n, posting (postings (indexed docs)) t id f = Some n ↔
     ∃ d, d ∈ docs ∧ doc_id d = id ∧ f ∈ field_list d ∧ n = count t (toks d f) ∧ n ≠ 0) ∧
  (∀ id n, doc_lengths (indexed docs) !! id = Some n ↔ ∃ d, d ∈ docs ∧ doc_id d = id ∧ n = dlen d ∧ n ≠ 0) ∧
  total_terms (indexed docs) = all_terms docs ∧ (∀ t, default 0 (term_doc_freq (indexed docs) !! t) = df docs t).
Proof.
  induction docs as [|d docs IH] using rev_ind; intros Hids Hfs.
  { split_and!; [| |done|done].
    - intros t id f n. unfold posting. simpl. rewrite lookup_empty. split; [done|]. by intros (d & ?%not_elem_of_nil & _).
    - intros id n. simpl. rewrite lookup_empty. split; [done|]. by intros (d & ?%not_elem_of_nil & _). }
  rewrite fmap_app in Hids. apply NoDup_app in Hids as (Hids & Hnew & _).
  assert (∀ d', d' ∈ docs → doc_id d' ≠ doc_id d) as Hfresh.
  { intros d' Hd' E. apply (Hnew (doc_id d')); [by apply list_elem_of_fmap_2|]. rewrite E. simpl. left. }
  destruct IH as (P & L & A & D); [done|intros d' Hd'; apply Hfs; set_solver|].
  unfold indexed. rewrite foldl_app. fold (indexed docs). cbn [foldl]. unfold index_document. fold (field_list d).
  destruct (index_fields d (field_list d) (indexed docs) ∅) as (I1 & I2 & I3 & I4 & I5); [apply Hfs; set_solver|].
  destruct (foldl (index_field config d) _ _) as [i' T]. cbn [fst snd] in *. cbn [postings doc_lengths total_terms term_doc_freq].
  assert (∀ t f, posting (postings (indexed docs)) t (doc_id d) f = None) as Pnone.
  { intros t f. destruct (posting _ t (doc_id d) f) as [n|] eqn:E; [|done]. apply P in E as (d' & Hd' & Eid & _). by apply Hfresh in Hd'. }
  assert (doc_lengths (indexed docs) !! doc_id d = None) as Lnone.
  { destruct (doc_lengths _ !! doc_id d) as [n|] eqn:E; [|done]. apply L in E as (d' & Hd' & Eid & _). by apply Hfresh in Hd'. }
  split_and!.
  - intros t id f n. rewrite I1. destruct (decide (id = doc_id d)) as [->|Hid].
    + rewrite ex_new by (intros d' Hd' [E _]; by apply Hfresh in Hd'). rewrite Pnone. cbn [default]. rewrite Nat.add_0_l.
      destruct (decide (f ∈ field_list d)) as [Hf|Hf].
      * rewrite bool_decide_eq_true_2 by done. cbn [andb]. destruct (Nat.eqb_spec (count t (toks d f)) 0) as [E|E]; cbn [negb].
        -- split; [done|]. by intros (_ & _ & -> & ?).
        -- split; [by intros [= <-]|]. by intros (_ & _ & -> & ?).
      * rewrite bool_decide_eq_false_2 by tauto. split; [done|]. by intros (_ & ? & _).
    + rewrite ex_old by (intros [E _]; congruence). rewrite bool_decide_eq_false_2 by tauto. apply P.
  - intros id n. rewrite I2. fold (dlen d). destruct (decide (id = doc_id d)) as [->|Hid].
    + rewrite ex_new by (intros d' Hd' [E _]; by apply Hfresh in Hd'). rewrite Lnone, bool_decide_eq_true_2 by done.
      cbn [default andb]. rewrite Nat.add_0_l. destruct (Nat.eqb_spec (dlen d) 0) as [E|E]; cbn [negb].
      * split; [done|]. by intros (_ & -> & ?).
      * split; [by intros [= <-]|]. by intros (_ & -> & ?).
    + rewrite ex_old by (intros [E _]; congruence). rewrite bool_decide_eq_false_2 by done. apply L.
  - by rewrite I3, A, all_terms_snoc.
  - intros t. rewrite bump_set, I4, D, df_snoc. f_equal. assert (bool_decide (t ∈ T) = holds d t) as ->; [|done].
    apply eq_true_iff_eq. rewrite bool_decide_eq_true, I5, holds_spec. set_solver.
Qed.
End documents.
