(* ===== verification/TextSearch.v ===== *)
(** The two text searches of [src/src/text_search.rs] give what the reference gives:
dense positions, postings and the bounded heap change nothing. *)
From stdpp Require Import base gmap sets list strings sorting.
From Stdlib Require Import ZArith Lia.
From S2P Require Import Prelude Clock Value F32 TopK Records Keys Paths Segment Inner Query Tx Protocol Change Relay Vector Text TextRank.

(** * Lists and positions *)

Lemma omap_fmap_some {A B C} (g : B → option C) (h : A → B) (l : list A) : omap g (h <$> l) = omap (λ x, g (h x)) l.
Proof. induction l as [|x l IH]; [done|]. rewrite fmap_cons. cbn [omap list_omap]. by rewrite IH. Qed.

Lemma fmap_omap_some {A B C} (g : B → C) (h : A → option B) (l : list A) : g <$> omap h l = omap (λ x, g <$> h x) l.
Proof. induction l as [|x l IH]; [done|]. cbn [omap list_omap]. destruct (h x); cbn; by rewrite IH. Qed.

Lemma bind_ext_in {A B} (g h : A → list B) (l : list A) : (∀ x, x ∈ l → g x = h x) → l ≫= g = l ≫= h.
Proof.
  induction l as [|x l IH]; intros Hl; [done|]. rewrite !bind_cons, (Hl x) by left.
  rewrite IH by (intros y Hy; apply Hl; by right). done.
Qed.

Lemma fmap_ext_in {A B} (g h : A → B) (l : list A) : (∀ x, x ∈ l → g x = h x) → g <$> l = h <$> l.
Proof.
  induction l as [|x l IH]; intros Hl; [done|]. rewrite !fmap_cons, (Hl x) by left.
  rewrite IH by (intros y Hy; apply Hl; by right). done.
Qed.

Lemma bind_filter {A B} (g : A → list B) (keep : A → bool) (l : list A) :
  (∀ x, keep x = false → g x = []) → l ≫= g = List.filter keep l ≫= g.
Proof.
  intros Hg. induction l as [|x l IH]; [done|]. rewrite bind_cons. cbn [List.filter].
  destruct (keep x) eqn:E; [by rewrite bind_cons, IH|]. by rewrite (Hg x E), IH.
Qed.

Lemma omap_bind {A B} (g : A → option B) (l : list A) : omap g l = l ≫= λ x, option_list (g x).
Proof. induction l as [|x l IH]; [done|]. rewrite bind_cons. cbn [omap list_omap]. destruct (g x); cbn; by rewrite IH. Qed.

(** A scan of a map's entries that finds nothing off an ordered list goes along the list. *)
Lemma btree_bind_along {V B} (m : gmap string V) l (g : string * V → list B) :
  str_sorted l → (∀ k v, m !! k = Some v → k ∉ l → g (k, v) = []) →
  btree_list m ≫= g = l ≫= λ k, match m !! k with Some v => g (k, v) | None => [] end.
Proof.
  intros Hl Hg. set (l' := btree_elems (dom m ∪ list_to_set l)).
  assert (str_sorted l') as Hl' by apply elems_sorted.
  assert (∀ k, k ∈ l' ↔ is_Some (m !! k) ∨ k ∈ l) as Hin.
  { intros k. unfold l'. by rewrite elem_of_btree_elems, elem_of_union, elem_of_dom, elem_of_list_to_set. }
  rewrite (btree_list_along m l') by (done || (intros k Hk; apply Hin; by left)).
  rewrite omap_bind. set (G := λ k, match m !! k with Some v => g (k, v) | None => [] end).
  assert ((l' ≫= (λ x, option_list (pair x <$> m !! x))) ≫= g = l' ≫= G) as ->.
  { clear Hin Hl'. induction l' as [|x k IH]; [done|]. rewrite !bind_cons, bind_app, IH. f_equal. unfold G.
    destruct (m !! x); [|done]. cbn. by rewrite app_nil_r. }
  rewrite (bind_filter G (λ k, bool_decide (k ∈ l))).
  - f_equal. apply str_sorted_unique; [by apply filter_str_sorted|done|].
    intros k. rewrite list_elem_of_In, filter_In, <-list_elem_of_In, bool_decide_eq_true, Hin. tauto.
  - intros k Hk%bool_decide_eq_false. unfold G. destruct (m !! k) eqn:E; [|done]. by apply Hg.
Qed.

Lemma position_of_lookup names x k : position_of names x = Some k → names !! k = Some x.
Proof.
  unfold position_of. intros E. apply fmap_Some in E as ([i y] & E & ->). apply list_find_Some in E as (E & -> & _). done.
Qed.

Lemma position_of_elem names x : x ∈ names → is_Some (position_of names x).
Proof.
  intros Hx. unfold position_of. destruct (list_find_elem_of (λ n, n = x) names x) as [[i y] E]; [done|done|]. rewrite E. by eexists.
Qed.

Lemma position_of_at names k x : NoDup names → names !! k = Some x → position_of names x = Some k.
Proof.
  intros Hnd Hk. destruct (position_of_elem names x) as [j Hj]; [by eapply list_elem_of_lookup_2|]. rewrite Hj. f_equal.
  apply position_of_lookup in Hj. by eapply NoDup_lookup.
Qed.

Lemma nth_at {A} (l : list A) k x y : l !! k = Some x → nth k l y = x.
Proof. intros E. rewrite nth_lookup, E. done. Qed.

Lemma fmap_bind {A B C} (g : B → C) (h : A → list B) (l : list A) : g <$> (l ≫= h) = l ≫= λ x, g <$> h x.
Proof. induction l as [|x l IH]; [done|]. by rewrite !bind_cons, fmap_app, IH. Qed.

Lemma filter_all {A} (keep : A → bool) (l : list A) : (∀ x, x ∈ l → keep x = true) → List.filter keep l = l.
Proof.
  induction l as [|x l IH]; intros Hl; [done|]. cbn [List.filter]. rewrite (Hl x) by left.
  rewrite IH by (intros y Hy; apply Hl; by right). done.
Qed.

(** * The dense index *)

Section search.
Context `{Unicode, Platform} (config : TextCollectionConfig).
Implicit Types (d : TextDocument) (f t : string) (docs L : list TextDocument).

Abbreviation dlen := (dlen config).
Abbreviation toks := (toks config).
Abbreviation searched := (searched config).
Abbreviation indexed := (indexed config).
Abbreviation field_list := (field_list config).
Abbreviation sorted_fields := (sorted_fields config).
Abbreviation occurrences := (occurrences config).

Definition ids L : list string := doc_id <$> L.

(** The position of a document in the list that is searched. *)
Definition pos L d : nat := default 0 (position_of (ids L) (doc_id d)).

Lemma pos_at L k d : NoDup (ids L) → L !! k = Some d → pos L d = k.
Proof. intros Hnd Hk. unfold pos. erewrite position_of_at; [done|done|]. unfold ids. by rewrite list_lookup_fmap, Hk. Qed.

Lemma elem_searched docs d : d ∈ searched docs ↔ d ∈ docs ∧ dlen d ≠ 0.
Proof. unfold TextRank.searched. rewrite list_elem_of_In, filter_In, <-list_elem_of_In, negb_true_iff, Nat.eqb_neq. done. Qed.

Lemma searched_sorted docs : str_sorted (ids docs) → str_sorted (ids (searched docs)).
Proof.
  unfold str_sorted, ids. induction docs as [|d docs IH]; intros Hs; [constructor|]. rewrite fmap_cons in Hs. apply StronglySorted_inv in Hs as [Hs Hd].
  unfold TextRank.searched. cbn [List.filter]. fold (searched docs). destruct (negb _); [|by apply IH]. rewrite fmap_cons. constructor; [by apply IH|].
  rewrite Forall_forall in *. intros x Hx. apply Hd. apply list_elem_of_fmap in Hx as (d' & -> & Hd'). apply list_elem_of_fmap_2.
  apply elem_searched in Hd' as [Hd' _]. done.
Qed.

Lemma sorted_unique_id docs d d' : str_sorted (ids docs) → d ∈ docs → d' ∈ docs → doc_id d = doc_id d' → d = d'.
Proof.
  intros Hs Hd Hd' E. apply str_sorted_NoDup in Hs. apply list_elem_of_lookup in Hd as [i Hi], Hd' as [j Hj].
  assert (i = j) as ->; [|congruence]. eapply NoDup_lookup; [exact Hs| |]; unfold ids; rewrite list_lookup_fmap; [rewrite Hi|rewrite Hj]; simpl; by rewrite ?E.
Qed.

Section index.
Context docs (Hs : str_sorted (ids docs)) (Hfs : ∀ d, d ∈ docs → NoDup (field_list d)).

Let i := rebuild_dense_text_index (indexed docs).
Let S := searched docs.

Let Hspec := indexed_spec config docs (str_sorted_NoDup _ Hs) Hfs.

Lemma indexed_length d : d ∈ S → doc_lengths (indexed docs) !! doc_id d = Some (dlen d).
Proof. intros [Hd Hl]%elem_searched. apply Hspec. eauto. Qed.

Lemma indexed_length_inv id n : doc_lengths (indexed docs) !! id = Some n → id ∈ ids S.
Proof.
  intros E. apply Hspec in E as (d & Hd & <- & -> & Hl). apply list_elem_of_fmap_2. apply elem_searched. done.
Qed.

Lemma dense_ids : dense_doc_ids i = ids S.
Proof.
  cbn. apply str_sorted_unique; [apply keys_sorted|by apply searched_sorted|]. intros k. rewrite elem_of_btree_keys. split.
  - intros [n Hn]. by eapply indexed_length_inv.
  - intros (d & -> & Hd)%list_elem_of_fmap. rewrite indexed_length by done. by eexists.
Qed.

Lemma dense_lengths : dense_doc_lengths i = dlen <$> S.
Proof.
  cbn. rewrite (btree_list_along _ (ids S)).
  - unfold ids. rewrite omap_fmap_some, fmap_omap_some. pose proof indexed_length as Hl. clearbody S. clear -Hl. induction S as [|d l IH]; [done|].
    cbn [omap list_omap]. rewrite Hl by left. cbn. f_equal. apply IH. intros d' Hd'. apply Hl. by right.
  - by apply searched_sorted.
  - intros k [n Hn]. by eapply indexed_length_inv.
Qed.

Lemma posting_field m t d f : d ∈ docs → f ∈ field_list d → postings (indexed docs) !! t ≫= (.!! doc_id d) = Some m →
  m !! f = if count t (toks d f) =? 0 then None else Some (count t (toks d f)).
Proof.
  intros Hd Hf Em. destruct Hspec as (P & _). assert (posting (postings (indexed docs)) t (doc_id d) f = m !! f) as Ep.
  { unfold posting. destruct (postings _ !! t); [|done]. cbn in *. by rewrite Em. }
  rewrite <-Ep. destruct (Nat.eqb_spec (count t (toks d f)) 0) as [E|E]; [|apply P; eauto 6].
  destruct (posting _ t (doc_id d) f) as [n|] eqn:En; [|done]. apply P in En as (d' & Hd' & Eid & Hf' & -> & Hn).
  by rewrite (sorted_unique_id docs d' d) in Hn.
Qed.

Lemma posting_inv m t id f n : postings (indexed docs) !! t ≫= (.!! id) = Some m → m !! f = Some n →
  ∃ d, d ∈ S ∧ doc_id d = id ∧ f ∈ field_list d.
Proof.
  intros Em En. destruct Hspec as (P & _). assert (posting (postings (indexed docs)) t id f = Some n) as Ep.
  { unfold posting. destruct (postings _ !! t); [|done]. cbn in *. by rewrite Em. }
  apply P in Ep as (d & Hd & <- & Hf & -> & Hn). exists d. split_and!; [|done|done]. apply elem_searched. split; [done|].
  rewrite dlen_zero. intros Hz. apply Hn. apply count_zero. rewrite Hz by done. by intros ?%not_elem_of_nil.
Qed.

(** The name of a field that has a posting is in the dense list. *)
Lemma dense_field t id m f n : postings (indexed docs) !! t ≫= (.!! id) = Some m → m !! f = Some n →
  ∃ j, position_of (dense_field_names i) f = Some j ∧ nth j (dense_field_names i) "" = f.
Proof.
  intros Em En. destruct (position_of_elem (dense_field_names i) f) as [j Hj].
  - cbn. apply elem_of_btree_elems, elem_of_list_to_set. destruct (postings (indexed docs) !! t) as [ds|] eqn:Et; [|done]. cbn in Em.
    apply list_elem_of_bind. exists (t, ds). split; [|by apply elem_of_btree_list].
    apply list_elem_of_bind. exists (id, m). split; [|by apply elem_of_btree_list]. apply elem_of_btree_keys. by eexists.
  - exists j. split; [done|]. by apply nth_at, position_of_lookup.
Qed.

(** The postings of a term in a document, as occurrences. *)
Definition at_field (p : DensePosting) : occurrence (K := nat) :=
  (doc_index p, nth (field_index p) (dense_field_names i) "", term_frequency p, nth (doc_index p) (dense_doc_lengths i) 0).

Lemma document_postings t d m : d ∈ S → postings (indexed docs) !! t ≫= (.!! doc_id d) = Some m →
  at_field <$> omap (λ q, a ← position_of (dense_doc_ids i) (doc_id d); b ← position_of (dense_field_names i) q.1;
                          Some (mkPosting a b q.2)) (btree_list m) = doc_occurrences config (pos S) t d.
Proof.
  intros Hd Em. pose proof (proj1 (elem_searched docs d) Hd) as [Hdocs _].
  rewrite (btree_list_along m (sorted_fields d)).
  2: apply elems_sorted.
  2: { intros f [n Hn]. apply elem_of_sorted_fields. destruct (posting_inv m t (doc_id d) f n Em Hn) as (d' & Hd' & E & Hf).
       apply elem_searched in Hd' as [Hd' _]. by rewrite <-(sorted_unique_id docs d' d). }
  rewrite omap_omap, fmap_omap_some. unfold doc_occurrences. apply omap_ext_in. intros f Hf%elem_of_sorted_fields.
  pose proof (posting_field m t d f Hdocs Hf Em) as Hm.
  destruct (count t (toks d f) =? 0); rewrite Hm; [done|]. cbn [fmap option_fmap option_map mbind option_bind fst snd].
  destruct (dense_field t (doc_id d) m f _ Em Hm) as (j & Hj & Hnth). rewrite dense_ids.
  apply list_elem_of_lookup in Hd as [k Hk].
  assert (NoDup (ids S)) as Hnd by (by apply str_sorted_NoDup, searched_sorted).
  assert (position_of (ids S) (doc_id d) = Some k) as Hp.
  { apply position_of_at; [done|]. unfold ids. by rewrite list_lookup_fmap, Hk. }
  rewrite Hp, Hj. cbn. unfold at_field. cbn [doc_index field_index term_frequency]. rewrite Hnth, dense_lengths.
  rewrite (nth_at _ k (dlen d)) by (by rewrite list_lookup_fmap, Hk). by rewrite (pos_at S k d).
Qed.

Lemma dense_occurrences t :
  at_field <$> default [] (dense_postings i !! t) = occurrences (pos S) S t.
Proof.
  assert (default [] (dense_postings i !! t) = dense_of (dense_doc_ids i) (dense_field_names i) (default ∅ (postings (indexed docs) !! t))) as ->.
  { cbn [i rebuild_dense_text_index dense_postings dense_doc_ids dense_field_names]. rewrite lookup_fmap.
    destruct (postings (indexed docs) !! t); [done|]. cbn. done. }
  unfold dense_of. rewrite fmap_bind. set (m := default ∅ (postings (indexed docs) !! t)).
  assert (∀ id v, m !! id = Some v → postings (indexed docs) !! t ≫= (.!! id) = Some v) as Hm.
  { intros id v. unfold m. destruct (postings (indexed docs) !! t); [done|]. cbn. by rewrite lookup_empty. }
  rewrite (btree_bind_along m (ids S)).
  - unfold TextRank.occurrences, ids. rewrite list_fmap_bind. apply bind_ext_in. intros d Hd. cbn [compose fst snd].
    destruct (m !! doc_id d) as [v|] eqn:Ev; [by apply document_postings, Hm|].
    symmetry. unfold doc_occurrences. rewrite (omap_ext_in _ (λ _, None)); [by induction (sorted_fields d)|].
    intros f Hf%elem_of_sorted_fields. destruct (Nat.eqb_spec (count t (toks d f)) 0) as [|Hc]; [done|]. exfalso.
    destruct Hspec as (P & _). assert (posting (postings (indexed docs)) t (doc_id d) f = Some (count t (toks d f))) as Hp.
    { apply P. exists d. apply elem_searched in Hd as [Hd _]. done. }
    unfold posting in Hp. unfold m in Ev. destruct (postings (indexed docs) !! t); [|done]. cbn in Ev, Hp. by rewrite Ev in Hp.
  - by apply searched_sorted.
  - intros id v Hv Hid. apply Hm in Hv. cbn [fst snd]. destruct (position_of (dense_doc_ids i) id) as [k|] eqn:E.
    + apply position_of_lookup, list_elem_of_lookup_2 in E. by rewrite dense_ids in E.
    + by induction (btree_list v).
Qed.

Lemma index_occurrences_spec t : (∀ d, d ∈ docs → (Z.of_nat (dlen d) < 2 ^ 24)%Z) →
  index_occurrences i t = occurrences (pos S) docs t.
Proof.
  intros Hlen. rewrite <-searched_occurrences. unfold index_occurrences. fold S. rewrite <-dense_occurrences. fold at_field.
  apply filter_all. rewrite dense_occurrences. intros o Ho. apply list_elem_of_bind in Ho as (d & Ho & Hd).
  apply list_elem_of_omap in Ho as (f & _ & Ho). destruct (count t (toks d f) =? 0); [done|]. injection Ho as <-. cbn [snd].
  apply elem_searched in Hd as [Hd Hne]. rewrite usize_positive; [done|]. specialize (Hlen d Hd). lia.
Qed.
End index.

(** * Scores by position and by id *)

Section scores.
Context L (Hs : str_sorted (ids L)).

Abbreviation Score := (f32 * gmap string TextFieldHit)%type.

Definition agree (sn : gmap nat Score) (ss : gmap string Score) : Prop :=
  (∀ k, is_Some (sn !! k) → k < length L) ∧ (∀ id, is_Some (ss !! id) → id ∈ ids L) ∧
  (∀ k d, L !! k = Some d → sn !! k = ss !! doc_id d).

Lemma add_score_agree sn ss k d f t x : L !! k = Some d → agree sn ss → agree (add_score k f t x sn) (add_score (doc_id d) f t x ss).
Proof.
  intros Hk (H1 & H2 & H3). unfold add_score. rewrite (H3 k d Hk). destruct (default _ (ss !! doc_id d)) as [total hits]. split_and!.
  - intros k'. destruct (decide (k' = k)) as [->|Hne]; [intros _; by eapply lookup_lt_Some|]. rewrite lookup_insert_ne by done. auto.
  - intros id. destruct (decide (id = doc_id d)) as [->|Hne].
    + intros _. apply list_elem_of_fmap_2. by eapply list_elem_of_lookup_2.
    + rewrite lookup_insert_ne by done. auto.
  - intros k' d' Hk'. destruct (decide (k' = k)) as [->|Hne]; [simplify_eq; by rewrite !lookup_insert_eq|].
    rewrite !lookup_insert_ne; [by apply H3|intros E|done].
    apply Hne. apply str_sorted_NoDup in Hs. eapply NoDup_lookup; [exact Hs| |]; unfold ids; rewrite list_lookup_fmap; [rewrite Hk'|rewrite Hk]; simpl; by rewrite ?E.
Qed.

Lemma score_occurrences_agree spec avg idf t l sn ss : (∀ d, d ∈ l → d ∈ L) → agree sn ss →
  agree (foldl (score_occurrence config spec avg idf t) sn (occurrences (pos L) l t))
        (foldl (score_occurrence config spec avg idf t) ss (occurrences doc_id l t)).
Proof.
  revert sn ss. induction l as [|d l IH]; intros sn ss Hl Ha; [done|]. unfold TextRank.occurrences. rewrite !bind_cons, !foldl_app.
  apply IH; [set_solver|]. destruct (list_elem_of_lookup_1 L d) as [k Hk]; [set_solver|].
  unfold doc_occurrences. rewrite (pos_at L k d) by (done || by apply str_sorted_NoDup). clear IH Hl.
  revert sn ss Ha. induction (sorted_fields d) as [|f fs IH]; intros sn ss Ha; [done|]. cbn [omap list_omap].
  destruct (count t (toks d f) =? 0); [by apply IH|]. cbn [foldl]. apply IH. unfold score_occurrence.
  destruct (match ts_fields spec with Some _ => _ | None => _ end); [done|]. destruct (f32_eq _ _); [done|]. by apply add_score_agree.
Qed.

Lemma score_terms_agree spec n total df df' occ occ' terms :
  (∀ t, t ∈ terms → df t = df' t ∧ occ t = occurrences (pos L) L t ∧ occ' t = occurrences doc_id L t) →
  agree (score_terms config spec n total df occ terms) (score_terms config spec n total df' occ' terms).
Proof.
  unfold score_terms. assert (agree ∅ ∅) as Ha.
  { split_and!; [intros k|intros id|intros k d _]; rewrite !lookup_empty; [by intros [? ?]..|done]. }
  revert Ha. generalize (∅ : gmap nat Score) (∅ : gmap string Score).
  induction terms as [|t terms IH]; intros sn ss Ha Ht; [done|]. cbn [foldl]. destruct (Ht t) as (E1 & E2 & E3); [left|].
  apply IH; [|intros t' Ht'; apply Ht; by right]. unfold score_term. rewrite E1, E2, E3.
  destruct (f32_le _ _); [done|]. by apply score_occurrences_agree.
Qed.
End scores.

(** * From scores to matches *)

Lemma NoDup_omap_inj {A B} (g : A → option B) (l : list A) :
  NoDup l → (∀ x y z, g x = Some z → g y = Some z → x = y) → NoDup (omap g l).
Proof.
  intros Hl Hg. induction Hl as [|x l Hx Hl IH]; [constructor|]. cbn [omap list_omap]. destruct (g x) as [z|] eqn:E; [|done].
  constructor; [|done]. intros Hz. apply list_elem_of_omap in Hz as (y & Hy & Ey). by rewrite (Hg x y z) in Hx.
Qed.

Lemma omap_seq {A B} (g : A → option B) (l : list A) : omap g l = omap (λ k, l !! k ≫= g) (seq 0 (length l)).
Proof.
  induction l as [|x l IH] using rev_ind; [done|]. rewrite length_app, seq_app, !omap_app. cbn [length seq].
  rewrite IH. f_equal.
  - apply omap_ext_in. intros k Hk. apply elem_of_seq in Hk. by rewrite lookup_app_l by lia.
  - cbn [omap list_omap]. rewrite Nat.add_0_l. rewrite lookup_app_r by lia. rewrite Nat.sub_diag. done.
Qed.

Lemma nat_btree_along {V} (m : gmap nat V) n : (∀ k, is_Some (m !! k) → k < n) →
  nat_btree_list m = omap (λ k, pair k <$> m !! k) (seq 0 n).
Proof.
  intros Hm. assert (∀ k v, (k, v) ∈ nat_btree_list m ↔ m !! k = Some v) as Hl.
  { intros k v. unfold nat_btree_list. rewrite merge_sort_Permutation. apply elem_of_map_to_list. }
  assert (∀ k v, (k, v) ∈ omap (λ k, pair k <$> m !! k) (seq 0 n) ↔ m !! k = Some v) as Hr.
  { intros k v. rewrite list_elem_of_omap. split.
    - intros (k' & _ & E). destruct (m !! k') eqn:Ek; [|done]. simpl in E. by simplify_eq.
    - intros E. exists k. rewrite E. split; [|done]. apply elem_of_seq. specialize (Hm k ltac:(eauto)). lia. }
  apply (StronglySorted_unique_strong nat_key_le).
  - intros [k v] [k' v'] Hx Hy. unfold nat_key_le. cbn. intros. apply Hl in Hx. apply Hr in Hy. assert (k = k') as -> by lia. congruence.
  - apply StronglySorted_merge_sort; intros [k v] [k' v']; [intros [k'' v'']|]; unfold nat_key_le; cbn; lia.
  - clear. generalize 0. induction n as [|n IH]; intros a; [constructor|]. cbn [seq omap list_omap]. destruct (m !! a); [|apply IH].
    cbn. constructor; [apply IH|]. apply Forall_forall. intros [k v'] Hk. apply list_elem_of_omap in Hk as (k' & Hk' & E).
    destruct (m !! k'); [|done]. simpl in E. simplify_eq. apply elem_of_seq in Hk'. unfold nat_key_le. cbn. lia.
  - apply NoDup_Permutation.
    + unfold nat_btree_list. rewrite merge_sort_Permutation. apply NoDup_map_to_list.
    + apply NoDup_omap_inj; [apply NoDup_seq|]. intros x y z Hx Hy. destruct (m !! x), (m !! y); simplify_eq/=. done.
    + intros [k v]. by rewrite Hl, Hr.
Qed.

Lemma by_id_lookup (docs : list TextDocument) d : NoDup (ids docs) → d ∈ docs →
  foldl (λ (m : gmap string TextDocument) d, <[doc_id d := d]> m) ∅ docs !! doc_id d = Some d.
Proof.
  induction docs as [|x docs IH] using rev_ind; intros Hnd Hd; [by apply not_elem_of_nil in Hd|]. rewrite foldl_app. cbn [foldl].
  unfold ids in Hnd. rewrite fmap_app in Hnd. apply NoDup_app in Hnd as (Hnd & Hnew & _).
  apply elem_of_app in Hd as [Hd| ->%list_elem_of_singleton]; [|by rewrite lookup_insert_eq]. rewrite lookup_insert_ne; [by apply IH|].
  intros E. apply (Hnew (doc_id d)); [by apply list_elem_of_fmap_2|]. rewrite <-E. left.
Qed.

Section matches.
Context L (Hs : str_sorted (ids L)) (spec : TextSearchSpec) (sn : gmap nat (f32 * gmap string TextFieldHit))
  (Hsn : ∀ k, is_Some (sn !! k) → k < length L).

(** The match of a document that has a score, with its position. *)
Definition match_at (k : nat) : option (nat * TextSearchMatch) :=
  d ← L !! k; p ← sn !! k; if f32_le p.1 f32_zero then None else Some (k, match_for spec d p).

Definition all_matches : list (nat * TextSearchMatch) := omap match_at (seq 0 (length L)).

Lemma match_at_inv k x : match_at k = Some x →
  ∃ d p, L !! k = Some d ∧ sn !! k = Some p ∧ f32_le p.1 f32_zero = false ∧ x = (k, match_for spec d p).
Proof.
  unfold match_at. intros E. apply bind_Some in E as (d & Hd & E). apply bind_Some in E as (p & Hp & E).
  destruct (f32_le p.1 f32_zero) eqn:El; [done|]. injection E as <-. eauto 6.
Qed.

Lemma elem_all_matches x : x ∈ all_matches ↔ match_at x.1 = Some x.
Proof.
  unfold all_matches. rewrite list_elem_of_omap. split.
  - intros (k & _ & E). by destruct (match_at_inv k x E) as (d & p & _ & _ & _ & ->).
  - intros E. exists x.1. split; [|done]. destruct (match_at_inv _ _ E) as (d & p & Hd & _). apply elem_of_seq. apply lookup_lt_Some in Hd. lia.
Qed.

Lemma all_matches_NoDup : NoDup all_matches.
Proof.
  apply NoDup_omap_inj; [apply NoDup_seq|]. intros k k' x E E'. apply match_at_inv in E as (? & ? & _ & _ & _ & ->).
  apply match_at_inv in E' as (? & ? & _ & _ & _ & E'). congruence.
Qed.

Lemma all_matches_key x y : x ∈ all_matches → y ∈ all_matches → x.1 = y.1 → x = y.
Proof. rewrite !elem_all_matches. intros Hx Hy E. rewrite E in Hx. congruence. Qed.

(** By position and by id, matches of equal score stand in the same order. *)
Lemma match_order x y : x ∈ all_matches → y ∈ all_matches →
  by_key_le (λ x, worst_key (x.1, tm_score x.2)) x y → by_key_le (match_key ∘ snd) x y.
Proof.
  rewrite !elem_all_matches. intros (d & p & Hd & _ & _ & Ex)%match_at_inv (d' & p' & Hd' & _ & _ & Ey)%match_at_inv.
  destruct x as [k mx], y as [k' my]. simplify_eq/=. unfold by_key_le, worst_key, match_key, ole. cbn.
  destruct (Z.compare (- total_key p.1) (- total_key p'.1)); cbn; [|done|done]. intros Hk.
  assert (k ≤ k') as Hkk by (revert Hk; case (Z.compare_spec (Z.of_nat k) (Z.of_nat k')); intros; [lia|lia|done]).
  change (ole (doc_id d) (doc_id d')). destruct (decide (k = k')) as [->|Hne]; [simplify_eq; apply ole_refl|]. apply olt_le.
  unfold str_sorted in Hs. assert (ids L !! k = Some (doc_id d)) as E1 by (unfold ids; by rewrite list_lookup_fmap, Hd).
  assert (ids L !! k' = Some (doc_id d')) as E2 by (unfold ids; by rewrite list_lookup_fmap, Hd').
  clear -Hs E1 E2 Hkk Hne. revert k k' E1 E2 Hkk Hne. induction Hs as [|x l Hl IH Hx]; intros k k' E1 E2 Hkk Hne; [by rewrite lookup_nil in E1|].
  destruct k' as [|k']; [lia|]. destruct k as [|k]; cbn in E1, E2.
  - simplify_eq. rewrite Forall_forall in Hx. apply Hx. by eapply list_elem_of_lookup_2.
  - eapply IH; eauto; lia.
Qed.

Lemma all_match_keys : NoDup ((match_key ∘ snd) <$> all_matches).
Proof.
  apply NoDup_fmap_2_strong; [|apply all_matches_NoDup]. intros x y Hx Hy E. apply all_matches_key; [done..|].
  apply elem_all_matches, match_at_inv in Hx as (d & p & Hd & _ & _ & Ex). apply elem_all_matches, match_at_inv in Hy as (d' & p' & Hd' & _ & _ & Ey).
  rewrite Ex, Ey in E. cbn in E. injection E as _ E. apply str_sorted_NoDup in Hs.
  eapply NoDup_lookup; [exact Hs| |]; unfold ids; rewrite list_lookup_fmap; [rewrite Hd|rewrite Hd']; simpl; by rewrite ?E.
Qed.

Definition best : list TextSearchMatch := merge_sort (by_key_le match_key) all_matches.*2.

Lemma sort_matches (l : list (nat * TextSearchMatch)) : NoDup ((match_key ∘ snd) <$> l) →
  (merge_sort (by_key_le (match_key ∘ snd)) l).*2 = merge_sort (by_key_le match_key) l.*2.
Proof.
  intros Hnd. apply (sorted_by_key_unique match_key).
  - rewrite <-list_fmap_compose. by rewrite merge_sort_Permutation.
  - assert (StronglySorted (by_key_le (match_key ∘ snd)) (merge_sort (by_key_le (match_key ∘ snd)) l)) as Hsort
      by (apply StronglySorted_merge_sort; apply _).
    induction Hsort as [|x k Hk IH Hx]; [constructor|]. rewrite fmap_cons. constructor; [done|].
    rewrite Forall_fmap. eapply Forall_impl; [exact Hx|]. done.
  - apply StronglySorted_merge_sort; apply _.
  - by rewrite !merge_sort_Permutation.
Qed.

Lemma filter_omap_values {A C} (m : A → option (nat * C)) (keep : nat * C → bool) (l : list A) :
  (List.filter keep (omap m l)).*2 = omap (λ k, m k ≫= λ x, if keep x then Some x.2 else None) l.
Proof.
  induction l as [|k l IH]; [done|]. cbn [omap list_omap]. destruct (m k) as [x|]; cbn; [|done].
  destruct (keep x); [|done]. rewrite fmap_cons. by rewrite IH.
Qed.

Definition chosen (sel : gset nat) : list (nat * TextSearchMatch) := List.filter (λ x, bool_decide (x.1 ∈ sel)) all_matches.

Lemma build_chosen (docsf : nat → option TextDocument) : (∀ k, docsf k = L !! k) →
  build_top_matches_dense sn docsf spec =
    merge_sort (by_key_le match_key) (chosen (select_top_score_indices sn (max_matches_of spec))).*2.
Proof.
  intros Hdocs. unfold build_top_matches_dense, chosen, all_matches. set (sel := select_top_score_indices _ _). f_equal.
  rewrite (nat_btree_along sn (length L)) by done. rewrite omap_omap, filter_omap_values. apply omap_ext_in. intros k Hk%elem_of_seq.
  unfold match_at. destruct (lookup_lt_is_Some_2 L k) as [d Hd]; [lia|]. rewrite Hd. cbn [mbind option_bind].
  destruct (sn !! k) as [p|]; cbn; [|done]. rewrite Hdocs, Hd. cbn. destruct (f32_le p.1 f32_zero); cbn; [by rewrite orb_true_r|].
  rewrite orb_false_r. by destruct (bool_decide (k ∈ sel)).
Qed.

Lemma scored_candidates :
  omap (λ p, if f32_le p.2.1 f32_zero then None else Some (p.1, p.2.1)) (nat_btree_list sn) =
  (λ x, (x.1, tm_score x.2)) <$> all_matches.
Proof.
  rewrite (nat_btree_along sn (length L)) by done. unfold all_matches. rewrite omap_omap, fmap_omap_some. apply omap_ext_in.
  intros k Hk%elem_of_seq. unfold match_at. destruct (lookup_lt_is_Some_2 L k) as [d Hd]; [lia|]. rewrite Hd. cbn.
  destruct (sn !! k) as [p|]; cbn; [|done]. by destruct (f32_le p.1 f32_zero).
Qed.

Lemma chosen_best bound : 0 < bound →
  merge_sort (by_key_le match_key) (chosen (select_top_score_indices sn (Some bound))).*2 = take bound best.
Proof.
  intros Hb. cbn [select_top_score_indices]. rewrite scored_candidates, select_top_fmap.
  set (h := select_top (worst_key ∘ λ x, (x.1, tm_score x.2)) bound all_matches).
  destruct (select_best (worst_key ∘ λ x, (x.1, tm_score x.2)) bound all_matches Hb) as (rest & Hp & Hle & Hlen & Hfull). fold h in Hp, Hle, Hlen, Hfull.
  assert (∀ x, x ∈ h → x ∈ all_matches) as Hh by (intros x Hx; rewrite Hp; apply elem_of_app; by left).
  assert (∀ x, x ∈ rest → x ∈ all_matches) as Hrest by (intros x Hx; rewrite Hp; apply elem_of_app; by right).
  set (sel := list_to_set _ : gset nat).
  assert (chosen sel ≡ₚ h) as Hperm.
  { apply NoDup_Permutation.
    - apply NoDup_ListNoDup, List.NoDup_filter, NoDup_ListNoDup, all_matches_NoDup.
    - pose proof all_matches_NoDup as Hnd. rewrite Hp in Hnd. by apply NoDup_app in Hnd as [? _].
    - intros x. unfold chosen. rewrite list_elem_of_In, filter_In, <-list_elem_of_In, bool_decide_eq_true. unfold sel.
      rewrite elem_of_list_to_set, <-list_fmap_compose. split; [|intros Hx; split; [auto|by apply (list_elem_of_fmap_2 _ h x)]].
      intros [Hx (y & E & Hy)%list_elem_of_fmap]. cbn in E. by rewrite (all_matches_key x y Hx (Hh y Hy) E). }
  assert (NoDup ((match_key ∘ snd) <$> chosen sel)) as Hnd.
  { rewrite Hperm. pose proof all_match_keys as Hk. rewrite Hp, fmap_app in Hk. by apply NoDup_app in Hk as [? _]. }
  rewrite <-sort_matches by done. unfold best. rewrite <-sort_matches by apply all_match_keys. rewrite <-fmap_take. f_equal.
  apply (holds_best_sorted _ bound all_matches h); [apply all_match_keys|done|].
  exists rest. split_and!; [done| |done|done]. intros x y Hx Hy. apply match_order; auto.
Qed.

Lemma chosen_all : chosen (select_top_score_indices sn None) = all_matches.
Proof.
  apply filter_all. intros x (d & p & _ & Hp & _ & ->)%elem_all_matches%match_at_inv. apply bool_decide_eq_true, elem_of_dom. cbn. by eexists.
Qed.

(** What a page shows of the dense matches is what it shows of all of them, in order. *)
Lemma page_best (docsf : nat → option TextDocument) : ts_limit spec ≠ Some 0 → (∀ k, docsf k = L !! k) →
  paginate_matches (build_top_matches_dense sn docsf spec) spec = paginate_matches best spec.
Proof.
  intros Hlim Hdocs. rewrite build_chosen by done. unfold max_matches_of, paginate_matches. destruct (ts_limit spec) as [n|] eqn:El.
  - destruct (_ <? _)%Z.
    + rewrite chosen_best by (destruct n; [done|lia]). rewrite skipn_firstn_comm. rewrite take_take. f_equal. lia.
    + by rewrite chosen_all.
  - by rewrite chosen_all.
Qed.

(** The reference sorts the same matches. *)
Lemma reference_best ss docs : agree L sn ss → (∀ d, d ∈ L → d ∈ docs) → NoDup (ids docs) → reference_matches docs spec ss = best.
Proof.
  intros (_ & H2 & H3) Hsub Hids. unfold reference_matches, best. f_equal.
  rewrite (btree_list_along ss (ids L)) by done. unfold ids. rewrite omap_fmap_some, omap_omap || rewrite omap_omap, omap_fmap_some.
  rewrite omap_seq. unfold all_matches. rewrite fmap_omap_some. apply omap_ext_in. intros k Hk%elem_of_seq.
  unfold match_at. destruct (lookup_lt_is_Some_2 L k) as [d Hd]; [lia|]. rewrite Hd. cbn. rewrite (H3 k d Hd).
  destruct (ss !! doc_id d) as [p|]; cbn; [|done]. destruct (f32_le p.1 f32_zero); [done|]. rewrite by_id_lookup; [done|done|].
  apply Hsub. by eapply list_elem_of_lookup_2.
Qed.
End matches.

(** * The searches are the reference *)

Lemma limit_positive spec : validate_text_search_spec spec = Ok tt → ts_limit spec ≠ Some 0.
Proof. unfold validate_text_search_spec. intros E El. rewrite bool_decide_eq_true_2 in E; done. Qed.

(** Any dense scorer that counts as the reference does shows the page the reference shows. *)
Lemma dense_is_reference docs L spec q n total dff occ (docsf : nat → option TextDocument) :
  let s := foldl (document_stat config q) (mkStats [] ∅ 0) docs in
  str_sorted (ids docs) → str_sorted (ids L) → (∀ d, d ∈ L → d ∈ docs) →
  (∀ t, occurrences doc_id L t = occurrences doc_id docs t) → ts_limit spec ≠ Some 0 → total = all_terms config docs →
  (∀ t, t ∈ q → dff t = df config docs t ∧ occ t = occurrences (pos L) L t) → (∀ k, docsf k = L !! k) →
  paginate_matches (build_top_matches_dense (score_terms config spec n total dff occ q) docsf spec) spec =
  paginate_matches (reference_matches docs spec
    (score_terms config spec n (st_total s) (λ t, default 0 (st_doc_freq s !! t)) (stat_occurrences s) q)) spec.
Proof.
  intros s Hs HL Hsub Hocc Hlim -> Hq Hdocsf. destruct (stats_fold config q docs) as (_ & S2 & S3). fold s in S2, S3. rewrite S2.
  set (sn := score_terms config spec n _ dff occ q). set (ss := score_terms config spec n _ _ (stat_occurrences s) q).
  assert (agree L sn ss) as Ha.
  { apply score_terms_agree; [done|]. intros t Ht. destruct (Hq t Ht) as [E1 E2]. split_and!; [|done|].
    - rewrite E1. symmetry. by apply S3.
    - rewrite Hocc. by apply stats_occurrences. }
  rewrite (page_best L HL spec sn) by (done || apply Ha). f_equal. symmetry. apply reference_best with (ss := ss); auto using str_sorted_NoDup; apply Ha.
Qed.

Lemma fields_NoDup d : NoDup (tf_name <$> tc_fields config) → NoDup (field_list d).
Proof.
  unfold TextRank.field_list, indexed_field_names, indexed_field_names_for_fields. intros Hnd.
  destruct (tc_fields config) as [|x fs]; [apply btree_keys_NoDup|]. revert Hnd. generalize (x :: fs). clear.
  induction l as [|x l IH]; intros Hnd; [constructor|]. rewrite fmap_cons in Hnd. apply NoDup_cons in Hnd as [Hx Hnd]. cbn [List.filter].
  destruct (_ && _); [|by apply IH]. rewrite fmap_cons. constructor; [|by apply IH]. intros Hin. apply Hx.
  apply list_elem_of_fmap in Hin as (y & -> & Hy). apply list_elem_of_In, filter_In in Hy as [Hy _]. apply list_elem_of_fmap_2. by apply list_elem_of_In.
Qed.

Definition keyed (D : gmap string TextDocument) : Prop := ∀ id d, D !! id = Some d → doc_id d = id.

Lemma keyed_ids D : keyed D → ids (btree_list D).*2 = btree_keys D.
Proof.
  intros HD. unfold ids, btree_keys. rewrite <-list_fmap_compose. apply fmap_ext_in. intros [k d] Hk. apply elem_of_btree_list in Hk. by apply HD.
Qed.

Lemma size_keys {V} (m : gmap string V) : size m = length (btree_keys m).
Proof. unfold btree_keys. by rewrite length_fmap, btree_list_perm, length_map_to_list. Qed.

Definition the_page (D : gmap string TextDocument) query spec : TextSearchSourceSummary → bool → nat → bool → TextScoreScope → TextResult :=
  λ source stale candidates truncated scope,
    let r := reference_one_shot_matches (btree_list D).*2 config query spec in
    mkTextResult source query r.1 stale candidates r.2 truncated scope.

Lemma collection_page D source_hash c collection query spec :
  from_documents config D source_hash = Ok c → NoDup (tf_name <$> tc_fields config) → keyed D →
  (∀ id d, D !! id = Some d → (Z.of_nat (dlen d) < 2 ^ 24)%Z) → validate_text_search_spec spec = Ok tt →
  search_text_collection collection c query spec = Ok (the_page D query spec (SumCollection collection) false (size D) false ScopeCollection).
Proof.
  intros Hc Hnd HD Hlen Hspec. unfold from_documents, rebuild_text_index in Hc. cbn [tcc_config documents] in Hc.
  destruct (validate_text_collection_config config) as [u|e]; [|done]. cbn in Hc. apply ok_inj in Hc. subst c.
  unfold search_text_collection. rewrite Hspec. cbn [mbind result_bind]. set (docs := (btree_list D).*2).
  cbn [tcc_config documents tcc_state tcc_dirty index]. rewrite bool_decide_eq_true_2 by done. cbn [negb orb].
  assert (str_sorted (ids docs)) as Hs by (unfold docs; rewrite keyed_ids by done; apply keys_sorted).
  assert (∀ d, d ∈ docs → NoDup (field_list d)) as Hfs by (intros; by apply fields_NoDup).
  set (i := build_text_index config docs). assert (dense_doc_ids i = ids (searched docs)) as Hids by (by apply dense_ids).
  assert (size (doc_lengths i) = length (searched docs)) as Hsize.
  { rewrite size_keys. change (btree_keys (doc_lengths i)) with (dense_doc_ids i). rewrite Hids. unfold ids. by rewrite length_fmap. }
  unfold the_page, reference_one_shot_matches. fold docs. set (q := term_set _).
  destruct (stats_fold config q docs) as (S1 & _). set (s := foldl (document_stat config q) _ docs) in *.
  assert (length (document_stats s) = length (searched docs)) as Hcount by (rewrite S1; by rewrite length_fmap).
  rewrite Hcount, Hsize. unfold score_index. cbn [index tcc_config documents]. rewrite Hids.
  destruct (Nat.eqb_spec (length (searched docs)) 0) as [E0|E0].
  { apply length_zero_iff_nil in E0. rewrite E0, (bool_decide_eq_true_2 (ids [] = [])) by done. rewrite orb_true_r.
    unfold paginate_matches. rewrite drop_nil. by destruct (ts_limit spec); rewrite ?take_nil. }
  rewrite (bool_decide_eq_false_2 (ids _ = [])) by (intros E; apply E0; apply (f_equal length) in E; unfold ids in E; by rewrite length_fmap in E).
  rewrite orb_false_r. unfold ids at 1. rewrite length_fmap. cbn [fst snd]. do 2 f_equal.
  case_bool_decide as Et.
  { assert (q = []) as Eq by (unfold q; by rewrite Et). clearbody s. f_equal. by rewrite Eq. }
  destruct (indexed_spec config docs (str_sorted_NoDup _ Hs) Hfs) as (_ & _ & Htotal & Hdf).
  apply dense_is_reference with (L := searched docs).
  - done.
  - by apply searched_sorted.
  - intros d Hd. by apply elem_searched in Hd as [? _].
  - intros t. apply searched_occurrences.
  - by apply limit_positive.
  - exact Htotal.
  - intros t Ht. split; [apply Hdf|]. unfold i. rewrite searched_occurrences. apply index_occurrences_spec; [done|done|].
    intros d Hd. apply list_elem_of_fmap in Hd as ([k d'] & -> & Hk). apply elem_of_btree_list in Hk. by eapply Hlen.
  - intros k. unfold ids. rewrite list_lookup_fmap. destruct (searched docs !! k) as [d|] eqn:Ek; [|done]. cbn.
    apply list_elem_of_lookup_2, elem_searched in Ek as [Hd _]. apply list_elem_of_fmap in Hd as ([k' d'] & -> & Hk).
    apply elem_of_btree_list in Hk. cbn. by rewrite (HD _ _ Hk).
Qed.

(** * Candidates, scored without an index *)

Lemma concat_imap {A C} (h : nat → A → list C) (g : A → list C) (l : list A) :
  (∀ k x, l !! k = Some x → h k x = g x) → concat (imap h l) = l ≫= g.
Proof.
  intros Hl. rewrite (imap_ext h (λ _, g)) by done. clear. induction l as [|x l IH]; [done|]. rewrite imap_cons. cbn [concat]. rewrite bind_cons.
  f_equal. exact IH.
Qed.

Lemma fmap_concat_imap {A C E} (g : C → E) (h : nat → A → list C) (l : list A) :
  g <$> concat (imap h l) = concat (imap (λ k x, g <$> h k x) l).
Proof. revert h. induction l as [|x l IH]; intros h; [done|]. rewrite !imap_cons. cbn [concat]. rewrite fmap_app. f_equal. apply IH. Qed.

Section candidates.
Context (q FN : list string).

Lemma push_postings k j l ps t :
  default [] (foldl (push_posting k j) ps l !! t) =
  default [] (ps !! t) ++ (l ≫= λ p, if decide (p.1 = t) then [mkPosting k j p.2] else []).
Proof.
  revert ps. induction l as [|[t' n] l IH]; intros ps; [by rewrite app_nil_r|]. cbn [foldl]. rewrite IH, bind_cons. cbn [fst snd]. unfold push_posting.
  cbn [fst snd]. case_decide as E.
  - subst t'. rewrite lookup_insert_eq. simpl. by rewrite <-app_assoc.
  - by rewrite lookup_insert_ne.
Qed.

(** The postings of a term in a document, by position. *)
Definition postings_at (t : string) (k : nat) d (fs : list string) : list DensePosting :=
  omap (λ f, if count t (toks d f) =? 0 then None else j ← position_of FN f; Some (mkPosting k j (count t (toks d f)))) fs.

Lemma push_frequencies k j ps l t : t ∈ q →
  default [] (foldl (push_posting k j) ps (btree_list (frequencies q l)) !! t) =
  default [] (ps !! t) ++ if count t l =? 0 then [] else [mkPosting k j (count t l)].
Proof.
  intros Ht. rewrite push_postings. f_equal. rewrite (btree_bind_along _ [t]).
  - rewrite bind_cons, frequencies_lookup, bool_decide_eq_true_2 by done. cbn [andb fst snd]. destruct (count t l =? 0); cbn; [done|]. by rewrite decide_True.
  - repeat constructor.
  - intros k' v _ Hk. cbn [fst]. rewrite decide_False; [done|]. intros ->. apply Hk. left.
Qed.

Lemma one_shot_fields d k fs n (T : gset string) ps :
  (∀ f, is_Some (doc_fields d !! f) → f ∈ FN) →
  let r := foldl (one_shot_field config q FN k (doc_fields d)) (n, T, ps) fs in
  r.1.1 = n + terms_in config d fs ∧
  (∀ t, t ∈ r.1.2 ↔ t ∈ T ∨ t ∈ q ∧ ∃ f, f ∈ fs ∧ t ∈ toks d f) ∧
  (∀ t, t ∈ q → default [] (r.2 !! t) = default [] (ps !! t) ++ postings_at t k d fs).
Proof.
  intros HFN. revert n T ps. induction fs as [|f fs IH]; intros n T ps; cbn [foldl].
  { unfold terms_in. simpl. split_and!; [lia|intros t; split; [by left|intros [|(_ & f & ?%not_elem_of_nil & _)]; done]|].
    intros t _. by rewrite app_nil_r. }
  unfold postings_at. cbn [omap list_omap]. unfold terms_in. rewrite fmap_cons. cbn [sum_list foldr].
  fold (terms_in config d fs). change (foldr Nat.add 0 ((λ f, length (toks d f)) <$> fs)) with (terms_in config d fs).
  setoid_rewrite elem_of_cons. destruct (doc_fields d !! f) as [text|] eqn:Ef.
  - assert (toks d f = analyze_text (analyzer config) text) as Et by (unfold TextRank.toks; by rewrite Ef).
    destruct (position_of_elem FN f) as [j Hj]; [apply HFN; rewrite Ef; by eexists|].
    assert (one_shot_field config q FN k (doc_fields d) (n, T, ps) f =
      (n + length (toks d f), T ∪ list_to_set (btree_keys (frequencies q (toks d f))),
       foldl (push_posting k j) ps (btree_list (frequencies q (toks d f))))) as ->.
    { unfold one_shot_field. by rewrite Ef, Hj, <-Et. }
    edestruct (IH (n + length (toks d f))) as (H1 & H2 & H3). split_and!.
    + rewrite H1. unfold sum_list. cbn. lia.
    + intros t. rewrite H2, elem_of_union, elem_of_list_to_set.
      rewrite elem_of_btree_keys, frequencies_lookup. pose proof (count_pos t (toks d f)) as Hc.
      assert (is_Some (if bool_decide (t ∈ q) && negb (count t (toks d f) =? 0) then Some (count t (toks d f)) else None) ↔ t ∈ q ∧ t ∈ toks d f) as ->.
      { rewrite <-Hc. case_bool_decide; destruct (Nat.eqb_spec (count t (toks d f)) 0); cbn; split; try (by intros [? ?]); try naive_solver lia. }
      naive_solver.
    + intros t Ht. rewrite H3, push_frequencies, Hj by done. destruct (count t (toks d f) =? 0); cbn [mbind option_bind].
      * by rewrite app_nil_r.
      * by rewrite <-app_assoc.
  - assert (toks d f = []) as Et by (unfold TextRank.toks; by rewrite Ef). rewrite Et.
    assert (one_shot_field config q FN k (doc_fields d) (n, T, ps) f = (n, T, ps)) as -> by (unfold one_shot_field; by rewrite Ef).
    destruct (IH n T ps) as (H1 & H2 & H3). split_and!; [exact H1| |exact H3].
    intros t. rewrite H2. split; [naive_solver|]. intros [?|(? & g & [->|?] & Hg)]; [by left| |naive_solver]. rewrite Et in Hg. by apply not_elem_of_nil in Hg.
Qed.

Definition one_shot (cs : list TextCandidate) : OneShot := foldl (one_shot_document config q FN) (mkOneShot [] ∅ ∅ 0 0) cs.

Definition of_candidates (cs : list TextCandidate) : list TextDocument := document_of <$> cs.

Lemma one_shot_spec cs : (∀ c f, c ∈ cs → is_Some (tcand_fields c !! f) → f ∈ FN) →
  let docs := of_candidates cs in
  document_lengths (one_shot cs) = dlen <$> docs ∧ os_total_terms (one_shot cs) = all_terms config docs ∧
  os_searched_count (one_shot cs) = length (searched docs) ∧
  (∀ t, t ∈ q → default 0 (os_doc_freq (one_shot cs) !! t) = df config docs t) ∧
  (∀ t, t ∈ q → default [] (os_postings (one_shot cs) !! t) = concat (imap (λ k d, postings_at t k d (field_list d)) docs)).
Proof.
  induction cs as [|c cs IH] using rev_ind; intros HFN; [done|].
  destruct IH as (I1 & I2 & I3 & I4 & I5); [intros c' f Hc'; apply HFN; set_solver|].
  unfold one_shot. rewrite foldl_app. cbn [foldl]. fold (one_shot cs). unfold of_candidates. rewrite fmap_app. fold (of_candidates cs).
  set (docs := of_candidates cs) in *. cbn [fmap list_fmap]. set (d := document_of c).
  unfold one_shot_document. change (indexed_field_names_for_fields config (tcand_fields c)) with (field_list d). change (tcand_fields c) with (doc_fields d).
  rewrite I1, length_fmap. destruct (one_shot_fields d (length docs) (field_list d) 0 ∅ (os_postings (one_shot cs))) as (F1 & F2 & F3).
  { intros f Hf. apply (HFN c); [set_solver|done]. }
  destruct (foldl _ _ (field_list d)) as [[n T] ps]. cbn [fst snd] in F1, F2, F3. rewrite Nat.add_0_l in F1. subst n. fold (dlen d).
  assert (∀ t, t ∈ q → default [] (ps !! t) = concat (imap (λ k d, postings_at t k d (field_list d)) (docs ++ [d]))) as Hps.
  { intros t Ht. rewrite F3, I5 by done. rewrite imap_app, concat_app. f_equal. cbn. by rewrite app_nil_r, Nat.add_0_r. }
  assert (∀ t, t ∈ q → bool_decide (t ∈ T) = holds config d t) as HT.
  { intros t Ht. apply eq_true_iff_eq. rewrite bool_decide_eq_true, F2, holds_spec. set_solver. }
  setoid_rewrite (df_snoc config docs d). rewrite searched_snoc, all_terms_snoc. change (list_fmap _ _ dlen docs) with (dlen <$> docs). rewrite fmap_app.
  destruct (Nat.eqb_spec (dlen d) 0) as [E|E].
  - cbn. split_and!; [done|lia|by rewrite app_nil_r| |done].
    intros t Ht. rewrite I4, (holds_nothing config d t E) by done. lia.
  - cbn. rewrite length_app. cbn. split_and!; [done|lia|lia| |done].
    intros t Ht. rewrite bump_set, I4, HT by done. done.
Qed.

Lemma one_shot_occurrences_spec cs t : (∀ c f, c ∈ cs → is_Some (tcand_fields c !! f) → f ∈ FN) → t ∈ q →
  NoDup (ids (of_candidates cs)) → (∀ c, c ∈ cs → str_sorted (field_list (document_of c))) →
  one_shot_occurrences FN (one_shot cs) t = occurrences (pos (of_candidates cs)) (of_candidates cs) t.
Proof.
  intros HFN Ht Hnd Hsort. destruct (one_shot_spec cs HFN) as (I1 & _ & _ & _ & I5). unfold one_shot_occurrences. rewrite (I5 t Ht), I1.
  set (docs := of_candidates cs) in *.
  rewrite fmap_concat_imap. apply concat_imap. intros k d Hk.
  assert (∃ c, c ∈ cs ∧ d = document_of c) as (c & Hc & ->).
  { apply list_elem_of_lookup_2, list_elem_of_fmap in Hk as (c & -> & Hc). eauto. }
  unfold doc_occurrences, postings_at. assert (sorted_fields (document_of c) = field_list (document_of c)) as ->.
  { apply str_sorted_unique; [apply elems_sorted|by apply Hsort|]. apply elem_of_sorted_fields. }
  rewrite fmap_omap_some. apply omap_ext_in. intros f Hf. destruct (Nat.eqb_spec (count t (toks (document_of c) f)) 0) as [|Hne]; [done|].
  destruct (position_of_elem FN f) as [j Hj].
  { apply (HFN c f Hc). unfold TextRank.toks in Hne. cbn in Hne. destruct (tcand_fields c !! f); [by eexists|done]. }
  rewrite Hj. cbn [fmap option_fmap option_map mbind option_bind doc_index field_index term_frequency].
  rewrite (nth_at FN j f) by (by apply position_of_lookup). rewrite (nth_at _ k (dlen (document_of c))) by (by rewrite list_lookup_fmap, Hk).
  by rewrite (pos_at docs k).
Qed.
End candidates.

Lemma one_shot_page cs spec query :
  str_sorted (ids (of_candidates cs)) → (∀ c, c ∈ cs → str_sorted (field_list (document_of c))) → ts_limit spec ≠ Some 0 →
  let r := score_one_shot_candidates cs config (analyze_text (analyzer config) query) spec in
  (paginate_matches r.1 spec, r.2) = reference_one_shot_matches (of_candidates cs) config query spec.
Proof.
  intros Hs Hsort Hlim. unfold score_one_shot_candidates, reference_one_shot_matches. set (q := term_set _).
  set (FN := btree_elems _). fold (one_shot q FN cs). set (docs := of_candidates cs) in *.
  assert (∀ c f, c ∈ cs → is_Some (tcand_fields c !! f) → f ∈ FN) as HFN.
  { intros c f Hc Hf. apply elem_of_btree_elems, elem_of_list_to_set, list_elem_of_bind. exists c. split; [by apply elem_of_btree_keys|done]. }
  destruct (one_shot_spec q FN cs HFN) as (_ & I2 & I3 & I4 & _). fold docs in I2, I3, I4.
  destruct (stats_fold config q docs) as (S1 & _). set (s := foldl (document_stat config q) _ docs) in *.
  assert (length (document_stats s) = length (searched docs)) as -> by (rewrite S1; by rewrite length_fmap).
  rewrite I3. destruct (Nat.eqb_spec (length (searched docs)) 0) as [E0|E0].
  { cbn [fst snd]. f_equal. unfold paginate_matches. rewrite drop_nil. by destruct (ts_limit spec); rewrite ?take_nil. }
  cbn [fst snd]. f_equal. apply dense_is_reference with (L := docs); try done.
  - intros t Ht. split; [by apply I4|]. apply one_shot_occurrences_spec; auto. by apply str_sorted_NoDup.
  - intros k. unfold docs, of_candidates. by rewrite list_lookup_fmap.
Qed.
End search.

(** * Distinct candidates *)

Lemma docs_unique (l k : list TextDocument) : str_sorted (ids l) → str_sorted (ids k) → (∀ d, d ∈ l ↔ d ∈ k) → l = k.
Proof.
  assert (∀ l, str_sorted (ids l) → StronglySorted (by_key_le doc_id) l) as Hle.
  { clear. unfold str_sorted, ids. induction l as [|d l IH]; intros Hs; [constructor|]. rewrite fmap_cons in Hs. apply StronglySorted_inv in Hs as [Hs Hd].
    constructor; [by apply IH|]. rewrite Forall_fmap in Hd. eapply Forall_impl; [exact Hd|]. intros d' Hd'. by apply olt_le. }
  intros Hl Hk Heq. apply (sorted_by_key_unique doc_id); [by apply str_sorted_NoDup|by apply Hle..|].
  apply NoDup_Permutation; [eapply NoDup_fmap_1, str_sorted_NoDup, Hl|eapply NoDup_fmap_1, str_sorted_NoDup, Hk|done].
Qed.

Definition by_id (cs : list TextCandidate) : gmap string TextDocument := foldl (λ m c, <[tcand_id c := document_of c]> m) ∅ cs.

Lemma document_of_inj c c' : document_of c = document_of c' → c = c'.
Proof. destruct c, c'. unfold document_of. simpl. congruence. Qed.

Lemma keep_candidate_spec kept c : NoDup (tcand_id <$> kept) →
  NoDup (tcand_id <$> keep_candidate kept c) ∧
  (∀ x, x ∈ keep_candidate kept c ↔ x = c ∨ x ∈ kept ∧ tcand_id x ≠ tcand_id c).
Proof.
  intros Hnd. unfold keep_candidate. destruct (list_find (λ x, tcand_id x = tcand_id c) kept) as [[i y]|] eqn:E.
  - apply list_find_Some in E as (Hi & Hy & _). split.
    + rewrite list_fmap_insert, list_insert_id; [done|]. rewrite list_lookup_fmap, Hi. cbn. by rewrite Hy.
    + intros x. split.
      * intros (j & Hj)%list_elem_of_lookup. destruct (decide (i = j)) as [->|Hne].
        -- rewrite list_lookup_insert_eq in Hj by (by eapply lookup_lt_Some). injection Hj as <-. by left.
        -- rewrite list_lookup_insert_ne in Hj by done. right. split; [by eapply list_elem_of_lookup_2|]. intros Ex. apply Hne.
           apply (NoDup_lookup _ i j (tcand_id c) Hnd); rewrite list_lookup_fmap; [rewrite Hi|rewrite Hj]; cbn; congruence.
      * intros [->|[Hx Hne]]; [apply list_elem_of_lookup; exists i; apply list_lookup_insert_eq; by eapply lookup_lt_Some|].
        apply list_elem_of_lookup in Hx as [j Hj]. apply list_elem_of_lookup. exists j. rewrite list_lookup_insert_ne; [done|].
        intros ->. rewrite Hj in Hi. by simplify_eq.
  - apply list_find_None in E. rewrite Forall_forall in E. rewrite fmap_app. split.
    + apply NoDup_app. split_and!; [done| |apply NoDup_singleton]. intros k Hk ->%list_elem_of_singleton.
      apply list_elem_of_fmap in Hk as (x & Ex & Hx). by apply (E x Hx).
    + intros x. rewrite elem_of_app, list_elem_of_singleton. specialize (E x). naive_solver.
Qed.

Lemma kept_spec cs : let kept := foldl keep_candidate [] cs in
  NoDup (tcand_id <$> kept) ∧ ∀ c, c ∈ kept ↔ by_id cs !! tcand_id c = Some (document_of c).
Proof.
  induction cs as [|c cs [Hnd Hin]] using rev_ind.
  { split; [constructor|]. intros c. unfold by_id. cbn. rewrite lookup_empty. split; [by intros ?%not_elem_of_nil|done]. }
  unfold by_id. rewrite !foldl_app. cbn [foldl]. fold (by_id cs). destruct (keep_candidate_spec _ c Hnd) as [H1 H2]. split; [done|].
  intros x. rewrite H2, Hin. destruct (decide (tcand_id x = tcand_id c)) as [E|E].
  - rewrite E, lookup_insert_eq. split; [by intros [->|[_ ?]]|]. intros Ex%(inj Some). left. symmetry. by apply document_of_inj.
  - rewrite lookup_insert_ne by done. split; [by intros [->|[? _]]|by right].
Qed.

Lemma by_id_keyed cs : keyed (by_id cs).
Proof.
  induction cs as [|c cs IH] using rev_ind; intros id d; unfold by_id; [cbn; by rewrite lookup_empty|]. rewrite foldl_app. cbn [foldl]. fold (by_id cs).
  destruct (decide (id = tcand_id c)) as [->|Hne]; [rewrite lookup_insert_eq; by intros [= <-]|]. rewrite lookup_insert_ne by done. apply IH.
Qed.

Definition limited (spec : TextSearchSpec) (cs : list TextCandidate) : list TextCandidate :=
  match candidate_limit spec with Some n => take n cs | None => cs end.

Lemma distinct_documents spec cs : of_candidates (distinct_candidates spec cs) = (btree_list (by_id (limited spec cs))).*2.
Proof.
  unfold distinct_candidates. fold (limited spec cs). set (l := limited spec cs). destruct (kept_spec l) as [Hnd Hin].
  assert (ids (of_candidates (merge_sort candidate_le (foldl keep_candidate [] l))) = tcand_id <$> merge_sort candidate_le (foldl keep_candidate [] l)) as Hids.
  { unfold ids, of_candidates. by rewrite <-list_fmap_compose. }
  apply docs_unique.
  - rewrite Hids. assert (NoDup (tcand_id <$> merge_sort candidate_le (foldl keep_candidate [] l))) as Hn by (by rewrite merge_sort_Permutation).
    assert (StronglySorted candidate_le (merge_sort candidate_le (foldl keep_candidate [] l))) as Hsort.
    { apply StronglySorted_merge_sort; unfold candidate_le; [intros x y z; apply (transitivity (R := String.le))|intros x y; apply (total String.le)]. }
    clear -Hn Hsort. induction Hsort as [|x k Hk IH Hx]; [constructor|]. rewrite fmap_cons in *. apply NoDup_cons in Hn as [Hx' Hn].
    constructor; [by apply IH|]. rewrite (Forall_forall (candidate_le x)) in Hx. apply Forall_forall. intros i Hi. apply list_elem_of_fmap in Hi as (y & -> & Hy).
    specialize (Hx y Hy). unfold candidate_le in Hx. apply string_le_ole, ole_iff in Hx as [|E]; [done|]. destruct Hx'. rewrite E. by apply list_elem_of_fmap_2.
  - rewrite keyed_ids by apply by_id_keyed. apply keys_sorted.
  - intros d. unfold of_candidates. rewrite !list_elem_of_fmap. split.
    + intros (c & -> & Hc). rewrite merge_sort_Permutation in Hc. apply Hin in Hc. exists (tcand_id c, document_of c). split; [done|].
      by apply elem_of_btree_list.
    + intros ([k d'] & -> & Hk). apply elem_of_btree_list in Hk. cbn. pose proof (by_id_keyed l k d' Hk) as Ek.
      exists (mkTextCandidate (doc_id d') (doc_fields d') (doc_metadata d')). split; [by destruct d'|]. rewrite merge_sort_Permutation. apply Hin. cbn.
      subst k. rewrite Hk. f_equal. by destruct d'.
Qed.

(** The fields of a candidate, under the configuration made for the candidates, are in order. *)
Lemma made_fields (fields : gmap string string) (l : list string) :
  tf_name <$> List.filter (λ f, tf_indexed f && bool_decide (is_Some (fields !! tf_name f))) ((λ name, mkTextField name f32_one true true) <$> l) =
  List.filter (λ n, bool_decide (is_Some (fields !! n))) l.
Proof.
  induction l as [|n l IH]; [done|]. rewrite fmap_cons. cbn [List.filter tf_indexed tf_name andb]. case_bool_decide; [|done].
  rewrite fmap_cons. by rewrite IH.
Qed.

Lemma candidate_fields_sorted (cs : list TextCandidate) d : str_sorted (field_list (fields_for_candidate_documents cs) d).
Proof.
  unfold field_list, indexed_field_names, indexed_field_names_for_fields. cbn [tc_fields fields_for_candidate_documents].
  pose proof (elems_sorted (list_to_set (cs ≫= λ c, btree_keys (tcand_fields c)))) as Hs.
  destruct (btree_elems (list_to_set (cs ≫= λ c, btree_keys (tcand_fields c)))) as [|x names]; [apply keys_sorted|].
  pose proof (made_fields (doc_fields d) (x :: names)) as E. rewrite fmap_cons in *. rewrite E. by apply filter_str_sorted.
Qed.

(** * The theorems *)

(** C16: a search of a collection gives exactly what the reference of the tests gives when
it scans the same documents: the same matches with the same scores, hits, order and page,
and the same count of documents searched.  The collection is one built from documents kept
under their ids, its fields have distinct names, and no document has 2^24 terms. *)
Theorem collection_search_reference `{Unicode, Platform} config D source_hash c collection query spec :
  from_documents config D source_hash = Ok c → NoDup (tf_name <$> tc_fields config) → keyed D →
  (∀ id d, D !! id = Some d → (Z.of_nat (dlen config d) < 2 ^ 24)%Z) →
  search_text_collection collection c query spec =
    (_ ← validate_text_search_spec spec;
     let r := reference_one_shot_matches (btree_list D).*2 config query spec in
     Ok (mkTextResult (SumCollection collection) query r.1 false (size D) r.2 false ScopeCollection)).
Proof.
  intros Hc Hnd HD Hlen. destruct (validate_text_search_spec spec) as [[]|e] eqn:E.
  - by apply (collection_page config D source_hash c).
  - unfold search_text_collection. by rewrite E.
Qed.

(** C17: a search over candidates, which keeps the last candidate of an id and scores
postings by position without building an index, gives exactly what the reference gives on
the documents by id. *)
Theorem candidate_search_reference `{Unicode, Platform} source query spec cs truncated scope :
  search_text_candidates source query spec cs truncated scope =
    (_ ← validate_text_search_spec spec;
     let r := reference_candidate_matches cs (fields_for_candidate_documents (distinct_candidates spec cs)) query spec in
     Ok (mkTextResult source query r.1 false (length cs) r.2
           (truncated || match candidate_limit spec with Some n => n <? length cs | None => false end) scope)).
Proof.
  unfold search_text_candidates. destruct (validate_text_search_spec spec) as [[]|e] eqn:E; [|done]. cbn [mbind result_bind].
  unfold reference_candidate_matches. fold (limited spec cs). change (foldl _ ∅ (limited spec cs)) with (by_id (limited spec cs)).
  rewrite <-distinct_documents. set (config := fields_for_candidate_documents _).
  rewrite <-(one_shot_page config (distinct_candidates spec cs) spec query).
  - done.
  - rewrite distinct_documents, keyed_ids by apply by_id_keyed. apply keys_sorted.
  - intros c _. apply candidate_fields_sorted.
  - by apply limit_positive.
Qed.

(** * A small library *)

Module Library.
Definition ascii_lower (c : Ascii.ascii) : Ascii.ascii :=
  let n := Ascii.N_of_ascii c in if ((65 <=? n) && (n <=? 90))%N then Ascii.ascii_of_N (n + 32) else c.

Fixpoint lower (s : string) : string :=
  match s with EmptyString => EmptyString | String c s => String (ascii_lower c) (lower s) end.

Definition is_word (s : string) : bool :=
  match s with String c EmptyString => let n := Ascii.N_of_ascii (ascii_lower c) in ((97 <=? n) && (n <=? 122))%N | _ => false end.

#[local] Instance words : Unicode := {| to_lowercase := lower; is_alphanumeric := is_word |}.
#[local] Instance numbers : Platform := {| default_nan := 2143289344; f32_ln := λ x, x |}.

Definition config : TextCollectionConfig :=
  mkTextConfig [mkTextField "title" f32_one true true; mkTextField "body" f32_one true true] analyzer_default default_k1 default_b ∅.
Definition page (title body : string) (id : string) : TextDocument := mkDocument id (<["title" := title]> {["body" := body]}) ∅.
Definition fox : TextDocument := page "The fox" "a fox runs" "p1".
Definition hen : TextDocument := page "The hen" "a hen hides from the fox" "p2".
Definition books : gmap string TextDocument := <["p1" := fox]> {["p2" := hen]}.
Definition shelf : TextCollectionCache := mkTextCache config books 0 TReady false "h" (build_text_index config (btree_list books).*2).
Definition first_page : TextSearchSpec := mkTextSpec (Some 1) None None false false false true SAllow None RejectPaginatedQuery.

Lemma collection_search_reference_witness :
  from_documents config books "h" = Ok shelf ∧
  search_text_collection "books" shelf "Fox" first_page =
    (_ ← validate_text_search_spec first_page;
     let r := reference_one_shot_matches (btree_list books).*2 config "Fox" first_page in
     Ok (mkTextResult (SumCollection "books") "Fox" r.1 false (size books) r.2 false ScopeCollection)).
Proof.
  split; [reflexivity|]. apply (collection_search_reference config books "h" shelf "books" "Fox" first_page).
  - reflexivity.
  - apply (bool_decide_unpack _). vm_compute. exact I.
  - intros id d. unfold books. rewrite lookup_insert_Some, lookup_singleton_Some. intros [[<- <-]|[_ [<- <-]]]; reflexivity.
  - intros id d. unfold books. rewrite lookup_insert_Some, lookup_singleton_Some. intros [[<- <-]|[_ [<- <-]]]; vm_compute; reflexivity.
Defined.

(** The page that mentions foxes more often, in fewer words, comes first. *)
Lemma fox_first : match search_text_collection "books" shelf "Fox" first_page with
  | Ok r => tm_id <$> tr_matches r = ["p1"] ∧ searched_count r = 2 | Err _ => False end.
Proof. vm_compute. done. Qed.

(** A configuration that lists a field twice is accepted, and its terms count twice. *)
Definition doubled : TextCollectionConfig :=
  mkTextConfig [mkTextField "title" f32_one true true; mkTextField "title" f32_one true true] analyzer_default default_k1 default_b ∅.

Lemma doubled_field_counts_twice :
  validate_text_collection_config doubled = Ok tt ∧
  posting (postings (build_text_index doubled [fox])) "fox" "p1" "title" = Some 2 ∧ length (toks doubled fox "title") = 2 ∧
  doc_lengths (build_text_index doubled [fox]) !! "p1" = Some 4.
Proof. by vm_compute. Qed.
End Library.
