(* ===== verification/TextStore.v ===== *)
(** Text collections as records ([src/src/text_search.rs], and the text calls of
[src/src/db.rs]): configurations and documents in records, the cache that is assembled
from them, and the files a cache is written to and restored from. *)
From stdpp Require Import base gmap sets list strings sorting.
From Stdlib Require Import ZArith Lia.
From S2P Require Import Prelude Clock Value F32 TopK Records Keys Paths Segment Inner Query Tx Protocol Change Relay Vector Text.

Definition text_collection_config_key (collection : string) : string :=
  TEXT_RECORD_PREFIX +:+ "/" +:+ encode_component collection +:+ "/config".

Definition text_document_id_from_record_key (collection key : string) : option string :=
  suffix ← strip_prefix (text_collection_docs_prefix collection) key;
  encoded ← head (split_on "/"%char suffix);
  match decode_component encoded with Ok c => Some c | Err _ => None end.

(** Serialization by [serde_json], and the hash of a configuration's text. *)
Class TextWireFormat := {
  text_config_to_value : TextCollectionConfig → result json;
  text_config_from_value : json → result TextCollectionConfig;
  document_to_value : TextDocument → result json;
  document_from_value : json → result TextDocument;
  text_config_to_vec : TextCollectionConfig → result (list Z);
  text_config_from_slice : list Z → result TextCollectionConfig;
  documents_to_vec : gmap string TextDocument → result (list Z);
  documents_from_slice : list Z → result (gmap string TextDocument);
  terms_to_vec : gmap string nat → result (list Z);
  terms_from_slice : list Z → result (gmap string nat);
  postings_to_vec : gmap string (gmap string (gmap string nat)) → result (list Z);
  postings_from_slice : list Z → result (gmap string (gmap string (gmap string nat)));
  stable_json_hash : TextCollectionConfig → result string
}.

(** * Records read *)

Section store.
Context `{TextWireFormat, Unicode}.

Definition text_collection_config_from_record (e : RecordEntry) : result TextCollectionConfig :=
  match entry_value e with
  | RJson v =>
      config ← text_config_from_value v;
      _ ← validate_text_collection_config config;
      Ok config
  | _ => Err (Message ("text collection config record `" +:+ entry_key e +:+ "` is not JSON"))
  end.

Definition text_document_from_record (e : RecordEntry) : result TextDocument :=
  match entry_value e with
  | RJson v => document_from_value v
  | _ => Err (Message ("text document record `" +:+ entry_key e +:+ "` is not JSON"))
  end.

(** One record: the documents so far, and how many did not give one. *)
Definition read_document (collection : string) (acc : gmap string TextDocument * nat) (e : RecordEntry)
    : gmap string TextDocument * nat :=
  match text_document_id_from_record_key collection (entry_key e) with
  | None => acc
  | Some path_id =>
      match text_document_from_record e with
      | Ok d => if decide (doc_id d = path_id) then (<[doc_id d := d]> acc.1, acc.2) else (acc.1, S acc.2)
      | Err _ => (acc.1, S acc.2)
      end
  end.

Definition read_documents (collection : string) (records : list RecordEntry) : gmap string TextDocument * nat :=
  foldl (read_document collection) (∅, 0) records.

Definition set_deleted_count (n : nat) (c : TextCollectionCache) : TextCollectionCache :=
  mkTextCache (tcc_config c) (documents c) n (tcc_state c) (tcc_dirty c) (tcc_source_hash c) (index c).

Definition assemble_text_collection_cache (collection : string) (config : TextCollectionConfig) (records : list RecordEntry)
    (source_hash : string) : result TextCollectionCache :=
  let r := read_documents collection records in
  c ← from_documents config r.1 source_hash;
  Ok (set_deleted_count r.2 c).

(** * Files of the cache *)

Record TextCacheManifest := mkTextManifest {
  tm_collection : string;
  tm_document_count : nat;
  tm_term_count : nat;
  tm_record_prefix : string;
  tm_source_revision : option Z;
  tm_source_hash : string;
  tm_source_hash_mode : string;
  tm_backend_version : string;
  tm_cache_format_version : Z;
  tm_manager_state : TextIndexState;
  tm_analyzer_version : Z;
  tm_config_hash : string;
  tm_created_at : string
}.

Record TextCacheFiles := mkTextFiles {
  tf_manifest : TextCacheManifest;
  terms_bin : list Z;
  postings_bin : list Z;
  docs_bin : list Z;
  text_metadata_bin : list Z
}.

Definition text_backend_version : string := "primadb-bm25-exact-v1".

Definition text_cache_files (collection : string) (c : TextCollectionCache) (created_at : string) : result TextCacheFiles :=
  config_hash ← stable_json_hash (tcc_config c);
  terms ← terms_to_vec (term_doc_freq (index c));
  ps ← postings_to_vec (postings (index c));
  docs ← documents_to_vec (documents c);
  config ← text_config_to_vec (tcc_config c);
  Ok (mkTextFiles
        (mkTextManifest collection (size (documents c)) (size (term_doc_freq (index c))) (text_collection_docs_prefix collection)
           None (tcc_source_hash c) "rebuild_scan" text_backend_version TEXT_CACHE_FORMAT_VERSION (tcc_state c)
           (analyzer_version (analyzer (tcc_config c))) config_hash created_at)
        terms ps docs config).

(** ** Restoring *)

(** The checks of the manifest alone. *)
Definition manifest_problem (m : TextCacheManifest) (expected_source_hash : string) : option string :=
  if negb (tm_cache_format_version m =? TEXT_CACHE_FORMAT_VERSION)%Z
  then Some ("text cache format mismatch: expected " +:+ dec TEXT_CACHE_FORMAT_VERSION +:+ ", got " +:+ dec (tm_cache_format_version m))
  else if negb (bool_decide (tm_backend_version m = text_backend_version))
  then Some "text cache backend version does not match this build"
  else if negb (bool_decide (tm_manager_state m = TReady)) then Some "text cache manifest is not ready for restoration"
  else if negb (bool_decide (tm_source_hash_mode m = "rebuild_scan")) || bool_decide (tm_created_at m = "")
  then Some "text cache manifest has invalid source metadata"
  else if bool_decide (str_trim (tm_collection m) = "") || negb (bool_decide (tm_record_prefix m = text_collection_docs_prefix (tm_collection m)))
  then Some "text cache manifest has an invalid collection record prefix"
  else if negb (bool_decide (tm_source_hash m = expected_source_hash))
  then Some "text cache source hash does not match authoritative records"
  else None.

Definition refuse {A} (text : string) : result A := Err (Message text).

(** A posting read from the file: checked, and counted into the lengths. *)
Definition restore_field (config : TextCollectionConfig) (term doc : string) (d : TextDocument) (r : result TextIndex)
    (p : string * nat) : result TextIndex :=
  i ← r;
  if p.2 =? 0
  then refuse ("text cache posting has zero frequency for term `" +:+ term +:+ "` in document `" +:+ doc +:+ "`")
  else if negb (bool_decide (is_Some (doc_fields d !! p.1))) || negb (bool_decide (p.1 ∈ indexed_field_names config d))
  then refuse ("text cache posting references non-indexed field `" +:+ p.1 +:+ "` in document `" +:+ doc +:+ "`")
  else
    let lengths := default ∅ (doc_field_lengths i !! doc) in
    let terms := default ∅ (doc_terms i !! doc) in
    Ok (mkTextIndex (postings i)
          (<[doc := <[p.1 := default 0 (lengths !! p.1) + p.2]> lengths]> (doc_field_lengths i))
          (<[doc := default 0 (doc_lengths i !! doc) + p.2]> (doc_lengths i))
          (<[doc := <[p.1 := {[term]} ∪ default ∅ (terms !! p.1)]> terms]> (doc_terms i))
          (term_doc_freq i) (total_terms i + p.2) (dense_doc_ids i) (dense_doc_lengths i) (dense_field_names i) (dense_postings i)).

Definition restore_document (config : TextCollectionConfig) (docs : gmap string TextDocument) (term : string)
    (r : result TextIndex) (p : string * gmap string nat) : result TextIndex :=
  i ← r;
  if decide (p.2 = ∅) then refuse ("text cache postings contain an empty field bucket for document `" +:+ p.1 +:+ "`")
  else
    match docs !! p.1 with
    | None => refuse ("text cache postings reference unknown document `" +:+ p.1 +:+ "`")
    | Some d => foldl (restore_field config term p.1 d) (Ok i) (btree_list p.2)
    end.

Definition restore_term (config : TextCollectionConfig) (docs : gmap string TextDocument) (terms : gmap string nat)
    (r : result TextIndex) (p : string * gmap string (gmap string nat)) : result TextIndex :=
  i ← r;
  if bool_decide (p.1 = "") || bool_decide (p.2 = ∅) then refuse "text cache postings contain an empty term bucket"
  else if negb (bool_decide (analyze_text (analyzer config) p.1 = [p.1]))
  then refuse ("text cache contains an invalid analyzed term `" +:+ p.1 +:+ "`")
  else
    match terms !! p.1 with
    | None => refuse ("text cache postings contain term `" +:+ p.1 +:+ "` missing from term table")
    | Some n =>
        if (n =? 0) || negb (n =? size p.2)
        then refuse ("text cache document frequency is inconsistent for term `" +:+ p.1 +:+ "`")
        else foldl (restore_document config docs p.1) (Ok i) (btree_list p.2)
    end.

Definition restore_index (config : TextCollectionConfig) (docs : gmap string TextDocument) (terms : gmap string nat)
    (ps : gmap string (gmap string (gmap string nat))) : result TextIndex :=
  i ← foldl (restore_term config docs terms) (Ok (mkTextIndex ps ∅ ∅ ∅ terms 0 [] [] [] ∅)) (btree_list ps);
  Ok (rebuild_dense_text_index i).

(** A document under another id, or with a blank one. *)
Definition misfiled (p : string * TextDocument) : bool :=
  negb (bool_decide (p.1 = doc_id p.2)) || bool_decide (str_trim (doc_id p.2) = "").

Definition collection_cache_from_text_cache_files (config : TextCollectionConfig) (files : TextCacheFiles)
    (expected_source_hash : string) : result TextCollectionCache :=
  let m := tf_manifest files in
  match manifest_problem m expected_source_hash with
  | Some text => refuse text
  | None =>
      serialized ← text_config_from_slice (text_metadata_bin files);
      _ ← validate_text_collection_config serialized;
      matches_config ← (if negb (bool_decide (serialized = config)) || negb (tm_analyzer_version m =? analyzer_version (analyzer config))%Z
                        then Ok false else h ← stable_json_hash config; Ok (bool_decide (tm_config_hash m = h)));
      if negb matches_config then refuse "text cache manifest does not match collection config"
      else
        docs ← documents_from_slice (docs_bin files);
        if negb (size docs =? tm_document_count m) then refuse "text cache document table has inconsistent length"
        else
          match List.find misfiled (btree_list docs) with
          | Some p => refuse ("text cache document table has inconsistent id `" +:+ p.1 +:+ "`")
          | None =>
              terms ← terms_from_slice (terms_bin files);
              if negb (size terms =? tm_term_count m) then refuse "text cache term table has inconsistent length"
              else
                ps ← postings_from_slice (postings_bin files);
                if negb (size ps =? tm_term_count m) || negb (size ps =? size terms)
                then refuse "text cache postings and term tables have inconsistent lengths"
                else if negb (bool_decide (btree_keys ps = btree_keys terms))
                then refuse "text cache postings and term tables contain different terms"
                else
                  i ← restore_index config docs terms ps;
                  Ok (mkTextCache config docs 0 TReady false (tm_source_hash m) i)
          end
  end.
End store.

(** * The database's calls *)

Section text_calls.
Context `{VectorWireFormat, TextWireFormat, Unicode, Codec, Env}.

Definition put_record_value (key : string) (v : result json) : M unit := v ← lift v; put_record key (RJson v).

Definition create_text_collection (name : string) (config : TextCollectionConfig) : M unit :=
  _ ← lift (validate_text_collection_config config);
  put_record_value (text_collection_config_key name) (text_config_to_value config).

Definition text_collection_config (collection : string) : M TextCollectionConfig :=
  e ← get_record (text_collection_config_key collection);
  match e with
  | None => throw (Message ("text collection `" +:+ collection +:+ "` does not exist"))
  | Some e => lift (text_collection_config_from_record e)
  end.

Definition put_text_document (collection : string) (d : TextDocument) : M unit :=
  _ ← text_collection_config collection;
  if decide (str_trim (doc_id d) = "") then throw (Message "text document id must not be empty")
  else put_record_value (text_document_key collection (doc_id d)) (document_to_value d).

Definition delete_text_document (collection id : string) : M unit := delete_record (text_document_key collection id).
End text_calls.
