(* ===== verification/Caches.v ===== *)
(** The caches of vector and text collections ([src/src/db.rs]): when they are built,
marked stale and rebuilt, the interleaving of rebuilds with changes, and the searches
that read them. *)
From stdpp Require Import base gmap sets list strings sorting.
From Stdlib Require Import ZArith Lia.
From S2P Require Import Prelude Clock Value F32 TopK Crdt Records Keys Paths Engine Segment Input Inner Read View Query InnerWf Tx Db Protocol Change Relay Vector Text TextRank TextSearch TextStore.

(** * What a kind of collection gives

The code of the two kinds differs only in names; what the caching relies on is this. *)

Class CollectionKind := {
  Config : Type;
  Cache : Type;
  kind_name : string;
  config_key : string → string;
  items_prefix : string → string;
  config_of : RecordEntry → result Config;
  assemble : string → Config → list RecordEntry → string → result Cache;
  cache_files : string → Cache → string → result unit;
  is_ready : Cache → bool;
  set_stale : Cache → Cache;
  set_rebuilding : Cache → Cache;
  collection_of : string → option string;
  forget_counts : Cache → Cache
}.

Class CollectionKindLaws `{CollectionKind} : Prop := {
  assembled_ready : ∀ name config records h c, assemble name config records h = Ok c → is_ready c = true;
  stale_not_ready : ∀ c, is_ready (set_stale c) = false;
  rebuilding_not_ready : ∀ c, is_ready (set_rebuilding c) = false;
  ready_forget : ∀ c c', forget_counts c = forget_counts c' → is_ready c = is_ready c'
}.

(** ** The two kinds *)

Definition set_vector_state (state : VectorManagerState) (dirty : bool) (c : VectorCollectionCache) : VectorCollectionCache :=
  mkVectorCache (vc_config c) (vc_entries c) (vc_deleted_count c) (vc_incomplete_count c) state dirty (vc_source_hash c).

Definition set_text_state (state : TextIndexState) (dirty : bool) (c : TextCollectionCache) : TextCollectionCache :=
  mkTextCache (tcc_config c) (documents c) (tcc_deleted_count c) state dirty (tcc_source_hash c) (index c).

Definition done_with {A} (r : result A) : result unit := match r with Ok _ => Ok tt | Err e => Err e end.

#[global] Instance vector_kind `{VectorWireFormat} : CollectionKind := {|
  Config := VectorCollectionConfig;
  Cache := VectorCollectionCache;
  kind_name := "vector";
  config_key := vector_collection_meta_key;
  items_prefix := vector_collection_items_prefix;
  config_of := collection_config_from_record;
  assemble := λ name config records h, Ok (assemble_vector_collection_cache name config records h);
  cache_files := λ name c now, done_with (build_vector_cache_files name c now);
  is_ready := λ c, negb (vc_dirty c) && bool_decide (vc_state c = VReady);
  set_stale := set_vector_state VStale true;
  set_rebuilding := λ c, set_vector_state VRebuilding (vc_dirty c) c;
  collection_of := vector_collection_from_record_key;
  forget_counts := λ c, c
|}.

#[global] Instance text_kind `{TextWireFormat, Unicode} : CollectionKind := {|
  Config := TextCollectionConfig;
  Cache := TextCollectionCache;
  kind_name := "text";
  config_key := text_collection_config_key;
  items_prefix := text_collection_docs_prefix;
  config_of := text_collection_config_from_record;
  assemble := assemble_text_collection_cache;
  cache_files := λ name c now, done_with (text_cache_files name c now);
  is_ready := λ c, negb (tcc_dirty c) && bool_decide (tcc_state c = TReady);
  set_stale := set_text_state TStale true;
  set_rebuilding := λ c, set_text_state TRebuilding (tcc_dirty c) c;
  collection_of := text_collection_from_record_key;
  forget_counts := set_deleted_count 0
|}.

(** * The records of a collection *)

Section caches.
Context `{VW : VectorWireFormat, Cod : Codec, En : Env, K : CollectionKind}.

(** The entries of a collection, its items first, then its configuration; [None] when the
collection does not exist. *)
Definition collection_records (name : string) : M (option (Config * list RecordEntry * string)) :=
  e ← record_entry_from_inner (config_key name);
  match e with
  | None => mret None
  | Some entry =>
      config ← lift (config_of entry);
      items ← collect_locked (mkScan (Some (items_prefix name)) None None None None false None None);
      mret (Some (config, items ++ [entry], records_source_hash (items ++ [entry])))
  end.

(** * The shared state *)

(** What the lock guards: the data, the count of changes, the caches by name, and the
names being rebuilt. *)
Record Shared := mkShared {
  data : Inner;
  revision : Z;
  collections : gmap string Cache;
  cache_rebuilds : gset string
}.

Definition set_collections (m : gmap string Cache) (s : Shared) : Shared := mkShared (data s) (revision s) m (cache_rebuilds s).
Definition set_rebuilds (r : gset string) (s : Shared) : Shared := mkShared (data s) (revision s) (collections s) r.
Definition set_data (i : Inner) (s : Shared) : Shared := mkShared i (revision s) (collections s) (cache_rebuilds s).

(** [*_collection_records_and_source_hash_locked]: a collection that does not exist
loses its cache. *)
Definition records_and_source_hash (name : string) (s : Shared) : Shared * result (Config * list RecordEntry * string) :=
  let r := collection_records name (data s) in
  let s := set_data r.1 s in
  match r.2 with
  | Err e => (s, Err e)
  | Ok (Some x) => (s, Ok x)
  | Ok None =>
      (set_collections (delete name (collections s)) s, Err (Message (kind_name +:+ " collection `" +:+ name +:+ "` does not exist")))
  end.

Record Snapshot := mkSnapshot {
  sn_config : Config;
  sn_records : list RecordEntry;
  sn_source_hash : string;
  sn_revision : Z
}.

Definition rebuild_snapshot (name : string) (s : Shared) : Shared * result Snapshot :=
  let r := records_and_source_hash name s in
  (r.1, match r.2 with Ok (config, records, h) => Ok (mkSnapshot config records h (revision r.1)) | Err e => Err e end).

(** ** The three sections under the lock of [ensure_*_collection_ready] *)

Inductive Begun :=
  | IsReady
  | MustWait
  | Failed (e : PrimadbError)
  | Rebuild (snapshot : Snapshot).

Definition needs_rebuild (name : string) (s : Shared) : bool :=
  match collections s !! name with Some c => negb (is_ready c) | None => true end.

Definition begin_rebuild (name : string) (s : Shared) : Shared * Begun :=
  if negb (needs_rebuild name s) then (s, IsReady)
  else if bool_decide (name ∈ cache_rebuilds s) then (s, MustWait)
  else
    let s := set_rebuilds ({[name]} ∪ cache_rebuilds s) s in
    let s := match collections s !! name with
             | Some c => set_collections (<[name := set_rebuilding c]> (collections s)) s
             | None => s
             end in
    match rebuild_snapshot name s with
    | (s, Ok snapshot) => (s, Rebuild snapshot)
    | (s, Err e) => (set_rebuilds (cache_rebuilds s ∖ {[name]}) s, Failed e)
    end.

(** [build_*_collection_off_lock]: a cache on disk for the same records is taken, else one
is assembled and its files made.  [native] reads the files under the cache root. *)
Definition build_off_lock (native : string → Config → string → option Cache) (now : string) (name : string) (snapshot : Snapshot)
    : result Cache :=
  match native name (sn_config snapshot) (sn_source_hash snapshot) with
  | Some c => Ok c
  | None =>
      c ← assemble name (sn_config snapshot) (sn_records snapshot) (sn_source_hash snapshot);
      _ ← cache_files name c now;
      Ok c
  end.

Inductive Installed := InstallFailed (e : PrimadbError) | Outcome (stale : bool).

Definition install (name : string) (snapshot : Snapshot) (built : result Cache) (s : Shared) : Shared * Installed :=
  match built with
  | Ok c =>
      if (revision s =? sn_revision snapshot)%Z then (set_collections (<[name := c]> (collections s)) s, Outcome false)
      else (s, Outcome true)
  | Err e => (set_rebuilds (cache_rebuilds s ∖ {[name]}) s, InstallFailed e)
  end.

(** Between the installation and this step the cache's files are written, outside the
lock and with errors ignored, so the shared state is not touched by them. *)
Definition finish_rebuild (name : string) (s : Shared) : Shared := set_rebuilds (cache_rebuilds s ∖ {[name]}) s.

(** ** The loop, alone

[None]: waits for another, or runs out of rounds. *)
Fixpoint ensure_collection_ready (rounds : nat) native (now name : string) (s : Shared) : Shared * option (result unit) :=
  match rounds with
  | 0 => (s, None)
  | S rounds =>
      match begin_rebuild name s with
      | (s, IsReady) => (s, Some (Ok tt))
      | (s, MustWait) => (s, None)
      | (s, Failed e) => (s, Some (Err e))
      | (s, Rebuild snapshot) =>
          match install name snapshot (build_off_lock native now name snapshot) s with
          | (s, InstallFailed e) => (s, Some (Err e))
          | (s, Outcome false) => (finish_rebuild name s, Some (Ok tt))
          | (s, Outcome true) => ensure_collection_ready rounds native now name (finish_rebuild name s)
          end
      end
  end.

(** ** After a change *)

(** [mark_*_collections_dirty]. *)
Definition mark_collections_dirty (m : ChangeImpact) (s : Shared) : Shared :=
  if negb (full_refresh m) && negb (records_changed m) then s
  else if full_refresh m || bool_decide (touched_record_keys m = [])
  then set_collections (set_stale <$> collections s) s
  else
    set_collections
      (foldl (λ cs key,
         match collection_of key with
         | Some name => match cs !! name with Some c => <[name := set_stale c]> cs | None => cs end
         | None => cs
         end) (collections s) (touched_record_keys m)) s.

(** The first section of [finalize_change]. *)
Definition bump_revision (s : Shared) : Shared :=
  mkShared (data s) (sat_add u64_max (revision s) 1) (collections s) (cache_rebuilds s).

(** The part of [finalize_change] after the change is persisted: nothing is marked unless
data changed. *)
Definition after_persist (m : ChangeImpact) (s : Shared) : Shared :=
  if data_changed m then mark_collections_dirty m s else s.

(** The impact concerns the collection. *)
Definition touches (m : ChangeImpact) (name : string) : bool :=
  data_changed m && (full_refresh m || keys_concern (λ k, bool_decide (collection_of k = Some name)) (mkChangeEvent 0 0 m)).
End caches.

(** * Reading a collection *)

Section running.
Context `{VW : VectorWireFormat, Cod : Codec, En : Env, !EnvLaws, K : CollectionKind, !CollectionKindLaws}.
Implicit Types (i j : Inner) (s : Shared) (name : string) (m : ChangeImpact) (c : Cache).

(** Two states with the same records, loaded or not. *)
Definition same_records i j : Prop := (∀ n, view i n = view j n) ∧ overlay i = overlay j.

#[global] Instance same_records_equivalence : Equivalence same_records.
Proof.
  split.
  - by intros i.
  - intros i j [Hv Ho]. split; [intros n; by rewrite Hv|done].
  - intros i j k [Hv Ho] [Hv' Ho']. split; [intros n; by rewrite Hv, Hv'|congruence].
Qed.

Lemma journal_node_overlay n i : overlay (journal_node n i) = overlay i.
Proof. unfold journal_node. destruct (transaction_journal i); [case_decide|]; done. Qed.

Lemma journal_missing_overlay n i : overlay (journal_missing_node n i) = overlay i.
Proof. unfold journal_missing_node. destruct (transaction_journal i); [case_decide|]; done. Qed.

Lemma reindex_overlay n i : overlay (request_reindex_node_relationships n i) = overlay i.
Proof.
  unfold request_reindex_node_relationships, reindex_node_relationships. destruct (transaction_journal i); [done|apply journal_node_overlay].
Qed.

Lemma load_overlay n i : overlay (maybe_load_node n i).1 = overlay i.
Proof.
  unfold maybe_load_node. cbv zeta. destruct (match nodes i !! n with Some _ => _ | None => _ end); [done|]. case_bool_decide; [done|].
  destruct storage_engine as [e|]; [|done]. destruct (get_node e n) as [[st|]|]; [| |done].
  - cbn [fst]. rewrite reindex_overlay. cbn [set_missing_nodes overlay]. rewrite journal_missing_overlay. apply journal_node_overlay.
  - case_decide; [done|]. apply (journal_missing_overlay n i).
Qed.

Lemma load_same n i : same_records (maybe_load_node n i).1 i.
Proof. split; [intros k; apply view_load|apply load_overlay]. Qed.

Lemma entry_same key i j : same_records i j →
  (record_entry_from_inner key i).2 = (record_entry_from_inner key j).2 ∧ same_records (record_entry_from_inner key i).1 i.
Proof.
  intros [Hv _]. set (n := record_node_id blake3_hex key). pose proof (load_same n i) as Hs.
  assert (∀ k, record_entry_from_inner key k =
    ((maybe_load_node n k).1,
     match (view k n).2 with
     | Ok _ => Ok match (view k n).1 ≫= record_entry_from_node_state with
                  | Some entry => if decide (entry_key entry = key) then Some entry else None | None => None end
     | Err e => Err e end)) as E.
  { intros k. unfold record_entry_from_inner, view, mbind, M_bind. cbv zeta. fold n. by destruct (maybe_load_node n k) as [k' [b|e]]. }
  rewrite !E. cbn [fst snd]. split; [by rewrite Hv|done].
Qed.

Lemma collect_same scan i j : same_records i j → (collect_locked scan i).2 = (collect_locked scan j).2 ∧ (collect_locked scan i).1 = i.
Proof. intros [_ Ho]. unfold collect_locked. rewrite Ho. by destruct (collect_record_entries_for_scan _ _ _ _). Qed.

(** Reading a collection depends on the records only, and keeps them. *)
Lemma collection_same name i j : same_records i j →
  (collection_records name i).2 = (collection_records name j).2 ∧ same_records (collection_records name i).1 i.
Proof.
  intros Hij. destruct (entry_same (config_key name) i j Hij) as [He Hs]. destruct (entry_same (config_key name) j i) as [_ Hs']; [by symmetry|].
  unfold collection_records, mbind, M_bind.
  destruct (record_entry_from_inner (config_key name) i) as [i1 r], (record_entry_from_inner (config_key name) j) as [j1 r'].
  cbn [fst snd] in *. subst r'. destruct r as [[entry|]|e]; [|done..]. unfold lift. destruct (config_of entry) as [config|e]; [|done].
  assert (same_records i1 j1) as Hij1 by (rewrite Hs, Hs'; done).
  set (scan := mkScan _ _ _ _ _ _ _ _). destruct (collect_same scan i1 j1 Hij1) as [Hc Hi]. destruct (collect_same scan j1 i1) as [_ Hj]; [by symmetry|].
  destruct (collect_locked scan i1) as [i2 r], (collect_locked scan j1) as [j2 r']. cbn [fst snd] in *. subst r' i2 j2.
  by destruct r as [items|e].
Qed.

Definition contents name i : result (option (Config * list RecordEntry * string)) := (collection_records name i).2.

Lemma contents_same name i j : same_records i j → contents name i = contents name j.
Proof. intros Hij. by apply collection_same. Qed.

(** * Changes and rebuilds, interleaved *)

(** What runs between two sections under the lock: a change that is applied, then counted,
then persisted, before it marks caches; a rebuild off the lock, and one about to end. *)
Inductive Worker :=
  | Applied (m : ChangeImpact)
  | Counted (m : ChangeImpact)
  | Persisted (m : ChangeImpact)
  | Building (name : string) (snapshot : Snapshot)
  | Closing (name : string) (stale : bool).

(** [lost] are the impacts of changes whose persistence failed. *)
Record System := mkSystem {
  shared : Shared;
  workers : gmap nat Worker;
  lost : list ChangeImpact
}.

Definition start (i : Inner) (rev : Z) : System := mkSystem (mkShared i rev ∅ ∅) ∅ [].

(** The impact names every collection the change makes different. *)
Definition covers i i' m : Prop := ∀ name, contents name i = contents name i' ∨ touches m name = true.

Variable native : string → Config → string → option Cache.

(** One section under the lock, by anyone.  The count of changes is below its limit. *)
Inductive step : System → System → Prop :=
  | apply_step w m i s ws l : ws !! w = None → covers (data s) i m →
      step (mkSystem s ws l) (mkSystem (set_data i s) (<[w := Applied m]> ws) l)
  | count_step w m s ws l : ws !! w = Some (Applied m) → (revision s < u64_max)%Z →
      step (mkSystem s ws l) (mkSystem (bump_revision s) (<[w := Counted m]> ws) l)
  | persist_step w m i s ws l : ws !! w = Some (Counted m) → same_records i (data s) →
      step (mkSystem s ws l) (mkSystem (set_data i s) (<[w := Persisted m]> ws) l)
  | persist_fail_step w m i s ws l : ws !! w = Some (Counted m) → same_records i (data s) →
      step (mkSystem s ws l) (mkSystem (set_data i s) (delete w ws) (m :: l))
  | mark_step w m s ws l : ws !! w = Some (Persisted m) →
      step (mkSystem s ws l) (mkSystem (after_persist m s) (delete w ws) l)
  | begin_step w name snapshot s s' ws l : ws !! w = None → begin_rebuild name s = (s', Rebuild snapshot) →
      step (mkSystem s ws l) (mkSystem s' (<[w := Building name snapshot]> ws) l)
  | begin_none_step name b s s' ws l : begin_rebuild name s = (s', b) → (∀ snapshot, b ≠ Rebuild snapshot) →
      step (mkSystem s ws l) (mkSystem s' ws l)
  | install_step w name snapshot now stale s s' ws l : ws !! w = Some (Building name snapshot) →
      install name snapshot (build_off_lock native now name snapshot) s = (s', Outcome stale) →
      step (mkSystem s ws l) (mkSystem s' (<[w := Closing name stale]> ws) l)
  | install_fail_step w name snapshot now e s s' ws l : ws !! w = Some (Building name snapshot) →
      install name snapshot (build_off_lock native now name snapshot) s = (s', InstallFailed e) →
      step (mkSystem s ws l) (mkSystem s' (delete w ws) l)
  | finish_step w name stale s ws l : ws !! w = Some (Closing name stale) →
      step (mkSystem s ws l) (mkSystem (finish_rebuild name s) (delete w ws) l)
  | read_step i s ws l : same_records i (data s) → step (mkSystem s ws l) (mkSystem (set_data i s) ws l).

(** A file on disk whose hash is that of the records holds the cache of the records. *)
Definition honest : Prop := ∀ i name config records h c,
  contents name i = Ok (Some (config, records, h)) → native name config h = Some c →
  ∃ c', assemble name config records h = Ok c' ∧ forget_counts c = forget_counts c'.

(** The cache of the records as they are now. *)
Definition current name c i : Prop := ∃ config records h c',
  contents name i = Ok (Some (config, records, h)) ∧ assemble name config records h = Ok c' ∧ forget_counts c = forget_counts c'.

(** The snapshot of the records as they are now. *)
Definition fresh name (snapshot : Snapshot) i : Prop :=
  contents name i = Ok (Some (sn_config snapshot, sn_records snapshot, sn_source_hash snapshot)).

Definition impact_of (x : Worker) : option ChangeImpact :=
  match x with Applied m | Counted m | Persisted m => Some m | _ => None end.

(** A change under way, or one lost, concerns the collection. *)
Definition under_way name (ws : gmap nat Worker) : Prop := ∃ w x m, ws !! w = Some x ∧ impact_of x = Some m ∧ touches m name = true.
Definition applied name (ws : gmap nat Worker) : Prop := ∃ w m, ws !! w = Some (Applied m) ∧ touches m name = true.
Definition missed name (l : list ChangeImpact) : Prop := ∃ m, m ∈ l ∧ touches m name = true.

Definition cache_inv (y : System) : Prop := ∀ name c,
  collections (shared y) !! name = Some c → is_ready c = true →
  current name c (data (shared y)) ∨ under_way name (workers y) ∨ missed name (lost y).

Definition rebuild_inv (y : System) : Prop := ∀ w name snapshot,
  workers y !! w = Some (Building name snapshot) →
  (sn_revision snapshot ≤ revision (shared y))%Z ∧
  (sn_revision snapshot = revision (shared y) → fresh name snapshot (data (shared y)) ∨ applied name (workers y)).

Lemma current_same name c i j : same_records i j → current name c i → current name c j.
Proof. intros Hij (config & records & h & c' & Hc & Ha & Hf). exists config, records, h, c'. by rewrite <-(contents_same name i j Hij). Qed.

Lemma fresh_same name snapshot i j : same_records i j → fresh name snapshot i → fresh name snapshot j.
Proof. unfold fresh. intros Hij Hf. by rewrite <-(contents_same name i j Hij). Qed.

Lemma under_way_insert name w x ws : ws !! w = None ∨ impact_of x = (ws !! w ≫= impact_of) → under_way name ws → under_way name (<[w := x]> ws).
Proof.
  intros Hw (w' & x' & m & Hw' & Hi & Ht). destruct (decide (w' = w)) as [->|Hne].
  - destruct Hw as [Hw|Hw]; [congruence|]. exists w, x, m. rewrite Hw' in Hw. cbn in Hw. rewrite lookup_insert_eq. split_and!; [done|congruence|done].
  - exists w', x', m. by rewrite lookup_insert_ne.
Qed.

Lemma under_way_delete name w ws m : (ws !! w ≫= impact_of) = Some m ∨ (ws !! w ≫= impact_of) = None →
  under_way name ws → under_way name (delete w ws) ∨ ((ws !! w ≫= impact_of) = Some m ∧ touches m name = true).
Proof.
  intros Hw (w' & x' & m' & Hw' & Hi & Ht). destruct (decide (w' = w)) as [->|Hne].
  - right. rewrite Hw' in *. cbn in *. destruct Hw as [Hw|Hw]; [|congruence]. split; [done|]. congruence.
  - left. exists w', x', m'. by rewrite lookup_delete_ne.
Qed.

Lemma applied_insert name w x ws : (∀ m, ws !! w ≠ Some (Applied m)) → applied name ws → applied name (<[w := x]> ws).
Proof.
  intros Hw (w' & m & Hw' & Ht). exists w', m. split; [|done]. rewrite lookup_insert_ne; [done|]. intros ->. by apply (Hw m).
Qed.

Lemma applied_delete name w ws : (∀ m, ws !! w ≠ Some (Applied m)) → applied name ws → applied name (delete w ws).
Proof.
  intros Hw (w' & m & Hw' & Ht). exists w', m. split; [|done]. rewrite lookup_delete_ne; [done|]. intros ->. by apply (Hw m).
Qed.

Lemma applied_under_way name ws : applied name ws → under_way name ws.
Proof. intros (w & m & Hw & Ht). by exists w, (Applied m), m. Qed.

(** ** What each section does *)

Lemma read_effect name s : let r := records_and_source_hash name s in
  same_records (data r.1) (data s) ∧ revision r.1 = revision s ∧ cache_rebuilds r.1 = cache_rebuilds s ∧
  (∀ n c, collections r.1 !! n = Some c → collections s !! n = Some c) ∧
  (∀ x, r.2 = Ok x → contents name (data r.1) = Ok (Some x) ∧ collections r.1 = collections s).
Proof.
  unfold records_and_source_hash. destruct (collection_same name (data s) (data s)) as [_ Hs]; [done|].
  assert (contents name (collection_records name (data s)).1 = (collection_records name (data s)).2) as Hc by (by apply contents_same).
  destruct (collection_records name (data s)) as [i r]. cbn [fst snd] in *. destruct r as [[x|]|e]; cbn [fst snd set_data set_collections data revision collections cache_rebuilds].
  - split_and!; [done|done|done|done|]. intros y [= ->]. done.
  - split_and!; [done|done|done| |done]. intros n c Hn. apply lookup_delete_Some in Hn as [_ Hn]. done.
  - split_and!; [done|done|done|done|done].
Qed.

Lemma begin_effect name s s' b : begin_rebuild name s = (s', b) →
  same_records (data s') (data s) ∧ revision s' = revision s ∧
  (∀ n c, collections s' !! n = Some c → is_ready c = true → collections s !! n = Some c) ∧
  (∀ snapshot, b = Rebuild snapshot → fresh name snapshot (data s') ∧ sn_revision snapshot = revision s').
Proof.
  unfold begin_rebuild. destruct (negb (needs_rebuild name s)); [by intros [= <- <-]|]. case_bool_decide; [by intros [= <- <-]|].
  set (s1 := set_rebuilds _ s). set (s2 := match collections s1 !! name with Some _ => _ | None => _ end).
  assert (data s2 = data s ∧ revision s2 = revision s ∧ ∀ n c, collections s2 !! n = Some c → is_ready c = true → collections s !! n = Some c) as (D & R & C).
  { unfold s2. change (collections s1) with (collections s). destruct (collections s !! name) as [c0|] eqn:E; [|done]. split_and!; [done..|].
    intros n c. cbn [set_collections collections]. destruct (decide (n = name)) as [->|Hne]; [|by rewrite lookup_insert_ne].
    rewrite lookup_insert_eq. intros [= <-]. by rewrite rebuilding_not_ready. }
  clearbody s2. unfold rebuild_snapshot. destruct (read_effect name s2) as (RD & RR & _ & RC & RX).
  destruct (records_and_source_hash name s2) as [s3 r]. cbn [fst snd] in *. destruct r as [[[config records] h]|e]; intros [= <- <-].
  - destruct (RX _ eq_refl) as [RX1 RX2]. rewrite <-D, <-R. split_and!; [done|done| |].
    + intros n c. rewrite RX2. auto.
    + intros snapshot [= <-]. cbn [sn_revision]. split; [exact RX1|done].
  - rewrite <-D, <-R. split_and!; [done|done| |done]. intros n c Hn. cbn in Hn. apply RC in Hn. auto.
Qed.

Lemma mark_effect m s n c : collections (after_persist m s) !! n = Some c → is_ready c = true → collections s !! n = Some c ∧ touches m n = false.
Proof.
  unfold after_persist, touches, mark_collections_dirty, keys_concern. cbn [impact]. destruct (data_changed m); [|done]. cbn [andb].
  destruct (full_refresh m); cbn [negb andb orb].
  { cbn [set_collections collections]. rewrite lookup_fmap. intros Hn Hr. apply fmap_Some in Hn as (c0 & _ & ->). by rewrite stale_not_ready in Hr. }
  destruct (records_changed m); cbn [negb andb]; [|done]. case_bool_decide as E.
  { cbn [set_collections collections]. rewrite lookup_fmap. intros Hn Hr. apply fmap_Some in Hn as (c0 & _ & ->). by rewrite stale_not_ready in Hr. }
  cbn [set_collections collections orb]. clear E. induction (touched_record_keys m) as [|key keys IH] using rev_ind; [done|].
  rewrite foldl_app. cbn [foldl]. rewrite existsb_app. cbn [existsb]. set (cs := foldl _ _ keys) in *. intros Hn Hr.
  destruct (collection_of key) as [name|] eqn:Ek.
  - destruct (cs !! name) as [c0|] eqn:Ec.
    + destruct (decide (n = name)) as [->|Hne]; [rewrite lookup_insert_eq in Hn; injection Hn as <-; by rewrite stale_not_ready in Hr|].
      rewrite lookup_insert_ne in Hn by done. destruct (IH Hn Hr) as [H1' H2']. split; [done|]. rewrite H2', bool_decide_eq_false_2; [done|]. congruence.
    + destruct (IH Hn Hr) as [H1' H2']. split; [done|]. rewrite H2', bool_decide_eq_false_2; [done|]. congruence.
  - destruct (IH Hn Hr) as [H1' H2']. split; [done|]. rewrite H2', bool_decide_eq_false_2; [done|]. congruence.
Qed.

Lemma mark_keeps m s : data (after_persist m s) = data s ∧ revision (after_persist m s) = revision s.
Proof. unfold after_persist, mark_collections_dirty. destruct (data_changed m); [|done]. destruct (_ && _); [done|]. by destruct (_ || _). Qed.

Lemma built_current now name snapshot i c : honest → fresh name snapshot i → build_off_lock native now name snapshot = Ok c → current name c i.
Proof.
  intros Hh Hf. unfold build_off_lock. destruct (native name _ _) as [c0|] eqn:Enat.
  - intros [= <-]. destruct (Hh i name _ _ _ c0 Hf Enat) as (c' & Ha & Hc). by exists (sn_config snapshot), (sn_records snapshot), (sn_source_hash snapshot), c'.
  - destruct (assemble name _ _ _) as [c1|e] eqn:Ea; [|done]. cbn. destruct (cache_files name c1 now); [|done]. intros [= <-].
    by exists (sn_config snapshot), (sn_records snapshot), (sn_source_hash snapshot), c1.
Qed.

(** ** The invariant *)

Lemma cache_keep name c y s' ws' l' : cache_inv y → same_records (data s') (data (shared y)) →
  (collections s' !! name = Some c → is_ready c = true → collections (shared y) !! name = Some c) →
  (under_way name (workers y) → under_way name ws' ∨ missed name l') → (missed name (lost y) → missed name l') →
  collections s' !! name = Some c → is_ready c = true →
  current name c (data s') ∨ under_way name ws' ∨ missed name l'.
Proof.
  intros Hi Hs Hc Hu Hm Hn Hr. destruct (Hi name c (Hc Hn Hr) Hr) as [Hcur|[Hw|Hl]].
  - left. eapply current_same; [|exact Hcur]. by symmetry.
  - destruct (Hu Hw); auto.
  - auto.
Qed.

Lemma rebuild_keep y s' ws' l' : rebuild_inv y → same_records (data s') (data (shared y)) → revision s' = revision (shared y) →
  (∀ w name snapshot, ws' !! w = Some (Building name snapshot) → workers y !! w = Some (Building name snapshot)) →
  (∀ name, applied name (workers y) → applied name ws') → rebuild_inv (mkSystem s' ws' l').
Proof.
  intros Hi Hs Hrev Hw Ha w name snapshot Hb. cbn in *. destruct (Hi w name snapshot (Hw _ _ _ Hb)) as [Hle Hf]. rewrite Hrev. split; [done|].
  intros E. destruct (Hf E) as [Hfr|Hap]; [left|right; auto]. eapply fresh_same; [|exact Hfr]. by symmetry.
Qed.

Lemma building_insert (ws : gmap nat Worker) w x w' name snapshot : (∀ n sn, x ≠ Building n sn) →
  <[w := x]> ws !! w' = Some (Building name snapshot) → ws !! w' = Some (Building name snapshot).
Proof.
  intros Hx. destruct (decide (w' = w)) as [->|Hne]; [rewrite lookup_insert_eq; intros [= E]; by apply Hx in E|]. by rewrite lookup_insert_ne.
Qed.

Lemma building_delete (ws : gmap nat Worker) w w' x : delete w ws !! w' = Some x → ws !! w' = Some x.
Proof. intros E. by apply lookup_delete_Some in E as [_ E]. Qed.

Definition inv (y : System) : Prop := cache_inv y ∧ rebuild_inv y.

Lemma apply_inv w m i s ws l : ws !! w = None → covers (data s) i m → inv (mkSystem s ws l) →
  inv (mkSystem (set_data i s) (<[w := Applied m]> ws) l).
Proof.
  intros Hw Hcov [Hc Hr]. split.
  - intros name c Hn Hready. cbn in *. destruct (Hcov name) as [E|E].
    + destruct (Hc name c Hn Hready) as [(config & records & h & c' & H1' & H2')|[Hu|Hm]].
      * left. exists config, records, h, c'. by rewrite <-E.
      * right. left. apply under_way_insert; [by left|done].
      * by right; right.
    + right. left. exists w, (Applied m), m. by rewrite lookup_insert_eq.
  - intros w' name snapshot Hb. cbn in *. apply building_insert in Hb; [|done]. destruct (Hr w' name snapshot Hb) as [Hle Hf]. cbn in *. split; [done|].
    intros Erev. destruct (Hcov name) as [E|E].
    + destruct (Hf Erev) as [Hfr|Ha]; [left; unfold fresh in *; by rewrite <-E|]. right. apply applied_insert; [by rewrite Hw|done].
    + right. exists w, m. by rewrite lookup_insert_eq.
Qed.

(** A worker that goes on, with the records and the caches as they are. *)
Lemma advance_inv w x x' s s' ws l : ws !! w = Some x → impact_of x' = impact_of x → (∀ m, x ≠ Applied m) →
  (∀ n sn, x' ≠ Building n sn) → same_records (data s') (data s) → revision s' = revision s → collections s' = collections s →
  inv (mkSystem s ws l) → inv (mkSystem s' (<[w := x']> ws) l).
Proof.
  intros Hw Hi Hx Hx' Hs Hrev Hcs [Hc Hr]. split.
  - intros name c Hn Hready. eapply (cache_keep name c _ _ _ _ Hc); cbn; eauto; [by rewrite Hcs|].
    intros Hu. left. apply under_way_insert; [right; by rewrite Hw|done].
  - eapply rebuild_keep; [exact Hr|..]; cbn; eauto.
    + intros w' name sn Hb. by apply building_insert in Hb.
    + intros name Ha. apply applied_insert; [|done]. rewrite Hw. intros m' [= E]. by apply (Hx m').
Qed.

(** A worker that ends; a change that ends concerns no cache that is still ready, or is
noted as lost. *)
Lemma retire_inv w x s s' ws l l' : ws !! w = Some x → (∀ m, x ≠ Applied m) → same_records (data s') (data s) → revision s' = revision s →
  (∀ n c, collections s' !! n = Some c → is_ready c = true →
     collections s !! n = Some c ∧ ∀ m, impact_of x = Some m → touches m n = true → missed n l') →
  (∀ n, missed n l → missed n l') → inv (mkSystem s ws l) → inv (mkSystem s' (delete w ws) l').
Proof.
  intros Hw Hx Hs Hrev Hcs Hl [Hc Hr]. split.
  - intros name c Hn Hready. cbn in Hn. destruct (Hcs name c Hn Hready) as [Hn' Hm]. eapply (cache_keep name c _ _ _ _ Hc); cbn; eauto.
    intros Hu. destruct (impact_of x) as [m|] eqn:Ei.
    + destruct (under_way_delete name w ws m) as [?|[_ ?]]; [left; by rewrite Hw|done|by left|]. right. by apply (Hm m).
    + destruct (under_way_delete name w ws pending_only) as [?|[E _]]; [right; by rewrite Hw|done|by left|]. rewrite Hw in E. cbn in E. congruence.
  - eapply rebuild_keep; [exact Hr|..]; cbn; eauto.
    + intros w' name sn Hb. by eapply building_delete.
    + intros name Ha. apply applied_delete; [|done]. rewrite Hw. intros m' [= E]. by apply (Hx m').
Qed.

Lemma begin_inv w name snapshot s s' ws l : ws !! w = None → begin_rebuild name s = (s', Rebuild snapshot) → inv (mkSystem s ws l) →
  inv (mkSystem s' (<[w := Building name snapshot]> ws) l).
Proof.
  intros Hw Hb [Hc Hr]. destruct (begin_effect name s s' _ Hb) as (Hs & Hrev & Hcs & Hsn). destruct (Hsn snapshot eq_refl) as [Hfresh Hsrev]. split.
  - intros name' c Hn Hready. eapply (cache_keep name' c _ _ _ _ Hc); cbn; eauto. intros Hu. left. apply under_way_insert; [by left|done].
  - intros w' name' sn. cbn. destruct (decide (w' = w)) as [->|Hne].
    + rewrite lookup_insert_eq. intros [= <- <-]. split; [lia|]. by left.
    + rewrite lookup_insert_ne by done. intros Hb'. destruct (Hr w' name' sn Hb') as [Hle Hf]. cbn in *. rewrite Hrev. split; [done|].
      intros E. destruct (Hf E) as [?|Ha]; [left; eapply fresh_same; [|done]; by symmetry|]. right. apply applied_insert; [by rewrite Hw|done].
Qed.

Lemma install_inv w name snapshot now stale s s' ws l : honest → ws !! w = Some (Building name snapshot) →
  install name snapshot (build_off_lock native now name snapshot) s = (s', Outcome stale) → inv (mkSystem s ws l) →
  inv (mkSystem s' (<[w := Closing name stale]> ws) l).
Proof.
  intros Hh Hw Hins Hinv. unfold install in Hins. destruct (build_off_lock native now name snapshot) as [c0|e] eqn:Eb; [|done].
  destruct (Z.eqb_spec (revision s) (sn_revision snapshot)) as [E|E]; injection Hins as <- <-; [|by eapply advance_inv].
  destruct Hinv as [Hc Hr]. assert (∀ n, under_way n ws → under_way n (<[w := Closing name false]> ws)) as Hu.
  { intros n Hn. apply under_way_insert; [right; by rewrite Hw|done]. }
  split.
  - intros name' c. cbn. destruct (decide (name' = name)) as [->|Hne].
    + rewrite lookup_insert_eq. intros [= <-] Hready. destruct (Hr w name snapshot Hw) as [_ Hf]. cbn in Hf.
      destruct (Hf (eq_sym E)) as [Hfr|Ha]; [left; by eapply built_current|]. right. left. by apply Hu, applied_under_way.
    + rewrite lookup_insert_ne by done. intros Hn Hready. eapply (cache_keep name' c _ _ _ _ Hc); cbn; eauto. done.
  - eapply rebuild_keep; [exact Hr|..]; cbn; eauto; [done| |].
    + intros w' name' sn Hb. by apply building_insert in Hb.
    + intros name' Ha. apply applied_insert; [by rewrite Hw|done].
Qed.

Lemma step_inv y y' : honest → step y y' → inv y → inv y'.
Proof.
  intros Hh Hstep Hinv. destruct Hstep as [w m i s ws l Hw Hcov|w m s ws l Hw Hlim|w m i s ws l Hw Hsame|w m i s ws l Hw Hsame|w m s ws l Hw
    |w name snapshot s s' ws l Hw Hb|name b s s' ws l Hb Hno|w name snapshot now stale s s' ws l Hw Hins|w name snapshot now e s s' ws l Hw Hins
    |w name stale s ws l Hw|i s ws l Hsame].
  - by apply apply_inv.
  - destruct Hinv as [Hc Hr]. split.
    + intros name c Hn Hready. eapply (cache_keep name c _ _ _ _ Hc); cbn; eauto; [done|]. intros Hu. left. apply under_way_insert; [right; by rewrite Hw|done].
    + intros w' name snapshot Hb. cbn in *. apply building_insert in Hb; [|done]. destruct (Hr w' name snapshot Hb) as [Hle _]. cbn in *.
      unfold sat_add. split; [lia|]. intros E. lia.
  - by eapply advance_inv.
  - apply (retire_inv w (Counted m) s (set_data i s) ws l (m :: l)); [done|done|done|done| | |done].
    + intros n c Hn _. split; [done|]. cbn. intros m' [= <-] Ht. exists m. split; [left|done].
    + intros n (m' & Hm' & Ht). exists m'. split; [by right|done].
  - destruct (mark_keeps m s) as [Ed Er]. apply (retire_inv w (Persisted m) s (after_persist m s) ws l l); [done|done|by rewrite Ed|done| |done|done].
    intros n c Hn Hready. destruct (mark_effect m s n c Hn Hready) as [Hn' Ht]. split; [done|]. cbn. intros m' [= <-]. congruence.
  - by eapply begin_inv.
  - destruct (begin_effect name s s' b Hb) as (Hs & Hrev & Hcs & _). destruct Hinv as [Hc Hr]. split.
    + intros name' c Hn Hready. eapply (cache_keep name' c _ _ _ _ Hc); cbn; eauto.
    + by eapply rebuild_keep.
  - by eapply install_inv.
  - unfold install in Hins. destruct (build_off_lock native now name snapshot) as [c0|e'] eqn:Eb; [by destruct (_ =? _)%Z|].
    injection Hins as <- <-. by eapply retire_inv.
  - by eapply retire_inv.
  - destruct Hinv as [Hc Hr]. split; [intros name c Hn Hready; by eapply (cache_keep name c _ _ _ _ Hc); cbn; eauto|by eapply rebuild_keep].
Qed.

Lemma reachable_inv i rev y : honest → rtc step (start i rev) y → inv y.
Proof.
  intros Hh Hrun. assert (inv (start i rev)) as H0' by (split; [by intros name c; cbn; rewrite lookup_empty|by intros w name sn; cbn; rewrite lookup_empty]).
  revert H0'. induction Hrun as [y|y z y' Hyz Hrun IH]; [done|]. intros Hinv. apply IH. by eapply step_inv.
Qed.

(** No change that concerns the collection is under way or lost. *)
Definition settled name (y : System) : Prop := ¬ under_way name (workers y) ∧ ¬ missed name (lost y).

Lemma ready_current i rev y name c : honest → rtc step (start i rev) y → settled name y →
  collections (shared y) !! name = Some c → is_ready c = true → current name c (data (shared y)).
Proof. intros Hh Hrun [Hu Hm] Hn Hr. destruct (reachable_inv i rev y Hh Hrun) as [Hc _]. by destruct (Hc name c Hn Hr) as [?|[?|?]]. Qed.

(** ** The loop alone *)

(** With no one else rebuilding, one round is enough. *)
Lemma ensure_alone rounds now name s : honest → name ∉ cache_rebuilds s → (∀ c, collections s !! name = Some c → is_ready c = true → current name c (data s)) →
  ∃ s' r, ensure_collection_ready (S rounds) native now name s = (s', Some r) ∧ same_records (data s') (data s) ∧ revision s' = revision s ∧
    name ∉ cache_rebuilds s' ∧
    (r = Ok tt → ∃ c, collections s' !! name = Some c ∧ current name c (data s)) ∧
    (∀ config records h c, contents name (data s) = Ok (Some (config, records, h)) → assemble name config records h = Ok c →
       cache_files name c now = Ok tt → r = Ok tt).
Proof.
  intros Hh Hnot Hcur. cbn [ensure_collection_ready]. destruct (begin_rebuild name s) as [s1 b] eqn:Eb.
  destruct (begin_effect name s s1 b Eb) as (Hs & Hrev & _ & Hsn). unfold begin_rebuild in Eb.
  destruct (needs_rebuild name s) eqn:Eneed; cbn [negb] in Eb.
  2: { injection Eb as <- <-. exists s, (Ok tt). split_and!; [done..| |done]. intros _. unfold needs_rebuild in Eneed.
       destruct (collections s !! name) as [c|] eqn:Ec; [|done]. apply negb_false_iff in Eneed. eauto. }
  rewrite bool_decide_eq_false_2 in Eb by done. set (s0 := match collections _ !! name with Some _ => _ | None => _ end) in Eb.
  assert (cache_rebuilds s0 = {[name]} ∪ cache_rebuilds s) as E0 by (unfold s0; by destruct (collections _ !! name)).
  assert (data s0 = data s) as D0 by (unfold s0; by destruct (collections _ !! name)).
  assert ((records_and_source_hash name s0).2 = match contents name (data s) with Ok (Some x) => Ok x | Ok None =>
    Err (Message (kind_name +:+ " collection `" +:+ name +:+ "` does not exist")) | Err e => Err e end) as Er.
  { unfold records_and_source_hash, contents. rewrite D0. by destruct (collection_records name (data s)) as [? [[?|]|?]]. }
  unfold rebuild_snapshot in Eb. destruct (read_effect name s0) as (_ & _ & R & _ & _).
  destruct (records_and_source_hash name s0) as [s2 r]. cbn [fst snd] in *. destruct r as [[[config records] h]|e]; injection Eb as <- <-.
  2: { exists (set_rebuilds (cache_rebuilds s2 ∖ {[name]}) s2), (Err e). split_and!; [done..|cbn; set_solver|done|].
       intros config records h c Hc. by rewrite Hc in Er. }
  destruct (Hsn _ eq_refl) as [Hfresh _]. unfold install. destruct (build_off_lock native now name _) as [c|e] eqn:Ebuild.
  - cbn [sn_revision]. rewrite Z.eqb_refl. eexists _, (Ok tt). split_and!; [done|exact Hs|exact Hrev|cbn; set_solver| |done].
    intros _. exists c. cbn. rewrite lookup_insert_eq. split; [done|]. eapply current_same; [exact Hs|]. by eapply built_current.
  - eexists _, (Err e). split_and!; [done|exact Hs|exact Hrev|cbn; set_solver|done|].
    intros config' records' h' c Hc Ha Hf. rewrite Hc in Er. injection Er as -> -> ->. unfold build_off_lock in Ebuild. cbn [sn_config sn_records sn_source_hash] in Ebuild.
    destruct (native name config' h'); [done|]. rewrite Ha in Ebuild. cbn in Ebuild. by rewrite Hf in Ebuild.
Qed.
End running.

(** * The two kinds keep the laws *)

Lemma settled_ready `{VectorWireFormat} config l c : vc_dirty c = false → vc_state c = VReady →
  let c' := foldl (settle_item config) c l in vc_dirty c' = false ∧ vc_state c' = VReady.
Proof.
  revert c. induction l as [|p l IH]; intros c Hd Hst; [done|]. cbn [foldl].
  assert (vc_dirty (settle_item config c p) = vc_dirty c ∧ vc_state (settle_item config c p) = vc_state c) as [E1 E2].
  { unfold settle_item. destruct (pv_meta p.2); [|done]. destruct (_ || _); [done|]. destruct (vm_deleted _); [done|].
    by destruct (assemble_complete_vector_item _ _ _). }
  apply IH; congruence.
Qed.

#[global] Instance vector_kind_laws `{VectorWireFormat} : CollectionKindLaws (H := vector_kind).
Proof.
  split.
  - intros name config records h c [= <-]. cbn. unfold assemble_vector_collection_cache.
    destruct (settled_ready config (btree_list (gather_items name records)) (mkVectorCache config ∅ 0 0 VReady false h)) as [-> ->]; done.
  - done.
  - intros c. cbn. by rewrite andb_false_r.
  - cbn. by intros c c' ->.
Qed.

#[global] Instance text_kind_laws `{TextWireFormat, Unicode} : CollectionKindLaws (H := text_kind).
Proof.
  split.
  - intros name config records h c. cbn. unfold assemble_text_collection_cache, from_documents, rebuild_text_index. cbn [tcc_config].
    destruct (validate_text_collection_config config); [|done]. cbn. intros E. apply ok_inj in E. by subst c.
  - done.
  - intros c. cbn. by rewrite andb_false_r.
  - intros c c' E. cbn in *. apply (f_equal (λ c, (tcc_dirty c, tcc_state c))) in E. cbn in E. by injection E as -> ->.
Qed.

(** * Searches of the database *)

Section searches.
Context `{VW : VectorWireFormat, TW : TextWireFormat, Cod : Codec, En : Env, !EnvLaws, Uni : Unicode, Pl : Platform}.

Abbreviation TextShared := (Shared (K := text_kind)).
Abbreviation VectorShared := (Shared (K := vector_kind)).

Definition state_name (st : TextIndexState) : string :=
  match st with TReady => "Ready" | TRebuilding => "Rebuilding" | TStale => "Stale" | TFailed => "Failed" end.

Definition vector_state_name (st : VectorManagerState) : string :=
  match st with
  | VReady => "Ready" | VCatchingUp => "CatchingUp" | VRebuilding => "Rebuilding" | VStale => "Stale" | VFailed => "Failed"
  end.

(** What follows once the collection is ready. *)
Definition once_ready {K : CollectionKind} {A} (ready : Shared * option (result unit)) (name : string) (f : Cache → result A)
    : Shared * option (result A) :=
  match ready with
  | (s, None) => (s, None)
  | (s, Some (Err e)) => (s, Some (Err e))
  | (s, Some (Ok _)) =>
      (s, Some (match collections s !! name with
                | None => Err (Message (kind_name +:+ " collection `" +:+ name +:+ "` is not loaded"))
                | Some c => f c
                end))
  end.

Definition search_vectors rounds native now (name : string) (query : list f32) (spec : VectorSearchSpec) (s : VectorShared)
    : VectorShared * option (result VectorResult) :=
  once_ready (ensure_collection_ready rounds native now name s) name (λ c : Cache (CollectionKind := vector_kind),
    if bool_decide (vs_stale_policy spec = StaleError) && negb (bool_decide (vc_state c = VReady))
    then Err (Message ("vector collection `" +:+ name +:+ "` is " +:+ vector_state_name (vc_state c)))
    else search_vector_collection c query spec).

(** [get_vector]; the entry carries its id. *)
Definition get_vector rounds native now (name id : string) (s : VectorShared) : VectorShared * option (result (option VectorCacheEntry)) :=
  match ensure_collection_ready rounds native now name s with
  | (s, Some (Ok _)) => (s, Some (Ok (collections s !! name ≫= λ c : VectorCollectionCache, vc_entries c !! id)))
  | (s, Some (Err e)) => (s, Some (Err e))
  | (s, None) => (s, None)
  end.

Definition get_text_document rounds native now (name id : string) (s : TextShared) : TextShared * option (result (option TextDocument)) :=
  match ensure_collection_ready rounds native now name s with
  | (s, Some (Ok _)) => (s, Some (Ok (collections s !! name ≫= λ c : TextCollectionCache, documents c !! id)))
  | (s, Some (Err e)) => (s, Some (Err e))
  | (s, None) => (s, None)
  end.

Definition paginated (q : QuerySpec) : bool :=
  bool_decide (is_Some (query_order q)) || bool_decide (is_Some (query_limit q)) || negb (query_offset q =? 0).

Definition execute_text_search rounds native now (source : TextSearchSource) (query : string) (spec : TextSearchSpec) (s : TextShared)
    : TextShared * option (result TextResult) :=
  match source with
  | TSCollection name =>
      once_ready (ensure_collection_ready rounds native now name s) name (λ c : Cache (CollectionKind := text_kind),
        if bool_decide (ts_stale_policy spec = SReject) && (negb (bool_decide (tcc_state c = TReady)) || tcc_dirty c)
        then Err (Message ("text collection `" +:+ name +:+ "` is " +:+ state_name (tcc_state c)))
        else search_text_collection name c query spec)
  | TSGraphQuery p q =>
      if bool_decide (candidate_policy spec = RejectPaginatedQuery) && paginated q
      then (s, Some (Err (Message "query-scoped text search rejects ordered, limited, or offset queries by default; set candidatePolicy to allow_preselected_candidates to rank the preselected candidate set")))
      else
        match query_at (anchor p) (segments p) q (data s) with
        | (i, Err e) => (set_data i s, Some (Err e))
        | (i, Ok entries) =>
            (set_data i s,
             Some (search_text_candidates (SumGraphQuery p) query spec (text_candidates_from_map_entries entries (ts_fields spec))
                     (paginated q) ScopeCandidateSet))
        end
  | TSRecords scan =>
      match collect_locked scan (data s) with
      | (i, Err e) => (set_data i s, Some (Err e))
      | (i, Ok entries) =>
          let r := record_scan_result entries scan in
          (set_data i s,
           Some (search_text_candidates (SumRecords (prefix scan)) query spec
                   (text_candidates_from_record_entries (scan_entries r) (ts_fields spec))
                   (bool_decide (is_Some (limit scan)) || bool_decide (is_Some (cursor scan)) || bool_decide (is_Some (next_cursor r)))
                   ScopeCandidateSet))
      end
  end.
End searches.

(** * The theorems *)


Section served.
Context `{VW : VectorWireFormat, TW : TextWireFormat, Cod : Codec, En : Env, !EnvLaws, Uni : Unicode, Pl : Platform}.

Lemma read_documents_keyed name records : keyed (read_documents name records).1.
Proof.
  unfold read_documents. induction records as [|e records IH] using rev_ind; [intros id d; cbn; by rewrite lookup_empty|].
  rewrite foldl_app. cbn [foldl]. unfold read_document at 1. destruct (text_document_id_from_record_key name (entry_key e)) as [path|]; [|done].
  destruct (text_document_from_record e) as [d|]; [|done]. case_decide; [|done]. cbn [fst]. intros id d'. destruct (decide (id = doc_id d)) as [->|Hne].
  - rewrite lookup_insert_eq. by intros [= <-].
  - rewrite lookup_insert_ne by done. apply IH.
Qed.

Lemma config_valid name i config records h : contents (K := text_kind) name i = Ok (Some (config, records, h)) →
  validate_text_collection_config config = Ok tt.
Proof.
  unfold contents, collection_records, mbind, M_bind. destruct (record_entry_from_inner _ i) as [i1 [[entry|]|e]]; [|done..].
  unfold lift. cbn [config_of text_kind]. destruct (text_collection_config_from_record entry) as [config'|] eqn:E; [|done].
  destruct (collect_locked _ i1) as [i2 [items|]]; [|done]. intros [= <- _ _]. unfold text_collection_config_from_record in E.
  destruct (entry_value entry); try done. destruct (text_config_from_value _); [|done]. cbn in E.
  destruct (validate_text_collection_config _) as [[]|] eqn:Ev; [|done]. cbn in E. apply ok_inj in E. by subst.
Qed.

Lemma search_counts name c c' query spec : set_deleted_count 0 c = set_deleted_count 0 c' →
  search_text_collection name c query spec = search_text_collection name c' query spec.
Proof. intros E. change (search_text_collection name (set_deleted_count 0 c) query spec = search_text_collection name (set_deleted_count 0 c') query spec). by rewrite E. Qed.

(** What a search of the collection with these records gives by the reference. *)
Definition reference_result (name : string) (config : TextCollectionConfig) (records : list RecordEntry) (query : string)
    (spec : TextSearchSpec) : result TextResult :=
  let D := (read_documents name records).1 in
  _ ← validate_text_search_spec spec;
  let r := reference_one_shot_matches (btree_list D).*2 config query spec in
  Ok (mkTextResult (SumCollection name) query r.1 false (size D) r.2 false ScopeCollection).

Lemma assembled_search name config records h c query spec :
  assemble_text_collection_cache name config records h = Ok c → NoDup (tf_name <$> tc_fields config) →
  (∀ id d, (read_documents name records).1 !! id = Some d → (Z.of_nat (dlen config d) < 2 ^ 24)%Z) →
  search_text_collection name c query spec = reference_result name config records query spec.
Proof.
  unfold assemble_text_collection_cache. destruct (from_documents config _ h) as [c0|] eqn:E; [|done]. cbn [mbind result_bind].
  intros Hc Hnd Hlen. apply ok_inj in Hc. subst c. unfold reference_result.
  destruct (validate_text_search_spec spec) as [[]|e] eqn:Ev; [|unfold search_text_collection; by rewrite Ev]. cbn [mbind result_bind].
  etrans; [|apply (collection_page config _ h c0 name query spec E Hnd (read_documents_keyed name records) Hlen Ev)]. by apply search_counts.
Qed.

End served.

(** * A small run *)

Module Notes.
#[local] Existing Instance demo_codec.
#[local] Existing Instance demo_env.
#[local] Existing Instance demo_env_laws.
#[local] Existing Instance Shelf.plain.
#[local] Existing Instance Library.words.
#[local] Existing Instance Library.numbers.

(** Documents with one field; every configuration reads as one. *)
Definition note_value (d : TextDocument) : json := JArray [JString (doc_id d); JString (default "" (doc_fields d !! "body"))].
Definition note (id body : string) : TextDocument := mkDocument id {["body" := body]} ∅.
Definition value_note (j : json) : result TextDocument :=
  match j with JArray [JString id; JString body] => Ok (note id body) | _ => Err (Serde "not a note") end.
Definition config : TextCollectionConfig := mkTextConfig [mkTextField "body" f32_one true true] analyzer_default default_k1 default_b ∅.

#[local] Instance plain_text : TextWireFormat := {|
  text_config_to_value := λ _, Ok JNull;
  text_config_from_value := λ _, Ok config;
  document_to_value := λ d, Ok (note_value d);
  document_from_value := value_note;
  text_config_to_vec := λ _, Ok [];
  text_config_from_slice := λ _, Ok config;
  documents_to_vec := λ _, Ok [];
  documents_from_slice := λ _, Ok ∅;
  terms_to_vec := λ _, Ok [];
  terms_from_slice := λ _, Ok ∅;
  postings_to_vec := λ _, Ok [];
  postings_from_slice := λ _, Ok ∅;
  stable_json_hash := λ _, Ok "h"
|}.

Definition made : Inner := (create_text_collection "notes" config demo_db).1.
Definition one : Inner := (put_text_document "notes" (note "a" "a fox") made).1.
Definition two : Inner := (put_text_document "notes" (note "b" "the hen") one).1.

Definition no_files : string → TextCollectionConfig → string → option TextCollectionCache := λ _ _ _, None.

Lemma no_files_honest : honest (K := text_kind) no_files.
Proof. intros i name config records h c _ E. done. Qed.

Abbreviation Contents := (result (option (TextCollectionConfig * list RecordEntry * string))).

Definition records_in (r : Contents) : list RecordEntry := match r with Ok (Some (_, l, _)) => l | _ => [] end.
Definition hash_in (r : Contents) : string := match r with Ok (Some (_, _, h)) => h | _ => "" end.
Definition configured (r : Contents) : bool := match r with Ok (Some (c, _, _)) => bool_decide (c = config) | _ => false end.

Lemma configured_shape r : configured r = true → r = Ok (Some (config, records_in r, hash_in r)).
Proof. destruct r as [[[[c l] h]|]|]; try done. cbn. by intros ->%bool_decide_eq_true. Qed.

Definition got_records : list RecordEntry := records_in (contents (K := text_kind) "notes" two).
Definition got_hash : string := hash_in (contents (K := text_kind) "notes" two).

(** A snapshot with the two notes is loaded, and its change runs to the end. *)
Definition after_load (j : Inner) : System (K := text_kind) :=
  mkSystem (after_persist impact_full_refresh (bump_revision (mkShared j 0 ∅ ∅))) ∅ [].

Lemma load_run i j : rtc (step (K := text_kind) no_files) (start i 0) (after_load j).
Proof.
  eapply rtc_l; [apply (apply_step (K := text_kind) no_files 0 impact_full_refresh j); [done|by right]|].
  eapply rtc_l; [eapply count_step; [by rewrite lookup_insert_eq|done]|]. rewrite insert_insert_eq.
  eapply rtc_l; [eapply (persist_step (K := text_kind) no_files 0 impact_full_refresh j); [by rewrite lookup_insert_eq|done]|]. rewrite insert_insert_eq.
  eapply rtc_l; [eapply mark_step; by rewrite lookup_insert_eq|]. rewrite delete_insert_eq, delete_empty. apply rtc_refl.
Qed.

Lemma after_load_data j : data (shared (after_load j)) = j.
Proof. done. Qed.

Definition loaded : System (K := text_kind) := after_load two.

Lemma loaded_settled : settled "notes" loaded.
Proof. split; [intros (w & x & m & E & _); cbn in E; by rewrite lookup_empty in E|intros (m & E & _); by apply not_elem_of_nil in E]. Qed.

(** A rebuild from there that runs to the end. *)
Definition rebuilds (s : Shared (K := text_kind)) : bool :=
  match begin_rebuild "notes" s with
  | (s, Rebuild sn) =>
      (revision s =? sn_revision sn)%Z &&
      match build_off_lock (K := text_kind) no_files "now" "notes" sn with Ok c => is_ready (CollectionKind := text_kind) c | Err _ => false end
  | _ => false
  end.

Lemma rebuilt_run j : rebuilds (shared (after_load j)) = true →
  ∃ y c, rtc (step (K := text_kind) no_files) (start demo_db 0) y ∧ settled "notes" y ∧
    collections (shared y) !! "notes" = Some c ∧ is_ready c = true.
Proof.
  unfold rebuilds. set (s := shared (after_load j)). destruct (begin_rebuild "notes" s) as [s' b] eqn:Eb. destruct b as [| | |sn]; try done.
  intros [Erev E]%andb_prop. destruct (build_off_lock (K := text_kind) no_files "now" "notes" sn) as [c|] eqn:Ec; [|done].
  eexists _, c. split_and!; [| | |exact E].
  - etrans; [apply (load_run demo_db j)|]. eapply rtc_l; [apply (begin_step (K := text_kind) no_files 0 "notes" sn s s' ∅ []); done|].
    eapply rtc_l; [eapply (install_step _ 0 "notes" sn "now" false); [by rewrite lookup_insert_eq|unfold install; rewrite Ec, Erev; done]|].
    apply rtc_once. eapply finish_step. by rewrite lookup_insert_eq.
  - split; [|intros (m & Hm & _); by apply not_elem_of_nil in Hm]. intros (w & x & m & Hw & _). cbn in Hw.
    rewrite insert_insert_eq, delete_insert_eq, delete_empty in Hw. by rewrite lookup_empty in Hw.
  - cbn. by rewrite lookup_insert_eq.
Qed.


Definition any_page : TextSearchSpec := mkTextSpec None None None false false false true SReject None RejectPaginatedQuery.


Lemma served_fox : match reference_result "notes" config got_records "Fox" any_page with
  | Ok r => tm_id <$> tr_matches r = ["a"] ∧ searched_count r = 2 | Err _ => False end.
Proof. vm_compute. done. Qed.

(** A change whose persistence fails returns before any cache is marked: the new note is
among the records, and the ready cache never shows it. *)
Lemma failed_persist_hides_change :
  let before := (ensure_collection_ready (K := text_kind) 1 no_files "now" "notes" (mkShared one 0 ∅ ∅)).1 in
  let after := bump_revision (set_data two before) in
  bool_decide (is_Some (text_document_id_from_record_key "notes" (text_document_key "notes" "b"))) = true ∧
  match (get_record (text_document_key "notes" "b") two).2 with Ok (Some _) => true | _ => false end = true ∧
  match (get_text_document 1 no_files "now" "notes" "b" after).2 with Some (Ok None) => true | _ => false end = true ∧
  match (get_text_document 1 no_files "now" "notes" "b" (after_persist impact_full_refresh after)).2 with
  | Some (Ok (Some _)) => true | _ => false end = true.
Proof. split_and!; by vm_compute. Qed.
End Notes.
