(* ===== verification/Hub.v ===== *)
(** The in-memory hub ([InMemoryRouteHub] of [src/src/transport.rs]): a relay whose
sessions hold unbounded channels, and what two routers exchange through it.

A channel is a number, given out in order; its queue is gone once the receiver is
dropped, and sending to it then does nothing, as the source ignores the error. *)
From stdpp Require Import base gmap sets list strings sorting.
From Stdlib Require Import ZArith Lia.
From S2P Require Import Prelude Clock Value Crdt Merge OpQueue RelIndex Paths Records Keys Engine Segment Input Inner Read View Query Traversal InnerWf Tx Db SessionAuth Protocol Router Relay.

Section hub.
Context `{RouteEnv}.

Record InMemoryRouteHub := mkHub {
  next_session_id : Z;
  relay : RouteRelayCore Z;
  next_channel : Z;
  queues : gmap Z (list RouteEnvelope)
}.

Record InMemoryRouteSession := mkHubSession { session_id : Z; receiver : Z }.

Definition hub_new : InMemoryRouteHub := mkHub 0 (relay_new "in-memory-relay" 8192) 0 ∅.

Definition connect (h : InMemoryRouteHub) : InMemoryRouteHub * InMemoryRouteSession :=
  let id := sat_add u64_max (next_session_id h) 1 in
  (mkHub id (insert_session (relay h) id (next_channel h)) (next_channel h + 1)
     (<[next_channel h := []]> (queues h)), mkHubSession id (next_channel h)).

Definition session_count (h : InMemoryRouteHub) : nat := size (sessions (relay h)).

Definition peer_count (h : InMemoryRouteHub) : nat := size (peer_index (relay h)).

Definition try_send (qs : gmap Z (list RouteEnvelope)) (e : RouteEnvelope) (c : Z) : gmap Z (list RouteEnvelope) :=
  alter (λ q, q ++ [e]) c qs.

Definition dispatch (h : InMemoryRouteHub) (sid : Z) (f : RouteRelayForward Z) : InMemoryRouteHub :=
  let qs :=
    match bootstrap f, session_handle (relay h) sid with
    | Some b, Some c => try_send (queues h) b c
    | _, _ => queues h
    end in
  mkHub (next_session_id h) (relay h) (next_channel h)
    (match fwd_route f with
     | Some e => foldl (λ qs c, try_send qs e c) qs (recipients f)
     | None => qs
     end).

Definition hub_forward (h : InMemoryRouteHub) (sid : Z) (e : RouteEnvelope) : InMemoryRouteHub :=
  let '(r, f) := forward_route (relay h) sid e in
  dispatch (mkHub (next_session_id h) r (next_channel h) (queues h)) sid f.

Definition hub_disconnect (h : InMemoryRouteHub) (sid : Z) : InMemoryRouteHub :=
  let '(r, f) := disconnect_session (relay h) sid in
  let h := mkHub (next_session_id h) r (next_channel h) (queues h) in
  match f with Some f => dispatch h sid f | None => h end.

Definition send (h : InMemoryRouteHub) (s : InMemoryRouteSession) (e : RouteEnvelope) : InMemoryRouteHub :=
  hub_forward h (session_id s) e.

Definition close (h : InMemoryRouteHub) (s : InMemoryRouteSession) : InMemoryRouteHub :=
  hub_disconnect h (session_id s).

Definition try_recv (h : InMemoryRouteHub) (s : InMemoryRouteSession) : InMemoryRouteHub * option RouteEnvelope :=
  match queues h !! receiver s with
  | Some (e :: q) => (mkHub (next_session_id h) (relay h) (next_channel h) (<[receiver s := q]> (queues h)), Some e)
  | _ => (h, None)
  end.

(** * Routes no cache has met *)

(** Neither the ids nor the contents of some routes, all different, are in two caches
with room for them. *)
Definition unseen (routes content : gmap string Z) (max : nat) (es : list RouteEnvelope) : Prop :=
  NoDup (route_id <$> es) ∧ NoDup (dedupe_key <$> es) ∧
  (∀ e, e ∈ es → routes !! route_id e = None) ∧
  (∀ e, e ∈ es → ∃ k, dedupe_key e = Some k ∧ content !! k = None) ∧
  size routes + length es ≤ max ∧ size content + length es ≤ max.

Lemma unseen_cons routes content max e es now :
  unseen routes content max (e :: es) →
  ∃ k, dedupe_key e = Some k ∧ routes !! route_id e = None ∧ content !! k = None ∧
    unseen (trim_seen_cache (<[route_id e := now]> routes) max) (trim_seen_cache (<[k := now]> content) max) max es.
Proof.
  intros (Hn1 & Hn2 & Hr & Hc & Hs1 & Hs2). destruct (Hc e) as (k & Hk & Hck); [by left|].
  pose proof (Hr e ltac:(by left)) as Hre. exists k. split_and!; [done..|]. simpl in *.
  assert (∀ (m : gmap string Z) i, m !! i = None → size m + S (length es) ≤ max →
    trim_seen_cache (<[i := now]> m) max = <[i := now]> m ∧ size (<[i := now]> m) = S (size m)) as Htrim.
  { intros m i Hi Hm. rewrite map_size_insert_None by done. split; [|done].
    apply trim_small. rewrite map_size_insert_None by done. lia. }
  destruct (Htrim routes _ Hre Hs1) as [-> Hz1], (Htrim content k Hck Hs2) as [-> Hz2].
  apply NoDup_cons in Hn1 as [Hn1 Hn1'], Hn2 as [Hn2 Hn2']. split_and!; [done|done| | |lia|lia].
  - intros e' He'. rewrite lookup_insert_ne; [apply Hr; by right|]. intros E. apply Hn1. rewrite E. by apply list_elem_of_fmap_2.
  - intros e' He'. destruct (Hc e') as (k' & Hk' & Hck'); [by right|]. exists k'. split; [done|].
    rewrite lookup_insert_ne; [done|]. intros ->. apply Hn2. rewrite Hk, <-Hk'. by apply list_elem_of_fmap_2.
Qed.

(** * From one router to another *)

Definition send_all (h : InMemoryRouteHub) (s : InMemoryRouteSession) (es : list RouteEnvelope) : InMemoryRouteHub :=
  foldl (λ h e, send h s e) h es.

(** A session is where routes for a peer go. *)
Definition reaches (h : InMemoryRouteHub) (p : string) (t : InMemoryRouteSession) : Prop :=
  peer_index (relay h) !! p = Some (session_id t) ∧
  handle <$> sessions (relay h) !! session_id t = Some (receiver t).

(** A route addressed to a peer that is not an announcement. *)
Definition addressed (h : InMemoryRouteHub) (p : string) (e : RouteEnvelope) : Prop :=
  target e = ToPeer p ∧ relay_peer_id (relay h) ∉ seen_by e ∧ ∀ q, payload e ≠ Single (IPresence q).

Definition relay_unseen (h : InMemoryRouteHub) (es : list RouteEnvelope) : Prop :=
  unseen (relay_routes (relay h)) (relay_content (relay h)) (relay_max_seen (relay h)) es.

Lemma send_fresh h s t p e es q :
  reaches h p t → session_id s ≠ session_id t → addressed h p e → relay_unseen h (e :: es) →
  queues h !! receiver t = Some q →
  let h' := send h s e in
  reaches h' p t ∧ relay_unseen h' es ∧ relay_peer_id (relay h') = relay_peer_id (relay h) ∧
  queues h' !! receiver t = Some (q ++ [stamped (relay h) e]) ∧
  (∀ c, c ≠ receiver t → queues h' !! c = queues h !! c).
Proof.
  intros [Hp Hh] Hne (Ht & Hsb & Hnp) Hu Hq. destruct (unseen_cons _ _ _ _ _ route_now Hu) as (k & Hk & Hr & Hc & Hu').
  unfold send, hub_forward, forward_route.
  assert (relay_seen (relay h) e = false) as ->
    by (unfold relay_seen; rewrite Hk, Hr, Hc, !bool_decide_eq_false_2; [done|by intros []|done]).
  rewrite Hk. cbv zeta. set (r1 := mkRelay _ _ _ _ _ _ _).
  assert (payload (stamped r1 e) = payload e) as Epay by done.
  assert ((match payload (stamped r1 e) with Single (IPresence p0) => register_presence r1 (session_id s) p0 (stamped r1 e)
           | _ => (r1, None) end) = (r1, None)) as -> by (rewrite Epay; destruct (payload e) as [[]|]; try done; by destruct (Hnp peer)).
  assert (stamped r1 e = stamped (relay h) e) as -> by done. unfold collect_route_recipients. simpl. rewrite Ht, Hp.
  rewrite bool_decide_eq_false_2 by done. rewrite Hh. simpl.
  split_and!; [by split|exact Hu'|done|..]; unfold try_send.
  - by rewrite lookup_alter_eq, Hq.
  - intros c Hc'. by rewrite lookup_alter_ne.
Qed.

Lemma send_all_fresh h s t p es q :
  reaches h p t → session_id s ≠ session_id t → (∀ e, e ∈ es → addressed h p e) → relay_unseen h es →
  queues h !! receiver t = Some q →
  queues (send_all h s es) !! receiver t = Some (q ++ (stamped (relay h) <$> es)) ∧
  (∀ c, c ≠ receiver t → queues (send_all h s es) !! c = queues h !! c).
Proof.
  intros Hr Hne. revert h q Hr. induction es as [|e es IH]; intros h q Hr Ha Hu Hq; [by rewrite app_nil_r|].
  change (send_all h s (e :: es)) with (send_all (send h s e) s es).
  destruct (send_fresh h s t p e es q) as (Hr' & Hu' & Hid & Hq' & Hc'); [done|done|apply Ha; by left|done|done|].
  destruct (IH (send h s e) (q ++ [stamped (relay h) e]) Hr') as [IH1 IH2]; [|done|exact Hq'|].
  { intros e' He'. destruct (Ha e') as (H1 & H2 & H3); [by right|]. split_and!; [done|by rewrite Hid|done]. }
  rewrite IH1, <-app_assoc. simpl. split; [|intros c Hc; by rewrite IH2, Hc'].
  do 3 f_equal. apply list_fmap_ext. intros i e' _. unfold stamped. by rewrite Hid.
Qed.

(** Two caches hold nothing from a sender, and have room for some routes. *)
Record room_for (me : string) (routes content : gmap string Z) (max n : nat) : Prop := {
  room_ids : ∀ i, is_Some (routes !! i) → starts_with i (me +:+ "/route/") = false;
  room_keys : ∀ k, is_Some (content !! k) → starts_with k (me +:+ "::") = false;
  room_routes : size routes + n ≤ max;
  room_content : size content + n ≤ max
}.

(** A sender's router wraps some payloads, one route each, for a peer. *)
Fixpoint wrap_all (r : Router) (p : string) (ps : list RoutePayload) : Router * list RouteEnvelope :=
  match ps with
  | [] => (r, [])
  | x :: ps =>
      let '(r, e) := wrap_payload r x (ToPeer p) None in
      let '(r, es) := wrap_all r p ps in
      (r, e :: es)
  end.


Definition route_to (r : Router) (p : string) (n : Z) (x : RoutePayload) : RouteEnvelope :=
  let me := config_peer_id (config r) in
  mkEnvelope (me +:+ "/route/" +:+ hex n) me (default_channel (config r)) (ToPeer p) (default_ttl (config r)) 0
    route_now None (stable_content_hash x) [me] x.

Lemma wrap_all_routes r p ps :
  (next_route_seq r + Z.of_nat (length ps) ≤ u64_max)%Z →
  (wrap_all r p ps).2 = zip_with (route_to r p) (seqZ (next_route_seq r + 1) (Z.of_nat (length ps))) ps.
Proof.
  revert r. induction ps as [|x ps IH]; intros r Hn; [done|]. cbn [wrap_all length] in *. unfold wrap_payload.
  cbv zeta. set (r' := mkRouter _ _ _ _ _ _ _ _). specialize (IH r'). destruct (wrap_all r' p ps) as [r'' es]. simpl in *.
  assert (sat_add u64_max (next_route_seq r) 1 = next_route_seq r + 1)%Z as E by (unfold sat_add; lia).
  rewrite E in *. rewrite (seqZ_cons (next_route_seq r + 1)) by lia. simpl. f_equal.
  rewrite IH by lia. f_equal. f_equal; lia.
Qed.

Lemma fmap_zip_left {A B C D} (g : C → D) (f : A → B → C) (u : A → D) (l : list A) (k : list B) :
  (∀ x y, g (f x y) = u x) → length l = length k → g <$> zip_with f l k = u <$> l.
Proof.
  intros Hg. revert k. induction l as [|x l IH]; intros [|y k] E; try done. simpl in *. f_equal; [apply Hg|]. apply IH. lia.
Qed.

Lemma fmap_zip_right {A B C D} (g : C → D) (f : A → B → C) (u : B → D) (l : list A) (k : list B) :
  (∀ x y, g (f x y) = u y) → length l = length k → g <$> zip_with f l k = u <$> k.
Proof.
  intros Hg. revert k. induction l as [|x l IH]; intros [|y k] E; try done. simpl in *. f_equal; [apply Hg|]. apply IH. lia.
Qed.

Lemma wrap_all_unseen r p ps (routes content : gmap string Z) max :
  (0 ≤ next_route_seq r)%Z → (next_route_seq r + Z.of_nat (length ps) ≤ u64_max)%Z →
  NoDup (stable_content_hash <$> ps) → (∀ x, x ∈ ps → is_Some (stable_content_hash x)) →
  room_for (config_peer_id (config r)) routes content max (length ps) →
  unseen routes content max (wrap_all r p ps).2.
Proof.
  intros H0n Hn Hd Hsome [Hroutes Hcontent Hs1 Hs2]. rewrite wrap_all_routes by done.
  set (ns := seqZ _ _). assert (length ns = length ps) as Hlen by (unfold ns; rewrite length_seqZ; lia).
  assert (∀ e, e ∈ zip_with (route_to r p) ns ps → ∃ n x, n ∈ ns ∧ x ∈ ps ∧ e = route_to r p n x) as Hin.
  { intros e (i & He)%list_elem_of_lookup. apply lookup_zip_with_Some in He as (n & x & -> & Hi & Hx).
    exists n, x. split_and!; [by eapply list_elem_of_lookup_2..|done]. }
  assert (∀ n x, dedupe_key (route_to r p n x) =
    (λ h, config_peer_id (config r) +:+ "::" +:+ h) <$> stable_content_hash x) as Hkey by done.
  split_and!.
  - rewrite (fmap_zip_left _ _ (λ n, config_peer_id (config r) +:+ "/route/" +:+ hex n)) by done.
    apply NoDup_fmap_2_strong; [|apply NoDup_seqZ]. intros n m Hn' Hm E. apply elem_of_seqZ in Hn', Hm.
    do 2 apply str_app_inj_l in E. apply hex_inj in E; [done|unfold in_width; lia..].
  - rewrite (fmap_zip_right _ _ (λ x, (λ h, config_peer_id (config r) +:+ "::" +:+ h) <$> stable_content_hash x)) by done.
    assert (∀ l, (λ x, (λ h, config_peer_id (config r) +:+ "::" +:+ h) <$> stable_content_hash x) <$> l =
      fmap (λ h, config_peer_id (config r) +:+ "::" +:+ h) <$> (stable_content_hash <$> l)) as ->
      by (intros l; by rewrite <-list_fmap_compose).
    apply NoDup_fmap_2_strong; [|done]. intros [a|] [b|] _ _; simpl; try done.
    intros [= E]. do 2 apply str_app_inj_l in E. by subst.
  - intros e (n & x & _ & _ & ->)%Hin. apply eq_None_not_Some. intros Hs%Hroutes.
    apply not_true_iff_false in Hs. apply Hs, starts_with_spec. exists (hex n). simpl. by rewrite str_app_assoc.
  - intros e (n & x & _ & Hx & ->)%Hin. destruct (Hsome x Hx) as [h Hh]. rewrite Hkey, Hh. eexists. split; [done|].
    apply eq_None_not_Some. intros Hs%Hcontent.
    apply not_true_iff_false in Hs. apply Hs, starts_with_spec. exists h. by rewrite str_app_assoc.
  - rewrite length_zip_with. lia.
  - rewrite length_zip_with. lia.
Qed.

Lemma wrap_all_addressed r p ps e :
  (next_route_seq r + Z.of_nat (length ps) ≤ u64_max)%Z → e ∈ (wrap_all r p ps).2 →
  target e = ToPeer p ∧ seen_by e = [config_peer_id (config r)] ∧ payload e ∈ ps.
Proof.
  intros Hn. rewrite wrap_all_routes by done. intros (i & He)%list_elem_of_lookup.
  apply lookup_zip_with_Some in He as (n & x & -> & _ & Hx). split_and!; [done..|]. by eapply list_elem_of_lookup_2.
Qed.

(** The receiving router accepts each route it has not met and that is for it. *)
Lemma accept_all_fresh (rt : Router) es :
  unseen (seen_routes rt) (seen_content rt) (max_seen_routes (config rt)) es →
  (∀ e, e ∈ es → target e = ToPeer (config_peer_id (config rt)) ∧ config_peer_id (config rt) ∉ seen_by e) →
  deliver <$> (accept_all rt es).2 = replicate (length es) true.
Proof.
  revert rt. induction es as [|e es IH]; intros rt Hu Ha; [done|].
  destruct (unseen_cons _ _ _ _ _ route_now Hu) as (k & Hk & Hr & Hc & Hu'), (Ha e) as [Ht Hs]; [by left|].
  cbn [accept_all]. unfold accept, already_seen, matches_target.
  rewrite Hk, Hr, Hc, !bool_decide_eq_false_2, Ht by (done || by intros []). cbn [orb]. cbv zeta.
  set (rt' := mkRouter _ _ _ _ _ _ _ _). specialize (IH rt'). destruct (accept_all rt' es) as [r'' ds]. simpl in *.
  rewrite bool_decide_eq_true_2 by done. f_equal. apply IH; [done|]. intros e' He'. apply Ha. by right.
Qed.

(** The relay's stamp changes neither id nor content key of a route that has a hash. *)
Lemma stamped_unseen (r : RouteRelayCore Z) routes content max es :
  unseen routes content max es → unseen routes content max (stamped r <$> es).
Proof.
  intros (H1 & H2 & H3 & H4 & H5 & H6).
  assert (∀ e, e ∈ es → dedupe_key (stamped r e) = dedupe_key e) as Hkey.
  { intros e He. destruct (H4 e He) as (k & Hk & _). unfold dedupe_key, stamped in *. simpl. by destruct (content_hash e). }
  assert (dedupe_key <$> (stamped r <$> es) = dedupe_key <$> es) as E.
  { rewrite <-list_fmap_compose. apply list_fmap_ext. intros i e He. simpl. apply Hkey. by eapply list_elem_of_lookup_2. }
  split_and!; rewrite ?E, ?length_fmap; try done.
  - by rewrite <-list_fmap_compose.
  - intros e' (e & -> & He)%list_elem_of_fmap. by apply (H3 e).
  - intros e' (e & -> & He)%list_elem_of_fmap. rewrite Hkey by done. by apply H4.
Qed.

End hub.

(** * Two peers at a hub *)

Module Meeting.
Import Sample.

Definition announce_a : Router * RouteEnvelope := presence a "ra" "websocket" [] [].
Definition announce_b : Router * RouteEnvelope := presence b "rb" "websocket" [] [].

(** Both connect and announce themselves. *)
Definition s1 : InMemoryRouteSession := (connect hub_new).2.
Definition s2 : InMemoryRouteSession := (connect (connect hub_new).1).2.
Definition met : InMemoryRouteHub :=
  send (send (connect (connect hub_new).1).1 s1 announce_a.2) s2 announce_b.2.

Definition payloads : list RoutePayload := [Single (ISync "one" JNull); Single (ISnapshotRequest None)].

Lemma room_small me (routes content : gmap string Z) max n :
  forallb (λ e, negb (starts_with e.1 (me +:+ "/route/"))) (map_to_list routes) &&
  forallb (λ e, negb (starts_with e.1 (me +:+ "::"))) (map_to_list content) &&
  (size routes + n <=? max) && (size content + n <=? max) = true → room_for me routes content max n.
Proof.
  rewrite !andb_true_iff, !forallb_forall, !Nat.leb_le. intros [[[Hr Hc] H1] H2]. split; [| |done|done].
  - intros i [v Hv]. apply negb_true_iff, (Hr (i, v)). by apply list_elem_of_In, elem_of_map_to_list.
  - intros k [v Hv]. apply negb_true_iff, (Hc (k, v)). by apply list_elem_of_In, elem_of_map_to_list.
Qed.

(** A second router of the first peer, and what the other's queue holds by then. *)
Definition sender : Router := router_new (mkRouterConfig "a2" "primadb-sync" 6 4).
Definition waiting : list RouteEnvelope := default [] (queues met !! receiver s2).


(** The client builds its announcement once and sends it again after each reconnection
([src/src/native_sync.rs], the task of [connect_with_session_auth]).  The relay, which
told everyone it left, drops the second announcement as already seen: the session is
connected, and routes to the peer reach nobody. *)
Definition left : InMemoryRouteHub := close met s1.
Definition back : InMemoryRouteHub := (connect left).1.
Definition s3 : InMemoryRouteSession := (connect left).2.
Definition announced_again : InMemoryRouteHub := send back s3 announce_a.2.
Definition to_a : RouteEnvelope := (wrap_sync announce_b.1 "op" JNull (ToPeer "a")).2.

Lemma reconnected_peer_unreachable :
  session_handle (relay announced_again) (session_id s3) = Some (receiver s3) ∧
  peer_index (relay announced_again) !! "a" = None ∧
  recipients (forward_route (relay met) (session_id s2) to_a).2 = [receiver s1] ∧
  recipients (forward_route (relay announced_again) (session_id s2) to_a).2 = [].
Proof. vm_compute. done. Qed.

(** Two sessions announce one peer id; when the first leaves, the second is no longer
found under it. *)
Definition twice : InMemoryRouteHub :=
  send (connect met).1 (connect met).2 (presence announce_a.1 "ra" "websocket" ["x"] []).2.

Lemma shared_peer_id_lost :
  peer_index (relay twice) !! "a" = Some (session_id (connect met).2) ∧
  peer_index (relay (close twice s1)) !! "a" = None ∧
  (λ p, peer_id (pr_peer p)) <$> (sessions (relay (close twice s1)) !! session_id (connect met).2 ≫= session_presence) = Some "a".
Proof. vm_compute. done. Qed.

(** A watch request carries no hash so that it can be repeated; the relay adds one, and
the second request is refused where it arrives, while without the relay it is not. *)
Definition watch : WatchRequest := mkWatchRequest "w" WCancel.
Definition ask1 : Router * RouteEnvelope := wrap_watch_request a watch (ToPeer "b") None.
Definition ask2 : Router * RouteEnvelope := wrap_watch_request ask1.1 watch (ToPeer "b") None.

Lemma relay_hashes_watch :
  deliver <$> (accept_all b [ask1.2; ask2.2]).2 = [true; true] ∧
  deliver <$> (accept_all b (stamped (relay met) <$> [ask1.2; ask2.2])).2 = [true; false].
Proof. vm_compute. done. Qed.
End Meeting.
