(* ===== verification/Overlay.v ===== *)
(** The overlay ([src/src/overlay.rs]): one session over several underlays, the choice of
the underlay a route takes, the reception of application messages, and streams cut into
frames.

An underlay's closures act on a world that is a parameter, as are the texts of JSON
values and of stream frames. *)
From stdpp Require Import base gmap sets list strings sorting.
From Stdlib Require Import ZArith Lia.
From S2P Require Import Prelude Clock Value Crdt Merge OpQueue RelIndex Paths Records Keys Engine Segment Input Inner Read View Query Traversal InnerWf Tx Db SessionAuth Protocol Router AppRoute Relay Hub.

(** * Underlays *)

Inductive RouteOverlaySendMode := FirstSuccess | FanOut.
#[global] Instance RouteOverlaySendMode_eq_dec : EqDecision RouteOverlaySendMode.
Proof. solve_decision. Defined.
#[global] Instance RouteTransportKind_eq_dec : EqDecision RouteTransportKind.
Proof. solve_decision. Defined.

Record RouteOverlayPolicy := mkOverlayPolicy {
  preferred_transports : list RouteTransportKind;
  send_mode : RouteOverlaySendMode;
  direct_first : bool;
  allow_direct : bool;
  allow_relay : bool;
  require_direct : bool
}.

Definition overlay_policy_default : RouteOverlayPolicy :=
  mkOverlayPolicy [WebRtc; Moq; WebSocket; BroadcastChannel; InMemory] FirstSuccess true true true false.

Record RouteOverlayUnderlayInfo := mkUnderlayInfo {
  u_id : string;
  u_transport : RouteTransportKind;
  u_direct : bool;
  u_relay_routed : bool;
  u_connected : bool;
  u_priority : Z;
  u_metadata : gmap string string
}.

Definition default_info (id : string) (t : RouteTransportKind) (direct relay_routed : bool) : RouteOverlayUnderlayInfo :=
  mkUnderlayInfo id t direct relay_routed true 0 ∅.

(** * Frames of a stream *)

Inductive ApplicationStreamFrameKind := FOpen | FData | FAckFrame | FNack | FClose | FError.

Record ApplicationStreamFrame := mkFrame {
  f_stream : string;
  f_sequence : Z;
  f_kind : ApplicationStreamFrameKind;
  f_namespace : string;
  f_protocol : string;
  f_topic : option string;
  f_chunk : option string;
  f_final : bool;
  f_ack : option Z;
  f_error : option string;
  f_metadata : gmap string json
}.

Record ApplicationStreamEvent := mkStreamEvent {
  s_stream : string;
  s_from : string;
  s_transport : RouteTransportKind;
  s_namespace : string;
  s_protocol : string;
  s_topic : option string;
  s_body : json;
  s_metadata : gmap string json
}.

Record ApplicationStreamSendOptions := mkStreamOptions {
  o_namespace : string;
  o_protocol : string;
  o_topic : option string;
  o_body : json;
  o_metadata : gmap string json;
  o_target : RouteTarget;
  o_max_chunk_chars : nat
}.

Record ApplicationStreamBuffer := mkBuffer {
  b_from : string;
  b_transport : RouteTransportKind;
  b_namespace : string;
  b_protocol : string;
  b_topic : option string;
  b_metadata : gmap string json;
  b_chunks : gmap Z string;
  b_final : option Z
}.

Abbreviation Assembler := (gmap string ApplicationStreamBuffer).

Definition APPLICATION_STREAM_NAMESPACE : string := "primadb.applicationStream".
Definition APPLICATION_STREAM_PROTOCOL_V1 : string := "primadb.applicationStream.v1".

(** Pieces of at most [max] characters; the text of a body is not empty, and an empty one
would be one empty piece. *)
Fixpoint chunk_chars (cs : list string) (max : nat) (current : list string) : list string :=
  match cs with
  | [] => match current with [] => [] | _ => [Prelude.join "" current] end
  | c :: cs =>
      let current := current ++ [c] in
      if max <=? length current then Prelude.join "" current :: chunk_chars cs max [] else chunk_chars cs max current
  end.

Definition chunk_string (s : string) (max : nat) : list string :=
  if decide (s = "") then [""] else chunk_chars (chars s) max [].

Class StreamCodec := {
  body_text : json → result string;
  text_body : string → option json;
  stream_to_value : ApplicationStreamFrame → result json;
  stream_from_value : json → option ApplicationStreamFrame
}.

(** What serde documents: what was printed parses to the same value. *)
Class StreamLaws `{StreamCodec} := {
  body_roundtrip : ∀ j t, body_text j = Ok t → text_body t = Some j;
  frame_parses : ∀ f j, stream_to_value f = Ok j → stream_from_value j = Some f
}.

Section assembler.
Context `{StreamCodec}.

Definition event_buffer (e : ApplicationRouteEvent) (f : ApplicationStreamFrame) : ApplicationStreamBuffer :=
  mkBuffer (app_from e) (app_transport e) (f_namespace f) (f_protocol f) (f_topic f) (f_metadata f) ∅ None.

(** The chunks from [seq] to [final]; a missing one ends the loop, and there are no more
than the map holds. *)
Fixpoint join_chunks (fuel : nat) (chunks : gmap Z string) (seq final : Z) : option string :=
  if (final <? seq)%Z then Some ""
  else
    match fuel with
    | O => None
    | S fuel =>
        match chunks !! seq with
        | None => None
        | Some c => (λ t, c +:+ t) <$> join_chunks fuel chunks (seq + 1) final
        end
    end.

Definition try_complete (a : Assembler) (id : string) : Assembler * option ApplicationStreamEvent :=
  match a !! id with
  | None => (a, None)
  | Some b =>
      match b_final b ≫= λ n, join_chunks (size (b_chunks b)) (b_chunks b) 1 n ≫= text_body with
      | None => (a, None)
      | Some body =>
          (delete id a, Some (mkStreamEvent id (b_from b) (b_transport b) (b_namespace b) (b_protocol b) (b_topic b) body
                                (b_metadata b)))
      end
  end.

(** [entry(sequence).or_insert(chunk)] and the end of the stream. *)
Definition take_chunk (f : ApplicationStreamFrame) (b : ApplicationStreamBuffer) : ApplicationStreamBuffer :=
  mkBuffer (b_from b) (b_transport b) (b_namespace b) (b_protocol b) (b_topic b) (b_metadata b)
    (match f_chunk f with
     | Some c => match b_chunks b !! f_sequence f with Some _ => b_chunks b | None => <[f_sequence f := c]> (b_chunks b) end
     | None => b_chunks b
     end)
    (if f_final f then Some (f_sequence f) else b_final b).

Definition note_end (f : ApplicationStreamFrame) (b : ApplicationStreamBuffer) : ApplicationStreamBuffer :=
  match b_final b with
  | None =>
      if (0 <? f_sequence f)%Z
      then mkBuffer (b_from b) (b_transport b) (b_namespace b) (b_protocol b) (b_topic b) (b_metadata b) (b_chunks b)
             (Some (sat_sub (f_sequence f) 1))
      else b
  | Some _ => b
  end.

Definition accept_frame (e : ApplicationRouteEvent) (f : ApplicationStreamFrame) (a : Assembler)
    : Assembler * option ApplicationStreamEvent :=
  let id := f_stream f in
  match f_kind f with
  | FOpen => (<[id := event_buffer e f]> a, None)
  | FData => try_complete (<[id := take_chunk f (default (event_buffer e f) (a !! id))]> a) id
  | FClose => try_complete (match a !! id with Some b => <[id := note_end f b]> a | None => a end) id
  | FAckFrame | FNack | FError => (a, None)
  end.

Definition accept_event (e : ApplicationRouteEvent) (a : Assembler) : Assembler * option ApplicationStreamEvent :=
  if bool_decide (app_namespace (app_message e) = APPLICATION_STREAM_NAMESPACE)
     && bool_decide (app_protocol (app_message e) = APPLICATION_STREAM_PROTOCOL_V1)
  then
    match stream_from_value (app_body (app_message e)) with
    | Some f => accept_frame e f a
    | None => (a, None)
    end
  else (a, None).

(** The frames [send_application_stream] sends for a body whose text was cut. *)
Definition open_frame (id : string) (o : ApplicationStreamSendOptions) (chunks : list string) : ApplicationStreamFrame :=
  mkFrame id 0 FOpen (o_namespace o) (o_protocol o) (o_topic o) None (bool_decide (chunks = [])) None None (o_metadata o).

Definition data_frame (id : string) (o : ApplicationStreamSendOptions) (n k : nat) (chunk : string) : ApplicationStreamFrame :=
  mkFrame id (Z.of_nat k + 1) FData (o_namespace o) (o_protocol o) (o_topic o) (Some chunk) (bool_decide (k + 1 = n)) None None
    (o_metadata o).

Definition close_frame (id : string) (o : ApplicationStreamSendOptions) (n : nat) : ApplicationStreamFrame :=
  mkFrame id (Z.of_nat n + 1) FClose (o_namespace o) (o_protocol o) (o_topic o) None true None None (o_metadata o).

Definition stream_frames (id : string) (o : ApplicationStreamSendOptions) (chunks : list string) : list ApplicationStreamFrame :=
  open_frame id o chunks :: imap (data_frame id o (length chunks)) chunks ++ [close_frame id o (length chunks)].

Definition stream_frame_message (f : ApplicationStreamFrame) : result ApplicationRouteMessage :=
  match stream_to_value f with
  | Ok v => Ok (mkApplication APPLICATION_STREAM_NAMESPACE APPLICATION_STREAM_PROTOCOL_V1 (f_topic f) v ∅)
  | Err e => Err e
  end.
End assembler.

(** * The session *)

(** An underlay's closures, on the world they act on. *)
Class Underlays `{Wire} := {
  World : Type;
  Port : Type;
  connected_now : Port → World → bool;
  underlay_send : Port → RouteEnvelope → World → World * result unit;
  drain_routes : Port → World → World * list RouteEnvelope;
  drain_events : Port → World → World * list ApplicationRouteEvent;
  error_message : PrimadbError → string
}.

Section session.
Context `{W : Wire, RE : !RouteEnv, UL : !Underlays, SC : StreamCodec}.

Record RouteOverlayUnderlayHandle := mkHandle { handle_info : RouteOverlayUnderlayInfo; port : Port }.

Definition info (u : RouteOverlayUnderlayHandle) (w : World) : RouteOverlayUnderlayInfo :=
  let i := handle_info u in
  mkUnderlayInfo (u_id i) (u_transport i) (u_direct i) (u_relay_routed i) (connected_now (port u) w) (u_priority i) (u_metadata i).

Record RouteOverlaySession := mkOverlaySession {
  router : Router;
  applications : ApplicationRouteBus;
  policy : RouteOverlayPolicy;
  underlays : gmap string RouteOverlayUnderlayHandle;
  seen_event_ids : gset string;
  streams : Assembler;
  stream_events : list ApplicationStreamEvent
}.

Definition overlay_new (c : RouterConfig) : RouteOverlaySession :=
  mkOverlaySession (router_new c) (bus_new 1024) overlay_policy_default ∅ ∅ ∅ [].

Definition with_router (r : Router) (s : RouteOverlaySession) : RouteOverlaySession :=
  mkOverlaySession r (applications s) (policy s) (underlays s) (seen_event_ids s) (streams s) (stream_events s).

Definition set_policy (p : RouteOverlayPolicy) (s : RouteOverlaySession) : RouteOverlaySession :=
  mkOverlaySession (router s) (applications s) p (underlays s) (seen_event_ids s) (streams s) (stream_events s).

Definition with_underlays (us : gmap string RouteOverlayUnderlayHandle) (s : RouteOverlaySession) : RouteOverlaySession :=
  mkOverlaySession (router s) (applications s) (policy s) us (seen_event_ids s) (streams s) (stream_events s).

Definition add_underlay (u : RouteOverlayUnderlayHandle) (s : RouteOverlaySession) : RouteOverlaySession :=
  with_underlays (<[u_id (handle_info u) := u]> (underlays s)) s.

Definition remove_underlay (id : string) (w : World) (s : RouteOverlaySession) : RouteOverlaySession * option RouteOverlayUnderlayInfo :=
  (with_underlays (delete id (underlays s)) s, (λ u, info u w) <$> underlays s !! id).

Definition subscribe_applications (f : ApplicationRouteFilter) (s : RouteOverlaySession) : RouteOverlaySession * nat :=
  let '(b, c) := AppRoute.subscribe f (applications s) in
  (mkOverlaySession (router s) b (policy s) (underlays s) (seen_event_ids s) (streams s) (stream_events s), c).

(** ** Sending *)

Definition permitted (p : RouteOverlayPolicy) (i : RouteOverlayUnderlayInfo) : bool :=
  u_connected i && (negb (require_direct p) || u_direct i) && (allow_direct p || negb (u_direct i))
  && (allow_relay p || negb (u_relay_routed i)).

Fixpoint position (t : RouteTransportKind) (l : list RouteTransportKind) : option nat :=
  match l with
  | [] => None
  | x :: l => if decide (x = t) then Some 0 else S <$> position t l
  end.

Definition transport_place (p : RouteOverlayPolicy) (i : RouteOverlayUnderlayInfo) : nat :=
  default (length (preferred_transports p) + 16) (position (u_transport i) (preferred_transports p)).

Definition direct_bias (p : RouteOverlayPolicy) (i : RouteOverlayUnderlayInfo) : nat :=
  if direct_first p && u_direct i then 0 else 1.

Definition place_cmp (p : RouteOverlayPolicy) (x y : RouteOverlayUnderlayInfo) : comparison :=
  then_with (Nat.compare (direct_bias p x) (direct_bias p y))
    (then_with (Nat.compare (transport_place p x) (transport_place p y))
       (then_with (cmp (u_priority x) (u_priority y)) (cmp (u_id x) (u_id y)))).

Definition place_le (p : RouteOverlayPolicy) (x y : RouteOverlayUnderlayHandle) : Prop :=
  place_cmp p (handle_info x) (handle_info y) ≠ Gt.
#[global] Instance place_le_dec p : RelDecision (place_le p).
Proof. intros x y. unfold place_le. apply _. Defined.

Definition ordered_underlays (s : RouteOverlaySession) (w : World) : list RouteOverlayUnderlayHandle :=
  merge_sort (place_le (policy s)) (List.filter (λ u, permitted (policy s) (info u w)) (btree_list (underlays s)).*2).

Record RouteOverlayDeliveryAttempt := mkAttempt {
  attempt_underlay : RouteOverlayUnderlayInfo;
  attempted_at_millis : Z;
  success : bool;
  attempt_message : option string
}.

Record RouteOverlaySendReport := mkSendReport {
  report_route : RouteEnvelope;
  attempts : list RouteOverlayDeliveryAttempt;
  delivered_underlay_ids : list string;
  failed_underlay_ids : list string;
  delivered_peer_ids : list string;
  fallback_reason : option string;
  duplicate_suppressed : nat
}.

Fixpoint try_underlays (m : RouteOverlaySendMode) (e : RouteEnvelope) (us : list RouteOverlayUnderlayHandle) (w : World)
    : World * list RouteOverlayDeliveryAttempt :=
  match us with
  | [] => (w, [])
  | u :: us =>
      let i := info u w in
      match underlay_send (port u) e w with
      | (w, Ok _) =>
          let a := mkAttempt i route_now true None in
          if decide (m = FirstSuccess) then (w, [a]) else let '(w, l) := try_underlays m e us w in (w, a :: l)
      | (w, Err err) =>
          let '(w, l) := try_underlays m e us w in (w, mkAttempt i route_now false (Some (error_message err)) :: l)
      end
  end.

Definition ids_where (b : bool) (l : list RouteOverlayDeliveryAttempt) : list string :=
  (λ a, u_id (attempt_underlay a)) <$> List.filter (λ a, Bool.eqb (success a) b) l.

Definition send_report (e : RouteEnvelope) (l : list RouteOverlayDeliveryAttempt) : RouteOverlaySendReport :=
  let delivered := ids_where true l in
  let failed := ids_where false l in
  mkSendReport e l delivered failed
    (match target e with
     | ToPeer p => if bool_decide (delivered = []) then [] else [p]
     | _ => []
     end)
    (if bool_decide (delivered = []) then Some "all attempted route underlays failed"
     else if bool_decide (failed = []) then None
     else Some "one or more preferred underlays failed before a later underlay delivered") 0.

(** [send_route]; [send_route_async] differs in the closure it calls. *)
Definition send_route (e : RouteEnvelope) (s : RouteOverlaySession) (w : World) : World * RouteOverlaySendReport :=
  match ordered_underlays s w with
  | [] => (w, mkSendReport e [] [] [] [] (Some "no connected underlay matched the route overlay policy") 0)
  | us => let '(w, l) := try_underlays (send_mode (policy s)) e us w in (w, send_report e l)
  end.

Definition publish_application (m : ApplicationRouteMessage) (t : RouteTarget) (s : RouteOverlaySession) (w : World)
    : RouteOverlaySession * World * RouteOverlaySendReport :=
  let '(r, e) := wrap_application (router s) m t None in
  let '(w, report) := send_route e s w in
  (with_router r s, w, report).

(** The frames one after the other; one that cannot be printed ends the stream. *)
Fixpoint publish_frames (fs : list ApplicationStreamFrame) (t : RouteTarget) (s : RouteOverlaySession) (w : World)
    : RouteOverlaySession * World * result (list RouteOverlaySendReport) :=
  match fs with
  | [] => (s, w, Ok [])
  | f :: fs =>
      match stream_frame_message f with
      | Err e => (s, w, Err e)
      | Ok m =>
          let '(s, w, report) := publish_application m t s w in
          let '(s, w, r) := publish_frames fs t s w in
          (s, w, match r with Ok l => Ok (report :: l) | Err e => Err e end)
      end
  end.

Definition stream_name (s : RouteOverlaySession) : string :=
  config_peer_id (config (router s)) +:+ "/stream/" +:+ hex route_now.

Definition send_application_stream (o : ApplicationStreamSendOptions) (s : RouteOverlaySession) (w : World)
    : RouteOverlaySession * World * result (string * list RouteOverlaySendReport) :=
  match body_text (o_body o) with
  | Err e => (s, w, Err e)
  | Ok text =>
      let id := stream_name s in
      let '(s, w, r) := publish_frames (stream_frames id o (chunk_string text (max (o_max_chunk_chars o) 1))) (o_target o) s w in
      (s, w, match r with Ok l => Ok (id, l) | Err e => Err e end)
  end.

(** ** Receiving *)

Definition application_event_key (m : ApplicationRouteMessage) : string :=
  app_namespace m +:+ ":" +:+ app_protocol m +:+ ":" +:+ default "" (app_topic m).

(** The event is new: it reaches the streams and the subscribers. *)
Definition admit_event (key : string) (e : ApplicationRouteEvent) (s : RouteOverlaySession) : RouteOverlaySession * bool :=
  if bool_decide (key ∈ seen_event_ids s) then (s, false)
  else
    let '(a, ev) := accept_event e (streams s) in
    (mkOverlaySession (router s) (AppRoute.publish e (applications s)).1 (policy s) (underlays s) ({[ key ]} ∪ seen_event_ids s) a
       (match ev with Some ev => stream_events s ++ [ev] | None => stream_events s end), true).

Definition dispatch_item (i : RouteOverlayUnderlayInfo) (e : RouteEnvelope) (x : RouteBatchItem) (s : RouteOverlaySession)
    : RouteOverlaySession * bool :=
  match x with
  | IApplication m =>
      admit_event (route_id e +:+ ":" +:+ application_event_key m)
        (mkAppEvent (route_id e) (from e) (channel e) (target e) (issued_at_millis e) route_now (u_transport i) None
           (mkContext (from e) (u_transport i) (Some (u_id i)) (u_direct i) (u_relay_routed i) false None AuthUnknown []) m) s
  | _ => (s, false)
  end.

Fixpoint dispatch_items (i : RouteOverlayUnderlayInfo) (e : RouteEnvelope) (xs : list RouteBatchItem) (s : RouteOverlaySession)
    : RouteOverlaySession * bool :=
  match xs with
  | [] => (s, false)
  | x :: xs =>
      let '(s, b) := dispatch_item i e x s in
      let '(s, b') := dispatch_items i e xs s in
      (s, b || b')
  end.

Definition dispatch_payload (i : RouteOverlayUnderlayInfo) (e : RouteEnvelope) (s : RouteOverlaySession) : RouteOverlaySession * bool :=
  match payload e with
  | Single x => dispatch_item i e x s
  | Batch xs => dispatch_items i e xs s
  end.

Definition accept_route_from_underlay (i : RouteOverlayUnderlayInfo) (e : RouteEnvelope) (s : RouteOverlaySession)
    : RouteOverlaySession * bool :=
  let '(r, d) := accept (router s) e in
  let s := with_router r s in
  if duplicate d || negb (deliver d) then (s, false) else dispatch_payload i e s.

Definition accept_application_event_from_underlay (i : RouteOverlayUnderlayInfo) (e : ApplicationRouteEvent)
    (s : RouteOverlaySession) : RouteOverlaySession * bool :=
  let c := app_context e in
  admit_event (app_route_id e +:+ ":" +:+ application_event_key (app_message e))
    (mkAppEvent (app_route_id e) (app_from e) (app_channel e) (app_target e) (app_issued e) (app_received e) (app_transport e)
       (app_identity e)
       (mkContext (source_peer_id c) (context_transport c) (match underlay_id c with None => Some (u_id i) | o => o end) (direct c)
          (relay_routed c) (gateway_routed c) (gateway_peer_id c) (auth_status c)
          (match provenance c with [] => [transport_as_str (u_transport i)] | l => l end))
       (app_message e)) s.

Record RouteOverlayPumpReport := mkPumpReport {
  received_routes : nat;
  delivered_application_routes : nat;
  delivered_stream_events : nat;
  pump_duplicates : nat;
  underlay_ids : list string
}.

(** One received route or event counted. *)
Definition count_received (s : RouteOverlaySession) (taken : bool) (r : RouteOverlayPumpReport) : RouteOverlayPumpReport :=
  if taken
  then mkPumpReport (S (received_routes r)) (S (delivered_application_routes r)) (length (stream_events s)) (pump_duplicates r)
         (underlay_ids r)
  else mkPumpReport (S (received_routes r)) (delivered_application_routes r) (delivered_stream_events r) (S (pump_duplicates r))
         (underlay_ids r).

Definition pump_each {A} (f : A → RouteOverlaySession → RouteOverlaySession * bool) (l : list A)
    (acc : RouteOverlaySession * RouteOverlayPumpReport) : RouteOverlaySession * RouteOverlayPumpReport :=
  foldl (λ acc x, let '(s, b) := f x acc.1 in (s, count_received s b acc.2)) acc l.

Fixpoint pump_underlays (us : list RouteOverlayUnderlayHandle) (acc : RouteOverlaySession * RouteOverlayPumpReport) (w : World)
    : RouteOverlaySession * World * RouteOverlayPumpReport :=
  match us with
  | [] => (acc.1, w, acc.2)
  | u :: us =>
      let i := info u w in
      let '(w, routes) := drain_routes (port u) w in
      let r := acc.2 in
      let r := mkPumpReport (received_routes r) (delivered_application_routes r) (delivered_stream_events r) (pump_duplicates r)
                 (match routes with [] => underlay_ids r | _ => underlay_ids r ++ [u_id i] end) in
      let acc := pump_each (accept_route_from_underlay i) routes (acc.1, r) in
      let '(w, events) := drain_events (port u) w in
      pump_underlays us (pump_each (accept_application_event_from_underlay i) events acc) w
  end.

Definition pump (s : RouteOverlaySession) (w : World) : RouteOverlaySession * World * RouteOverlayPumpReport :=
  pump_underlays (btree_list (underlays s)).*2 (s, mkPumpReport 0 0 0 0 []) w.

Definition drain_stream_events (s : RouteOverlaySession) : RouteOverlaySession * list ApplicationStreamEvent :=
  (mkOverlaySession (router s) (applications s) (policy s) (underlays s) (seen_event_ids s) (streams s) [], stream_events s).
End session.

(** * Streams arrive *)

Lemma join_app_text (l k : list string) : Prelude.join "" (l ++ k) = Prelude.join "" l +:+ Prelude.join "" k.
Proof.
  induction l as [|x l IH]; [done|]. rewrite <-app_comm_cons. destruct l as [|y l].
  - destruct k; simpl; [by rewrite str_app_nil_r|done].
  - cbn [app] in IH |- *. cbn [Prelude.join] in IH |- *. rewrite IH. by rewrite str_app_assoc.
Qed.

Lemma join_cons_text x l : Prelude.join "" (x :: l) = x +:+ Prelude.join "" l.
Proof. change (x :: l) with ([x] ++ l). by rewrite join_app_text. Qed.

Lemma chunk_chars_join cs max cur : Prelude.join "" (chunk_chars cs max cur) = Prelude.join "" (cur ++ cs).
Proof.
  revert cur. induction cs as [|c cs IH]; intros cur; cbn [chunk_chars].
  - rewrite app_nil_r. by destruct cur.
  - destruct (max <=? _); [rewrite join_cons_text|]; rewrite IH; [rewrite app_nil_l, <-join_app_text|]; by rewrite <-app_assoc.
Qed.

Lemma chunk_chars_nil cs max cur : chunk_chars cs max cur = [] → cur ++ cs = [].
Proof.
  revert cur. induction cs as [|c cs IH]; intros cur; cbn [chunk_chars].
  - rewrite app_nil_r. by destruct cur.
  - destruct (max <=? _); [done|]. intros E%IH. by rewrite <-app_assoc in E.
Qed.

Lemma chunk_string_spec s max : Prelude.join "" (chunk_string s max) = s ∧ chunk_string s max ≠ [].
Proof.
  unfold chunk_string. case_decide as E; [by subst|]. rewrite chunk_chars_join. split; [apply concat_chars|].
  intros Hn%chunk_chars_nil. apply E. rewrite <-(concat_chars s). cbn [app] in Hn. by rewrite Hn.
Qed.

Lemma join_chunks_all chunks cs seq fuel :
  (∀ k c, cs !! k = Some c → chunks !! (seq + Z.of_nat k)%Z = Some c) → length cs ≤ fuel →
  join_chunks fuel chunks seq (seq + Z.of_nat (length cs) - 1) = Some (Prelude.join "" cs).
Proof.
  revert seq fuel. induction cs as [|c cs IH]; intros seq fuel Hc Hf; cbn [length] in *.
  - destruct fuel; cbn [join_chunks]; by rewrite (proj2 (Z.ltb_lt _ _)) by lia.
  - destruct fuel as [|fuel]; [lia|]. cbn [join_chunks]. rewrite (proj2 (Z.ltb_ge _ _)) by lia.
    pose proof (Hc 0 c eq_refl) as H0. rewrite Z.add_0_r in H0. rewrite H0.
    replace (seq + Z.of_nat (S (length cs)) - 1)%Z with (seq + 1 + Z.of_nat (length cs) - 1)%Z by lia.
    rewrite IH; [by rewrite join_cons_text|intros k x Hk|lia]. rewrite <-(Hc (S k) x Hk). f_equal. lia.
Qed.

Lemma join_chunks_missing fuel chunks seq final z :
  (seq ≤ z ≤ final)%Z → chunks !! z = None → join_chunks fuel chunks seq final = None.
Proof.
  revert seq. induction fuel as [|fuel IH]; intros seq Hz Hm; cbn [join_chunks]; rewrite (proj2 (Z.ltb_ge _ _)) by lia; [done|].
  destruct (decide (z = seq)) as [->|]; [by rewrite Hm|]. destruct (chunks !! seq); [|done]. by rewrite IH by (done || lia).
Qed.

Section streams.
Context `{SL : StreamLaws}.

(** Frames and the events that brought them, in order, with what the assembler emits. *)
Fixpoint accept_frames (l : list (ApplicationRouteEvent * ApplicationStreamFrame)) (a : Assembler)
    : Assembler * list ApplicationStreamEvent :=
  match l with
  | [] => (a, [])
  | (e, f) :: l =>
      let '(a, o) := accept_frame e f a in
      let '(a, os) := accept_frames l a in
      (a, match o with Some x => x :: os | None => os end)
  end.

(** A frame concerns its own stream only. *)
Lemma accept_frame_other e f a id :
  f_stream f ≠ id → (accept_frame e f a).1 !! id = a !! id ∧ ∀ x, (accept_frame e f a).2 = Some x → s_stream x = f_stream f.
Proof.
  intros Hne. assert (∀ a', (try_complete a' (f_stream f)).1 !! id = a' !! id ∧
    ∀ x, (try_complete a' (f_stream f)).2 = Some x → s_stream x = f_stream f) as Hc.
  { intros a'. unfold try_complete. destruct (a' !! f_stream f) as [b|]; [|done].
    destruct (b_final b ≫= _); [|done]. cbn [fst snd]. split; [by rewrite lookup_delete_ne|]. by intros x [= <-]. }
  unfold accept_frame. destruct (f_kind f); cbn [fst snd]; try done.
  - by rewrite lookup_insert_ne.
  - split; [|apply Hc]. rewrite (proj1 (Hc _)). by rewrite lookup_insert_ne.
  - split; [|apply Hc]. rewrite (proj1 (Hc _)). destruct (a !! f_stream f); [by rewrite lookup_insert_ne|done].
Qed.

(** What a frame does to its own stream depends on that stream's buffer only. *)
Lemma accept_frame_local e f a a' :
  a !! f_stream f = a' !! f_stream f →
  (accept_frame e f a).2 = (accept_frame e f a').2 ∧ (accept_frame e f a).1 !! f_stream f = (accept_frame e f a').1 !! f_stream f.
Proof.
  intros E. assert (∀ x y : Assembler, x !! f_stream f = y !! f_stream f →
    (try_complete x (f_stream f)).2 = (try_complete y (f_stream f)).2 ∧
    (try_complete x (f_stream f)).1 !! f_stream f = (try_complete y (f_stream f)).1 !! f_stream f) as Hc.
  { intros x y Exy. unfold try_complete. rewrite Exy. destruct (y !! f_stream f) as [b|] eqn:Ey; [|cbn [fst snd]; split; [done|congruence]].
    destruct (b_final b ≫= _); [|cbn [fst snd]; split; [done|congruence]]. cbn [fst snd]. by rewrite !lookup_delete_eq. }
  unfold accept_frame. rewrite E. destruct (f_kind f); cbn [fst snd]; try done.
  - by rewrite !lookup_insert_eq.
  - apply Hc. by rewrite !lookup_insert_eq.
  - apply Hc. destruct (a' !! f_stream f) eqn:E'; [by rewrite !lookup_insert_eq|congruence].
Qed.

Definition of_stream (id : string) (l : list (ApplicationRouteEvent * ApplicationStreamFrame)) :=
  List.filter (λ p, bool_decide (f_stream p.2 = id)) l.

Definition emitted (id : string) (l : list ApplicationStreamEvent) := List.filter (λ x, bool_decide (s_stream x = id)) l.

(** Streams do not disturb each other. *)
Lemma streams_independent id l a a' :
  a !! id = a' !! id → emitted id (accept_frames l a).2 = emitted id (accept_frames (of_stream id l) a').2.
Proof.
  revert a a'. induction l as [|[e f] l IH]; intros a a' E; [done|].
  change (of_stream id ((e, f) :: l)) with (if bool_decide (f_stream f = id) then (e, f) :: of_stream id l else of_stream id l).
  case_bool_decide as Hf.
  - subst id. destruct (accept_frame_local e f a a' E) as [H1 H2]. cbn [accept_frames].
    destruct (accept_frame e f a) as [b o], (accept_frame e f a') as [b' o']. cbn [fst snd] in *. subst o'.
    specialize (IH b b' H2). destruct (accept_frames l b) as [c os], (accept_frames (of_stream (f_stream f) l) b') as [c' os'].
    cbn [snd] in *.
    destruct o as [x|]; [|done]. cbn [emitted List.filter]. case_bool_decide; [f_equal|]; exact IH.
  - destruct (accept_frame_other e f a id Hf) as [H1 H2]. cbn [accept_frames].
    destruct (accept_frame e f a) as [b o]. cbn [fst snd] in *. rewrite E in H1. specialize (IH b a' H1).
    destruct (accept_frames l b) as [c os]. cbn [snd] in *. destruct o as [x|]; [|done].
    cbn [emitted List.filter]. rewrite bool_decide_eq_false_2; [done|]. rewrite (H2 x eq_refl). done.
Qed.

(** ** One stream *)

Section one_stream.
Context (id : string) (o : ApplicationStreamSendOptions) (cs : list string) (e0 : ApplicationRouteEvent).
Abbreviation n := (length cs).

(** The frames after the first: the data frames and the closing one. *)
Definition frame_at (k : nat) : ApplicationStreamFrame :=
  match cs !! k with Some c => data_frame id o n k c | None => close_frame id o n end.

Lemma frames_listed : stream_frames id o cs = open_frame id o cs :: (frame_at <$> seq 0 (S n)).
Proof.
  unfold stream_frames. f_equal. rewrite seq_S, fmap_app. f_equal.
  - apply list_eq. intros k. rewrite list_lookup_imap, list_lookup_fmap. destruct (cs !! k) as [c|] eqn:E.
    + rewrite lookup_seq_lt by (by eapply lookup_lt_Some). simpl. unfold frame_at. by rewrite E.
    + rewrite lookup_seq_ge; [done|]. by apply lookup_ge_None.
  - simpl. unfold frame_at. by rewrite (proj2 (lookup_ge_None cs n)).
Qed.

(** The buffer while chunks are missing, and after the last one. *)
Definition waiting_for (done : list nat) (b : ApplicationStreamBuffer) : Prop :=
  b = mkBuffer (app_from e0) (app_transport e0) (o_namespace o) (o_protocol o) (o_topic o) (o_metadata o) (b_chunks b) (b_final b) ∧
  (∀ k, k < n → b_chunks b !! (1 + Z.of_nat k)%Z = if decide (k ∈ done) then cs !! k else None) ∧
  b_final b = if decide (n - 1 ∈ done ∨ n ∈ done) then Some (Z.of_nat n) else None.

Definition complete (done : list nat) : Prop := Forall (.∈ done) (seq 0 n).
#[local] Instance complete_dec done : Decision (complete done).
Proof. unfold complete. apply _. Defined.

Lemma complete_iff done : complete done ↔ ∀ k, k < n → k ∈ done.
Proof.
  unfold complete. rewrite Forall_forall. setoid_rewrite elem_of_seq. split; intros Hd k Hk; apply Hd; lia.
Qed.

Lemma incomplete_iff done : ¬ complete done ↔ ∃ k, k < n ∧ k ∉ done.
Proof.
  unfold complete. split.
  - intros (k & Hk & Hd)%not_Forall_Exists%Exists_exists; [|apply _]. apply elem_of_seq in Hk. exists k. split; [lia|done].
  - intros (k & Hk & Hd). rewrite Forall_forall. intros Hf. apply Hd, Hf, elem_of_seq. lia.
Qed.

Definition progress (done : list nat) (buf : option ApplicationStreamBuffer) : Prop :=
  if decide (complete done) then buf = None else ∃ b, buf = Some b ∧ waiting_for done b.

Lemma keys_fit (m : gmap Z string) j : (∀ k, k < j → is_Some (m !! (1 + Z.of_nat k)%Z)) → j ≤ size m.
Proof.
  intros Hm. set (l := (λ k, (1 + Z.of_nat k)%Z) <$> seq 0 j).
  assert (NoDup l) as Hl by (apply NoDup_fmap_2; [intros x y; lia|apply NoDup_seq]).
  rewrite <-size_dom. transitivity (size (list_to_set l : gset Z)).
  - rewrite size_list_to_set by done. unfold l. rewrite length_fmap, length_seq. done.
  - apply subseteq_size. intros z. rewrite elem_of_list_to_set, elem_of_dom. intros (k & -> & Hk)%list_elem_of_fmap.
    apply elem_of_seq in Hk. apply Hm. lia.
Qed.

Lemma joined_all b done : waiting_for done b → complete done → join_chunks (size (b_chunks b)) (b_chunks b) 1 (Z.of_nat n) = Some (Prelude.join "" cs).
Proof.
  intros (_ & Hc & _) Hd. rewrite complete_iff in Hd. replace (Z.of_nat n) with (1 + Z.of_nat n - 1)%Z by lia. apply join_chunks_all.
  - intros k c Hk. rewrite Hc by (by eapply lookup_lt_Some). rewrite decide_True; [done|]. apply Hd. by eapply lookup_lt_Some.
  - apply keys_fit. intros k Hk. rewrite Hc by done. rewrite decide_True by auto. by apply lookup_lt_is_Some.
Qed.

Lemma still_waiting a b done : a !! id = Some b → waiting_for done b → ¬ complete done → try_complete a id = (a, None).
Proof.
  intros Ha (_ & Hc & Hf) (k & Hk & Hd)%incomplete_iff. unfold try_complete. rewrite Ha, Hf.
  destruct (decide (n - 1 ∈ done ∨ n ∈ done)); [|done]. cbn. rewrite (join_chunks_missing _ _ _ _ (1 + Z.of_nat k)); [done|lia|].
  rewrite Hc by done. by rewrite decide_False.
Qed.

Definition whole (body : json) : ApplicationStreamEvent :=
  mkStreamEvent id (app_from e0) (app_transport e0) (o_namespace o) (o_protocol o) (o_topic o) body (o_metadata o).

Lemma last_chunk a b done body :
  a !! id = Some b → waiting_for done b → complete done → cs ≠ [] → text_body (Prelude.join "" cs) = Some body →
  try_complete a id = (delete id a, Some (whole body)).
Proof.
  intros Ha Hw Hd Hn Ht. unfold try_complete. rewrite Ha. pose proof Hw as (Hb & _ & Hf).
  assert (n - 1 ∈ done) as Hlast. { rewrite complete_iff in Hd. apply Hd. destruct cs; [done|simpl; lia]. }
  rewrite decide_True in Hf by auto. rewrite Hf. cbn. rewrite (joined_all b done Hw Hd). cbn. rewrite Ht.
  rewrite Hb. done.
Qed.

Lemma data_waiting k c done b :
  cs !! k = Some c → k ∉ done → waiting_for done b → waiting_for (k :: done) (take_chunk (data_frame id o n k c) b).
Proof.
  intros Hk Hd (Hb & Hc & Hf). assert (k < n) as Hlt by (by eapply lookup_lt_Some). unfold take_chunk. cbn [data_frame f_chunk f_sequence f_final].
  replace (Z.of_nat k + 1)%Z with (1 + Z.of_nat k)%Z by lia. rewrite (Hc k Hlt), decide_False by done. split; [|split].
  - rewrite Hb. done.
  - intros j Hj. cbn [b_chunks]. destruct (decide (j = k)) as [->|Hne].
    + rewrite lookup_insert_eq, decide_True by (by left). done.
    + rewrite lookup_insert_ne by lia. rewrite Hc by done. apply decide_ext. set_solver.
  - cbn [b_final]. rewrite Hf. case_bool_decide as E.
    + rewrite decide_True; [f_equal; lia|]. left. replace (n - 1) with k by lia. by left.
    + apply decide_ext. rewrite !elem_of_cons. assert (n - 1 ≠ k ∧ n ≠ k) as [? ?] by lia. naive_solver.
Qed.

Lemma close_waiting done b : waiting_for done b → waiting_for (n :: done) (note_end (close_frame id o n) b).
Proof.
  intros (Hb & Hc & Hf). assert (waiting_for (n :: done) (mkBuffer (b_from b) (b_transport b) (b_namespace b) (b_protocol b) (b_topic b) (b_metadata b) (b_chunks b)
    (Some (Z.of_nat n)))) as Hw.
  { split; [by rewrite Hb|]. split.
    - intros k Hk. cbn [b_chunks]. rewrite Hc by done. apply decide_ext. rewrite elem_of_cons. split; [auto|intros [->|?]; [lia|done]].
    - cbn [b_final]. rewrite decide_True; [done|]. right. by left. }
  unfold note_end. destruct (b_final b) as [z|] eqn:E.
  - destruct (decide (n - 1 ∈ done ∨ n ∈ done)); [|done]. injection Hf as ->. clear Hb Hc.
    destruct b as [f t ns pr tp me ch fi]. cbn [b_from b_transport b_namespace b_protocol b_topic b_metadata b_chunks b_final] in *.
    subst fi. exact Hw.
  - cbn [close_frame f_sequence]. rewrite (proj2 (Z.ltb_lt _ _)) by lia. unfold sat_sub.
    replace (Z.max _ _) with (Z.of_nat n) by lia. done.
Qed.

Context (body : json) (some_chunk : cs ≠ []) (parses : text_body (Prelude.join "" cs) = Some body).

Lemma frame_at_stream k : f_stream (frame_at k) = id.
Proof. unfold frame_at. by destruct (cs !! k). Qed.

Lemma complete_cons k done : complete (k :: done) → n ≤ k → complete done.
Proof. rewrite !complete_iff. intros Hc Hk j Hj. specialize (Hc j Hj). apply elem_of_cons in Hc as [->|?]; [lia|done]. Qed.

Lemma frame_step e k done a :
  k ≤ n → k ∉ done → progress done (a !! id) →
  progress (k :: done) ((accept_frame e (frame_at k) a).1 !! id) ∧
  (accept_frame e (frame_at k) a).2 = if decide (¬ complete done ∧ complete (k :: done)) then Some (whole body) else None.
Proof.
  intros Hk Hd Hp. unfold frame_at. destruct (cs !! k) as [c|] eqn:E.
  - assert (k < n) as Hlt by (by eapply lookup_lt_Some). unfold progress in Hp.
    rewrite decide_False in Hp by (intros Hc; rewrite complete_iff in Hc; by apply Hd, Hc). destruct Hp as (b & Hb & Hw).
    pose proof (data_waiting k c done b E Hd Hw) as Hw'. unfold accept_frame. cbn [data_frame f_kind f_stream]. rewrite Hb. cbn [default].
    set (a' := <[id := _]> a). assert (a' !! id = Some (take_chunk (data_frame id o n k c) b)) as Ha' by apply lookup_insert_eq.
    assert (¬ complete done) as Hnc by (apply incomplete_iff; eauto). unfold progress. destruct (decide (complete (k :: done))) as [Hc|Hc].
    + rewrite (last_chunk a' _ _ body Ha' Hw' Hc some_chunk parses). cbn [fst snd]. rewrite decide_True by done. split; [apply lookup_delete_eq|done].
    + rewrite (still_waiting a' _ _ Ha' Hw' Hc). cbn [fst snd]. rewrite decide_False by naive_solver. split; [|done]. eauto.
  - assert (k = n) as -> by (apply lookup_ge_None in E; lia). unfold accept_frame. cbn [close_frame f_kind f_stream].
    rewrite (decide_False (P := _ ∧ _)) by (intros [H1 H2]; apply H1; by apply (complete_cons n)).
    unfold progress in *. destruct (decide (complete done)) as [Hc|Hc].
    + rewrite Hp. rewrite decide_True. 2:{ rewrite complete_iff in *. intros j Hj. right. by apply Hc. }
      unfold try_complete. rewrite Hp. done.
    + destruct Hp as (b & Hb & Hw). rewrite Hb. set (a' := <[id := _]> a). pose proof (close_waiting done b Hw) as Hw'.
      assert (¬ complete (n :: done)) as Hnc by (intros H'; by apply Hc, (complete_cons n)). rewrite decide_False by done.
      assert (a' !! id = Some (note_end (close_frame id o n) b)) as Ha' by apply lookup_insert_eq.
      rewrite (still_waiting a' _ _ Ha' Hw' Hnc). cbn [fst snd]. split; [|done]. eauto.
Qed.

Lemma frames_run l ks done a :
  l.*2 = frame_at <$> ks → NoDup (ks ++ done) → (∀ k, k ∈ ks → k ≤ n) → progress done (a !! id) →
  (accept_frames l a).2 = if decide (¬ complete done ∧ complete (ks ++ done)) then [whole body] else [].
Proof.
  revert l done a. induction ks as [|k ks IH]; intros l done a El Hn Hle Hp.
  - destruct l; [|done]. rewrite decide_False by naive_solver. done.
  - destruct l as [|[e f] l]; [done|]. rewrite !fmap_cons in El. injection El as -> El. apply NoDup_cons in Hn as [Hk Hn].
    destruct (frame_step e k done a) as [Hp' Ho]; [apply Hle; by left|set_solver|done|]. cbn [accept_frames].
    destruct (accept_frame e (frame_at k) a) as [a' out]. cbn [fst snd] in *.
    specialize (IH l (k :: done) a' El). destruct (accept_frames l a') as [a'' os]. cbn [snd] in *.
    assert (∀ x, x ∈ ks ++ k :: done ↔ x ∈ k :: ks ++ done) as Hin by set_solver.
    rewrite IH; [|apply NoDup_app in Hn as (H1 & H2 & H3); apply NoDup_app; split_and!; [done| |constructor; set_solver]; set_solver
      |intros; apply Hle; by right|done].
    rewrite Ho. assert (complete (ks ++ k :: done) ↔ complete ((k :: ks) ++ done)) as Hcc by (rewrite !complete_iff; set_solver).
    destruct (decide (complete done)) as [Hc|Hc].
    + rewrite !decide_False by (rewrite ?complete_iff in *; set_solver). done.
    + destruct (decide (complete (k :: done))) as [Hc'|Hc'].
      * rewrite decide_True, decide_False, decide_True; [done| |naive_solver|done].
        split; [done|]. rewrite complete_iff in *. set_solver.
      * rewrite decide_False by naive_solver. apply decide_ext. naive_solver.
Qed.

(** All frames after the first, in any order. *)
Lemma stream_run l a :
  l.*2 ≡ₚ (frame_at <$> seq 0 (S n)) → (accept_frames ((e0, open_frame id o cs) :: l) a).2 = [whole body].
Proof.
  intros (ks & El & Hks)%Permutation_map_inv. cbn [accept_frames]. unfold accept_frame at 1. cbn [open_frame f_kind f_stream].
  set (a' := <[id := _]> a).
  assert (NoDup ks) as Hnd by (rewrite <-Hks; apply NoDup_seq).
  assert (∀ k, k ∈ ks ↔ k ≤ n) as Hin by (intros k; rewrite <-Hks, elem_of_seq; lia).
  pose proof (frames_run l ks [] a') as Hr. destruct (accept_frames l a') as [a'' os]. cbn [snd] in *.
  assert (¬ complete []) as Hn0.
  { intros Hc. rewrite complete_iff in Hc. specialize (Hc 0). destruct cs; [done|]. simpl in Hc. specialize (Hc ltac:(lia)). by apply not_elem_of_nil in Hc. }
  rewrite app_nil_r in Hr. rewrite Hr; [|done|done|by intros k ?%Hin|].
  - rewrite decide_True; [done|]. split; [done|]. apply complete_iff. intros k Hk. apply Hin. lia.
  - unfold progress. rewrite decide_False by done. exists (event_buffer e0 (open_frame id o cs)). split; [apply lookup_insert_eq|].
    split; [done|]. split; [intros k _; cbn; by rewrite lookup_empty|]. cbn. done.
Qed.
End one_stream.
End streams.

(** * From session to session *)

Section delivery.
Context `{W : Wire, RE : !RouteEnv, UL : !Underlays, SL : StreamLaws}.

Definition application (m : ApplicationRouteMessage) : RoutePayload := Single (IApplication m).

(** The routes of a stream are those its router wraps, one for each frame. *)
Lemma publish_frames_routes fs p s w s' w' reports :
  publish_frames fs (ToPeer p) s w = (s', w', Ok reports) →
  ∃ ms, Forall2 (λ f m, stream_frame_message f = Ok m) fs ms ∧
    report_route <$> reports = (wrap_all (router s) p (application <$> ms)).2.
Proof.
  revert s w s' w' reports. induction fs as [|f fs IH]; intros s w s' w' reports; cbn [publish_frames].
  - intros [= <- <- <-]. exists []. done.
  - destruct (stream_frame_message f) as [m|err] eqn:Em; [|done]. unfold publish_application.
    destruct (wrap_application (router s) m (ToPeer p) None) as [r e] eqn:Er.
    assert (∀ w1 rep, send_route e s w = (w1, rep) → report_route rep = e) as Hrep.
    { intros w1 rep. unfold send_route. destruct (ordered_underlays s w) as [|u us]; [by intros [= _ <-]|].
      destruct (try_underlays _ _ _ _) as [w2 l]. by intros [= _ <-]. }
    destruct (send_route e s w) as [w1 rep] eqn:Es. specialize (Hrep w1 rep eq_refl).
    destruct (publish_frames fs (ToPeer p) (with_router r s) w1) as [[s2 w2] [l|err]] eqn:Ep; [|done]. intros [= <- <- <-].
    destruct (IH _ _ _ _ _ Ep) as (ms & Hms & El). exists (m :: ms). split; [by constructor|].
    rewrite !fmap_cons, Hrep, El. cbn [wrap_all router with_router]. unfold application at 2. unfold wrap_application in Er.
    rewrite Er. by destruct (wrap_all r p (application <$> ms)).
Qed.

(** Routes that arrive, each over some underlay. *)
Fixpoint receive_routes (l : list (RouteOverlayUnderlayInfo * RouteEnvelope)) (s : RouteOverlaySession) : RouteOverlaySession :=
  match l with
  | [] => s
  | (i, e) :: l => receive_routes l (accept_route_from_underlay i e s).1
  end.

Definition event_of (i : RouteOverlayUnderlayInfo) (e : RouteEnvelope) (m : ApplicationRouteMessage) : ApplicationRouteEvent :=
  mkAppEvent (route_id e) (from e) (channel e) (target e) (issued_at_millis e) route_now (u_transport i) None
    (mkContext (from e) (u_transport i) (Some (u_id i)) (u_direct i) (u_relay_routed i) false None AuthUnknown []) m.

(** A route that carries a frame of a stream. *)
Definition carries (topic : option string) (e : RouteEnvelope) (f : ApplicationStreamFrame) : Prop :=
  ∃ v, payload e = application (mkApplication APPLICATION_STREAM_NAMESPACE APPLICATION_STREAM_PROTOCOL_V1 topic v ∅) ∧
    stream_from_value v = Some f.

Definition stream_key (topic : option string) : string :=
  ":" +:+ APPLICATION_STREAM_NAMESPACE +:+ ":" +:+ APPLICATION_STREAM_PROTOCOL_V1 +:+ ":" +:+ default "" topic.

Lemma admit_frame topic i e f s :
  carries topic e f → route_id e +:+ stream_key topic ∉ seen_event_ids s →
  ∃ ev, app_from ev = from e ∧ app_transport ev = u_transport i ∧
  let s' := (dispatch_payload i e s).1 in let '(a, o) := accept_frame ev f (streams s) in
  router s' = router s ∧ streams s' = a ∧ stream_events s' = stream_events s ++ option_list o ∧
  seen_event_ids s' = {[ route_id e +:+ stream_key topic ]} ∪ seen_event_ids s.
Proof.
  intros (v & Hp & Hv) Hs. unfold dispatch_payload. rewrite Hp. cbn [application dispatch_item].
  exists (event_of i e (mkApplication APPLICATION_STREAM_NAMESPACE APPLICATION_STREAM_PROTOCOL_V1 topic v ∅)). split; [done|]. split; [done|].
  unfold admit_event. rewrite bool_decide_eq_false_2 by exact Hs. unfold accept_event. cbn [app_message app_namespace app_protocol app_body].
  rewrite !bool_decide_eq_true_2 by done. cbn [andb]. rewrite Hv. unfold event_of.
  destruct (accept_frame _ f (streams s)) as [a [x|]]; cbn [fst router streams stream_events seen_event_ids option_list]; rewrite ?app_nil_r; done.
Qed.

Lemma str_app_inj_r s t u : s +:+ u = t +:+ u → s = t.
Proof.
  revert t. induction s as [|c s IH]; intros [|d t] E; [done| | |].
  - apply (f_equal String.length) in E. rewrite !str_length_app in E. simpl in E. lia.
  - apply (f_equal String.length) in E. rewrite !str_length_app in E. simpl in E. lia.
  - change (String c (s +:+ u) = String d (t +:+ u)) in E. injection E as -> E. f_equal. by apply IH.
Qed.

Lemma receive_fresh i e s :
  (∃ k, dedupe_key e = Some k ∧ seen_routes (router s) !! route_id e = None ∧ seen_content (router s) !! k = None) →
  target e = ToPeer (config_peer_id (config (router s))) → config_peer_id (config (router s)) ∉ seen_by e →
  ∃ r, accept_route_from_underlay i e s = dispatch_payload i e (with_router r s) ∧
    config r = config (router s) ∧
    seen_routes r = trim_seen_cache (<[route_id e := route_now]> (seen_routes (router s))) (max_seen_routes (config (router s))) ∧
    ∀ k, dedupe_key e = Some k → seen_content r = trim_seen_cache (<[k := route_now]> (seen_content (router s))) (max_seen_routes (config (router s))).
Proof.
  intros (k & Hk & Hr & Hc) Ht Hs. unfold accept_route_from_underlay, accept, already_seen, matches_target.
  rewrite Hk, Hr, Hc, !bool_decide_eq_false_2, Ht by (done || by intros []). cbn [orb]. cbv zeta.
  rewrite bool_decide_eq_true_2 by done. cbn [duplicate deliver negb orb]. eexists. split; [reflexivity|].
  cbn [config seen_routes seen_content]. split; [done|]. split; [done|]. by intros k' [= <-].
Qed.

(** What a session makes of the routes of a stream: its assembler sees their frames. *)
Lemma receive_run topic me l fs s :
  unseen (seen_routes (router s)) (seen_content (router s)) (max_seen_routes (config (router s))) l.*2 →
  (∀ e, e ∈ l.*2 → target e = ToPeer (config_peer_id (config (router s))) ∧ config_peer_id (config (router s)) ∉ seen_by e ∧ from e = me) →
  Forall2 (carries topic) l.*2 fs →
  (∀ e, e ∈ l.*2 → route_id e +:+ stream_key topic ∉ seen_event_ids s) →
  ∃ evs, length evs = length fs ∧ app_from <$> evs = replicate (length fs) me ∧ app_transport <$> evs = u_transport <$> l.*1 ∧
    stream_events (receive_routes l s) = stream_events s ++ (accept_frames (zip evs fs) (streams s)).2.
Proof.
  revert fs s. induction l as [|[i e] l IH]; intros fs s Hu Ha Hc Hf.
  - inversion Hc. exists []. cbn. by rewrite app_nil_r.
  - rewrite !fmap_cons in *. cbn [fst snd] in *. apply Forall2_cons_inv_l in Hc as (f & fs' & Hcf & Hc & ->).
    destruct (unseen_cons _ _ _ _ _ route_now Hu) as (k & Hk & Hr & Hck & Hu').
    assert (∀ x, x ∈ l.*2 → x ∈ e :: l.*2) as Hl by (intros; by right).
    destruct (Ha e) as (Ht & Hs & Hme); [by left|]. destruct (receive_fresh i e s) as (r & Er & Hcf' & Hsr & Hsc); [eauto..|].
    destruct (admit_frame topic i e f (with_router r s) Hcf) as (ev & Hev & Htr & Hd); [apply Hf; by left|].
    cbn [receive_routes]. rewrite Er. set (s' := (dispatch_payload i e (with_router r s)).1) in *. cbn zeta in Hd.
    destruct (accept_frame ev f (streams (with_router r s))) as [a o] eqn:Eo. destruct Hd as (Hd1 & Hd2 & Hd3 & Hd4).
    destruct (IH fs' s') as (evs & H1 & H2 & H3 & H4).
    + rewrite Hd1. cbn [router with_router]. rewrite Hsr, (Hsc k Hk), Hcf'. exact Hu'.
    + rewrite Hd1. cbn [router with_router]. rewrite Hcf'. intros x Hx. apply Ha, Hl, Hx.
    + done.
    + intros x Hx. rewrite Hd4. rewrite not_elem_of_union, not_elem_of_singleton. split; [|by apply Hf, Hl].
      intros E%str_app_inj_r. destruct Hu as (Hnd & _). rewrite fmap_cons in Hnd. apply NoDup_cons in Hnd as [Hnd _]. apply Hnd.
      rewrite <-E. by apply list_elem_of_fmap_2.
    + exists (ev :: evs). rewrite !fmap_cons. cbn [length replicate fst]. split_and!; [by rewrite H1|by rewrite Hev, Hme, H2|by rewrite Htr, H3|].
      rewrite H4, Hd3, Hd2. cbn [zip_with accept_frames]. cbn [streams with_router] in Eo. rewrite Eo.
      destruct (accept_frames (zip evs fs') a) as [a' os]. cbn [snd]. rewrite <-app_assoc. by destruct o.
Qed.

Lemma Forall2_perm {A B} (R : A → B → Prop) l l' k :
  l ≡ₚ l' → Forall2 R l k → ∃ k', k ≡ₚ k' ∧ Forall2 R l' k'.
Proof.
  intros Hp. revert k. induction Hp as [|x l l' _ IH|x y l|l1 l2 l3 _ IH1 _ IH2]; intros k Hk.
  - inversion Hk. by exists [].
  - apply Forall2_cons_inv_l in Hk as (z & k' & Hz & Hk & ->). destruct (IH k' Hk) as (k2 & H1 & H2). exists (z :: k2). split; [by rewrite H1|by constructor].
  - apply Forall2_cons_inv_l in Hk as (z & k' & Hz & Hk & ->). apply Forall2_cons_inv_l in Hk as (z' & k'' & Hz' & Hk & ->).
    exists (z' :: z :: k''). split; [constructor|by repeat constructor].
  - destruct (IH1 k Hk) as (k2 & H1 & H2). destruct (IH2 k2 H2) as (k3 & H3 & H4). exists k3. split; [by rewrite H1|done].
Qed.

Lemma unseen_perm routes content max es es' : es ≡ₚ es' → unseen routes content max es → unseen routes content max es'.
Proof.
  intros Hp (H1 & H2 & H3 & H4 & H5 & H6). unfold unseen. rewrite <-Hp. setoid_rewrite <-Hp. done.
Qed.

Lemma stream_key_spec t : stream_key t = ":" +:+ application_event_key (mkApplication APPLICATION_STREAM_NAMESPACE APPLICATION_STREAM_PROTOCOL_V1 t JNull ∅).
Proof. done. Qed.

Lemma wrapped_carry (r : Router) p topic fs ms :
  (next_route_seq r + Z.of_nat (length ms) ≤ u64_max)%Z → (∀ f, f ∈ fs → f_topic f = topic) →
  Forall2 (λ f m, stream_frame_message f = Ok m) fs ms → Forall2 (carries topic) (wrap_all r p (application <$> ms)).2 fs.
Proof.
  intros Hn Ht Hms. rewrite wrap_all_routes by (by rewrite length_fmap). apply Forall2_same_length_lookup_2.
  - rewrite length_zip_with, length_seqZ, length_fmap. apply Forall2_length in Hms. lia.
  - intros k e f He Hf. apply lookup_zip_with_Some in He as (z & x & -> & _ & Hx). apply list_lookup_fmap_Some in Hx as (m & -> & Hm).
    pose proof (Forall2_lookup_lr _ _ _ _ _ _ Hms Hf Hm) as Hfm. cbn in Hfm. unfold stream_frame_message in Hfm.
    destruct (stream_to_value f) as [v|] eqn:Ev; [|done]. injection Hfm as <-. exists v.
    rewrite (Ht f) by (by eapply list_elem_of_lookup_2). split; [done|]. by apply frame_parses.
Qed.

Lemma wrap_all_length (r : Router) p ps : length (wrap_all r p ps).2 = length ps.
Proof.
  revert r. induction ps as [|x ps IH]; intros r; [done|]. cbn [wrap_all].
  destruct (wrap_payload r x (ToPeer p) None) as [r' e]. specialize (IH r'). destruct (wrap_all r' p ps). simpl in *. by rewrite IH.
Qed.

Lemma wrap_all_hashes (r : Router) p ps :
  (next_route_seq r + Z.of_nat (length ps) ≤ u64_max)%Z → content_hash <$> (wrap_all r p ps).2 = stable_content_hash <$> ps.
Proof.
  intros Hn. rewrite wrap_all_routes by done. apply fmap_zip_right; [done|]. rewrite length_seqZ. lia.
Qed.

Lemma wrap_all_names (r : Router) p ps e :
  (next_route_seq r + Z.of_nat (length ps) ≤ u64_max)%Z → e ∈ (wrap_all r p ps).2 →
  from e = config_peer_id (config r) ∧ starts_with (route_id e) (config_peer_id (config r) +:+ "/route/") = true.
Proof.
  intros Hn. rewrite wrap_all_routes by done. intros (i & He)%list_elem_of_lookup.
  apply lookup_zip_with_Some in He as (z & x & -> & _ & Hx). split; [done|]. apply starts_with_spec. exists (hex z).
  simpl. by rewrite str_app_assoc.
Qed.

Lemma wrapped_unseen (r : Router) p ps routes content max :
  let es := (wrap_all r p ps).2 in
  (0 ≤ next_route_seq r)%Z → (next_route_seq r + Z.of_nat (length ps) ≤ u64_max)%Z →
  NoDup (content_hash <$> es) → (∀ e, e ∈ es → is_Some (content_hash e)) →
  room_for (config_peer_id (config r)) routes content max (length ps) → unseen routes content max es.
Proof.
  intros es H0 Hn Hnd Hsome Hroom. unfold es in *. rewrite wrap_all_hashes in Hnd by done. apply wrap_all_unseen; [done..| |done].
  intros x Hx. pose proof (list_elem_of_fmap_2 stable_content_hash _ _ Hx) as Hh. rewrite <-(wrap_all_hashes r p) in Hh by done.
  apply list_elem_of_fmap in Hh as (e & -> & He). by apply Hsome.
Qed.

(** C22: A body sent as a stream arrives whole: when the routes of its frames reach a session
over whatever underlays, the opening one first and the others in any order, that session
gains exactly one stream event, with the body, names and metadata that were sent, and
from the sender.  The routes have different hashes, the receiver has met none of the
sender's routes, and its caches have room for them. *)
Theorem stream_delivered o (s : RouteOverlaySession) w s' w' id reports (t : RouteOverlaySession) i0 e0 l :
  let me := config_peer_id (config (router s)) in
  let p := config_peer_id (config (router t)) in
  let es := report_route <$> reports in
  send_application_stream o s w = (s', w', Ok (id, reports)) → o_target o = ToPeer p → p ≠ me →
  (0 ≤ next_route_seq (router s))%Z → (next_route_seq (router s) + Z.of_nat (length es) ≤ u64_max)%Z →
  NoDup (content_hash <$> es) → (∀ e, e ∈ es → is_Some (content_hash e)) →
  room_for me (seen_routes (router t)) (seen_content (router t)) (max_seen_routes (config (router t))) (length es) →
  (∀ x, x ∈ seen_event_ids t → starts_with x (me +:+ "/route/") = false) →
  head es = Some e0 → e0 :: l.*2 ≡ₚ es →
  stream_events (receive_routes ((i0, e0) :: l) t) = stream_events t ++
    [mkStreamEvent id me (u_transport i0) (o_namespace o) (o_protocol o) (o_topic o) (o_body o) (o_metadata o)].
Proof.
  intros me p es. unfold send_application_stream. destruct (body_text (o_body o)) as [text|] eqn:Et; [|done].
  set (cs := chunk_string text _). destruct (chunk_string_spec text (max (o_max_chunk_chars o) 1)) as [Hj Hcs]. fold cs in Hj, Hcs.
  destruct (publish_frames _ _ s w) as [[s1 w1] [reps|]] eqn:Ep; [|done]. intros [= <- <- <- ->] Htg Hpm H0 Hn Hnd Hsome Hroom Hseen Hhd Hperm.
  rewrite Htg in Ep. destruct (publish_frames_routes _ _ _ _ _ _ _ Ep) as (ms & Hms & Ees). fold es in Ees.
  set (id := stream_name s) in *. rewrite frames_listed in Hms.
  assert (length es = length ms) as Hlen by (by rewrite Ees, wrap_all_length, length_fmap).
  rewrite Hlen in Hn, Hroom. set (ps := application <$> ms) in *.
  assert (length ps = length ms) as Hlp by apply length_fmap. rewrite <-Hlp in Hn, Hroom.
  assert (unseen (seen_routes (router t)) (seen_content (router t)) (max_seen_routes (config (router t))) es) as Hu.
  { rewrite Ees in *. by apply wrapped_unseen. }
  assert (∀ e, e ∈ es → target e = ToPeer p ∧ p ∉ seen_by e ∧ from e = me ∧ starts_with (route_id e) (me +:+ "/route/") = true) as Hes.
  { rewrite Ees. intros e He. destruct (wrap_all_addressed _ _ _ _ Hn He) as (H1 & H2 & _), (wrap_all_names _ _ _ _ Hn He) as [H3 H4].
    split_and!; [done| |done|done]. rewrite H2. set_solver. }
  assert (Forall2 (carries (o_topic o)) es (open_frame id o cs :: (frame_at id o cs <$> seq 0 (S (length cs))))) as Hcarry.
  { rewrite Ees. apply wrapped_carry; [by rewrite <-Hlp| |done]. intros f [->|(k & -> & _)%list_elem_of_fmap]%elem_of_cons; [done|].
    unfold frame_at. by destruct (cs !! k). }
  destruct es as [|e es'] eqn:Ex; [done|]. injection Hhd as ->. apply (Permutation_cons_inv (a := e0)) in Hperm.
  apply Forall2_cons_inv_l in Hcarry as (f & fs & Hc0 & Hcarry & [= <- <-]).
  destruct (Forall2_perm _ _ l.*2 _ (symmetry Hperm) Hcarry) as (fs' & Hfs & Hcarry').
  destruct (receive_run (o_topic o) me ((i0, e0) :: l) (open_frame id o cs :: fs') t) as (evs & H1 & H2 & H3 & H4).
  - rewrite fmap_cons. cbn [snd]. eapply unseen_perm; [|exact Hu]. by rewrite Hperm.
  - intros x Hx. rewrite fmap_cons in Hx. cbn [snd] in Hx. rewrite Hperm in Hx. destruct (Hes x Hx) as (? & ? & ? & _). done.
  - rewrite fmap_cons. by constructor.
  - intros x Hx Hin. rewrite fmap_cons in Hx. cbn [snd] in Hx. rewrite Hperm in Hx. destruct (Hes x Hx) as (_ & _ & _ & Hst).
    apply Hseen in Hin. apply starts_with_spec in Hst as [u Hu']. apply not_true_iff_false in Hin. apply Hin, starts_with_spec.
    exists (u +:+ stream_key (o_topic o)). rewrite Hu'. by rewrite str_app_assoc.
  - rewrite H4. f_equal. destruct evs as [|ev evs]; [done|]. rewrite fmap_cons in H2. cbn [length replicate] in H2.
    injection H2 as H2 _. injection H3 as H3 _.
    cbn [zip_with]. rewrite (stream_run id o cs ev (o_body o) Hcs).
    + unfold whole. by rewrite H2, H3.
    + rewrite Hj. by apply body_roundtrip.
    + cbn [length] in H1. injection H1 as H1. change (zip evs fs').*2 with (snd <$> zip evs fs'). rewrite snd_zip by lia. by rewrite Hfs.
Qed.

(** ** The underlay a route takes *)

Definition handle_id (u : RouteOverlayUnderlayHandle) : string := u_id (handle_info u).
Definition attempt_id (a : RouteOverlayDeliveryAttempt) : string := u_id (attempt_underlay a).

Lemma try_underlays_spec m e us w w' l :
  try_underlays m e us w = (w', l) →
  ∃ k, attempt_id <$> l = handle_id <$> take k us ∧
  match m with
  | FanOut => k = length us
  | FirstSuccess =>
      (Forall (λ a, success a = false) l ∧ k = length us) ∨
      ∃ l0 a, l = l0 ++ [a] ∧ success a = true ∧ Forall (λ a, success a = false) l0
  end.
Proof.
  revert w l. induction us as [|u us IH]; intros w l; cbn [try_underlays].
  - intros [= <- <-]. exists 0. destruct m; [|done]. split; [done|]. left. done.
  - destruct (underlay_send (port u) e w) as [w1 [x|err]].
    + destruct m; cbn [decide].
      * rewrite decide_True by done. intros [= <- <-]. exists 1. split; [done|]. right. exists [], (mkAttempt (info u w) route_now true None). done.
      * rewrite decide_False by done. destruct (try_underlays FanOut e us w1) as [w2 l2] eqn:E. intros [= <- <-].
        destruct (IH _ _ E) as (k & Hk & ->). exists (S (length us)). simpl. split; [by f_equal|done].
    + destruct (try_underlays m e us w1) as [w2 l2] eqn:E. intros [= <- <-]. destruct (IH _ _ E) as (k & Hk & Hm). exists (S k).
      split; [simpl; by f_equal|]. destruct m; [|simpl; by f_equal].
      destruct Hm as [[Hf ->]|(l0 & a & -> & Ha & Hf)]; [left; split; [by constructor|done]|right].
      eexists (_ :: l0), a. split; [done|]. split; [done|]. by constructor.
Qed.

Lemma elem_of_ordered s w u :
  u ∈ ordered_underlays s w ↔ (∃ id, underlays s !! id = Some u) ∧ permitted (policy s) (info u w) = true.
Proof.
  unfold ordered_underlays. rewrite merge_sort_Permutation, list_elem_of_In, filter_In, <-list_elem_of_In, list_elem_of_fmap. split.
  - intros [([id v] & -> & Hv%elem_of_btree_list) Hp]. eauto.
  - intros [(id & Hv) Hp]. split; [|done]. exists (id, u). split; [done|]. by apply elem_of_btree_list.
Qed.

(** A route takes permitted underlays only, in the order of preference; with
[FirstSuccess] the attempts end at the first that succeeds. *)
Lemma send_prefers e s w :
  let us := ordered_underlays s w in
  let r := (send_route e s w).2 in
  (∀ u, u ∈ us ↔ (∃ id, underlays s !! id = Some u) ∧ permitted (policy s) (info u w) = true) ∧
  ∃ k, attempt_id <$> attempts r = handle_id <$> take k us ∧
  match send_mode (policy s) with
  | FanOut => k = length us
  | FirstSuccess =>
      (Forall (λ a, success a = false) (attempts r) ∧ k = length us) ∨
      ∃ l0 a, attempts r = l0 ++ [a] ∧ success a = true ∧ Forall (λ a, success a = false) l0
  end.
Proof.
  cbn zeta. split; [intros u; apply elem_of_ordered|]. unfold send_route. destruct (ordered_underlays s w) as [|u us] eqn:E.
  - exists 0. split; [done|]. destruct (send_mode (policy s)); [left; split; [constructor|done]|done].
  - destruct (try_underlays (send_mode (policy s)) e (u :: us) w) as [w' l] eqn:Et. cbn [snd send_report attempts].
    by apply try_underlays_spec in Et.
Qed.
End delivery.

(** * Concrete streams *)

Module Post.
Definition num (n : Z) : json := JNumber (PosInt n).
Definition text_or_null (o : option string) : json := match o with Some s => JString s | None => JNull end.
Definition null_or_text (j : json) : option string := match j with JString s => Some s | _ => None end.

Definition kind_number (k : ApplicationStreamFrameKind) : Z :=
  match k with FOpen => 0 | FData => 1 | FAckFrame => 2 | FNack => 3 | FClose => 4 | FError => 5 end.
Definition number_kind (n : Z) : ApplicationStreamFrameKind :=
  match n with 0 => FOpen | 1 => FData | 2 => FAckFrame | 3 => FNack | 4 => FClose | _ => FError end%Z.

(** Frames without acknowledgement, error or metadata, as arrays; string bodies. *)
#[export] Instance arrays : StreamCodec := {|
  body_text := λ j, match j with JString s => Ok ("=" +:+ s) | _ => Err (Message "not a string") end;
  text_body := λ t, match t with String "=" s => Some (JString s) | _ => None end;
  stream_to_value := λ f,
    if bool_decide (f_metadata f = ∅ ∧ f_ack f = None ∧ f_error f = None)
    then Ok (JArray [JString (f_stream f); num (f_sequence f); num (kind_number (f_kind f)); JString (f_namespace f); JString (f_protocol f);
                     text_or_null (f_topic f); text_or_null (f_chunk f); JBool (f_final f)])
    else Err (Message "not supported");
  stream_from_value := λ j,
    match j with
    | JArray [JString i; JNumber (PosInt n); JNumber (PosInt k); JString ns; JString p; t; c; JBool b] =>
        Some (mkFrame i n (number_kind k) ns p (null_or_text t) (null_or_text c) b None None ∅)
    | _ => None
    end |}.

#[export] Instance arrays_laws : StreamLaws.
Proof.
  split.
  - intros [] t; simpl; try done. by intros [= <-].
  - intros [i n k ns p t c b a e m] j. simpl. case_bool_decide as E; [|done]. destruct E as (-> & -> & ->). intros [= <-]. simpl.
    by destruct k, t, c.
Qed.

#[export] Existing Instance Exchange.unit_wire.

(** An underlay that keeps what it is given; what it holds can be drained elsewhere. *)
#[export] Instance shelf : Underlays := {|
  World := list RouteEnvelope;
  Port := bool;
  connected_now := λ _ _, true;
  underlay_send := λ ok e w, if ok : bool then (w ++ [e], Ok tt) else (w, Err (Message "refused"));
  drain_routes := λ _ w, ([], w);
  drain_events := λ _ w, (w, []);
  error_message := λ _, "refused" |}.

(** The hash of a frame's message is its place in the stream. *)
Definition message_hash (m : ApplicationRouteMessage) : option string :=
  match app_body m with
  | JArray (_ :: JNumber (PosInt n) :: _) => Some (hex n)
  | JString s => Some s
  | _ => None
  end.

#[export] Instance clock : RouteEnv := {|
  route_now := 1000;
  stable_content_hash := λ p,
    match p with
    | Single (IApplication m) => message_hash m
    | Batch l => Some (hex (Z.of_nat (length l)))
    | _ => None
    end |}.

Definition peer (name : string) : RouteOverlaySession := overlay_new (mkRouterConfig name "primadb-sync" 6 16).

Definition broken : RouteOverlayUnderlayHandle := mkHandle (default_info "direct" WebRtc true false) false.
Definition working : RouteOverlayUnderlayHandle := mkHandle (default_info "relay" WebSocket false true) true.

Definition a : RouteOverlaySession := add_underlay working (add_underlay broken (peer "a")).
Definition b : RouteOverlaySession := peer "b".

Definition letter : ApplicationStreamSendOptions := mkStreamOptions "chat" "v1" (Some "general") (JString "hello world") ∅ (ToPeer "b") 5.

Definition posted : list RouteOverlaySendReport :=
  match (send_application_stream letter a []).2 with Ok (_, l) => l | Err _ => [] end.

(** The direct underlay refuses and the relayed one takes the route. *)
Lemma falls_back :
  (delivered_underlay_ids <$> posted) = replicate 5 ["relay"] ∧ (failed_underlay_ids <$> posted) = replicate 5 ["direct"].
Proof. vm_compute. done. Qed.

Definition over_relay (e : RouteEnvelope) : RouteOverlayUnderlayInfo * RouteEnvelope := (info working [], e).

Definition routes : list RouteEnvelope := report_route <$> posted.
Definition opening : RouteEnvelope := nth 0 routes (mkEnvelope "" "" "" Broadcast 0 0 0 None None [] (Batch [])).
Definition later : list (RouteOverlayUnderlayInfo * RouteEnvelope) := over_relay <$> reverse (tail routes).

Lemma stream_delivered_witness :
  length later = 4 ∧
  stream_events (receive_routes (over_relay opening :: later) b) =
    [mkStreamEvent "a/stream/3e8" "a" WebSocket "chat" "v1" (Some "general") (JString "hello world") ∅].
Proof.
  split; [vm_compute; reflexivity|].
  apply (stream_delivered letter a [] (send_application_stream letter a []).1.1 (send_application_stream letter a []).1.2 "a/stream/3e8" posted b
    (info working []) opening later).
  - vm_compute. reflexivity.
  - vm_compute. reflexivity.
  - vm_compute. discriminate.
  - vm_compute. discriminate.
  - vm_compute. discriminate.
  - apply (bool_decide_unpack _). vm_compute. exact I.
  - intros e He. assert (forallb (λ e, match content_hash e with Some _ => true | None => false end) routes = true) as Hf by (vm_compute; reflexivity).
    rewrite forallb_forall in Hf. apply list_elem_of_In, Hf in He. destruct (content_hash e); [eauto|discriminate].
  - apply Meeting.room_small. vm_compute. reflexivity.
  - intros x Hx. cbn in Hx. by apply elem_of_empty in Hx.
  - vm_compute. reflexivity.
  - assert (later.*2 = reverse (tail routes)) as -> by (vm_compute; reflexivity). rewrite reverse_Permutation.
    assert (opening :: tail routes = routes) as -> by (vm_compute; reflexivity). done.
Defined.

(** ** What can go wrong *)

Definition note (s : string) : RouteBatchItem := IApplication (mkApplication "chat" "v1" None (JString s) ∅).

Definition heard (f : ApplicationRouteFilter) (es : list RouteEnvelope) : list json :=
  let '(t, c) := subscribe_applications f b in
  let t := receive_routes (over_relay <$> es) t in
  (λ e, app_body (app_message e)) <$> (AppRoute.drain c (applications t)).2.

(** Two messages of one batch that share namespace, protocol and topic: the second is taken
for a repetition of the first. *)
Lemma batch_repeats_dropped :
  heard (mkFilter None None None) [(wrap_batch (router a) [note "one"; note "two"] (ToPeer "b") None).2] = [JString "one"] ∧
  heard (mkFilter None None None) [(wrap_batch_item (router a) (note "one") (ToPeer "b") None).2;
    (wrap_batch_item (wrap_batch_item (router a) (note "one") (ToPeer "b") None).1 (note "two") (ToPeer "b") None).2] = [JString "one"; JString "two"].
Proof. vm_compute. done. Qed.

(** An opening frame that comes after data discards it, and the stream never completes. *)
Lemma late_open_discards :
  stream_events (receive_routes (over_relay <$> (tail routes ++ [opening])) b) ≠ [] ∧
  let swapped := match routes with r0 :: r1 :: rest => r1 :: r0 :: rest | l => l end in
  stream_events (receive_routes (over_relay <$> swapped) b) = [].
Proof. vm_compute. done. Qed.

(** A frame from another peer is put into a stream it names. *)
Definition event_from (who : string) : ApplicationRouteEvent :=
  mkAppEvent "r" who "c" (ToPeer "b") 0 0 WebSocket None (context_new who WebSocket) (mkApplication "" "" None JNull ∅).

Lemma foreign_frame_accepted :
  (accept_frames [(event_from "a", open_frame "s" letter ["=x"; "y"]); (event_from "mallory", data_frame "s" letter 2 0 "=no");
    (event_from "a", data_frame "s" letter 2 0 "=x"); (event_from "a", data_frame "s" letter 2 1 "y")] ∅).2 =
  [mkStreamEvent "s" "a" WebSocket "chat" "v1" (Some "general") (JString "noy") ∅].
Proof. vm_compute. done. Qed.
End Post.
