(* ===== verification/Session.v ===== *)
(** A peer's session with a relay ([NativeWebSocketSyncState] of
[src/src/native_sync.rs] and its handlers): sending local operations until they are
acknowledged, applying those of others, answering requests, watches on both sides,
authentication of peers.

The routes handed to the socket are the list [outbound], what the subscribers of
watches are given the list [watch_messages].  Serialization, hashes, randomness, the
local user's key and what follows a change of the database ([finalize_change]: writing
back, notifying) are the parameters of [SessionEnv]; each handler runs to its end, as
the locks of the source are not held across its awaits on anything but sends. *)
From stdpp Require Import base gmap sets list strings sorting.
From Stdlib Require Import ZArith Lia.
From S2P Require Import Prelude Clock Value Crdt Merge OpQueue RelIndex Paths Records Keys Engine Input Inner Read View Query Traversal InnerWf Tx Db SessionAuth Protocol Change Scan Router AppRoute Serve Relay.

(** * State *)

Section session.
Context `{Codec, Env, W : !Wire, Sv : !Services, RE : !RouteEnv, Sg : !Signatures}.

Inductive SyncFrame :=
  | FSync (from message_id : string) (ops : list Operation)
  | FAck (from message_id : string) (applied : nat).

Record OutboundSync := mkOutbound { ob_encoding : string; ob_payload : json; ob_target : RouteTarget }.

Record PendingWatchSequence := mkPendingWatch {
  pw_sequence : Z;
  pw_initial : bool;
  pw_accumulator : PullAccumulator
}.

Record OutgoingWatch := mkOutgoing {
  ow_peer : string;
  ow_kind : PullRequestKind;
  ow_pending : option PendingWatchSequence;
  ow_delivered : option Z
}.

Record IncomingWatch := mkIncoming {
  iw_peer : string;
  iw_kind : PullRequestKind;
  iw_interest : option string;
  iw_next : Z;
  iw_hash : option string
}.

Record RemoteWatchMessage := mkWatchMessage { wm_initial : bool; wm_result : RemoteResult }.

Record SyncState := mkSync {
  db : Inner;
  router : Router;
  transport_kind : RouteTransportKind;
  applications : ApplicationRouteBus;
  session_name : string;
  session_auth : SessionAuthConfig;
  connected : bool;
  next_message_seq : Z;
  inflight : gmap string OutboundSync;
  pull_requests : Requests;
  outgoing_watches : gmap string OutgoingWatch;
  incoming_watches : gmap string IncomingWatch;
  recommendations : gmap string PeerRecommendation;
  pending_auth_challenges : gmap string AuthChallenge;
  pending_auth_peers : gmap string PeerPresence;
  verified_identities : gmap string VerifiedIdentity;
  outbound : list RouteEnvelope;
  watch_messages : list (string * (RemoteWatchMessage + string))
}.

Definition set_db (x : Inner) (s : SyncState) : SyncState :=
  mkSync x (router s) (transport_kind s) (applications s) (session_name s) (session_auth s) (connected s)
    (next_message_seq s) (inflight s) (pull_requests s) (outgoing_watches s) (incoming_watches s)
    (recommendations s) (pending_auth_challenges s) (pending_auth_peers s) (verified_identities s)
    (outbound s) (watch_messages s).

Definition set_router (x : Router) (s : SyncState) : SyncState :=
  mkSync (db s) x (transport_kind s) (applications s) (session_name s) (session_auth s) (connected s)
    (next_message_seq s) (inflight s) (pull_requests s) (outgoing_watches s) (incoming_watches s)
    (recommendations s) (pending_auth_challenges s) (pending_auth_peers s) (verified_identities s)
    (outbound s) (watch_messages s).

Definition set_applications (x : ApplicationRouteBus) (s : SyncState) : SyncState :=
  mkSync (db s) (router s) (transport_kind s) x (session_name s) (session_auth s) (connected s)
    (next_message_seq s) (inflight s) (pull_requests s) (outgoing_watches s) (incoming_watches s)
    (recommendations s) (pending_auth_challenges s) (pending_auth_peers s) (verified_identities s)
    (outbound s) (watch_messages s).

Definition set_connected (x : bool) (s : SyncState) : SyncState :=
  mkSync (db s) (router s) (transport_kind s) (applications s) (session_name s) (session_auth s) x
    (next_message_seq s) (inflight s) (pull_requests s) (outgoing_watches s) (incoming_watches s)
    (recommendations s) (pending_auth_challenges s) (pending_auth_peers s) (verified_identities s)
    (outbound s) (watch_messages s).

Definition set_next_message_seq (x : Z) (s : SyncState) : SyncState :=
  mkSync (db s) (router s) (transport_kind s) (applications s) (session_name s) (session_auth s) (connected s)
    x (inflight s) (pull_requests s) (outgoing_watches s) (incoming_watches s) (recommendations s)
    (pending_auth_challenges s) (pending_auth_peers s) (verified_identities s) (outbound s) (watch_messages s).

Definition set_inflight (x : gmap string OutboundSync) (s : SyncState) : SyncState :=
  mkSync (db s) (router s) (transport_kind s) (applications s) (session_name s) (session_auth s) (connected s)
    (next_message_seq s) x (pull_requests s) (outgoing_watches s) (incoming_watches s) (recommendations s)
    (pending_auth_challenges s) (pending_auth_peers s) (verified_identities s) (outbound s) (watch_messages s).

Definition set_pull_requests (x : Requests) (s : SyncState) : SyncState :=
  mkSync (db s) (router s) (transport_kind s) (applications s) (session_name s) (session_auth s) (connected s)
    (next_message_seq s) (inflight s) x (outgoing_watches s) (incoming_watches s) (recommendations s)
    (pending_auth_challenges s) (pending_auth_peers s) (verified_identities s) (outbound s) (watch_messages s).

Definition set_outgoing_watches (x : gmap string OutgoingWatch) (s : SyncState) : SyncState :=
  mkSync (db s) (router s) (transport_kind s) (applications s) (session_name s) (session_auth s) (connected s)
    (next_message_seq s) (inflight s) (pull_requests s) x (incoming_watches s) (recommendations s)
    (pending_auth_challenges s) (pending_auth_peers s) (verified_identities s) (outbound s) (watch_messages s).

Definition set_incoming_watches (x : gmap string IncomingWatch) (s : SyncState) : SyncState :=
  mkSync (db s) (router s) (transport_kind s) (applications s) (session_name s) (session_auth s) (connected s)
    (next_message_seq s) (inflight s) (pull_requests s) (outgoing_watches s) x (recommendations s)
    (pending_auth_challenges s) (pending_auth_peers s) (verified_identities s) (outbound s) (watch_messages s).

Definition set_recommendations (x : gmap string PeerRecommendation) (s : SyncState) : SyncState :=
  mkSync (db s) (router s) (transport_kind s) (applications s) (session_name s) (session_auth s) (connected s)
    (next_message_seq s) (inflight s) (pull_requests s) (outgoing_watches s) (incoming_watches s) x
    (pending_auth_challenges s) (pending_auth_peers s) (verified_identities s) (outbound s) (watch_messages s).

Definition set_pending_auth_challenges (x : gmap string AuthChallenge) (s : SyncState) : SyncState :=
  mkSync (db s) (router s) (transport_kind s) (applications s) (session_name s) (session_auth s) (connected s)
    (next_message_seq s) (inflight s) (pull_requests s) (outgoing_watches s) (incoming_watches s)
    (recommendations s) x (pending_auth_peers s) (verified_identities s) (outbound s) (watch_messages s).

Definition set_pending_auth_peers (x : gmap string PeerPresence) (s : SyncState) : SyncState :=
  mkSync (db s) (router s) (transport_kind s) (applications s) (session_name s) (session_auth s) (connected s)
    (next_message_seq s) (inflight s) (pull_requests s) (outgoing_watches s) (incoming_watches s)
    (recommendations s) (pending_auth_challenges s) x (verified_identities s) (outbound s) (watch_messages s).

Definition set_verified_identities (x : gmap string VerifiedIdentity) (s : SyncState) : SyncState :=
  mkSync (db s) (router s) (transport_kind s) (applications s) (session_name s) (session_auth s) (connected s)
    (next_message_seq s) (inflight s) (pull_requests s) (outgoing_watches s) (incoming_watches s)
    (recommendations s) (pending_auth_challenges s) (pending_auth_peers s) x (outbound s) (watch_messages s).

Definition set_outbound (x : list RouteEnvelope) (s : SyncState) : SyncState :=
  mkSync (db s) (router s) (transport_kind s) (applications s) (session_name s) (session_auth s) (connected s)
    (next_message_seq s) (inflight s) (pull_requests s) (outgoing_watches s) (incoming_watches s)
    (recommendations s) (pending_auth_challenges s) (pending_auth_peers s) (verified_identities s) x
    (watch_messages s).

Definition set_watch_messages (x : list (string * (RemoteWatchMessage + string))) (s : SyncState) : SyncState :=
  mkSync (db s) (router s) (transport_kind s) (applications s) (session_name s) (session_auth s) (connected s)
    (next_message_seq s) (inflight s) (pull_requests s) (outgoing_watches s) (incoming_watches s)
    (recommendations s) (pending_auth_challenges s) (pending_auth_peers s) (verified_identities s)
    (outbound s) x.

Record SessionLimits := mkSessionLimits {
  max_ops_per_message : nat;
  max_route_payload_bytes : nat;
  max_batch_items_per_route : nat;
  max_active_remote_watches : nat;
  max_peer_recommendations : nat;
  chunk_limits : ChunkLimits
}.

Inductive SecureSyncFrame := Plain (f : SyncFrame) | Sealed (v : json).

Class SessionEnv := {
  limits : SessionLimits;
  network_hooks : option NetworkHooks;
  route_bytes : RouteEnvelope → result nat;
  result_hash : RemoteResult → option string;
  frame_to_value : SyncFrame → result json;
  frame_from_value : json → result SyncFrame;
  secure_sync_frame : Inner → SyncFrame → result SecureSyncFrame;
  decode_secure_sync_frame : Inner → json → result SyncFrame;
  local_user : option (Identity * string);
  random_text : string → nat → string;
  finalize_change : Inner → Inner * result unit
}.

Context `{SE : !SessionEnv}.

(** Handlers: the state after, and the result. *)
Definition Task (A : Type) : Type := SyncState → SyncState * result A.

#[global] Instance Task_ret : MRet Task := λ A a s, (s, Ok a).
#[global] Instance Task_bind : MBind Task := λ A B f m s,
  match m s with (s', Ok a) => f a s' | (s', Err e) => (s', Err e) end.

Definition sfail {A} (e : PrimadbError) : Task A := λ s, (s, Err e).
Definition slift {A} (r : result A) : Task A := λ s, (s, r).
Definition sget {A} (f : SyncState → A) : Task A := λ s, (s, Ok (f s)).
Definition smod (f : SyncState → SyncState) : Task unit := λ s, (f s, Ok tt).
Definition signore {A} (m : Task A) : Task unit := λ s, ((m s).1, Ok tt).

Definition on_db {A} (m : M A) : Task A := λ s, let r := m (db s) in (set_db r.1 s, r.2).

(** A route made by the router, which counts it. *)
Definition wrapped (f : Router → Router * RouteEnvelope) : Task RouteEnvelope := λ s,
  let r := f (router s) in (set_router r.1 s, Ok r.2).

Fixpoint sfor {A} (f : A → Task unit) (l : list A) : Task unit :=
  match l with
  | [] => mret tt
  | a :: l => _ ← f a; sfor f l
  end.

(** * Sending *)

Definition replica_id_of (s : SyncState) : string := actor (clock (db s)).

Definition encode_sync_payload (i : Inner) (f : SyncFrame) : result (string * json) :=
  match secure_sync_frame i f with
  | Err e => Err e
  | Ok (Plain f) => match frame_to_value f with Ok v => Ok ("sync_frame", v) | Err e => Err e end
  | Ok (Sealed v) => Ok ("secure_sync_frame", v)
  end.

Definition decode_sync_payload (i : Inner) (encoding : string) (v : json) : result SyncFrame :=
  if decide (encoding = "sync_frame") then frame_from_value v
  else if decide (encoding = "secure_sync_frame") then decode_secure_sync_frame i v
  else Err (Message ("unsupported sync encoding `" +:+ encoding +:+ "`")).

Definition send_route (e : RouteEnvelope) : Task unit :=
  n ← slift (route_bytes e);
  if max_route_payload_bytes limits <? n then sfail (Message "route payload exceeds the limit")
  else
    up ← sget connected;
    if negb up then sfail (Message "native websocket is not connected")
    else smod (λ s, set_outbound (outbound s ++ [e]) s).

Definition send_routes (es : list RouteEnvelope) : Task unit := sfor send_route es.

Definition send_sync_frame (f : SyncFrame) (t : RouteTarget) : Task unit :=
  i ← sget db;
  p ← slift (encode_sync_payload i f);
  e ← wrapped (λ r, wrap_sync r p.1 p.2 t);
  send_route e.

(** [drain_sync_envelope], [requeue_pending_operations] and [apply_sync_envelope] of
[src/src/db.rs], with what follows a change. *)
Definition finalize : Task unit := λ s, let r := finalize_change (db s) in (set_db r.1 s, r.2).

Definition drain_ops : Task (list Operation) :=
  ops ← on_db (embed drain_pending_operations);
  _ ← (if bool_decide (ops = []) then mret tt else finalize);
  mret ops.

Definition requeue_ops (ops : list Operation) : Task unit :=
  _ ← smod (λ s, set_db (requeue_pending_operations ops (db s)) s);
  if bool_decide (ops = []) then mret tt else finalize.

Definition apply_sync_envelope (ops : list Operation) : Task nat :=
  applied ← on_db (embed (apply_operations ops));
  _ ← (if 0 <? applied then finalize else mret tt);
  mret applied.

Definition next_message_id : Task string := λ s,
  let n := ((next_message_seq s + 1) mod (u64_max + 1))%Z in
  (set_next_message_seq n s, Ok (replica_id_of s +:+ "/native/" +:+ hex n)).

(** What [flush_pending_state] does with the operations it took. *)
Definition settle_send (message : string) (p : string * json) (ops : list Operation) (e : RouteEnvelope) : Task nat := λ s,
  match send_route e s with
  | (s, Err err) => ((requeue_ops ops s).1, Err err)
  | (s, Ok _) => (set_inflight (<[message := mkOutbound p.1 p.2 Broadcast]> (inflight s)) s, Ok (length ops))
  end.

Definition send_ops (from : string) (ops : list Operation) : Task nat :=
  message ← next_message_id;
  i ← sget db;
  p ← slift (encode_sync_payload i (FSync from message ops));
  e ← wrapped (λ r, wrap_sync r p.1 p.2 Broadcast);
  settle_send message p ops e.

Definition flush_pending_state : Task nat :=
  up ← sget connected;
  if negb up then mret 0
  else
    ops ← drain_ops;
    from ← sget replica_id_of;
    if bool_decide (ops = []) then mret 0
    else
      let max_ops := max (max_ops_per_message limits) 1 in
      _ ← (if max_ops <? length ops then requeue_ops (drop max_ops ops) else mret tt);
      send_ops from (take max_ops ops).

Definition resend (o : OutboundSync) : Task unit :=
  e ← wrapped (λ r, wrap_sync r (ob_encoding o) (ob_payload o) (ob_target o));
  send_route e.

Definition retry_inflight_state : Task nat :=
  up ← sget connected;
  if negb up then mret 0
  else
    items ← sget (λ s, (btree_list (inflight s)).*2);
    _ ← sfor resend items;
    mret (length items).

(** One message taken back when the connection is lost. *)
Definition take_back (o : OutboundSync) : Task unit := λ s,
  match decode_sync_payload (db s) (ob_encoding o) (ob_payload o) with
  | Ok (FSync _ _ ops) => ((requeue_ops ops s).1, Ok tt)
  | _ => (s, Ok tt)
  end.

Definition requeue_inflight_state : Task unit :=
  items ← sget (λ s, (btree_list (inflight s)).*2);
  _ ← smod (set_inflight ∅);
  sfor take_back items.

Definition fail_pending_requests (message : string) : Task unit :=
  smod (λ s, set_pull_requests (mkRequests ∅ (answered (pull_requests s) ++
    ((λ id, (id, inr message)) <$> btree_keys (pending_requests (pull_requests s))))) s).

Definition clear_incoming_watches : Task unit := smod (set_incoming_watches ∅).

(** What the connection's task does when the socket is lost, and when it is back. *)
Definition connection_lost : Task unit :=
  _ ← smod (set_connected false);
  _ ← requeue_inflight_state;
  _ ← fail_pending_requests "websocket closed while requests were in flight";
  clear_incoming_watches.

Definition connection_made (announcement : RouteEnvelope) : Task unit :=
  _ ← smod (λ s, set_outbound (outbound s ++ [announcement]) (set_connected true s));
  _ ← signore retry_inflight_state;
  signore flush_pending_state.


(** * Peers *)

Definition verified_identity_for_peer (peer : string) (s : SyncState) : option VerifiedIdentity :=
  verified_identities s !! peer.

Definition remove_relay_peer_state (peer : string) (s : SyncState) : SyncState :=
  set_verified_identities (delete peer (verified_identities s))
    (set_recommendations (delete peer (recommendations s)) (set_router (forget_peer (router s) peer) s)).

(** The loop of [store_peer_recommendations]; each turn removes an entry. *)
Fixpoint drop_first (fuel max : nat) (m : gmap string PeerRecommendation) : gmap string PeerRecommendation :=
  match fuel with
  | O => m
  | Datatypes.S fuel =>
      if max <? size m then
        match btree_keys m with
        | oldest :: _ => drop_first fuel max (delete oldest m)
        | [] => m
        end
      else m
  end.

Definition store_peer_recommendations (ps : list PeerRecommendation) (s : SyncState) : SyncState :=
  let m := foldl (λ m p, <[peer_id (rec_peer p) := p]> m) (recommendations s) ps in
  set_recommendations (drop_first (size m) (max (max_peer_recommendations limits) 1) m) s.

Definition peer_recommendation_from_presence (p : PeerPresence) : PeerRecommendation :=
  mkRecommendation p (relay_urls_of p)
    (100 + Z.of_nat (min (length (capabilities p)) 8) * 5 + Z.of_nat (min (length (topics p)) 8) * 5)%Z route_now.

Definition send_watch_request (peer : string) (q : WatchRequest) : Task unit :=
  e ← wrapped (λ r, wrap_watch_request r q (ToPeer peer) None);
  send_route e.

Definition replay_outgoing_watches_for_peer (peer : string) : Task nat :=
  ws ← sget (λ s, List.filter (λ w : string * OutgoingWatch, bool_decide (ow_peer w.2 = peer)) (btree_list (outgoing_watches s)));
  _ ← sfor (λ w : string * OutgoingWatch, send_watch_request peer (mkWatchRequest w.1 (WSubscribe (ow_kind w.2)))) ws;
  mret (length ws).

Definition cancel_remote_watch (watch : string) : Task unit :=
  w ← sget (λ s, outgoing_watches s !! watch);
  match w with
  | None => mret tt
  | Some w =>
      _ ← smod (λ s, set_outgoing_watches (delete watch (outgoing_watches s)) s);
      signore (send_watch_request (ow_peer w) (mkWatchRequest watch WCancel))
  end.

(** What [accept_relay_peer] and [accept_relay_recommendation] share: the hook decides,
and an admitted peer is recommended and asked again for what is watched there. *)
Definition admit_peer (c : ConnectHookContext) (r : PeerRecommendation) : Task bool :=
  match allow_peer_connection network_hooks c with
  | Deny _ => _ ← smod (remove_relay_peer_state (peer_id (rec_peer r))); mret false
  | Allow _ =>
      _ ← smod (store_peer_recommendations [r]);
      _ ← signore (replay_outgoing_watches_for_peer (peer_id (rec_peer r)));
      mret true
  end.

Definition accept_relay_peer (p : PeerPresence) (who : option VerifiedIdentity) : Task bool :=
  admit_peer (mkConnect p Relay (peer_metadata p !! "relay_url") who) (peer_recommendation_from_presence p).

Definition accept_relay_recommendation (r : PeerRecommendation) (who : option VerifiedIdentity) : Task bool :=
  admit_peer (mkConnect (rec_peer r) Relay (head (relay_urls r)) who) r.

(** * Authentication *)

(** The random identifiers and nonces are indexed by the number of routes sent before. *)
Definition maybe_send_relay_auth_challenge (p : PeerPresence) : Task unit :=
  me ← sget (λ s, config_peer_id (config (router s)));
  known ← sget (verified_identity_for_peer (peer_id p));
  if bool_decide (peer_id p = me) || bool_decide (is_Some known) then mret tt
  else
    cfg ← sget session_auth;
    match identity p with
    | None => if allow_unauthenticated_presence cfg then mret tt else smod (remove_relay_peer_state (peer_id p))
    | Some who =>
        c ← sget (λ s, create_auth_challenge route_now (random_text "challenge" (length (outbound s))) (random_text "nonce" (length (outbound s)))
                         me (replica_id_of s) (session_name s) (peer_id p) (replica_id p) who "relay" cfg);
        e ← wrapped (λ r, auth_challenge r c (ToPeer (peer_id p)));
        _ ← send_route e;
        smod (λ s, set_pending_auth_peers (<[challenge_id c := p]> (pending_auth_peers s))
                     (set_pending_auth_challenges (<[challenge_id c := c]> (pending_auth_challenges s)) s))
    end.

(** [Primadb::sign_session_auth_response]. *)
Definition sign_session_auth_response (c : AuthChallenge) (me session : string) (cfg : SessionAuthConfig) (s : SyncState)
    : result (option AuthResponse) :=
  match local_user with
  | None => Ok None
  | Some (key, name) =>
      match sign_auth_response route_now route_now (random_text "nonce" (length (outbound s))) key (Some name)
              {[ "replicaId" := replica_id_of s ]} c me (replica_id_of s) session cfg with
      | Ok r => Ok (Some r)
      | Err e => Err e
      end
  end.

Definition handle_relay_auth_challenge (c : AuthChallenge) : Task unit :=
  me ← sget (λ s, config_peer_id (config (router s)));
  if bool_decide (target_peer c = me) then
    r ← sget (λ s, sign_session_auth_response c me (session_name s) (session_auth s) s);
    answer ← slift r;
    match answer with
    | None => mret tt
    | Some r => e ← wrapped (λ x, auth_response x r (ToPeer (issuer_peer c))); send_route e
    end
  else mret tt.

Definition handle_relay_auth_response (r : AuthResponse) : Task unit :=
  c ← sget (λ s, pending_auth_challenges s !! ar_challenge r);
  match c with
  | None => mret tt
  | Some c =>
      _ ← smod (λ s, set_pending_auth_challenges (delete (ar_challenge r) (pending_auth_challenges s)) s);
      known ← sget (λ s, pending_auth_peers s !! ar_challenge r);
      _ ← smod (λ s, set_pending_auth_peers (delete (ar_challenge r) (pending_auth_peers s)) s);
      let p := default (mkPresence (responder_peer r) (responder_replica r) (ch_transport c)
                          (Some (responder_identity r)) [] [] ∅) known in
      cfg ← sget session_auth;
      v ← slift (verify_auth_response route_now route_now c r cfg);
      _ ← smod (λ s, set_verified_identities (<[vi_peer v := v]> (verified_identities s)) s);
      ok ← accept_relay_peer p (Some v);
      if ok : bool then mret tt
      else smod (λ s, set_verified_identities (delete (vi_peer v) (verified_identities s)) s)
  end.

(** * Messages *)

(** Whether the sender must be authenticated and is not. *)
Definition barred (peer : string) (s : SyncState) : bool :=
  require_authenticated_peers (session_auth s) && bool_decide (verified_identity_for_peer peer s = None).

Definition handle_sync_frame (f : SyncFrame) (reply : option string) : Task unit :=
  match f with
  | FSync _ message ops =>
      out ← sget (λ s, match reply with Some p => barred p s | None => require_authenticated_peers (session_auth s) end);
      if out : bool then mret tt
      else
        applied ← apply_sync_envelope ops;
        me ← sget replica_id_of;
        send_sync_frame (FAck me message applied) (match reply with Some p => ToPeer p | None => Broadcast end)
  | FAck _ message _ =>
      _ ← smod (λ s, set_inflight (delete message (inflight s)) s);
      signore flush_pending_state
  end.

Definition send_pull_responses (from route : string) (rs : list PullResponse) : Task unit :=
  es ← (λ s, let r := pack_batch_routes (router s) (ToPeer from) (Some route) (IPullResponse <$> rs)
                        (max (max_batch_items_per_route limits) 1) in (set_router r.1 s, Ok r.2));
  send_routes es.

Definition handle_pull_request (from route : string) (q : PullRequest) : Task unit :=
  out ← sget (barred from);
  who ← sget (verified_identity_for_peer from);
  rs ← (if out : bool then mret [error_pull_response (request_id q) "peer is not authenticated"]
        else
          d ← on_db (serve_pull_request_for_peer network_hooks from Relay (request_id q) (pull_kind q) who);
          mret (match d with
                | Allow v => build_pull_responses (request_id q) v (chunk_limits limits)
                | Deny m => [error_pull_response (request_id q) m]
                end));
  send_pull_responses from route rs.

Definition handle_snapshot_request (from route : string) (root : option string) : Task unit :=
  out ← sget (barred from);
  if out : bool then mret tt
  else
    who ← sget (verified_identity_for_peer from);
    d ← on_db (serve_pull_request_for_peer network_hooks from Relay ("snapshot:" +:+ route) (PSnapshot root) who);
    match d with
    | Allow (RSnapshot x) => e ← wrapped (λ r, snapshot_response r root x (ToPeer from)); send_route e
    | _ => mret tt
    end.

(** * Watches that peers hold here *)

Definition refuse_watch (peer watch : string) (sequence : Z) (initial : bool) (message : string) : Task unit :=
  e ← wrapped (λ r, wrap_watch_event r (error_watch_event watch sequence initial message) (ToPeer peer) None);
  send_route e.

Definition drop_incoming (watch : string) : Task unit :=
  smod (λ s, set_incoming_watches (delete watch (incoming_watches s)) s).

Definition send_watch_events (peer : string) (evs : list WatchEvent) : Task unit :=
  es ← (λ s, let r := pack_batch_routes (router s) (ToPeer peer) None (IWatchEvent <$> evs)
                        (max (max_batch_items_per_route limits) 1) in (set_router r.1 s, Ok r.2));
  send_routes es.

Definition count_update (h : option string) (w : IncomingWatch) : IncomingWatch :=
  mkIncoming (iw_peer w) (iw_kind w) (iw_interest w) (sat_add u64_max (iw_next w) 1) h.

Definition emit_single_incoming_watch_update (watch : string) (initial : bool) : Task bool :=
  found ← sget (λ s, incoming_watches s !! watch);
  match found with
  | None => mret false
  | Some w =>
      out ← sget (barred (iw_peer w));
      who ← sget (verified_identity_for_peer (iw_peer w));
      if out : bool then
        _ ← refuse_watch (iw_peer w) watch (iw_next w) initial "peer is not authenticated";
        _ ← drop_incoming watch;
        mret true
      else
        d ← on_db (serve_watch_result_for_peer network_hooks (iw_peer w) Relay watch (iw_kind w) initial who);
        match d with
        | Deny m =>
            _ ← refuse_watch (iw_peer w) watch (iw_next w) initial m;
            _ ← drop_incoming watch;
            mret true
        | Allow v =>
            let h := result_hash v in
            if negb initial && bool_decide (h = iw_hash w) then mret false
            else
              _ ← send_watch_events (iw_peer w) (chunk_watch_result watch (iw_next w) initial v (chunk_limits limits));
              _ ← smod (λ s, set_incoming_watches (alter (count_update h) watch (incoming_watches s)) s);
              mret true
        end
  end.

Fixpoint emit_each (ids : list string) (emitted : nat) : Task nat :=
  match ids with
  | [] => mret emitted
  | w :: ids => b ← emit_single_incoming_watch_update w false; emit_each ids (if b : bool then emitted + 1 else emitted)
  end.

Definition emit_incoming_watch_updates (ev : ChangeEvent) : Task nat :=
  ids ← sget (λ s, (List.filter (λ w : string * IncomingWatch,
                      incoming_watch_overlaps_event (iw_kind w.2) (iw_interest w.2) ev) (btree_list (incoming_watches s))).*1);
  emit_each ids 0.

Definition register_watch (from watch : string) (k : PullRequestKind) : Task unit :=
  let limit := max (max_active_remote_watches limits) 1 in
  full ← sget (λ s, (limit <=? size (incoming_watches s)) && bool_decide (incoming_watches s !! watch = None));
  if full : bool then sfail (TooManyRemoteWatches (Z.of_nat limit))
  else smod (λ s, set_incoming_watches (<[watch := mkIncoming from k (interest_path k) 0 None]> (incoming_watches s)) s).

Definition handle_watch_request (from : string) (q : WatchRequest) : Task unit :=
  match watch_kind q with
  | WSubscribe k =>
      out ← sget (barred from);
      who ← sget (verified_identity_for_peer from);
      if out : bool then refuse_watch from (watch_id q) 0 true "peer is not authenticated"
      else
        match authorize_watch_request_for_peer network_hooks from Relay (watch_id q) k who with
        | Deny m => refuse_watch from (watch_id q) 0 true m
        | Allow k =>
            _ ← register_watch from (watch_id q) k;
            _ ← emit_single_incoming_watch_update (watch_id q) true;
            mret tt
        end
  | WCancel => drop_incoming (watch_id q)
  end.

(** * Watches held at peers *)

Definition event_is_final (ev : WatchEvent) : bool :=
  event_done ev || (chunk_total (event_chunk ev) <=? sat_add (u32_width - 1) (chunk_index (event_chunk ev)) 1)%Z.

Definition put_outgoing (watch : string) (w : OutgoingWatch) : Task unit :=
  smod (λ s, set_outgoing_watches (<[watch := w]> (outgoing_watches s)) s).

Definition tell (watch : string) (m : RemoteWatchMessage + string) : Task unit :=
  smod (λ s, set_watch_messages (watch_messages s ++ [(watch, m)]) s).

(** The pending sequence after an event of its sequence, or of a later one. *)
Definition open_sequence (w : OutgoingWatch) (ev : WatchEvent) : option PendingWatchSequence :=
  let fresh := mkPendingWatch (event_sequence ev) (event_initial ev) (accumulator_new (ow_kind w)) in
  match ow_pending w with
  | Some p =>
      if bool_decide (pw_sequence p = event_sequence ev) then Some p
      else if (event_sequence ev <? pw_sequence p)%Z then None
      else Some fresh
  | None => Some fresh
  end.

Definition accept_watch_event (ev : WatchEvent) : Task unit :=
  found ← sget (λ s, outgoing_watches s !! event_watch ev);
  match found with
  | None => mret tt
  | Some w =>
      if match ow_delivered w with Some last => (event_sequence ev <=? last)%Z | None => false end then mret tt
      else
        match open_sequence w ev with
        | None => mret tt
        | Some p =>
            let r := apply_response_body (pw_accumulator p) (event_body ev) in
            let p' := mkPendingWatch (pw_sequence p) (pw_initial p) r.1 in
            match r.2 with
            | Some m =>
                _ ← smod (λ s, set_outgoing_watches (delete (event_watch ev) (outgoing_watches s)) s);
                tell (event_watch ev) (inr m)
            | None =>
                if event_is_final ev then
                  _ ← put_outgoing (event_watch ev) (mkOutgoing (ow_peer w) (ow_kind w) None (ow_delivered w));
                  v ← slift (into_result r.1);
                  _ ← put_outgoing (event_watch ev) (mkOutgoing (ow_peer w) (ow_kind w) None (Some (event_sequence ev)));
                  tell (event_watch ev) (inl (mkWatchMessage (pw_initial p) v))
                else put_outgoing (event_watch ev) (mkOutgoing (ow_peer w) (ow_kind w) (Some p') (ow_delivered w))
            end
        end
  end.

(** * Routes *)

Definition handle_application (e : RouteEnvelope) (m : ApplicationRouteMessage) : Task unit :=
  out ← sget (barred (from e));
  if out : bool then mret tt
  else
    smod (λ s,
      let who := verified_identity_for_peer (from e) s in
      let c := with_verified_identity (from e) (transport_kind s) who (require_authenticated_peers (session_auth s)) in
      let c := mkContext (source_peer_id c) (context_transport c) (underlay_id c) (direct c) true (gateway_routed c)
                 (gateway_peer_id c) (auth_status c) (provenance c) in
      set_applications (publish (mkAppEvent (route_id e) (from e) (channel e) (target e) (issued_at_millis e) route_now
                                   (transport_kind s) who c m) (applications s)).1 s).

Definition handle_recommendation (r : PeerRecommendation) : Task unit :=
  _ ← maybe_send_relay_auth_challenge (rec_peer r);
  out ← sget (barred (peer_id (rec_peer r)));
  if out : bool then mret tt
  else
    who ← sget (verified_identity_for_peer (peer_id (rec_peer r)));
    _ ← accept_relay_recommendation r who;
    mret tt.

Definition handle_presence (p : PeerPresence) : Task unit :=
  _ ← maybe_send_relay_auth_challenge p;
  out ← sget (barred (peer_id p));
  if out : bool then mret tt
  else
    who ← sget (verified_identity_for_peer (peer_id p));
    _ ← accept_relay_peer p who;
    mret tt.

Definition handle_sync_route (from encoding : string) (v : json) : Task unit :=
  out ← sget (barred from);
  if out : bool then mret tt
  else
    i ← sget db;
    f ← slift (decode_sync_payload i encoding v);
    handle_sync_frame f (Some from).

Definition handle_item (e : RouteEnvelope) (x : RouteBatchItem) : Task unit :=
  match x with
  | IApplication m => handle_application e m
  | IPresence p => handle_presence p
  | ISignal _ _ => mret tt
  | ISnapshotRequest root => handle_snapshot_request (from e) (route_id e) root
  | ISnapshotResponse _ snapshot =>
      _ ← smod (λ s, set_db (load_snapshot snapshot (db s)) s);
      finalize
  | ISync encoding v => handle_sync_route (from e) encoding v
  | IPullRequest q => handle_pull_request (from e) (route_id e) q
  | IPullResponse r => λ s, let x := accept_pull_response (pull_requests s) r in (set_pull_requests x.1 s, x.2)
  | IWatchRequest q => handle_watch_request (from e) q
  | IWatchEvent ev => accept_watch_event ev
  | IPeerExchange ps => sfor handle_recommendation ps
  | IAuthChallenge c => handle_relay_auth_challenge c
  | IAuthResponse r => handle_relay_auth_response r
  end.

(** The stack of the source takes the items of a batch in their order; a batch holds no
batch. *)
Definition handle_route_payload (e : RouteEnvelope) : Task unit :=
  match payload e with
  | Single x => handle_item e x
  | Batch items => sfor (handle_item e) items
  end.

Definition handle_route_envelope (e : RouteEnvelope) : Task unit :=
  d ← (λ s, let r := accept (router s) e in (set_router r.1 s, Ok r.2));
  if deliver d then handle_route_payload e else mret tt.

(** A text is a route, or else a bare frame, which no peer is named for. *)
Definition handle_incoming_text (m : RouteEnvelope + SyncFrame) : Task unit :=
  match m with
  | inl e => handle_route_envelope e
  | inr f => handle_sync_frame f None
  end.

(** What the two tasks of a session do: on a change of the database, and at each
interval. *)
Definition on_change (ev : ChangeEvent) : Task unit :=
  _ ← (if 0 <? ev_pending_ops ev then signore flush_pending_state else mret tt);
  if data_changed (impact ev) then signore (emit_incoming_watch_updates ev) else mret tt.

Definition on_interval : Task unit :=
  up ← sget connected;
  if up : bool then
    _ ← signore retry_inflight_state;
    signore flush_pending_state
  else mret tt.
End session.
