(* ===== verification/SessionWf.v ===== *)
(** What a peer's session guarantees ([src/src/native_sync.rs]): operations are kept until
they are acknowledged, and peers that must be authenticated change nothing before they
are. *)
From stdpp Require Import base gmap sets list strings sorting.
From Stdlib Require Import ZArith Lia.
From S2P Require Import Prelude Clock Value Crdt Merge OpQueue RelIndex Paths Records Keys Engine Input Inner Read View Query Traversal InnerWf Tx Db SessionAuth Protocol Change Scan Router AppRoute Serve Relay Session.

(** * Operations that stand for others *)

(** An operation on the same field or member, at least as recent. *)
Definition covers (l : list Operation) (op : Operation) : Prop :=
  ∃ op', op' ∈ l ∧ from_operation op' = from_operation op ∧ ole (op_revision op) (op_revision op').

Lemma covers_elem l op : op ∈ l → covers l op.
Proof. intros H. exists op. split_and!; [done..|ord]. Qed.

Lemma covers_app l k op : covers (l ++ k) op ↔ covers l op ∨ covers k op.
Proof. unfold covers. setoid_rewrite elem_of_app. naive_solver. Qed.

Lemma covers_nil op : ¬ covers [] op.
Proof. by intros (op' & H%not_elem_of_nil & _). Qed.

Lemma covers_push q o op : queue_wf q → covers (operations q ++ [o]) op → covers (operations (push q o)) op.
Proof.
  intros Hq (op' & Hin & Hk & Hle). rewrite push_operations by done.
  assert (from_operation op ∈ from_operation <$> push_spec (operations q) o) as Hin'.
  { rewrite push_spec_keys. rewrite <-Hk. by apply list_elem_of_fmap_2. }
  apply list_elem_of_fmap in Hin' as (x & Hx & Hxin).
  destruct (push_spec_newest _ _ _ (queue_keys_NoDup q Hq) Hxin) as [Hnew Hold].
  exists x. split_and!; [done..|]. apply elem_of_app in Hin as [Hin|Hin].
  - specialize (Hold op' Hin ltac:(congruence)). ord.
  - apply list_elem_of_singleton in Hin as ->. specialize (Hnew ltac:(congruence)). ord.
Qed.

Lemma pushes_wf q ops : queue_wf q → queue_wf (foldl push q ops).
Proof. revert q. induction ops as [|o ops IH]; intros q Hq; [done|]. apply IH, push_wf, Hq. Qed.

Lemma covers_pushes q ops op : queue_wf q →
  covers (operations q) op ∨ covers ops op → covers (operations (foldl push q ops)) op.
Proof.
  revert q. induction ops as [|o ops IH]; intros q Hq; [intros [H|H%covers_nil]; done|].
  change (o :: ops) with ([o] ++ ops). rewrite covers_app. intros Hc. apply IH; [by apply push_wf|].
  destruct Hc as [Hc|[Hc|Hc]]; [left..|by right]; apply covers_push; try done; apply covers_app; auto.
Qed.

(** * Tasks within a relation of states *)

Section tasks.
Context `{Codec, Env, W : !Wire, Sv : !Services, RE : !RouteEnv, Sg : !Signatures, SE : !SessionEnv}.

Definition ensures (R : relation SyncState) {A} (m : Task A) : Prop := ∀ s, R s (m s).1.

Context (R : relation SyncState) `{!PreOrder R}.

Lemma ens_ret {A} (a : A) : ensures R (mret (M := Task) a).
Proof. intros s. reflexivity. Qed.

Lemma ens_sget {A} (f : SyncState → A) : ensures R (sget f).
Proof. intros s. reflexivity. Qed.

Lemma ens_slift {A} (r : result A) : ensures R (slift r).
Proof. intros s. reflexivity. Qed.

Lemma ens_sfail {A} e : ensures R (sfail (A := A) e).
Proof. intros s. reflexivity. Qed.

Lemma ens_smod f : (∀ s, R s (f s)) → ensures R (smod f).
Proof. intros Hf s. apply Hf. Qed.

Lemma ens_signore {A} (m : Task A) : ensures R m → ensures R (signore m).
Proof. intros Hm s. apply Hm. Qed.

Lemma ens_bind {A B} (m : Task A) (k : A → Task B) : ensures R m → (∀ a, ensures R (k a)) → ensures R (mbind k m).
Proof.
  intros Hm Hk s. specialize (Hm s). unfold mbind, Task_bind. destruct (m s) as [s1 [a|e]]; [|done].
  etransitivity; [apply Hm|apply Hk].
Qed.

Lemma ens_sfor {A} (f : A → Task unit) l : (∀ a, a ∈ l → ensures R (f a)) → ensures R (sfor f l).
Proof.
  induction l as [|a l IH]; intros Hf; [apply ens_ret|]. cbn [sfor].
  apply ens_bind; [apply Hf; set_solver|]. intros _. apply IH. intros b Hb. apply Hf. set_solver.
Qed.

Lemma ens_if {A} (b : bool) (m k : Task A) : ensures R m → ensures R k → ensures R (if b then m else k).
Proof. by destruct b. Qed.
End tasks.

(** Decomposes a task into its updates of the state. *)
Ltac tasks :=
  repeat lazymatch goal with
    | |- ensures _ (mret _) => solve [apply ens_ret; typeclasses eauto]
    | |- ensures _ (sget _) => solve [apply ens_sget; typeclasses eauto]
    | |- ensures _ (slift _) => solve [apply ens_slift; typeclasses eauto]
    | |- ensures _ (sfail _) => solve [apply ens_sfail; typeclasses eauto]
    | |- ensures _ (signore _) => apply ens_signore
    | |- ensures _ (smod _) => apply ens_smod; intro
    | |- ensures _ (mbind _ _) => apply ens_bind; [typeclasses eauto| |intro]
    | |- ensures _ (if _ then _ else _) => apply ens_if
    | |- ensures _ (sfor _ _) => apply ens_sfor; [typeclasses eauto|intros ? _]
    end.

(** * What the session holds *)

Section kept.
Context `{HC : Codec, HE : Env, W : !Wire, Sv : !Services, RE : !RouteEnv, Sg : !Signatures, SE : !SessionEnv}.

(** Nothing of the queue, the messages in flight or their numbering is changed. *)
Record kept (s s' : SyncState) : Prop := {
  kept_pending : pending_ops (db s') = pending_ops (db s);
  kept_replica : replica_id_of s' = replica_id_of s;
  kept_inflight : inflight s' = inflight s;
  kept_seq : next_message_seq s' = next_message_seq s
}.

#[global] Instance kept_preorder : PreOrder kept.
Proof. split; [done|]. intros a b c [] []. split; congruence. Qed.

Lemma kept_wrapped f : ensures kept (wrapped f).
Proof. intros s. by split. Qed.

Lemma kept_send_route e : ensures kept (send_route e).
Proof. unfold send_route. tasks. by split. Qed.

Lemma kept_send_routes es : ensures kept (send_routes es).
Proof. unfold send_routes. tasks. apply kept_send_route. Qed.

Lemma kept_resend o : ensures kept (resend o).
Proof. unfold resend. tasks; [apply kept_wrapped|apply kept_send_route]. Qed.

Lemma kept_retry : ensures kept retry_inflight_state.
Proof. unfold retry_inflight_state. tasks. apply kept_resend. Qed.

Lemma kept_send_sync_frame f t : ensures kept (send_sync_frame f t).
Proof. unfold send_sync_frame. tasks; [apply kept_wrapped|apply kept_send_route]. Qed.

Lemma kept_send_watch_request p q : ensures kept (send_watch_request p q).
Proof. unfold send_watch_request. tasks; [apply kept_wrapped|apply kept_send_route]. Qed.

Lemma kept_admit c r : ensures kept (admit_peer c r).
Proof.
  unfold admit_peer. destruct (allow_peer_connection _ c); tasks; [by split| |by split].
  unfold replay_outgoing_watches_for_peer. tasks. apply kept_send_watch_request.
Qed.

Lemma kept_challenge p : ensures kept (maybe_send_relay_auth_challenge p).
Proof.
  unfold maybe_send_relay_auth_challenge. tasks. destruct (identity p) as [who|]; tasks; try (by split). apply kept_send_route.
Qed.

(** The items that serve no data and carry no operations. *)
Definition quiet (x : RouteBatchItem) : bool :=
  match x with
  | IApplication _ | IPresence _ | ISignal _ _ | IPullResponse _ | IWatchEvent _ | IPeerExchange _
  | IAuthChallenge _ | IAuthResponse _ => true
  | _ => false
  end.

Lemma kept_watch_event ev : ensures kept (accept_watch_event ev).
Proof.
  unfold accept_watch_event. tasks. destruct a as [w|]; [|tasks].
  destruct (match ow_delivered w with Some _ => _ | None => _ end); [tasks|].
  destruct (open_sequence w ev) as [p|]; [|tasks]. cbv zeta. destruct (apply_response_body _ _).2; tasks; by split.
Qed.

Lemma kept_auth_response r : ensures kept (handle_relay_auth_response r).
Proof.
  unfold handle_relay_auth_response. tasks. destruct a as [c|]; tasks; try (by split). apply kept_admit.
Qed.

Lemma kept_auth_challenge c : ensures kept (handle_relay_auth_challenge c).
Proof.
  unfold handle_relay_auth_challenge. tasks. destruct a1 as [r|]; tasks; [apply kept_wrapped|apply kept_send_route].
Qed.

Lemma kept_quiet e x : quiet x = true → ensures kept (handle_item e x).
Proof.
  destruct x; intros Hq; try discriminate Hq; clear Hq; cbn [handle_item].
  - unfold handle_application. tasks; by split.
  - unfold handle_presence. tasks; [apply kept_challenge|apply kept_admit].
  - tasks.
  - intros s. by split.
  - apply kept_watch_event.
  - tasks. unfold handle_recommendation. tasks; [apply kept_challenge|apply kept_admit].
  - apply kept_auth_challenge.
  - apply kept_auth_response.
Qed.
End kept.

(** * Operations are kept until acknowledged *)

(** What the session relies on: writing back succeeds and touches neither the queue nor
the clock, and a message is read back as it was written. *)
Class SessionLaws `{SessionEnv} := {
  finalize_ok i : (finalize_change i).2 = Ok tt;
  finalize_pending i : pending_ops (finalize_change i).1 = pending_ops i;
  finalize_clock i : clock (finalize_change i).1 = clock i;
  sync_encodes i f : ∃ p, encode_sync_payload i f = Ok p;
  sync_decodes i i' f p : encode_sync_payload i f = Ok p → decode_sync_payload i' p.1 p.2 = Ok f
}.

Section delivery.
Context `{HC : Codec, HE : Env, W : !Wire, Sv : !Services, RE : !RouteEnv, Sg : !Signatures, SE : !SessionEnv,
  Laws : !SessionLaws}.

Definition message_ops (i : Inner) (o : OutboundSync) : list Operation :=
  match decode_sync_payload i (ob_encoding o) (ob_payload o) with Ok (FSync _ _ ops) => ops | _ => [] end.

(** The session still stands for an operation: in the queue or in a message in flight. *)
Definition holds (s : SyncState) (op : Operation) : Prop :=
  covers (operations (pending_ops (db s))) op ∨
  ∃ m o, inflight s !! m = Some o ∧ covers (message_ops (db s) o) op.

Definition message_name (s : SyncState) (n : Z) : string := replica_id_of s +:+ "/native/" +:+ hex n.

Record session_ok (s : SyncState) : Prop := {
  ok_queue : queue_wf (pending_ops (db s));
  ok_seq : in_width u64_max (next_message_seq s);
  ok_names m o : inflight s !! m = Some o → ∃ n, (0 ≤ n ≤ next_message_seq s)%Z ∧ m = message_name s n;
  ok_messages m o : inflight s !! m = Some o →
    ∃ sender ops, ∀ i, decode_sync_payload i (ob_encoding o) (ob_payload o) = Ok (FSync sender m ops)
}.

Lemma message_ops_any s m o i i' : session_ok s → inflight s !! m = Some o → message_ops i o = message_ops i' o.
Proof. intros Hs (f & ops & Hd)%(ok_messages s Hs). unfold message_ops. by rewrite !Hd. Qed.

Lemma kept_ok s s' : kept s s' → session_ok s → session_ok s'.
Proof.
  intros [Hp Hr Hi Hn] [Hq Hw Hnm Hm]. split; [by rewrite Hp|by rewrite Hn| |by rewrite Hi].
  unfold message_name. rewrite Hi, Hn, Hr. exact Hnm.
Qed.

Lemma kept_holds s s' op : kept s s' → session_ok s → holds s op → holds s' op.
Proof.
  intros [Hp Hr Hi Hn] Hs [Hc|(m & o & Ho & Hc)]; [left; by rewrite Hp|right]. rewrite Hi. exists m, o.
  by rewrite (message_ops_any s m o _ (db s)).
Qed.

(** The queue grows, nothing else that matters changes. *)
Record grows (ops : list Operation) (s s' : SyncState) : Prop := {
  grows_pending : pending_ops (db s') = foldl push (pending_ops (db s)) ops;
  grows_replica : replica_id_of s' = replica_id_of s;
  grows_inflight : inflight s' = inflight s;
  grows_seq : next_message_seq s' = next_message_seq s
}.

Lemma requeue_grows ops s : grows ops s (requeue_ops ops s).1 ∧ (requeue_ops ops s).2 = Ok tt.
Proof.
  unfold requeue_ops, mbind, Task_bind, smod. case_bool_decide as E.
  - subst ops. done.
  - unfold finalize. cbn [fst snd]. split; [split|apply finalize_ok]; [|unfold replica_id_of|done..]; cbn [set_db db].
    + apply finalize_pending.
    + by rewrite finalize_clock.
Qed.

Lemma grows_ok ops s s' : grows ops s s' → session_ok s → session_ok s'.
Proof.
  intros [Hp Hr Hi Hn] [Hq Hw Hnm Hm]. split; [rewrite Hp; by apply pushes_wf|by rewrite Hn| |by rewrite Hi].
  unfold message_name. rewrite Hi, Hn, Hr. exact Hnm.
Qed.

Lemma grows_holds ops s s' op : grows ops s s' → session_ok s → holds s op ∨ covers ops op → holds s' op.
Proof.
  intros [Hp Hr Hi Hn] Hs Hc.
  assert (covers (operations (pending_ops (db s))) op ∨ covers ops op → holds s' op) as Hq.
  { intros. left. rewrite Hp. apply covers_pushes; [apply Hs|done]. }
  destruct Hc as [[Hc|(m & o & Ho & Hc)]|Hc]; [auto| |auto]. right. rewrite Hi. exists m, o.
  by rewrite (message_ops_any s m o _ (db s)).
Qed.

(** Draining empties the queue. *)
Lemma drain_spec s :
  (drain_ops s).2 = Ok (operations (pending_ops (db s))) ∧ pending_ops (db (drain_ops s).1) = queue_default ∧
  replica_id_of (drain_ops s).1 = replica_id_of s ∧ inflight (drain_ops s).1 = inflight s ∧
  next_message_seq (drain_ops s).1 = next_message_seq s ∧ connected (drain_ops s).1 = connected s.
Proof.
  unfold drain_ops, mbind, Task_bind, on_db, embed, drain_pending_operations. cbn [fst snd]. case_bool_decide as E.
  - unfold mret, Task_ret. cbn [fst snd]. done.
  - unfold finalize. cbn [fst snd set_db db]. destruct (finalize_change _) as [i r] eqn:Ef.
    pose proof (finalize_ok (set_pending_ops queue_default (db s))) as Hr.
    pose proof (finalize_pending (set_pending_ops queue_default (db s))) as Hp.
    pose proof (finalize_clock (set_pending_ops queue_default (db s))) as Hc.
    rewrite Ef in Hr, Hp, Hc. cbn [fst snd] in *. subst r. unfold mret, Task_ret. cbn [fst snd].
    split_and!; try done. change (actor (clock i) = actor (clock (db s))). by rewrite Hc.
Qed.

(** A message put in flight under a name of its own. *)
Lemma launch s n p sender ops :
  session_ok s → (0 ≤ n ≤ next_message_seq s)%Z → inflight s !! message_name s n = None →
  (∀ i, decode_sync_payload i p.1 p.2 = Ok (FSync sender (message_name s n) ops)) →
  let s' := set_inflight (<[message_name s n := mkOutbound p.1 p.2 Broadcast]> (inflight s)) s in
  session_ok s' ∧ ∀ op, holds s op ∨ covers ops op → holds s' op.
Proof.
  intros [Hq Hw Hnm Hm] Hn Hfresh Hd. split.
  - split; [done|done|..]; cbn [set_inflight inflight]; intros m o; rewrite lookup_insert_Some;
      (intros [[<- <-]|[_ Ho]]; [|by eauto]); eauto.
  - intros op [[Hc|(m & o & Ho & Hc)]|Hop]; [by left|right..].
    + exists m, o. split; [|done]. cbn [set_inflight inflight]. rewrite lookup_insert_ne; [done|]. intros <-.
      by rewrite Hfresh in Ho.
    + eexists _, _. split; [apply lookup_insert_eq|]. unfold message_ops. cbn [ob_encoding ob_payload]. by rewrite Hd.
Qed.

(** The next number gives a new name. *)
Lemma next_name s n : session_ok s → n = (next_message_seq s + 1)%Z → (n ≤ u64_max)%Z →
  session_ok (set_next_message_seq n s) ∧ inflight s !! message_name s n = None.
Proof.
  intros [Hq Hw Hnm Hm] -> Hle. destruct Hw as [Hw _]. split.
  - split; [done|split; cbn; lia| |exact Hm].
    intros m o (k & Hk & ->)%Hnm. exists k. split; [|done]. cbn [set_next_message_seq next_message_seq]. lia.
  - destruct (inflight s !! _) as [o|] eqn:Eo; [|done]. exfalso. apply Hnm in Eo as (k & Hk & E).
    unfold message_name in E. apply (inj _), (inj _), hex_inj in E; [lia|split; lia..].
Qed.

(** What [send_ops] does: the operations go in flight, or back. *)
Lemma send_ops_spec from ops s :
  session_ok s → (next_message_seq s < u64_max)%Z →
  let s' := (send_ops from ops s).1 in
  session_ok s' ∧ ∀ op, holds s op ∨ covers ops op → holds s' op.
Proof.
  intros Hs Hlt. unfold send_ops, mbind, Task_bind, next_message_id, sget. cbv zeta.
  set (n := ((next_message_seq s + 1) mod (u64_max + 1))%Z).
  assert (n = next_message_seq s + 1)%Z as Hn.
  { unfold n. apply Z.mod_small. destruct (ok_seq s Hs). lia. }
  destruct (next_name s n Hs Hn ltac:(lia)) as [Hs1 Hfresh]. set (s1 := set_next_message_seq n s) in *.
  change (replica_id_of s +:+ "/native/" +:+ hex n) with (message_name s1 n).
  destruct (sync_encodes (db s1) (FSync from (message_name s1 n) ops)) as [p Hp].
  unfold slift. rewrite Hp. unfold wrapped. set (s2 := set_router _ s1). set (e := (wrap_sync _ _ _ _).2).
  assert (kept s1 (send_route e s2).1) as Hk by (transitivity s2; [done|apply kept_send_route]).
  pose proof (kept_ok _ _ Hk Hs1) as Hs3.
  assert (∀ op, holds s op → holds (send_route e s2).1 op) as Hh.
  { intros op Hop. eapply kept_holds; [exact Hk|exact Hs1|exact Hop]. }
  unfold settle_send. destruct (send_route e s2) as [s3 [[]|err]]; cbn [fst] in *.
  - assert (message_name s1 n = message_name s3 n) as Hname by (unfold message_name; by rewrite (kept_replica _ _ Hk)).
    rewrite Hname in *. destruct (launch s3 n p from ops Hs3) as [H1 H2].
    + rewrite (kept_seq _ _ Hk). cbn. destruct (ok_seq s Hs). lia.
    + rewrite (kept_inflight _ _ Hk), <-Hname. exact Hfresh.
    + intros i. by apply (sync_decodes (db s1)).
    + split; [done|]. intros op Hop. apply H2. destruct Hop; auto.
  - destruct (requeue_grows ops s3) as [Hg _]. split; [by eapply grows_ok|]. intros op Hop.
    eapply grows_holds; [done..|]. destruct Hop; auto.
Qed.

Lemma flush_spec s :
  session_ok s → (next_message_seq s < u64_max)%Z →
  let s' := (flush_pending_state s).1 in session_ok s' ∧ ∀ op, holds s op → holds s' op.
Proof.
  intros Hs Hlt. unfold flush_pending_state, mbind, Task_bind. cbn [sget fst snd]. unfold sget.
  destruct (negb (connected s)); [done|].
  destruct (drain_spec s) as (Hops & Hp & Hr & Hi & Hn & _). destruct (drain_ops s) as [s1 r]. cbn [fst snd] in *. subst r.
  set (ops := operations (pending_ops (db s))) in *.
  assert (session_ok s1) as Hs1.
  { destruct Hs as [Hq Hw Hnm Hm]. split; [rewrite Hp; apply queue_default_wf|by rewrite Hn| |by rewrite Hi].
    unfold message_name. rewrite Hi, Hn, Hr. exact Hnm. }
  assert (∀ op, holds s op → holds s1 op ∨ covers ops op) as Hh1.
  { intros op [Hc|(m & o & Ho & Hc)]; [by right|left]. right. exists m, o. rewrite Hi. split; [done|].
    by rewrite (message_ops_any s m o _ (db s)). }
  case_bool_decide as E.
  - rewrite E in Hh1. split; [done|]. intros op [Hop|Hop%covers_nil]%Hh1; done.
  - set (most := max_ops_per_message limits `max` 1).
    assert (∀ s2, session_ok s2 → next_message_seq s2 = next_message_seq s →
      (∀ op, holds s op → holds s2 op ∨ covers (take most ops) op) →
      let s' := (send_ops (replica_id_of s1) (take most ops) s2).1 in
      session_ok s' ∧ ∀ op, holds s op → holds s' op) as Hsend.
    { intros s2 Hs2 Hn2 Hh2. destruct (send_ops_spec (replica_id_of s1) (take most ops) s2 Hs2) as [H1 H2]; [by rewrite Hn2|].
      split; [done|]. intros op Hop. by apply H2, Hh2. }
    destruct (most <? length ops) eqn:El.
    + destruct (requeue_grows (drop most ops) s1) as [Hg Hok]. destruct (requeue_ops (drop most ops) s1) as [s2 r].
      cbn [fst snd] in *. subst r. apply Hsend; [by eapply grows_ok|by rewrite (grows_seq _ _ _ Hg)|].
      intros op Hop%Hh1. rewrite <-(take_drop most ops), covers_app in Hop.
      destruct Hop as [Hop|[Hop|Hop]]; [left|by right|left]; eapply grows_holds; eauto.
    + apply Nat.ltb_ge in El. unfold mret, Task_ret. apply Hsend; [done|done|]. by rewrite take_ge.
Qed.

(** Losing the connection puts every message back in the queue. *)
Lemma take_back_all items s :
  session_ok s → inflight s = ∅ →
  (∀ o, o ∈ items → ∃ sender m ops, ∀ i, decode_sync_payload i (ob_encoding o) (ob_payload o) = Ok (FSync sender m ops)) →
  let s' := (sfor take_back items s).1 in
  (session_ok s' ∧ inflight s' = ∅ ∧ replica_id_of s' = replica_id_of s ∧ next_message_seq s' = next_message_seq s) ∧
  ∀ op, holds s op ∨ (∃ o, o ∈ items ∧ covers (message_ops (db s) o) op) → holds s' op.
Proof.
  revert s. induction items as [|o items IH]; intros s Hs Hi Hd.
  { split; [done|]. intros op [H|(o & H%not_elem_of_nil & _)]; done. }
  cbn [sfor]. unfold mbind, Task_bind. destruct (Hd o) as (sender & m & ops & Ho); [set_solver|].
  unfold take_back at 1 3 5 7 9. rewrite Ho. destruct (requeue_grows ops s) as [Hg _].
  pose proof (grows_ok _ _ _ Hg Hs) as Hs1. pose proof (grows_inflight _ _ _ Hg) as Hi1. rewrite Hi in Hi1.
  destruct (IH (requeue_ops ops s).1 Hs1 Hi1) as [(H1 & H2 & H3 & H4) H5]; [intros; apply Hd; set_solver|].
  split.
  - split_and!; [done|done|by rewrite H3, (grows_replica _ _ _ Hg)|by rewrite H4, (grows_seq _ _ _ Hg)].
  - intros op Hop. apply H5. destruct Hop as [Hop|(o' & [->|Ho']%elem_of_cons & Hc)].
    + left. eapply grows_holds; eauto.
    + left. eapply grows_holds; [done..|]. right. unfold message_ops in Hc. by rewrite Ho in Hc.
    + right. exists o'. split; [done|]. destruct (Hd o') as (? & ? & ? & Hd'); [set_solver|].
      unfold message_ops in *. by rewrite Hd' in *.
Qed.

Lemma lost_spec s : session_ok s →
  let s' := (connection_lost s).1 in session_ok s' ∧ ∀ op, holds s op → holds s' op.
Proof.
  intros Hs. unfold connection_lost, requeue_inflight_state, mbind, Task_bind, smod, sget.
  set (s1 := set_inflight ∅ _). set (items := (btree_list _).*2).
  assert (∀ o, o ∈ items ↔ ∃ m, inflight s !! m = Some o) as Hitems.
  { intros o. unfold items. rewrite list_elem_of_fmap. split.
    - intros ([m o'] & -> & Hin%elem_of_btree_list). by exists m.
    - intros [m Hm]. exists (m, o). split; [done|]. by apply elem_of_btree_list. }
  destruct (take_back_all items s1) as [(H1 & H2 & H3 & H4) H5].
  - destruct Hs as [Hq Hw Hnm Hm]. split; [done|done|..]; intros m o; cbn [s1 set_inflight inflight]; by rewrite lookup_empty.
  - done.
  - intros o [m (x & y & Hd)%(ok_messages s Hs)]%Hitems. by exists x, m, y.
  - assert (∃ s2 r, sfor take_back items s1 = (s2, Ok r)) as (s2 & r & E).
    { clear. generalize s1. induction items as [|o items IH]; intros s0; [by eexists _, _|]. cbn [sfor]. unfold mbind, Task_bind.
      destruct (IH (take_back o s0).1) as (s2 & r & E2). exists s2, r. rewrite <-E2. unfold take_back.
      destruct (decode_sync_payload _ _ _) as [[]|]; done. }
    rewrite E in *. cbn [fst] in *. split.
    + eapply kept_ok, H1. done.
    + intros op Hop. eapply kept_holds, H5; [done|done|]. destruct Hop as [Hc|(m & o & Ho & Hc)]; [by left; left|right].
      exists o. split; [by apply Hitems; exists m|]. done.
Qed.

Lemma journal_node_queue n i : pending_ops (journal_node n i) = pending_ops i ∧ clock (journal_node n i) = clock i.
Proof. unfold journal_node. destruct (transaction_journal i) as [t|]; [|done]. by case_decide. Qed.

Lemma journal_operation_queue_same q op i :
  pending_ops (journal_operation_queue q op i) = pending_ops i ∧ clock (journal_operation_queue q op i) = clock i.
Proof. unfold journal_operation_queue. destruct (transaction_journal i), q; done. Qed.

Lemma request_reindex_queue n i :
  pending_ops (request_reindex_node_relationships n i) = pending_ops i ∧
  clock (request_reindex_node_relationships n i) = clock i.
Proof.
  unfold request_reindex_node_relationships, reindex_node_relationships. destruct (transaction_journal i); [done|].
  apply (journal_node_queue n i).
Qed.

Lemma observe_actor r c : actor (observe r c) = actor c.
Proof. unfold observe. by repeat case_match. Qed.

(** Applying an operation queues it when it is local and accepted, and keeps the actor. *)
Lemma apply_operation_queue op origin i :
  let i' := (apply_operation_internal op origin i).1 in
  actor (clock i') = actor (clock i) ∧
  (pending_ops i' = pending_ops i ∨ origin = Local ∧ pending_ops i' = push (pending_ops i) op).
Proof.
  unfold apply_operation_internal. destruct (_ && _); [auto|]. destruct (_ && _); [auto|]. cbv zeta.
  set (i1 := set_clock _ i). set (i2 := journal_node _ i1). destruct (journal_node_queue (operation_source_node op) i1) as [Hp2 Hc2].
  fold i2 in Hp2, Hc2. assert (actor (clock i2) = actor (clock i)) as Ha2 by (rewrite Hc2; apply observe_actor).
  change (pending_ops i1) with (pending_ops i) in Hp2. destruct (apply_action op (nodes i2)) as [g []]; cbn [fst snd]; [|by auto].
  set (i3 := set_overlay _ _). destruct (request_reindex_queue (operation_source_node op) i3) as [Hp4 Hc4].
  set (i4 := request_reindex_node_relationships _ i3) in *. destruct (journal_operation_queue_same Unflushed op i4) as [Hp5 Hc5].
  set (i5 := journal_operation_queue _ _ i4) in *. set (i6 := set_unflushed_ops _ i5).
  assert (pending_ops i6 = pending_ops i ∧ actor (clock i6) = actor (clock i)) as [Hp6 Ha6].
  { change (pending_ops i5 = pending_ops i ∧ actor (clock i5) = actor (clock i)). rewrite Hp5, Hp4, Hc5, Hc4. done. }
  case_bool_decide as Ho; cbn [fst]; [|by auto].
  destruct (journal_operation_queue_same Pending op i6) as [Hp7 Hc7]. set (i7 := journal_operation_queue _ _ i6) in *.
  change (actor (clock i7) = actor (clock i) ∧ (push (pending_ops i7) op = pending_ops i ∨
    origin = Local ∧ push (pending_ops i7) op = push (pending_ops i) op)).
  rewrite Hp7, Hc7, Hp6. auto.
Qed.

Lemma apply_remote_queue op i :
  pending_ops (apply_operation_internal op Remote i).1 = pending_ops i ∧
  actor (clock (apply_operation_internal op Remote i).1) = actor (clock i).
Proof. by destruct (apply_operation_queue op Remote i) as [? [?|[? _]]]. Qed.

Lemma apply_remotes_queue ops i :
  pending_ops (apply_operations ops i).1 = pending_ops i ∧ actor (clock (apply_operations ops i).1) = actor (clock i).
Proof.
  revert i. induction ops as [|op ops IH]; intros i; [done|]. cbn [apply_operations fst].
  destruct (apply_remote_queue op i) as [H1 H2], (IH (apply_operation_internal op Remote i).1) as [H3 H4].
  by rewrite H3, H4, H1, H2.
Qed.

Lemma kept_finalize : ensures kept finalize.
Proof.
  intros s. unfold finalize. split; cbn [fst set_db db inflight next_message_seq]; [apply finalize_pending| |done..].
  unfold replica_id_of. cbn [set_db db]. by rewrite finalize_clock.
Qed.

Lemma kept_apply ops : ensures kept (apply_sync_envelope ops).
Proof.
  unfold apply_sync_envelope. tasks; [|apply kept_finalize].
  intros s. destruct (apply_remotes_queue ops (db s)) as [H1 H2]. by split.
Qed.

Lemma kept_remote_frame sender m ops reply : ensures kept (handle_sync_frame (FSync sender m ops) reply).
Proof. cbn [handle_sync_frame]. tasks; [apply kept_apply|apply kept_send_sync_frame]. Qed.

(** The operations of a message, when it is acknowledged. *)
Definition acknowledged (m : string) (s : SyncState) : list Operation :=
  match inflight s !! m with Some o => message_ops (db s) o | None => [] end.

Lemma ack_spec sender m n reply s :
  session_ok s → (next_message_seq s < u64_max)%Z →
  let s' := (handle_sync_frame (FAck sender m n) reply s).1 in
  session_ok s' ∧ ∀ op, holds s op → covers (acknowledged m s) op ∨ holds s' op.
Proof.
  intros Hs Hlt. cbn [handle_sync_frame]. unfold mbind, Task_bind, smod, signore. cbn [fst].
  set (s1 := set_inflight _ s).
  assert (session_ok s1) as Hs1.
  { destruct Hs as [Hq Hw Hnm Hm]. split; [done|done|..]; cbn [s1 set_inflight inflight]; intros k o [_ Ho]%lookup_delete_Some; eauto. }
  destruct (flush_spec s1 Hs1 Hlt) as [H1 H2]. split; [done|]. intros op [Hc|(k & o & Ho & Hc)].
  - right. apply H2. by left.
  - destruct (decide (k = m)) as [->|Hne]; [left; unfold acknowledged; by rewrite Ho|].
    right. apply H2. right. exists k, o. split; [|done]. cbn [s1 set_inflight inflight]. by rewrite lookup_delete_ne.
Qed.

(** What happens to a session, with the operations that are acknowledged: local changes of
the database, the tasks that send and retry, the connection, messages of other peers.
A session sends fewer than 2^64 messages. *)
Inductive sync_step (s : SyncState) : list Operation → SyncState → Prop :=
  | step_local i' :
      actor (clock i') = actor (clock (db s)) → queue_wf (pending_ops i') →
      (∀ op, covers (operations (pending_ops (db s))) op → covers (operations (pending_ops i')) op) →
      sync_step s [] (set_db i' s)
  | step_flush : (next_message_seq s < u64_max)%Z → sync_step s [] (flush_pending_state s).1
  | step_interval : (next_message_seq s < u64_max)%Z → sync_step s [] (on_interval s).1
  | step_lost : sync_step s [] (connection_lost s).1
  | step_made a : (next_message_seq s < u64_max)%Z → sync_step s [] (connection_made a s).1
  | step_remote sender m ops reply : sync_step s [] (handle_sync_frame (FSync sender m ops) reply s).1
  | step_ack sender m n reply : (next_message_seq s < u64_max)%Z →
      sync_step s (acknowledged m s) (handle_sync_frame (FAck sender m n) reply s).1
  | step_item e x : quiet x = true → sync_step s [] (handle_item e x s).1.

(** A step that keeps everything, then a flush. *)
Lemma kept_flush s s1 : kept s s1 → session_ok s → (next_message_seq s < u64_max)%Z →
  let s' := (flush_pending_state s1).1 in session_ok s' ∧ ∀ op, holds s op → holds s' op.
Proof.
  intros Hk Hs Hlt. destruct (flush_spec s1) as [H1 H2]; [by eapply kept_ok|by rewrite (kept_seq _ _ Hk)|].
  split; [done|]. intros op Hop. apply H2. by eapply kept_holds.
Qed.

Lemma sync_step_spec s a s' : sync_step s a s' → session_ok s →
  session_ok s' ∧ ∀ op, holds s op → covers a op ∨ holds s' op.
Proof.
  intros Hstep Hs. destruct Hstep as [i' Ha Hq Hc|Hlt|Hlt| |ann Hlt|sender m ops reply|sender m n reply Hlt|e x Hx].
  - split.
    + destruct Hs as [_ Hw Hnm Hm]. split; [done|done| |done]. unfold message_name, replica_id_of in *.
      cbn [set_db db inflight next_message_seq]. by rewrite Ha.
    + intros op [Hop|(m & o & Ho & Hop)]; right; [left; by apply Hc|right]. exists m, o.
      by rewrite (message_ops_any s m o _ (db s)).
  - destruct (flush_spec s Hs Hlt). split; [done|auto].
  - unfold on_interval, mbind, Task_bind, sget. destruct (connected s); [|by auto].
    cbn [signore fst]. destruct (kept_flush s (retry_inflight_state s).1) as [H1 H2]; [apply kept_retry|done|done|].
    split; [done|auto].
  - destruct (lost_spec s Hs). split; [done|auto].
  - unfold connection_made, mbind, Task_bind, smod, signore. cbn [fst]. set (s1 := set_outbound _ _).
    destruct (kept_flush s (retry_inflight_state s1).1) as [H1 H2]; [|done|done|split; [done|auto]].
    transitivity s1; [done|apply kept_retry].
  - pose proof (kept_remote_frame sender m ops reply s) as Hk. split; [by eapply kept_ok|]. intros op Hop. right.
    by eapply kept_holds.
  - apply (ack_spec sender m n reply s Hs Hlt).
  - pose proof (kept_quiet e x Hx s) as Hk. split; [by eapply kept_ok|]. intros op Hop. right. by eapply kept_holds.
Qed.

(** A local write is such a change of the database. *)
Lemma write_local_grows ns act i :
  queue_wf (pending_ops i) →
  let i' := write_local ns act i in
  actor (clock i') = actor (clock i) ∧ queue_wf (pending_ops i') ∧
  ∀ op, covers (operations (pending_ops i)) op → covers (operations (pending_ops i')) op.
Proof.
  intros Hq. unfold write_local. destruct (local_operation ns act i) as [op0 i0] eqn:E.
  assert (actor (clock i0) = actor (clock i) ∧ pending_ops i0 = pending_ops i) as [Ha Hp].
  { unfold local_operation in E. destruct (next_revision _ _) as [rev c] eqn:Er. unfold next_op_id in E.
    simplify_eq/=. unfold next_revision in Er. split; [|done]. simplify_eq/=. by case_match. }
  destruct (apply_operation_queue op0 Local i0) as [H1 H2].
  rewrite H1, Ha. split_and!; [done|..].
  - destruct H2 as [->|[_ ->]]; rewrite Hp; [done|by apply push_wf].
  - intros op Hop. destruct H2 as [->|[_ ->]]; rewrite Hp; [done|]. apply covers_push; [done|]. apply covers_app. by left.
Qed.
End delivery.

Section runs.
Context `{HC : Codec, HE : Env, W : !Wire, Sv : !Services, Sg : !Signatures, SE : !SessionEnv, Laws : !SessionLaws}.

(** The clock that routes are stamped with moves from step to step. *)
Inductive sync_run (s : SyncState) : list Operation → SyncState → Prop :=
  | run_refl : sync_run s [] s
  | run_step (RE : RouteEnv) a s1 b s2 : sync_run s a s1 → sync_step s1 b s2 → sync_run s (a ++ b) s2.

End runs.

(** * Peers that are not authenticated *)

Section inert.
Context `{HC : Codec, HE : Env, W : !Wire, Sv : !Services, RE : !RouteEnv, Sg : !Signatures, SE : !SessionEnv}.

(** The data, what applications are given and what peers watch are as before. *)
Record inert (s s' : SyncState) : Prop := {
  inert_db : db s' = db s;
  inert_applications : applications s' = applications s;
  inert_incoming : incoming_watches s' ⊆ incoming_watches s;
  inert_verified : verified_identities s' ⊆ verified_identities s;
  inert_auth : session_auth s' = session_auth s
}.

#[global] Instance inert_preorder : PreOrder inert.
Proof. split; [by split|]. intros a b c [] []. split; [congruence..|by etransitivity|by etransitivity|congruence]. Qed.

Lemma inert_wrapped f : ensures inert (wrapped f).
Proof. intros s. by split. Qed.

Lemma inert_send_route e : ensures inert (send_route e).
Proof. unfold send_route. tasks. by split. Qed.

Lemma inert_removed p s : inert s (remove_relay_peer_state p s).
Proof. split; [done..| |done]. apply delete_subseteq. Qed.

Lemma inert_admit c r : ensures inert (admit_peer c r).
Proof.
  unfold admit_peer. destruct (allow_peer_connection _ c); tasks; [by split| |apply inert_removed].
  unfold replay_outgoing_watches_for_peer, send_watch_request. tasks; [apply inert_wrapped|apply inert_send_route].
Qed.

Lemma inert_challenge p : ensures inert (maybe_send_relay_auth_challenge p).
Proof.
  unfold maybe_send_relay_auth_challenge. tasks. destruct (identity p) as [who|]; tasks;
    try (by split); [apply inert_send_route|apply inert_removed].
Qed.

Lemma inert_barred p s s' : inert s s' → barred p s = true → barred p s' = true.
Proof.
  intros Hi. unfold barred, verified_identity_for_peer. rewrite (inert_auth _ _ Hi), !andb_true_iff, !bool_decide_eq_true.
  intros [-> Hn]. split; [done|]. by eapply lookup_weaken_None, (inert_verified _ _ Hi).
Qed.

(** All but the snapshots, which are loaded from anyone, and the answers to challenges. *)
Definition harmless (x : RouteBatchItem) : bool :=
  match x with ISnapshotResponse _ _ | IAuthResponse _ => false | _ => true end.

Lemma inert_refuse p w n b m : ensures inert (refuse_watch p w n b m).
Proof. unfold refuse_watch. tasks; [apply inert_wrapped|apply inert_send_route]. Qed.

Lemma inert_drop w : ensures inert (drop_incoming w).
Proof. unfold drop_incoming. tasks. split; [done..| |done|done]. apply delete_subseteq. Qed.

Lemma inert_watch_event ev : ensures inert (accept_watch_event ev).
Proof.
  unfold accept_watch_event. tasks. destruct a as [w|]; [|tasks].
  destruct (match ow_delivered w with Some _ => _ | None => _ end); [tasks|].
  destruct (open_sequence w ev) as [p|]; [|tasks]. cbv zeta. destruct (apply_response_body _ _).2; tasks; by split.
Qed.

Lemma inert_item e x s : barred (from e) s = true → harmless x = true → inert s (handle_item e x s).1.
Proof.
  intros Hb. destruct x; intros Hh; try discriminate Hh; clear Hh; cbn [handle_item].
  - unfold handle_application, mbind, Task_bind, sget. by rewrite Hb.
  - unfold handle_sync_route, mbind, Task_bind, sget. by rewrite Hb.
  - cut (ensures inert (handle_presence peer)); [intros Hp; apply Hp|].
    unfold handle_presence. tasks; [apply inert_challenge|apply inert_admit].
  - done.
  - unfold handle_snapshot_request, mbind, Task_bind, sget. by rewrite Hb.
  - unfold handle_pull_request, mbind, Task_bind, sget. rewrite Hb. unfold mret, Task_ret.
    cut (∀ rs, ensures inert (send_pull_responses (from e) (route_id e) rs)); [intros Hp; apply Hp|]. intros rs.
    unfold send_pull_responses. tasks; [intros s0; by split|]. unfold send_routes. tasks. apply inert_send_route.
  - by split.
  - unfold handle_watch_request. destruct (watch_kind request) as [k|].
    + unfold mbind, Task_bind, sget. rewrite Hb. apply inert_refuse.
    + apply inert_drop.
  - apply inert_watch_event.
  - cut (ensures inert (sfor handle_recommendation peers)); [intros Hp; apply Hp|]. tasks. unfold handle_recommendation.
    tasks; [apply inert_challenge|apply inert_admit].
  - cut (ensures inert (handle_relay_auth_challenge challenge)); [intros Hp; apply Hp|]. unfold handle_relay_auth_challenge. tasks.
    destruct a1 as [r|]; tasks; [apply inert_wrapped|apply inert_send_route].
Qed.

Definition route_items (e : RouteEnvelope) : list RouteBatchItem :=
  match payload e with Single x => [x] | Batch l => l end.

Lemma inert_items e l s : barred (from e) s = true → forallb harmless l = true → inert s (sfor (handle_item e) l s).1.
Proof.
  revert s. induction l as [|x l IH]; intros s Hb; [done|]. cbn [forallb sfor]. rewrite andb_true_iff. intros [Hx Hl].
  pose proof (inert_item e x s Hb Hx) as Hi. unfold mbind, Task_bind. destruct (handle_item e x s) as [s1 [[]|err]]; [|done].
  etransitivity; [exact Hi|]. apply IH; [|done]. by eapply inert_barred.
Qed.

End inert.

(** * Identities come from answered challenges *)

Section verified.
Context `{HC : Codec, HE : Env, W : !Wire, Sv : !Services, Sg : !Signatures, SE : !SessionEnv}.

(** A challenge that was sent to the peer it names. *)
Definition asked (s : SyncState) (c : AuthChallenge) : Prop :=
  ∃ e, e ∈ outbound s ∧ payload e = Single (IAuthChallenge c) ∧ target e = ToPeer (target_peer c).

Record auth_inv (s : SyncState) : Prop := {
  inv_pending k c : pending_auth_challenges s !! k = Some c → asked s c;
  inv_verified p v : verified_identities s !! p = Some v → vi_peer v = p ∧
    ∃ now c r, asked s c ∧ target_peer c = p ∧ verify_auth_response now now c r (session_auth s) = Ok v
}.

(** Nothing is added to the challenges that wait or to the identities. *)
Record calm (s s' : SyncState) : Prop := {
  calm_outbound : outbound s `prefix_of` outbound s';
  calm_pending : pending_auth_challenges s' ⊆ pending_auth_challenges s;
  calm_verified : verified_identities s' ⊆ verified_identities s;
  calm_auth : session_auth s' = session_auth s
}.

#[global] Instance calm_preorder : PreOrder calm.
Proof.
  split; [by split|]. intros a b c [] []. split; [by etransitivity|by etransitivity|by etransitivity|congruence].
Qed.

Lemma asked_calm s s' c : outbound s `prefix_of` outbound s' → asked s c → asked s' c.
Proof. intros [l Hl] (e & He & Hp). exists e. rewrite Hl, elem_of_app. auto. Qed.

Lemma auth_inv_calm s s' : calm s s' → auth_inv s → auth_inv s'.
Proof.
  intros [Ho Hp Hv Ha] [Hi1 Hi2]. split.
  - intros k c Hc. eapply asked_calm, Hi1; [done|]. by eapply lookup_weaken.
  - intros p v Hpv. destruct (Hi2 p v) as (Hvp & now & c & r & Hc & Ht & Hr); [by eapply lookup_weaken|].
    split; [done|]. exists now, c, r. rewrite Ha. split_and!; [by eapply asked_calm|done..].
Qed.

Section calm.
Context {RE : RouteEnv}.

Lemma calm_send_route e : ensures calm (send_route e).
Proof. unfold send_route. tasks. split; [by apply prefix_app_r|done..]. Qed.

Lemma calm_send_routes es : ensures calm (send_routes es).
Proof. unfold send_routes. tasks. apply calm_send_route. Qed.

Lemma calm_wrapped f : ensures calm (wrapped f).
Proof. intros s. by split. Qed.

Lemma calm_on_db {A} (m : M A) : ensures calm (on_db m).
Proof. intros s. by split. Qed.

Lemma calm_finalize : ensures calm finalize.
Proof. intros s. by split. Qed.

Lemma calm_requeue ops : ensures calm (requeue_ops ops).
Proof. unfold requeue_ops. tasks; [by split|apply calm_finalize]. Qed.

Lemma calm_next_id : ensures calm next_message_id.
Proof. intros s. by split. Qed.

Lemma calm_send_ops from ops : ensures calm (send_ops from ops).
Proof.
  unfold send_ops. tasks; [apply calm_next_id|apply calm_wrapped|].
  intros s. unfold settle_send. pose proof (calm_send_route a2 s) as H1. destruct (send_route a2 s) as [s1 [[]|err]]; cbn [fst] in *.
  - etransitivity; [exact H1|]. by split.
  - etransitivity; [exact H1|]. apply calm_requeue.
Qed.

Lemma calm_flush : ensures calm flush_pending_state.
Proof.
  unfold flush_pending_state. tasks.
  - unfold drain_ops. tasks; [apply calm_on_db|apply calm_finalize].
  - apply calm_requeue.
  - apply calm_send_ops.
Qed.

Lemma calm_retry : ensures calm retry_inflight_state.
Proof. unfold retry_inflight_state, resend. tasks; [apply calm_wrapped|apply calm_send_route]. Qed.

Lemma calm_removed p s : calm s (remove_relay_peer_state p s).
Proof. split; [done..| |done]. apply delete_subseteq. Qed.

Lemma calm_admit c r : ensures calm (admit_peer c r).
Proof.
  unfold admit_peer. destruct (allow_peer_connection _ c); tasks; [by split| |apply calm_removed].
  unfold replay_outgoing_watches_for_peer, send_watch_request. tasks; [apply calm_wrapped|apply calm_send_route].
Qed.

Lemma calm_frame f reply : ensures calm (handle_sync_frame f reply).
Proof.
  destruct f; cbn [handle_sync_frame]; tasks; [| |by split|apply calm_flush].
  - unfold apply_sync_envelope. tasks; [apply calm_on_db|apply calm_finalize].
  - unfold send_sync_frame. tasks; [apply calm_wrapped|apply calm_send_route].
Qed.

Lemma calm_refuse p w n b m : ensures calm (refuse_watch p w n b m).
Proof. unfold refuse_watch. tasks; [apply calm_wrapped|apply calm_send_route]. Qed.

Lemma calm_emit w initial : ensures calm (emit_single_incoming_watch_update w initial).
Proof.
  unfold emit_single_incoming_watch_update. tasks. destruct a as [x|]; [|tasks]. tasks; [apply calm_refuse|by split|apply calm_on_db|].
  destruct a1 as [v|m]; tasks; [|by split|apply calm_refuse|by split].
  unfold send_watch_events. tasks; [intros s; by split|apply calm_send_routes].
Qed.

Lemma calm_emits ev : ensures calm (emit_incoming_watch_updates ev).
Proof.
  unfold emit_incoming_watch_updates. tasks. generalize 0. induction a as [|w ids IH]; intros n; cbn [emit_each]; tasks; [apply calm_emit|apply IH].
Qed.

Lemma calm_watch_request p q : ensures calm (handle_watch_request p q).
Proof.
  unfold handle_watch_request. destruct (watch_kind q) as [k|]; [|unfold drop_incoming; tasks; by split].
  tasks; [apply calm_refuse|]. destruct (authorize_watch_request_for_peer _ _ _ _ _ _); [|apply calm_refuse].
  tasks; [|apply calm_emit]. unfold register_watch. tasks. by split.
Qed.

Lemma calm_watch_event ev : ensures calm (accept_watch_event ev).
Proof.
  unfold accept_watch_event. tasks. destruct a as [w|]; [|tasks].
  destruct (match ow_delivered w with Some _ => _ | None => _ end); [tasks|].
  destruct (open_sequence w ev) as [p|]; [|tasks]. cbv zeta. destruct (apply_response_body _ _).2; tasks; by split.
Qed.

Lemma calm_pull_request p route q : ensures calm (handle_pull_request p route q).
Proof.
  unfold handle_pull_request, send_pull_responses. tasks; [apply calm_on_db|intros s; by split|apply calm_send_routes].
Qed.

Lemma calm_snapshot_request p route root : ensures calm (handle_snapshot_request p route root).
Proof.
  unfold handle_snapshot_request. tasks; [apply calm_on_db|]. destruct a1 as [[]|]; tasks; [apply calm_wrapped|apply calm_send_route].
Qed.

(** The invariant is kept. *)
Definition safe (s s' : SyncState) : Prop := auth_inv s → auth_inv s'.

#[local] Instance safe_preorder : PreOrder safe.
Proof. split; [by intros s Hs|]. intros a b c H1 H2 Ha. by apply H2, H1. Qed.

Lemma calm_safe {A} (m : Task A) : ensures calm m → ensures safe m.
Proof. intros Hm s Hs. by eapply auth_inv_calm, Hs. Qed.

Lemma send_route_sent e s s' : send_route e s = (s', Ok tt) → e ∈ outbound s' ∧ calm s s'.
Proof.
  intros E. pose proof (calm_send_route e s) as Hc. rewrite E in Hc. split; [|done].
  unfold send_route, mbind, Task_bind, slift, sget in E. destruct (route_bytes e) as [n|]; [|done].
  destruct (_ <? n); [done|]. destruct (negb _); [done|]. injection E as <-. cbn. set_solver.
Qed.

Lemma safe_challenge p : ensures safe (maybe_send_relay_auth_challenge p).
Proof.
  intros s Hs. unfold maybe_send_relay_auth_challenge, mbind, Task_bind, sget. destruct (_ || _); [done|].
  destruct (identity p) as [who|].
  - set (c := create_auth_challenge _ _ _ _ _ _ _ _ _ _ _). unfold wrapped. set (s1 := set_router _ s). set (e := (auth_challenge _ _ _).2).
    assert (calm s s1) as H1 by by split. destruct (send_route e s1) as [s2 [[]|err]] eqn:E.
    + apply send_route_sent in E as [Hin H2]. pose proof (auth_inv_calm _ _ H2 (auth_inv_calm _ _ H1 Hs)) as Hs2.
      unfold smod. cbn [fst]. destruct Hs2 as [Hi1 Hi2]. split; cbn [set_pending_auth_peers set_pending_auth_challenges pending_auth_challenges verified_identities].
      * intros k c' [[<- <-]|[_ Hc]]%lookup_insert_Some; [|by apply Hi1 in Hc]. exists e. split_and!; [exact Hin|reflexivity..].
      * exact Hi2.
    + pose proof (calm_send_route e s1) as H2. rewrite E in H2. cbn [fst] in *. by eapply auth_inv_calm, auth_inv_calm.
  - destruct (allow_unauthenticated_presence _); [done|]. eapply auth_inv_calm, Hs. apply calm_removed.
Qed.

(** A verified identity is that of the peer which was challenged. *)
Lemma verified_target now now' c r cfg v : verify_auth_response now now' c r cfg = Ok v → vi_peer v = target_peer c.
Proof.
  unfold verify_auth_response. repeat case_match; intros; simplify_eq/=; try done;
    repeat match goal with H : _ || _ = false |- _ => apply orb_false_iff in H as [? ?] end;
    repeat match goal with H : negb _ = false |- _ => apply negb_false_iff in H end;
    repeat match goal with H : bool_decide _ = true |- _ => apply bool_decide_eq_true in H end; done.
Qed.

Lemma safe_auth_response r : ensures safe (handle_relay_auth_response r).
Proof.
  intros s Hs. unfold handle_relay_auth_response, mbind, Task_bind, sget, smod.
  destruct (pending_auth_challenges s !! ar_challenge r) as [c|] eqn:Ec; [|done].
  set (s1 := set_pending_auth_challenges _ s). set (s2 := set_pending_auth_peers _ s1).
  assert (calm s s2) as H2 by (split; [done|apply delete_subseteq|done..]).
  pose proof (auth_inv_calm _ _ H2 Hs) as Hs2. unfold slift.
  destruct (verify_auth_response _ _ c r _) as [v|err] eqn:Ev; [|done].
  set (s3 := set_verified_identities _ s2).
  assert (auth_inv s3) as Hs3.
  { destruct Hs2 as [Hi1 Hi2]. split; [exact Hi1|]. cbn [s3 set_verified_identities verified_identities]. intros p v' [[<- <-]|[_ Hp]]%lookup_insert_Some; [|by apply Hi2].
    pose proof (verified_target _ _ _ _ _ _ Ev) as Ht. split; [done|].
    exists route_now, c, r. split_and!; [by apply (inv_pending s Hs) in Ec|done|done]. }
  match goal with |- context [accept_relay_peer ?p ?w s3] => pose proof (calm_admit (mkConnect p Relay (peer_metadata p !! "relay_url") w)
    (peer_recommendation_from_presence p) s3) as H4; fold (accept_relay_peer p w) in H4; destruct (accept_relay_peer p w s3) as [s4 [[]|err]] end;
    cbn [fst] in *; [by eapply auth_inv_calm| |by eapply auth_inv_calm].
  eapply auth_inv_calm, (auth_inv_calm _ _ H4 Hs3). split; [done..| |done]. apply delete_subseteq.
Qed.

Lemma safe_item e x : ensures safe (handle_item e x).
Proof.
  destruct x; cbn [handle_item].
  - apply calm_safe. unfold handle_application. tasks. by split.
  - apply calm_safe. unfold handle_sync_route. tasks. apply calm_frame.
  - unfold handle_presence. tasks; [apply safe_challenge|apply calm_safe, calm_admit].
  - tasks.
  - apply calm_safe, calm_snapshot_request.
  - apply calm_safe. tasks; [by split|apply calm_finalize].
  - apply calm_safe, calm_pull_request.
  - apply calm_safe. intros s. by split.
  - apply calm_safe, calm_watch_request.
  - apply calm_safe, calm_watch_event.
  - unfold handle_recommendation. tasks; [apply safe_challenge|apply calm_safe, calm_admit].
  - apply calm_safe. unfold handle_relay_auth_challenge. tasks. destruct a1; tasks; [apply calm_wrapped|apply calm_send_route].
  - apply safe_auth_response.
Qed.

Lemma safe_incoming m : ensures safe (handle_incoming_text m).
Proof.
  destruct m as [e|f]; cbn [handle_incoming_text]; [|apply calm_safe, calm_frame].
  unfold handle_route_envelope. tasks; [apply calm_safe; intros s; by split|].
  unfold handle_route_payload. destruct (payload e); tasks; apply safe_item.
Qed.

Lemma calm_take_back o : ensures calm (take_back o).
Proof. intros s. unfold take_back. destruct (decode_sync_payload _ _ _) as [[]|]; [apply calm_requeue|done..]. Qed.

Lemma calm_lost : ensures calm connection_lost.
Proof.
  unfold connection_lost, requeue_inflight_state, fail_pending_requests, clear_incoming_watches. tasks; try (by split).
  apply calm_take_back.
Qed.
End calm.

(** What happens to a session: a message arrives, the connection is lost or regained, an
interval passes, the database changes and tells it. *)
Inductive session_step (s : SyncState) : SyncState → Prop :=
  | on_message (RE : RouteEnv) m : session_step s (handle_incoming_text m s).1
  | on_lost : session_step s (connection_lost s).1
  | on_made (RE : RouteEnv) a : session_step s (connection_made a s).1
  | on_tick (RE : RouteEnv) : session_step s (on_interval s).1
  | on_written i : session_step s (set_db i s)
  | on_event (RE : RouteEnv) ev : session_step s (on_change ev s).1.

Lemma session_step_safe s s' : session_step s s' → auth_inv s → auth_inv s'.
Proof.
  intros [RE m| |RE a|RE|i|RE ev] Hs.
  - by apply safe_incoming.
  - eapply auth_inv_calm, Hs. apply calm_lost.
  - eapply auth_inv_calm, Hs. revert s Hs. intros s _. cut (ensures calm (connection_made a)); [intros Hp; apply Hp|].
    unfold connection_made. tasks; [split; [by apply prefix_app_r|done..]|apply calm_retry|apply calm_flush].
  - eapply auth_inv_calm, Hs. cut (ensures calm on_interval); [intros Hp; apply Hp|].
    unfold on_interval. tasks; [apply calm_retry|apply calm_flush].
  - eapply auth_inv_calm, Hs. by split.
  - eapply auth_inv_calm, Hs. cut (ensures calm (on_change ev)); [intros Hp; apply Hp|].
    unfold on_change. tasks; [apply calm_flush|apply calm_emits].
Qed.

(** C7: An identity that a session holds for a peer comes from a handshake with that peer:
at every point of a session that starts with none, the session has sent a challenge to
the peer, and the identity is what the verification of an answer to that challenge gave.
Nothing else (presence, recommendations, another peer's answer) makes a peer verified. *)
Theorem verified_by_challenge s s' p v :
  rtc session_step s s' → verified_identities s = ∅ → pending_auth_challenges s = ∅ →
  verified_identities s' !! p = Some v →
  vi_peer v = p ∧ ∃ now c r e,
    e ∈ outbound s' ∧ payload e = Single (IAuthChallenge c) ∧ target e = ToPeer p ∧
    verify_auth_response now now c r (session_auth s') = Ok v.
Proof.
  intros Hrun Hv Hp. assert (auth_inv s) as Hs by (split; [rewrite Hp|rewrite Hv]; intros ? ?; by rewrite lookup_empty).
  intros Hpv. assert (auth_inv s') as Hs' by (clear Hpv Hv Hp; induction Hrun; [done|]; by eauto using session_step_safe).
  destruct (inv_verified s' Hs' p v Hpv) as (H1 & now & c & r & (e & He & Hpay & Ht) & <- & Hr). split; [done|].
  by exists now, c, r, e.
Qed.
End verified.

(** * A concrete session *)

Module Link.
(** A serialization of frames as arrays. *)
Definition num (n : Z) : json := JNumber (PosInt n).

Definition value_json (v : OperationValue) : json :=
  match v with
  | OScalar v => JArray [JString "scalar"; v]
  | OBytes b => JArray [JString "bytes"; JArray (num <$> bytes_of b)]
  | OBlob r => JArray [JString "blob"; JString (blob_id r); num (blob_bytes r);
                       match media_type r with Some t => JString t | None => JNull end]
  | OLink t => JArray [JString "link"; JString t]
  | OSet ms => JArray [JString "set"; JArray (JString <$> ms)]
  end.

Definition action_json (a : OperationAction) : json :=
  match a with
  | SetField n f v => JArray [JString "put"; JString n; JString f; value_json v]
  | AddSetMember n f m => JArray [JString "add"; JString n; JString f; JString m]
  | RemoveSetMember n f m => JArray [JString "remove"; JString n; JString f; JString m]
  | DeleteField n f => JArray [JString "delete"; JString n; JString f]
  end.

Definition op_json (o : Operation) : json :=
  JArray [JString (op_id o); JString (author o); num (millis (op_revision o)); num (counter (op_revision o));
          JString (rev_actor (op_revision o)); action_json (action o)].

Definition frame_json (f : SyncFrame) : json :=
  match f with
  | FSync s m ops => JArray [JString "sync"; JString s; JString m; JArray (op_json <$> ops)]
  | FAck s m n => JArray [JString "ack"; JString s; JString m; num (Z.of_nat n)]
  end.

Definition json_num (j : json) : option Z := match j with JNumber (PosInt n) => Some n | _ => None end.
Definition json_str (j : json) : option string := match j with JString s => Some s | _ => None end.

Definition json_value (j : json) : option OperationValue :=
  match j with
  | JArray [JString tag; v] =>
      if decide (tag = "scalar") then Some (OScalar v)
      else
        match v with
        | JArray l => if decide (tag = "bytes") then (λ b, OBytes (mkBytes b)) <$> mapM json_num l else OSet <$> mapM json_str l
        | JString t => Some (OLink t)
        | _ => None
        end
  | JArray [_; JString i; JNumber (PosInt n); t] => Some (OBlob (mkBlobRef i n (json_str t)))
  | _ => None
  end.

Definition json_action (j : json) : option OperationAction :=
  match j with
  | JArray [JString tag; JString n; JString f; x] =>
      if decide (tag = "put") then SetField n f <$> json_value x
      else if decide (tag = "add") then AddSetMember n f <$> json_str x
      else RemoveSetMember n f <$> json_str x
  | JArray [_; JString n; JString f] => Some (DeleteField n f)
  | _ => None
  end.

Definition json_op (j : json) : option Operation :=
  match j with
  | JArray [JString i; JString a; JNumber (PosInt m); JNumber (PosInt c); JString r; x] =>
      mkOp i a (mkRevision m c r) <$> json_action x
  | _ => None
  end.

Definition json_frame (j : json) : result SyncFrame :=
  match j with
  | JArray [JString _; JString s; JString m; JArray l] =>
      match mapM json_op l with Some ops => Ok (FSync s m ops) | None => Err (Message "not a frame") end
  | JArray [JString _; JString s; JString m; JNumber (PosInt n)] => Ok (FAck s m (Z.to_nat n))
  | _ => Err (Message "not a frame")
  end.

Lemma mapM_fmap_inv {A} (g : json → option A) (f : A → json) l : (∀ a, g (f a) = Some a) → mapM g (f <$> l) = Some l.
Proof. intros Hgf. induction l as [|a l IH]; [done|]. rewrite fmap_cons. cbn [mapM]. rewrite Hgf. cbn. by rewrite IH. Qed.

Lemma value_roundtrip v : json_value (value_json v) = Some v.
Proof.
  destruct v as [v|[b]|[i n [t|]]|t|ms]; cbn.
  - by destruct v.
  - by rewrite (mapM_fmap_inv json_num num b).
  - done.
  - done.
  - done.
  - by rewrite (mapM_fmap_inv json_str JString ms).
Qed.

Lemma op_roundtrip o : json_op (op_json o) = Some o.
Proof. destruct o as [i a [m c r] [n f v|n f x|n f x|n f]]; cbn; [rewrite value_roundtrip|..]; done. Qed.

Lemma frame_roundtrip f : json_frame (frame_json f) = Ok f.
Proof.
  destruct f as [s m ops|s m n]; cbn; [|by rewrite Nat2Z.id].
  by rewrite (mapM_fmap_inv json_op op_json ops op_roundtrip).
Qed.

#[export] Existing Instances Exchange.unit_wire Sample.env Handshake.toy.

Definition roomy : SessionLimits := mkSessionLimits 1 1000 8 4 4 Exchange.limits.

Definition plain : SessionEnv :=
  {| limits := roomy; network_hooks := None; route_bytes := λ _, Ok 100; result_hash := λ _, None;
     frame_to_value := λ f, Ok (frame_json f); frame_from_value := json_frame;
     secure_sync_frame := λ _ f, Ok (Plain f); decode_secure_sync_frame := λ _ _, Err (Message "sealed");
     local_user := None; random_text := λ label n, label +:+ hex (Z.of_nat n); finalize_change := λ i, (i, Ok tt) |}.

Lemma plain_laws : @SessionLaws _ _ plain.
Proof.
  split; [done..|by eexists|]. intros i i' f p [= <-]. cbn. apply frame_roundtrip.
Qed.

Definition start (i : Inner) (cfg : SessionAuthConfig) (up : bool) : SyncState :=
  mkSync i (router_new (mkRouterConfig "native:r1" "primadb-sync" 6 16)) WebSocket (bus_new 4) "s1" cfg up 0 ∅ (mkRequests ∅ [])
    ∅ ∅ ∅ ∅ ∅ ∅ [] [].

Definition relaxed : SessionAuthConfig := mkAuthConfig false [] [] 10000 300000 true.

Definition edit (n : Z) (f : string) : Operation := mkOp ("r1:" +:+ hex n) "r1" (mkRevision 1000 n "r1") (SetField "ada" f (OScalar (num n))).

Definition queued_up : SyncState :=
  start (set_pending_ops (from_operations [edit 1 "name"; edit 2 "age"]) demo_db) relaxed true.

#[export] Existing Instances demo_codec demo_env Serve.Reading.no_services.

Definition sent : SyncState := (flush_pending_state (SE := plain) queued_up).1.


(** When the encoding of a message fails, the operations taken for it are dropped: they
are neither queued nor in flight. *)
Definition no_key : SessionEnv :=
  {| limits := roomy; network_hooks := None; route_bytes := λ _, Ok 100; result_hash := λ _, None;
     frame_to_value := λ f, Ok (frame_json f); frame_from_value := json_frame;
     secure_sync_frame := λ _ _, Err (Crypto "no key for the root"); decode_secure_sync_frame := λ _ _, Err (Message "sealed");
     local_user := None; random_text := λ label n, label +:+ hex (Z.of_nat n); finalize_change := λ i, (i, Ok tt) |}.

Lemma encoding_failure_drops :
  let s := (flush_pending_state (SE := no_key) queued_up).1 in
  operations (pending_ops (db s)) = [edit 2 "age"] ∧ inflight s = ∅ ∧ outbound s = [].
Proof. by vm_compute. Qed.

(** ** Authentication *)

Definition strict : SessionAuthConfig := mkAuthConfig true [] ["alice"] 10000 300000 true.

Definition closed_room : SyncState := start demo_db strict true.

Definition route_from (n : string) (x : RouteBatchItem) : RouteEnvelope :=
  mkEnvelope (n +:+ "/route/1") n "primadb-sync" Broadcast 6 0 1000 None None [n] (Single x).


(** A snapshot is loaded from a peer that never authenticated and was never asked: its
graph, its queue and its replica's name replace those of the database. *)
Lemma snapshot_replaces_unasked :
  let e := route_from "native:r9" (ISnapshotResponse None (mkSnapshot (with_actor "r9" 5) ∅ [] ∅)) in
  let s' := (handle_route_envelope (SE := plain) e closed_room).1 in
  barred "native:r9" closed_room = true ∧ replica_id_of closed_room = "r1" ∧ replica_id_of s' = "r9".
Proof. by vm_compute. Qed.

Definition announced : PeerPresence :=
  mkPresence "native:ra" "ra" "websocket" (Some (mkPresenceIdentity "key-a" (Some "alice") "ed25519" "s2" ∅ 0 None)) [] [] ∅.

Definition greeted : SyncState := (handle_incoming_text (SE := plain) (inl (route_from "native:ra" (IPresence announced))) closed_room).1.

Definition challenged : AuthChallenge :=
  create_auth_challenge 1000 "challenge0" "nonce0" "native:r1" "r1" "s1" "native:ra" "ra"
    (mkPresenceIdentity "key-a" (Some "alice") "ed25519" "s2" ∅ 0 None) "relay" strict.

Definition answered_by (key : string) : SyncState :=
  match sign_auth_response 1000 1000 "n2" (key : Identity) (Some "alice") ∅ challenged "native:ra" "ra" "s2" strict with
  | Ok r => (handle_incoming_text (SE := plain) (inl (mkEnvelope "native:ra/route/2" "native:ra" "primadb-sync"
               (ToPeer "native:r1") 6 0 1000 None None ["native:ra"] (Single (IAuthResponse r)))) greeted).1
  | Err _ => greeted
  end.

Lemma verified_by_challenge_witness :
  (vi_public_key <$> verified_identities (answered_by "key-a") !! "native:ra") = Some "key-a" ∧
  ∃ e c, e ∈ outbound (answered_by "key-a") ∧ payload e = Single (IAuthChallenge c) ∧ target e = ToPeer "native:ra".
Proof.
  split; [by vm_compute|].
  destruct (verified_identities (answered_by "key-a") !! "native:ra") as [v|] eqn:E; [|by vm_compute in E].
  assert (rtc (session_step (SE := plain)) closed_room (answered_by "key-a")) as Hrun.
  { apply rtc_l with greeted; [apply on_message|]. eapply rtc_l; [|reflexivity].
    unfold answered_by. destruct (sign_auth_response _ _ _ _ _ _ _ _ _ _ _) eqn:Es; [apply on_message|by vm_compute in Es]. }
  destruct (verified_by_challenge (SE := plain) _ _ "native:ra" v Hrun eq_refl eq_refl E) as (_ & _ & c & _ & e & H1 & H2 & H3 & _).
  exists e, c. exact (conj H1 (conj H2 H3)).
Defined.
End Link.
