(* ===== verification/FanIn.v ===== *)
(** Asking several peers (the peer selection and the fan-in of [src/src/native_sync.rs],
[merge_remote_records_fan_in] of [src/src/sync.rs]).

What the vector and text requests say of staleness and dimension, the hash of a record
entry and the text of a map of cursors are parameters. *)
From stdpp Require Import base gmap sets list strings sorting pretty.
From Stdlib Require Import ZArith Lia.
From S2P Require Import Prelude Clock Value Crdt Merge OpQueue RelIndex Paths Records Keys Engine Input Inner Read View Query Traversal InnerWf Tx Db SessionAuth Protocol Change Scan Router AppRoute Serve Relay Session SessionWf.

(** * Policies *)

Inductive RemoteInterestTarget := TargetAny | TargetPeer | TargetPeers.

Record RemoteInterestPolicy := mkPolicy {
  policy_target : RemoteInterestTarget;
  policy_peer_id : option string;
  policy_peers : list string;
  require_capability : bool
}.

Definition route_transport_for_peer (p : PeerPresence) (fallback : RouteTransportKind) : RouteTransportKind :=
  let t := transport p in
  if decide (t = "websocket") then WebSocket
  else if decide (t = "moq") then Moq
  else if decide (t = "webrtc") then WebRtc
  else if decide (t = "broadcast_channel") then BroadcastChannel
  else if decide (t = "in_memory") then InMemory
  else fallback.

Definition explicit_policy_peers (p : RemoteInterestPolicy) : result (option (list string)) :=
  match policy_target p with
  | TargetAny =>
      Ok (if bool_decide (policy_peers p = []) then (λ id, [id]) <$> policy_peer_id p else Some (policy_peers p))
  | TargetPeer =>
      match policy_peer_id p with
      | Some id => Ok (Some [id])
      | None => Err (Message "remote interest policy target `peer` requires peerId")
      end
  | TargetPeers => Ok (Some (policy_peers p))
  end.

Section selection.
Context `{W : Wire}.

Class RequestHints := {
  query_dimension : VectorRequest → nat;
  vector_allows_stale : VectorRequest → bool;
  text_allows_stale : TextQuery → bool
}.
Context `{RequestHints}.

Definition kind_name (k : PullRequestKind) : string :=
  match k with
  | PGet _ => "get"
  | PMap _ => "map"
  | PQuery _ _ => "query"
  | PLex _ _ => "lex"
  | PRecords _ => "records"
  | PVectorSearch _ _ => "vector_search"
  | PTextSearch _ _ => "text_search"
  | PNode _ => "node"
  | PSnapshot _ => "snapshot"
  | PTransaction _ _ _ => "transaction"
  end.

Definition pull_capability_for_request (k : PullRequestKind) : option string :=
  match k with
  | PGet _ => Some "pull_get"
  | PQuery _ _ => Some "pull_query"
  | PLex _ _ => Some "pull_lex"
  | PRecords _ => Some "pull_records"
  | PVectorSearch _ _ => Some "pull_vector_search"
  | PTextSearch _ _ => Some "pull_text_search"
  | PSnapshot _ => Some "snapshot"
  | PNode _ => Some "pull_node"
  | PMap _ => Some "pull_map"
  | PTransaction _ _ _ => None
  end.

Definition watch_capability_for_request (k : PullRequestKind) : string := "watch_" +:+ kind_name k.

Definition peer_supports_capability (p : PeerPresence) (c : option string) : bool :=
  match c with Some c => existsb (λ x, bool_decide (x = c)) (capabilities p) | None => true end.

Definition hints_for (p : PeerPresence) (pre : string) : list string :=
  List.filter (λ x, starts_with x pre) (capabilities p).

Definition part (l : list string) (n : nat) : string := nth n l "".

Definition vector_request_hint_score (p : PeerPresence) (k : option PullRequestKind) : option Z :=
  match k with
  | Some (PVectorSearch c q) =>
      let hints := hints_for p ("vector_collection:" +:+ encode_component c +:+ ":") in
      if bool_decide (hints = []) then None
      else
        Some (if existsb (λ h, let ps := split_on ":"%char h in
                     (6 <=? length ps) && bool_decide (part ps 2 = pretty (query_dimension q))
                     && (vector_allows_stale q || bool_decide (part ps 4 = "ready"))) hints then 2%Z else 0%Z)
  | _ => None
  end.

Definition text_request_hint_score (p : PeerPresence) (k : option PullRequestKind) : option Z :=
  match k with
  | Some (PTextSearch (TSCollection c) q) =>
      let hints := hints_for p ("text_collection:" +:+ encode_component c +:+ ":") in
      if bool_decide (hints = []) then None
      else
        Some (if existsb (λ h, let ps := split_on ":"%char h in
                     (5 <=? length ps) && (text_allows_stale q || bool_decide (part ps 2 = "ready"))) hints then 2%Z else 0%Z)
  | Some (PTextSearch _ _) => Some (if existsb (λ x, bool_decide (x = "pull_text_search")) (capabilities p) then 1%Z else 0%Z)
  | _ => None
  end.

Definition request_hint_score (p : PeerPresence) (k : option PullRequestKind) : option Z :=
  match vector_request_hint_score p k with Some n => Some n | None => text_request_hint_score p k end.

Definition peer_supports_request (p : PeerPresence) (c : option string) (k : option PullRequestKind) : bool :=
  peer_supports_capability p c && negb (bool_decide (request_hint_score p k = Some 0%Z)).

(** Sorting by a score, highest first; [sort_by] is stable. *)
Definition higher {A} (score : A → Z) (x y : A) : Prop := (score y ≤ score x)%Z.
#[global] Instance higher_dec {A} (score : A → Z) : RelDecision (higher score).
Proof. intros x y. unfold higher. apply _. Defined.

Definition hinted (k : option PullRequestKind) (x : PeerPresence) : Z := default 1%Z (request_hint_score x k).

Definition prefer_vector_request_candidates (l : list PeerPresence) (k : option PullRequestKind) : list PeerPresence :=
  merge_sort (higher (hinted k)) l.

(** [relay_peer_candidates]. *)
Definition better (x y : PeerRecommendation) : Prop :=
  (score y < score x)%Z ∨ (score x = score y ∧ String.le (peer_id (rec_peer x)) (peer_id (rec_peer y))).
#[global] Instance better_dec : RelDecision better.
Proof. intros x y. unfold better. apply _. Defined.

Definition add_candidate (l : list PeerPresence) (p : PeerPresence) : list PeerPresence :=
  if existsb (λ x, bool_decide (peer_id x = peer_id p)) l then l else l ++ [p].

Definition relay_peer_candidates (s : SyncState) : list PeerPresence :=
  let recommended := merge_sort better (btree_list (recommendations s)).*2 in
  let l := foldl add_candidate [] (rec_peer <$> recommended) in
  let l := foldl add_candidate l (known_peers (router s)) in
  if require_authenticated_peers (session_auth s)
  then List.filter (λ p, negb (bool_decide (verified_identity_for_peer (peer_id p) s = None))) l else l.

(** A peer the policy names: the one known, or a bare one when no capability is needed. *)
Definition named_peer (known : list PeerPresence) (s : SyncState) (needs : bool) (c : option string)
    (k : option PullRequestKind) (id : string) : option PeerPresence :=
  match List.find (λ p, bool_decide (peer_id p = id)) known with
  | Some p => if negb needs || peer_supports_request p c k then Some p else None
  | None => if needs then None else Some (mkPresence id "" (transport_as_str (transport_kind s)) None [] [] ∅)
  end.

Definition resolve_relay_peers_for_policy (s : SyncState) (p : RemoteInterestPolicy) (c : option string)
    (k : option PullRequestKind) : result (list PeerPresence) :=
  match explicit_policy_peers p with
  | Err e => Err e
  | Ok (Some ids) =>
      if bool_decide (ids = []) then Err (Message "remote interest policy did not include any peer ids")
      else
        let ps := omap (named_peer (relay_peer_candidates s) s (require_capability p) c k) ids in
        if require_capability p && bool_decide (ps = [])
        then Err (Message ("no requested peer advertises required capability `" +:+ default "unknown" c +:+ "`"))
        else Ok ps
  | Ok None =>
      let l := prefer_vector_request_candidates (relay_peer_candidates s) k in
      Ok (if require_capability p then List.filter (λ x, peer_supports_request x c k) l
          else if bool_decide (c = None) then l
          else merge_sort (higher (λ x, if peer_supports_request x c k then 1%Z else 0%Z)) l)
  end.

Definition select_relay_peer_for_policy (s : SyncState) (p : RemoteInterestPolicy) (c : option string)
    (k : option PullRequestKind) : result string :=
  match resolve_relay_peers_for_policy s p c k with
  | Err e => Err e
  | Ok (x :: _) => Ok (peer_id x)
  | Ok [] =>
      Err (Message match c with
                   | Some c => "no connected peer advertises capability `" +:+ c +:+ "`"
                   | None => "no connected peer is available for remote interest"
                   end)
  end.
End selection.

(** * Requests and watches *)

Section requests.
Context `{HC : Codec, HE : Env, W : !Wire, Sv : !Services, RE : !RouteEnv, Sg : !Signatures, SE : !SessionEnv}.

Definition next_name (kind : string) : Task string := λ s,
  let n := ((next_message_seq s + 1) mod (u64_max + 1))%Z in
  (set_next_message_seq n s, Ok (replica_id_of s +:+ kind +:+ hex n)).

Definition put_request (id : string) (k : PullRequestKind) (s : SyncState) : SyncState :=
  set_pull_requests (mkRequests (<[id := accumulator_new k]> (pending_requests (pull_requests s))) (answered (pull_requests s))) s.

Definition forget_request (id : string) (s : SyncState) : SyncState :=
  set_pull_requests (mkRequests (delete id (pending_requests (pull_requests s))) (answered (pull_requests s))) s.

(** What [request_remote_result] does when the request could not be sent. *)
Definition settle_request (id : string) (e : RouteEnvelope) : Task string := λ s,
  match send_route e s with
  | (s, Ok _) => (s, Ok id)
  | (s, Err err) => (forget_request id s, Err err)
  end.

(** [request_remote_result] up to the wait for the answer. *)
Definition request_remote_result (peer : string) (k : PullRequestKind) : Task string :=
  up ← sget connected;
  if negb up then sfail (Message "native websocket is not connected")
  else
    id ← next_name "/pull/";
    _ ← smod (put_request id k);
    e ← wrapped (λ r, wrap_pull_request r (mkPullRequest id k) (ToPeer peer));
    settle_request id e.

Definition start_remote_watch (peer : string) (k : PullRequestKind) : Task string :=
  let limit := max (max_active_remote_watches limits) 1 in
  id ← next_name "/watch/";
  full ← sget (λ s, limit <=? size (outgoing_watches s));
  if full : bool then sfail (TooManyRemoteWatches (Z.of_nat limit))
  else
    _ ← smod (λ s, set_outgoing_watches (<[id := mkOutgoing peer k None None]> (outgoing_watches s)) s);
    _ ← signore (send_watch_request peer (mkWatchRequest id (WSubscribe k)));
    mret id.

Definition fail_outgoing_watches (message : string) : Task unit :=
  smod (λ s, set_watch_messages (watch_messages s ++ ((λ id, (id, inr message)) <$> btree_keys (outgoing_watches s)))
               (set_outgoing_watches ∅ s)).
End requests.

(** * Merging the records of several peers *)

Record RemotePeerFailure := mkFailure { fail_peer : string; fail_transport : RouteTransportKind; fail_message : string }.
Record RemotePeerRecords := mkPeerRecords { pr_peer_id : string; pr_transport : RouteTransportKind; pr_result : RecordScanResult }.

Record RemoteRecordConflictSource := mkConflictSource { cs_peer : string; cs_transport : RouteTransportKind; cs_hash : string }.
Record RemoteRecordConflict := mkConflict {
  conflict_key : string;
  winner_peer_id : string;
  winner_hash : string;
  conflict_sources : list RemoteRecordConflictSource
}.

Record RemoteRecordsFanIn := mkRecordsFanIn {
  fan_request : string;
  fan_records : list RemotePeerRecords;
  fan_failures : list RemotePeerFailure;
  merged : RecordScanResult;
  conflicts : list RemoteRecordConflict
}.

Record SourceRecord := mkSource {
  sr_peer : string;
  sr_transport : RouteTransportKind;
  sr_entry : RecordEntry;
  sr_hash : string
}.

(** By peer, then hash, then transport. *)
Abbreviation Rank := (string * string * string)%type.

Definition rank_cmp (x y : Rank) : comparison :=
  then_with (cmp x.1.1 y.1.1) (then_with (cmp x.1.2 y.1.2) (cmp x.2 y.2)).

Lemma then_with_eq c1 c2 : then_with c1 c2 = Eq ↔ c1 = Eq ∧ c2 = Eq.
Proof. destruct c1, c2; naive_solver. Qed.

#[global] Program Instance rank_ord : TotalOrd Rank := {| cmp := rank_cmp |}.
Next Obligation.
  intros [[a b] c] [[a' b'] c']. unfold rank_cmp. cbn [fst snd]. rewrite !then_with_eq, !cmp_eq. naive_solver.
Qed.
Next Obligation.
  intros x y. unfold rank_cmp. rewrite !then_with_opp.
  by rewrite (cmp_opp x.1.1), (cmp_opp x.1.2), (cmp_opp x.2).
Qed.
Next Obligation.
  intros x y z. unfold rank_cmp. apply then_with_lt_trans, then_with_lt_trans. apply cmp_lt_trans.
Qed.

Definition rank (x : SourceRecord) : Rank := (sr_peer x, sr_hash x, transport_as_str (sr_transport x)).

Section merge.
Context (entry_hash : RecordEntry → option string) (cursors_text : gmap string string → option string).

Definition sources_of (p : RemotePeerRecords) : list SourceRecord :=
  (λ e, mkSource (pr_peer_id p) (pr_transport p) e (default "unknown" (entry_hash e))) <$> scan_entries (pr_result p).

Definition push_source (m : gmap string (list SourceRecord)) (r : SourceRecord) : gmap string (list SourceRecord) :=
  <[entry_key (sr_entry r) := default [] (m !! entry_key (sr_entry r)) ++ [r]]> m.

Definition by_key (rs : list RemotePeerRecords) : gmap string (list SourceRecord) :=
  foldl push_source ∅ (concat (sources_of <$> rs)).

Definition cursors_of (rs : list RemotePeerRecords) : gmap string string :=
  foldl (λ m p, match next_cursor (pr_result p) with Some c => <[pr_peer_id p := c]> m | None => m end) ∅ rs.

Definition source_le (x y : SourceRecord) : Prop := ole (rank x) (rank y).
#[global] Instance source_le_dec : RelDecision source_le.
Proof. intros x y. unfold source_le, ole. apply _. Defined.

Definition conflict_of (key : string) (w : SourceRecord) (l : list SourceRecord) : list RemoteRecordConflict :=
  if forallb (λ x, bool_decide (sr_hash x = sr_hash w)) l then []
  else [mkConflict key (sr_peer w) (sr_hash w) ((λ x, mkConflictSource (sr_peer x) (sr_transport x) (sr_hash x)) <$> l)].

(** The entry and the conflict of one key; a key of the map has a source. *)
Definition settle_key (p : string * list SourceRecord) : option (RecordEntry * list RemoteRecordConflict) :=
  match merge_sort source_le p.2 with
  | w :: l => Some (sr_entry w, conflict_of p.1 w (w :: l))
  | [] => None
  end.

Definition merge_remote_records_fan_in (request : string) (rs : list RemotePeerRecords) (fs : list RemotePeerFailure)
    : RemoteRecordsFanIn :=
  let settled := omap settle_key (btree_list (by_key rs)) in
  let cursors := cursors_of rs in
  mkRecordsFanIn request rs fs
    (mkScanResult settled.*1 (if bool_decide (cursors = ∅) then None else cursors_text cursors)) (concat settled.*2).

End merge.

(** [records_fan_in_state]: [await] is the wait for the answer to a request, during which
the other tasks run; [shown] and [error_text] print a result and an error. *)
Section fan_in.
Context `{HC : Codec, HE : Env, W : !Wire, Sv : !Services, RE : !RouteEnv, Sg : !Signatures, SE : !SessionEnv, RH : !RequestHints}.
Context (await : string → Task RemoteResult) (shown : RemoteResult → string) (error_text : PrimadbError → string).
Context (entry_hash : RecordEntry → option string) (cursors_text : gmap string string → option string).

Definition ask (peer : string) (k : PullRequestKind) : Task RemoteResult :=
  id ← request_remote_result peer k;
  await id.

Definition sort_answer (p : PeerPresence) (t : RouteTransportKind) (r : result RemoteResult)
    (acc : list RemotePeerRecords * list RemotePeerFailure) : list RemotePeerRecords * list RemotePeerFailure :=
  match r with
  | Ok (RRecords r) => (acc.1 ++ [mkPeerRecords (peer_id p) t r], acc.2)
  | Ok other => (acc.1, acc.2 ++ [mkFailure (peer_id p) t ("expected records result, received " +:+ shown other)])
  | Err e => (acc.1, acc.2 ++ [mkFailure (peer_id p) t (error_text e)])
  end.

Fixpoint collect_records (scan : RecordScan) (ps : list PeerPresence)
    (acc : list RemotePeerRecords * list RemotePeerFailure) : Task (list RemotePeerRecords * list RemotePeerFailure) := λ s,
  match ps with
  | [] => (s, Ok acc)
  | p :: ps =>
      let t := route_transport_for_peer p (transport_kind s) in
      let '(s, r) := ask (peer_id p) (PRecords scan) s in
      collect_records scan ps (sort_answer p t r acc) s
  end.

Definition records_fan_in (scan : RecordScan) (p : RemoteInterestPolicy) : Task RemoteRecordsFanIn :=
  ps ← sget (λ s, resolve_relay_peers_for_policy s p (pull_capability_for_request (PRecords scan)) (Some (PRecords scan)));
  ps ← slift ps;
  if bool_decide (ps = []) then sfail (Message "remote interest policy did not select any peers")
  else
    id ← next_name "/records-fan-in/";
    r ← collect_records scan ps ([], []);
    mret (merge_remote_records_fan_in entry_hash cursors_text id r.1 r.2).
End fan_in.

(** * What a selection returns *)

Lemma add_candidate_ids l p : NoDup (peer_id <$> l) → NoDup (peer_id <$> add_candidate l p).
Proof.
  intros Hl. unfold add_candidate. destruct (existsb _ l) eqn:E; [done|]. rewrite fmap_app. apply NoDup_app.
  split; [done|]. split; [|apply NoDup_singleton]. intros x (y & -> & Hy)%list_elem_of_fmap Hx.
  apply list_elem_of_singleton in Hx. enough (existsb (λ z, bool_decide (peer_id z = peer_id p)) l = true) by congruence.
  apply existsb_exists. exists y. split; [by apply list_elem_of_In|by apply bool_decide_eq_true].
Qed.

Lemma add_candidates_ids ps l : NoDup (peer_id <$> l) → NoDup (peer_id <$> foldl add_candidate l ps).
Proof. revert l. induction ps as [|p ps IH]; [done|]; intros l Hl; apply IH. by apply add_candidate_ids. Qed.

Lemma filter_sublist {A} (f : A → bool) l : List.filter f l `sublist_of` l.
Proof. induction l as [|x l IH]; simpl; [done|]. destruct (f x); by constructor. Qed.

Lemma fmap_sublist {A B} (f : A → B) l1 l2 : l1 `sublist_of` l2 → (f <$> l1) `sublist_of` (f <$> l2).
Proof. induction 1; rewrite ?fmap_cons; by constructor. Qed.

Lemma elem_of_filter {A} (f : A → bool) l x : x ∈ List.filter f l ↔ x ∈ l ∧ f x = true.
Proof. rewrite !list_elem_of_In. apply List.filter_In. Qed.

Lemma higher_total {A} (score : A → Z) : Total (higher score).
Proof. intros x y. unfold higher. lia. Qed.

Lemma higher_trans {A} (score : A → Z) : Transitive (higher score).
Proof. intros x y z. unfold higher. lia. Qed.

(** The head of a stable sort has the highest score. *)
Lemma highest_first {A} (score : A → Z) l x l' :
  merge_sort (higher score) l = x :: l' → x ∈ l ∧ ∀ y, y ∈ l → (score y ≤ score x)%Z.
Proof.
  intros E. pose proof (merge_sort_Permutation (higher score) l) as Hp.
  pose proof (@StronglySorted_merge_sort _ (higher score) _ (higher_trans score) (higher_total score) l) as Hs.
  rewrite E in Hp, Hs. split; [rewrite <-Hp; by left|]. intros y. rewrite <-Hp.
  intros [->|Hy]%elem_of_cons; [done|]. apply StronglySorted_inv in Hs as [_ Hs].
  rewrite Forall_forall in Hs. apply Hs. done.
Qed.

Lemma sorted_filter {A} (R : relation A) (f : A → bool) l : StronglySorted R l → StronglySorted R (List.filter f l).
Proof.
  induction 1 as [|x l Hl IH Hx]; simpl; [constructor|]. destruct (f x); [|done]. constructor; [done|].
  rewrite Forall_forall in Hx |- *. intros y [Hy _]%elem_of_filter. auto.
Qed.

Section selecting.
Context `{W : Wire, RH : !RequestHints}.

Lemma candidates_distinct s : NoDup (peer_id <$> relay_peer_candidates s).
Proof.
  unfold relay_peer_candidates. set (l := foldl _ _ (known_peers _)).
  assert (NoDup (peer_id <$> l)) as Hl by (by apply add_candidates_ids, add_candidates_ids, NoDup_nil).
  destruct (require_authenticated_peers _); [|done]. eapply sublist_NoDup; [exact Hl|]. apply fmap_sublist, filter_sublist.
Qed.

Lemma candidates_verified s p :
  p ∈ relay_peer_candidates s → require_authenticated_peers (session_auth s) = true →
  verified_identity_for_peer (peer_id p) s ≠ None.
Proof.
  unfold relay_peer_candidates. intros Hp E. rewrite E in Hp. apply elem_of_filter in Hp as [_ Hp].
  by apply negb_true_iff, bool_decide_eq_false in Hp.
Qed.

Lemma named_peer_found known s needs c k id x :
  named_peer known s needs c k id = Some x →
  peer_id x = id ∧ (needs = true → x ∈ known ∧ peer_supports_request x c k = true).
Proof.
  unfold named_peer. destruct (List.find _ known) as [y|] eqn:E.
  - apply List.find_some in E as [Hy Hid%bool_decide_eq_true]. intros Hx.
    destruct (negb needs || peer_supports_request y c k) eqn:Hn; [|done]. injection Hx as <-.
    split; [done|]. intros ->. split; [by apply list_elem_of_In|done].
  - destruct needs; [done|]. intros [= <-]. done.
Qed.

Lemma named_peer_bare known s c k id : is_Some (named_peer known s false c k id).
Proof. unfold named_peer. destruct (List.find _ known); eauto. Qed.

(** The list an open policy gives holds candidates only, and its head is the best of them. *)
Lemma open_policy_list s p c k ps :
  explicit_policy_peers p = Ok None → resolve_relay_peers_for_policy s p c k = Ok ps →
  Forall (λ x, x ∈ relay_peer_candidates s ∧ (require_capability p = true → peer_supports_request x c k = true)) ps.
Proof.
  intros Hn. unfold resolve_relay_peers_for_policy. rewrite Hn. intros [= <-].
  apply Forall_forall. intros x. unfold prefer_vector_request_candidates. destruct (require_capability p).
  - intros [Hx Hs]%elem_of_filter. rewrite merge_sort_Permutation in Hx. done.
  - case_bool_decide; rewrite !merge_sort_Permutation; done.
Qed.

Lemma open_policy_empty s p c k :
  explicit_policy_peers p = Ok None → resolve_relay_peers_for_policy s p c k = Ok [] →
  ∀ y, y ∈ relay_peer_candidates s → require_capability p = true ∧ peer_supports_request y c k = false.
Proof.
  intros Hn. unfold resolve_relay_peers_for_policy. rewrite Hn. intros [= E] y. unfold prefer_vector_request_candidates in E.
  rewrite <-(merge_sort_Permutation (higher (hinted k)) (relay_peer_candidates s)). intros Hy.
  destruct (require_capability p) eqn:Er.
  - split; [done|]. destruct (peer_supports_request y c k) eqn:Es; [|done].
    assert (y ∈ List.filter (λ x, peer_supports_request x c k) (merge_sort (higher (hinted k)) (relay_peer_candidates s))) as Hf
      by (by apply elem_of_filter). rewrite E in Hf. by apply not_elem_of_nil in Hf.
  - exfalso. case_bool_decide.
    + rewrite E in Hy. by apply not_elem_of_nil in Hy.
    + rewrite <-(merge_sort_Permutation (higher (λ x, if peer_supports_request x c k then 1%Z else 0%Z))) in Hy.
      rewrite E in Hy. by apply not_elem_of_nil in Hy.
Qed.

Lemma open_policy_head s p c k x ps y :
  explicit_policy_peers p = Ok None → resolve_relay_peers_for_policy s p c k = Ok (x :: ps) →
  y ∈ relay_peer_candidates s → peer_supports_request y c k = true →
  (c ≠ None → peer_supports_request x c k = true) ∧
  (require_capability p = true ∨ c = None → (hinted k y ≤ hinted k x)%Z).
Proof.
  intros Hn. unfold resolve_relay_peers_for_policy. rewrite Hn. intros [= E] Hy Hs. unfold prefer_vector_request_candidates in E.
  destruct (require_capability p) eqn:Er; [|case_bool_decide as Hc].
  - pose proof (@StronglySorted_merge_sort _ (higher (hinted k)) _ (higher_trans _) (higher_total _) (relay_peer_candidates s)) as Hsort.
    apply (sorted_filter _ (λ x, peer_supports_request x c k)) in Hsort.
    assert (y ∈ List.filter (λ x, peer_supports_request x c k) (merge_sort (higher (hinted k)) (relay_peer_candidates s))) as Hf
      by (apply elem_of_filter; by rewrite merge_sort_Permutation).
    rewrite E in Hsort, Hf.
    assert (x ∈ List.filter (λ x, peer_supports_request x c k) (merge_sort (higher (hinted k)) (relay_peer_candidates s))) as Hx
      by (rewrite E; by left).
    apply elem_of_filter in Hx as [_ Hx]. split; [done|]. intros _.
    apply elem_of_cons in Hf as [->|Hf]; [done|]. apply StronglySorted_inv in Hsort as [_ Hh].
    rewrite Forall_forall in Hh. by apply Hh.
  - apply highest_first in E as [_ E]. split; [done|]. intros _. by apply E.
  - apply highest_first in E as [_ E]. specialize (E y). rewrite merge_sort_Permutation, Hs in E.
    split; [intros _|intros [?|?]; done]. specialize (E Hy). by destruct (peer_supports_request x c k).
Qed.

(** The peers a remote interest policy resolves to: with a required capability only known
candidates that support the request, verified ones where the session requires it; a
policy that names peers gives those, in its order, all of them unless the capability is
required; an open one gives candidates. *)
Lemma selection_sound s p c k ps :
  resolve_relay_peers_for_policy s p c k = Ok ps →
  (require_capability p = true → Forall (λ x, x ∈ relay_peer_candidates s ∧ peer_supports_request x c k = true ∧
     (require_authenticated_peers (session_auth s) = true → verified_identity_for_peer (peer_id x) s ≠ None)) ps) ∧
  match explicit_policy_peers p with
  | Ok (Some ids) => (peer_id <$> ps) `sublist_of` ids ∧ (require_capability p = false → peer_id <$> ps = ids)
  | _ => Forall (.∈ relay_peer_candidates s) ps
  end.
Proof.
  destruct (explicit_policy_peers p) as [[ids|]|e] eqn:Hn.
  - unfold resolve_relay_peers_for_policy. rewrite Hn. case_bool_decide; [done|].
    set (f := named_peer _ _ _ _ _). destruct (_ && _); [done|]. intros [= <-]. split; [|split].
    + intros Hr. apply Forall_forall. intros x (id & _ & Hx)%list_elem_of_omap.
      apply named_peer_found in Hx as (_ & Hx). destruct (Hx Hr). eauto using candidates_verified.
    + clear. induction ids as [|id ids IH]; [done|]. simpl. destruct (f id) as [x|] eqn:E; [|by constructor].
      rewrite fmap_cons. apply named_peer_found in E as [-> _]. by constructor.
    + intros Hr. subst f. rewrite Hr. clear. induction ids as [|id ids IH]; [done|]. simpl.
      destruct (named_peer_bare (relay_peer_candidates s) s c k id) as [x Hx]. rewrite Hx, fmap_cons.
      f_equal; [by apply named_peer_found in Hx as [-> _]|exact IH].
  - intros Hp. apply open_policy_list in Hp; [|done]. rewrite Forall_forall in Hp. split.
    + intros Hr. apply Forall_forall. intros x Hx. destruct (Hp x Hx). eauto using candidates_verified.
    + apply Forall_forall. intros x Hx. by apply Hp.
  - unfold resolve_relay_peers_for_policy. by rewrite Hn.
Qed.

(** The peer an open policy picks: one of the candidates, verified where the session
requires it, that supports the request whenever any candidate does, and with the best
hint among those that do; none is picked only when the capability is required and no
candidate supports the request, or there is no candidate. *)
Lemma selection_best s p c k :
  explicit_policy_peers p = Ok None →
  match select_relay_peer_for_policy s p c k with
  | Ok id =>
      ∃ x, x ∈ relay_peer_candidates s ∧ peer_id x = id ∧
        (require_capability p = true → peer_supports_request x c k = true) ∧
        (require_authenticated_peers (session_auth s) = true → verified_identity_for_peer id s ≠ None) ∧
        ∀ y, y ∈ relay_peer_candidates s → peer_supports_request y c k = true →
          (c ≠ None → peer_supports_request x c k = true) ∧
          (require_capability p = true ∨ c = None → (hinted k y ≤ hinted k x)%Z)
  | Err _ => ∀ y, y ∈ relay_peer_candidates s → require_capability p = true ∧ peer_supports_request y c k = false
  end.
Proof.
  intros Hn. unfold select_relay_peer_for_policy.
  destruct (resolve_relay_peers_for_policy s p c k) as [[|x ps]|e] eqn:E.
  - eauto using open_policy_empty.
  - pose proof (open_policy_list _ _ _ _ _ Hn E) as [[Hx Hr] _]%Forall_cons. exists x.
    eauto 10 using candidates_verified, open_policy_head.
  - unfold resolve_relay_peers_for_policy in E. rewrite Hn in E. done.
Qed.
End selecting.

(** * What a merge holds *)

Section merging.
Context (entry_hash : RecordEntry → option string) (cursors_text : gmap string string → option string).
Implicit Types rs : list RemotePeerRecords.

Definition all_sources rs : list SourceRecord := concat (sources_of entry_hash <$> rs).

Definition sources_at (k : string) (l : list SourceRecord) : list SourceRecord :=
  List.filter (λ r, bool_decide (entry_key (sr_entry r) = k)) l.

Lemma elem_of_sources_at k l r : r ∈ sources_at k l ↔ r ∈ l ∧ entry_key (sr_entry r) = k.
Proof. unfold sources_at. by rewrite elem_of_filter, bool_decide_eq_true. Qed.

Lemma pushed_lookup l m k :
  default [] (foldl push_source m l !! k) = default [] (m !! k) ++ sources_at k l.
Proof.
  revert m. induction l as [|r l IH]; intros m; simpl; [by rewrite app_nil_r|]. rewrite IH. unfold push_source.
  case_bool_decide as E; [subst; rewrite lookup_insert_eq; simpl; by rewrite <-app_assoc|by rewrite lookup_insert_ne].
Qed.

Lemma pushed_nonempty l m k : (∀ k, m !! k ≠ Some []) → foldl push_source m l !! k ≠ Some [].
Proof.
  revert m. induction l as [|r l IH]; intros m Hm; simpl; [done|]. apply IH. intros k'. unfold push_source.
  destruct (decide (entry_key (sr_entry r) = k')) as [<-|E]; [rewrite lookup_insert_eq|by rewrite lookup_insert_ne].
  by destruct (default [] _).
Qed.

Lemma by_key_lookup rs k l :
  by_key entry_hash rs !! k = Some l ↔ l = sources_at k (all_sources rs) ∧ l ≠ [].
Proof.
  pose proof (pushed_lookup (all_sources rs) ∅ k) as E. rewrite lookup_empty in E. simpl in E.
  assert (foldl push_source ∅ (all_sources rs) !! k ≠ Some []) as Hn by (apply pushed_nonempty; intros ?; by rewrite lookup_empty).
  change (foldl push_source ∅ (all_sources rs)) with (by_key entry_hash rs) in E, Hn.
  destruct (by_key entry_hash rs !! k) as [l'|]; simpl in E.
  - subst l'. split; [intros [= <-]; split; [done|congruence]|intros [-> _]; done].
  - split; [done|]. intros [-> H]. by rewrite <-E in H.
Qed.

Lemma source_le_trans : Transitive source_le.
Proof. intros x y z. apply ole_trans. Qed.

Lemma source_le_total : Total source_le.
Proof. intros x y. unfold source_le. rewrite !ole_iff, !olt_gt, <-cmp_eq, (cmp_opp (rank x)). destruct (cmp (rank x) (rank y)); naive_solver. Qed.

(** The sources of a key in order: what the winner is the head of. *)
Lemma ordered_sources l w l' :
  merge_sort source_le l = w :: l' → w ∈ l ∧ ∀ y, y ∈ l → source_le w y.
Proof.
  intros E. pose proof (merge_sort_Permutation source_le l) as Hp.
  pose proof (@StronglySorted_merge_sort _ source_le _ source_le_trans source_le_total l) as Hs.
  rewrite E in Hp, Hs. split; [rewrite <-Hp; by left|]. intros y. rewrite <-Hp.
  intros [->|Hy]%elem_of_cons; [apply ole_refl|]. apply StronglySorted_inv in Hs as [_ Hs].
  rewrite Forall_forall in Hs. by apply Hs.
Qed.

Definition settled rs : list (RecordEntry * list RemoteRecordConflict) := omap settle_key (btree_list (by_key entry_hash rs)).

Lemma btree_list_keys {V} (m : gmap string V) (g : string → V) :
  (∀ k v, m !! k = Some v → g k = v) → btree_list m = (λ k, (k, g k)) <$> btree_keys m.
Proof.
  intros Hg. unfold btree_keys. rewrite <-list_fmap_compose. rewrite <-(list_fmap_id (btree_list m)) at 1.
  apply list_fmap_ext. intros j [k v] Hj%list_elem_of_lookup_2%elem_of_btree_list. simpl. by rewrite (Hg _ _ Hj).
Qed.

Lemma omap_of_fmap {A B C} (f : A → B) (g : B → option C) (l : list A) : omap g (f <$> l) = omap (λ x, g (f x)) l.
Proof. induction l as [|x l IH]; [done|]. simpl. destruct (g (f x)); [f_equal|]; exact IH. Qed.

Lemma settled_by_keys rs :
  settled rs = omap (λ k, settle_key (k, sources_at k (all_sources rs))) (btree_keys (by_key entry_hash rs)).
Proof.
  unfold settled. rewrite (btree_list_keys _ (λ k, sources_at k (all_sources rs))); [apply omap_of_fmap|].
  intros k l [-> _]%by_key_lookup. done.
Qed.

Lemma elem_of_merged_keys rs k :
  k ∈ btree_keys (by_key entry_hash rs) ↔ ∃ r, r ∈ all_sources rs ∧ entry_key (sr_entry r) = k.
Proof.
  rewrite elem_of_btree_keys. setoid_rewrite <-elem_of_sources_at. split.
  - intros [l [-> Hl]%by_key_lookup]. destruct (sources_at k (all_sources rs)) as [|r l]; [done|]. exists r. by left.
  - intros [r Hr]. exists (sources_at k (all_sources rs)). apply by_key_lookup. split; [done|]. intros E.
    rewrite E in Hr. by apply not_elem_of_nil in Hr.
Qed.

Lemma settle_key_some k l :
  l ≠ [] → ∃ w l', merge_sort source_le l = w :: l' ∧ settle_key (k, l) = Some (sr_entry w, conflict_of k w (w :: l')).
Proof.
  intros Hl. unfold settle_key. simpl. destruct (merge_sort source_le l) as [|w l'] eqn:E; [|eauto].
  pose proof (merge_sort_Permutation source_le l) as Hp. rewrite E in Hp. by apply Permutation_nil_l in Hp.
Qed.

Lemma settle_key_entry rs k :
  k ∈ btree_keys (by_key entry_hash rs) →
  ∃ w l', w :: l' ≡ₚ sources_at k (all_sources rs) ∧ (∀ y, y ∈ sources_at k (all_sources rs) → source_le w y) ∧
    w ∈ all_sources rs ∧ entry_key (sr_entry w) = k ∧
    settle_key (k, sources_at k (all_sources rs)) = Some (sr_entry w, conflict_of k w (w :: l')).
Proof.
  intros Hk. destruct (settle_key_some k (sources_at k (all_sources rs))) as (w & l' & E & Hs).
  { apply elem_of_merged_keys in Hk as (r & Hr). apply elem_of_sources_at in Hr. intros E. rewrite E in Hr.
    by apply not_elem_of_nil in Hr. }
  exists w, l'. destruct (ordered_sources _ _ _ E) as [Hw Hle]. apply elem_of_sources_at in Hw as [Hw Hkey].
  split; [rewrite <-E; apply merge_sort_Permutation|done].
Qed.

Lemma settled_keys rs : entry_key <$> (settled rs).*1 = btree_keys (by_key entry_hash rs).
Proof.
  rewrite settled_by_keys. assert (∀ k, k ∈ btree_keys (by_key entry_hash rs) → k ∈ btree_keys (by_key entry_hash rs)) as Hks by done.
  revert Hks. generalize (btree_keys (by_key entry_hash rs)) at 1 3 4 as ks. induction ks as [|k ks IH]; intros Hks; [done|].
  destruct (settle_key_entry rs k) as (w & l' & _ & _ & _ & Hk & E); [apply Hks; by left|].
  cbn [omap list_omap]. rewrite E. rewrite !fmap_cons. cbn [fst]. rewrite Hk. f_equal. apply IH. intros k' ?. apply Hks. by right.
Qed.

Lemma conflict_of_spec k w l c :
  c ∈ conflict_of k w l ↔
  c = mkConflict k (sr_peer w) (sr_hash w) ((λ x, mkConflictSource (sr_peer x) (sr_transport x) (sr_hash x)) <$> l) ∧
  ∃ x, x ∈ l ∧ sr_hash x ≠ sr_hash w.
Proof.
  unfold conflict_of. destruct (forallb _ l) eqn:E.
  - split; [intros Hc; by apply not_elem_of_nil in Hc|]. intros (_ & x & Hx & Hh).
    rewrite forallb_forall in E. apply list_elem_of_In, E, bool_decide_eq_true in Hx. done.
  - rewrite list_elem_of_singleton. split; [|by intros [-> _]]. intros ->. split; [done|].
    enough (¬ Forall (λ x, sr_hash x = sr_hash w) l) as Hf.
    { apply not_Forall_Exists, Exists_exists in Hf as (x & Hx & Hn); [eauto|apply _]. }
    intros Hf. enough (forallb (λ x, bool_decide (sr_hash x = sr_hash w)) l = true) by congruence.
    apply forallb_forall. intros x Hx%list_elem_of_In. rewrite Forall_forall in Hf. by apply bool_decide_eq_true, Hf.
Qed.

Lemma elem_of_concat {A} (ls : list (list A)) x : x ∈ concat ls ↔ ∃ l, x ∈ l ∧ l ∈ ls.
Proof.
  rewrite list_elem_of_In, in_concat. setoid_rewrite <-list_elem_of_In. naive_solver.
Qed.

Lemma elem_of_conflicts rs c :
  c ∈ concat (settled rs).*2 ↔
  ∃ w l', w :: l' ≡ₚ sources_at (conflict_key c) (all_sources rs) ∧
    c ∈ conflict_of (conflict_key c) w (w :: l') ∧
    settle_key (conflict_key c, sources_at (conflict_key c) (all_sources rs)) = Some (sr_entry w, conflict_of (conflict_key c) w (w :: l')).
Proof.
  rewrite settled_by_keys, elem_of_concat. setoid_rewrite list_elem_of_fmap. setoid_rewrite list_elem_of_omap. split.
  - intros (cs & Hc & (p & -> & k & Hk & Hp)). destruct (settle_key_entry rs k Hk) as (w & l' & Hw & Hle & _ & _ & E).
    rewrite E in Hp. injection Hp as <-. simpl in Hc. pose proof Hc as [-> _]%conflict_of_spec. simpl in *.
    exists w, l'. done.
  - intros (w & l' & Hw & Hc & E). eexists. split; [exact Hc|]. exists (sr_entry w, conflict_of (conflict_key c) w (w :: l')).
    split; [done|]. exists (conflict_key c). split; [|exact E]. apply elem_of_merged_keys. exists w.
    apply elem_of_sources_at. rewrite <-Hw. by left.
Qed.

(** C35: The merge of the pages of several peers lists every key of any page exactly once, in
key order, each with the entry of the first of its sources by peer, hash and transport;
and it reports a conflict for exactly the keys of which two sources have different
hashes. *)
Theorem fan_in_merged request rs fs :
  let f := merge_remote_records_fan_in entry_hash cursors_text request rs fs in
  let es := scan_entries (merged f) in
  StronglySorted String.le (entry_key <$> es) ∧ NoDup (entry_key <$> es) ∧
  (∀ k, k ∈ entry_key <$> es ↔ ∃ r, r ∈ all_sources rs ∧ entry_key (sr_entry r) = k) ∧
  (∀ e, e ∈ es → ∃ w, w ∈ all_sources rs ∧ sr_entry w = e ∧
     ∀ y, y ∈ all_sources rs → entry_key (sr_entry y) = entry_key e → source_le w y) ∧
  (∀ k, k ∈ conflict_key <$> conflicts f ↔
     ∃ x y, x ∈ all_sources rs ∧ y ∈ all_sources rs ∧ entry_key (sr_entry x) = k ∧ entry_key (sr_entry y) = k ∧ sr_hash x ≠ sr_hash y).
Proof.
  cbn zeta. unfold merge_remote_records_fan_in. cbn [merged scan_entries conflicts]. fold (settled rs).
  rewrite settled_keys. split; [apply btree_keys_sorted|]. split; [apply btree_keys_NoDup|].
  split; [apply elem_of_merged_keys|]. split.
  - intros e (p & -> & Hp)%list_elem_of_fmap. rewrite settled_by_keys in Hp. apply list_elem_of_omap in Hp as (k & Hk & Hp).
    destruct (settle_key_entry rs k Hk) as (w & l' & _ & Hle & Hw & Hkw & E). rewrite E in Hp. injection Hp as <-.
    exists w. simpl. split; [done|]. split; [done|]. intros y Hy Hky. apply Hle, elem_of_sources_at. by rewrite Hky.
  - intros k. rewrite list_elem_of_fmap. setoid_rewrite elem_of_conflicts. split.
    + intros (c & -> & w & l' & Hw & (_ & x & Hx & Hh)%conflict_of_spec & _).
      assert (∀ z, z ∈ w :: l' → z ∈ all_sources rs ∧ entry_key (sr_entry z) = conflict_key c) as Hin
        by (intros z; rewrite Hw; apply elem_of_sources_at).
      exists x, w. destruct (Hin x Hx), (Hin w ltac:(by left)). done.
    + intros (x & y & Hx & Hy & Hkx & Hky & Hh).
      destruct (settle_key_entry rs k) as (w & l' & Hw & Hle & _ & _ & E); [apply elem_of_merged_keys; eauto|].
      assert (∃ z, z ∈ w :: l' ∧ sr_hash z ≠ sr_hash w) as Hz.
      { destruct (decide (sr_hash x = sr_hash w)) as [Ex|Ex]; [exists y|exists x]; rewrite Hw, elem_of_sources_at; split; try done. congruence. }
      set (c := mkConflict k (sr_peer w) (sr_hash w) ((λ x, mkConflictSource (sr_peer x) (sr_transport x) (sr_hash x)) <$> (w :: l'))).
      exists c. split; [done|]. exists w, l'. split; [done|]. split; [|done].
      apply conflict_of_spec. done.
Qed.

(** Pages whose entries no two peers or positions share. *)
Definition distinct_pages rs : Prop :=
  NoDup (pr_peer_id <$> rs) ∧ Forall (λ p, NoDup (entry_key <$> scan_entries (pr_result p))) rs.

Lemma filter_perm {A} (f : A → bool) l l' : l ≡ₚ l' → List.filter f l ≡ₚ List.filter f l'.
Proof.
  induction 1 as [|x l l' _ IH|x y l|l1 l2 l3 _ IH1 _ IH2]; simpl; [done| | |by rewrite IH1].
  - destruct (f x); [by constructor|done].
  - destruct (f x), (f y); done || constructor.
Qed.

Lemma elem_of_all_sources rs x :
  x ∈ all_sources rs ↔ ∃ p, p ∈ rs ∧ x ∈ sources_of entry_hash p.
Proof.
  unfold all_sources. rewrite elem_of_concat. split.
  - intros (l & Hx & (p & -> & Hp)%list_elem_of_fmap). eauto.
  - intros (p & Hp & Hx). exists (sources_of entry_hash p). split; [exact Hx|]. by apply list_elem_of_fmap_2.
Qed.

Lemma source_peer p x : x ∈ sources_of entry_hash p → sr_peer x = pr_peer_id p.
Proof. unfold sources_of. by intros (e & -> & _)%list_elem_of_fmap. Qed.

Lemma page_has_one p k :
  NoDup (entry_key <$> scan_entries (pr_result p)) → length (sources_at k (sources_of entry_hash p)) ≤ 1.
Proof.
  unfold sources_of. generalize (scan_entries (pr_result p)) as l. induction l as [|e l IH]; [simpl; lia|].
  rewrite !fmap_cons. intros [Hn Hl]%NoDup_cons. simpl. case_bool_decide as E; [|by apply IH]. simpl.
  enough (sources_at k ((λ e, mkSource (pr_peer_id p) (pr_transport p) e (default "unknown" (entry_hash e))) <$> l) = []) as ->
    by done.
  destruct (sources_at k _) as [|x xs] eqn:Ex; [done|]. exfalso. apply Hn.
  assert (x ∈ x :: xs) as Hx by (by left). rewrite <-Ex in Hx. apply elem_of_sources_at in Hx as [(e' & -> & He')%list_elem_of_fmap Hk].
  simpl in Hk. rewrite E, <-Hk. by apply list_elem_of_fmap_2.
Qed.

Lemma sources_at_app k l l' : sources_at k (l ++ l') = sources_at k l ++ sources_at k l'.
Proof. apply List.filter_app. Qed.

(** At one key the sources come from different peers. *)
Lemma distinct_peers rs k : distinct_pages rs → NoDup (sr_peer <$> sources_at k (all_sources rs)).
Proof.
  intros [Hp Hk]. induction rs as [|p rs IH]; [constructor|]. rewrite fmap_cons in Hp.
  apply NoDup_cons in Hp as [Hn Hp]. apply Forall_cons in Hk as [H1 Hk]. specialize (IH Hp Hk).
  change (all_sources (p :: rs)) with (sources_of entry_hash p ++ all_sources rs). rewrite sources_at_app, fmap_app.
  apply NoDup_app. split; [|split; [|done]].
  - pose proof (page_has_one p k H1) as Hl. destruct (sources_at k (sources_of entry_hash p)) as [|x [|y l]];
      [constructor|apply NoDup_singleton|simpl in Hl; lia].
  - intros z (x & -> & [Hx _]%elem_of_sources_at)%list_elem_of_fmap
      (y & E & [(q & Hq & Hy)%elem_of_all_sources _]%elem_of_sources_at)%list_elem_of_fmap.
    apply source_peer in Hx, Hy. apply Hn. rewrite <-Hx, E, Hy. by apply list_elem_of_fmap_2.
Qed.

Lemma sort_unique l l' : l ≡ₚ l' → NoDup (sr_peer <$> l) → merge_sort source_le l = merge_sort source_le l'.
Proof.
  intros Hp Hn. eapply (StronglySorted_unique_strong source_le).
  - intros x y Hx Hy Hxy Hyx. rewrite merge_sort_Permutation in Hx, Hy. rewrite <-Hp in Hy.
    assert (rank x = rank y) as [= E _ _] by (by apply ole_antisymm).
    apply list_elem_of_lookup in Hx as [i Hi], Hy as [j Hj].
    enough (i = j) by congruence. eapply NoDup_lookup; [exact Hn|rewrite list_lookup_fmap, Hi; done|].
    rewrite list_lookup_fmap, Hj. simpl. by rewrite E.
  - apply StronglySorted_merge_sort; [apply source_le_trans|apply source_le_total].
  - apply StronglySorted_merge_sort; [apply source_le_trans|apply source_le_total].
  - by rewrite !merge_sort_Permutation.
Qed.

Lemma all_sources_perm rs rs' : rs ≡ₚ rs' → all_sources rs ≡ₚ all_sources rs'.
Proof.
  induction 1 as [|p l l' _ IH|p q l|l1 l2 l3 _ IH1 _ IH2]; unfold all_sources in *; simpl; [done| | |by rewrite IH1].
  - by rewrite IH.
  - rewrite !app_assoc. by rewrite (Permutation_app_comm (sources_of entry_hash q)).
Qed.

Lemma merged_keys_perm rs rs' : rs ≡ₚ rs' → btree_keys (by_key entry_hash rs) = btree_keys (by_key entry_hash rs').
Proof.
  intros Hp. apply (StronglySorted_unique String.le); [apply btree_keys_sorted..|].
  apply NoDup_Permutation; [apply btree_keys_NoDup..|]. intros k. rewrite !elem_of_merged_keys.
  by setoid_rewrite (all_sources_perm rs rs' Hp).
Qed.

Lemma cursors_lookup rs id :
  NoDup (pr_peer_id <$> rs) →
  ∀ (m : gmap string string) c, m !! id = None ∨ id ∉ pr_peer_id <$> rs →
  foldl (λ m p, match next_cursor (pr_result p) with Some c => <[pr_peer_id p := c]> m | None => m end) m rs !! id = Some c
  ↔ m !! id = Some c ∨ ∃ p, p ∈ rs ∧ pr_peer_id p = id ∧ next_cursor (pr_result p) = Some c.
Proof.
  induction rs as [|p rs IH]; intros Hn m c Hm; simpl.
  - split; [by left|]. intros [?|(p & Hp & _)]; [done|by apply not_elem_of_nil in Hp].
  - rewrite fmap_cons in Hn, Hm. apply NoDup_cons in Hn as [Hp Hn]. setoid_rewrite elem_of_cons.
    destruct (decide (pr_peer_id p = id)) as [E|E].
    + assert (m !! id = None) as Hm' by (destruct Hm as [?|Hm]; [done|destruct Hm; rewrite E; by left]).
      rewrite E in Hp. rewrite IH by (done || by right). rewrite Hm'.
      destruct (next_cursor (pr_result p)) eqn:Ec; rewrite ?E, ?lookup_insert_eq, ?Hm'; set_solver.
    + rewrite IH; [|done|destruct (next_cursor (pr_result p)); rewrite ?lookup_insert_ne by done; set_solver].
      destruct (next_cursor (pr_result p)) eqn:Ec; rewrite ?lookup_insert_ne by done; naive_solver.
Qed.

Lemma cursors_perm rs rs' : rs ≡ₚ rs' → NoDup (pr_peer_id <$> rs) → cursors_of rs = cursors_of rs'.
Proof.
  intros Hp Hn. assert (NoDup (pr_peer_id <$> rs')) as Hn' by (by rewrite <-Hp). apply map_eq. intros id.
  apply option_eq. intros c. unfold cursors_of. rewrite !cursors_lookup by (done || left; apply lookup_empty).
  by setoid_rewrite Hp.
Qed.

(** The order in which the peers answer does not matter: when the peers are different and
no page repeats a key, any order of the pages gives the same merged page, cursor included,
and the same conflicts. *)
Lemma fan_in_order_irrelevant request request' rs rs' fs fs' :
  rs ≡ₚ rs' → distinct_pages rs →
  let f := merge_remote_records_fan_in entry_hash cursors_text request rs fs in
  let f' := merge_remote_records_fan_in entry_hash cursors_text request' rs' fs' in
  merged f = merged f' ∧ conflicts f = conflicts f'.
Proof.
  intros Hp Hd. cbn zeta. unfold merge_remote_records_fan_in. cbn [merged conflicts]. fold (settled rs). fold (settled rs').
  enough (settled rs = settled rs') as E.
  { rewrite E, (cursors_perm rs rs' Hp); [done|apply Hd]. }
  rewrite !settled_by_keys, (merged_keys_perm rs rs' Hp). generalize (btree_keys (by_key entry_hash rs')) as ks.
  assert (∀ k, settle_key (k, sources_at k (all_sources rs)) = settle_key (k, sources_at k (all_sources rs'))) as E.
  { intros k. unfold settle_key. simpl. rewrite (sort_unique _ (sources_at k (all_sources rs'))); [done| |by apply distinct_peers].
    apply filter_perm. by apply all_sources_perm. }
  intros ks. induction ks as [|k ks IH]; [done|]. simpl. rewrite E. destruct (settle_key _); [f_equal|]; exact IH.
Qed.
End merging.

(** * Concrete selections and merges *)

Module Polling.
#[export] Existing Instance Exchange.unit_wire.
#[export] Instance no_hints : RequestHints := {| query_dimension := λ _, 0; vector_allows_stale := λ _, false; text_allows_stale := λ _, false |}.

Definition peer (id : string) (caps : list string) : PeerPresence := mkPresence id id "websocket" None caps [] ∅.

Definition crowd : list PeerPresence := [peer "pa" []; peer "pb" ["pull_records"]; peer "pc" ["pull_records"]].

Definition room (cfg : SessionAuthConfig) : SyncState :=
  let s := Link.start demo_db cfg true in
  let r := router s in
  set_router (mkRouter (config r) 0 ∅ ∅ (foldl update_peer_presence ∅ crowd) 0 0 0) s.

Definition anyone (needs : bool) : RemoteInterestPolicy := mkPolicy TargetAny None [] needs.

Lemma selection_sound_witness :
  resolve_relay_peers_for_policy (room Link.relaxed) (mkPolicy TargetPeers None ["pc"; "pa"; "px"] true) (Some "pull_records") None
    = Ok [peer "pc" ["pull_records"]] ∧
  Forall (.∈ relay_peer_candidates (room Link.relaxed)) [peer "pc" ["pull_records"]].
Proof.
  assert (resolve_relay_peers_for_policy (room Link.relaxed) (mkPolicy TargetPeers None ["pc"; "pa"; "px"] true) (Some "pull_records") None
    = Ok [peer "pc" ["pull_records"]]) as E by (by vm_compute).
  split; [exact E|]. destruct (selection_sound _ _ _ _ _ E) as [H _]. specialize (H eq_refl).
  eapply Forall_impl; [exact H|]. by intros x [? _].
Defined.

Lemma selection_best_witness :
  explicit_policy_peers (anyone false) = Ok None ∧
  ∃ x, x ∈ relay_peer_candidates (room Link.relaxed) ∧ peer_id x = "pb" ∧
    peer_supports_request x (Some "pull_records") None = true.
Proof.
  split; [reflexivity|]. pose proof (selection_best (room Link.relaxed) (anyone false) (Some "pull_records") None eq_refl) as H.
  replace (select_relay_peer_for_policy (room Link.relaxed) (anyone false) (Some "pull_records") None) with (Ok "pb" : result string) in H
    by (by vm_compute).
  destruct H as (x & Hx & Hid & _ & _ & Hbest). exists x. split; [exact Hx|]. split; [exact Hid|].
  apply (Hbest (peer "pc" ["pull_records"])); [|by vm_compute|done].
  apply (list_elem_of_lookup_2 _ 2). by vm_compute.
Defined.

Definition hash_of (e : RecordEntry) : option string :=
  match entry_value e with RJson (JString s) => Some s | _ => None end.

Definition cursors_text (m : gmap string string) : option string :=
  Some ("{" +:+ foldr (λ p t, p.1 +:+ ":" +:+ p.2 +:+ t) "" (btree_list m) +:+ "}").

Definition page (id : string) (l : list (string * string)) (c : option string) : RemotePeerRecords :=
  mkPeerRecords id WebSocket (mkScanResult ((λ p, mkRecordEntry p.1 (RJson (JString p.2))) <$> l) c).

Definition pages : list RemotePeerRecords :=
  [page "pc" [("b", "new"); ("a", "1")] (Some "b"); page "pb" [("b", "old"); ("c", "3")] None].

Lemma fan_in_order_irrelevant_witness :
  let f := merge_remote_records_fan_in hash_of cursors_text "q" pages [] in
  entry_key <$> scan_entries (merged f) = ["a"; "b"; "c"] ∧ conflict_key <$> conflicts f = ["b"] ∧
  merged f = merged (merge_remote_records_fan_in hash_of cursors_text "q" (reverse pages) []).
Proof.
  cbn zeta. split; [by vm_compute|]. split; [by vm_compute|].
  apply (fan_in_order_irrelevant hash_of cursors_text "q" "q" pages (reverse pages) [] []); [by rewrite reverse_Permutation|].
  split; [apply (bool_decide_unpack _); by vm_compute|]. repeat constructor; apply (bool_decide_unpack _); by vm_compute.
Defined.

(** The cursor of a merge is the text of a JSON object, which the peers compare as a key:
a second page asked with it holds no key that begins below a brace. *)
Lemma fan_in_cursor_ends :
  let more := page "pb" [("b", "old")] (Some "b") in
  let f := merge_remote_records_fan_in hash_of cursors_text "q" [more] [] in
  next_cursor (pr_result more) = Some "b" ∧ matches_key (with_cursor scan_default (Some "b")) "c" = true ∧
  next_cursor (merged f) = Some "{pb:b}" ∧ matches_key (with_cursor scan_default (next_cursor (merged f))) "c" = false.
Proof. by vm_compute. Qed.
End Polling.
