(* ===== verification/Auth.v ===== *)
(** Users, signed synchronization and signed values ([src/src/auth.rs], and its uses in
[src/src/db.rs] and [src/src/engine.rs]).

Keys, signatures, encryption and the serialization of the signed types are parameters
with the laws their libraries document: a signature made with a key checks against it,
and what was encrypted or printed comes back. *)
From stdpp Require Import base gmap sets list strings.
From Stdlib Require Import ZArith Lia.
From S2P Require Import Prelude Clock Value Crdt Merge OpQueue RelIndex Paths Records Keys Engine Segment Input Inner Read View Query Traversal InnerWf Tx Db SessionAuth Protocol Change Scan Router AppRoute Serve Relay Session.

Record UserGrant := mkGrant { grant_root : string; grant_read : bool; grant_write : bool }.

Record UserRecord := mkUser {
  user_alias : string;
  user_key : string;
  user_grants : list UserGrant;
  user_metadata : gmap string string
}.

Record AuthClaims := mkClaims {
  claim_alias : string;
  claim_replica : string;
  claim_roots : list string;
  claim_issued : Z
}.

Record SignedPayload (T : Type) := mkSigned { sp_signer : string; sp_signature : string; sp_payload : T }.
Arguments mkSigned {T}.
Arguments sp_signer {T}.
Arguments sp_signature {T}.
Arguments sp_payload {T}.

Record SignedValueClaims := mkValueClaims { vc_path : string; vc_value : json; vc_cert : option string }.

Record DataCertificate := mkCertificate {
  certificants : list string;
  write_policy : json;
  cert_expires : option Z;
  write_block : option json;
  cert_iat : Z
}.

Record StoredAuthFieldMeta := mkAuthMeta {
  meta_signer : string;
  meta_certificate : option string;
  meta_owner : option string;
  meta_verified : bool
}.

(** [serde_json::to_vec]. *)
Class Serial (T : Type) := to_text : T → result string.

Class Crypto := {
  SignKey : Type;
  PublicKey : Type;
  BoxKey : Type;
  Box : Type;
  public_text : SignKey → string;
  parse_key : string → result PublicKey;
  sign_bytes : SignKey → string → string;
  check_bytes : PublicKey → string → string → result unit;
  encrypt_frame : BoxKey → SyncFrame → result Box;
  decrypt_frame : BoxKey → Box → result SyncFrame;
  encrypt_snapshot : BoxKey → DatabaseSnapshot → result Box;
  decrypt_snapshot : BoxKey → Box → result DatabaseSnapshot;
  json_text : json → result string;
  text_json : string → option json;
  value_to_json : SignedPayload SignedValueClaims → result json;
  json_to_value : json → result (SignedPayload SignedValueClaims);
  cert_to_json : SignedPayload DataCertificate → result json;
  json_to_cert : json → result (SignedPayload DataCertificate);
  #[global] claims_frame_serial :: Serial (AuthClaims * SyncFrame);
  #[global] claims_box_serial :: Serial (AuthClaims * Box);
  #[global] value_serial :: Serial SignedValueClaims;
  #[global] cert_serial :: Serial DataCertificate;
  shown_roots : list string → string;
  auth_now : Z
}.

Class CryptoLaws `{Crypto} := {
  own_signature : ∀ k, ∃ pk, parse_key (public_text k) = Ok pk ∧ ∀ m, check_bytes pk m (sign_bytes k m) = Ok tt;
  frame_decrypts : ∀ k f b, encrypt_frame k f = Ok b → decrypt_frame k b = Ok f;
  snapshot_decrypts : ∀ k s b, encrypt_snapshot k s = Ok b → decrypt_snapshot k b = Ok s;
  text_parses : ∀ j t, json_text j = Ok t → text_json t = Some j;
  value_parses : ∀ v j, value_to_json v = Ok j → json_to_value j = Ok v;
  cert_parses : ∀ c j, cert_to_json c = Ok j → json_to_cert j = Ok c
}.

(** Errors as values: [let? x := r in k]. *)
Notation "'let?' x ':=' r 'in' k" := (match r with Ok x => k | Err err => Err err end)
  (at level 10, x pattern, r at level 100, k at level 200).

(** * Roots and owners *)

(** The first part of a split; [split] gives at least one. *)
Definition first_part (sep : Ascii.ascii) (s : string) : string := default s (head (split_on sep s)).

Definition root_for_node (node : string) : string := first_part "~" (first_part "/" node).

Definition operation_roots (op : Operation) : list string :=
  match action op with
  | SetField node _ _ | AddSetMember node _ _ | RemoveSetMember node _ _ | DeleteField node _ => [root_for_node node]
  end.

Definition push_new (l : list string) (x : string) : list string := if bool_decide (x ∈ l) then l else l ++ [x].

Definition roots_for_ops (ops : list Operation) : list string := foldl push_new [] (ops ≫= operation_roots).

Definition roots_for_frame (f : SyncFrame) : list string :=
  match f with FSync _ _ ops => roots_for_ops ops | FAck _ _ _ => [] end.

Fixpoint trim_start_matches (c : Ascii.ascii) (s : string) : string :=
  match s with String a s' => if decide (a = c) then trim_start_matches c s' else s | EmptyString => "" end.

Definition owner_public_key_for_path (path : string) : option string :=
  let root := first_part "/" path in
  if negb (starts_with root "~") || starts_with root "~@" then None else Some (trim_start_matches "~" root).

Definition matches_root (g : UserGrant) (root : string) : bool :=
  bool_decide (grant_root g = "*") || bool_decide (grant_root g = root).

Definition can_write_roots (u : UserRecord) (roots : list string) : bool :=
  forallb (λ root, existsb (λ g, grant_write g && matches_root g root) (user_grants u)) roots.

(** * Certificates *)

Definition matches_lex (candidate pattern : string) : bool :=
  bool_decide (pattern = "") || bool_decide (pattern = "*")
  || match strip_suffix "*" pattern with
     | Some pre => starts_with candidate pre
     | None => bool_decide (candidate = pattern)
     end.

Definition as_str (j : json) : option string := match j with JString s => Some s | _ => None end.

Definition path_segments (path : string) : list string := List.filter (λ s, negb (bool_decide (s = ""))) (split_on "/" path).

Definition path_key (path : string) : string := default "" (last (path_segments path)).

Definition soul_path (path : string) : string :=
  let segs := path_segments path in
  if 2 <? length segs then Prelude.join "/" (take (length segs - 2) (drop 1 segs)) else "".

Definition rule_matches (path : string) (entry : json) : bool :=
  match entry with
  | JString pattern => matches_lex path pattern || matches_lex (soul_path path) pattern || matches_lex (path_key path) pattern
  | JObject o =>
      match obj_get "#" o ≫= as_str, obj_get "." o ≫= as_str with
      | Some pr, Some fr => matches_lex (soul_path path) pr && matches_lex (path_key path) fr
      | Some pr, None => matches_lex path pr || matches_lex (soul_path path) pr
      | None, Some fr => matches_lex (path_key path) fr
      | None, None => false
      end
  | _ => false
  end.

Definition matches_certificate_path (path : string) (policy : json) : bool :=
  match policy with
  | JNull => true
  | JArray entries => existsb (rule_matches path) entries
  | other => rule_matches path other
  end.

Section auth.
Context `{C : Crypto}.

Definition sign_payload `{Serial T} (k : SignKey) (p : T) : result (SignedPayload T) :=
  let? m := to_text p in Ok (mkSigned (public_text k) (sign_bytes k m) p).

Definition verify_payload `{Serial T} (pk : PublicKey) (s : SignedPayload T) : result unit :=
  let? m := to_text (sp_payload s) in check_bytes pk m (sp_signature s).

Definition verify `{Serial T} (s : SignedPayload T) : result T :=
  let? pk := parse_key (sp_signer s) in
  let? _ := verify_payload pk s in
  Ok (sp_payload s).

Definition SEA_PREFIX : string := "SEA".

Definition encode_sea_envelope (v : json) : result string := let? t := json_text v in Ok (SEA_PREFIX +:+ t).

Definition parse_sea_envelope (s : string) : option json := strip_prefix SEA_PREFIX s ≫= text_json.

Definition signed_part (envelope : json) : json :=
  match envelope with JObject o => default (JObject o) (obj_get "signed" o) | other => other end.

Definition decode_signed_value (v : json) : result (option (SignedPayload SignedValueClaims)) :=
  match v with
  | JString s =>
      match parse_sea_envelope s with
      | Some e => let? x := json_to_value (signed_part e) in Ok (Some x)
      | None => Ok None
      end
  | _ => Ok None
  end.

Definition decode_certificate (s : string) : result (SignedPayload DataCertificate) :=
  match parse_sea_envelope s with
  | Some e => json_to_cert (signed_part e)
  | None => Err (crypto_error "certificate is not a SEA-encoded signed payload")
  end.

Definition envelope_of (signed : json) : json := JObject [("kind", JString "signed"); ("signed", signed)].

Definition normalize_certificants (l : list string) : list string := match l with [] => ["*"] | _ => l end.

Definition validate_certificate (certificate owner certificant path : string) : result unit :=
  let? signed := decode_certificate certificate in
  if negb (bool_decide (sp_signer signed = owner)) then Err (crypto_error "certificate signer does not match the path owner")
  else
    let? c := verify signed in
    if match cert_expires c with Some t => (t <? auth_now)%Z | None => false end then Err (crypto_error "certificate has expired")
    else if negb (existsb (λ x, bool_decide (x = "*") || bool_decide (x = certificant)) (certificants c))
    then Err (crypto_error "certificate does not authorize this writer")
    else if negb (matches_certificate_path path (write_policy c)) then Err (crypto_error "certificate does not authorize this path")
    else if match write_block c with Some p => matches_certificate_path path p | None => false end
    then Err (crypto_error "certificate blocks writes to this path")
    else Ok tt.

(** * The security state *)

Record LocalUser := mkLocal { local_alias : string; local_identity : SignKey; local_grants : list UserGrant }.

Record SecurityState := mkSecurity {
  require_signed_sync : bool;
  trusted_users : gmap string UserRecord;
  local_user : option LocalUser;
  transport_encryption_key : option BoxKey;
  snapshot_encryption_key : option BoxKey
}.

Definition security_default : SecurityState := mkSecurity false ∅ None None None.

Definition register_user (alias key : string) (grants : list UserGrant) (st : SecurityState) : SecurityState :=
  mkSecurity (require_signed_sync st) (<[alias := mkUser alias key grants ∅]> (trusted_users st)) (local_user st)
    (transport_encryption_key st) (snapshot_encryption_key st).

Definition set_local_user (alias : string) (k : SignKey) (grants : list UserGrant) (st : SecurityState) : result SecurityState :=
  let? st :=
    match trusted_users st !! alias with
    | Some u =>
        if bool_decide (user_key u = public_text k) then Ok st
        else Err (crypto_error ("alias `" +:+ alias +:+ "` does not match the configured public key"))
    | None => Ok (register_user alias (public_text k) grants st)
    end in
  Ok (mkSecurity (require_signed_sync st) (trusted_users st) (Some (mkLocal alias k grants)) (transport_encryption_key st)
        (snapshot_encryption_key st)).

Definition set_snapshot_encryption_key (k : BoxKey) (st : SecurityState) : SecurityState :=
  mkSecurity (require_signed_sync st) (trusted_users st) (local_user st) (transport_encryption_key st) (Some k).

Definition set_transport_encryption_key (k : BoxKey) (st : SecurityState) : SecurityState :=
  mkSecurity (require_signed_sync st) (trusted_users st) (local_user st) (Some k) (snapshot_encryption_key st).

Definition clear_local_user (st : SecurityState) : SecurityState :=
  mkSecurity (require_signed_sync st) (trusted_users st) None (transport_encryption_key st) (snapshot_encryption_key st).

Definition local_public_key (st : SecurityState) : option string := (λ u, public_text (local_identity u)) <$> local_user st.

(** ** Signed values *)

Definition certify_write (certs : list string) (policy : json) (expires : option Z) (block : option json) (st : SecurityState)
    : result string :=
  match local_user st with
  | None => Err (crypto_error "cannot create a certificate without an authenticated user")
  | Some u =>
      let? signed := sign_payload (local_identity u) (mkCertificate (normalize_certificants certs) policy expires block auth_now) in
      let? j := cert_to_json signed in
      encode_sea_envelope (envelope_of j)
  end.

Definition sign_data_value (path : string) (v : json) (cert : option string) (st : SecurityState) : result json :=
  match local_user st with
  | None => Err (crypto_error "cannot sign a field value without an authenticated user")
  | Some u =>
      let? signed := sign_payload (local_identity u) (mkValueClaims path v cert) in
      let? j := value_to_json signed in
      let? t := encode_sea_envelope (envelope_of j) in
      Ok (JString t)
  end.

Definition verify_data_value (path : string) (v : json) : result (option json) :=
  let? d := decode_signed_value v in
  match d with
  | None => Ok (Some v)
  | Some signed =>
      let? claims := verify signed in
      if negb (bool_decide (vc_path claims = path)) then Ok None
      else
        match owner_public_key_for_path path with
        | Some owner =>
            if bool_decide (sp_signer signed = owner) then Ok (Some (vc_value claims))
            else
              match vc_cert claims with
              | None => Ok None
              | Some cert => let? _ := validate_certificate cert owner (sp_signer signed) path in Ok (Some (vc_value claims))
              end
        | None => Ok (Some (vc_value claims))
        end
  end.

(** The metadata a store keeps of a signed field, and its value when it verifies. *)
Definition inspect_signed_field_value (path : string) (v : json) : result (option (StoredAuthFieldMeta * option json)) :=
  let? d := decode_signed_value v in
  match d with
  | None => Ok None
  | Some signed =>
      let owner := owner_public_key_for_path path in
      let meta b := mkAuthMeta (sp_signer signed) (vc_cert (sp_payload signed)) owner b in
      let bad := Ok (Some (meta false, None)) in
      match verify signed with
      | Err _ => bad
      | Ok claims =>
          let good := Ok (Some (meta true, Some (vc_value claims))) in
          if negb (bool_decide (vc_path claims = path)) then bad
          else
            match owner with
            | Some o =>
                if bool_decide (sp_signer signed = o) then good
                else
                  match vc_cert claims with
                  | None => bad
                  | Some cert => match validate_certificate cert o (sp_signer signed) path with Err _ => bad | Ok _ => good end
                  end
            | None => good
            end
      end
  end.

(** [materialize_scalar] of the database, [storage_materialized_scalar] and
[inspect_signed_scalar] of the store, and [sign_scalar_for_path]. *)
Definition materialize_scalar (path : string) (v : json) : json :=
  match verify_data_value path v with Ok (Some v) => v | _ => JNull end.

Definition storage_materialized_scalar (node field : string) (v : json) : option json :=
  match inspect_signed_field_value (node +:+ "/" +:+ field) v with
  | Err _ => None
  | Ok (Some r) => r.2
  | Ok None => Some v
  end.

Definition inspect_signed_scalar (path : string) (v : json) : option StoredAuthFieldMeta :=
  match inspect_signed_field_value path v with Ok (Some r) => Some r.1 | _ => None end.

Definition sign_scalar_for_path (path : string) (v : json) (cert : option string) (st : SecurityState) : result json :=
  match owner_public_key_for_path path with
  | None => Ok v
  | Some owner =>
      match local_public_key st with
      | None => Err (crypto_error ("writing owned path `" +:+ path +:+ "` requires an authenticated local user"))
      | Some key =>
          if negb (bool_decide (key = owner)) && bool_decide (cert = None)
          then Err (crypto_error ("writing owned path `" +:+ path +:+ "` requires the owner or a valid certificate"))
          else sign_data_value path v cert st
      end
  end.

(** ** Signed synchronization *)

Inductive SecureFrame :=
  | SecurePlain (f : SyncFrame)
  | SecureAuthenticated (claims : AuthClaims) (signer signature : string) (f : SyncFrame)
  | SecureEncrypted (claims : AuthClaims) (signer signature : string) (b : Box).

Definition encode_sync_frame (replica : string) (roots : list string) (f : SyncFrame) (st : SecurityState) : result SecureFrame :=
  match local_user st with
  | None =>
      if require_signed_sync st then Err (crypto_error "signed sync is required but no local user is configured")
      else Ok (SecurePlain f)
  | Some u =>
      let claims := mkClaims (local_alias u) replica roots auth_now in
      let key := public_text (local_identity u) in
      match transport_encryption_key st with
      | Some box =>
          let? b := encrypt_frame box f in
          let? s := sign_payload (local_identity u) (claims, b) in
          Ok (SecureEncrypted claims key (sp_signature s) b)
      | None =>
          let? s := sign_payload (local_identity u) (claims, f) in
          Ok (SecureAuthenticated claims key (sp_signature s) f)
      end
  end.

Definition verify_claims (claims : AuthClaims) (signer : string) (st : SecurityState) : result UserRecord :=
  match trusted_users st !! claim_alias claims with
  | None => Err (crypto_error ("unknown user alias `" +:+ claim_alias claims +:+ "`"))
  | Some u =>
      if negb (bool_decide (user_key u = signer)) then Err (crypto_error ("signer mismatch for alias `" +:+ claim_alias claims +:+ "`"))
      else Ok u
  end.

Definition authorize_roots (u : UserRecord) (claims : AuthClaims) (actual : list string) : result unit :=
  if negb (forallb (λ c, existsb (λ a, bool_decide (a = c)) actual) (claim_roots claims)) && negb (bool_decide (actual = []))
  then Err (crypto_error ("frame for alias `" +:+ claim_alias claims +:+ "` advertised roots " +:+ shown_roots (claim_roots claims)
              +:+ " but carried " +:+ shown_roots actual))
  else if negb (bool_decide (actual = [])) && negb (can_write_roots u actual)
  then Err (crypto_error ("alias `" +:+ claim_alias claims +:+ "` is not authorized for roots " +:+ shown_roots actual))
  else Ok tt.

Definition decode_sync_frame (x : SecureFrame) (st : SecurityState) : result SyncFrame :=
  match x with
  | SecurePlain f =>
      if require_signed_sync st then Err (crypto_error "received unsigned sync frame while signed sync is required") else Ok f
  | SecureAuthenticated claims signer sig f =>
      let? u := verify_claims claims signer st in
      let? pk := parse_key (user_key u) in
      let? _ := verify_payload pk (mkSigned signer sig (claims, f)) in
      let? _ := authorize_roots u claims (roots_for_frame f) in
      Ok f
  | SecureEncrypted claims signer sig b =>
      let? u := verify_claims claims signer st in
      let? pk := parse_key (user_key u) in
      let? _ := verify_payload pk (mkSigned signer sig (claims, b)) in
      match transport_encryption_key st with
      | None => Err (crypto_error "received encrypted sync frame but no transport key is configured")
      | Some box =>
          let? f := decrypt_frame box b in
          let? _ := authorize_roots u claims (roots_for_frame f) in
          Ok f
      end
  end.

(** ** Stored snapshots *)

Inductive StoredSnapshot :=
  | StoredPlain (s : DatabaseSnapshot)
  | StoredEncrypted (alias : option string) (b : Box).

Definition encode_snapshot (s : DatabaseSnapshot) (st : SecurityState) : result StoredSnapshot :=
  match snapshot_encryption_key st with
  | Some k => let? b := encrypt_snapshot k s in Ok (StoredEncrypted (local_alias <$> local_user st) b)
  | None => Ok (StoredPlain s)
  end.

Definition decode_snapshot (x : StoredSnapshot) (st : SecurityState) : result DatabaseSnapshot :=
  match x with
  | StoredPlain s => Ok s
  | StoredEncrypted _ b =>
      match snapshot_encryption_key st with
      | None => Err (crypto_error "received encrypted snapshot but no snapshot key is configured")
      | Some k => decrypt_snapshot k b
      end
  end.

(** [secure_sync_frame] and [decode_secure_sync_frame] of the database. *)
Definition secure_sync_frame (replica : string) (f : SyncFrame) (st : SecurityState) : result SecureFrame :=
  encode_sync_frame replica (roots_for_frame f) f st.
End auth.

(** * What is accepted *)

Section accepted.
Context `{C : Crypto}.

Definition ops_of (f : SyncFrame) : list Operation := match f with FSync _ _ ops => ops | FAck _ _ _ => [] end.

Definition op_root (op : Operation) : string := root_for_node (operation_source_node op).

Lemma operation_roots_one op : operation_roots op = [op_root op].
Proof. unfold operation_roots, op_root, operation_source_node. by destruct (action op). Qed.

Lemma elem_of_push_new l x y : y ∈ push_new l x ↔ y ∈ l ∨ y = x.
Proof. unfold push_new. case_bool_decide; set_solver. Qed.

Lemma elem_of_roots f r : r ∈ roots_for_frame f ↔ ∃ op, op ∈ ops_of f ∧ op_root op = r.
Proof.
  assert (∀ xs l, r ∈ foldl push_new l xs ↔ r ∈ l ∨ r ∈ xs) as Hf.
  { induction xs as [|x xs IH]; intros l; simpl; [set_solver|]. rewrite IH, elem_of_push_new. set_solver. }
  destruct f as [s m ops|s m n]; cbn [roots_for_frame ops_of]; [|set_solver]. unfold roots_for_ops. rewrite Hf, list_elem_of_bind.
  setoid_rewrite operation_roots_one. set_solver.
Qed.

Lemma roots_empty f : roots_for_frame f = [] ↔ ops_of f = [].
Proof.
  split; intros E.
  - destruct (ops_of f) as [|op ops] eqn:Eo; [done|]. assert (op_root op ∈ roots_for_frame f) as Hr
      by (apply elem_of_roots; exists op; rewrite Eo; split; [by left|done]). rewrite E in Hr. by apply not_elem_of_nil in Hr.
  - destruct (roots_for_frame f) as [|r l] eqn:Er; [done|]. assert (r ∈ roots_for_frame f) as (op & Hop & _)%elem_of_roots by (rewrite Er; by left).
    rewrite E in Hop. by apply not_elem_of_nil in Hop.
Qed.

(** A grant to write a root, or any root. *)
Definition may_write (u : UserRecord) (root : string) : Prop :=
  ∃ g, g ∈ user_grants u ∧ grant_write g = true ∧ (grant_root g = "*" ∨ grant_root g = root).

Lemma can_write_spec u roots : can_write_roots u roots = true ↔ ∀ r, r ∈ roots → may_write u r.
Proof.
  unfold can_write_roots. rewrite forallb_forall. setoid_rewrite <-list_elem_of_In. apply forall_proper. intros r.
  rewrite existsb_exists. setoid_rewrite <-list_elem_of_In. unfold may_write, matches_root.
  setoid_rewrite andb_true_iff. setoid_rewrite orb_true_iff. by setoid_rewrite bool_decide_eq_true.
Qed.

Lemma authorize_exact u claims f :
  authorize_roots u claims (roots_for_frame f) = Ok tt ↔
  (∀ op, op ∈ ops_of f → may_write u (op_root op)) ∧
  (ops_of f ≠ [] → ∀ r, r ∈ claim_roots claims → ∃ op, op ∈ ops_of f ∧ op_root op = r).
Proof.
  unfold authorize_roots. rewrite <-roots_empty. destruct (roots_for_frame f) as [|r0 l] eqn:Er.
  - rewrite bool_decide_eq_true_2, andb_false_r by done. cbn [negb andb]. split; [|done]. intros _. split; [|done].
    apply roots_empty in Er. rewrite Er. intros op Hop. by apply not_elem_of_nil in Hop.
  - rewrite <-Er. rewrite (bool_decide_eq_false_2 (roots_for_frame f = [])) by (rewrite Er; done). cbn [negb]. rewrite andb_true_r. cbn [andb].
    assert (forallb (λ c, existsb (λ a, bool_decide (a = c)) (roots_for_frame f)) (claim_roots claims) = true ↔
      ∀ r, r ∈ claim_roots claims → ∃ op, op ∈ ops_of f ∧ op_root op = r) as Hcl.
    { rewrite forallb_forall. setoid_rewrite <-list_elem_of_In. apply forall_proper. intros r. rewrite existsb_exists.
      setoid_rewrite <-list_elem_of_In. setoid_rewrite bool_decide_eq_true. rewrite <-elem_of_roots. naive_solver. }
    pose proof (can_write_spec u (roots_for_frame f)) as Hw.
    assert ((∀ r, r ∈ roots_for_frame f → may_write u r) ↔ ∀ op, op ∈ ops_of f → may_write u (op_root op)) as Hr.
    { setoid_rewrite elem_of_roots. naive_solver. }
    assert (roots_for_frame f ≠ []) as Hne by (by rewrite Er). rewrite <-Hr, <-Hw, <-Hcl.
    destruct (forallb _ _), (can_write_roots _ _); cbn [negb]; naive_solver.
Qed.

(** What makes a signed frame acceptable: its alias is trusted under the key that signed
it, the signature is that key's over the claims and the content, and every operation
lies under a root the user may write. *)
Definition vouched (st : SecurityState) (claims : AuthClaims) (signer sig : string) (signed : result string) (f : SyncFrame) : Prop :=
  ∃ u pk m, trusted_users st !! claim_alias claims = Some u ∧ user_key u = signer ∧ parse_key signer = Ok pk ∧
    signed = Ok m ∧ check_bytes pk m sig = Ok tt ∧
    (∀ op, op ∈ ops_of f → may_write u (op_root op)) ∧
    (ops_of f ≠ [] → ∀ r, r ∈ claim_roots claims → ∃ op, op ∈ ops_of f ∧ op_root op = r).

Lemma ok_unit (r : result unit) : (∃ x, r = Ok x) → r = Ok tt.
Proof. by intros [[] ->]. Qed.

(** A failing check: the left side is an error and the right side contradicts it. *)
Ltac refuse :=
  split; [done|]; let H := fresh in intros H; decompose [ex and] H; simplify_eq; congruence.

(** C19: A synchronization frame is accepted exactly when it is plain and signatures are not
required, or when it is signed, and if sealed can be opened, and the signature vouches
for it: the alias it claims is trusted under the very key that signed claims and content,
every operation lies under a root that user may write, and no root is claimed that no
operation touches. *)
Theorem secure_frame_exact st x f :
  decode_sync_frame x st = Ok f ↔
  match x with
  | SecurePlain g => require_signed_sync st = false ∧ g = f
  | SecureAuthenticated claims signer sig g => g = f ∧ vouched st claims signer sig (to_text (claims, g)) f
  | SecureEncrypted claims signer sig b =>
      (∃ box, transport_encryption_key st = Some box ∧ decrypt_frame box b = Ok f) ∧ vouched st claims signer sig (to_text (claims, b)) f
  end.
Proof.
  destruct x as [g|claims signer sig g|claims signer sig b]; cbn [decode_sync_frame].
  - destruct (require_signed_sync st); naive_solver.
  - unfold vouched, verify_claims, verify_payload. cbn [sp_payload sp_signature].
    destruct (trusted_users st !! claim_alias claims) as [u|]; [|refuse]. case_bool_decide as Ek; cbn [negb]; [|refuse].
    rewrite Ek. destruct (parse_key signer) as [pk|] eqn:Ep; [|refuse]. destruct (to_text (claims, g)) as [m|]; [|refuse].
    destruct (check_bytes pk m sig) as [[]|] eqn:Ec; [|refuse]. pose proof (authorize_exact u claims g) as Ha.
    destruct (authorize_roots u claims (roots_for_frame g)) as [[]|].
    2:{ split; [done|]. intros [-> (u' & pk' & m' & [= <-] & _ & _ & _ & _ & H1 & H2)]. by specialize (proj2 Ha (conj H1 H2)). }
    split; [|by intros [-> _]]. intros [= ->]. destruct (proj1 Ha eq_refl) as [H1 H2]. split; [done|]. exists u, pk, m. done.
  - unfold vouched, verify_claims, verify_payload. cbn [sp_payload sp_signature].
    destruct (trusted_users st !! claim_alias claims) as [u|]; [|refuse]. case_bool_decide as Ek; cbn [negb]; [|refuse].
    rewrite Ek. destruct (parse_key signer) as [pk|] eqn:Ep; [|refuse]. destruct (to_text (claims, b)) as [m|]; [|refuse].
    destruct (check_bytes pk m sig) as [[]|] eqn:Ec; [|refuse]. destruct (transport_encryption_key st) as [box|]; [|refuse].
    destruct (decrypt_frame box b) as [g|] eqn:Ed; [|refuse]. pose proof (authorize_exact u claims g) as Ha.
    destruct (authorize_roots u claims (roots_for_frame g)) as [[]|].
    + split.
      * intros [= ->]. destruct (proj1 Ha eq_refl) as [H1 H2]. split; [eauto|]. exists u, pk, m. done.
      * intros [(box' & [= <-] & E) _]. congruence.
    + split; [done|]. intros [(box' & [= <-] & E) (u' & pk' & m' & [= <-] & _ & _ & _ & _ & H1 & H2)]. rewrite Ed in E. injection E as ->.
      by specialize (proj2 Ha (conj H1 H2)).
Qed.

(** ** Signed values *)

(** A signature that checks under the key it names. *)
Definition genuine `{Serial T} (s : SignedPayload T) : Prop :=
  ∃ pk m, parse_key (sp_signer s) = Ok pk ∧ to_text (sp_payload s) = Ok m ∧ check_bytes pk m (sp_signature s) = Ok tt.

Lemma verify_exact_payload `{Serial T} (s : SignedPayload T) p : verify s = Ok p ↔ p = sp_payload s ∧ genuine s.
Proof.
  unfold verify, verify_payload, genuine. destruct (parse_key (sp_signer s)) as [pk|]; [|refuse].
  destruct (to_text (sp_payload s)) as [m|]; [|refuse]. destruct (check_bytes pk m (sp_signature s)) as [[]|] eqn:E; [|refuse].
  split; [|by intros [-> _]]. intros [= <-]. split; [done|]. exists pk, m. done.
Qed.

(** A certificate the owner signed that lets a writer write a path now. *)
Definition certified (cert owner writer path : string) : Prop :=
  ∃ s, decode_certificate cert = Ok s ∧ sp_signer s = owner ∧ genuine s ∧
    let c := sp_payload s in
    (∀ t, cert_expires c = Some t → (auth_now ≤ t)%Z) ∧ ("*" ∈ certificants c ∨ writer ∈ certificants c) ∧
    matches_certificate_path path (write_policy c) = true ∧
    ∀ p, write_block c = Some p → matches_certificate_path path p = false.

Lemma validate_exact cert owner writer path :
  validate_certificate cert owner writer path = Ok tt ↔ certified cert owner writer path.
Proof.
  unfold validate_certificate, certified. destruct (decode_certificate cert) as [s|] eqn:Ed; [|refuse].
  case_bool_decide as Eo; cbn [negb]; [|refuse]. destruct (verify s) as [c|e] eqn:Ev.
  2:{ split; [done|]. intros (s' & [= <-] & _ & Hg & _). assert (verify s = Ok (sp_payload s)) by (by apply verify_exact_payload). congruence. }
  apply verify_exact_payload in Ev as [-> Hg]. set (c := sp_payload s).
  assert (existsb (λ x, bool_decide (x = "*") || bool_decide (x = writer)) (certificants c) = true ↔ "*" ∈ certificants c ∨ writer ∈ certificants c) as Hx.
  { rewrite existsb_exists. setoid_rewrite <-list_elem_of_In. setoid_rewrite orb_true_iff. setoid_rewrite bool_decide_eq_true. naive_solver. }
  assert ((∀ t, cert_expires c = Some t → (auth_now ≤ t)%Z) ↔ match cert_expires c with Some t => (t <? auth_now)%Z | None => false end = false) as Ht
    by (destruct (cert_expires c); [rewrite Z.ltb_ge; naive_solver|naive_solver]).
  assert ((∀ p, write_block c = Some p → matches_certificate_path path p = false) ↔
    match write_block c with Some p => matches_certificate_path path p | None => false end = false) as Hb
    by (destruct (write_block c); naive_solver).
  transitivity (match cert_expires c with Some t => (t <? auth_now)%Z | None => false end = false ∧
    existsb (λ x, bool_decide (x = "*") || bool_decide (x = writer)) (certificants c) = true ∧
    matches_certificate_path path (write_policy c) = true ∧
    match write_block c with Some p => matches_certificate_path path p | None => false end = false).
  - destruct (match cert_expires c with Some _ => _ | None => _ end), (existsb _ _), (matches_certificate_path path (write_policy c)),
      (match write_block c with Some _ => _ | None => _ end); cbn [negb]; naive_solver.
  - rewrite <-Ht, Hx, <-Hb. split.
    + intros (H1 & H2 & H3 & H4). exists s. done.
    + intros (s' & [= <-] & _ & _ & H'). exact H'.
Qed.

(** C20: A stored scalar is read as a value exactly when it carries no signature and is that
value, or carries a genuine signature over this very path and that value and, in a space
with an owner, the signer is the owner or holds a certificate: one the owner signed, not
expired, naming the signer or everyone, whose policy covers the path and whose block does
not. *)
Theorem signed_value_exact path v w :
  verify_data_value path v = Ok (Some w) ↔
  (decode_signed_value v = Ok None ∧ w = v) ∨
  ∃ s, decode_signed_value v = Ok (Some s) ∧ genuine s ∧ vc_path (sp_payload s) = path ∧ w = vc_value (sp_payload s) ∧
    ∀ owner, owner_public_key_for_path path = Some owner →
      sp_signer s = owner ∨ ∃ cert, vc_cert (sp_payload s) = Some cert ∧ certified cert owner (sp_signer s) path.
Proof.
  unfold verify_data_value. destruct (decode_signed_value v) as [[s|]|err] eqn:Ed; [|naive_solver|naive_solver].
  destruct (verify s) as [c|] eqn:Ev.
  2:{ split; [done|]. intros [[? _]|(s' & [= <-] & Hg & _)]; [done|]. assert (verify s = Ok (sp_payload s)) by (by apply verify_exact_payload). congruence. }
  apply verify_exact_payload in Ev as [-> Hg]. case_bool_decide as Ep; cbn [negb]; [|naive_solver].
  destruct (owner_public_key_for_path path) as [owner|]; [|naive_solver]. case_bool_decide as Eo; [naive_solver|].
  destruct (vc_cert (sp_payload s)) as [cert|] eqn:Ec; [|naive_solver]. pose proof (validate_exact cert owner (sp_signer s) path) as Hv.
  destruct (validate_certificate cert owner (sp_signer s) path) as [[]|]; naive_solver.
Qed.

(** The store reads a field as the database does. *)
Lemma store_agrees node field v w :
  storage_materialized_scalar node field v = Some w ↔ verify_data_value (node +:+ "/" +:+ field) v = Ok (Some w).
Proof.
  unfold storage_materialized_scalar, inspect_signed_field_value, verify_data_value.
  destruct (decode_signed_value v) as [[s|]|err]; [|naive_solver|naive_solver].
  destruct (verify s) as [c|]; [|naive_solver]. case_bool_decide; cbn [negb]; [|naive_solver].
  destruct (owner_public_key_for_path _) as [o|]; [|naive_solver]. case_bool_decide; [naive_solver|].
  destruct (vc_cert c) as [cert|]; [|naive_solver]. destruct (validate_certificate _ _ _ _); naive_solver.
Qed.
End accepted.

(** * Round trips *)

Section roundtrips.
Context `{CL : CryptoLaws}.

(** What one replica secures another opens: with a local user whose alias the receiver
trusts under the user's key with grants for the roots of the operations, and the same
transport key or none on both sides, the frame comes back as it was; without a user, when
the receiver does not require signatures. *)
Lemma secure_frame_roundtrip st st' replica f x :
  secure_sync_frame replica f st = Ok x →
  (local_user st = None → require_signed_sync st' = false) →
  (∀ u, local_user st = Some u → ∃ r, trusted_users st' !! local_alias u = Some r ∧ user_key r = public_text (local_identity u) ∧
     ∀ op, op ∈ ops_of f → may_write r (op_root op)) →
  transport_encryption_key st' = transport_encryption_key st →
  decode_sync_frame x st' = Ok f.
Proof.
  unfold secure_sync_frame, encode_sync_frame. intros Hx Hnone Hsome Hkey. destruct (local_user st) as [u|].
  2:{ destruct (require_signed_sync st); [done|]. injection Hx as <-. cbn. by rewrite Hnone. }
  destruct (Hsome u eq_refl) as (r & Hr & Hk & Hg). destruct (own_signature (local_identity u)) as (pk & Hpk & Hs).
  assert (∀ c, claim_roots c = roots_for_frame f → authorize_roots r c (roots_for_frame f) = Ok tt) as Ha.
  { intros c Hc. apply authorize_exact. split; [done|]. intros _ root. rewrite Hc. apply elem_of_roots. }
  unfold sign_payload in Hx. destruct (transport_encryption_key st) as [box|] eqn:Eb.
  - destruct (encrypt_frame box f) as [b|] eqn:Ef; [|done]. destruct (to_text _) as [m|] eqn:Em; [|done]. injection Hx as <-.
    cbn [decode_sync_frame]. unfold verify_claims, verify_payload. cbn [claim_alias sp_signature sp_payload]. rewrite Hr, bool_decide_eq_true_2 by done.
    cbn [negb]. rewrite Hk, Hpk, Em, Hs, Hkey, (frame_decrypts _ _ _ Ef), Ha by done. done.
  - destruct (to_text _) as [m|] eqn:Em; [|done]. injection Hx as <-.
    cbn [decode_sync_frame]. unfold verify_claims, verify_payload. cbn [claim_alias sp_signature sp_payload]. rewrite Hr, bool_decide_eq_true_2 by done.
    cbn [negb]. rewrite Hk, Hpk, Em, Hs, Ha by done. done.
Qed.

Lemma snapshot_roundtrip st st' s x :
  encode_snapshot s st = Ok x → snapshot_encryption_key st' = snapshot_encryption_key st → decode_snapshot x st' = Ok s.
Proof.
  unfold encode_snapshot. intros Hx Hk. destruct (snapshot_encryption_key st) as [k|]; [|by injection Hx as <-].
  destruct (encrypt_snapshot k s) as [b|] eqn:E; [|done]. injection Hx as <-. cbn. rewrite Hk. by apply snapshot_decrypts.
Qed.

Lemma envelope_roundtrip j t : encode_sea_envelope (envelope_of j) = Ok t → ∃ e, parse_sea_envelope t = Some e ∧ signed_part e = j.
Proof.
  unfold encode_sea_envelope. destruct (json_text (envelope_of j)) as [u|] eqn:E; [|done]. intros [= <-]. exists (envelope_of j). split; [|done].
  unfold parse_sea_envelope. assert (strip_prefix SEA_PREFIX (SEA_PREFIX +:+ u) = Some u) as -> by (by apply strip_prefix_Some).
  simpl. by apply text_parses.
Qed.

Lemma sign_genuine `{Serial T} k (p : T) s : sign_payload k p = Ok s → genuine s ∧ sp_payload s = p ∧ sp_signer s = public_text k.
Proof.
  unfold sign_payload, genuine. destruct (to_text p) as [m|] eqn:Em; [|done]. intros [= <-]. cbn [sp_signer sp_payload sp_signature].
  destruct (own_signature k) as (pk & Hpk & Hs). split; [|done]. exists pk, m. auto.
Qed.

Lemma signed_value_decodes path v cert u st x :
  local_user st = Some u → sign_data_value path v cert st = Ok x →
  ∃ s, decode_signed_value x = Ok (Some s) ∧ verify s = Ok (mkValueClaims path v cert) ∧ sp_signer s = public_text (local_identity u).
Proof.
  intros Hu. unfold sign_data_value. rewrite Hu. destruct (sign_payload _ _) as [s|] eqn:Es; [|done].
  destruct (value_to_json s) as [j|] eqn:Ej; [|done]. destruct (encode_sea_envelope _) as [t|] eqn:Et; [|done]. intros [= <-].
  destruct (envelope_roundtrip j t Et) as (e & He & Hp). destruct (sign_genuine _ _ _ Es) as (Hg & Hpay & Hk). exists s. split.
  - unfold decode_signed_value. rewrite He, Hp, (value_parses _ _ Ej). done.
  - split; [|done]. apply verify_exact_payload. done.
Qed.

Lemma certify_certifies certs policy expires block st u cert writer path :
  local_user st = Some u → certify_write certs policy expires block st = Ok cert →
  (∀ t, expires = Some t → (auth_now ≤ t)%Z) → certs = [] ∨ "*" ∈ certs ∨ writer ∈ certs →
  matches_certificate_path path policy = true → (∀ p, block = Some p → matches_certificate_path path p = false) →
  certified cert (public_text (local_identity u)) writer path.
Proof.
  intros Hu. unfold certify_write. rewrite Hu. destruct (sign_payload _ _) as [s|] eqn:Es; [|done].
  destruct (cert_to_json s) as [j|] eqn:Ej; [|done]. intros Et Hexp Hw Hpol Hblk.
  destruct (envelope_roundtrip j cert Et) as (e & He & Hp). destruct (sign_genuine _ _ _ Es) as (Hg & Hpay & Hk). exists s.
  split; [unfold decode_certificate; rewrite He, Hp; by apply cert_parses|]. split; [done|]. split; [done|]. rewrite Hpay. cbn.
  split; [done|]. split; [|done]. destruct certs as [|c cs]; cbn; [left; by left|]. destruct Hw as [?|Hw]; [done|exact Hw].
Qed.

(** C21: A value written into someone's space with their certificate is read back: when the
owner certified a policy that covers the path, for this writer or everyone, not expired
and not blocked, what the writer signs for the path reads there as the value, and at any
other path, where it may have been copied, as nothing. *)
Theorem delegated_write st st' u u' certs policy expires block cert path v x :
  local_user st = Some u → local_user st' = Some u' → owner_public_key_for_path path = Some (public_text (local_identity u)) →
  certify_write certs policy expires block st = Ok cert → sign_scalar_for_path path v (Some cert) st' = Ok x →
  (∀ t, expires = Some t → (auth_now ≤ t)%Z) → certs = [] ∨ "*" ∈ certs ∨ public_text (local_identity u') ∈ certs →
  matches_certificate_path path policy = true → (∀ p, block = Some p → matches_certificate_path path p = false) →
  verify_data_value path x = Ok (Some v) ∧ ∀ path', path' ≠ path → verify_data_value path' x = Ok None.
Proof.
  intros Hu Hu' Ho Hc Hx Hexp Hw Hpol Hblk. pose proof (certify_certifies _ _ _ _ _ _ _ _ _ Hu Hc Hexp Hw Hpol Hblk) as Hcert.
  unfold sign_scalar_for_path, local_public_key in Hx. rewrite Ho, Hu' in Hx. cbn [fmap option_fmap option_map] in Hx.
  rewrite (bool_decide_eq_false_2 (Some cert = None)), andb_false_r in Hx by done.
  destruct (signed_value_decodes _ _ _ _ _ _ Hu' Hx) as (s & Hd & Hv & Hk). unfold verify_data_value. rewrite Hd, Hv. cbn [vc_path vc_value vc_cert]. split.
  - rewrite bool_decide_eq_true_2 by done. cbn [negb]. rewrite Ho. case_bool_decide; [done|]. rewrite Hk.
    apply validate_exact in Hcert. by rewrite Hcert.
  - intros path' Hne. by rewrite bool_decide_eq_false_2.
Qed.

(** The owner needs no certificate. *)
Lemma owner_write st u path v cert x :
  local_user st = Some u → owner_public_key_for_path path = Some (public_text (local_identity u)) →
  sign_scalar_for_path path v cert st = Ok x →
  verify_data_value path x = Ok (Some v) ∧ ∀ path', path' ≠ path → verify_data_value path' x = Ok None.
Proof.
  intros Hu Ho Hx. unfold sign_scalar_for_path, local_public_key in Hx. rewrite Ho, Hu in Hx. cbn [fmap option_fmap option_map] in Hx.
  rewrite bool_decide_eq_true_2 in Hx by done. cbn [negb andb] in Hx.
  destruct (signed_value_decodes _ _ _ _ _ _ Hu Hx) as (s & Hd & Hv & Hk). unfold verify_data_value. rewrite Hd, Hv. cbn [vc_path vc_value vc_cert]. split.
  - rewrite bool_decide_eq_true_2 by done. cbn [negb]. rewrite Ho, bool_decide_eq_true_2; done.
  - intros path' Hne. by rewrite bool_decide_eq_false_2.
Qed.
End roundtrips.

(** * Concrete users *)

Module Users.
Definition num (n : Z) : json := JNumber (PosInt n).

(** Keys are their own texts, and a signature names its key and what it signs. *)
Definition cert_json (s : SignedPayload DataCertificate) : result json :=
  if bool_decide (cert_expires (sp_payload s) = None ∧ write_block (sp_payload s) = None)
  then Ok (JArray [JString (sp_signer s); JString (sp_signature s); JArray (JString <$> certificants (sp_payload s));
                   write_policy (sp_payload s); num (cert_iat (sp_payload s))])
  else Err (Message "not supported").

Definition json_cert (j : json) : result (SignedPayload DataCertificate) :=
  match j with
  | JArray [JString k; JString g; JArray l; p; JNumber (PosInt n)] =>
      match mapM as_str l with Some l => Ok (mkSigned k g (mkCertificate l p None None n)) | None => Err (Message "not a certificate") end
  | _ => Err (Message "not a certificate")
  end.

Definition value_json (s : SignedPayload SignedValueClaims) : result json :=
  Ok (JArray [JString (sp_signer s); JString (sp_signature s); JString (vc_path (sp_payload s)); vc_value (sp_payload s);
              match vc_cert (sp_payload s) with Some c => JString c | None => JNull end]).

Definition json_value (j : json) : result (SignedPayload SignedValueClaims) :=
  match j with
  | JArray [JString k; JString g; JString p; v; c] => Ok (mkSigned k g (mkValueClaims p v (as_str c)))
  | _ => Err (Message "not a signed value")
  end.

Definition envelopes : list (json * string) :=
  [(envelope_of (JArray [JString "alice"; JString "alice:cert"; JArray [JString "bob"]; JString "notes/*"; num 1000]), "cert");
   (envelope_of (JArray [JString "bob"; JString "bob:~alice/notes/today/text"; JString "~alice/notes/today/text"; JString "hello"; JString "SEAcert"]), "value")].

#[export] Instance plain_keys : Crypto := {|
  SignKey := string; PublicKey := string; BoxKey := string; Box := string * (SyncFrame + DatabaseSnapshot);
  public_text := λ k, k; parse_key := λ k, Ok k;
  sign_bytes := λ k m, k +:+ ":" +:+ m;
  check_bytes := λ k m g, if decide (g = k +:+ ":" +:+ m) then Ok tt else Err (crypto_error "bad signature");
  encrypt_frame := λ k f, Ok (k, inl f);
  decrypt_frame := λ k b, match b with (k', inl f) => if decide (k = k') then Ok f else Err (crypto_error "wrong key") | _ => Err (crypto_error "wrong type") end;
  encrypt_snapshot := λ k s, Ok (k, inr s);
  decrypt_snapshot := λ k b, match b with (k', inr s) => if decide (k = k') then Ok s else Err (crypto_error "wrong key") | _ => Err (crypto_error "wrong type") end;
  json_text := λ j, match List.find (λ p, bool_decide (p.1 = j)) envelopes with Some p => Ok p.2 | None => Err (Message "not supported") end;
  text_json := λ t, fst <$> List.find (λ p, bool_decide (p.2 = t)) envelopes;
  value_to_json := value_json; json_to_value := json_value; cert_to_json := cert_json; json_to_cert := json_cert;
  claims_frame_serial := λ p, Ok (claim_alias p.1); claims_box_serial := λ p, Ok (claim_alias p.1);
  value_serial := λ c, Ok (vc_path c); cert_serial := λ _, Ok "cert";
  shown_roots := λ l, Prelude.join "," l; auth_now := 1000 |}.

Lemma strings_back l : mapM as_str (JString <$> l) = Some l.
Proof. induction l as [|x l IH]; [done|]. rewrite fmap_cons. cbn [mapM]. cbn. by rewrite IH. Qed.

#[export] Instance plain_keys_laws : CryptoLaws.
Proof.
  split.
  - intros k. exists k. split; [done|]. intros m. cbn. by rewrite decide_True.
  - intros k f b [= <-]. cbn. by rewrite decide_True.
  - intros k s b [= <-]. cbn. by rewrite decide_True.
  - intros j t. cbn [json_text text_json plain_keys]. unfold envelopes. cbn [List.find fst].
    case_bool_decide as E1; [intros [= <-]; by subst|]. case_bool_decide as E2; [intros [= <-]; by subst|done].
  - intros [k g [p v c]] j [= <-]. cbn. by destruct c.
  - intros [k g [l p e b n]] j. cbn [cert_to_json json_to_cert plain_keys]. unfold cert_json. cbn [sp_payload cert_expires write_block].
    case_bool_decide as E; [|done]. destruct E as [-> ->]. intros [= <-]. cbn [json_cert]. unfold json_cert. cbn [sp_signer sp_signature certificants write_policy cert_iat num].
    by rewrite strings_back.
Qed.

Definition alice : SecurityState := mkSecurity false ∅ (Some (@mkLocal plain_keys "alice" "alice" [])) None None.
Definition bob : SecurityState :=
  mkSecurity true {[ "bob" := mkUser "bob" "bob" [mkGrant "tasks" true true] ∅ ]} (Some (@mkLocal plain_keys "bob" "bob" [])) (Some ("k" : @BoxKey plain_keys)) None.

Definition edit (n : string) : Operation := mkOp "o1" "r1" (mkRevision 1 1 "r1") (SetField n "done" (OScalar (JBool true))).

Lemma secure_frame_roundtrip_witness :
  let f := FSync "r1" "m1" [edit "tasks/7"] in
  ∃ x, secure_sync_frame "r1" f bob = Ok x ∧ decode_sync_frame x (clear_local_user bob) = Ok f.
Proof.
  cbn zeta. eexists. split; [vm_compute; reflexivity|].
  apply (secure_frame_roundtrip bob (clear_local_user bob) "r1" (FSync "r1" "m1" [edit "tasks/7"])).
  - vm_compute. reflexivity.
  - vm_compute. discriminate.
  - intros u [= <-]. exists (mkUser "bob" "bob" [mkGrant "tasks" true true] ∅). split; [vm_compute; reflexivity|]. split; [reflexivity|].
    intros op Hop. apply list_elem_of_singleton in Hop as ->. exists (mkGrant "tasks" true true). split; [by left|]. split; [reflexivity|]. right. vm_compute. reflexivity.
  - reflexivity.
Defined.

Lemma delegated_write_witness :
  certify_write ["bob"] (JString "notes/*") None None alice = Ok "SEAcert" ∧
  verify_data_value "~alice/notes/today/text" (JString "SEAvalue") = Ok (Some (JString "hello")).
Proof.
  split; [vm_compute; reflexivity|].
  apply (delegated_write alice bob (@mkLocal plain_keys "alice" "alice" []) (@mkLocal plain_keys "bob" "bob" []) ["bob"] (JString "notes/*") None None "SEAcert"
    "~alice/notes/today/text" (JString "hello") (JString "SEAvalue")).
  - reflexivity.
  - reflexivity.
  - vm_compute. reflexivity.
  - vm_compute. reflexivity.
  - vm_compute. reflexivity.
  - discriminate.
  - right. right. by left.
  - vm_compute. reflexivity.
  - discriminate.
Defined.

(** A value without a signature is read as it is, in a space that has an owner too. *)
Lemma unsigned_value_read :
  owner_public_key_for_path "~alice/name" = Some "alice" ∧
  verify_data_value "~alice/name" (JString "mallory was here") = Ok (Some (JString "mallory was here")).
Proof. vm_compute. done. Qed.

(** The root of a node in a user's space is the empty string: a grant for the space does
not allow its nodes, and a grant for the empty root allows every user's. *)
Lemma owned_root_empty :
  root_for_node "~alice/name" = "" ∧ root_for_node "~bob/name" = "" ∧
  can_write_roots (mkUser "alice" "alice" [mkGrant "~alice" true true] ∅) [root_for_node "~alice/name"] = false ∧
  can_write_roots (mkUser "alice" "alice" [mkGrant "" true true] ∅) [root_for_node "~bob/name"] = true.
Proof. vm_compute. done. Qed.

(** The time and the replica a frame claims are not looked at: an old frame is accepted
again, whoever its operations name as their author. *)
Lemma old_frame_accepted :
  decode_sync_frame (SecureAuthenticated (mkClaims "bob" "r9" ["tasks"] 0) "bob" "bob:bob" (FSync "r1" "m1" [edit "tasks/7"])) bob =
  Ok (FSync "r1" "m1" [edit "tasks/7"]).
Proof. vm_compute. done. Qed.
End Users.
