(* ===== verification/Persist.v ===== *)
(** The database on its segment store (the storage side of [src/src/db.rs]): what is
written after a change, what attaching a store reads back, vacuum and export, and
that what memory holds is what a reopened store gives. *)
From stdpp Require Import base gmap sets list strings sorting.
From Stdlib Require Import ZArith Lia.
From S2P Require Import Prelude Clock Value Crdt Merge OpQueue RelIndex Paths Records Keys Engine Segment Cells Recovery Vacuum Input Inner Read View Query Traversal InnerWf Tx Db.

(** A database whose only durable backend is a segment store on a disk. *)
Record Attached := mkAttached {
  inner : Inner;
  next_storage_tx_id : Z;
  disk : Disk
}.

(** * Operations *)

Definition storage_metadata_from_inner (i : Inner) (next : Z) : StorageMetadata :=
  let m := build_storage_metadata (clock i) (operations (pending_ops i)) next in
  mkMetadata (schema_version m) (meta_clock m) (meta_pending_ops m) (next_tx_id m)
    (last_materialized_tx_id m) (scope_policies i).

Section persist.
Context `{StoreEnv, SegmentEnv} (store : SegmentFileStore).

(** The transaction [persist_if_needed] builds under the lock. *)
Definition storage_transaction (s : Attached) : StorageTransaction :=
  let i := inner s in
  let tx := next_storage_tx_id s in
  let metadata := storage_metadata_from_inner i (sat_add u64_max tx 1) in
  if bool_decide (operations (unflushed_ops i) = []) then build_storage_transaction tx metadata (nodes i)
  else build_storage_transaction_from_ops tx metadata (nodes i) (operations (unflushed_ops i)).

Definition mark_storage_transaction_flushed (t : StorageTransaction) (s : Attached) : Attached :=
  let i := mark_durable_operations_flushed (tx_journal_ops t) (inner s) in
  mkAttached (set_overlay (clear_flushed_record_overlay (nodes i) (overlay i) (tx_nodes t)) i)
    (Z.max (next_storage_tx_id s) (sat_add u64_max (tx_id t) 1)) (disk s).

Definition persist_if_needed (s : Attached) : Attached * result unit :=
  let t := storage_transaction s in
  let r := apply_transaction store t (disk s) in
  let s := mkAttached (inner s) (next_storage_tx_id s) r.1 in
  match r.2 with
  | Ok _ => (mark_storage_transaction_flushed t s, Ok tt)
  | Err e => (s, Err e)
  end.

(** [Primadb::attach_incremental_store]: the state once the metadata is read, and
then the write-back; whether the store held anything. *)
Definition loaded (metadata : option StorageMetadata) (s : Attached) : Attached :=
  mkAttached (attach_incremental_store metadata (inner s))
    (match metadata with Some m => Z.max (next_tx_id m) 1 | None => 1%Z end) (disk s).

Definition attach_store (s : Attached) : Attached * result bool :=
  let r := load_metadata store (disk s) in
  let s := mkAttached (inner s) (next_storage_tx_id s) r.1 in
  match r.2 with
  | Err e => (s, Err e)
  | Ok metadata =>
      match persist_if_needed (loaded metadata s) with
      | (s, Ok _) => (s, Ok (match metadata with Some _ => true | None => false end))
      | (s, Err e) => (s, Err e)
      end
  end.

(** [Primadb::vacuum_storage], the storage part. *)
Definition vacuum_storage (s : Attached) : Attached * result StorageVacuumReport :=
  let i := inner s in
  let metadata := storage_metadata_from_inner i (next_storage_tx_id s + 1) in
  let r := vacuum store (build_storage_transaction (next_storage_tx_id s) metadata (nodes i)) (disk s) in
  (mkAttached i (next_storage_tx_id s) r.1, r.2).

(** The loop of [SegmentFileStore::export_snapshot] over the files of [nodes]. *)
Fixpoint export_nodes (root : option string) (entries : list (string * content))
    (acc : gmap string NodeState) : result (gmap string NodeState) :=
  match entries with
  | [] => Ok acc
  | (name, c) :: rest =>
      match decode_component (file_stem name) with
      | Err e => Err e
      | Ok n =>
          if match root with Some root => negb (node_matches_root n root) | None => false end
          then export_nodes root rest acc
          else match c with
               | FileNode st => export_nodes root rest (<[n := st]> acc)
               | _ => Err serde_error
               end
      end
  end.

Definition operation_matches_root (op : Operation) (root : string) : bool :=
  node_matches_root (operation_source_node op) root.

Definition export_snapshot (root : option string) : D DatabaseSnapshot :=
  metadata ← load_metadata store;
  match metadata with
  | None => dfail (Message "storage manifest is missing")
  | Some m =>
      entries ← look (dir_files "nodes");
      nodes ← dlift (export_nodes root entries ∅);
      mret (mkSnapshot (meta_clock m) nodes
        (match root with
         | Some root => filter (λ op, operation_matches_root op root = true) (meta_pending_ops m)
         | None => meta_pending_ops m
         end)
        (meta_scope_policies m))
  end.

(** The store as the engine the database reads its nodes from; its keyed records
are left to the caller. *)
Definition segment_engine (records : record_source) (ids : gset string) (d : Disk) : StorageEngine :=
  mkEngine (λ n, (segment_get_node n d).2) records ids.
End persist.

(** * Memory and the commits on record *)

(** What reading a stored node into a fresh entry makes of it. *)
Definition settle (st : NodeState) : NodeState := merge_into (node_new (id st)) st.

Lemma node_ext a b : id a = id b → (∀ f, node_slot a f = node_slot b f) → a = b.
Proof.
  destruct a as [i1 f1 t1], b as [i2 f2 t2]. simpl. intros -> Hs.
  f_equal; apply map_eq; intros f; specialize (Hs f); unfold node_slot in Hs; by simplify_eq/=.
Qed.

Lemma settle_id st : id (settle st) = id st.
Proof. unfold settle. by rewrite merge_into_id. Qed.

Lemma settle_idem st : settle (settle st) = settle st.
Proof.
  apply node_ext; [by rewrite !settle_id|]. intros f. unfold settle. rewrite !merge_into_slot. unfold node_slot, node_new. simpl.
  rewrite !lookup_empty. unfold merge_slot, slot_blocked. simpl.
  destruct (fields st !! f) as [fs|], (tombstones st !! f) as [t|]; simpl; try done.
  all: repeat (case_match; simpl in *; simplify_eq/=); done.
Qed.

Lemma settle_empty st : node_state_is_empty st = true → settle st = node_new (id st).
Proof. intros He. by apply merge_empty_id. Qed.

Definition touched (i : Inner) : gset string := touched_nodes (operations (unflushed_ops i)).

Lemma touched_push q op : queue_wf q →
  touched_nodes (operations (push q op)) = {[operation_source_node op]} ∪ touched_nodes (operations q).
Proof.
  intros Hq. rewrite push_operations by done. unfold touched_nodes. apply set_eq. intros n.
  rewrite elem_of_union, elem_of_singleton, !elem_of_list_to_set. clear Hq.
  assert (∀ a b, from_operation a = from_operation b → operation_source_node a = operation_source_node b) as Hk.
  { intros a b. unfold from_operation, operation_source_node. destruct (action a), (action b); by intros [=]. }
  induction (operations q) as [|e ops IH]; simpl; [by rewrite list_elem_of_singleton; set_solver|].
  case_decide as E; rewrite !fmap_cons, !elem_of_cons.
  - apply Hk in E. destruct (leb _ _); rewrite ?E; tauto.
  - rewrite IH. tauto.
Qed.

(** Memory [i] over the commits [log]: a node that no unflushed operation touches
is on record, unless it is an entry that was only created. *)
Record mirrors (i : Inner) (log : list SegmentCommitPayload) : Prop := {
  mir_queue : queue_wf (unflushed_ops i);
  mir_wf : graph_wf (nodes i);
  mir_stored : ∀ n st, committed_node log n = Some st → id st = n;
  mir_nodes : ∀ n st, nodes i !! n = Some st → n ∉ touched i →
    node_state_is_empty st = true ∨ ∃ st0, committed_node log n = Some st0 ∧ settle st0 = settle st
}.

(** ** Operations in memory *)

Lemma journal_node_unflushed n i : unflushed_ops (journal_node n i) = unflushed_ops i.
Proof. unfold journal_node. destruct (transaction_journal i); [case_decide|]; done. Qed.

Lemma journal_missing_unflushed n i : unflushed_ops (journal_missing_node n i) = unflushed_ops i.
Proof. unfold journal_missing_node. destruct (transaction_journal i); [case_decide|]; done. Qed.

Lemma request_reindex_unflushed n i : unflushed_ops (request_reindex_node_relationships n i) = unflushed_ops i.
Proof.
  unfold request_reindex_node_relationships, reindex_node_relationships.
  destruct (transaction_journal i); [done|apply journal_node_unflushed].
Qed.

Lemma journal_queue_same q op i :
  unflushed_ops (journal_operation_queue q op i) = unflushed_ops i ∧ nodes (journal_operation_queue q op i) = nodes i.
Proof. unfold journal_operation_queue. by destruct (transaction_journal i), q. Qed.

Lemma apply_operation_effect op origin i :
  let r := apply_operation_internal op origin i in
  (nodes r.1 = nodes i ∧ unflushed_ops r.1 = unflushed_ops i) ∨
  (nodes r.1 = (apply_action op (nodes i)).1 ∧
   unflushed_ops r.1 = if (apply_action op (nodes i)).2 then push (unflushed_ops i) op else unflushed_ops i).
Proof.
  unfold apply_operation_internal. destruct (_ && _); [by left|]. destruct (_ && _); [by left|]. right. cbv zeta.
  rewrite journal_node_nodes. cbn [nodes set_clock]. destruct (apply_action op (nodes i)) as [g [|]]; simpl.
  - destruct (bool_decide _); simpl; rewrite ?(proj1 (journal_queue_same _ _ _)), ?(proj2 (journal_queue_same _ _ _)); simpl;
      rewrite ?(proj1 (journal_queue_same _ _ _)), ?(proj2 (journal_queue_same _ _ _)); simpl;
      rewrite request_reindex_nodes, request_reindex_unflushed; simpl; by rewrite journal_node_unflushed.
  - by rewrite journal_node_unflushed.
Qed.

Lemma mirrors_operation op origin i log : mirrors i log → mirrors (apply_operation_internal op origin i).1 log.
Proof.
  intros [Hq Hw Hs Hn]. destruct (apply_operation_effect op origin i) as [[En Eu]|[En Eu]].
  { split; unfold touched; rewrite ?En, ?Eu; done. }
  split; rewrite ?En, ?Eu; [destruct (_.2); [by apply push_wf|done]|by apply apply_action_wf|done|].
  intros n st. destruct (decide (n = operation_source_node op)) as [->|Hne].
  - destruct (apply_action op (nodes i)).2 eqn:Ea.
    + intros _ Ht. exfalso. apply Ht. unfold touched. rewrite Eu, touched_push by done. set_solver.
    + rewrite apply_action_rejected by done. rewrite lookup_insert_eq. intros [= <-]. unfold touched. rewrite Eu. intros Ht.
      unfold node_entry. destruct (nodes i !! operation_source_node op) as [st|] eqn:E; [by apply Hn|by left].
  - rewrite apply_action_other by done. intros Hst Ht. apply Hn; [done|]. intros Hin. apply Ht. unfold touched in *.
    rewrite Eu. destruct (_.2); [rewrite touched_push by done; set_solver|done].
Qed.

Lemma mirrors_ensure n i log : mirrors i log → mirrors (ensure_node n i) log.
Proof.
  intros [Hq Hw Hs Hn].
  assert (nodes (ensure_node n i) = <[n := node_entry n (nodes i)]> (nodes i)) as En.
  { unfold ensure_node. cbn [nodes set_nodes set_missing_nodes]. by rewrite journal_missing_nodes, journal_node_nodes. }
  assert (unflushed_ops (ensure_node n i) = unflushed_ops i) as Eu.
  { unfold ensure_node. cbn [unflushed_ops set_nodes set_missing_nodes].
    by rewrite journal_missing_unflushed, journal_node_unflushed. }
  split; unfold touched; rewrite ?En, ?Eu; [done|by apply entry_wf|done|].
  intros m st. destruct (decide (m = n)) as [->|]; [|rewrite lookup_insert_ne by congruence; apply Hn].
  rewrite lookup_insert_eq. intros [= <-] Ht. unfold node_entry.
  destruct (nodes i !! n) as [st|] eqn:E; [by apply Hn|by left].
Qed.

Lemma maybe_load_unflushed `{Env} n i : unflushed_ops (maybe_load_node n i).1 = unflushed_ops i.
Proof.
  unfold maybe_load_node. cbv zeta. destruct (match nodes i !! n with Some _ => _ | None => _ end); [done|].
  case_bool_decide; [done|]. destruct storage_engine as [e|]; [|done].
  destruct (get_node e n) as [[st|]|]; [| |done]; simpl.
  - rewrite request_reindex_unflushed. cbn [unflushed_ops set_missing_nodes].
    rewrite journal_missing_unflushed. cbn [unflushed_ops set_nodes]. apply journal_node_unflushed.
  - case_decide; [done|]. apply journal_missing_unflushed.
Qed.

(** An entry that a load replaces is empty. *)
Lemma maybe_load_replaces `{Env} n i e : storage_engine = Some e →
  nodes (maybe_load_node n i).1 = nodes i ∨ node_state_is_empty (node_entry n (nodes i)) = true.
Proof.
  intros He. unfold maybe_load_node, node_entry. rewrite He. cbv zeta. destruct (nodes i !! n) as [st|]; [|by right].
  cbn [default from_option Datatypes.id]. destruct (node_state_is_empty st); [by right|by left].
Qed.

Lemma mirrors_load `{Laws : EnvLaws} n i e log :
  storage_engine = Some e → (∀ m, get_node e m = Ok (committed_node log m)) →
  mirrors i log → mirrors (maybe_load_node n i).1 log.
Proof.
  intros He Hg [Hq Hw Hs Hn]. split; [by rewrite maybe_load_unflushed| |done|].
  { destruct (maybe_load_effect n i) as [En _|e' st He' Hg' En _ _|_ En _ _]; rewrite En; [done| |done].
    intros m st'. rewrite lookup_insert. case_decide as E; [|apply Hw]. subst m. intros [= <-]. rewrite merge_into_id.
    unfold node_entry. destruct (nodes i !! n) eqn:E; [by apply Hw|done]. }
  unfold touched. rewrite maybe_load_unflushed. fold (touched i).
  destruct (maybe_load_replaces n i e He) as [En|Hempty]; [by rewrite En|].
  destruct (maybe_load_effect n i) as [En _|e' st He' Hg' En _ _|_ En _ _]; rewrite En; [done| |done].
  intros m st'. rewrite lookup_insert. case_decide as E; [|apply Hn]. subst m. intros [= <-] Ht. right. exists st.
  rewrite He in He'. injection He' as <-. rewrite Hg in Hg'. injection Hg' as Hst. split; [done|].
  assert (node_entry n (nodes i) = node_new (id st)) as ->; [|symmetry; apply settle_idem].
  rewrite (Hs n st Hst). unfold node_entry in *. destruct (nodes i !! n) as [[i0 f0 t0]|] eqn:E; [|done].
  simpl in *. unfold node_state_is_empty in Hempty. simpl in Hempty. apply andb_true_iff in Hempty as [H1 H2].
  apply bool_decide_eq_true in H1, H2. subst. apply Hw in E. simpl in E. by subst.
Qed.

(** ** Writing back *)

Section flush.
Context `{StoreEnv, SegmentEnv}.

Lemma build_kept i m g :
  let t := build_storage_transaction i m g in
  tx_id t = i ∧ tx_metadata t = m ∧ tx_nodes t = g ∧ tx_journal_ops t = [].
Proof.
  unfold build_storage_transaction. generalize (btree_list g) as l. intros l. cbv zeta.
  assert (∀ l acc, let t := (foldl (build_step g) acc l).1 in
    tx_id t = tx_id acc.1 ∧ tx_metadata t = tx_metadata acc.1 ∧ tx_nodes t = tx_nodes acc.1 ∧
    tx_journal_ops t = tx_journal_ops acc.1) as Hl.
  { clear. induction l as [|[n st] l IH]; intros [t cache]; [done|]. cbn [foldl]. cbv zeta in IH |- *.
    destruct (IH (build_step g (t, cache) (n, st))) as (-> & -> & -> & ->). unfold build_step.
    destruct (direct_scalar_indexes n g cache). by destruct (if is_record_node_id n then _ else _). }
  apply (Hl l (mkStorageTx i m g ∅ ∅ ∅ ∅ ∅ [], ∅)).
Qed.

Lemma storage_transaction_spec s :
  let t := storage_transaction s in
  tx_id t = next_storage_tx_id s ∧
  tx_metadata t = storage_metadata_from_inner (inner s) (sat_add u64_max (next_storage_tx_id s) 1) ∧
  tx_journal_ops t = operations (unflushed_ops (inner s)) ∧
  (∀ n st, tx_nodes t !! n = Some st → nodes (inner s) !! n = Some st) ∧
  (∀ n, operations (unflushed_ops (inner s)) = [] ∨ n ∈ touched (inner s) →
     tx_nodes t !! n = nodes (inner s) !! n).
Proof.
  unfold storage_transaction. cbv zeta. case_bool_decide as Hu.
  - destruct (build_kept (next_storage_tx_id s)
      (storage_metadata_from_inner (inner s) (sat_add u64_max (next_storage_tx_id s) 1)) (nodes (inner s)))
      as (-> & -> & -> & ->). by rewrite Hu.
  - unfold build_storage_transaction_from_ops. set (X := touched_storage_nodes _ _). cbn [tx_id tx_metadata tx_nodes tx_journal_ops].
    destruct (build_kept (next_storage_tx_id s)
      (storage_metadata_from_inner (inner s) (sat_add u64_max (next_storage_tx_id s) 1)) (filter (λ p, p.1 ∈ X) (nodes (inner s))))
      as (-> & -> & -> & _). split_and!; [done..| |].
    + intros n st Hst. by apply map_lookup_filter_Some in Hst as [? _].
    + intros n [Hn|Hn]; [done|]. assert (n ∈ X) as HX by (unfold X, touched_storage_nodes; apply elem_of_union; by left).
      apply option_eq. intros st. rewrite map_lookup_filter_Some. simpl. tauto.
Qed.

Lemma committed_snoc log p n :
  committed_node (log ++ [p]) n =
  match tx_nodes (pl_transaction p) !! n with Some st => Some st | None => committed_node log n end.
Proof. unfold committed_node. by rewrite foldl_app. Qed.

Lemma mark_flushed_all ops i :
  ops = operations (unflushed_ops i) → queue_wf (unflushed_ops i) →
  nodes (mark_durable_operations_flushed ops i) = nodes i ∧
  clock (mark_durable_operations_flushed ops i) = clock i ∧
  pending_ops (mark_durable_operations_flushed ops i) = pending_ops i ∧
  scope_policies (mark_durable_operations_flushed ops i) = scope_policies i ∧
  queue_wf (unflushed_ops (mark_durable_operations_flushed ops i)) ∧
  operations (unflushed_ops (mark_durable_operations_flushed ops i)) = [].
Proof.
  intros -> Hq. unfold mark_durable_operations_flushed. case_bool_decide as E; [done|].
  rewrite (proj2 (Nat.ltb_ge (queue_len _) (length _))) by done.
  rewrite bool_decide_eq_true_2 by (by apply take_ge). simpl. split_and!; [done..|by apply drain_prefix_wf|].
  by rewrite drop_all.
Qed.

(** A database that is about to be attached. *)
Definition ready (i : Inner) : Prop :=
  graph_wf (nodes i) ∧ queue_wf (unflushed_ops i) ∧ operations (unflushed_ops i) = [].

Definition stored_under (log : list SegmentCommitPayload) : Prop :=
  ∀ n st, committed_node log n = Some st → id st = n.

Lemma mirrors_flush s log p :
  mirrors (inner s) log ∨ ready (inner s) ∧ stored_under log → pl_transaction p = storage_transaction s →
  let s' := mark_storage_transaction_flushed (storage_transaction s) s in
  mirrors (inner s') (log ++ [p]) ∧ operations (unflushed_ops (inner s')) = [] ∧ nodes (inner s') = nodes (inner s) ∧
  clock (inner s') = clock (inner s) ∧ pending_ops (inner s') = pending_ops (inner s) ∧
  scope_policies (inner s') = scope_policies (inner s).
Proof.
  intros Hm Hp. destruct (storage_transaction_spec s) as (_ & _ & Hj & Hsub & Htouch).
  assert (queue_wf (unflushed_ops (inner s)) ∧ graph_wf (nodes (inner s)) ∧ stored_under log) as (Hq & Hw & Hs)
    by (destruct Hm as [[]|[(? & ? & ?) ?]]; done).
  destruct (mark_flushed_all _ _ Hj Hq) as (Em & Ec & Ep & Esp & Hq' & Hu).
  cbv zeta. unfold mark_storage_transaction_flushed. cbn [inner set_overlay nodes unflushed_ops clock pending_ops scope_policies]. split_and!; [|done..].
  split; cbn [set_overlay nodes unflushed_ops]; [done|by rewrite Em| |].
  - intros n st. rewrite committed_snoc, Hp. destruct (tx_nodes _ !! n) as [st'|] eqn:E; [|apply Hs].
    intros [= <-]. by apply Hw, Hsub.
  - rewrite Em. intros n st Hst _. rewrite committed_snoc, Hp.
    destruct (tx_nodes (storage_transaction s) !! n) as [st'|] eqn:E.
    + right. exists st'. split; [done|]. apply Hsub in E. congruence.
    + destruct Hm as [Hm|[(_ & _ & Hempty) _]]; [|rewrite Htouch in E by (by left); congruence].
      apply (mir_nodes _ _ Hm); [done|]. intros Ht. rewrite Htouch in E by (by right). congruence.
Qed.
End flush.

(** * The life of a store *)

Section lifetime.
Context `{StoreEnv, SegmentEnv} (store : SegmentFileStore) (Hfull : durability store = Full).

(** A process has the store open, or none has. *)
Inductive phase := Running (s : Attached) | Down (d : Disk).

(** The runs of a database and the commits on record.  A process changes its memory,
loads nodes and writes back; it may stop at any point, a write-back that the disk
fails in included, and leave any disk with those commits on record; another one may
then open the store. *)
Inductive lifetime : phase → list SegmentCommitPayload → Prop :=
  | life_new n f : lifetime (Down (mkDisk ∅ n f)) []
  | life_stop s log d : lifetime (Running s) log → history store d log → lifetime (Down d) log
  | life_down d log d' : lifetime (Down d) log → history store d' log → lifetime (Down d') log
  | life_open s log m p :
      lifetime (Down (disk s)) log → ready (inner s) →
      (load_metadata store (disk s)).2 = Ok m →
      let s0 := loaded m (mkAttached (inner s) (next_storage_tx_id s) (load_metadata store (disk s)).1) in
      (next_storage_tx_id s0 < u64_max)%Z →
      build_commit_payload (storage_transaction s0) (disk s0) = (disk s0, Ok p) →
      is_ok (attach_store store s).2 = true →
      lifetime (Running (attach_store store s).1) (log ++ [p])
  | life_operation s log op origin :
      lifetime (Running s) log →
      lifetime (Running (mkAttached (apply_operation_internal op origin (inner s)).1 (next_storage_tx_id s) (disk s))) log
  | life_ensure s log n :
      lifetime (Running s) log →
      lifetime (Running (mkAttached (ensure_node n (inner s)) (next_storage_tx_id s) (disk s))) log
  | life_load s log (E : Env) (L : EnvLaws) e n :
      lifetime (Running s) log → storage_engine = Some e →
      (∀ m, get_node e m = (segment_get_node m (disk s)).2) →
      lifetime (Running (mkAttached (maybe_load_node n (inner s)).1 (next_storage_tx_id s) (disk s))) log
  | life_persist s log p :
      lifetime (Running s) log → (next_storage_tx_id s < u64_max)%Z →
      build_commit_payload (storage_transaction s) (disk s) = (disk s, Ok p) →
      is_ok (persist_if_needed store s).2 = true →
      lifetime (Running (persist_if_needed store s).1) (log ++ [p])
  | life_fail s log p :
      lifetime (Running s) log → (next_storage_tx_id s < u64_max)%Z →
      build_commit_payload (storage_transaction s) (disk s) = (disk s, Ok p) →
      is_ok (persist_if_needed store s).2 = false →
      let d := disk (persist_if_needed store s).1 in
      lifetime (Down d) (log_after log p (files d)).

Definition numbered (next : Z) (log : list SegmentCommitPayload) : Prop :=
  Forall (λ q, payload_id q < next)%Z log ∧ (1 ≤ next)%Z.

(** The metadata on record covers the commits on record. *)
Definition described (log : list SegmentCommitPayload) : Prop :=
  stored_under log ∧
  ∀ m, committed_metadata log = Some m →
    schema_version m = STORAGE_SCHEMA_VERSION ∧ numbered (next_tx_id m) log.

Definition phase_inv (x : phase) (log : list SegmentCommitPayload) : Prop :=
  described log ∧
  match x with
  | Running s => up_to_date store (disk s) log ∧ numbered (next_storage_tx_id s) log ∧ mirrors (inner s) log
  | Down d => history store d log
  end.

Lemma committed_metadata_snoc log p : committed_metadata (log ++ [p]) = Some (tx_metadata (pl_transaction p)).
Proof. unfold committed_metadata. by rewrite last_snoc. Qed.

Lemma newer_transaction s log :
  numbered (next_storage_tx_id s) log → (next_storage_tx_id s < u64_max)%Z → newer log (storage_transaction s).
Proof. intros [Hf Hn] Hm. destruct (storage_transaction_spec s) as (E & _). split; rewrite E; [done|lia]. Qed.

Lemma described_snoc s log p :
  described log → numbered (next_storage_tx_id s) log → (next_storage_tx_id s < u64_max)%Z →
  graph_wf (nodes (inner s)) → pl_transaction p = storage_transaction s → described (log ++ [p]).
Proof.
  intros [Hs _] [Hf Hn] Hm Hw Hp. destruct (storage_transaction_spec s) as (Ei & Em & _ & Hsub & _). split.
  - intros n st. rewrite committed_snoc, Hp. destruct (tx_nodes _ !! n) as [st'|] eqn:E; [|apply Hs].
    intros [= <-]. by apply Hw, Hsub.
  - intros m. rewrite committed_metadata_snoc, Hp, Em. intros [= <-]. simpl. split; [done|].
    unfold sat_add. split; [|lia]. apply Forall_app. split.
    + eapply Forall_impl; [exact Hf|]. simpl. lia.
    + apply Forall_singleton. rewrite Hp, Ei. lia.
Qed.

Lemma persist_outcome s log p :
  up_to_date store (disk s) log → described log → numbered (next_storage_tx_id s) log →
  (next_storage_tx_id s < u64_max)%Z →
  build_commit_payload (storage_transaction s) (disk s) = (disk s, Ok p) →
  mirrors (inner s) log ∨ ready (inner s) ∧ stored_under log →
  let r := persist_if_needed store s in
  (if is_ok r.2 then phase_inv (Running r.1) (log ++ [p])
   else phase_inv (Down (disk r.1)) (log_after log p (files (disk r.1)))) ∧
  (faults (disk s) = None → is_ok r.2 = true ∧ faults (disk r.1) = None) ∧
  (is_ok r.2 = true → operations (unflushed_ops (inner r.1)) = [] ∧ nodes (inner r.1) = nodes (inner s) ∧
     clock (inner r.1) = clock (inner s) ∧ pending_ops (inner r.1) = pending_ops (inner s) ∧
     scope_policies (inner r.1) = scope_policies (inner s)).
Proof using Hfull.
  intros Hup Hd Hnum Hmax Hb Hm. pose proof (newer_transaction s log Hnum Hmax) as Hnew.
  destruct (apply_outcome store Hfull (disk s) log _ p (proj1 Hup) Hnew Hb) as (Hp & Ho & Hfail).
  pose proof (history_apply store (disk s) log _ p (proj1 Hup) Hnew Hb) as Hh.
  assert (described (log ++ [p])) as Hd'.
  { apply (described_snoc s); try done. destruct Hm as [[]|[[] _]]; done. }
  destruct (mirrors_flush s log p Hm Hp) as (Hmir & Hrest).
  destruct (storage_transaction_spec s) as (Ei & _). unfold persist_if_needed. cbv zeta.
  destruct (apply_transaction store (storage_transaction s) (disk s)) as [d1 [[]|e]];
    cbn [fst snd is_ok disk inner next_storage_tx_id] in *; split_and!; try done.
  - destruct Ho as [_ Ho]. split; [done|]. split; [by apply Ho|]. split; [|exact Hmir].
    unfold mark_storage_transaction_flushed. cbn [next_storage_tx_id]. rewrite Ei.
    destruct Hnum as [Hf H1]. unfold sat_add. split; [|lia]. apply Forall_app. split.
    + eapply Forall_impl; [exact Hf|]. simpl. lia.
    + apply Forall_singleton. rewrite Hp, Ei. lia.
  - split; [|exact Hh]. unfold log_after. by case_decide.
Qed.

(** Opening the store: recovery, the metadata, and a first write-back. *)
Lemma load_outcome d log :
  history store d log → described log →
  (∀ m, (load_metadata store d).2 = Ok m →
     m = committed_metadata log ∧ up_to_date store (load_metadata store d).1 log) ∧
  (faults d = None → (load_metadata store d).2 = Ok (committed_metadata log) ∧
     faults (load_metadata store d).1 = None).
Proof using Hfull.
  intros Hh Hd. destruct (recover_up_to_date store Hfull d log Hh) as [Hs Hf]. unfold load_metadata, mbind, D_bind.
  destruct (recover store d) as [d1 [rep|e]]; cbn [fst snd is_ok] in *.
  - specialize (Hs eq_refl). rewrite (up_to_date_metadata store d1 log Hs) by (intros m Hm; by apply Hd). split; [|naive_solver].
    intros m [= <-]. done.
  - split; [done|]. intros Hn. by destruct (Hf Hn).
Qed.

Lemma loaded_ready log m s :
  described log → m = committed_metadata log → ready (inner s) →
  ready (inner (loaded m s)) ∧ numbered (next_storage_tx_id (loaded m s)) log.
Proof.
  intros [_ Hd] -> (Hw & Hq & Hu). destruct (committed_metadata log) as [m|] eqn:E.
  - destruct (Hd m eq_refl) as [_ [Hf H1]]. split; [split_and!; [done|apply queue_default_wf|done]|].
    unfold loaded. cbn [next_storage_tx_id]. rewrite Z.max_l by lia. done.
  - split; [done|]. unfold committed_metadata in E. apply fmap_None in E.
    destruct log as [|q log _] using rev_ind; [|by rewrite last_snoc in E]. split; [constructor|done].
Qed.

Lemma attach_outcome s log m p :
  history store (disk s) log → described log → ready (inner s) → (load_metadata store (disk s)).2 = Ok m →
  let s0 := loaded m (mkAttached (inner s) (next_storage_tx_id s) (load_metadata store (disk s)).1) in
  (next_storage_tx_id s0 < u64_max)%Z →
  build_commit_payload (storage_transaction s0) (disk s0) = (disk s0, Ok p) →
  (is_ok (attach_store store s).2 = true → phase_inv (Running (attach_store store s).1) (log ++ [p])) ∧
  (faults (load_metadata store (disk s)).1 = None →
     (attach_store store s).2 = Ok (bool_decide (is_Some m)) ∧ faults (disk (attach_store store s).1) = None) ∧
  (is_ok (attach_store store s).2 = true → nodes (inner (attach_store store s).1) = nodes (inner s0) ∧
     clock (inner (attach_store store s).1) = clock (inner s0) ∧
     pending_ops (inner (attach_store store s).1) = pending_ops (inner s0) ∧
     scope_policies (inner (attach_store store s).1) = scope_policies (inner s0)).
Proof using Hfull.
  intros Hh Hd Hr Hm s0 Hmax Hb. destruct (load_outcome _ _ Hh Hd) as [Hl _]. destruct (Hl m Hm) as [Em Hup].
  destruct (loaded_ready log m (mkAttached (inner s) (next_storage_tx_id s) (load_metadata store (disk s)).1) Hd Em Hr) as [Hr0 Hnum].
  destruct (persist_outcome s0 log p Hup Hd Hnum Hmax Hb) as (Ho & Hf & Hk); [right; split; [exact Hr0|apply Hd]|].
  assert (attach_store store s = ((persist_if_needed store s0).1,
    match (persist_if_needed store s0).2 with Ok _ => Ok (bool_decide (is_Some m)) | Err e => Err e end)) as ->.
  { unfold attach_store. rewrite Hm. fold s0. destruct (persist_if_needed store s0) as [s1 [[]|e]]; simpl; [|done]. by destruct m. }
  destruct (persist_if_needed store s0) as [s1 [[]|e]]; cbn [fst snd is_ok] in *; split_and!; try done.
  - intros Hn. by destruct (Hf Hn).
  - intros _. naive_solver.
  - intros Hn. by destruct (Hf Hn).
Qed.

Lemma lifetime_holds x log : lifetime x log → phase_inv x log.
Proof using Hfull.
  induction 1 as [n f|s log d _ [Hd _] Hh|d log d' _ [Hd _] Hh|s log m p _ [Hd Hh] Hr Hm s0 Hmax Hb Hok
    |s log op origin _ (Hd & Hu & Hn & Hm)|s log n _ (Hd & Hu & Hn & Hm)|s log E L e n _ (Hd & Hu & Hn & Hm) He Hg
    |s log p _ (Hd & Hu & Hn & Hm) Hmax Hb Hok|s log p _ (Hd & Hu & Hn & Hm) Hmax Hb Hok d].
  - split; [done|]. constructor.
  - done.
  - done.
  - by apply (attach_outcome s log m p).
  - split_and!; [apply Hd..|done|done|]. by apply mirrors_operation.
  - split_and!; [apply Hd..|done|done|]. by apply mirrors_ensure.
  - split_and!; [apply Hd..|done|done|]. apply (mirrors_load n _ e); [done| |done].
    intros m. by rewrite Hg, (up_to_date_node store (disk s) log).
  - destruct (persist_outcome s log p Hu Hd Hn Hmax Hb (or_introl Hm)) as (Ho & _). by rewrite Hok in Ho.
  - destruct (persist_outcome s log p Hu Hd Hn Hmax Hb (or_introl Hm)) as (Ho & _). by rewrite Hok in Ho.
Qed.

(** Opening a store whose disk works, once metadata is on record. *)
Lemma reopen d log m i k :
  history store d log → described log → committed_metadata log = Some m → (next_tx_id m < u64_max)%Z →
  faults d = None → ready i →
  let a := attach_store store (mkAttached i k d) in
  a.2 = Ok true ∧ clock (inner a.1) = meta_clock m ∧
  pending_ops (inner a.1) = from_operations (meta_pending_ops m) ∧ scope_policies (inner a.1) = meta_scope_policies m ∧
  (∀ n, (segment_get_node n (disk a.1)).2 = Ok (committed_node log n)).
Proof using Hfull.
  intros Hh Hd Hm Hmax Hf Hr a. destruct (load_outcome d log Hh Hd) as [Hl Hok]. destruct (Hok Hf) as [Hlm Hlf].
  rewrite Hm in Hlm. destruct (Hl (Some m) Hlm) as [_ Hup]. destruct (proj2 Hd m Hm) as [_ [_ H1]].
  set (s0 := loaded (Some m) (mkAttached i k (load_metadata store d).1)).
  destruct (history_builds store Hfull (disk s0) log (storage_transaction s0) (proj1 Hup)) as [p Hb].
  destruct (attach_outcome (mkAttached i k d) log (Some m) p Hh Hd Hr Hlm) as (Hinv & Hres & Hkeep); [|exact Hb|].
  { simpl. lia. }
  destruct (Hres Hlf) as [Ha _]. fold a in Ha, Hinv, Hkeep. rewrite Ha in Hinv, Hkeep.
  destruct (Hinv eq_refl) as (_ & Hua & _). destruct (Hkeep eq_refl) as (_ & -> & -> & ->). split_and!; try done.
  intros n. rewrite (up_to_date_node store (disk a.1) _ n Hua), committed_snoc. simpl.
  destruct (apply_outcome store Hfull (disk s0) log (storage_transaction s0) p (proj1 Hup)) as (-> & _); [|exact Hb|].
  - apply newer_transaction; [|simpl; lia]. apply (loaded_ready log (Some m) (mkAttached i k (load_metadata store d).1)); done.
  - destruct (storage_transaction_spec s0) as (_ & _ & _ & Hsub & _).
    destruct (tx_nodes (storage_transaction s0) !! n) as [st|] eqn:E; [|done]. apply Hsub in E. done.
Qed.

(** C30: what was written back is what a reopened store gives.  Take a database at any
point of its life whose write-back succeeds, and then any disk that the commits up to
that one can have been left on, by a crash, a failed or finished recovery or a power
failure: opening it succeeds, with the clock, the pending operations and the policies
of that moment; a node that was in memory and not empty is read back as it was, and
every other node as it was stored before. *)
Theorem reopened_as_persisted s log p d i k :
  lifetime (Running s) log → (next_storage_tx_id s + 1 < u64_max)%Z →
  build_commit_payload (storage_transaction s) (disk s) = (disk s, Ok p) →
  is_ok (persist_if_needed store s).2 = true →
  history store d (log ++ [p]) → faults d = None → ready i →
  let a := attach_store store (mkAttached i k d) in
  a.2 = Ok true ∧ clock (inner a.1) = clock (inner s) ∧
  pending_ops (inner a.1) = from_operations (operations (pending_ops (inner s))) ∧
  scope_policies (inner a.1) = scope_policies (inner s) ∧
  (∀ n st, nodes (inner s) !! n = Some st → node_state_is_empty st = false →
     ∃ st0, (segment_get_node n (disk a.1)).2 = Ok (Some st0) ∧ settle st0 = settle st) ∧
  (∀ n, nodes (inner s) !! n = None →
     (segment_get_node n (disk a.1)).2 = (segment_get_node n (disk s)).2).
Proof using Hfull.
  intros Hlife Hmax Hb Hok Hh Hf Hr a. destruct (lifetime_holds _ _ Hlife) as (Hd & Hu & Hn & Hm).
  destruct (persist_outcome s log p Hu Hd Hn ltac:(lia) Hb (or_introl Hm)) as (Ho & _ & Hk).
  rewrite Hok in Ho. destruct Ho as (Hd' & _ & _ & Hm'). destruct (Hk Hok) as (Huf & En & _).
  destruct (apply_outcome store Hfull (disk s) log (storage_transaction s) p (proj1 Hu)) as (Hp & _);
    [by apply newer_transaction; [|lia]|exact Hb|].
  destruct (storage_transaction_spec s) as (_ & Emeta & _ & Hsub & _).
  pose proof (committed_metadata_snoc log p) as Hmeta. rewrite Hp, Emeta in Hmeta.
  destruct (reopen d (log ++ [p]) _ i k Hh Hd' Hmeta) as (Ha & Hc & Hpo & Hsp & Hg); [simpl; unfold sat_add; lia|done|done|].
  fold a in Ha, Hc, Hpo, Hsp, Hg. split_and!; [done..| |].
  - intros n st Hst He. rewrite Hg. rewrite <-En in Hst. destruct (mir_nodes _ _ Hm' n st Hst) as [He'|(st0 & -> & Hs)].
    + unfold touched. rewrite Huf. done.
    + congruence.
    + eauto.
  - intros n Hnone. rewrite Hg, (up_to_date_node store (disk s) log n Hu), committed_snoc, Hp. simpl.
    destruct (tx_nodes (storage_transaction s) !! n) eqn:E; [|done]. apply Hsub in E. congruence.
Qed.

End lifetime.

(** * Concrete runs *)

Module Disks.
Import Run.
#[local] Existing Instance env.
#[local] Existing Instance senv.

Definition on_disk (d : Disk) : Env := {|
  now_millis n := (1000 + Z.of_nat n)%Z;
  blake3_hex key := key;
  storage_engine := Some (segment_engine (λ _, Ok None) ∅ d);
  materialize_scalar _ v := v;
  json_display _ := "expected"
|}.

(** A new process opens the store. *)
Definition opened (d : Disk) : Attached := (attach_store store (mkAttached demo_db 1 d)).1.

(** [put_json] at a node and the write-back after it, on a disk that fails after
some changes or does not. *)
Definition put_on (f : option nat) (n : string) (v : json) (s : Attached) : Attached * result unit :=
  persist_if_needed store
    (mkAttached (@put_json_inner demo_codec (on_disk (disk s)) n [] v (inner s)).1 (next_storage_tx_id s)
       (mkDisk (files (disk s)) (temp_counter (disk s)) f)).

Definition put (n : string) (v : json) (s : Attached) : Attached := (put_on None n v s).1.

(** The fields of a stored node, and the index entries its manifest lists. *)
Definition stored (n : string) (s : Attached) : option (list string) :=
  match (segment_get_node n (disk s)).2 with Ok (Some st) => Some (btree_keys (fields st)) | _ => None end.

Definition indexed (n : string) (s : Attached) : list string :=
  match (load_node_index_manifest n (disk s)).2 with Ok m => direct_index_keys m | Err _ => [] end.

Definition named : json := JObject [("name", JString "Ada")].
Definition aged : json := JObject [("age", JNumber (PosInt 36))].

Definition fresh : Attached := opened (mkDisk ∅ 0 None).
Definition written : Attached := put "ada" named fresh.

(** A write to a node that is stored but not loaded erases the other fields that are
stored, from the disk as well; writing an empty object erases them all. *)
Lemma unloaded_write_erases_stored :
  stored "ada" written = Some ["name"] ∧
  stored "ada" (put "ada" aged written) = Some ["age"; "name"] ∧
  stored "ada" (put "ada" aged (opened (disk written))) = Some ["age"] ∧
  stored "ada" (put "ada" (JObject []) (opened (disk written))) = Some [].
Proof. split_and!; by vm_compute. Qed.

(** Vacuuming keeps what is in memory, so after opening a store it removes the
nodes that were not read yet. *)
Lemma vacuum_erases_unloaded :
  stored "ada" (vacuum_storage store written).1 = Some ["name"] ∧
  stored "ada" (opened (disk written)) = Some ["name"] ∧
  is_ok (vacuum_storage store (opened (disk written))).2 = true ∧
  stored "ada" (vacuum_storage store (opened (disk written))).1 = None.
Proof. split_and!; by vm_compute. Qed.

(** A commit stopped while it fills a node's temporary file leaves that file behind,
and from then on no snapshot can be exported, neither after recovery nor after a
vacuum. *)
Definition cut_short : Disk := disk (put_on (Some 5) "ada" aged written).1.
Definition mended : Attached := opened (mkDisk (files cut_short) 9 None).

Lemma leftover_temp_blocks_export :
  is_ok (export_snapshot store None (disk written)).2 = true ∧
  stored "ada" mended = Some ["age"; "name"] ∧
  is_ok (export_snapshot store None (disk mended)).2 = false ∧
  is_ok (vacuum_storage store mended).2 = true ∧
  is_ok (export_snapshot store None (disk (vacuum_storage store mended).1)).2 = false.
Proof. split_and!; by vm_compute. Qed.

(** A write-back that failed after the new manifest was written is retried under the
same number and overwrites the record of the first attempt, which alone listed the
index entry to remove: recovery brings the stale entry back. *)
Definition half_done : Attached := (put_on (Some 17) "ada" (JObject [("name", JString "Bea")]) written).1.
Definition retried : Attached * result unit :=
  persist_if_needed store (mkAttached (inner half_done) (next_storage_tx_id half_done)
    (mkDisk (files (disk half_done)) (temp_counter (disk half_done)) None)).

Definition has_entry (key : string) (d : Disk) : bool :=
  match (read_direct_index_bucket_path (direct_index_path key) d).2 with
  | Ok b => bool_decide (is_Some (b !! key))
  | Err _ => false
  end.

Lemma retried_commit_stale_index :
  let old := "direct/6e616d65/s_416461/616461" in
  indexed "ada" written = [old] ∧ is_ok retried.2 = true ∧
  indexed "ada" retried.1 = ["direct/6e616d65/s_426561/616461"] ∧
  has_entry old (disk retried.1) = false ∧ has_entry old (disk (opened (disk retried.1))) = true.
Proof. split_and!; by vm_compute. Qed.

(** Writing one field of a node drops the index entries of the nodes it links to. *)
Lemma incremental_index_loses_links :
  let s := put "bob" (JObject [("home", JObject [("town", JString "Ely")])]) fresh in
  let t := put "bob" aged s in
  indexed "bob" s = ["direct/686f6d652e746f776e/s_456c79/626f62"] ∧
  indexed "bob" t = ["direct/616765/n_c042000000000000/626f62"] ∧
  (direct_index_keys <$> tx_node_indexes (build_storage_transaction 9 (meta 10) (nodes (inner t))) !! "bob") =
    Some ["direct/616765/n_c042000000000000/626f62"; "direct/686f6d652e746f776e/s_456c79/626f62"].
Proof. split_and!; by vm_compute. Qed.

(** ** A life *)

Definition empty_disk : Disk := mkDisk ∅ 0 None.
Definition birth : Attached := mkAttached demo_db 1 empty_disk.
Definition born : Attached := loaded None (mkAttached demo_db 1 (load_metadata store empty_disk).1).

Definition payload_of (s : Attached) : SegmentCommitPayload :=
  match (build_commit_payload (storage_transaction s) (disk s)).2 with Ok p => p | Err _ => committed end.

Definition rename_op : Operation :=
  mkOp "r1:1" "r1" (mkRevision 2000 0 "r1") (SetField "ada" "name" (OScalar (JString "Ada"))).

Definition renamed : Attached :=
  mkAttached (apply_operation_internal rename_op Remote (inner fresh)).1 (next_storage_tx_id fresh) (disk fresh).

Lemma demo_ready : ready demo_db.
Proof. split_and!; [done|apply queue_default_wf|done]. Qed.

Lemma born_built : build_commit_payload (storage_transaction born) (disk born) = (disk born, Ok (payload_of born)).
Proof. vm_cast_no_check (eq_refl (disk born, Ok (payload_of born))). Qed.

Lemma life_fresh : lifetime store (Running fresh) ([] ++ [payload_of born]).
Proof.
  assert (is_ok (attach_store store birth).2 = true) as Hok by (by vm_compute).
  assert ((load_metadata store (disk birth)).2 = Ok None) as Hm by (by vm_compute).
  exact (life_open store birth [] None (payload_of born) (life_new store 0 None) demo_ready Hm ltac:(by vm_compute) born_built Hok).
Qed.

Lemma life_renamed : lifetime store (Running renamed) ([] ++ [payload_of born]).
Proof. exact (life_operation store fresh _ rename_op Remote life_fresh). Qed.

(** A payload can be built on every disk with a history. *)
Lemma built s log :
  history store (disk s) log →
  build_commit_payload (storage_transaction s) (disk s) = (disk s, Ok (payload_of s)).
Proof.
  intros Hh. destruct (history_builds store eq_refl (disk s) log (storage_transaction s) Hh) as [p E].
  unfold payload_of. by rewrite E.
Qed.

Lemma renamed_built : build_commit_payload (storage_transaction renamed) (disk renamed) = (disk renamed, Ok (payload_of renamed)).
Proof.
  pose proof (lifetime_holds store eq_refl (Running renamed) _ life_renamed) as Hl.
  exact (built renamed _ (proj1 (proj1 (proj2 Hl)))).
Qed.

Definition saved : Attached := (persist_if_needed store renamed).1.

Lemma saved_history : history store (disk saved) (([] ++ [payload_of born]) ++ [payload_of renamed]).
Proof.
  assert (is_ok (persist_if_needed store renamed).2 = true) as Hok by (by vm_compute).
  assert (lifetime store (Running saved) (([] ++ [payload_of born]) ++ [payload_of renamed])) as Hl
    by (apply life_persist; [exact life_renamed|by vm_compute|exact renamed_built|exact Hok]).
  apply (lifetime_holds store eq_refl) in Hl as (_ & [Hh _] & _). exact Hh.
Qed.

Lemma reopened_as_persisted_witness :
  let a := attach_store store (mkAttached demo_db 1 (disk saved)) in
  a.2 = Ok true ∧ clock (inner a.1) = clock (inner renamed).
Proof.
  destruct (reopened_as_persisted store eq_refl renamed _ (payload_of renamed) (disk saved) demo_db 1 life_renamed
    ltac:(by vm_compute) renamed_built ltac:(by vm_compute) saved_history ltac:(by vm_compute) demo_ready) as (H1 & H2 & _).
  exact (conj H1 H2).
Defined.

End Disks.
